(* ===== verification/_CoqProject ===== *)
-Q . S2P
Prelude.v
Text.v
Net.v
Io.v
Socks5.v
Matching.v
Geo.v
Hash.v
Crypto.v
Config.v
Resolver.v
Node.v
Tls.v
Core.v
Trojan.v
Vless.v
ProxyProtocol.v
Sniff.v
Aead.v
Duplex.v
Shadowsocks.v
Vmess.v
Anytls.v
Hysteria2.v
Mux.v
Ws.v
H2.v
Mieru.v
Pipeline.v
Outbound.v
SocksUdp.v
Listener.v
Quic.v
Supervisor.v
UdpOverStream.v
Services.v
Log.v
Cli.v
Deployment.v
