(* ===== verification/Prelude.v ===== *)
(** * omni-rs: a verification development of a multi-protocol proxy core

    omni-rs accepts client connections on configured listeners, speaks one of
    many proxy protocols with the client, finds out where the client wants to
    go, chooses an outbound by rules, dials it with the outbound's own protocol
    and relays bytes.  This library models that path from the configuration file
    to the relayed byte, with the protocols and transports on the way, and
    proves what each part promises and what their composition promises.
    Everything is a definition that evaluates; sources are named below without
    the leading [src/crates/].

    ** How the program is put together

    A process ([apps/omni-cli], file Cli) reads a configuration (Config),
    assembles a runtime from it ([CoreRuntime::initialize], file Core): the
    resolver (Resolver), the geo databases (Geo), the connectors and the rules
    of the router (Core over Matching), and the plans of the listeners (Node,
    with certificates from Tls).  [serve] (Cli over Listener) opens every
    listener.  A connection passes the transport of its listener (TLS, PROXY
    header, WebSocket, HTTP upgrade, HTTP/2, multiplexing: Listener over
    ProxyProtocol, Ws, H2, Mux), then the handshake of its protocol (Socks5,
    Trojan, Vless, Vmess, Shadowsocks, Mieru, Anytls; hysteria2 connections come
    by QUIC: Quic over Hysteria2).  The session is sniffed (Sniff), routed and
    relayed (Pipeline); its outbound dials with the client side of the same
    protocols (Outbound).

    ** Files

    - Prelude: outcomes of Rust functions ([res], with a case for panics), the
      [let?] notation, integers with wrap-around, bytes, slices, loops with
      [?], the automation ([norm], [len], the hint databases).
    - Text, Net: the string and address functions of the standard library the
      sources use, on UTF-8 bytes; [ProxyTarget] ([omni-domain/src/stream.rs]).
    - Io: byte streams as the segments a peer delivers and the faults of coming
      writes, the state-and-error monad [io] of the handshakes, [yields] (what a
      handshake does on given bytes, however they are cut), readers ([polls_to]).
    - Hash, Crypto: streaming digests and [omni-proto/src/crypto.rs].
    - Config: [omni-config/src/wire.rs] and
      [omni-core/src/runtime/assembly/validation.rs].
    - Matching, Geo: [omni-domain/src/matching/], [omni-core/src/matching/geo.rs].
    - Resolver: [omni-core/src/resolver/hickory.rs], the [Dialer]'s resolution.
    - Node, Core: [omni-core/src/runtime/assembly/node_builder.rs],
      [runtime/core.rs], the router of [assembly/outbound_artifacts.rs].
    - Tls: [omni-transport/src/tls/mod.rs].
    - Socks5, Trojan, Vless, Vmess, Shadowsocks, Mieru, Anytls, Hysteria2: the
      directories of [omni-proto/src/proto/] (and [omni-domain/src/socks5.rs]),
      both ends of each protocol.  Aead is the interface to the AEAD crates and
      the duplex streams of the encrypted protocols; Duplex: their writing side
      step by step.
    - UdpOverStream: [omni-proto/src/common/codec/udp_over_stream.rs].
    - ProxyProtocol, Ws, H2, Mux: [omni-transport/src/] [proxy_protocol.rs],
      [ws/], [h2/], [grpc/], [xhttp/], [httpup/], and [omni-mux/src/].
    - Sniff: [omni-transport/src/routing.rs], [omni-core/src/pipeline/inspector.rs].
    - Pipeline: [omni-core/src/pipeline/executor.rs], [observability/], the
      routed session and the UDP uplinks of [assembly/listener_executor.rs].
    - Outbound: the connectors of [assembly/outbound_artifacts.rs] with
      [omni-transport/src/dial.rs].
    - SocksUdp: [run_socks_udp_pump] joined to the direct outbound's UDP tasks.
    - Listener: [handle_stream] and the listeners of [serve]; Quic: the task of a
      hysteria2 connection; Supervisor: the accept loops that run side by side.
    - Services: [omni-core/src/] [store/], [security/acme.rs], [ntp.rs].
    - Log: [omni-log/src/]; Cli: [apps/omni-cli/src/], [omni-config/src/lib.rs]
      and [model.rs], [omni-core/src/dataplane/], [CoreRuntime::serve].
    - Deployment: the composition, from a configuration to the bytes of a session.

    ** State and operations

    A handshake is a function of [io]: it takes the stream to a result and the
    stream left.  A task that loops over its input is a Fixpoint on fuel.  State
    shared by tasks (the stream registry and frame queue of AnyTLS, the mux pool
    and its driver, the pooled session of a connector, the UDP sessions of
    hysteria2, the online tracker) is a Record with one step function or step
    relation per operation, and interleavings are lists of steps or [rtc] of the
    relation.  Atomic counters wrap at 64 bits.  An index out of range, a slice
    off its bounds and a debug-independent overflow check are [Panic].

    ** Groups of theorems

    - The whole program: a configuration that is accepted and started serves
      the clients its inbounds name through the outbound its rules choose, and
      nobody else (Deployment).
    - End to end: a client's payload reaches the server of the chosen outbound
      unchanged (Pipeline, Listener, Quic), also through chained proxies
      (Outbound), and only a client that presents what its listener asks for
      gets a session ([presents] of Listener, from the checks of each protocol;
      naive and SOCKS5 without a user ask for nothing, hysteria2 for any
      password).
    - Both ends of each protocol agree, for every cut of the bytes into segments
      ([*_interop], Ws, H2, Anytls, Mieru, Vmess); what an attacker without
      credentials can reach ([*_auth_safety]); where the two ends do not agree,
      what happens instead ([mieru_no_session], [client_request_fails],
      [varint_exact], [normalize_bare_v6]).
    - Streams over WebSocket and HTTP/2: what is read, and when a reader waits
      or gets the end (Ws, H2).
    - Assembly: validation accepts exactly the configurations with sound
      outbounds, inbounds and tags, plans are well formed, rules
      and connectors are those of the configuration, listeners are one per
      address, exit codes say whether all of this succeeded (Config, Node, Core,
      Listener, Cli).
    - Routing: compiled matchers equal the rule's meaning, the order of rules.
    - Running: listeners do not affect each other, and how each ends (Supervisor).
    - UDP: requests and replies of a SOCKS5 association under any interleaving
      of its tasks, and what it does not promise (SocksUdp); sockets bound to
      [0.0.0.0] send to IPv4 addresses only ([inet_send] of Net).
    - State: leases of the mux pool, calls on a pooled session, AnyTLS queues,
      UDP sessions, the user store and its file.
    - Codecs: round trips and the exact set of values that survive.

    ** Fuel

    Fuel is never a bound of the program: each Fixpoint on fuel is applied with
    more turns than its input allows, or its theorem says how many are enough.
    A reading loop takes at least one byte per turn or ends, so the pending
    bytes plus a constant suffice ([read_loop], [recv_from], [accept_stream],
    [mieru_serve]); [inspect_go] stops after [HTTP_MAX_READ] bytes; number
    printers get twenty digits, enough for 64 bits; drivers are given one turn
    per poll result.  [recv_from] and its like return [None] without fuel, so
    running out is visible, and [*_closed], [*_fuel] and [*_frame] lemmas show
    the amount that is enough.

    ** Interfaces

    Code that is not in the repository is a class or an argument: [Json],
    [RegexLib], [Sha2], [BlockCipher], [Aead] and [VmessCrypto] (with the laws
    used, and a concrete instance of each that the witnesses run on), [Network]
    below the outbounds, [Frontend] below the listeners, [StoreEnv] with
    [StoreLaws] below the user store; random draws, the clock, files, lookups,
    [copy_bidirectional] (with [copies], what tokio documents of it), rcgen,
    quinn, h3, h2, httparse, tungstenite, smux and yamux are arguments.

    ** Not modelled

    - The options given to sockets, to QUIC and to TLS libraries, timers other
      than the results of timeouts, task scheduling below the granularity of one
      operation, and memory limits.
    - Stream adapters that only delegate a poll to the stream inside them, other
      than those of Mux.
    - Fields of the configuration that no function reads, and the derived
      decoders of configuration structures (serde).
    - Modules that only define [NotReady] (the panel and limiter crates,
      reality, ktls, vision, xudp, some of mieru), command-line parsing (clap),
      the log filter and its JSON layer, tests. *)

From stdpp Require Export base tactics option list list_numbers numbers gmap.
From Stdlib Require Export ZArith Lia String Ascii.
From stdpp Require Export strings.

#[global] Set Default Proof Using "Type".
Open Scope Z_scope.
Open Scope list_scope.

(** ** Outcomes of Rust functions *)

(** [res E A] is [Result<A, E>] with one more outcome: [Panic], for an index
    out of range, a slice off a character boundary, or an arithmetic check
    that aborts the task. *)
Inductive res (E A : Type) : Type :=
| Ok (a : A)
| Err (e : E)
| Panic.
Arguments Ok {E A} a.
Arguments Err {E A} e.
Arguments Panic {E A}.

Declare Scope rust_scope.
Delimit Scope rust_scope with rust.
Open Scope rust_scope.

(** The [?] operator: errors and panics leave the function at once. *)
Notation "'let?' p := e 'in' k" :=
  (match e with Ok p => k | Err x => Err x | Panic => Panic end)
  (at level 10, p pattern, e at level 100, k at level 200) : rust_scope.

(** [?] on an [Option] inside a function returning [Option]. *)
Notation "'let+' p := e 'in' k" :=
  (match e with Some p => k | None => None end)
  (at level 10, p pattern, e at level 100, k at level 200) : rust_scope.

Definition map_err {E F A} (f : E → F) (r : res E A) : res F A :=
  match r with Ok a => Ok a | Err e => Err (f e) | Panic => Panic end.

Definition ok_or {E A} (e : E) (o : option A) : res E A :=
  match o with Some a => Ok a | None => Err e end.

(** [Result::ok] on a computation that cannot panic is [res_ok]; a panic is
    never turned into [None] by the code, so callers keep it apart. *)
Definition res_ok {E A} (r : res E A) : option A :=
  match r with Ok a => Some a | _ => None end.

Definition is_ok {E A} (r : res E A) : bool :=
  match r with Ok _ => true | _ => false end.

Definition is_panic {E A} (r : res E A) : bool :=
  match r with Panic => true | _ => false end.

#[export] Instance res_eq_dec {E A} `{!EqDecision E, !EqDecision A} :
  EqDecision (res E A).
Proof. solve_decision. Defined.

(** ** Machine integers

    A w-bit unsigned integer is a [Z] kept in range; [wrap w] is the
    truncation an [as] cast or a wrapping operation performs. *)

Definition wrap (w x : Z) : Z := x mod 2 ^ w.
Notation "'u8!' x" := (wrap 8 x) (at level 10, x at level 9) : rust_scope.
Notation "'u16!' x" := (wrap 16 x) (at level 10, x at level 9) : rust_scope.
Notation "'u32!' x" := (wrap 32 x) (at level 10, x at level 9) : rust_scope.
Notation "'u64!' x" := (wrap 64 x) (at level 10, x at level 9) : rust_scope.

Definition in_range (w x : Z) : Prop := 0 ≤ x < 2 ^ w.
Abbreviation is_u8 := (in_range 8).
Abbreviation is_u16 := (in_range 16).
Abbreviation is_u32 := (in_range 32).
Abbreviation is_u64 := (in_range 64).

#[export] Instance in_range_dec w x : Decision (in_range w x).
Proof. unfold in_range. apply _. Defined.

Definition wadd (w a b : Z) : Z := wrap w (a + b).
Definition wmul (w a b : Z) : Z := wrap w (a * b).
Definition wnot (w a : Z) : Z := Z.lxor a (Z.ones w).
Definition rotl (w a n : Z) : Z :=
  Z.lor (wrap w (Z.shiftl a n)) (Z.shiftr a (w - n)).

(** Bytes: a [u8] is a [Z]; [bytes l] says every element is in range. *)
Definition bytes (l : list Z) : Prop := Forall is_u8 l.

#[export] Instance bytes_dec l : Decision (bytes l).
Proof. unfold bytes. apply _. Defined.

(** Big-endian and little-endian conversions, [to_be_bytes] and friends. *)
Fixpoint le_bytes (n : nat) (v : Z) : list Z :=
  match n with
  | O => []
  | S n => wrap 8 v :: le_bytes n (Z.shiftr v 8)
  end.
Definition be_bytes (n : nat) (v : Z) : list Z := rev (le_bytes n v).

Fixpoint le_value (l : list Z) : Z :=
  match l with
  | [] => 0
  | b :: l => b + 256 * le_value l
  end.
Definition be_value (l : list Z) : Z := le_value (rev l).

(** ** Slices *)

(** [buf\[i\]] panics out of range. *)
Definition idx {E} (l : list Z) (i : nat) : res E Z :=
  match l !! i with Some b => Ok b | None => Panic end.

(** [&buf\[i..j\]] panics when [i > j] or [j > buf.len()]. *)
Definition slice {E} (l : list Z) (i j : nat) : res E (list Z) :=
  if decide (i ≤ j ∧ j ≤ length l)%nat then Ok (take (j - i) (drop i l)) else Panic.

(** [&buf\[i..\]]. *)
Definition slice_from {E} (l : list Z) (i : nat) : res E (list Z) :=
  slice l i (length l).

(** [slice::chunks(n)] for [n > 0]: pieces of [n] elements, the last one
    shorter.  [chunks_fuel] takes the slice's length as fuel, enough because
    every step removes at least one element. *)
Fixpoint chunks_fuel {A} (fuel n : nat) (l : list A) : list (list A) :=
  match fuel with
  | O => []
  | S fuel =>
    match l with
    | [] => []
    | _ => take n l :: chunks_fuel fuel n (drop n l)
    end
  end.
Definition chunks {A} (n : nat) (l : list A) : list (list A) :=
  chunks_fuel (length l) n l.

(** ** Tactics *)

(** Split every hypothesis that is a conjunction, existential or a boolean
    test of an order, and substitute. *)
Ltac norm1 :=
  match goal with
  | H : _ ∧ _ |- _ => destruct H
  | H : ∃ _, _ |- _ => destruct H
  | H : (_ && _)%bool = true |- _ => apply andb_true_iff in H
  | H : (_ || _)%bool = false |- _ => apply orb_false_iff in H
  | H : negb _ = true |- _ => apply negb_true_iff in H
  | H : negb _ = false |- _ => apply negb_false_iff in H
  | H : bool_decide _ = true |- _ => apply bool_decide_eq_true in H
  | H : bool_decide _ = false |- _ => apply bool_decide_eq_false in H
  | H : (_ =? _)%Z = true |- _ => apply Z.eqb_eq in H
  | H : (_ =? _)%Z = false |- _ => apply Z.eqb_neq in H
  | H : (_ <? _)%Z = true |- _ => apply Z.ltb_lt in H
  | H : (_ <? _)%Z = false |- _ => apply Z.ltb_ge in H
  | H : (_ <=? _)%Z = true |- _ => apply Z.leb_le in H
  | H : (_ <=? _)%Z = false |- _ => apply Z.leb_gt in H
  | H : (_ =? _)%nat = true |- _ => apply Nat.eqb_eq in H
  | H : (_ =? _)%nat = false |- _ => apply Nat.eqb_neq in H
  | H : (_ <? _)%nat = true |- _ => apply Nat.ltb_lt in H
  | H : (_ <? _)%nat = false |- _ => apply Nat.ltb_ge in H
  | H : (_ <=? _)%nat = true |- _ => apply Nat.leb_le in H
  | H : (_ <=? _)%nat = false |- _ => apply Nat.leb_gt in H
  end.
Ltac norm := repeat norm1; simplify_eq/=.

(** Case analysis on the scrutinee of a match or an if of the goal. *)
Ltac case_goal :=
  match goal with
  | |- context [match ?x with _ => _ end] =>
    lazymatch x with
    | context [match _ with _ => _ end] => fail
    | _ => destruct x eqn:?
    end
  end.
Ltac case_hyp H :=
  match type of H with
  | context [match ?x with _ => _ end] =>
    lazymatch x with
    | context [match _ with _ => _ end] => fail
    | _ => destruct x eqn:?
    end
  end.

Create HintDb rust.
Create Rewrite HintDb rust_len.

(** ** Lemmas on integers and bytes *)

Lemma wrap_range w x : 0 ≤ w → in_range w (wrap w x).
Proof. intros. unfold in_range, wrap. apply Z.mod_pos_bound. lia. Qed.

Lemma wrap_small w x : in_range w x → wrap w x = x.
Proof. unfold in_range, wrap. intros. by apply Z.mod_small. Qed.

Lemma wrap_wrap w x : 0 ≤ w → wrap w (wrap w x) = wrap w x.
Proof. intros. by apply wrap_small, wrap_range. Qed.

Lemma length_le_bytes n v : length (le_bytes n v) = n.
Proof. revert v; induction n; intros; simpl; auto. Qed.

Lemma length_be_bytes n v : length (be_bytes n v) = n.
Proof. unfold be_bytes. rewrite length_rev. apply length_le_bytes. Qed.

Lemma le_bytes_bytes n v : bytes (le_bytes n v).
Proof.
  revert v; induction n as [|n IH]; intros; simpl; constructor.
  - by apply wrap_range.
  - apply IH.
Qed.

Lemma be_bytes_bytes n v : bytes (be_bytes n v).
Proof. unfold bytes, be_bytes. apply Forall_rev, le_bytes_bytes. Qed.

Lemma le_value_bytes n v : le_value (le_bytes n v) = v mod 256 ^ Z.of_nat n.
Proof.
  revert v; induction n as [|n IH]; intros v; cbn [le_bytes le_value].
  - by rewrite Z.mod_1_r.
  - rewrite IH, Z.shiftr_div_pow2 by lia. unfold wrap.
    replace (256 ^ Z.of_nat (S n)) with (256 * 256 ^ Z.of_nat n)
      by (rewrite Nat2Z.inj_succ, Z.pow_succ_r; lia).
    change (2 ^ 8) with 256. rewrite Z.rem_mul_r by lia. reflexivity.
Qed.

Lemma be_value_bytes n v : be_value (be_bytes n v) = v mod 256 ^ Z.of_nat n.
Proof. unfold be_value, be_bytes. rewrite rev_involutive. apply le_value_bytes. Qed.

Lemma le_value_cons b l : le_value (b :: l) = b + 256 * le_value l.
Proof. reflexivity. Qed.

Lemma be_value_cons b l : be_value (b :: l) = b * 256 ^ Z.of_nat (length l) + be_value l.
Proof.
  unfold be_value. cbn [rev]. rewrite <- (length_rev l). generalize (rev l). clear. intros k.
  induction k as [|x k IH]; cbn [app length].
  - change (256 ^ Z.of_nat 0) with 1. rewrite le_value_cons. change (le_value []) with 0. lia.
  - rewrite !le_value_cons, IH, Nat2Z.inj_succ, Z.pow_succ_r by lia. ring.
Qed.

Lemma be_value_u16 v : is_u16 v → be_value (be_bytes 2 v) = v.
Proof. intros. rewrite be_value_bytes. by apply Z.mod_small. Qed.

Lemma be_value_u32 v : is_u32 v → be_value (be_bytes 4 v) = v.
Proof. intros. rewrite be_value_bytes. by apply Z.mod_small. Qed.

Lemma be_value_u64 v : is_u64 v → be_value (be_bytes 8 v) = v.
Proof. intros. rewrite be_value_bytes. by apply Z.mod_small. Qed.

Lemma le_value_range l : bytes l → 0 ≤ le_value l < 256 ^ Z.of_nat (length l).
Proof.
  induction 1 as [|b l Hb Hl IH]; cbn [le_value length]; [lia|].
  rewrite Nat2Z.inj_succ, Z.pow_succ_r by lia. unfold in_range in Hb. lia.
Qed.

Lemma be_value_range l : bytes l → 0 ≤ be_value l < 256 ^ Z.of_nat (length l).
Proof.
  intros. unfold be_value. rewrite <- (length_rev l).
  by apply le_value_range, Forall_rev.
Qed.

Lemma le_bytes_value l : bytes l → le_bytes (length l) (le_value l) = l.
Proof.
  induction 1 as [|b l Hb Hl IH]; cbn [le_value length le_bytes]; [done|].
  unfold in_range in Hb. f_equal.
  - unfold wrap. change (2 ^ 8) with 256 in *.
    rewrite (Z.mul_comm 256), Z_mod_plus_full. by apply Z.mod_small.
  - rewrite Z.shiftr_div_pow2 by lia. change (2 ^ 8) with 256 in *.
    rewrite (Z.mul_comm 256), Z_div_plus_full, Z.div_small, Z.add_0_l by lia. done.
Qed.

Lemma be_bytes_value l n : bytes l → length l = n → be_bytes n (be_value l) = l.
Proof.
  intros Hl <-. unfold be_bytes, be_value. rewrite <- (length_rev l).
  rewrite le_bytes_value by by apply Forall_rev. apply rev_involutive.
Qed.

Lemma bytes_app l k : bytes (l ++ k) ↔ bytes l ∧ bytes k.
Proof. apply Forall_app. Qed.

(** ** Lemmas on slices *)

Lemma idx_Some {E} l i b : l !! i = Some b → @idx E l i = Ok b.
Proof. unfold idx. by intros ->. Qed.

Lemma idx_lt {E} l i : (i < length l)%nat → ∃ b, @idx E l i = Ok b ∧ l !! i = Some b.
Proof.
  intros Hi. destruct (lookup_lt_is_Some_2 l i Hi) as [b Hb].
  exists b. split; [by apply idx_Some | done].
Qed.

Lemma idx_app_l {E} l k i : (i < length l)%nat → @idx E (l ++ k) i = idx l i.
Proof. intros. unfold idx. by rewrite lookup_app_l. Qed.

Lemma idx_app_r {E} l k i :
  (length l ≤ i)%nat → @idx E (l ++ k) i = idx k (i - length l).
Proof. intros. unfold idx. by rewrite lookup_app_r. Qed.

Lemma slice_ok {E} l i j :
  (i ≤ j)%nat → (j ≤ length l)%nat → @slice E l i j = Ok (take (j - i) (drop i l)).
Proof. intros. unfold slice. by rewrite decide_True. Qed.

Lemma slice_mid {E} a b c i j :
  i = length a → j = (length a + length b)%nat → @slice E (a ++ b ++ c) i j = Ok b.
Proof.
  intros -> ->. rewrite slice_ok by (rewrite ?length_app; lia).
  rewrite drop_app_length, Nat.add_comm, Nat.add_sub, take_app_length. done.
Qed.

Lemma slice_from_ok {E} l i : (i ≤ length l)%nat → @slice_from E l i = Ok (drop i l).
Proof.
  intros. unfold slice_from. rewrite slice_ok by lia.
  rewrite take_ge; [done | rewrite length_drop; lia].
Qed.

Lemma slice_from_app {E} a b i : i = length a → @slice_from E (a ++ b) i = Ok b.
Proof. intros ->. rewrite slice_from_ok by (rewrite length_app; lia). by rewrite drop_app_length. Qed.

Lemma slice_length {E} l i j r : @slice E l i j = Ok r → length r = (j - i)%nat.
Proof.
  unfold slice. case_decide as Hd; [|done]. intros [= <-].
  rewrite length_take, length_drop. lia.
Qed.

(** ** Lemmas on [chunks] *)

Lemma chunks_fuel_concat {A} fuel n (l : list A) :
  (0 < n)%nat → (length l ≤ fuel)%nat → concat (chunks_fuel fuel n l) = l.
Proof.
  intros Hn. revert l; induction fuel as [|fuel IH]; intros l Hl; simpl.
  { destruct l; simpl in *; [done | lia]. }
  destruct l as [|x l]; [done|]. cbn [concat].
  rewrite IH by (rewrite length_drop; simpl in *; lia). apply take_drop.
Qed.

Lemma chunks_concat {A} n (l : list A) : (0 < n)%nat → concat (chunks n l) = l.
Proof. intros. by apply chunks_fuel_concat. Qed.

Lemma chunks_fuel_Forall {A} fuel n (l : list A) :
  (0 < n)%nat → Forall (λ c, 0 < length c ≤ n)%nat (chunks_fuel fuel n l).
Proof.
  intros Hn. revert l; induction fuel as [|fuel IH]; intros l; simpl; [constructor|].
  destruct l as [|x l]; [constructor|]. constructor; [|apply IH].
  rewrite length_take. simpl. lia.
Qed.

(** Every chunk is non-empty and at most [n] long. *)
Lemma chunks_Forall {A} n (l : list A) :
  (0 < n)%nat → Forall (λ c, 0 < length c ≤ n)%nat (chunks n l).
Proof. intros. by apply chunks_fuel_Forall. Qed.

Lemma chunks_small {A} n (l : list A) :
  l ≠ [] → (length l ≤ n)%nat → chunks n l = [l].
Proof.
  unfold chunks. destruct l as [|x l]; [done|]. intros _ Hl.
  cbn [length chunks_fuel]. rewrite take_ge, drop_ge by done.
  by destruct (length l).
Qed.

(** ** Two-byte fields *)

(** [u16::from_be_bytes(\[a, b\])]. *)
Definition u16_be (a b : Z) : Z := be_value [a; b].

Lemma be_bytes_2 p : be_bytes 2 p = [wrap 8 (Z.shiftr p 8); wrap 8 p].
Proof. reflexivity. Qed.

Lemma u16_be_bytes p : is_u16 p → u16_be (wrap 8 (Z.shiftr p 8)) (wrap 8 p) = p.
Proof. intros. unfold u16_be. rewrite <- be_bytes_2. by apply be_value_u16. Qed.

Lemma u16_be_range a b : is_u8 a → is_u8 b → is_u16 (u16_be a b).
Proof.
  intros. apply (be_value_range [a; b]). unfold bytes. by rewrite !Forall_cons.
Qed.

Lemma be_bytes_u16_be a b : is_u8 a → is_u8 b → be_bytes 2 (u16_be a b) = [a; b].
Proof. intros. apply be_bytes_value; [unfold bytes; by rewrite !Forall_cons | done]. Qed.

Lemma bytes_lookup l i b : bytes l → l !! i = Some b → is_u8 b.
Proof. intros Hl Hb. by apply (Forall_lookup_1 _ _ _ _ Hl Hb). Qed.

Lemma bytes_take l n : bytes l → bytes (take n l).
Proof. apply Forall_take. Qed.
Lemma bytes_drop l n : bytes l → bytes (drop n l).
Proof. apply Forall_drop. Qed.

Lemma wrap_Z_of_nat_u8 n : (n < 256)%nat → wrap 8 (Z.of_nat n) = Z.of_nat n.
Proof. intros. apply wrap_small. unfold in_range. lia. Qed.

#[export] Hint Resolve bytes_take bytes_drop u16_be_range : rust.
#[export] Hint Resolve wrap_range be_bytes_bytes le_bytes_bytes : rust.
#[export] Hint Rewrite length_be_bytes length_le_bytes @length_app @length_take
  @length_drop @length_replicate @length_rev @length_map : rust_len.

(** Length arithmetic: normalise [length] of the usual list operations, then
    linear arithmetic. *)
Ltac len := autorewrite with rust_len in *; cbn [length] in *; try lia.

Lemma bytes_cons b l : bytes (b :: l) ↔ is_u8 b ∧ bytes l.
Proof. apply Forall_cons. Qed.
Lemma bytes_nil : bytes [].
Proof. constructor. Qed.

(** Byte-range goals about concatenations of literals and encoded fields. *)
Ltac byt :=
  rewrite ?bytes_cons, ?bytes_app;
  repeat split;
  first [ assumption | apply bytes_nil | apply be_bytes_bytes | apply le_bytes_bytes
        | apply wrap_range; lia | (unfold in_range in *; lia) | auto with rust | idtac ].

#[global] Arguments be_bytes : simpl never.
#[global] Arguments le_bytes : simpl never.
#[global] Arguments be_value : simpl never.
#[global] Arguments le_value : simpl never.
#[global] Arguments u16_be : simpl never.
#[global] Arguments wrap : simpl never.
#[global] Arguments rotl : simpl never.
#[global] Arguments idx : simpl never.
#[global] Arguments slice : simpl never.
#[global] Arguments slice_from : simpl never.

(** ** Inversion of bounds-checked accesses *)

Lemma idx_inv {E} l i b : @idx E l i = Ok b → l !! i = Some b.
Proof. unfold idx. destruct (l !! i); congruence. Qed.

Lemma slice_inv {E} l i j r :
  @slice E l i j = Ok r → (i ≤ j ≤ length l)%nat ∧ r = take (j - i) (drop i l).
Proof. unfold slice. case_decide; [|done]. by intros [= <-]. Qed.

(** A field of [n] bytes followed by two bytes, read by a slice and two
    indexings, is a prefix of what was read. *)
Lemma take_two (l : list Z) n x y :
  l !! n = Some x → l !! S n = Some y → l = take n l ++ x :: y :: drop (n + 2) l.
Proof.
  intros Hx Hy. rewrite <- (take_drop n l) at 1. f_equal.
  rewrite (drop_S _ _ _ Hx), (drop_S _ _ _ Hy). by rewrite Nat.add_comm.
Qed.

(** Split a successful chain of [let?] in a hypothesis, discarding the
    branches that fail. *)
Ltac ok_inv H :=
  repeat (case_hyp H; try discriminate H; norm).

Lemma idx_not_panic {E} l i : (i < length l)%nat → @idx E l i ≠ Panic.
Proof. intros Hi. destruct (@idx_lt E l i Hi) as (b & -> & _). done. Qed.

(** Decide a closed decidable goal by evaluation. *)
Ltac by_decide := refine (bool_decide_eq_true_1 _ _); vm_compute; reflexivity.

Lemma two_bytes {E F} l x y :
  length l = 2%nat → @idx E l 0 = Ok x → @idx F l 1 = Ok y → l = [x; y].
Proof.
  intros Hl Hx Hy. apply idx_inv in Hx, Hy.
  destruct l as [|a [|b [|]]]; try done. cbn in *. congruence.
Qed.

(** ** Disjoint bit fields and finite checks *)

Lemma lor_shiftl_add a b n :
  0 ≤ n → 0 ≤ a < 2 ^ n → Z.lor a (Z.shiftl b n) = a + b * 2 ^ n.
Proof.
  intros Hn Ha.
  assert (Hl : Z.land a (Z.shiftl b n) = 0).
  { apply Z.bits_inj'. intros i Hi. rewrite Z.land_spec, Z.bits_0, Z.shiftl_spec by lia.
    destruct (decide (i < n)) as [H|H].
    - rewrite (Z.testbit_neg_r b) by lia. apply andb_false_r.
    - rewrite <- (Z.mod_small a (2 ^ n)) by done.
      rewrite Z.mod_pow2_bits_high by lia. done. }
  rewrite <- Z.lxor_lor, <- Z.add_nocarry_lxor by done.
  by rewrite Z.shiftl_mul_pow2.
Qed.

(** A boolean property of a byte, checked on all 256 values. *)
Lemma u8_forall (f : Z → bool) b :
  forallb f (seqZ 0 256) = true → is_u8 b → f b = true.
Proof.
  intros Hf Hb. apply (proj1 (forallb_forall _ _) Hf).
  apply list_elem_of_In, elem_of_seqZ. unfold in_range in Hb. lia.
Qed.

(** ** Loops with an early return *)

(** A [for] loop with [?] inside. *)
Fixpoint try_fold {E A B} (f : A → B → res E A) (a : A) (l : list B) : res E A :=
  match l with
  | [] => Ok a
  | b :: l => let? a := f a b in try_fold f a l
  end.

Lemma try_fold_app {E A B} (f : A → B → res E A) a l k :
  try_fold f a (l ++ k) = let? b := try_fold f a l in try_fold f b k.
Proof.
  revert a; induction l as [|x l IH]; intros a; simpl; [done|].
  destruct (f a x); [apply IH | done..].
Qed.

Lemma NoDup_map_inj {A B} (f : A → B) l x y :
  NoDup (map f l) → x ∈ l → y ∈ l → f x = f y → x = y.
Proof.
  induction l as [|a l IH]; cbn; [set_solver|]. intros [Hn HN]%NoDup_cons Hx Hy E.
  apply elem_of_cons in Hx as [->|Hx], Hy as [->|Hy]; [done| | |by apply IH].
  - exfalso. apply Hn. rewrite E. apply list_elem_of_fmap. eauto.
  - exfalso. apply Hn. rewrite <- E. apply list_elem_of_fmap. eauto.
Qed.

(** ** Prefixes *)

(** If [a ++ more] starts with [b] and [a] is long enough, [a] starts with [b]. *)
Lemma prefix_split {A} (a more b rest : list A) :
  a ++ more = b ++ rest → (length b ≤ length a)%nat →
  a = b ++ drop (length b) a ∧ drop (length b) a ++ more = rest.
Proof.
  intros E Hl. assert (Ha : a = b ++ drop (length b) a).
  { rewrite <- (take_drop (length b) a) at 1. f_equal.
    apply (f_equal (take (length b))) in E.
    by rewrite take_app_le, take_app_length in E by lia. }
  split; [done|]. rewrite Ha, <- app_assoc in E. by apply app_inv_head in E.
Qed.
