(* ===== verification/Text.v ===== *)
(** * Text: Rust strings

    A [String] or [&str] is the list of its UTF-8 bytes.  This file models the
    string functions of the standard library that the sources call: ASCII case
    mapping and comparison, prefix, suffix and substring tests, splitting,
    trimming, UTF-8 validation ([std::str::from_utf8]) and lossy decoding
    ([String::from_utf8_lossy]), and the decimal and hexadecimal integer
    parsers and printers. *)

From S2P Require Import Prelude.

Abbreviation str := (list Z).

(** A string literal as its bytes. *)
Fixpoint bs (s : string) : list Z :=
  match s with
  | EmptyString => []
  | String c s => Z.of_N (N_of_ascii c) :: bs s
  end.
Arguments bs : simpl never.

(** ** ASCII *)

Definition lower1 (b : Z) : Z := if (65 <=? b) && (b <=? 90) then b + 32 else b.
(** [str::to_ascii_lowercase]. *)
Definition to_ascii_lowercase (s : str) : str := map lower1 s.
(** [str::eq_ignore_ascii_case]. *)
Definition eq_ignore_ascii_case (a b : str) : bool :=
  bool_decide (to_ascii_lowercase a = to_ascii_lowercase b).

Definition is_digit (b : Z) : bool := (48 <=? b) && (b <=? 57).
Definition is_hexdigit (b : Z) : bool :=
  is_digit b || ((97 <=? b) && (b <=? 102)) || ((65 <=? b) && (b <=? 70)).

(** ** Substrings *)

Fixpoint starts_with (p s : str) : bool :=
  match p, s with
  | [], _ => true
  | a :: p, b :: s => (a =? b) && starts_with p s
  | _ :: _, [] => false
  end.

Definition ends_with (p s : str) : bool := starts_with (rev p) (rev s).

(** Byte offset of the first occurrence of [p], as [str::find] or
    [windows(n).position] return it. *)
Fixpoint find_sub (p s : str) : option nat :=
  if starts_with p s then Some O
  else match s with
       | [] => None
       | _ :: s => option_map S (find_sub p s)
       end.

Definition contains (p s : str) : bool :=
  match find_sub p s with Some _ => true | None => false end.

Definition strip_prefix (p s : str) : option str :=
  if starts_with p s then Some (drop (length p) s) else None.

(** [str::split_once(c)] and [rsplit_once(c)] for an ASCII [c]. *)
Fixpoint split_once (c : Z) (s : str) : option (str * str) :=
  match s with
  | [] => None
  | b :: s =>
    if b =? c then Some ([], s)
    else match split_once c s with
         | Some (a, r) => Some (b :: a, r)
         | None => None
         end
  end.
Definition rsplit_once (c : Z) (s : str) : option (str * str) :=
  match split_once c (rev s) with
  | Some (a, r) => Some (rev r, rev a)
  | None => None
  end.

(** [str::split(c)]: always at least one piece. *)
Fixpoint split (c : Z) (s : str) : list str :=
  match s with
  | [] => [[]]
  | b :: s =>
    if b =? c then [] :: split c s
    else match split c s with
         | p :: ps => (b :: p) :: ps
         | [] => [[b]]
         end
  end.

(** [str::split("\r\n")]. *)
Fixpoint split_crlf (s : str) : list str :=
  match s with
  | [] => [[]]
  | b :: s' =>
    let keep := match split_crlf s' with
                | p :: ps => (b :: p) :: ps
                | [] => [[b]]
                end in
    match s' with
    | b' :: s'' => if (b =? 13) && (b' =? 10) then [] :: split_crlf s'' else keep
    | [] => keep
    end
  end.

(** [str::trim_start_matches(c)] and [trim_end_matches(c)] for an ASCII [c]. *)
Fixpoint trim_start_char (c : Z) (s : str) : str :=
  match s with
  | b :: s' => if b =? c then trim_start_char c s' else s
  | [] => []
  end.
Definition trim_end_char (c : Z) (s : str) : str := rev (trim_start_char c (rev s)).

(** ** UTF-8 *)

Definition cont (b : Z) : bool := (128 <=? b) && (b <=? 191).

(** One step of the decoder at the head of a non-empty input: whether a
    well-formed scalar value starts there, and how many bytes it takes; for an
    ill-formed one, the length of the maximal well-formed prefix that the
    lossy decoder replaces by one U+FFFD. *)
Definition utf8_step (s : str) : bool * nat :=
  match s with
  | [] => (false, O)
  | b0 :: t =>
    if b0 <? 128 then (true, 1%nat)
    else if (194 <=? b0) && (b0 <=? 223) then
      match t with
      | b1 :: _ => if cont b1 then (true, 2%nat) else (false, 1%nat)
      | [] => (false, 1%nat)
      end
    else if (224 <=? b0) && (b0 <=? 239) then
      match t with
      | b1 :: t1 =>
        if ((b0 =? 224) && (160 <=? b1) && (b1 <=? 191))
           || ((225 <=? b0) && (b0 <=? 236) && cont b1)
           || ((b0 =? 237) && (128 <=? b1) && (b1 <=? 159))
           || ((238 <=? b0) && cont b1)
        then match t1 with
             | b2 :: _ => if cont b2 then (true, 3%nat) else (false, 2%nat)
             | [] => (false, 2%nat)
             end
        else (false, 1%nat)
      | [] => (false, 1%nat)
      end
    else if (240 <=? b0) && (b0 <=? 244) then
      match t with
      | b1 :: t1 =>
        if ((b0 =? 240) && (144 <=? b1) && (b1 <=? 191))
           || ((241 <=? b0) && (b0 <=? 243) && cont b1)
           || ((b0 =? 244) && (128 <=? b1) && (b1 <=? 143))
        then match t1 with
             | b2 :: t2 =>
               if cont b2 then
                 match t2 with
                 | b3 :: _ => if cont b3 then (true, 4%nat) else (false, 3%nat)
                 | [] => (false, 3%nat)
                 end
               else (false, 2%nat)
             | [] => (false, 2%nat)
             end
        else (false, 1%nat)
      | [] => (false, 1%nat)
      end
    else (false, 1%nat)
  end.

(** The input cut into well-formed scalar values and ill-formed pieces; the
    input's length is enough fuel because every step takes a byte. *)
Fixpoint utf8_pieces (fuel : nat) (s : str) : list (bool * str) :=
  match fuel with
  | O => []
  | S fuel =>
    match s with
    | [] => []
    | _ => let '(ok, n) := utf8_step s in
           (ok, take n s) :: utf8_pieces fuel (drop n s)
    end
  end.

(** [std::str::from_utf8(s).is_ok()]. *)
Definition utf8_valid (s : str) : bool :=
  forallb fst (utf8_pieces (length s) s).

Definition replacement : str := [239; 191; 189].

(** [String::from_utf8_lossy]. *)
Definition from_utf8_lossy (s : str) : str :=
  concat (map (λ p : bool * str, if p.1 then p.2 else replacement)
              (utf8_pieces (length s) s)).

(** The characters of a valid string, each as its bytes. *)
Definition chars (s : str) : list str := map snd (utf8_pieces (length s) s).

(** [char::is_whitespace] (the Unicode White_Space property). *)
Definition is_whitespace (c : str) : bool :=
  match c with
  | [b] => ((9 <=? b) && (b <=? 13)) || (b =? 32)
  | [194; b] => (b =? 133) || (b =? 160)
  | [225; 154; 128] => true
  | [226; 128; b] => ((128 <=? b) && (b <=? 138)) || (b =? 168) || (b =? 169) || (b =? 175)
  | [226; 129; 159] => true
  | [227; 128; 128] => true
  | _ => false
  end.

Fixpoint drop_ws (cs : list str) : list str :=
  match cs with
  | c :: cs' => if is_whitespace c then drop_ws cs' else cs
  | [] => []
  end.

(** [str::trim]. *)
Definition trim (s : str) : str := concat (rev (drop_ws (rev (drop_ws (chars s))))).

(** [str::split_whitespace]; [cur] is the word being read. *)
Fixpoint words (cs : list str) (cur : str) : list str :=
  match cs with
  | [] => match cur with [] => [] | _ => [cur] end
  | c :: cs =>
    if is_whitespace c then match cur with [] => words cs [] | _ => cur :: words cs [] end
    else words cs (cur ++ c)
  end.
Definition split_whitespace (s : str) : list str := words (chars s) [].

(** [s.lines().next()]: a line ends with a line feed, before which one carriage
    return is dropped. *)
Definition first_line (s : str) : option str :=
  match s with
  | [] => None
  | _ =>
    match split_once 10 s with
    | Some (l, _) => Some (if ends_with [13] l then take (length l - 1) l else l)
    | None => Some s
    end
  end.

(** A byte offset is a character boundary of a valid string when it is 0, the
    length, or not a continuation byte ([str::is_char_boundary]). *)
Definition is_char_boundary (s : str) (i : nat) : bool :=
  if (i =? 0)%nat || (i =? length s)%nat then true
  else match s !! i with Some b => negb (cont b) | None => false end.

(** ** Integers in text *)

Inductive ParseIntError := Empty | InvalidDigit | PosOverflow.

#[export] Instance ParseIntError_eq_dec : EqDecision ParseIntError.
Proof. solve_decision. Defined.

Definition show_ParseIntError (e : ParseIntError) : str :=
  match e with
  | Empty => bs "cannot parse integer from empty string"
  | InvalidDigit => bs "invalid digit found in string"
  | PosOverflow => bs "number too large to fit in target type"
  end.

Definition digit_val (radix b : Z) : option Z :=
  if is_digit b then (if b - 48 <? radix then Some (b - 48) else None)
  else if (97 <=? b) && (b <=? 122) then
    (if b - 87 <? radix then Some (b - 87) else None)
  else if (65 <=? b) && (b <=? 90) then
    (if b - 55 <? radix then Some (b - 55) else None)
  else None.

Fixpoint parse_digits (radix max acc : Z) (s : str) : res ParseIntError Z :=
  match s with
  | [] => Ok acc
  | b :: s =>
    match digit_val radix b with
    | None => Err InvalidDigit
    | Some d =>
      if acc * radix + d <=? max then parse_digits radix max (acc * radix + d) s
      else Err PosOverflow
    end
  end.

(** [uN::from_str_radix(s, radix)]: an optional ['+'], then digits. *)
Definition parse_uint (w radix : Z) (s : str) : res ParseIntError Z :=
  match s with
  | [] => Err Empty
  | [b] => if (b =? 43) || (b =? 45) then Err InvalidDigit
           else parse_digits radix (2 ^ w - 1) 0 s
  | b :: s' => if b =? 43 then parse_digits radix (2 ^ w - 1) 0 s'
               else parse_digits radix (2 ^ w - 1) 0 s
  end.
Definition parse_u8 := parse_uint 8 10.
Definition parse_u16 := parse_uint 16 10.

(** Digits of a non-negative number, most significant first. *)
Fixpoint show_digits (fuel : nat) (radix v : Z) : str :=
  match fuel with
  | O => []
  | S fuel =>
    let d := v mod radix in
    let c := if d <? 10 then 48 + d else 87 + d in
    if v <? radix then [c] else show_digits fuel radix (v / radix) ++ [c]
  end.
(** Decimal [Display] of an unsigned integer of at most 64 bits: 20 digits. *)
Definition show_dec (v : Z) : str := show_digits 20 10 v.
(** Lower-case hexadecimal without padding. *)
Definition show_hex (v : Z) : str := show_digits 16 16 v.

(** ** Lemmas *)

Lemma lower1_idem b : lower1 (lower1 b) = lower1 b.
Proof.
  unfold lower1. destruct ((65 <=? b) && (b <=? 90)) eqn:E; [norm|by rewrite E].
  destruct ((65 <=? b + 32) && (b + 32 <=? 90)) eqn:E'; [norm; lia | done].
Qed.

Lemma to_ascii_lowercase_idem s :
  to_ascii_lowercase (to_ascii_lowercase s) = to_ascii_lowercase s.
Proof.
  unfold to_ascii_lowercase. rewrite map_map. apply map_ext, lower1_idem.
Qed.

Lemma length_lower s : length (to_ascii_lowercase s) = length s.
Proof. apply length_map. Qed.

Lemma starts_with_iff p s : starts_with p s = true ↔ ∃ t, s = p ++ t.
Proof.
  revert s; induction p as [|a p IH]; intros s; simpl.
  { split; [by exists s | done]. }
  destruct s as [|b s]; simpl.
  { split; [done | by intros [t Ht]]. }
  rewrite andb_true_iff, IH, Z.eqb_eq. split.
  - intros [-> [t ->]]. by exists t.
  - intros [t [= -> ->]]. split; [done | by exists t].
Qed.

Lemma starts_with_app p t : starts_with p (p ++ t) = true.
Proof. apply starts_with_iff. by exists t. Qed.

Lemma ends_with_iff p s : ends_with p s = true ↔ ∃ t, s = t ++ p.
Proof.
  unfold ends_with. rewrite starts_with_iff. split.
  - intros [t Ht]. exists (rev t). rewrite <- (rev_involutive s), Ht, rev_app_distr.
    by rewrite !rev_involutive.
  - intros [t ->]. exists (rev t). apply rev_app_distr.
Qed.

Lemma find_sub_Some p s n :
  find_sub p s = Some n → ∃ a b, s = a ++ p ++ b ∧ length a = n.
Proof.
  revert n; induction s as [|x s IH]; intros n; cbn [find_sub];
    destruct (starts_with p _) eqn:E.
  - intros [= <-]. apply starts_with_iff in E as [t Ht]. by exists [], t.
  - done.
  - intros [= <-]. apply starts_with_iff in E as [t Ht]. by exists [], t.
  - destruct (find_sub p s) as [m|]; [|done]. intros [= <-].
    destruct (IH m eq_refl) as (a & b & -> & <-). by exists (x :: a), b.
Qed.

Lemma find_sub_app p a b : ∃ n, find_sub p (a ++ p ++ b) = Some n ∧ (n ≤ length a)%nat.
Proof.
  induction a as [|x a IH]; simpl.
  - exists O. destruct (p ++ b) eqn:E; simpl; rewrite <- E, starts_with_app; auto.
  - destruct (starts_with p _); [exists O; split; [done | lia] |].
    destruct IH as (n & -> & Hn). exists (S n). split; [done | lia].
Qed.

Lemma contains_iff p s : contains p s = true ↔ ∃ a b, s = a ++ p ++ b.
Proof.
  unfold contains. split.
  - destruct (find_sub p s) as [n|] eqn:E; [|done].
    intros _. destruct (find_sub_Some _ _ _ E) as (a & b & H & _). by exists a, b.
  - intros (a & b & ->). by destruct (find_sub_app p a b) as (n & -> & _).
Qed.

Lemma split_once_Some c s a r : split_once c s = Some (a, r) → s = a ++ c :: r ∧ c ∉ a.
Proof.
  revert a r; induction s as [|b s IH]; intros a r; simpl; [done|].
  destruct (b =? c) eqn:E; norm.
  - intros [= <- <-]. split; [done | by apply not_elem_of_nil].
  - destruct (split_once c s) as [[a' r']|]; [|done]. intros [= <- <-].
    destruct (IH a' r' eq_refl) as [-> Hc]. split; [done|].
    apply not_elem_of_cons. auto.
Qed.

Lemma split_once_app c a r : c ∉ a → split_once c (a ++ c :: r) = Some (a, r).
Proof.
  induction a as [|b a IH]; intros Hc; simpl.
  - by rewrite Z.eqb_refl.
  - apply not_elem_of_cons in Hc as [Hb Ha]. rewrite IH by done.
    destruct (b =? c) eqn:E; [norm; congruence | done].
Qed.

(** *** UTF-8 *)

Lemma utf8_step_len b s :
  (1 ≤ (utf8_step (b :: s)).2 ≤ length (b :: s))%nat.
Proof.
  unfold utf8_step. repeat (case_match; subst; simpl; try lia).
Qed.

Lemma utf8_pieces_concat fuel s :
  (length s ≤ fuel)%nat → concat (map snd (utf8_pieces fuel s)) = s.
Proof.
  revert s; induction fuel as [|fuel IH]; intros s Hs; simpl.
  { destruct s; simpl in *; [done | lia]. }
  destruct s as [|b s]; [done|].
  pose proof (utf8_step_len b s) as Hn.
  destruct (utf8_step (b :: s)) as [ok n] eqn:E. cbn [map concat snd] in *.
  rewrite IH by (rewrite length_drop; simpl in *; lia). apply take_drop.
Qed.

(** A valid string is unchanged by lossy decoding. *)
Lemma from_utf8_lossy_valid s : utf8_valid s = true → from_utf8_lossy s = s.
Proof.
  unfold utf8_valid, from_utf8_lossy. intros Hv.
  transitivity (concat (map snd (utf8_pieces (length s) s)));
    [|by apply utf8_pieces_concat].
  f_equal. apply map_ext_in. intros [ok p] Hp.
  apply forallb_forall with (x := (ok, p)) in Hv; [|done]. simpl in *. by rewrite Hv.
Qed.

Lemma utf8_pieces_ascii fuel s :
  Forall (λ b, 0 ≤ b < 128) s → (length s ≤ fuel)%nat →
  utf8_pieces fuel s = map (λ b, (true, [b])) s.
Proof.
  intros Hs. revert fuel; induction Hs as [|b s Hb Hs IH]; intros fuel Hf.
  { by destruct fuel. }
  destruct fuel as [|fuel]; [simpl in *; lia|].
  cbn [utf8_pieces utf8_step map].
  replace (b <? 128) with true by (symmetry; apply Z.ltb_lt; lia).
  cbn [take drop]. rewrite IH by (simpl in *; lia). done.
Qed.

(** ASCII text is valid UTF-8. *)
Lemma utf8_valid_ascii s : Forall (λ b, 0 ≤ b < 128) s → utf8_valid s = true.
Proof.
  intros Hs. unfold utf8_valid. rewrite utf8_pieces_ascii by done.
  apply forallb_forall. intros p Hp. apply in_map_iff in Hp as (b & <- & _). done.
Qed.

Lemma from_utf8_lossy_ascii_app a s :
  Forall (λ b, 0 ≤ b < 128) a → from_utf8_lossy (a ++ s) = a ++ from_utf8_lossy s.
Proof.
  induction 1 as [|b a Hb Ha IH]; [done|]. unfold from_utf8_lossy in *.
  change ((b :: a) ++ s) with (b :: (a ++ s)). cbn [length utf8_pieces utf8_step].
  replace (b <? 128) with true by (symmetry; apply Z.ltb_lt; lia).
  cbn [take drop map concat fst snd app]. f_equal. exact IH.
Qed.

Lemma chars_ascii s : Forall (λ b, 0 ≤ b < 128) s → chars s = map (λ b, [b]) s.
Proof. intros Hs. unfold chars. by rewrite utf8_pieces_ascii, map_map by done. Qed.

(** A word: ASCII without blanks. *)
Definition ascii_word (w : str) : Prop := w ≠ [] ∧ Forall (λ b, 0 ≤ b < 128 ∧ is_whitespace [b] = false) w.
#[export] Instance ascii_word_dec w : Decision (ascii_word w).
Proof. unfold ascii_word. apply _. Defined.

Lemma words_word w cs cur : Forall (λ b, 0 ≤ b < 128 ∧ is_whitespace [b] = false) w →
  words (map (λ b, [b]) w ++ cs) cur = words cs (cur ++ w).
Proof.
  intros Hw. revert cur. induction Hw as [|b w [_ Hb] Hw IH]; intros cur; [by rewrite app_nil_r|].
  cbn [map app words]. rewrite Hb, IH, <- app_assoc. done.
Qed.

Lemma split_whitespace_second v w r :
  ascii_word v → ascii_word w → Forall (λ b, 0 ≤ b < 128) r →
  split_whitespace (v ++ [32] ++ w ++ [32] ++ r) !! 1%nat = Some w.
Proof.
  intros [Hv Hva] [Hw Hwa] Hr. unfold split_whitespace.
  assert (∀ x, Forall (λ b, 0 ≤ b < 128 ∧ is_whitespace [b] = false) x → Forall (λ b, 0 ≤ b < 128) x) as Himp.
  { intros x Hx. eapply Forall_impl; [exact Hx|]. by intros b []. }
  rewrite chars_ascii.
  2:{ repeat apply Forall_app_2; [by apply Himp | repeat constructor; lia | by apply Himp | repeat constructor; lia | done]. }
  rewrite map_app, words_word by done. cbn [map app words is_whitespace Z.leb Z.eqb Z.compare Pos.compare Pos.compare_cont Pos.eqb andb orb].
  destruct v; [done|]. rewrite map_app, words_word by done.
  cbn [map app words is_whitespace Z.leb Z.eqb Z.compare Pos.compare Pos.compare_cont Pos.eqb andb orb].
  by destruct w.
Qed.

(** *** Decimal round trip *)

Lemma digit_val_show radix d :
  2 ≤ radix ≤ 16 → 0 ≤ d < radix →
  digit_val radix (if d <? 10 then 48 + d else 87 + d) = Some d.
Proof.
  intros Hr Hd. unfold digit_val, is_digit. destruct (d <? 10) eqn:E; norm.
  - replace ((48 <=? 48 + d) && (48 + d <=? 57)) with true
      by (symmetry; apply andb_true_iff; split; apply Z.leb_le; lia).
    replace (48 + d - 48) with d by lia.
    by replace (d <? radix) with true by (symmetry; apply Z.ltb_lt; lia).
  - replace ((48 <=? 87 + d) && (87 + d <=? 57)) with false
      by (symmetry; apply andb_false_iff; right; apply Z.leb_gt; lia).
    replace ((97 <=? 87 + d) && (87 + d <=? 122)) with true
      by (symmetry; apply andb_true_iff; split; apply Z.leb_le; lia).
    replace (87 + d - 87) with d by lia.
    by replace (d <? radix) with true by (symmetry; apply Z.ltb_lt; lia).
Qed.

Lemma parse_digits_app radix max acc s t :
  parse_digits radix max acc (s ++ t) =
  match parse_digits radix max acc s with
  | Ok v => parse_digits radix max v t
  | Err e => Err e
  | Panic => Panic
  end.
Proof.
  revert acc; induction s as [|b s IH]; intros acc; simpl; [done|].
  destruct (digit_val radix b); [|done]. destruct (_ <=? max); [apply IH | done].
Qed.

Lemma parse_show_digits fuel radix max v :
  2 ≤ radix ≤ 16 → 0 ≤ v ≤ max → v < radix ^ Z.of_nat fuel →
  parse_digits radix max 0 (show_digits fuel radix v) = Ok v.
Proof.
  intros Hr. revert v; induction fuel as [|fuel IH]; intros v Hv Hf.
  { change (radix ^ Z.of_nat 0) with 1 in Hf. simpl. f_equal. lia. }
  cbn [show_digits]. rewrite Nat2Z.inj_succ, Z.pow_succ_r in Hf by lia.
  pose proof (Z.mod_pos_bound v radix ltac:(lia)) as Hm.
  pose proof (Z.div_mod v radix ltac:(lia)) as Hdm.
  assert (Hlast : parse_digits radix max (v / radix)
      [if v mod radix <? 10 then 48 + v mod radix else 87 + v mod radix] = Ok v).
  { cbn [parse_digits]. rewrite digit_val_show by lia.
    replace (v / radix * radix + v mod radix) with v by lia.
    by replace (v <=? max) with true by (symmetry; apply Z.leb_le; lia). }
  destruct (v <? radix) eqn:E; norm.
  - by rewrite Z.div_small in Hlast by lia.
  - assert (0 ≤ v / radix) by (apply Z.div_pos; lia).
    assert (v / radix < radix ^ Z.of_nat fuel) by (apply Z.div_lt_upper_bound; lia).
    assert (v / radix ≤ v) by (apply Z.div_le_upper_bound; nia).
    rewrite parse_digits_app, IH by lia. done.
Qed.

Lemma show_digits_head fuel radix v :
  2 ≤ radix ≤ 16 → 0 ≤ v →
  Forall (λ b, is_digit b = true ∨ 97 ≤ b ≤ 102) (show_digits fuel radix v).
Proof.
  intros Hr. revert v; induction fuel as [|fuel IH]; intros v Hv; simpl; [constructor|].
  pose proof (Z.mod_pos_bound v radix ltac:(lia)) as Hm.
  assert (Hd : is_digit (if v mod radix <? 10 then 48 + v mod radix else 87 + v mod radix)
               = true ∨ 97 ≤ (if v mod radix <? 10 then 48 + v mod radix else 87 + v mod radix) ≤ 102).
  { destruct (_ <? 10) eqn:E; norm; [left | right; lia].
    unfold is_digit. apply andb_true_iff. split; apply Z.leb_le; lia. }
  destruct (v <? radix); [by constructor|].
  apply Forall_app. split; [apply IH, Z.div_pos; lia | by constructor].
Qed.

Lemma show_digits_nonnil fuel radix v : show_digits (S fuel) radix v ≠ [].
Proof.
  cbn [show_digits]. destruct (v <? radix); [done|]. intros E.
  by destruct (app_eq_nil _ _ E).
Qed.

(** Printing then parsing a number of the width gives it back. *)
Lemma parse_show_dec w v :
  0 ≤ w ≤ 64 → in_range w v → parse_uint w 10 (show_dec v) = Ok v.
Proof.
  intros Hw Hv. unfold in_range in Hv.
  assert (2 ^ w ≤ 2 ^ 64) by (apply Z.pow_le_mono_r; lia).
  pose proof (parse_show_digits 20 10 (2 ^ w - 1) v ltac:(lia) ltac:(lia)) as HP.
  specialize (HP ltac:(change (10 ^ Z.of_nat 20) with 100000000000000000000; lia)).
  pose proof (show_digits_head 20 10 v ltac:(lia) ltac:(lia)) as HF.
  unfold show_dec, parse_uint.
  pose proof (show_digits_nonnil 19 10 v) as Hnil.
  revert HP HF Hnil. generalize (show_digits 20 10 v). intros [|b [|b' t]] HP HF Hnil.
  - done.
  - apply Forall_inv in HF. unfold is_digit in HF.
    destruct ((b =? 43) || (b =? 45)) eqn:Eb; [|done].
    apply orb_true_iff in Eb. destruct HF as [HF|HF], Eb; norm; lia.
  - apply Forall_inv in HF. unfold is_digit in HF.
    destruct (b =? 43) eqn:Eb; [|done]. destruct HF; norm; lia.
Qed.
Lemma show_dec_digits v : 0 ≤ v → Forall (λ b, is_digit b = true ∨ 97 ≤ b ≤ 102) (show_dec v).
Proof. intros. apply show_digits_head; lia. Qed.

Lemma show_dec_no c v : 0 ≤ v → (c < 48 ∨ 57 < c < 97 ∨ 102 < c) → c ∉ show_dec v.
Proof.
  intros Hv Hc Hin. pose proof (proj1 (Forall_forall _ _) (show_dec_digits v Hv) _ Hin) as [H|H].
  - unfold is_digit in H. norm. lia.
  - lia.
Qed.

Lemma rsplit_once_app c a r : c ∉ r → rsplit_once c (a ++ c :: r) = Some (a, r).
Proof.
  intros Hr. unfold rsplit_once. rewrite rev_app_distr. cbn [rev]. rewrite <- app_assoc. cbn [app].
  rewrite split_once_app, !rev_involutive; [done|].
  intros H. apply Hr. apply list_elem_of_In, in_rev. by apply list_elem_of_In.
Qed.

Lemma trim_start_char_id c s : c ∉ s → trim_start_char c s = s.
Proof.
  destruct s as [|b s]; [done|]. cbn. rewrite not_elem_of_cons. intros [Hb _].
  destruct (b =? c) eqn:E; norm; done.
Qed.
Arguments show_dec : simpl never.
Arguments show_hex : simpl never.

Lemma split_none c a : c ∉ a → split c a = [a].
Proof.
  induction a as [|b a IH]; [done|]. rewrite not_elem_of_cons. intros [Hb Ha]. cbn [split].
  destruct (b =? c) eqn:E; [norm; done|]. by rewrite IH.
Qed.

Lemma split_app c a r : c ∉ a → split c (a ++ c :: r) = a :: split c r.
Proof.
  induction a as [|b a IH]; cbn [app split]; [by rewrite Z.eqb_refl|].
  rewrite not_elem_of_cons. intros [Hb Ha].
  destruct (b =? c) eqn:E; [norm; done|]. by rewrite IH.
Qed.

(** The first occurrence, when the first byte of the pattern comes late. *)
Lemma find_sub_first p0 p a r :
  p0 ∉ a → find_sub (p0 :: p) (a ++ (p0 :: p) ++ r) = Some (length a).
Proof.
  induction a as [|b a IH].
  - intros _. change ([] ++ (p0 :: p) ++ r) with ((p0 :: p) ++ r).
    pose proof (starts_with_app (p0 :: p) r) as E. cbn [app] in *.
    cbn [find_sub]. by rewrite E.
  - rewrite not_elem_of_cons. intros [Hb Ha].
    change ((b :: a) ++ (p0 :: p) ++ r) with (b :: (a ++ (p0 :: p) ++ r)). cbn [find_sub].
    destruct (starts_with (p0 :: p) (b :: a ++ (p0 :: p) ++ r)) eqn:E.
    + apply starts_with_iff in E as [t E]. by simplify_eq/=.
    + by rewrite IH.
Qed.
