(* ===== verification/Net.v ===== *)
(** * Net: addresses and proxy targets

    [std::net] addresses with the standard library's parsers and printers, and
    the destination type of [omni-domain/src/stream.rs].  An address is its
    octets in network order, a port a [u16]. *)

From S2P Require Import Prelude Text.

Inductive IpAddr :=
| V4 (octets : list Z)
| V6 (octets : list Z).

#[export] Instance IpAddr_eq_dec : EqDecision IpAddr.
Proof. solve_decision. Defined.

(** The invariant of the array types [\[u8; 4\]] and [\[u8; 16\]]. *)
Definition ip_wf (a : IpAddr) : Prop :=
  match a with
  | V4 o => length o = 4%nat ∧ bytes o
  | V6 o => length o = 16%nat ∧ bytes o
  end.

Definition is_v4 (a : IpAddr) : bool := match a with V4 _ => true | V6 _ => false end.

(** A socket address; [scope_id] is only ever set by parsing an IPv6 literal
    that names one. *)
Record SocketAddr := mk_sockaddr { ip : IpAddr; port : Z; scope_id : Z }.

#[export] Instance SocketAddr_eq_dec : EqDecision SocketAddr.
Proof. solve_decision. Defined.

Definition sa_new (a : IpAddr) (p : Z) : SocketAddr := mk_sockaddr a p 0.

(** A datagram given to a UDP socket bound to [0.0.0.0]: an IPv4 socket sends to
    IPv4 addresses only, and to another the call fails. *)
Definition inet_send (data : list Z) (target : SocketAddr) : option (list Z * SocketAddr) :=
  if is_v4 (ip target) then Some (data, target) else None.

Definition sa_wf (a : SocketAddr) : Prop :=
  ip_wf (ip a) ∧ is_u16 (port a) ∧ is_u32 (scope_id a).

(** ** Parsers ([core::net::parser]) *)

Definition parser (A : Type) := str → option (A * str).

Definition read_given_char (c : Z) : parser unit := λ s,
  match s with
  | b :: s => if b =? c then Some (tt, s) else None
  | [] => None
  end.

Fixpoint read_number_go (w radix : Z) (max_digits : option nat) (count : nat)
    (acc : Z) (s : str) : option (Z * nat * str) :=
  match s with
  | b :: s' =>
    match digit_val radix b with
    | Some d =>
      if acc * radix + d <? 2 ^ w then
        match max_digits with
        | Some m => if (m <? S count)%nat then None
                    else read_number_go w radix max_digits (S count) (acc * radix + d) s'
        | None => read_number_go w radix max_digits (S count) (acc * radix + d) s'
        end
      else None
    | None => Some (acc, count, s)
    end
  | [] => Some (acc, count, s)
  end.

Definition read_number (w radix : Z) (max_digits : option nat) (allow_zero_prefix : bool)
    : parser Z := λ s,
  let has_leading_zero := match s with b :: _ => b =? 48 | [] => false end in
  match read_number_go w radix max_digits 0 0 s with
  | Some (v, count, rest) =>
    if (count =? 0)%nat then None
    else if negb allow_zero_prefix && has_leading_zero && (1 <? count)%nat then None
    else Some (v, rest)
  | None => None
  end.

Definition read_separator {A} (sep : Z) (index : nat) (inner : parser A) : parser A := λ s,
  match index with
  | O => inner s
  | S _ => match read_given_char sep s with Some (_, s) => inner s | None => None end
  end.

Definition read_octet (index : nat) : parser Z :=
  read_separator 46 index (read_number 8 10 (Some 3%nat) false).

Definition read_ipv4_addr : parser (list Z) := λ s,
  let+ (a, s) := read_octet 0 s in
  let+ (b, s) := read_octet 1 s in
  let+ (c, s) := read_octet 2 s in
  let+ (d, s) := read_octet 3 s in
  Some ([a; b; c; d], s).

(** [read_groups] over [limit] slots: the 16-bit groups read, whether the last
    two came from a trailing IPv4 address, and the rest of the input. *)
Fixpoint read_groups (limit i : nat) (s : str) : list Z * bool * str :=
  match limit with
  | O => ([], false, s)
  | S more =>
    let v4 := match more with
              | O => None
              | S _ => read_separator 58 i read_ipv4_addr s
              end in
    match v4 with
    | Some ([a; b; c; d], s) => ([a * 256 + b; c * 256 + d], true, s)
    | _ =>
      match read_separator 58 i (read_number 16 16 (Some 4%nat) true) s with
      | Some (g, s) => let '(gs, e, s) := read_groups more (S i) s in (g :: gs, e, s)
      | None => ([], false, s)
      end
    end
  end.

Definition groups_octets (gs : list Z) : list Z := concat (map (be_bytes 2) gs).

Definition read_ipv6_addr : parser (list Z) := λ s,
  let '(head, head_ipv4, s) := read_groups 8 0 s in
  if (length head =? 8)%nat then Some (groups_octets head, s)
  else if head_ipv4 then None
  else
    let+ (_, s) := read_given_char 58 s in
    let+ (_, s) := read_given_char 58 s in
    let '(tail, _, s) := read_groups (8 - (length head + 1)) 0 s in
    Some (groups_octets (head ++ replicate (8 - length head - length tail) 0 ++ tail), s).

Definition read_ip_addr : parser IpAddr := λ s,
  match read_ipv4_addr s with
  | Some (o, s) => Some (V4 o, s)
  | None => match read_ipv6_addr s with
            | Some (o, s) => Some (V6 o, s)
            | None => None
            end
  end.

Definition parse_all {A} (p : parser A) (s : str) : option A :=
  match p s with Some (a, []) => Some a | _ => None end.

(** [str::parse::<IpAddr>()]. *)
Definition parse_ip (s : str) : option IpAddr := parse_all read_ip_addr s.

Definition read_port : parser Z := λ s,
  let+ (_, s) := read_given_char 58 s in
  read_number 16 10 None true s.

Definition read_socket_addr_v4 : parser SocketAddr := λ s,
  let+ (o, s) := read_ipv4_addr s in
  let+ (p, s) := read_port s in
  Some (sa_new (V4 o) p, s).

Definition read_scope_id : parser Z := λ s,
  let+ (_, s) := read_given_char 37 s in
  read_number 32 10 None true s.

Definition read_socket_addr_v6 : parser SocketAddr := λ s,
  let+ (_, s) := read_given_char 91 s in
  let+ (o, s) := read_ipv6_addr s in
  let '(scope, s) := match read_scope_id s with Some x => x | None => (0, s) end in
  let+ (_, s) := read_given_char 93 s in
  let+ (p, s) := read_port s in
  Some (mk_sockaddr (V6 o) p scope, s).

Definition read_socket_addr : parser SocketAddr := λ s,
  match read_socket_addr_v4 s with
  | Some r => Some r
  | None => read_socket_addr_v6 s
  end.

(** [str::parse::<SocketAddr>()]. *)
Definition parse_sockaddr (s : str) : option SocketAddr := parse_all read_socket_addr s.

(** ** Printers *)

Fixpoint intersperse (sep : str) (l : list str) : str :=
  match l with
  | [] => []
  | [x] => x
  | x :: l => x ++ sep ++ intersperse sep l
  end.

Definition show_v4 (o : list Z) : str := intersperse [46] (map show_dec o).

Fixpoint groups_of (o : list Z) : list Z :=
  match o with
  | a :: b :: o => a * 256 + b :: groups_of o
  | _ => []
  end.

(** The longest run of zero groups (the first among equals): its start and
    length, as the printer's scan finds it. *)
Fixpoint zero_span (gs : list Z) (i : nat) (cur best : nat * nat) : nat * nat :=
  match gs with
  | [] => best
  | g :: gs =>
    if g =? 0 then
      let cur := (if (cur.2 =? 0)%nat then i else cur.1, S cur.2) in
      zero_span gs (S i) cur (if (best.2 <? cur.2)%nat then cur else best)
    else zero_span gs (S i) (O, O) best
  end.

Definition show_v6 (o : list Z) : str :=
  let gs := groups_of o in
  match gs with
  | [0; 0; 0; 0; 0; 65535; _; _] => bs "::ffff:" ++ show_v4 (drop 12 o)
  | _ =>
    let '(start, len) := zero_span gs 0 (O, O) (O, O) in
    if (1 <? len)%nat then
      intersperse [58] (map show_hex (take start gs)) ++ [58; 58] ++
      intersperse [58] (map show_hex (drop (start + len) gs))
    else intersperse [58] (map show_hex gs)
  end.

(** [Display] of [IpAddr] and [SocketAddr]. *)
Definition show_ip (a : IpAddr) : str :=
  match a with V4 o => show_v4 o | V6 o => show_v6 o end.

Definition show_sockaddr (a : SocketAddr) : str :=
  match ip a with
  | V4 o => show_v4 o ++ [58] ++ show_dec (port a)
  | V6 o =>
    (if scope_id a =? 0 then [91] ++ show_v6 o
     else [91] ++ show_v6 o ++ [37] ++ show_dec (scope_id a))
    ++ [93; 58] ++ show_dec (port a)
  end.

(** ** Proxy targets ([omni-domain/src/stream.rs]) *)

Inductive ProxyTarget :=
| Tcp (a : SocketAddr)
| Domain (h : str) (p : Z).

#[export] Instance ProxyTarget_eq_dec : EqDecision ProxyTarget.
Proof. solve_decision. Defined.

Definition target_host (t : ProxyTarget) : str :=
  match t with
  | Tcp a => show_ip (ip a)
  | Domain h _ => h
  end.

Definition target_port (t : ProxyTarget) : Z :=
  match t with
  | Tcp a => port a
  | Domain _ p => p
  end.

Definition with_port (t : ProxyTarget) (p : Z) : ProxyTarget :=
  match t with
  | Tcp a => Tcp (mk_sockaddr (ip a) p (scope_id a))
  | Domain h _ => Domain h p
  end.

(** [Display for ProxyTarget]. *)
Definition show_target (t : ProxyTarget) : str :=
  match t with
  | Tcp a => show_sockaddr a
  | Domain h p => h ++ [58] ++ show_dec p
  end.

(** Well-formed targets: arrays of the right size, a [u16] port, a [String]
    that is valid UTF-8.  Targets built from the wire carry no scope id. *)
Definition target_wf (t : ProxyTarget) : Prop :=
  match t with
  | Tcp a => ip_wf (ip a) ∧ is_u16 (port a) ∧ scope_id a = 0
  | Domain h p => utf8_valid h = true ∧ is_u16 p
  end.

(** A UDP packet travelling between an inbound and an outbound. *)
Record UdpPacket := mk_packet {
  source : option SocketAddr;
  pkt_target : ProxyTarget;
  data : list Z
}.

(** ** Examples and lemmas *)

Example parse_v4 : parse_ip (bs "192.168.0.1") = Some (V4 [192; 168; 0; 1]).
Proof. vm_compute. reflexivity. Qed.
Example parse_v4_leading_zero : parse_ip (bs "192.168.00.1") = None.
Proof. vm_compute. reflexivity. Qed.
Example parse_v6 :
  parse_ip (bs "2001:db8::ff00:42:8329")
  = Some (V6 [32; 1; 13; 184; 0; 0; 0; 0; 0; 0; 255; 0; 0; 66; 131; 41]).
Proof. vm_compute. reflexivity. Qed.
Example parse_v6_mapped :
  parse_ip (bs "::ffff:1.2.3.4")
  = Some (V6 [0; 0; 0; 0; 0; 0; 0; 0; 0; 0; 255; 255; 1; 2; 3; 4]).
Proof. vm_compute. reflexivity. Qed.
Example show_v6_compressed :
  show_ip (V6 [32; 1; 13; 184; 0; 0; 0; 0; 0; 0; 255; 0; 0; 66; 131; 41])
  = bs "2001:db8::ff00:42:8329".
Proof. vm_compute. reflexivity. Qed.
Example show_unspecified : show_ip (V6 (replicate 16 0)) = bs "::".
Proof. vm_compute. reflexivity. Qed.
Example parse_sockaddr_v6 :
  parse_sockaddr (bs "[::1]:443")
  = Some (sa_new (V6 (replicate 15 0 ++ [1])) 443).
Proof. vm_compute. reflexivity. Qed.

(** ** The text of an IPv4 address reads back *)

(** The number parser stops before a character that is no digit. *)
Definition stops (r : str) : Prop := match r with [] => True | b :: _ => digit_val 10 b = None end.

Lemma read_number_go_app w m c a s v n r :
  stops r → read_number_go w 10 m c a s = Some (v, n, []) →
  read_number_go w 10 m c a (s ++ r) = Some (v, n, r).
Proof.
  intros Hr. revert c a; induction s as [|b s IH]; intros c a; cbn [read_number_go app].
  - intros [= -> ->]. destruct r as [|b r]; [done|]. cbn [read_number_go stops] in *. by rewrite Hr.
  - destruct (digit_val 10 b) as [d|]; [|done].
    destruct (_ <? _); [|done]. destruct m as [m|]; [|by apply IH].
    destruct (m <? S c)%nat; [done|]. by apply IH.
Qed.

Lemma read_octet_number b r :
  is_u8 b → stops r → read_number 8 10 (Some 3%nat) false (show_dec b ++ r) = Some (b, r).
Proof.
  intros Hb Hr.
  pose proof (u8_forall (λ b, match show_dec b, read_number_go 8 10 (Some 3%nat) 0 0 (show_dec b) with
    | c :: _, Some (v, n, []) => (v =? b) && negb (n =? 0)%nat && negb ((c =? 48) && (1 <? n)%nat)
    | _, _ => false end) b ltac:(vm_compute; reflexivity) Hb) as H.
  cbv beta in H. unfold read_number.
  destruct (show_dec b) as [|c t]; [done|].
  destruct (read_number_go _ _ _ _ _ (c :: t)) as [[[v n] [|]]|] eqn:E; try done.
  rewrite (read_number_go_app _ _ _ _ _ _ _ _ Hr E). norm.
  rewrite (proj2 (Nat.eqb_neq n 0)) by done. cbn [negb andb]. by rewrite H0.
Qed.

Lemma read_ipv4_show o r :
  ip_wf (V4 o) → stops r → read_ipv4_addr (show_v4 o ++ r) = Some (o, r).
Proof.
  intros [Hl Hb] Hr. destruct o as [|a [|b [|c [|d [|]]]]]; try done.
  unfold bytes in Hb. rewrite !Forall_cons in Hb. destruct Hb as (Ha & Hb & Hc & Hd & _).
  unfold read_ipv4_addr, show_v4, read_octet, read_separator. cbn [map intersperse].
  rewrite <- !app_assoc. rewrite read_octet_number by done.
  cbn [read_given_char Z.eqb Pos.eqb app]. rewrite <- ?app_assoc, read_octet_number by done.
  cbn [read_given_char Z.eqb Pos.eqb app]. rewrite <- ?app_assoc, read_octet_number by done.
  cbn [read_given_char Z.eqb Pos.eqb app]. rewrite <- ?app_assoc, read_octet_number by done. done.
Qed.

Lemma parse_show_v4 o : ip_wf (V4 o) → parse_ip (show_v4 o) = Some (V4 o).
Proof.
  intros Ho. unfold parse_ip, parse_all, read_ip_addr.
  rewrite <- (app_nil_r (show_v4 o)), read_ipv4_show; done.
Qed.

(** The number parser reads what the integer parser reads. *)
Lemma read_number_go_parse w n a s v :
  parse_digits 10 (2 ^ w - 1) a s = Ok v →
  read_number_go w 10 None n a s = Some (v, (n + length s)%nat, []).
Proof.
  revert n a; induction s as [|b s IH]; intros n a; cbn [parse_digits read_number_go length].
  { intros [= ->]. by rewrite Nat.add_0_r. }
  destruct (digit_val 10 b) as [d|]; [|done]. destruct (_ <=? _) eqn:E; [|done]. intros H. norm.
  rewrite (proj2 (Z.ltb_lt _ _)) by lia. rewrite (IH (S n) _ H). do 2 f_equal. f_equal. lia.
Qed.

Lemma read_port_show p : is_u16 p → read_port (58 :: show_dec p) = Some (p, []).
Proof.
  unfold is_u16, in_range. intros Hp. unfold read_port. cbn [read_given_char Z.eqb Pos.eqb].
  pose proof (parse_show_digits 20 10 (2 ^ 16 - 1) p ltac:(lia) ltac:(lia)) as H.
  specialize (H ltac:(change (10 ^ Z.of_nat 20) with 100000000000000000000; lia)).
  unfold read_number, show_dec. pose proof (show_digits_nonnil 19 10 p) as Hn.
  revert H Hn. generalize (show_digits 20 10 p). intros s H Hn.
  rewrite (read_number_go_parse _ _ _ _ _ H). by destruct s.
Qed.

(** An IPv4 address with a port reads back. *)
Lemma parse_show_sockaddr_v4 o p :
  ip_wf (V4 o) → is_u16 p → parse_sockaddr (show_v4 o ++ 58 :: show_dec p) = Some (sa_new (V4 o) p).
Proof.
  intros Ho Hp. unfold parse_sockaddr, parse_all, read_socket_addr, read_socket_addr_v4.
  rewrite read_ipv4_show by done. by rewrite read_port_show.
Qed.

(** Printed addresses contain digits and dots only. *)
Lemma show_v4_no c o :
  bytes o → (c < 46 ∨ c = 47 ∨ 57 < c < 97 ∨ 102 < c) → c ∉ show_v4 o.
Proof.
  intros Ho Hc. unfold show_v4.
  induction Ho as [|x o Hx Ho IH]; [cbn; set_solver|].
  assert (Hs : c ∉ show_dec x) by (apply show_dec_no; unfold in_range in Hx; lia).
  destruct o as [|y o]; [done|]. cbn [map intersperse] in *.
  rewrite !not_elem_of_app, list_elem_of_singleton. split; [done|]. split; [lia | done].
Qed.
