(* ===== verification/Io.v ===== *)
(** * Io: byte streams and I/O errors

    The protocol handshakes run on a [ProxyStream] (an [AsyncRead] and
    [AsyncWrite]).  A stream is modelled by what the peer will deliver, cut
    into the segments in which it arrives, by the bytes written so far and by
    the faults that the coming writes will meet.  [read_exact], [read],
    [write_all] and [shutdown] are the operations the sources use; a handshake
    is a function of the small state-and-error monad [io].

    How the peer's bytes are cut into segments is invisible to a handshake
    built from [read_exact]: [yields] states what a computation does on every
    stream that delivers given bytes, and its rules compose. *)

From S2P Require Import Prelude Text.

(** ** [std::io::Error] *)

Inductive ErrorKind :=
| Other | InvalidData | InvalidInput | UnexpectedEof | BrokenPipe
| ConnectionReset | ConnectionRefused | ConnectionAborted | NotFound
| NotConnected | PermissionDenied | TimedOut | Unsupported | AddrInUse.

#[export] Instance ErrorKind_eq_dec : EqDecision ErrorKind.
Proof. solve_decision. Defined.

Record ioerr := mk_ioerr { ekind : ErrorKind; emsg : str }.

#[export] Instance ioerr_eq_dec : EqDecision ioerr.
Proof. solve_decision. Defined.

(** [std::io::Error::other(msg)] and [Error::new(InvalidData, msg)]. *)
Definition other (m : str) : ioerr := mk_ioerr Other m.
Definition invalid_data (m : str) : ioerr := mk_ioerr InvalidData m.
Definition early_eof : ioerr := mk_ioerr UnexpectedEof (bs "early eof").

(** ** Streams *)

(** What a read can meet: a segment of bytes, or an error.  The empty list of
    events is the end of the stream.  A segment without bytes is no event. *)
Inductive rd_event :=
| Data (b : list Z)
| RdErr (e : ioerr).

(** The outcome prepared for a write: [None] succeeds, [Some (n, e)] accepts
    [n] bytes and then fails.  When the list is exhausted writes succeed. *)
Record sock := mk_sock {
  s_in : list rd_event;
  s_out : list Z;
  s_wr : list (option (nat * ioerr));
  s_shut : bool
}.

Definition io (A : Type) := sock → res ioerr A * sock.

Definition ret {A} (a : A) : io A := λ s, (Ok a, s).
Definition fail {A} (e : ioerr) : io A := λ s, (Err e, s).
Definition lift {A} (r : res ioerr A) : io A := λ s, (r, s).

Definition io_bind {A B} (m : io A) (k : A → io B) : io B := λ s,
  match m s with
  | (Ok a, s) => k a s
  | (Err e, s) => (Err e, s)
  | (Panic, s) => (Panic, s)
  end.

Notation "'do!' p := m 'in' k" :=
  (io_bind m (λ p, k))
  (at level 10, p pattern, m at level 100, k at level 200) : rust_scope.
Notation "'do!' p <- r 'in' k" :=
  (io_bind (lift r) (λ p, k))
  (at level 10, p pattern, r at level 100, k at level 200) : rust_scope.

(** [let _ = m.await;] and [if m.await.is_err()]: the outcome is a value. *)
Definition attempt {A} (m : io A) : io (res ioerr A) := λ s,
  match m s with
  | (Panic, s) => (Panic, s)
  | (r, s) => (Ok r, s)
  end.

Fixpoint read_exact_ev (evs : list rd_event) (n : nat)
    : res ioerr (list Z) * list rd_event :=
  if (n =? 0)%nat then (Ok [], evs) else
  match evs with
  | [] => (Err early_eof, [])
  | RdErr e :: evs => (Err e, evs)
  | Data b :: evs =>
    if (n <? length b)%nat then (Ok (take n b), Data (drop n b) :: evs)
    else match read_exact_ev evs (n - length b) with
         | (Ok t, evs) => (Ok (b ++ t), evs)
         | x => x
         end
  end.

(** [AsyncReadExt::read_exact] into a buffer of [n] bytes. *)
Definition read_exact (n : nat) : io (list Z) := λ s,
  let '(r, evs) := read_exact_ev (s_in s) n in
  (r, mk_sock evs (s_out s) (s_wr s) (s_shut s)).

(** Reading one byte, as [read_exact] into a one-byte array then [\[0\]]. *)
Definition read_u8 : io Z :=
  do! b := read_exact 1 in do! x <- idx b 0 in ret x.

Fixpoint read_ev (evs : list rd_event) (n : nat)
    : res ioerr (list Z) * list rd_event :=
  match evs with
  | [] => (Ok [], [])
  | RdErr e :: evs => (Err e, evs)
  | Data [] :: evs => read_ev evs n
  | Data b :: evs =>
    (Ok (take n b), if (n <? length b)%nat then Data (drop n b) :: evs else evs)
  end.

(** [AsyncReadExt::read] into a buffer of [n > 0] bytes; [\[\]] is the end of
    the stream. *)
Definition read (n : nat) : io (list Z) := λ s,
  let '(r, evs) := read_ev (s_in s) n in
  (r, mk_sock evs (s_out s) (s_wr s) (s_shut s)).

(** [AsyncWriteExt::write_all]. *)
Definition write_all (b : list Z) : io unit := λ s,
  match s_wr s with
  | Some (n, e) :: w => (Err e, mk_sock (s_in s) (s_out s ++ take n b) w (s_shut s))
  | None :: w => (Ok tt, mk_sock (s_in s) (s_out s ++ b) w (s_shut s))
  | [] => (Ok tt, mk_sock (s_in s) (s_out s ++ b) [] (s_shut s))
  end.

(** [AsyncWriteExt::shutdown]. *)
Definition shutdown : io unit := λ s,
  (Ok tt, mk_sock (s_in s) (s_out s) (s_wr s) true).

(** ** The bytes a stream delivers *)

(** The bytes delivered before the first error or the end. *)
Fixpoint avail_ev (evs : list rd_event) : list Z :=
  match evs with
  | Data b :: evs => b ++ avail_ev evs
  | _ => []
  end.
Definition avail (s : sock) : list Z := avail_ev (s_in s).

(** A fresh stream on which the peer's bytes arrive in the given segments. *)
Definition stream_of (segs : list (list Z)) : sock :=
  mk_sock (map Data segs) [] [] false.

Lemma avail_stream_of segs : avail (stream_of segs) = concat segs.
Proof.
  unfold avail, stream_of. simpl. induction segs; simpl; [done | by f_equal].
Qed.

(** *** Lemmas on [read_exact] *)

Lemma read_exact_ev_app evs n a r :
  avail_ev evs = a ++ r → length a = n →
  ∃ evs', read_exact_ev evs n = (Ok a, evs') ∧ avail_ev evs' = r.
Proof.
  revert n a; induction evs as [|[b|e] evs IH]; intros n a Ha <-; simpl in Ha.
  - symmetry in Ha. apply app_eq_nil in Ha as [-> ->]. by exists [].
  - simpl. destruct (length a =? 0)%nat eqn:E0; norm.
    { destruct a; [|done]. simpl in *. by exists (Data b :: evs). }
    destruct (length a <? length b)%nat eqn:Elt; norm.
    + assert (b = a ++ drop (length a) b) as Hb.
      { rewrite <- (take_drop (length a) b) at 1. f_equal.
        apply (f_equal (take (length a))) in Ha.
        rewrite take_app_length, take_app_le in Ha by lia. done. }
      eexists. split; [f_equal; f_equal; rewrite Hb; by rewrite take_app_length|].
      simpl. rewrite Hb in Ha at 1. rewrite <- app_assoc in Ha. by simplify_list_eq.
    + assert (a = b ++ drop (length b) a) as Hb.
      { rewrite <- (take_drop (length b) a) at 1. f_equal.
        apply (f_equal (take (length b))) in Ha.
        rewrite take_app_length, take_app_le in Ha by lia. done. }
      destruct (IH (length a - length b)%nat (drop (length b) a)) as (evs' & -> & Hr).
      { rewrite Hb in Ha at 1. rewrite <- app_assoc in Ha. by simplify_list_eq. }
      { by rewrite length_drop. }
      exists evs'. by rewrite <- Hb.
  - symmetry in Ha. apply app_eq_nil in Ha as [-> ->]. by exists (RdErr e :: evs).
Qed.

Lemma read_exact_ev_inv evs n a evs' :
  read_exact_ev evs n = (Ok a, evs') → avail_ev evs = a ++ avail_ev evs' ∧ length a = n.
Proof.
  revert n a evs'; induction evs as [|[b|e] evs IH]; intros n a evs'; simpl;
    destruct (n =? 0)%nat eqn:E0; norm; try (intros [= <- <-]; by auto).
  destruct (n <? length b)%nat eqn:Elt; norm.
  - intros [= <- <-]. simpl. rewrite app_assoc, take_drop, length_take.
    split; [done | lia].
  - destruct (read_exact_ev evs (n - length b)) as [[t| |] evs2] eqn:E; try done.
    intros [= <- <-]. destruct (IH _ _ _ E) as [-> Hl].
    rewrite length_app, <- app_assoc. split; [done | lia].
Qed.

(** A successful [read_exact] took the next [n] bytes and nothing else. *)
Lemma read_exact_inv n s a s' :
  read_exact n s = (Ok a, s') →
  avail s = a ++ avail s' ∧ length a = n ∧ s_out s' = s_out s ∧ s_wr s' = s_wr s
  ∧ s_shut s' = s_shut s.
Proof.
  unfold read_exact. destruct (read_exact_ev (s_in s) n) as [r evs] eqn:E.
  intros [= -> <-]. apply read_exact_ev_inv in E as [H1 H2]. done.
Qed.

Lemma read_exact_no_panic n s : (read_exact n s).1 ≠ Panic.
Proof.
  unfold read_exact. destruct (read_exact_ev (s_in s) n) as [r evs] eqn:E. simpl.
  intros ->. revert n evs E. induction (s_in s) as [|[b|e] l IH]; intros n evs; simpl;
    destruct (n =? 0)%nat; try done.
  destruct (n <? length b)%nat; [done|].
  destruct (read_exact_ev l (n - length b)) as [[t| |] evs2] eqn:E2; try done.
  intros _. by eapply IH.
Qed.

Lemma write_all_inv b s s' :
  write_all b s = (Ok tt, s') →
  avail s = avail s' ∧ s_out s' = s_out s ++ b ∧ s_in s' = s_in s ∧ s_shut s' = s_shut s.
Proof.
  unfold write_all. destruct (s_wr s) as [|[[n e]|] w]; intros [= <-]; done.
Qed.

(** ** Runs on given bytes

    [yields m i r i' o]: on every stream whose pending bytes are [i] and whose
    writes succeed, however the bytes are cut into segments, [m] returns [r],
    leaves the bytes [i'] unread and has written [o]. *)
Definition yields {A} (m : io A) (i : list Z) (r : res ioerr A) (i' o : list Z) : Prop :=
  ∀ s, avail s = i → s_wr s = [] →
  ∃ s', m s = (r, s') ∧ avail s' = i' ∧ s_out s' = s_out s ++ o
        ∧ s_wr s' = [] ∧ s_shut s' = s_shut s.

Lemma yields_ret {A} (a : A) i : yields (ret a) i (Ok a) i [].
Proof. intros s Hi Hw. exists s. by rewrite app_nil_r. Qed.

Lemma yields_fail {A} e i : yields (@fail A e) i (Err e) i [].
Proof. intros s Hi Hw. exists s. by rewrite app_nil_r. Qed.

Lemma yields_lift {A} (r : res ioerr A) i : yields (lift r) i r i [].
Proof. intros s Hi Hw. exists s. by rewrite app_nil_r. Qed.

Lemma yields_read_exact n a i : length a = n → yields (read_exact n) (a ++ i) (Ok a) i [].
Proof.
  intros Hn s Hi Hw. destruct (read_exact_ev_app (s_in s) n a i Hi Hn) as (evs & He & Hr).
  exists (mk_sock evs (s_out s) (s_wr s) (s_shut s)).
  unfold read_exact. rewrite He, app_nil_r. done.
Qed.

Lemma yields_write_all b i : yields (write_all b) i (Ok tt) i b.
Proof.
  intros s Hi Hw. unfold write_all. rewrite Hw.
  eexists. split; [done|]. done.
Qed.

Lemma yields_bind {A B} (m : io A) (k : A → io B) i a i1 o1 r i2 o2 :
  yields m i (Ok a) i1 o1 → yields (k a) i1 r i2 o2 →
  yields (io_bind m k) i r i2 (o1 ++ o2).
Proof.
  intros Hm Hk s Hi Hw. destruct (Hm s Hi Hw) as (s1 & E1 & Hi1 & Ho1 & Hw1 & Hs1).
  destruct (Hk s1 Hi1 Hw1) as (s2 & E2 & Hi2 & Ho2 & Hw2 & Hs2).
  exists s2. unfold io_bind. rewrite E1, E2, Ho2, Ho1, <- app_assoc. by rewrite Hs2.
Qed.

Lemma yields_bind_err {A B} (m : io A) (k : A → io B) i e i1 o1 :
  yields m i (Err e) i1 o1 → yields (io_bind m k) i (Err e) i1 o1.
Proof.
  intros Hm s Hi Hw. destruct (Hm s Hi Hw) as (s1 & E1 & H).
  exists s1. unfold io_bind. by rewrite E1.
Qed.

Lemma yields_eq {A} (m : io A) i r i' o i0 o0 :
  yields m i r i' o → i0 = i → o0 = o → yields m i0 r i' o0.
Proof. by intros H -> ->. Qed.

(** Reading silently then continuing: the usual shape of a step. *)
Lemma yields_read {A} n a (k : list Z → io A) i r i' o :
  length a = n → yields (k a) i r i' o →
  yields (io_bind (read_exact n) k) (a ++ i) r i' o.
Proof. intros Hn Hk. apply (yields_bind _ _ _ a i []); [by apply yields_read_exact | done]. Qed.

Lemma yields_lift_ok {A B} (x : A) (k : A → io B) i r i' o :
  yields (k x) i r i' o → yields (io_bind (lift (Ok x)) k) i r i' o.
Proof. intros Hk. apply (yields_bind _ _ _ x i []); [apply yields_lift | done]. Qed.

Lemma yields_ret_bind {A B} (x : A) (k : A → io B) i r i' o :
  yields (k x) i r i' o → yields (io_bind (ret x) k) i r i' o.
Proof. intros Hk. apply (yields_bind _ _ _ x i []); [apply yields_ret | done]. Qed.

Lemma yields_silent {A B} (m : io A) a (k : A → io B) i i1 r i' o :
  yields m i (Ok a) i1 [] → yields (k a) i1 r i' o → yields (io_bind m k) i r i' o.
Proof. apply (yields_bind m k i a i1 []). Qed.

Lemma yields_write {A} b (k : unit → io A) i r i' o :
  yields (k tt) i r i' o → yields (io_bind (write_all b) k) i r i' (b ++ o).
Proof. intros Hk. eapply yields_bind; [apply yields_write_all | done]. Qed.

Lemma yields_write_last {A} b (k : unit → io A) i r i' :
  yields (k tt) i r i' [] → yields (io_bind (write_all b) k) i r i' b.
Proof. rewrite <- (app_nil_r b) at 2. apply yields_write. Qed.

Lemma yields_write_ret {A} b (a : A) i :
  yields (io_bind (write_all b) (λ _, ret a)) i (Ok a) i b.
Proof. rewrite <- (app_nil_r b) at 2. apply yields_write, yields_ret. Qed.

Lemma yields_write_fail {A} b e i :
  yields (io_bind (write_all b) (λ _, @fail A e)) i (Err e) i b.
Proof. rewrite <- (app_nil_r b) at 2. apply yields_write, yields_fail. Qed.

Lemma yields_read_u8 {A} x (k : Z → io A) i r i' o :
  yields (k x) i r i' o → yields (io_bind read_u8 k) (x :: i) r i' o.
Proof.
  intros Hk. apply (yields_bind _ _ _ x i []); [|done].
  unfold read_u8. change (x :: i) with ([x] ++ i). apply yields_read; [done|].
  apply yields_lift_ok, yields_ret.
Qed.

(** A finished run on a concrete stream. *)
Lemma yields_run {A} (m : io A) segs r i' o :
  yields m (concat segs) r i' o →
  ∃ s', m (stream_of segs) = (r, s') ∧ avail s' = i' ∧ s_out s' = o.
Proof.
  intros Hm. destruct (Hm (stream_of segs) (avail_stream_of segs) eq_refl)
    as (s' & H1 & H2 & H3 & _). by exists s'.
Qed.

(** ** Reading what is there *)

(** A stream that ends without an error. *)
Definition clean (s : sock) : Prop :=
  Forall (λ e, match e with Data _ => True | RdErr _ => False end) (s_in s).

Lemma clean_stream_of segs : clean (stream_of segs).
Proof. unfold clean, stream_of. cbn. apply Forall_map, Forall_forall. done. Qed.

Lemma read_ev_clean evs n :
  (0 < n)%nat → Forall (λ e, match e with Data _ => True | RdErr _ => False end) evs →
  let '(r, evs') := read_ev evs n in
  Forall (λ e, match e with Data _ => True | RdErr _ => False end) evs' ∧
  ∃ b, r = Ok b ∧ avail_ev evs = b ++ avail_ev evs' ∧ (b = [] → avail_ev evs = []).
Proof.
  intros Hn. induction 1 as [|[[|x b]|e] evs He Hc IH]; cbn [read_ev].
  - split; [constructor|]. by exists [].
  - destruct (read_ev evs n) as [r evs']. done.
  - split; [destruct (n <? length (x :: b))%nat; [by constructor | done]|]. exists (take n (x :: b)).
    split; [done|]. split; [|intros E; destruct n; [lia | done]].
    destruct (Nat.ltb_spec n (length (x :: b))) as [E|E]; cbn [avail_ev].
    + by rewrite app_assoc, take_drop.
    + by rewrite take_ge by lia.
  - done.
Qed.

(** On a stream without errors, [read] returns some of the pending bytes, and
    no bytes only when none are left. *)
Lemma read_clean n s :
  (0 < n)%nat → clean s →
  ∃ b s', read n s = (Ok b, s') ∧ clean s' ∧ avail s = b ++ avail s' ∧ (b = [] → avail s = [])
          ∧ s_out s' = s_out s.
Proof.
  intros Hn Hc. pose proof (read_ev_clean (s_in s) n Hn Hc) as H. unfold read.
  destruct (read_ev (s_in s) n) as [r evs]. destruct H as (H1 & b & -> & H2 & H3).
  by exists b, (mk_sock evs (s_out s) (s_wr s) (s_shut s)).
Qed.

Lemma read_exact_clean evs n :
  Forall (λ e, match e with Data _ => True | RdErr _ => False end) evs →
  Forall (λ e, match e with Data _ => True | RdErr _ => False end) (read_exact_ev evs n).2.
Proof.
  intros H. revert n. induction H as [|[b|e] evs He H IH]; intros n; cbn [read_exact_ev].
  - destruct (n =? 0)%nat; constructor.
  - destruct (n =? 0)%nat; [by constructor|].
    destruct (n <? length b)%nat; [by constructor|].
    specialize (IH (n - length b)%nat). destruct (read_exact_ev evs (n - length b)) as [[] ?]; done.
  - done.
Qed.

(** Computations that only ever take bytes off a stream keep it clean. *)
Definition keeps_clean {A} (m : io A) : Prop := ∀ s, clean s → clean (m s).2.

Lemma kc_ret {A} (a : A) : keeps_clean (ret a).
Proof. by intros s. Qed.
Lemma kc_fail {A} e : keeps_clean (@fail A e).
Proof. by intros s. Qed.
Lemma kc_lift {A} (r : res ioerr A) : keeps_clean (lift r).
Proof. by intros s. Qed.
Lemma kc_read_exact n : keeps_clean (read_exact n).
Proof.
  intros s Hs. unfold read_exact. pose proof (read_exact_clean (s_in s) n Hs) as H.
  by destruct (read_exact_ev (s_in s) n).
Qed.
Lemma kc_write_all b : keeps_clean (write_all b).
Proof. intros s Hs. unfold write_all. by destruct (s_wr s) as [|[[]|]]. Qed.
Lemma kc_bind {A B} (m : io A) (k : A → io B) :
  keeps_clean m → (∀ a, keeps_clean (k a)) → keeps_clean (io_bind m k).
Proof.
  intros Hm Hk s Hs. unfold io_bind. specialize (Hm s Hs).
  destruct (m s) as [[a|e|] s1]; [by apply Hk | done..].
Qed.
Lemma kc_read_u8 : keeps_clean read_u8.
Proof. repeat first [apply kc_read_exact | apply kc_lift | apply kc_ret | apply kc_bind; [|intros ?]]. Qed.

Lemma kc_read n : keeps_clean (read n).
Proof.
  intros s Hs. unfold clean, read in *. revert Hs.
  induction (s_in s) as [|[[|x b]|e] evs IH]; cbn [read_ev]; intros Hs; [done| | |];
    apply Forall_cons in Hs as [He Hs]; [|by destruct (n <? length (x :: b))%nat; [constructor|] | done].
  specialize (IH Hs). by destruct (read_ev evs n).
Qed.

Create HintDb clean.
#[export] Hint Resolve kc_ret kc_fail kc_lift kc_read_exact kc_write_all kc_read_u8 kc_read : clean.

(** Walk a handshake: every leaf takes bytes or writes. *)
Ltac keeps_clean :=
  repeat first
    [ solve [auto with clean]
    | apply kc_bind; [|intros ?]
    | match goal with
      | |- keeps_clean (match ?x with _ => _ end) => destruct x
      | |- keeps_clean (let '_ := ?x in _) => destruct x
      end ].

Lemma read_length n s b s' : read n s = (Ok b, s') → (length b <= n)%nat.
Proof.
  unfold read. destruct (read_ev (s_in s) n) as [r evs] eqn:E. intros [= -> <-].
  induction (s_in s) as [|[[|x l]|e] es IH]; cbn [read_ev] in E; simplify_eq; [cbn; lia | auto |].
  rewrite length_take. lia.
Qed.

(** ** Inversion of successful runs *)

Lemma io_bind_ok {A B} (m : io A) (k : A → io B) s b s' :
  io_bind m k s = (Ok b, s') → ∃ a s1, m s = (Ok a, s1) ∧ k a s1 = (Ok b, s').
Proof.
  unfold io_bind. destruct (m s) as [[a|e|] s1]; [|done..]. intros. by exists a, s1.
Qed.

Lemma lift_ok {A} (r : res ioerr A) s a s' : lift r s = (Ok a, s') → r = Ok a ∧ s' = s.
Proof. by intros [= -> ->]. Qed.

Lemma read_inv n s b s' : read n s = (Ok b, s') → avail s = b ++ avail s' ∧ (length b <= n)%nat.
Proof.
  intros H. split; [|by eapply read_length]. unfold read in H. destruct (read_ev (s_in s) n) as [r evs] eqn:E.
  injection H as -> <-. unfold avail. cbn [s_in]. revert b evs E.
  induction (s_in s) as [|[[|x l]|e] es IH]; intros b evs E; cbn [read_ev] in E; [by injection E as <- <-|by apply IH| |done].
  injection E as <- <-. cbn [avail_ev length]. destruct (Nat.ltb_spec n (S (length l))) as [Hl|Hl].
  - cbn [avail_ev]. by rewrite (app_assoc (take _ _)), take_drop.
  - by rewrite take_ge by (cbn; lia).
Qed.

Lemma read_u8_inv s x s' :
  read_u8 s = (Ok x, s') →
  avail s = x :: avail s' ∧ s_out s' = s_out s ∧ s_wr s' = s_wr s ∧ s_shut s' = s_shut s.
Proof.
  unfold read_u8. intros H. apply io_bind_ok in H as (b & s1 & Hb & H).
  apply io_bind_ok in H as (y & s2 & Hy & H). apply lift_ok in Hy as [Hy ->].
  injection H as -> ->. apply read_exact_inv in Hb as (Ha & Hl & ?).
  destruct b as [|y [|]]; try done. simpl in Hy. injection Hy as ->. done.
Qed.

(** Take successful runs apart, one step at a time: every bind into the runs
    of its parts, every primitive into its effect on the stream. *)
Ltac io_inv H :=
  let a := fresh "x" in let s := fresh "s" in let Hm := fresh "Hm" in
  apply io_bind_ok in H as (a & s & Hm & H).
Ltac io_step :=
  match goal with
  | H : io_bind _ _ _ = (Ok _, _) |- _ => io_inv H
  | H : lift _ _ = (Ok _, _) |- _ =>
    let E := fresh "E" in apply lift_ok in H as [E H]; subst
  | H : ret _ _ = (Ok _, _) |- _ => injection H as ?; subst
  | H : fail _ _ = (Ok _, _) |- _ => discriminate H
  | H : read_exact _ _ = (Ok _, _) |- _ => apply read_exact_inv in H as (? & ? & ? & ? & ?)
  | H : read_u8 _ = (Ok _, _) |- _ => apply read_u8_inv in H as (? & ? & ? & ?)
  | H : write_all _ _ = (Ok ?x, _) |- _ =>
    destruct x; apply write_all_inv in H as (? & ? & ? & ?)
  | H : (if ?b then _ else _) _ = (Ok _, _) |- _ => destruct b eqn:?
  | H : (match ?b with _ => _ end) _ = (Ok _, _) |- _ => destruct b eqn:?
  end.
Ltac io_invs := repeat io_step.

Create HintDb io.
#[export] Hint Resolve yields_ret yields_fail yields_read_exact yields_write_all : io.

(** A cut of [x ++ y] lies inside [x] or in [y]. *)
Lemma cut_cases (x y p q : list Z) :
  x ++ y = p ++ q → (∃ k, x = p ++ k ∧ k ≠ [] ∧ q = k ++ y) ∨ (∃ k, p = x ++ k ∧ y = k ++ q).
Proof.
  intros E. apply app_eq_inv in E as [(k & -> & ->)|(k & -> & ->)]; [|right; by exists k].
  destruct k as [|z k]; [right; exists []; by rewrite !app_nil_r | left; by eexists].
Qed.

Lemma read_wr n s : s_wr (read n s).2 = s_wr s.
Proof. unfold read. by destruct (read_ev (s_in s) n). Qed.

Lemma write_all_sure b s : s_wr s = [] → write_all b s = (Ok tt, mk_sock (s_in s) (s_out s ++ b) [] (s_shut s)).
Proof. intros H. unfold write_all. by rewrite H. Qed.

(** ** Readers

    A stream that is polled for bytes, and someone who reads it up to its end,
    an error or a wait. *)

Inductive outcome := OEof | OErr (e : ioerr) | OPanic | OWait.

Section Readers.
Context {St : Type} (poll : St → option (res ioerr (list Z)) * St).

Fixpoint read_all (fuel : nat) (st : St) : list Z * outcome :=
  match fuel with
  | O => ([], OWait)
  | S fuel =>
    match poll st with
    | (None, _) => ([], OWait)
    | (Some (Ok []), _) => ([], OEof)
    | (Some (Ok b), st) => let '(l, o) := read_all fuel st in (b ++ l, o)
    | (Some (Err e), _) => ([], OErr e)
    | (Some Panic, _) => ([], OPanic)
    end
  end.

(** [delivers st] is all that is to come: each poll gives the next part. *)
Definition polls_to (delivers : St → list Z * outcome) : Prop := ∀ st,
  match poll st with
  | (None, _) => delivers st = ([], OWait)
  | (Some (Ok []), _) => delivers st = ([], OEof)
  | (Some (Ok b), st') => delivers st = (b ++ (delivers st').1, (delivers st').2)
  | (Some (Err e), _) => delivers st = ([], OErr e)
  | (Some Panic, _) => delivers st = ([], OPanic)
  end.

Lemma read_all_delivers delivers fuel : ∀ st,
  polls_to delivers → (length (delivers st).1 < fuel)%nat → read_all fuel st = delivers st.
Proof.
  induction fuel as [|fuel IH]; intros st Hd Hf; [lia|]. cbn [read_all]. pose proof (Hd st) as Hs.
  destruct (poll st) as [[[[|x b]|e|]|] st']; rewrite Hs in Hf |- *; [done| |done..].
  cbn [fst] in Hf. rewrite length_app in Hf. cbn [length] in Hf.
  rewrite IH by (done || lia). by destruct (delivers st').
Qed.
End Readers.
