(* ===== verification/Socks5.v ===== *)
(** * Socks5: the SOCKS5 codec and handshakes

    [omni-domain/src/socks5.rs] (addresses, greeting, request, reply) and
    [omni-proto/src/proto/socks/mod.rs] (the inbound handshake, the UDP packet
    codec and the outbound client's negotiation and request).  The address
    codec is shared by the trojan, vless, anytls and hysteria2 components. *)

From S2P Require Import Prelude Text Net Io.

Definition VER : Z := 5.

Inductive Method := NoAuth | GssApi | UserPass | NoAcceptable.

(** [m as u8]. *)
Definition method_u8 (m : Method) : Z :=
  match m with NoAuth => 0 | GssApi => 1 | UserPass => 2 | NoAcceptable => 255 end.

Definition method_from_u8 (b : Z) : option Method :=
  if b =? 0 then Some NoAuth
  else if b =? 1 then Some GssApi
  else if b =? 2 then Some UserPass
  else None.

Inductive Command := Connect | Bind | UdpAssociate.

#[export] Instance Command_eq_dec : EqDecision Command.
Proof. solve_decision. Defined.

Definition command_from_u8 (b : Z) : option Command :=
  if b =? 1 then Some Connect
  else if b =? 2 then Some Bind
  else if b =? 3 then Some UdpAssociate
  else None.

Definition command_to_u8 (c : Command) : Z :=
  match c with Connect => 1 | Bind => 2 | UdpAssociate => 3 end.

Inductive Socks5Addr :=
| SV4 (ip : list Z) (p : Z)
| SV6 (ip : list Z) (p : Z)
| SDomain (d : str) (p : Z).

#[export] Instance Socks5Addr_eq_dec : EqDecision Socks5Addr.
Proof. solve_decision. Defined.

Definition MAX_DOMAIN_LEN : nat := 255.

(** [Socks5Addr::encode_into] appends to [buf]. *)
Definition encode_into (a : Socks5Addr) (buf : list Z) : list Z :=
  match a with
  | SV4 ip p => buf ++ [1] ++ ip ++ be_bytes 2 p
  | SV6 ip p => buf ++ [4] ++ ip ++ be_bytes 2 p
  | SDomain d p => buf ++ [3] ++ [u8! (Z.of_nat (length d))] ++ d ++ be_bytes 2 p
  end.

(** [Socks5Addr::decode]: the address and the number of bytes it took. *)
Definition decode (buf : list Z) : res str (Socks5Addr * nat) :=
  if (length buf <? 2)%nat then Err (bs "socks5: empty address buffer") else
  let? atyp := idx buf 0 in
  let? rest := slice_from buf 1 in
  if atyp =? 1 then
    if (length rest <? 4)%nat then Err (bs "socks5: IPv4 address too short") else
    let? ip := slice rest 0 4 in
    if (length rest <? 6)%nat then Err (bs "socks5: IPv4 address too short") else
    let? p0 := idx rest 4 in
    let? p1 := idx rest 5 in
    Ok (SV4 ip (u16_be p0 p1), 7%nat)
  else if atyp =? 3 then
    if (length rest =? 0)%nat then Err (bs "socks5: domain length missing") else
    let? l := idx rest 0 in
    let dl := Z.to_nat l in
    if (dl =? 0)%nat || (MAX_DOMAIN_LEN <? dl)%nat then Err (bs "socks5: domain too short") else
    if (length rest <? 1 + dl + 2)%nat then Err (bs "socks5: domain too short") else
    let? d := slice rest 1 (1 + dl) in
    if negb (utf8_valid d) then Err (bs "socks5: domain not UTF-8") else
    let? p0 := idx rest (1 + dl) in
    let? p1 := idx rest (2 + dl) in
    Ok (SDomain d (u16_be p0 p1), (1 + 1 + dl + 2)%nat)
  else if atyp =? 4 then
    if (length rest <? 16 + 2)%nat then Err (bs "socks5: IPv6 address too short") else
    let? ip := slice rest 0 16 in
    let? p0 := idx rest 16 in
    let? p1 := idx rest 17 in
    Ok (SV6 ip (u16_be p0 p1), 19%nat)
  else Err (bs "socks5: unknown address type").

Definition to_proxy_target (a : Socks5Addr) : ProxyTarget :=
  match a with
  | SV4 ip p => Tcp (sa_new (V4 ip) p)
  | SV6 ip p => Tcp (sa_new (V6 ip) p)
  | SDomain d p => Domain d p
  end.

Definition from_proxy_target (t : ProxyTarget) : Socks5Addr :=
  match t with
  | Tcp a => match ip a with
             | V4 o => SV4 o (port a)
             | V6 o => SV6 o (port a)
             end
  | Domain h p => SDomain h p
  end.

(** ** Handshake messages *)

Definition read_greeting : io (list Z) :=
  do! first := read_exact 2 in
  do! v <- idx first 0 in
  if negb (v =? VER) then fail (invalid_data (bs "socks5: unsupported version")) else
  do! n <- idx first 1 in
  if (Z.to_nat n =? 0)%nat then fail (invalid_data (bs "socks5: no methods offered")) else
  read_exact (Z.to_nat n).

Definition write_method_choice (m : Method) : io unit :=
  write_all [VER; method_u8 m].

Definition read_request : io (Command * Socks5Addr) :=
  do! head := read_exact 4 in
  do! v <- idx head 0 in
  if negb (v =? VER) then fail (invalid_data (bs "socks5: unsupported version")) else
  do! c <- idx head 1 in
  do! cmd <- ok_or (invalid_data (bs "socks5: unknown command")) (command_from_u8 c) in
  do! atyp <- idx head 3 in
  do! addr :=
    (if atyp =? 1 then
       do! b := read_exact 6 in
       do! ip <- slice b 0 4 in
       do! p0 <- idx b 4 in
       do! p1 <- idx b 5 in
       ret (SV4 ip (u16_be p0 p1))
     else if atyp =? 3 then
       do! l := read_u8 in
       let dl := Z.to_nat l in
       do! b := read_exact (dl + 2) in
       do! h <- slice b 0 dl in
       let host := from_utf8_lossy h in
       do! p0 <- idx b dl in
       do! p1 <- idx b (dl + 1) in
       ret (SDomain host (u16_be p0 p1))
     else if atyp =? 4 then
       do! b := read_exact 18 in
       do! ip <- slice b 0 16 in
       do! p0 <- idx b 16 in
       do! p1 <- idx b 17 in
       ret (SV6 ip (u16_be p0 p1))
     else fail (invalid_data (bs "socks5: unknown address type"))) in
  ret (cmd, addr).

Definition REP_SUCCEEDED : Z := 0.
Definition REP_COMMAND_NOT_SUPPORTED : Z := 7.

Definition write_reply (rep : Z) (bind : option Socks5Addr) : io unit :=
  let out := [VER; rep; 0] in
  write_all (match bind with
             | Some a => encode_into a out
             | None => out ++ [1; 0; 0; 0; 0; 0; 0]
             end).

(** ** The inbound ([socks/mod.rs]) *)

Record SocksInboundConfig := mk_socks_in {
  si_username : option str;
  si_password : option str
}.

(** [Accepted<S>]; the stream itself is the state of the computation. *)
Inductive Accepted :=
| AccTcp (t : ProxyTarget)
| AccUdpAssociate.

#[export] Instance Accepted_eq_dec : EqDecision Accepted.
Proof. solve_decision. Defined.

Definition handshake (cfg : SocksInboundConfig) : io Accepted :=
  do! methods := read_greeting in
  let need_auth := match si_username cfg with Some _ => true | None => false end in
  do! chosen :=
    (if need_auth && bool_decide (2 ∈ methods) then ret UserPass
     else if negb need_auth && bool_decide (0 ∈ methods) then ret NoAuth
     else do! _ := write_method_choice NoAcceptable in
          fail (other (bs "socks5: no acceptable auth method offered"))) in
  do! _ := write_method_choice chosen in
  do! _ :=
    (if need_auth then
       do! hdr := read_exact 2 in
       do! v <- idx hdr 0 in
       if negb (v =? 1) then fail (other (bs "socks5: bad subnegotiation version")) else
       do! ul <- idx hdr 1 in
       do! u := read_exact (Z.to_nat ul) in
       let user := from_utf8_lossy u in
       do! plen := read_u8 in
       do! p := read_exact (Z.to_nat plen) in
       let pass := from_utf8_lossy p in
       let ok := bool_decide (si_username cfg = Some user)
                 && bool_decide (si_password cfg = Some pass) in
       do! _ := write_all [1; if ok then 0 else 1] in
       if negb ok then fail (other (bs "socks5: authentication failed")) else ret tt
     else ret tt) in
  do! (cmd, addr) := read_request in
  match cmd with
  | Connect =>
    do! _ := write_reply REP_SUCCEEDED (Some addr) in
    ret (AccTcp (to_proxy_target addr))
  | UdpAssociate => ret AccUdpAssociate
  | Bind =>
    do! _ := write_reply REP_COMMAND_NOT_SUPPORTED None in
    fail (other (bs "socks5: BIND not supported"))
  end.

(** ** UDP packets *)

Definition parse_udp_packet (buf : list Z) : res ioerr (Socks5Addr * list Z) :=
  if (length buf <? 4)%nat then Err (other (bs "socks5: empty address buffer")) else
  let? b0 := idx buf 0 in
  let? b1 := idx buf 1 in
  let? b2 := idx buf 2 in
  if negb (b0 =? 0) || negb (b1 =? 0) || negb (b2 =? 0)
  then Err (other (bs "socks5: bad UDP RSV/FRAG")) else
  let? t := slice_from buf 3 in
  let? (addr, used) := map_err invalid_data (decode t) in
  if (length buf <? 3 + used)%nat then Err (other (bs "socks5: UDP packet truncated")) else
  let? d := slice_from buf (3 + used) in
  Ok (addr, d).

Definition encode_udp_packet (a : Socks5Addr) (d : list Z) : list Z :=
  encode_into a [0; 0; 0] ++ d.

(** ** The outbound client ([socks/mod.rs], [mod client]) *)

Record SocksOutboundConfig := mk_socks_out {
  so_server : str;
  so_server_port : Z;
  so_username : option str;
  so_password : option str
}.

Definition negotiate (cfg : SocksOutboundConfig) : io unit :=
  let methods := match so_username cfg with Some _ => [2; 0] | None => [0] end in
  do! _ := write_all [VER; u8! (Z.of_nat (length methods))] in
  do! _ := write_all methods in
  do! resp := read_exact 2 in
  do! v <- idx resp 0 in
  if negb (v =? VER) then fail (other (bs "socks5: bad version in method reply")) else
  do! m <- idx resp 1 in
  match method_from_u8 m with
  | Some NoAuth => ret tt
  | Some UserPass =>
    let u := default [] (so_username cfg) in
    let p := default [] (so_password cfg) in
    do! _ := write_all ([1; u8! (Z.of_nat (length u))] ++ u
                        ++ [u8! (Z.of_nat (length p))] ++ p) in
    do! st := read_exact 2 in
    do! s1 <- idx st 1 in
    if negb (s1 =? 0) then fail (other (bs "socks5: authentication failed")) else ret tt
  | _ => fail (other (bs "socks5: no acceptable auth method offered"))
  end.

(** Two hexadecimal digits, [{:02x}]. *)
Definition hex2 (b : Z) : str :=
  let d x := if x <? 10 then 48 + x else 87 + x in [d (b / 16); d (b mod 16)].

Definition request (cmd : Command) (addr : Socks5Addr) : io Socks5Addr :=
  do! _ := write_all (encode_into addr [VER; command_to_u8 cmd; 0]) in
  do! head := read_exact 4 in
  do! rep <- idx head 1 in
  if negb (rep =? REP_SUCCEEDED)
  then fail (other (bs "socks5: connect refused rep=0x" ++ hex2 rep)) else
  do! t <- slice_from head 3 in
  do! (bind, used) <- map_err invalid_data (decode t) in
  if (4 <? used)%nat then
    do! _ := read_exact (used - 4) in ret bind
  else ret bind.

(** [client::connect_tcp] on a connection already dialled to the server. *)
Definition connect_tcp (cfg : SocksOutboundConfig) (target : ProxyTarget) : io unit :=
  do! _ := negotiate cfg in
  do! _ := request Connect (from_proxy_target target) in
  ret tt.

(** ** Well-formed addresses *)

(** What the Rust type guarantees, plus a host that a length byte can carry. *)
Definition addr_wf (a : Socks5Addr) : Prop :=
  match a with
  | SV4 ip p => length ip = 4%nat ∧ bytes ip ∧ is_u16 p
  | SV6 ip p => length ip = 16%nat ∧ bytes ip ∧ is_u16 p
  | SDomain d p => (0 < length d < 256)%nat ∧ bytes d ∧ utf8_valid d = true ∧ is_u16 p
  end.

#[export] Instance addr_wf_dec a : Decision (addr_wf a).
Proof. destruct a; simpl; apply _. Defined.

(** The encoding on its own. *)
Abbreviation encode a := (encode_into a []).

(** ** The address codec *)

Lemma encode_into_app a buf : encode_into a buf = buf ++ encode a.
Proof. by destruct a. Qed.

Lemma encode_length a :
  addr_wf a → length (encode a) =
  match a with SV4 _ _ => 7%nat | SV6 _ _ => 19%nat | SDomain d _ => (4 + length d)%nat end.
Proof. destruct a; cbn; intros; norm; len. Qed.

Lemma slice_from_1 {E} x l : @slice_from E (x :: l) 1 = Ok l.
Proof. by apply (slice_from_app [x]). Qed.

Lemma idx_cons_0 {E} x l : @idx E (x :: l) 0 = Ok x.
Proof. reflexivity. Qed.

Lemma slice_cons_mid {E} x a r n : n = S (length a) → @slice E (x :: a ++ r) 1 n = Ok a.
Proof. intros ->. by apply (slice_mid [x] a r). Qed.

Lemma slice_prefix {E} a b n : n = length a → @slice E (a ++ b) 0 n = Ok a.
Proof. intros ->. apply (slice_mid [] a b); done. Qed.

(** Indexing into the two bytes that follow a field of known length. *)
Lemma idx_mid0 {E} a x r n : n = length a → @idx E (a ++ x :: r) n = Ok x.
Proof. intros ->. rewrite idx_app_r by lia. by rewrite Nat.sub_diag. Qed.

Lemma idx_mid1 {E} a x y r n : n = S (length a) → @idx E (a ++ x :: y :: r) n = Ok y.
Proof.
  intros ->. rewrite idx_app_r by lia. by replace (S (length a) - length a)%nat with 1%nat by lia.
Qed.

Lemma encode_bytes a : addr_wf a → bytes (encode a).
Proof. destruct a; cbn -[be_bytes]; intros; norm; byt. Qed.

(** The shared body of the round trip: what [decode] does on an encoding,
    whatever follows it. *)
Lemma decode_encode_app a r :
  addr_wf a → decode (encode a ++ r) = Ok (a, length (encode a)).
Proof.
  intros Hwf. rewrite encode_length by done. unfold decode.
  rewrite (proj2 (Nat.ltb_ge _ _)) by (rewrite length_app, encode_length by done; destruct a; lia).
  destruct a as [ip p|ip p|d p]; cbn [encode_into app addr_wf] in *;
    rewrite slice_from_1, idx_cons_0, be_bytes_2, <- ?app_assoc;
    cbn [Z.eqb Pos.eqb app]; norm.
  - rewrite !(proj2 (Nat.ltb_ge _ _)) by len.
    by rewrite slice_prefix, idx_mid0, idx_mid1, u16_be_bytes by (done || lia).
  - rewrite !(proj2 (Nat.ltb_ge _ _)) by len.
    by rewrite slice_prefix, idx_mid0, idx_mid1, u16_be_bytes by (done || lia).
  - rewrite wrap_Z_of_nat_u8, Nat2Z.id by lia.
    rewrite (proj2 (Nat.eqb_neq _ _)) by len. unfold MAX_DOMAIN_LEN.
    rewrite !(proj2 (Nat.ltb_ge _ _)) by len. cbn [orb].
    rewrite slice_cons_mid by done.
    replace (utf8_valid d) with true by done. cbn [negb].
    rewrite app_comm_cons, idx_mid0, idx_mid1, u16_be_bytes by (done || (cbn; lia)).
    repeat f_equal; lia.
Qed.

(** A field of [n] bytes followed by a port. *)
Lemma field_port {E1 E2 E3} l n f x y :
  bytes l → @slice E1 l 0 n = Ok f → @idx E2 l n = Ok x → @idx E3 l (S n) = Ok y →
  length f = n ∧ bytes f ∧ is_u16 (u16_be x y)
  ∧ l = (f ++ be_bytes 2 (u16_be x y)) ++ drop (n + 2) l.
Proof.
  intros Hb Hf Hx Hy. apply slice_inv in Hf as [Hn ->]. apply idx_inv in Hx, Hy.
  rewrite drop_0, Nat.sub_0_r.
  assert (is_u8 x ∧ is_u8 y) as [Ux Uy] by (split; by eapply bytes_lookup).
  rewrite be_bytes_u16_be, <- app_assoc by done.
  repeat split; [rewrite length_take; lia | auto with rust | by apply u16_be_range.. |].
  by apply take_two.
Qed.

Lemma slice_drop_cons {E1 E2} x (l : list Z) n f :
  @slice E1 (x :: l) 1 (S n) = Ok f → @slice E2 l 0 n = Ok f.
Proof.
  intros H. apply slice_inv in H as [Hn ->]. cbn in Hn.
  rewrite slice_ok by lia. cbn. by rewrite ?Nat.sub_0_r, drop_0.
Qed.

(** A successful decode read exactly an encoding off the front of the buffer. *)
Lemma decode_inv buf a n :
  bytes buf → decode buf = Ok (a, n) →
  addr_wf a ∧ n = length (encode a) ∧ buf = encode a ++ drop n buf.
Proof.
  intros Hb H. unfold decode in H.
  destruct buf as [|t rest]; [done|]. apply bytes_cons in Hb as [Ht Hb].
  rewrite idx_cons_0, slice_from_1 in H.
  destruct (_ <? 2)%nat; [done|].
  destruct (t =? 1) eqn:E1; [|destruct (t =? 3) eqn:E3; [|destruct (t =? 4) eqn:E4; [|done]]];
    norm; ok_inv H.
  1, 3: edestruct @field_port as (Hl & Hf & Hp & Hr);
      [exact Hb | eassumption | eassumption | eassumption |];
      split; [done|]; split; [len | by f_equal].
  destruct rest as [|l rest]; [done|]. apply bytes_cons in Hb as [Hl Hb].
  match goal with H : idx _ 0 = Ok _ |- _ => injection H as -> end.
  edestruct (@field_port str str str rest) as (Hn & Hf & Hp & Hr);
    [exact Hb | by eapply slice_drop_cons | eassumption | eassumption |].
  unfold in_range, MAX_DOMAIN_LEN in *.
  split; [split; [lia | done]|]. split; [len|].
  rewrite Hn, Z2Nat.id, wrap_small by (unfold in_range; lia).
  by rewrite Hr at 1.
Qed.

(** [decode] never panics: every index is guarded. *)
Lemma decode_no_panic buf : decode buf ≠ Panic.
Proof.
  unfold decode. intros H.
  repeat (case_hyp H; try discriminate H; norm);
  repeat match goal with
  | H : idx _ _ = Panic |- _ => revert H; apply idx_not_panic; len
  | H : slice_from _ _ = Panic |- _ => rewrite slice_from_ok in H by len; done
  | H : slice_from _ _ = Ok _ |- _ => rewrite slice_from_ok in H by len; injection H as <-
  | H : slice _ _ _ = Panic |- _ => rewrite slice_ok in H by len; done
  end.
Qed.

(** Decoding a prefix of an encoded address and what follows it: the address
    once it is complete, an error before. *)
Lemma decode_prefix a buf more r :
  addr_wf a → bytes buf → buf ++ more = encode a ++ r →
  if (length (encode a) <=? length buf)%nat then decode buf = Ok (a, length (encode a))
  else ∃ e, decode buf = Err e.
Proof.
  intros Ha Hb E. destruct (Nat.leb_spec (length (encode a)) (length buf)) as [Hl|Hl].
  - assert (buf = encode a ++ drop (length (encode a)) buf) as ->.
    { rewrite <- (take_drop (length (encode a)) buf) at 1. f_equal.
      apply (f_equal (take (length (encode a)))) in E.
      rewrite take_app_le, take_app_length in E by lia. done. }
    by apply decode_encode_app.
  - destruct (decode buf) as [[a' n]|e|] eqn:Ed; [|by exists e | by apply decode_no_panic in Ed].
    exfalso. destruct (decode_inv _ _ _ Hb Ed) as (Ha' & -> & Hbuf).
    assert (decode (encode a ++ r) = Ok (a', length (encode a'))) as Hd.
    { rewrite <- E, Hbuf, <- app_assoc. by apply decode_encode_app. }
    rewrite decode_encode_app in Hd by done. injection Hd as <- _.
    rewrite Hbuf, length_app in Hl. lia.
Qed.

(** ** Handshake runs *)

(** The command codes round-trip. *)
Lemma command_from_to c : command_from_u8 (command_to_u8 c) = Some c.
Proof. by destruct c. Qed.

(** The tail of an address as [read_request] and the trojan reader take it:
    a fixed-length field followed by a port. *)
Lemma yields_field_port {A} n f p (k : list Z → Z → Z → io A) i r i' o :
  length f = n → yields (k f (u8! (Z.shiftr p 8)) (u8! p)) i r i' o →
  yields (do! b := read_exact (n + 2) in
          do! ip <- slice b 0 n in
          do! p0 <- idx b n in
          do! p1 <- idx b (n + 1) in
          k ip p0 p1) ((f ++ be_bytes 2 p) ++ i) r i' o.
Proof.
  intros Hn Hk. rewrite be_bytes_2. apply yields_read; [len|].
  rewrite slice_prefix by done. apply yields_lift_ok.
  rewrite idx_mid0 by done. apply yields_lift_ok.
  rewrite idx_mid1 by lia. by apply yields_lift_ok.
Qed.

Lemma yields_read_request c rsv a i :
  addr_wf a →
  yields read_request ([VER; command_to_u8 c; rsv] ++ encode a ++ i) (Ok (c, a)) i [].
Proof.
  intros Hwf. unfold read_request.
  assert (∃ t b, encode a = t :: b) as (t & b & Hb) by (destruct a; cbn; eauto).
  rewrite Hb. cbn [app].
  eapply yields_eq; [|change (VER :: command_to_u8 c :: rsv :: t :: b ++ i) with
    ([VER; command_to_u8 c; rsv; t] ++ b ++ i); done | done].
  apply yields_read; [done|].
  rewrite idx_cons_0. apply yields_lift_ok. cbn [negb VER Z.eqb Pos.eqb].
  apply yields_lift_ok. rewrite command_from_to. apply yields_lift_ok.
  apply yields_lift_ok. change (@nil Z) with (@nil Z ++ []).
  apply (yields_bind _ _ _ a i []); [|apply yields_ret].
  destruct a as [ip p|ip p|d p]; cbn [encode_into app addr_wf] in *; simplify_eq; norm;
    cbn [Z.eqb Pos.eqb].
  - apply (yields_field_port 4); [done|]. rewrite u16_be_bytes by done. apply yields_ret.
  - apply (yields_field_port 16); [done|]. rewrite u16_be_bytes by done. apply yields_ret.
  - apply yields_read_u8. rewrite wrap_Z_of_nat_u8, Nat2Z.id by lia.
    apply (yields_field_port (length d)); [done|].
    rewrite u16_be_bytes, from_utf8_lossy_valid by done. apply yields_ret.
Qed.

Definition greeting (methods : list Z) : list Z :=
  [VER; Z.of_nat (length methods)] ++ methods.

Lemma yields_greeting ms i :
  (0 < length ms)%nat → yields read_greeting (greeting ms ++ i) (Ok ms) i [].
Proof.
  intros Hm. unfold read_greeting, greeting.
  eapply yields_eq; [|by rewrite <- app_assoc | done].
  apply yields_read; [done|]. rewrite idx_cons_0. apply yields_lift_ok.
  cbn [negb VER Z.eqb Pos.eqb]. apply yields_lift_ok.
  rewrite Nat2Z.id, (proj2 (Nat.eqb_neq _ _)) by lia. by apply yields_read_exact.
Qed.

(** The username/password message of RFC 1929. *)
Definition userpass (u p : str) : list Z :=
  [1; Z.of_nat (length u)] ++ u ++ [Z.of_nat (length p)] ++ p.

(** On a listener without credentials, a client that offers the no-auth
    method and asks to connect to a well-formed address is accepted with that
    address as target, whatever the segmentation of its bytes; the server has
    answered the method choice and a success reply carrying the address, and
    the bytes after the request are left unread for the relay. *)
Theorem handshake_no_auth cfg ms rsv a i :
  si_username cfg = None → (0 < length ms)%nat → 0 ∈ ms → addr_wf a →
  yields (handshake cfg)
    (greeting ms ++ [VER; command_to_u8 Connect; rsv] ++ encode a ++ i)
    (Ok (AccTcp (to_proxy_target a))) i
    ([VER; 0] ++ [VER; REP_SUCCEEDED; 0] ++ encode a).
Proof.
  intros Hu Hl Hm Ha. unfold handshake.
  eapply yields_silent; [by apply yields_greeting|]. rewrite Hu. cbn [andb negb].
  rewrite bool_decide_true by done.
  apply yields_ret_bind, yields_write, yields_ret_bind.
  eapply yields_silent; [by apply yields_read_request|].
  rewrite <- encode_into_app. apply yields_write_ret.
Qed.

Lemma handshake_no_auth_witness :
  ∃ s', handshake (mk_socks_in None None)
          (stream_of [[5]; [1; 0; 5; 1]; [0; 3; 1; 97; 0; 80; 22]])
        = (Ok (AccTcp (Domain (bs "a") 80)), s') ∧ avail s' = [22]
        ∧ s_out s' = [5; 0; 5; 0; 0; 3; 1; 97; 0; 80].
Proof.
  apply (yields_run (handshake (mk_socks_in None None))
           [[5]; [1; 0; 5; 1]; [0; 3; 1; 97; 0; 80; 22]]).
  apply (handshake_no_auth (mk_socks_in None None) [0] 0 (SDomain (bs "a") 80) [22]).
  - reflexivity.
  - simpl. lia.
  - by left.
  - vm_compute. repeat constructor; discriminate.
Defined.

Lemma yields_userpass cfg u p i {A} (k : bool → io A) r i' o :
  utf8_valid u = true → utf8_valid p = true →
  yields (k (bool_decide (si_username cfg = Some u)
             && bool_decide (si_password cfg = Some p))) i r i' o →
  yields (do! hdr := read_exact 2 in
          do! v <- idx hdr 0 in
          if negb (v =? 1) then fail (other (bs "socks5: bad subnegotiation version")) else
          do! ul <- idx hdr 1 in
          do! u := read_exact (Z.to_nat ul) in
          let user := from_utf8_lossy u in
          do! plen := read_u8 in
          do! p := read_exact (Z.to_nat plen) in
          let pass := from_utf8_lossy p in
          k (bool_decide (si_username cfg = Some user)
             && bool_decide (si_password cfg = Some pass)))
    (userpass u p ++ i) r i' o.
Proof.
  intros Hu Hp Hk. unfold userpass.
  eapply yields_eq; [|by rewrite <- !app_assoc | done].
  apply yields_read; [done|]. rewrite idx_cons_0. apply yields_lift_ok. cbn [negb Z.eqb Pos.eqb].
  apply yields_lift_ok. rewrite Nat2Z.id. apply yields_read; [done|]. cbn zeta.
  apply yields_read_u8. rewrite Nat2Z.id. apply yields_read; [done|].
  by rewrite !from_utf8_lossy_valid by done.
Qed.

(** With credentials configured, the handshake compares them with what the
    client sends: the right pair is accepted as without authentication, and a
    wrong user name or password is answered with status 1 and refused before
    the request is read. *)
Theorem handshake_userpass cfg u p u0 p0 ms rsv a i :
  si_username cfg = Some u0 → si_password cfg = Some p0 →
  (0 < length ms)%nat → 2 ∈ ms → addr_wf a →
  utf8_valid u = true → utf8_valid p = true →
  let request := [VER; command_to_u8 Connect; rsv] ++ encode a ++ i in
  if decide (u0 = u ∧ p0 = p) then
    yields (handshake cfg) (greeting ms ++ userpass u p ++ request)
      (Ok (AccTcp (to_proxy_target a))) i
      ([VER; 2] ++ [1; 0] ++ [VER; REP_SUCCEEDED; 0] ++ encode a)
  else
    yields (handshake cfg) (greeting ms ++ userpass u p ++ request)
      (Err (other (bs "socks5: authentication failed"))) request
      ([VER; 2] ++ [1; 1]).
Proof.
  intros Hu0 Hp0 Hl Hm Ha Hu Hp request.
  assert (Hok : bool_decide (si_username cfg = Some u) && bool_decide (si_password cfg = Some p)
                = bool_decide (u0 = u ∧ p0 = p)).
  { rewrite Hu0, Hp0. apply eq_true_iff_eq.
    rewrite andb_true_iff, !bool_decide_eq_true. split; [by intros [[= ->] [= ->]] | by intros [-> ->]]. }
  assert (Hna : match si_username cfg with Some _ => true | None => false end = true)
    by by rewrite Hu0.
  destruct (decide (u0 = u ∧ p0 = p)) as [Hd|Hd]; unfold handshake;
    (eapply yields_silent; [by apply yields_greeting|]);
    cbv beta zeta; rewrite Hna; cbn [andb negb]; rewrite bool_decide_true by done;
    apply yields_ret_bind, yields_write.
  - eapply yields_bind with (o1 := [1; 0]).
    + apply (yields_userpass cfg u p _ (λ ok, do! _ := write_all [1; if ok then 0 else 1] in
        if negb ok then fail _ else ret tt)); [done..|].
      rewrite Hok, bool_decide_true by done. apply yields_write_ret.
    + eapply yields_silent; [by apply yields_read_request|].
      rewrite <- encode_into_app. apply yields_write_ret.
  - apply yields_bind_err.
    apply (yields_userpass cfg u p _ (λ ok, do! _ := write_all [1; if ok then 0 else 1] in
      if negb ok then fail _ else ret tt)); [done..|].
    rewrite Hok, bool_decide_false by done. apply yields_write_fail.
Qed.

Lemma handshake_userpass_witness :
  (∃ s', handshake (mk_socks_in (Some (bs "u")) (Some (bs "p")))
           (stream_of [[5; 1; 2; 1; 1; 117]; [1; 112; 5; 1; 0; 1; 1; 2; 3; 4; 0; 80]])
         = (Ok (AccTcp (Tcp (sa_new (V4 [1; 2; 3; 4]) 80))), s') ∧ avail s' = []
         ∧ s_out s' = [5; 2; 1; 0; 5; 0; 0; 1; 1; 2; 3; 4; 0; 80])
  ∧ (∃ s', handshake (mk_socks_in (Some (bs "u")) (Some (bs "p")))
           (stream_of [[5; 1; 2; 1; 1; 117; 1; 113; 5; 1; 0; 1; 1; 2; 3; 4; 0; 80]])
         = (Err (other (bs "socks5: authentication failed")), s')
         ∧ avail s' = [5; 1; 0; 1; 1; 2; 3; 4; 0; 80] ∧ s_out s' = [5; 2; 1; 1]).
Proof.
  pose (cfg := mk_socks_in (Some (bs "u")) (Some (bs "p"))).
  assert (Ha : addr_wf (SV4 [1; 2; 3; 4] 80)) by by_decide.
  split.
  - apply (yields_run (handshake cfg)
      [[5; 1; 2; 1; 1; 117]; [1; 112; 5; 1; 0; 1; 1; 2; 3; 4; 0; 80]]).
    apply (handshake_userpass cfg (bs "u") (bs "p") (bs "u") (bs "p") [2] 0
      (SV4 [1; 2; 3; 4] 80) [] eq_refl eq_refl ltac:(simpl; lia) ltac:(by left) Ha eq_refl eq_refl).
  - apply (yields_run (handshake cfg)
      [[5; 1; 2; 1; 1; 117; 1; 113; 5; 1; 0; 1; 1; 2; 3; 4; 0; 80]]).
    apply (handshake_userpass cfg (bs "u") (bs "q") (bs "u") (bs "p") [2] 0
      (SV4 [1; 2; 3; 4] 80) [] eq_refl eq_refl ltac:(simpl; lia) ltac:(by left) Ha eq_refl eq_refl).
Defined.

(** A handshake that succeeds has read the credentials. *)
Lemma socks_presents cfg u s acc s' :
  si_username cfg = Some u → handshake cfg s = (Ok acc, s') →
  ∃ p ms ub pb x y z rest,
    si_password cfg = Some p ∧ from_utf8_lossy ub = u ∧ from_utf8_lossy pb = p ∧ 2 ∈ ms
    ∧ length ms = Z.to_nat x ∧ length ub = Z.to_nat y ∧ length pb = Z.to_nat z
    ∧ avail s = [VER; x] ++ ms ++ [1; y] ++ ub ++ [z] ++ pb ++ rest.
Proof.
  intros Hu H. unfold handshake in H. rewrite Hu in H. cbn [andb negb] in H.
  io_inv H. io_inv H. io_inv H. io_inv H. clear H.
  unfold read_greeting, write_method_choice in *. io_invs; norm.
  repeat match goal with
  | H : length ?l = 2%nat, E : idx ?l 0 = Ok _, E' : idx ?l 1 = Ok _ |- _ =>
    rewrite (two_bytes l _ _ H E E') in *; clear H
  end.
  do 8 eexists. split_and!;
    [eassumption | reflexivity | reflexivity | eassumption | eassumption | eassumption
    | eassumption |].
  repeat match goal with H : avail ?t = _ |- context [avail ?t] => rewrite H; clear H end.
  cbn [app]. reflexivity.
Qed.

(** C10: no stream gets past a listener with credentials without presenting
    them: whenever the handshake succeeds, however the reads were cut and
    whatever the writes met, the client's bytes contained a user name and a
    password that decode to the configured pair. *)
Theorem handshake_auth_safety cfg u s acc s' :
  si_username cfg = Some u → handshake cfg s = (Ok acc, s') →
  ∃ p ms ub pb x y z rest,
    si_password cfg = Some p ∧ from_utf8_lossy ub = u ∧ from_utf8_lossy pb = p ∧ 2 ∈ ms
    ∧ length ms = Z.to_nat x ∧ length ub = Z.to_nat y ∧ length pb = Z.to_nat z
    ∧ avail s = [VER; x] ++ ms ++ [1; y] ++ ub ++ [z] ++ pb ++ rest.
Proof. apply socks_presents. Qed.

Lemma handshake_auth_safety_witness :
  let cfg := mk_socks_in (Some (bs "u")) (Some (bs "p")) in
  let s := stream_of [[5; 1; 2; 1; 1; 117; 1; 112; 5; 3; 0; 1; 0; 0; 0; 0; 0; 0]] in
  ∃ p ms ub pb x y z rest,
    si_password cfg = Some p ∧ from_utf8_lossy ub = bs "u" ∧ from_utf8_lossy pb = p ∧ 2 ∈ ms
    ∧ length ms = Z.to_nat x ∧ length ub = Z.to_nat y ∧ length pb = Z.to_nat z
    ∧ avail s = [VER; x] ++ ms ++ [1; y] ++ ub ++ [z] ++ pb ++ rest.
Proof.
  intros cfg s.
  apply (handshake_auth_safety cfg (bs "u") s AccUdpAssociate (handshake cfg s).2 eq_refl).
  vm_compute. reflexivity.
Defined.

(** The SOCKS5 address codec is exact in both directions.  Every
    well-formed address (host of 1 to 255 bytes) decodes from its encoding,
    whatever bytes follow, and the reported length is the encoding's; every
    buffer that decodes starts with the encoding of a well-formed address of
    the reported length, so decoding is injective; and no buffer makes the
    decoder index out of range. *)
Theorem socks5_addr_codec :
  (∀ a r, addr_wf a → decode (encode a ++ r) = Ok (a, length (encode a)))
  ∧ (∀ buf a n, bytes buf → decode buf = Ok (a, n) →
       addr_wf a ∧ n = length (encode a) ∧ buf = encode a ++ drop n buf)
  ∧ (∀ buf, decode buf ≠ Panic).
Proof.
  split; [exact decode_encode_app | split; [exact decode_inv | exact decode_no_panic]].
Qed.

Lemma socks5_addr_codec_witness :
  decode (encode (SDomain (bs "example.com") 443) ++ [1; 2])
  = Ok (SDomain (bs "example.com") 443, 15%nat)
  ∧ addr_wf (SV4 [127; 0; 0; 1] 80).
Proof.
  split.
  - apply (proj1 socks5_addr_codec (SDomain (bs "example.com") 443) [1; 2]). by_decide.
  - apply (proj1 (proj2 socks5_addr_codec) [1; 127; 0; 0; 1; 0; 80] _ 7%nat);
      [by_decide | reflexivity].
Defined.

Lemma to_from_target t : target_wf t → to_proxy_target (from_proxy_target t) = t.
Proof.
  destruct t as [[[o|o] p sc]|h p]; cbn; intros; norm; done.
Qed.

Lemma from_to_target a : from_proxy_target (to_proxy_target a) = a.
Proof. by destruct a. Qed.

(** A UDP packet built for an address parses back to that address and
    payload; a packet that parses has a zero RSV/FRAG header followed by the
    encoding of the address and then exactly the payload. *)
Theorem udp_packet_roundtrip :
  (∀ a d, addr_wf a → parse_udp_packet (encode_udp_packet a d) = Ok (a, d))
  ∧ (∀ buf a d, bytes buf → parse_udp_packet buf = Ok (a, d) →
       addr_wf a ∧ buf = encode_udp_packet a d).
Proof.
  split.
  - intros a d Ha. unfold encode_udp_packet, parse_udp_packet.
    rewrite encode_into_app, <- app_assoc. pose proof (encode_length a Ha) as Hl.
    rewrite (proj2 (Nat.ltb_ge _ _)) by (len; destruct a; lia).
    rewrite !idx_app_l by (cbn; lia). rewrite (slice_from_app [0; 0; 0]) by done.
    rewrite decode_encode_app by done.
    change ((if (length ([0; 0; 0]%Z ++ encode a ++ d) <? 3 + length (encode a))%nat
            then Err (other (bs "socks5: UDP packet truncated")) else
            let? d' := slice_from ([0; 0; 0] ++ encode a ++ d) (3 + length (encode a)) in
            Ok (a, d')) = Ok (a, d)).
    rewrite (proj2 (Nat.ltb_ge _ _)), app_assoc by len.
    by rewrite slice_from_app by len.
  - intros buf a d Hb H. unfold parse_udp_packet in H.
    destruct buf as [|b0 [|b1 [|b2 t]]]; try done.
    rewrite (idx_Some _ 0 b0), (idx_Some _ 1 b1), (idx_Some _ 2 b2) in H by done.
    change (b0 :: b1 :: b2 :: t) with ([b0; b1; b2] ++ t) in *.
    apply bytes_app in Hb as [_ Hb]. rewrite (slice_from_app [b0; b1; b2] t) in H by done.
    destruct (decode t) as [[a' n]| |] eqn:Ed; cbn [map_err] in H; ok_inv H.
    destruct (decode_inv t a n Hb Ed) as (Hw & Hn & Ht). split; [done|].
    unfold encode_udp_packet. rewrite encode_into_app. cbn [app]. do 3 f_equal.
    match goal with H : slice_from _ _ = Ok _ |- _ =>
      rewrite slice_from_ok in H by (cbn; lia); injection H as <- end.
    done.
Qed.

Lemma udp_packet_roundtrip_witness :
  parse_udp_packet (encode_udp_packet (SV4 [8; 8; 8; 8] 53) [1; 2; 3])
  = Ok (SV4 [8; 8; 8; 8] 53, [1; 2; 3])
  ∧ addr_wf (SDomain (bs "a") 53).
Proof.
  split.
  - apply (proj1 udp_packet_roundtrip). by_decide.
  - apply (proj2 udp_packet_roundtrip [0; 0; 0; 3; 1; 97; 0; 53; 9] _ [9]);
      [by_decide | reflexivity].
Defined.

(** A one-byte address buffer, which is all [request] hands to [decode]. *)
Lemma decode_one x : decode [x] = Err (bs "socks5: empty address buffer").
Proof. reflexivity. Qed.

(** The outbound client's request never returns a bound address: after a
    success reply it decodes the single byte that follows the reserved one, so
    on every server reply with code 0 it fails with "empty address buffer",
    and no behaviour of the peer makes a SOCKS5 outbound connection succeed. *)
Theorem client_request_fails cmd a :
  (∀ s b s', request cmd a s ≠ (Ok b, s'))
  ∧ (∀ rsv bind i, addr_wf bind →
       yields (request cmd a) ([VER; REP_SUCCEEDED; rsv] ++ encode bind ++ i)
         (Err (invalid_data (bs "socks5: empty address buffer")))
         (drop 1 (encode bind) ++ i) (encode_into a [VER; command_to_u8 cmd; 0])).
Proof.
  split.
  - intros s b s' H. unfold request in H. io_inv H. io_inv H.
    match goal with H : read_exact 4 _ = _ |- _ => apply read_exact_inv in H as (_ & Hl & _) end.
    destruct x0 as [|? [|? [|? [|? [|]]]]]; try done.
    unfold io_bind in H. repeat case_hyp H; try done; norm;
    match goal with H : lift (slice_from _ _) _ = _ |- _ =>
      rewrite slice_from_ok in H by (cbn; lia); injection H as <- <- end; done.
  - intros rsv bind i Hb. unfold request.
    assert (∃ t b, encode bind = t :: b) as (t & b & ->) by (destruct bind; cbn; eauto).
    eapply yields_eq; [apply yields_write | done | by rewrite app_nil_r].
    eapply yields_eq; [|change ([VER; REP_SUCCEEDED; rsv] ++ (t :: b) ++ i)
      with ([VER; REP_SUCCEEDED; rsv; t] ++ b ++ i); done | done].
    apply yields_read; [done|]. apply yields_lift_ok.
    apply yields_lift_ok. apply yields_bind_err. apply yields_lift.
Qed.

Lemma client_request_fails_witness :
  yields (request Connect (SV4 [1; 1; 1; 1] 80)) [5; 0; 0; 1; 127; 0; 0; 1; 4; 0]
    (Err (invalid_data (bs "socks5: empty address buffer"))) [127; 0; 0; 1; 4; 0]
    [5; 1; 0; 1; 1; 1; 1; 1; 0; 80].
Proof.
  apply (proj2 (client_request_fails Connect (SV4 [1; 1; 1; 1] 80)) 0 (SV4 [127; 0; 0; 1] 1024) []).
  by_decide.
Defined.
