(* ===== verification/Matching.v ===== *)
(** * Matching: route rules

    [omni-domain/src/matching]: the rule syntax ([ast.rs]), the compiled
    matchers ([ir.rs]) and the compiled rule ([compiler.rs]).  The [regex]
    crate is an interface, [RegexLib]; the geo databases are reached through
    the [GeoLookup] trait, a record that [Geo] implements. *)

From Stdlib Require Import Btauto.
From S2P Require Import Prelude Text Net.

(** The [regex] crate: [Regex::new] and [Regex::is_match]; an error is shown
    by its [Display] text. *)
Class RegexLib := {
  regex : Type;
  regex_new : str → res str regex;
  is_match : regex → str → bool
}.

(** [trait GeoLookup] ([compiler.rs]). *)
Record GeoLookup := mk_geo_lookup {
  geoip_contains : str → IpAddr → bool;
  geosite_matches : str → str → bool
}.

(** ** Addresses and prefixes ([ir.rs]) *)

Record IpMatcher := mk_ipm {
  im_v4 : list (list Z * Z);
  im_v6 : list (list Z * Z)
}.

(** [mask4] and [mask6] compare the first [len] of [w] bits.  [from_cidrs]
    keeps [len <= w], so the shift amount is never negative. *)
Definition mask_bits (w : Z) (a n : list Z) (len : Z) : bool :=
  if len =? 0 then true
  else
    let x := be_value a in
    let y := be_value n in
    let m := wrap w (Z.shiftl (2 ^ w - 1) (w - len)) in
    Z.land x m =? Z.land y m.
Definition mask4 := mask_bits 32.
Definition mask6 := mask_bits 128.

(** One round of the loop of [IpMatcher::from_cidrs]. *)
Definition add_cidr (m : IpMatcher) (c : str) : res str IpMatcher :=
  let '(addr, len) :=
    match split_once 47 c with
    | Some (a, l) => (a, parse_u8 l)
    | None => (c, Ok 255)
    end in
  match parse_ip addr with
  | Some (V4 a) =>
    let? len := map_err (λ e, bs "invalid prefix in " ++ c ++ bs ": " ++ show_ParseIntError e) len in
    if 32 <? len then Err (bs "invalid ipv4 prefix length in " ++ c)
    else Ok (mk_ipm (im_v4 m ++ [(a, len)]) (im_v6 m))
  | Some (V6 a) =>
    let? len := map_err (λ e, bs "invalid prefix in " ++ c ++ bs ": " ++ show_ParseIntError e) len in
    if 128 <? len then Err (bs "invalid ipv6 prefix length in " ++ c)
    else Ok (mk_ipm (im_v4 m) (im_v6 m ++ [(a, len)]))
  | None => Err (bs "invalid cidr " ++ c ++ bs ": invalid IP address syntax")
  end.

Definition from_cidrs (cidrs : list str) : res str IpMatcher :=
  try_fold add_cidr (mk_ipm [] []) cidrs.

Definition ip_matches (m : IpMatcher) (ip : IpAddr) : bool :=
  match ip with
  | V4 a => existsb (λ '(n, l), mask4 a n l) (im_v4 m)
  | V6 a => existsb (λ '(n, l), mask6 a n l) (im_v6 m)
  end.

Definition ip_is_empty (m : IpMatcher) : bool :=
  match im_v4 m, im_v6 m with [], [] => true | _, _ => false end.

(** ** Ports *)

Record PortMatcher := mk_portm {
  exact : gset Z;
  ranges : list (Z * Z)
}.
Definition port_new : PortMatcher := mk_portm ∅ [].
Definition insert_port (m : PortMatcher) (p : Z) : PortMatcher :=
  mk_portm ({[p]} ∪ exact m) (ranges m).
Definition insert_range (m : PortMatcher) (r : Z * Z) : PortMatcher :=
  mk_portm (exact m) (ranges m ++ [r]).
Definition port_is_empty (m : PortMatcher) : bool :=
  bool_decide (exact m = ∅) && match ranges m with [] => true | _ => false end.
Definition port_matches (m : PortMatcher) (p : Z) : bool :=
  if bool_decide (p ∈ exact m) then true
  else existsb (λ '(a, b), (a <=? p) && (p <=? b)) (ranges m).

(** ** Domains *)

Section Matching.
Context `{RL : RegexLib}.

Inductive DomainPattern :=
| Full (s : str)
| Suffix (s : str)
| Keyword (s : str)
| Regex (r : regex).

Definition suffix_of (s d : str) : bool :=
  bool_decide (d = s) || ends_with ([46] ++ s) d.

(** [DomainPattern::matches]. *)
Definition pattern_matches (p : DomainPattern) (domain : str) : bool :=
  let d := to_ascii_lowercase domain in
  match p with
  | Full f => bool_decide (d = f)
  | Suffix s => suffix_of s d
  | Keyword k => contains k d
  | Regex r => is_match r d
  end.

Record DomainMatcher := mk_dm {
  dm_full : gset str;
  dm_suffix : list str;
  dm_keyword : list str;
  dm_regex : list regex
}.
Definition dm_new : DomainMatcher := mk_dm ∅ [] [] [].

(** [DomainMatcher::insert]. *)
Definition dm_insert (m : DomainMatcher) (p : DomainPattern) : DomainMatcher :=
  match p with
  | Full s => mk_dm ({[to_ascii_lowercase s]} ∪ dm_full m) (dm_suffix m) (dm_keyword m) (dm_regex m)
  | Suffix s => mk_dm (dm_full m) (dm_suffix m ++ [to_ascii_lowercase s]) (dm_keyword m) (dm_regex m)
  | Keyword k => mk_dm (dm_full m) (dm_suffix m) (dm_keyword m ++ [to_ascii_lowercase k]) (dm_regex m)
  | Regex r => mk_dm (dm_full m) (dm_suffix m) (dm_keyword m) (dm_regex m ++ [r])
  end.

Definition dm_is_empty (m : DomainMatcher) : bool :=
  bool_decide (dm_full m = ∅)
  && match dm_suffix m with [] => true | _ => false end
  && match dm_keyword m with [] => true | _ => false end
  && match dm_regex m with [] => true | _ => false end.

(** [DomainMatcher::matches]. *)
Definition dm_matches (m : DomainMatcher) (domain : str) : bool :=
  let d := to_ascii_lowercase domain in
  if bool_decide (d ∈ dm_full m) then true
  else if existsb (λ s, suffix_of s d) (dm_suffix m) then true
  else if existsb (λ k, contains k d) (dm_keyword m) then true
  else existsb (λ r, is_match r d) (dm_regex m).

(** ** Rules ([compiler.rs], [ast.rs]) *)

Record CompiledRule := mk_rule {
  r_domains : DomainMatcher;
  r_ips : IpMatcher;
  r_geoip : list str;
  r_geosite : list str;
  r_ports : PortMatcher;
  r_inbound_tags : list str;
  r_has_criteria : bool
}.

Definition is_nil {A} (l : list A) : bool := match l with [] => true | _ => false end.

(** [CompiledRule::matches]. *)
Definition rule_matches (r : CompiledRule) (host : option str) (ip : option IpAddr)
    (port : Z) (inbound_tag : option str) (geo : GeoLookup) : bool :=
  if negb (r_has_criteria r) then true else
  if negb (is_nil (r_inbound_tags r))
     && negb (match inbound_tag with
              | Some t => existsb (λ x, bool_decide (x = t)) (r_inbound_tags r)
              | None => false
              end) then false else
  if negb (port_is_empty (r_ports r)) && negb (port_matches (r_ports r) port) then false else
  if negb (dm_is_empty (r_domains r))
     && negb (match host with Some h => dm_matches (r_domains r) h | None => false end)
  then false else
  if negb (is_nil (r_geosite r))
     && negb (match host with
              | Some h => existsb (λ c, geosite_matches geo c h) (r_geosite r)
              | None => false
              end) then false else
  if negb (ip_is_empty (r_ips r))
     && negb (match ip with Some i => ip_matches (r_ips r) i | None => false end)
  then false else
  if negb (is_nil (r_geoip r))
     && negb (match ip with
              | Some i => existsb (λ c, geoip_contains geo c i) (r_geoip r)
              | None => false
              end) then false else
  true.

Definition needs_ip (r : CompiledRule) : bool :=
  negb (ip_is_empty (r_ips r)) || negb (is_nil (r_geoip r)).

Record RouteRuleAst := mk_ast {
  domain_suffix : list str;
  domain_keyword : list str;
  domain_regex : list str;
  ip_cidr : list str;
  geoip : list str;
  geosite : list str;
  ports : list Z;
  port_ranges : list (Z * Z);
  inbound_tags : list str
}.

Definition has_criteria (a : RouteRuleAst) : bool :=
  negb (is_nil (domain_suffix a) && is_nil (domain_keyword a) && is_nil (domain_regex a)
        && is_nil (ip_cidr a) && is_nil (geoip a) && is_nil (geosite a)
        && is_nil (ports a) && is_nil (port_ranges a) && is_nil (inbound_tags a)).

Definition validate_domain_item (d : str) : res str unit :=
  if is_nil (trim d) then Err (bs "route rule domain entry is empty or whitespace-only")
  else Ok tt.

(** [RouteRuleAst::compile]. *)
Definition compile (a : RouteRuleAst) : res str CompiledRule :=
  let? domains := try_fold (λ m d,
      let? _ := validate_domain_item d in
      Ok (dm_insert m (Suffix (to_ascii_lowercase d)))) dm_new (domain_suffix a) in
  let? domains := try_fold (λ m d,
      if is_nil (trim d)
      then Err (bs "route rule[i].domain_keyword[j] is empty or whitespace-only")
      else Ok (dm_insert m (Keyword (to_ascii_lowercase d)))) domains (domain_keyword a) in
  let? domains := try_fold (λ m r,
      let? re := map_err (λ e, bs "regex.compile: regex pattern compilation failed: " ++ e)
                   (regex_new r) in
      Ok (dm_insert m (Regex re))) domains (domain_regex a) in
  let? ips := from_cidrs (ip_cidr a) in
  let pm := fold_left insert_port (ports a) port_new in
  let pm := fold_left insert_range (port_ranges a) pm in
  Ok (mk_rule domains ips (geoip a) (geosite a) pm (inbound_tags a) (has_criteria a)).

End Matching.

Arguments DomainPattern {RL}.
Arguments DomainMatcher {RL}.
Arguments CompiledRule {RL}.

(** ** What a rule means

    The declarative reading of the configuration, against which the compiled
    matchers are proved. *)

(** The first [len] of [w] bits agree. *)
Definition top_bits (w len : Z) (a n : list Z) : Prop :=
  ∀ i, w - len ≤ i < w → Z.testbit (be_value a) i = Z.testbit (be_value n) i.

(** [net/len] as an address and a prefix length that fits its family. *)
Definition parse_cidr (c : str) : option (IpAddr * Z) :=
  match split_once 47 c with
  | Some (a, l) =>
    match parse_ip a, parse_u8 l with
    | Some (V4 o), Ok n => if n <=? 32 then Some (V4 o, n) else None
    | Some (V6 o), Ok n => if n <=? 128 then Some (V6 o, n) else None
    | _, _ => None
    end
  | None => None
  end.

Definition in_prefix (net : IpAddr) (len : Z) (ip : IpAddr) : Prop :=
  match net, ip with
  | V4 n, V4 a => top_bits 32 len a n
  | V6 n, V6 a => top_bits 128 len a n
  | _, _ => False
  end.

Definition cidr_contains (c : str) (ip : IpAddr) : Prop :=
  ∃ net len, parse_cidr c = Some (net, len) ∧ in_prefix net len ip.

(** Equal to the suffix or a subdomain of it, ASCII case ignored. *)
Definition under_domain (s h : str) : Prop :=
  to_ascii_lowercase h = to_ascii_lowercase s
  ∨ ∃ t, to_ascii_lowercase h = t ++ [46] ++ to_ascii_lowercase s.

Definition has_keyword (k h : str) : Prop :=
  ∃ a b, to_ascii_lowercase h = a ++ to_ascii_lowercase k ++ b.

Section Meaning.
Context `{RL : RegexLib}.

Definition host_criterion (a : RouteRuleAst) (h : str) : Prop :=
  (∃ s, s ∈ domain_suffix a ∧ under_domain s h)
  ∨ (∃ k, k ∈ domain_keyword a ∧ has_keyword k h)
  ∨ (∃ x re, x ∈ domain_regex a ∧ regex_new x = Ok re ∧ is_match re (to_ascii_lowercase h) = true).

(** A criterion holds when it is absent or satisfied. *)
Definition rule_sat (a : RouteRuleAst) (geo : GeoLookup) (host : option str)
    (ip : option IpAddr) (port : Z) (tag : option str) : Prop :=
  (inbound_tags a = [] ∨ ∃ t, tag = Some t ∧ t ∈ inbound_tags a)
  ∧ ((ports a = [] ∧ port_ranges a = [])
     ∨ port ∈ ports a ∨ ∃ x y, (x, y) ∈ port_ranges a ∧ x ≤ port ≤ y)
  ∧ ((domain_suffix a = [] ∧ domain_keyword a = [] ∧ domain_regex a = [])
     ∨ ∃ h, host = Some h ∧ host_criterion a h)
  ∧ (geosite a = [] ∨ ∃ h c, host = Some h ∧ c ∈ geosite a ∧ geosite_matches geo c h = true)
  ∧ (ip_cidr a = [] ∨ ∃ i c, ip = Some i ∧ c ∈ ip_cidr a ∧ cidr_contains c i)
  ∧ (geoip a = [] ∨ ∃ i c, ip = Some i ∧ c ∈ geoip a ∧ geoip_contains geo c i = true).

(** ** Prefix comparison *)

Lemma mask_bits_spec w a n len :
  0 ≤ len ≤ w → mask_bits w a n len = true ↔ top_bits w len a n.
Proof.
  intros Hl. unfold mask_bits, top_bits. destruct (len =? 0) eqn:E; norm.
  { split; [intros _ i Hi; lia | done]. }
  assert (Hm : ∀ i, 0 ≤ i → Z.testbit (wrap w (Z.shiftl (2 ^ w - 1) (w - len))) i
                      = bool_decide (w - len ≤ i < w)).
  { intros i Hi. unfold wrap. rewrite <- Z.land_ones, Z.land_spec, Z.testbit_ones_nonneg by lia.
    rewrite Z.shiftl_spec by lia. replace (2 ^ w - 1) with (Z.ones w) by (rewrite Z.ones_equiv; lia).
    destruct (decide (i - (w - len) < 0)) as [Hn|Hn].
    - rewrite Z.testbit_neg_r by lia. rewrite bool_decide_false by lia. done.
    - rewrite Z.testbit_ones_nonneg by lia. case_bool_decide.
      + rewrite !(proj2 (Z.ltb_lt _ _)) by lia. done.
      + rewrite (proj2 (Z.ltb_ge i w)) by lia. by rewrite andb_false_r. }
  rewrite Z.eqb_eq. split.
  - intros He i Hi. apply (f_equal (λ z, Z.testbit z i)) in He.
    rewrite !Z.land_spec, !Hm, !bool_decide_true, !andb_true_r in He by lia. done.
  - intros Hb. apply Z.bits_inj'. intros i Hi. rewrite !Z.land_spec, !Hm by lia.
    case_bool_decide; [by rewrite !andb_true_r, Hb | by rewrite !andb_false_r].
Qed.

(** ** Loops *)

(** A loop that succeeds accumulates [g] of what each round adds. *)
Lemma try_fold_existsb {E A B} (f : A → B → res E A) (P : A → Prop) (g : B → Prop)
    (h : A → Prop) a l a' :
  (∀ a b a', P a → f a b = Ok a' → P a' ∧ (h a' ↔ h a ∨ g b)) →
  P a → try_fold f a l = Ok a' → P a' ∧ (h a' ↔ h a ∨ ∃ b, b ∈ l ∧ g b).
Proof.
  intros Hf. revert a; induction l as [|b l IH]; intros a HP; simpl.
  - intros [= ->]. split; [done|]. split; [by left | intros [?|(b & Hb & _)]; [done | set_solver]].
  - destruct (f a b) as [a1| |] eqn:E1; [|done..]. intros H.
    destruct (Hf _ _ _ HP E1) as [HP1 H1]. destruct (IH a1 HP1 H) as [HP' H']. split; [done|].
    rewrite H', H1. clear -H. split.
    + intros [[?|?]|(x & Hx & ?)]; [by left | right; exists b | right; exists x]; set_solver.
    + intros [?|(x & Hx & ?)]; [auto|]. apply elem_of_cons in Hx as [->|Hx]; eauto.
Qed.

(** ** Addresses *)

Lemma add_cidr_inv m c m' :
  add_cidr m c = Ok m' →
  ∃ net len, parse_cidr c = Some (net, len) ∧
    m' = match net with
         | V4 a => mk_ipm (im_v4 m ++ [(a, len)]) (im_v6 m)
         | V6 a => mk_ipm (im_v4 m) (im_v6 m ++ [(a, len)])
         end.
Proof.
  unfold add_cidr, parse_cidr. destruct (split_once 47 c) as [[a l]|].
  - destruct (parse_ip a) as [[o|o]|]; [| |done];
      destruct (parse_u8 l) as [n| |]; cbn [map_err]; try done.
    + destruct (32 <? n) eqn:E; [done|]. intros [= <-]. apply Z.ltb_ge in E.
      rewrite (proj2 (Z.leb_le _ _)) by done. by exists (V4 o), n.
    + destruct (128 <? n) eqn:E; [done|]. intros [= <-]. apply Z.ltb_ge in E.
      rewrite (proj2 (Z.leb_le _ _)) by done. by exists (V6 o), n.
  - by destruct (parse_ip c) as [[o|o]|].
Qed.

Lemma parse_digits_nonneg radix max acc s v :
  0 ≤ radix → 0 ≤ acc → parse_digits radix max acc s = Ok v → 0 ≤ v.
Proof.
  intros Hr. revert acc; induction s as [|b s IH]; intros acc Ha; simpl; [congruence|].
  destruct (digit_val radix b) as [d|] eqn:Ed; [|done].
  assert (0 ≤ d).
  { unfold digit_val, is_digit in Ed. repeat case_hyp Ed; norm; lia. }
  destruct (_ <=? max); [|done]. apply IH. nia.
Qed.

Lemma parse_uint_nonneg w radix s v : 0 ≤ radix → parse_uint w radix s = Ok v → 0 ≤ v.
Proof.
  intros Hr. unfold parse_uint. intros H.
  repeat case_hyp H; try done; by eapply parse_digits_nonneg in H.
Qed.

Lemma parse_cidr_range c net len :
  parse_cidr c = Some (net, len) → 0 ≤ len ≤ match net with V4 _ => 32 | V6 _ => 128 end.
Proof.
  unfold parse_cidr. intros H. repeat case_hyp H; norm;
    (split; [by eapply (parse_uint_nonneg 8 10) | lia]).
Qed.

Lemma add_cidr_matches m c m' ip :
  add_cidr m c = Ok m' → ip_matches m' ip = true ↔ ip_matches m ip = true ∨ cidr_contains c ip.
Proof.
  intros H. apply add_cidr_inv in H as (net & len & Hc & ->).
  pose proof (parse_cidr_range _ _ _ Hc) as Hr.
  assert (cidr_contains c ip ↔ in_prefix net len ip) as ->.
  { unfold cidr_contains. rewrite Hc. split; [by intros (? & ? & [= <- <-] & ?) | eauto]. }
  destruct net as [o|o], ip as [a|a]; cbn [ip_matches im_v4 im_v6 in_prefix];
    try (by split; [auto | intros [?|[]]]);
    rewrite existsb_app, orb_true_iff; cbn [existsb]; rewrite orb_false_r;
    unfold mask4, mask6; by rewrite mask_bits_spec by done.
Qed.

Lemma from_cidrs_matches cs m ip :
  from_cidrs cs = Ok m → ip_matches m ip = true ↔ ∃ c, c ∈ cs ∧ cidr_contains c ip.
Proof.
  intros H. destruct (try_fold_existsb add_cidr (λ _, True) (λ c, cidr_contains c ip)
    (λ m, ip_matches m ip = true) (mk_ipm [] []) cs m) as [_ Hi]; [|done|done|].
  - intros a b a' _ Hb. split; [done | by apply add_cidr_matches].
  - rewrite Hi. split; [intros [Hf|?]; [by destruct ip | done] | auto].
Qed.

Lemma from_cidrs_is_empty cs m : from_cidrs cs = Ok m → ip_is_empty m = is_nil cs.
Proof.
  unfold from_cidrs. destruct cs as [|c cs] using rev_ind; [by intros [= <-]|].
  rewrite try_fold_app. destruct (try_fold add_cidr _ cs) as [m1| |]; [|done..]. simpl.
  destruct (add_cidr m1 c) as [m2| |] eqn:E; [|done..]. intros [= <-].
  apply add_cidr_inv in E as (net & len & _ & ->).
  assert (is_nil (cs ++ [c]) = false) as -> by by destruct cs.
  unfold ip_is_empty. destruct net; cbn [im_v4 im_v6];
    destruct (im_v4 m1), (im_v6 m1); done.
Qed.

End Meaning.

(** ** Ports *)

Lemma fold_insert_port ps m :
  fold_left insert_port ps m = mk_portm (list_to_set ps ∪ exact m) (ranges m).
Proof.
  revert m; induction ps as [|p ps IH]; intros [e r]; simpl.
  - by rewrite union_empty_l_L.
  - rewrite IH. cbn. f_equal. set_solver.
Qed.

Lemma fold_insert_range rs m :
  fold_left insert_range rs m = mk_portm (exact m) (ranges m ++ rs).
Proof.
  revert m; induction rs as [|r rs IH]; intros [e l]; simpl.
  - by rewrite app_nil_r.
  - rewrite IH. cbn. by rewrite <- app_assoc.
Qed.

Lemma existsb_elem {A} (f : A → bool) l : existsb f l = true ↔ ∃ x, x ∈ l ∧ f x = true.
Proof. rewrite existsb_exists. by setoid_rewrite <- list_elem_of_In. Qed.

Lemma port_matches_spec e r p :
  port_matches (mk_portm (list_to_set e ∪ ∅) r) p = true
  ↔ p ∈ e ∨ ∃ x y, (x, y) ∈ r ∧ x ≤ p ≤ y.
Proof.
  unfold port_matches. cbn [exact ranges].
  case_bool_decide as H.
  - split; [left; set_solver | done].
  - rewrite existsb_elem. split.
    + intros ([x y] & Hr & Hb). norm. eauto 10.
    + intros [Hp|(x & y & Hr & H1 & H2)]; [set_solver|].
      exists (x, y). split; [done|]. by apply andb_true_iff; split; apply Z.leb_le.
Qed.

Lemma port_is_empty_spec e r :
  port_is_empty (mk_portm (list_to_set e ∪ ∅) r) = is_nil e && is_nil r.
Proof.
  unfold port_is_empty. cbn [exact ranges]. f_equal.
  destruct e as [|x e]; [done|]. apply bool_decide_false. set_solver.
Qed.

Section Rules.
Context `{RL : RegexLib}.

(** ** Domains *)

(** A pattern as the matcher stores it. *)
Definition lower_pattern (p : DomainPattern) : DomainPattern :=
  match p with
  | Full s => Full (to_ascii_lowercase s)
  | Suffix s => Suffix (to_ascii_lowercase s)
  | Keyword k => Keyword (to_ascii_lowercase k)
  | Regex r => Regex r
  end.

Lemma dm_matches_alt m d :
  dm_matches m d =
  bool_decide (to_ascii_lowercase d ∈ dm_full m)
  || existsb (λ s, suffix_of s (to_ascii_lowercase d)) (dm_suffix m)
  || existsb (λ k, contains k (to_ascii_lowercase d)) (dm_keyword m)
  || existsb (λ r, is_match r (to_ascii_lowercase d)) (dm_regex m).
Proof.
  unfold dm_matches. generalize (to_ascii_lowercase d). intros h.
  by destruct (bool_decide _), (existsb _ (dm_suffix m)), (existsb _ (dm_keyword m)).
Qed.

Lemma dm_matches_insert m p d :
  dm_matches (dm_insert m p) d = dm_matches m d || pattern_matches (lower_pattern p) d.
Proof.
  rewrite !dm_matches_alt.
  destruct p; cbn [dm_insert dm_full dm_suffix dm_keyword dm_regex lower_pattern pattern_matches].
  { replace (bool_decide (to_ascii_lowercase d ∈ {[to_ascii_lowercase s]} ∪ dm_full m))
      with (bool_decide (to_ascii_lowercase d = to_ascii_lowercase s)
            || bool_decide (to_ascii_lowercase d ∈ dm_full m)); [btauto|].
    apply eq_true_iff_eq. rewrite orb_true_iff, !bool_decide_eq_true. set_solver. }
  all: rewrite existsb_app; cbn [existsb]; rewrite orb_false_r; btauto.
Qed.

(** The indexed matcher agrees with trying the inserted patterns one by one. *)
Lemma dm_matches_fold ps m d :
  dm_matches (fold_left dm_insert ps m) d
  = dm_matches m d || existsb (λ p, pattern_matches (lower_pattern p) d) ps.
Proof.
  revert m; induction ps as [|p ps IH]; intros m; simpl.
  - by rewrite orb_false_r.
  - by rewrite IH, dm_matches_insert, orb_assoc.
Qed.

Lemma suffix_pattern_spec s h :
  pattern_matches (lower_pattern (Suffix (to_ascii_lowercase s))) h = true ↔ under_domain s h.
Proof.
  cbn. rewrite to_ascii_lowercase_idem. unfold suffix_of.
  by rewrite orb_true_iff, bool_decide_eq_true, ends_with_iff.
Qed.

Lemma keyword_pattern_spec k h :
  pattern_matches (lower_pattern (Keyword (to_ascii_lowercase k))) h = true ↔ has_keyword k h.
Proof. cbn. by rewrite to_ascii_lowercase_idem, contains_iff. Qed.

Lemma dm_insert_nonempty m p : dm_is_empty (dm_insert m p) = false.
Proof.
  unfold dm_is_empty. destruct p; cbn; rewrite ?andb_false_iff.
  - do 3 left. apply bool_decide_false. set_solver.
  - do 2 left. right. by destruct (dm_suffix m).
  - left. right. by destruct (dm_keyword m).
  - right. by destruct (dm_regex m).
Qed.

(** The three loops of [compile], uniformly: each round inserts the pattern
    [mk] computes from the item. *)
Lemma insert_loop {E B} (mk : B → res E DomainPattern) f m l m' :
  (∀ m b, f m b = let? p := mk b in Ok (dm_insert m p)) →
  try_fold f m l = Ok m' →
  dm_is_empty m' = dm_is_empty m && is_nil l
  ∧ (∀ b, b ∈ l → ∃ p, mk b = Ok p)
  ∧ ∀ h, dm_matches m' h = true ↔
      dm_matches m h = true
      ∨ ∃ b, b ∈ l ∧ ∃ p, mk b = Ok p ∧ pattern_matches (lower_pattern p) h = true.
Proof.
  intros Hf H. split; [|split].
  - destruct l as [|b l _] using rev_ind; simpl in H.
    { injection H as ->. by rewrite andb_true_r. }
    rewrite try_fold_app in H. destruct (try_fold f m l) as [m1| |]; [|done..].
    simpl in H. rewrite Hf in H. destruct (mk b); [|done..]. injection H as <-.
    rewrite dm_insert_nonempty. symmetry. apply andb_false_iff. right. by destruct l.
  - revert m H. induction l as [|b l IH]; intros m H x Hx; [set_solver|].
    simpl in H. rewrite Hf in H. destruct (mk b) as [p| |] eqn:Eb; [|done..].
    apply elem_of_cons in Hx as [->|Hx]; [by exists p | by eapply IH].
  - intros h. eapply (try_fold_existsb f (λ _, True)
      (λ b, ∃ p, mk b = Ok p ∧ pattern_matches (lower_pattern p) h = true)
      (λ m, dm_matches m h = true)) in H as [_ H]; [exact H | | done].
    intros a b a' _ Ha. split; [done|]. rewrite Hf in Ha.
    destruct (mk b) as [p| |]; [|done..]. injection Ha as <-.
    rewrite dm_matches_insert, orb_true_iff. split.
    + intros [?|?]; [by left | right; eauto].
    + intros [?|(p' & [= <-] & ?)]; auto.
Qed.

Lemma is_nil_true {A} (l : list A) : is_nil l = true ↔ l = [].
Proof. by destruct l. Qed.

(** One guarded criterion of [rule_matches]: absent or satisfied. *)
Lemma criterion (empty sat k : bool) :
  (if negb empty && negb sat then false else k) = true ↔ (empty = true ∨ sat = true) ∧ k = true.
Proof. destruct empty, sat, k; naive_solver. Qed.

Lemma opt_exists {A} (o : option A) (f : A → bool) :
  match o with Some x => f x | None => false end = true ↔ ∃ x, o = Some x ∧ f x = true.
Proof. destruct o; naive_solver. Qed.

(** What the domain part of a compiled rule matches. *)
Lemma compile_domains a r :
  compile a = Ok r →
  (dm_is_empty (r_domains r) = true ↔
     domain_suffix a = [] ∧ domain_keyword a = [] ∧ domain_regex a = [])
  ∧ (∀ h, dm_matches (r_domains r) h = true ↔ host_criterion a h).
Proof.
  unfold compile. intros H.
  destruct (try_fold _ dm_new (domain_suffix a)) as [m1| |] eqn:E1; [|done..].
  destruct (try_fold _ m1 (domain_keyword a)) as [m2| |] eqn:E2; [|done..].
  destruct (try_fold _ m2 (domain_regex a)) as [m3| |] eqn:E3; [|done..].
  destruct (from_cidrs (ip_cidr a)) as [ips| |]; [|done..]. injection H as <-. cbn [r_domains].
  apply (insert_loop (λ d, let? _ := validate_domain_item d in
           Ok (Suffix (to_ascii_lowercase d)))) in E1 as (N1 & V1 & M1);
    [|intros; by destruct (validate_domain_item _)].
  apply (insert_loop (λ d, if is_nil (trim d)
           then Err (bs "route rule[i].domain_keyword[j] is empty or whitespace-only")
           else Ok (Keyword (to_ascii_lowercase d)))) in E2 as (N2 & V2 & M2);
    [|intros ? b; by destruct (is_nil (trim b))].
  apply (insert_loop (λ r, let? re := map_err (λ e, bs "regex.compile: regex pattern compilation failed: " ++ e)
                   (regex_new r) in Ok (Regex re))) in E3 as (N3 & V3 & M3);
    [|intros; by destruct (regex_new _)].
  split.
  - rewrite N3, N2, N1, !andb_true_iff, !is_nil_true. naive_solver.
  - intros h. rewrite M3, M2, M1.
    assert (Hn : dm_matches dm_new h = true ↔ False).
    { split; [|done]. rewrite dm_matches_alt. cbn. rewrite bool_decide_false by set_solver. done. }
    rewrite Hn. unfold host_criterion.
    setoid_rewrite <- suffix_pattern_spec. setoid_rewrite <- keyword_pattern_spec.
    split.
    + intros [[[[]|(b & Hb & p & Hp & Hm)]|(b & Hb & p & Hp & Hm)]|(b & Hb & p & Hp & Hm)].
      * left. exists b. destruct (validate_domain_item b); [|done..]. by injection Hp as <-.
      * right; left. exists b. destruct (is_nil (trim b)); [done|]. by injection Hp as <-.
      * right; right. destruct (regex_new b) as [re| |] eqn:Er; [|done..]. injection Hp as <-.
        by exists b, re.
    + intros [(b & Hb & Hm)|[(b & Hb & Hm)|(b & re & Hb & Hr & Hm)]].
      * do 2 left. right. exists b. split; [done|]. destruct (V1 b Hb) as [p Hp].
        exists p. split; [done|]. destruct (validate_domain_item b); [|done..]. by injection Hp as <-.
      * left. right. exists b. split; [done|]. destruct (V2 b Hb) as [p Hp].
        exists p. split; [done|]. destruct (is_nil (trim b)); [done|]. by injection Hp as <-.
      * right. exists b. split; [done|]. exists (Regex re). by rewrite Hr.
Qed.

(** A compiled rule is its rule. *)
Lemma compile_matches a r geo host ip port tag :
  compile a = Ok r →
  rule_matches r host ip port tag geo = true
  ↔ has_criteria a = false ∨ rule_sat a geo host ip port tag.
Proof.
  intros H. pose proof (compile_domains a r H) as [Hde Hdm].
  unfold compile in H.
  destruct (try_fold _ dm_new (domain_suffix a)) as [m1| |]; [|done..].
  destruct (try_fold _ m1 (domain_keyword a)) as [m2| |]; [|done..].
  destruct (try_fold _ m2 (domain_regex a)) as [m3| |]; [|done..].
  destruct (from_cidrs (ip_cidr a)) as [ips| |] eqn:Ei; [|done..].
  rewrite fold_insert_range, fold_insert_port in H. injection H as <-.
  unfold rule_matches. cbn [r_domains r_ips r_geoip r_geosite r_ports r_inbound_tags
    r_has_criteria exact ranges] in *.
  destruct (has_criteria a); cbn [negb]; [|naive_solver].
  rewrite !criterion, !is_nil_true, !opt_exists, Hde, (from_cidrs_is_empty _ _ Ei), is_nil_true.
  rewrite port_is_empty_spec, port_matches_spec, andb_true_iff, !is_nil_true.
  setoid_rewrite Hdm. setoid_rewrite existsb_elem. setoid_rewrite (from_cidrs_matches _ _ _ Ei).
  setoid_rewrite bool_decide_eq_true. unfold rule_sat. split.
  - intros (H1 & H2 & H3 & H4 & H5 & H6 & _). right.
    split; [clear -H1; naive_solver|]. split; [exact H2|]. split; [exact H3|].
    split; [clear -H4; naive_solver|]. split; [clear -H5; naive_solver | clear -H6; naive_solver].
  - intros [?|(H1 & H2 & H3 & H4 & H5 & H6)]; [done|].
    split; [clear -H1; naive_solver|]. split; [exact H2|]. split; [exact H3|].
    split; [clear -H4; naive_solver|]. split; [clear -H5; naive_solver|].
    split; [clear -H6; naive_solver | done].
Qed.

Lemma compile_criteria a r : compile a = Ok r → r_has_criteria r = has_criteria a.
Proof.
  unfold compile.
  repeat match goal with |- (let? _ := ?x in _) = _ → _ => destruct x as [?| |]; [|done..] end.
  by intros [= <-].
Qed.

(** C17: compiling a rule preserves its meaning.  A compiled rule with criteria
    matches a connection exactly when every criterion the configuration names
    is satisfied: inbound tag, port or port range, host by suffix, keyword or
    regular expression with ASCII case ignored, geosite, address in one of the
    CIDR blocks (same family, leading bits equal) and geoip; a criterion on the
    host or address fails when the connection has none.  A rule without
    criteria matches everything. *)
Theorem compile_sound a r geo host ip port tag :
  compile a = Ok r →
  rule_matches r host ip port tag geo = true
  ↔ has_criteria a = false ∨ rule_sat a geo host ip port tag.
Proof. apply compile_matches. Qed.

End Rules.

(** A concrete library for examples: a pattern without a parenthesis matches
    the text it occurs in, any other is a syntax error. *)
Definition literal_regex : RegexLib := {|
  regex := str;
  regex_new s := if contains [40] s then Err (bs "unclosed group") else Ok s;
  is_match := contains
|}.

Definition no_geo : GeoLookup := mk_geo_lookup (λ _ _, false) (λ _ _, false).

Definition example_rule : RouteRuleAst :=
  mk_ast [bs "Example.com"] [] [bs "cdn"] [bs "10.0.0.0/8"] [] [] [443] [(8000, 8100)] [].

Lemma compile_sound_witness :
  ∃ r, @compile literal_regex example_rule = Ok r
    ∧ (rule_matches r (Some (bs "www.EXAMPLE.com")) (Some (V4 [10; 1; 2; 3])) 8080 None no_geo = true
       ↔ has_criteria example_rule = false
         ∨ @rule_sat literal_regex example_rule no_geo (Some (bs "www.EXAMPLE.com"))
             (Some (V4 [10; 1; 2; 3])) 8080 None)
    ∧ rule_matches r (Some (bs "www.EXAMPLE.com")) (Some (V4 [10; 1; 2; 3])) 8080 None no_geo = true
    ∧ rule_matches r (Some (bs "www.EXAMPLE.org")) (Some (V4 [10; 1; 2; 3])) 8080 None no_geo = false
    ∧ rule_matches r (Some (bs "www.EXAMPLE.com")) (Some (V4 [11; 1; 2; 3])) 8080 None no_geo = false.
Proof.
  eexists. split; [reflexivity|]. split.
  - apply (@compile_sound literal_regex example_rule). reflexivity.
  - vm_compute. auto.
Defined.

(** The matcher indexed by pattern kind agrees with the patterns it was
    given: after inserting any list of patterns, in any order, a domain
    matches exactly when one of them, stored in lower case, matches it. *)
Theorem domain_matcher_refines `{RL : RegexLib} (ps : list DomainPattern) d :
  dm_matches (fold_left dm_insert ps dm_new) d
  = existsb (λ p, pattern_matches (lower_pattern p) d) ps.
Proof.
  rewrite dm_matches_fold, dm_matches_alt. cbn. by rewrite bool_decide_false by set_solver.
Qed.
