(* ===== verification/Geo.v ===== *)
(** * Geo: the geo databases

    [omni-core/src/matching/geo.rs]: the protobuf reader, the parser of V2Ray
    [.dat] files, the plain list files, and the registry that answers geoip
    and geosite lookups for the router.  A reader is its buffer and position;
    a file is what the file system returns for its path. *)

From S2P Require Import Prelude Text Net Matching.

(** ** The protobuf reader *)

(** A read at position [pos] of [buf]: a value and the new position. *)
Definition pb (A : Type) := list Z → nat → res str (A * nat).

Definition has_more (buf : list Z) (pos : nat) : bool := (pos <? length buf)%nat.

(** [read_varint]: at most ten bytes; the shift passes 63 after the tenth. *)
Fixpoint read_varint_go (more : nat) (result shift : Z) (buf : list Z) (pos : nat)
    : res str (Z * nat) :=
  match more with
  | O => Err (bs "pb: varint overflow")
  | S more =>
    match buf !! pos with
    | None => Err (bs "pb: eof")
    | Some b =>
      let result := Z.lor result (u64! (Z.shiftl (Z.land b 127) shift)) in
      if Z.land b 128 =? 0 then Ok (result, S pos)
      else read_varint_go more result (shift + 7) buf (S pos)
    end
  end.
Definition read_varint : pb Z := read_varint_go 10 0 0.

Definition read_key : pb (Z * Z) := λ buf pos,
  let? (key, pos) := read_varint buf pos in
  Ok ((u32! (Z.shiftr key 3), u8! (Z.land key 7)), pos).

(** [self.pos + len] overflows a 64-bit [usize] for a length close to [2^64]:
    the addition aborts with overflow checks, and without them the wrapped end
    lies before the start of the slice, which panics. *)
Definition read_bytes : pb (list Z) := λ buf pos,
  let? (len, pos) := read_varint buf pos in
  if 2 ^ 64 <=? Z.of_nat pos + len then Panic else
  if Z.of_nat (length buf) <? Z.of_nat pos + len then Err (bs "pb: truncated") else
  let? out := slice buf pos (pos + Z.to_nat len) in
  Ok (out, (pos + Z.to_nat len)%nat).

Definition skip_field (wire : Z) : pb unit := λ buf pos,
  if wire =? 0 then let? (_, pos) := read_varint buf pos in Ok (tt, pos)
  else if wire =? 2 then let? (_, pos) := read_bytes buf pos in Ok (tt, pos)
  else if wire =? 5 then
    if (length buf <? pos + 4)%nat then Err (bs "pb: truncated") else Ok (tt, (pos + 4)%nat)
  else if wire =? 1 then
    if (length buf <? pos + 8)%nat then Err (bs "pb: truncated") else Ok (tt, (pos + 8)%nat)
  else Err (bs "pb: bad wire type").

(** [while r.has_more() { let (tag, wire) = r.read_key()?; ... }]: [body] gets
    the key and the loop's variables.  Each round consumes the key's bytes, so
    the buffer's length is enough fuel ([fields_fuel]). *)
Fixpoint fields {St} (body : St → Z → Z → pb St) (fuel : nat) (st : St) (buf : list Z) (pos : nat)
    : res str St :=
  match fuel with
  | O => Ok st
  | S fuel =>
    if has_more buf pos then
      let? ((tag, wire), pos) := read_key buf pos in
      let? (st, pos) := body st tag wire buf pos in
      fields body fuel st buf pos
    else Ok st
  end.
Definition read_fields {St} (body : St → Z → Z → pb St) (st : St) (buf : list Z) : res str St :=
  fields body (length buf) st buf 0.

(** [.ok()?] in a function returning [Option]: an error is [None], a panic
    stays one. *)
Definition ok_opt {E F A} (r : res E A) : res F (option A) :=
  match r with Ok a => Ok (Some a) | Err _ => Ok None | Panic => Panic end.

(** ** The [.dat] parser *)

Definition parse_pb_cidr (buf : list Z) : res str (option str) :=
  let? o := ok_opt (read_fields (λ '(ip, prefix) tag wire buf pos,
      if (tag =? 1) && (wire =? 2) then
        let? (b, pos) := read_bytes buf pos in Ok ((b, prefix), pos)
      else if (tag =? 2) && (wire =? 0) then
        let? (v, pos) := read_varint buf pos in Ok ((ip, u32! v), pos)
      else let? (_, pos) := skip_field wire buf pos in Ok ((ip, prefix), pos))
    ([], 0) buf) in
  match o with
  | None => Ok None
  | Some (ip, prefix) =>
    if (length ip =? 4)%nat then Ok (Some (show_v4 ip ++ [47] ++ show_dec prefix))
    else if (length ip =? 16)%nat then Ok (Some (show_v6 ip ++ [47] ++ show_dec prefix))
    else Ok None
  end.

Section Geo.
Context `{RL : RegexLib}.

Definition parse_geosite_domain (buf : list Z) : res str (option DomainPattern) :=
  let? o := ok_opt (read_fields (λ '(dtype, value) tag wire buf pos,
      if (tag =? 1) && (wire =? 0) then
        let? (v, pos) := read_varint buf pos in Ok ((v, value), pos)
      else if (tag =? 2) && (wire =? 2) then
        let? (b, pos) := read_bytes buf pos in Ok ((dtype, from_utf8_lossy b), pos)
      else let? (_, pos) := skip_field wire buf pos in Ok ((dtype, value), pos))
    (0, []) buf) in
  match o with
  | None => Ok None
  | Some (dtype, value) =>
    if is_nil value then Ok None
    else if dtype =? 0 then Ok (Some (Keyword (to_ascii_lowercase value)))
    else if dtype =? 1 then
      let? re := ok_opt (regex_new value) in Ok (option_map Regex re)
    else if dtype =? 2 then Ok (Some (Suffix (to_ascii_lowercase value)))
    else if dtype =? 3 then Ok (Some (Full (to_ascii_lowercase value)))
    else Ok None
  end.

Definition opt_push {A} (l : list A) (o : option A) : list A :=
  match o with Some a => l ++ [a] | None => l end.

(** The code, whether the entry is a site list, and its patterns and blocks. *)
Definition parse_geo_entry (entry : list Z)
    : res str (option (str * bool * (option (list DomainPattern) * option (list str)))) :=
  let? o := ok_opt (read_fields (λ '(code, pats, cidrs) tag wire buf pos,
      if (tag =? 1) && (wire =? 2) then
        let? (b, pos) := read_bytes buf pos in Ok ((from_utf8_lossy b, pats, cidrs), pos)
      else if (tag =? 2) && (wire =? 2) then
        let? (sub, pos) := read_bytes buf pos in
        let? p := parse_pb_cidr sub in Ok ((code, pats, opt_push cidrs p), pos)
      else if (tag =? 3) && (wire =? 2) then
        let? (sub, pos) := read_bytes buf pos in
        let? p := parse_geosite_domain sub in Ok ((code, opt_push pats p, cidrs), pos)
      else let? (_, pos) := skip_field wire buf pos in Ok ((code, pats, cidrs), pos))
    ([], [], []) entry) in
  match o with
  | None => Ok None
  | Some (code, pats, cidrs) =>
    if is_nil code then Ok None else
    let is_site := negb (is_nil pats) in
    let out_pats := if is_site then Some pats else None in
    let out_cidrs := if negb (is_nil cidrs) then Some cidrs else None in
    Ok (Some (code, is_site, (out_pats, out_cidrs)))
  end.

Definition parse_v2ray_dat (data : list Z)
    : res str (list (str * list DomainPattern) * list (str * list str)) :=
  read_fields (λ '(sites, countries) tag wire buf pos,
      if (tag =? 1) && (wire =? 2) then
        let? (entry, pos) := read_bytes buf pos in
        let? o := parse_geo_entry entry in
        match o with
        | Some (code, is_site, (pats, cidrs)) =>
          if is_site then Ok ((sites ++ [(code, default [] pats)], countries), pos)
          else Ok ((sites, countries ++ [(code, default [] cidrs)]), pos)
        | None => Ok ((sites, countries), pos)
        end
      else let? (_, pos) := skip_field wire buf pos in Ok ((sites, countries), pos))
    ([], []) data.

(** ** The registry *)

Record GeoRegistry := mk_registry {
  g_domains : gmap str DomainMatcher;
  g_ips : gmap str IpMatcher
}.
Definition registry_new : GeoRegistry := mk_registry ∅ ∅.

Definition install_domains (g : GeoRegistry) (site : str) (patterns : list DomainPattern)
    : GeoRegistry :=
  let m := fold_left dm_insert patterns dm_new in
  mk_registry (<[to_ascii_lowercase site := m]> (g_domains g)) (g_ips g).

Definition install_cidrs (g : GeoRegistry) (country : str) (cidrs : list str)
    : res str unit * GeoRegistry :=
  match from_cidrs cidrs with
  | Ok m => (Ok tt, mk_registry (g_domains g) (<[to_ascii_lowercase country := m]> (g_ips g)))
  | Err e => (Err e, g)
  | Panic => (Panic, g)
  end.

(** The second loop of [load_dat]: what was installed before an error stays. *)
Fixpoint install_countries (g : GeoRegistry) (cs : list (str * list str))
    : res str unit * GeoRegistry :=
  match cs with
  | [] => (Ok tt, g)
  | (code, cidrs) :: cs =>
    match install_cidrs g code cidrs with
    | (Ok _, g) => install_countries g cs
    | x => x
    end
  end.

(** What [std::fs::read] returns for a path: the contents or the error text. *)
Definition fs := str → res str (list Z).

Definition load_dat (files : fs) (g : GeoRegistry) (path : str)
    : res str (nat * nat) * GeoRegistry :=
  match files path with
  | Err e => (Err (bs "geo: read " ++ path ++ bs ": " ++ e), g)
  | Panic => (Panic, g)
  | Ok data =>
    match parse_v2ray_dat data with
    | Err e => (Err e, g)
    | Panic => (Panic, g)
    | Ok (sites, countries) =>
      let g := fold_left (λ g '(code, pats), install_domains g code pats) sites g in
      match install_countries g countries with
      | (Ok _, g) => (Ok (length sites, length countries), g)
      | (Err e, g) => (Err e, g)
      | (Panic, g) => (Panic, g)
      end
    end
  end.

(** [str::lines]: split at line feeds, without a final empty line and without
    a carriage return before the feed. *)
Definition strip_cr (l : str) : str :=
  match rev l with 13 :: r => rev r | _ => l end.
Definition lines (s : str) : list str :=
  let ls := split 10 s in
  match rev ls with
  | [] :: r => map strip_cr (rev r)
  | last :: r => map strip_cr (rev r) ++ [last]
  | [] => []
  end.

Definition list_line (pats_n : list DomainPattern * nat) (line : str)
    : res str (list DomainPattern * nat) :=
  let '(pats, n) := pats_n in
  let line := trim line in
  if is_nil line || starts_with [35] line then Ok (pats, n) else
  let '(t, v) := match split_once 32 line with
                 | Some (a, b) => (trim a, trim b)
                 | None => (bs "full", line)
                 end in
  let? p := (if bool_decide (t = bs "domain") || bool_decide (t = bs "suffix") then Ok (Suffix v)
             else if bool_decide (t = bs "keyword") then Ok (Keyword v)
             else if bool_decide (t = bs "regex") then
               let? re := map_err (λ e, bs "regex.compile: " ++ e) (regex_new v) in Ok (Regex re)
             else Ok (Full v)) in
  Ok (pats ++ [p], S n).

(** [files] is [std::fs::read_to_string]: the text is valid UTF-8. *)
Definition load_list_file (files : fs) (g : GeoRegistry) (path kind code : str)
    : res str nat * GeoRegistry :=
  match files path with
  | Err e => (Err (bs "geo: read " ++ path ++ bs ": " ++ e), g)
  | Panic => (Panic, g)
  | Ok text =>
    if bool_decide (kind = bs "geosite") then
      match try_fold list_line ([], O) (lines text) with
      | Ok (pats, n) => (Ok n, install_domains g code pats)
      | Err e => (Err e, g)
      | Panic => (Panic, g)
      end
    else if bool_decide (kind = bs "geoip") then
      let cidrs := List.filter (λ l, negb (is_nil l) && negb (starts_with [35] l))
                     (map trim (lines text)) in
      match install_cidrs g code cidrs with
      | (Ok _, g) => (Ok (length cidrs), g)
      | (Err e, g) => (Err e, g)
      | (Panic, g) => (Panic, g)
      end
    else (Err (bs "geo: unknown list kind '" ++ kind ++ bs "'"), g)
  end.

(** [impl GeoLookup for GeoRegistry]. *)
Definition registry_lookup (g : GeoRegistry) : GeoLookup := {|
  geoip_contains code ip :=
    match g_ips g !! to_ascii_lowercase code with
    | Some m => ip_matches m ip
    | None => false
    end;
  geosite_matches code domain :=
    match g_domains g !! to_ascii_lowercase code with
    | Some m => dm_matches m domain
    | None => false
    end
|}.

End Geo.

(** ** The wire format

    The protobuf encoding that the reader is meant for: base-128 integers and
    two kinds of fields. *)

(** Base-128 digits, least significant first; ten digits hold 64 bits. *)
Fixpoint enc_varint_go (fuel : nat) (v : Z) : list Z :=
  match fuel with
  | O => []
  | S fuel => if v <? 128 then [v] else (v mod 128 + 128) :: enc_varint_go fuel (v / 128)
  end.
Definition enc_varint (v : Z) : list Z := enc_varint_go 10 v.

Inductive pbfield :=
| FV (tag v : Z)
| FB (tag : Z) (b : list Z).

Definition enc_field (f : pbfield) : list Z :=
  match f with
  | FV tag v => enc_varint (tag * 8) ++ enc_varint v
  | FB tag b => enc_varint (tag * 8 + 2) ++ enc_varint (Z.of_nat (length b)) ++ b
  end.
Definition enc_msg (fs : list pbfield) : list Z := concat (map enc_field fs).

Definition field_wf (f : pbfield) : Prop :=
  match f with
  | FV tag v => 0 < tag < 2 ^ 29 ∧ is_u64 v
  | FB tag b => 0 < tag < 2 ^ 29
  end.

Lemma land_128 b : is_u8 b → (Z.land b 128 =? 0) = (b <? 128).
Proof.
  intros Hb. apply eqb_true_iff.
  by apply (u8_forall (λ b, eqb (Z.land b 128 =? 0) (b <? 128))).
Qed.

Lemma land_127 b : Z.land b 127 = b mod 128.
Proof. change 127 with (Z.ones 7). by rewrite Z.land_ones. Qed.

Lemma enc_varint_go_pos fuel v : (0 < length (enc_varint_go (S fuel) v))%nat.
Proof. simpl. destruct (v <? 128); simpl; lia. Qed.

(** One byte without, and one with, the continuation bit. *)
Lemma read_varint_go_last more v result shift pre rest :
  0 ≤ shift → 0 ≤ v < 128 → 0 ≤ result < 2 ^ shift → v * 2 ^ shift < 2 ^ 64 →
  read_varint_go (S more) result shift (pre ++ v :: rest) (length pre)
  = Ok (result + v * 2 ^ shift, S (length pre)).
Proof.
  intros Hs Hv Hr Hb. cbn [read_varint_go]. rewrite list_lookup_middle by done.
  rewrite land_128, (proj2 (Z.ltb_lt _ _)) by (unfold in_range; lia).
  rewrite land_127, (Z.mod_small v) by lia.
  rewrite wrap_small, lor_shiftl_add
    by (rewrite ?Z.shiftl_mul_pow2 by done; unfold in_range; nia). done.
Qed.

Lemma read_varint_go_enc fuel more v result shift pre rest :
  (S fuel ≤ more)%nat → 0 ≤ shift → 0 ≤ v < 128 ^ Z.of_nat (S fuel) →
  0 ≤ result < 2 ^ shift → v * 2 ^ shift < 2 ^ 64 →
  read_varint_go more result shift (pre ++ enc_varint_go (S fuel) v ++ rest) (length pre)
  = Ok (result + v * 2 ^ shift, length (pre ++ enc_varint_go (S fuel) v)).
Proof.
  revert more v result shift pre; induction fuel as [|fuel IH];
    intros more v result shift pre Hf Hs Hv Hr Hb; (destruct more as [|more]; [lia|]).
  { change (128 ^ Z.of_nat 1) with 128 in Hv. cbn [enc_varint_go].
    rewrite (proj2 (Z.ltb_lt _ _)) by lia. cbn [app].
    rewrite read_varint_go_last by lia. f_equal. f_equal. len. }
  rewrite Nat2Z.inj_succ, Z.pow_succ_r in Hv by lia.
  remember (S fuel) as n. cbn [enc_varint_go].
  destruct (v <? 128) eqn:E; [apply Z.ltb_lt in E | apply Z.ltb_ge in E].
  { cbn [app]. rewrite read_varint_go_last by lia. f_equal. f_equal. len. }
  cbn [app read_varint_go].
  pose proof (Z.mod_pos_bound v 128 ltac:(lia)) as Hm.
  pose proof (Z.div_mod v 128 ltac:(lia)) as Hd.
  assert (0 ≤ v / 128) by (apply Z.div_pos; lia).
  assert (2 ^ (shift + 7) = 128 * 2 ^ shift) as Hp by (rewrite Z.pow_add_r; lia).
  rewrite list_lookup_middle by done.
  rewrite land_128, (proj2 (Z.ltb_ge _ _)) by (unfold in_range; lia).
  rewrite land_127.
  replace ((v mod 128 + 128) mod 128) with (v mod 128)
    by (rewrite <- (Z.mul_1_l 128) at 3; rewrite Z_mod_plus_full, Zmod_mod; done).
  rewrite wrap_small, lor_shiftl_add
    by (rewrite ?Z.shiftl_mul_pow2 by done; unfold in_range; nia).
  replace (pre ++ (v mod 128 + 128) :: enc_varint_go n (v / 128) ++ rest)
    with ((pre ++ [v mod 128 + 128]) ++ enc_varint_go n (v / 128) ++ rest)
    by by rewrite <- app_assoc.
  replace (S (length pre)) with (length (pre ++ [v mod 128 + 128])) by len.
  rewrite IH by (try lia; try split; try (apply Z.div_lt_upper_bound); nia).
  f_equal. f_equal; [nia | by rewrite <- app_assoc].
Qed.

Lemma read_varint_enc v pre rest :
  is_u64 v →
  read_varint (pre ++ enc_varint v ++ rest) (length pre)
  = Ok (v, length (pre ++ enc_varint v)).
Proof.
  intros Hv. unfold read_varint, enc_varint, in_range in *.
  rewrite read_varint_go_enc; [f_equal; f_equal; lia | lia | lia | | lia | lia].
  split; [lia|]. change (128 ^ Z.of_nat 10) with (2 ^ 70). lia.
Qed.

Lemma read_key_enc tag w pre rest :
  0 < tag < 2 ^ 29 → 0 ≤ w < 8 →
  read_key (pre ++ enc_varint (tag * 8 + w) ++ rest) (length pre)
  = Ok ((tag, w), length (pre ++ enc_varint (tag * 8 + w))).
Proof.
  intros Ht Hw. unfold read_key. rewrite read_varint_enc by (unfold in_range; lia).
  rewrite Z.shiftr_div_pow2 by lia. change (2 ^ 3) with 8.
  replace ((tag * 8 + w) / 8) with tag
    by (rewrite Z.add_comm, Z_div_plus_full by lia; rewrite Z.div_small; lia).
  change 7 with (Z.ones 3). rewrite Z.land_ones by lia. change (2 ^ 3) with 8.
  rewrite Z.add_comm, Z_mod_plus_full, Z.mod_small by lia.
  rewrite !wrap_small by (unfold in_range; lia). done.
Qed.

Lemma read_bytes_enc b pre rest :
  Z.of_nat (length (pre ++ enc_varint (Z.of_nat (length b)) ++ b ++ rest)) < 2 ^ 64 →
  read_bytes (pre ++ enc_varint (Z.of_nat (length b)) ++ b ++ rest) (length pre)
  = Ok (b, length (pre ++ enc_varint (Z.of_nat (length b)) ++ b)).
Proof.
  intros Hl. unfold read_bytes.
  rewrite read_varint_enc by (unfold in_range; len).
  rewrite (proj2 (Z.leb_gt _ _)), (proj2 (Z.ltb_ge _ _)) by len.
  rewrite Nat2Z.id, app_assoc, (slice_mid (pre ++ _)) by done.
  f_equal. f_equal. len.
Qed.

(** Fields are decoded in order, each handed to the loop's body with its key
    and a reader standing at its value. *)
Section Fields.
Context {St : Type} (body : St → Z → Z → pb St) (g : St → pbfield → St).

Definition handles (f : pbfield) : Prop :=
  match f with
  | FV tag v => ∀ st buf p p',
      read_varint buf p = Ok (v, p') → body st tag 0 buf p = Ok (g st (FV tag v), p')
  | FB tag b => ∀ st buf p p',
      read_bytes buf p = Ok (b, p') → body st tag 2 buf p = Ok (g st (FB tag b), p')
  end.

Lemma enc_field_pos f : (0 < length (enc_field f))%nat.
Proof.
  destruct f; cbn [enc_field]; rewrite length_app;
    match goal with |- context [enc_varint ?v] =>
      pose proof (enc_varint_go_pos 9 v) end; unfold enc_varint; lia.
Qed.

Lemma field_step f st fuel pre rest :
  handles f → field_wf f → Z.of_nat (length (pre ++ enc_field f ++ rest)) < 2 ^ 64 →
  fields body (S fuel) st (pre ++ enc_field f ++ rest) (length pre)
  = fields body fuel (g st f) (pre ++ enc_field f ++ rest) (length (pre ++ enc_field f)).
Proof.
  intros Hh Hw Hl. cbn [fields]. unfold has_more. pose proof (enc_field_pos f).
  rewrite (proj2 (Nat.ltb_lt _ _)) by len.
  destruct f as [tag v|tag b]; cbn [enc_field handles field_wf] in *.
  - destruct Hw as [Ht Hv]. rewrite <- !app_assoc.
    replace (tag * 8) with (tag * 8 + 0) in * by lia.
    rewrite read_key_enc by lia.
    rewrite !app_assoc, <- (app_assoc (pre ++ _)).
    erewrite Hh; [done|]. by rewrite read_varint_enc, ?app_assoc by done.
  - rewrite <- !app_assoc in *. rewrite read_key_enc by lia.
    rewrite (app_assoc pre) in *.
    erewrite Hh; [done|]. by rewrite read_bytes_enc, ?app_assoc by done.
Qed.

Lemma fields_msg fs st fuel pre :
  Forall handles fs → Forall field_wf fs →
  Z.of_nat (length (pre ++ enc_msg fs)) < 2 ^ 64 → (length (enc_msg fs) ≤ fuel)%nat →
  fields body fuel st (pre ++ enc_msg fs) (length pre) = Ok (fold_left g fs st).
Proof.
  intros Hh. revert st fuel pre; induction Hh as [|f fs Hf _ IH]; intros st fuel pre Hw Hl Hfu.
  - cbn in *. rewrite app_nil_r. destruct fuel; cbn [fields]; [done|].
    unfold has_more. by rewrite Nat.ltb_irrefl.
  - apply Forall_cons in Hw as [Hw1 Hw2]. cbn [enc_msg map concat] in *.
    pose proof (enc_field_pos f). destruct fuel as [|fuel]; [len|].
    rewrite field_step by done. rewrite app_assoc. apply IH; [done | by rewrite <- app_assoc | unfold enc_msg in *; len].
Qed.

(** Decoding a whole message folds the body's effect over its fields. *)
Lemma read_fields_msg fs st :
  Forall handles fs → Forall field_wf fs → Z.of_nat (length (enc_msg fs)) < 2 ^ 64 →
  read_fields body st (enc_msg fs) = Ok (fold_left g fs st).
Proof. intros. by apply (fields_msg fs st _ []). Qed.

End Fields.

(** The number of rounds the loop is given is enough: more make no
    difference, so the loop is the source's unbounded [while]. *)
Definition advances {St} (body : St → Z → Z → pb St) : Prop :=
  ∀ st tag wire buf p st' p', body st tag wire buf p = Ok (st', p') → (p ≤ p')%nat.

Lemma read_varint_go_advances more r sh buf p v p' :
  read_varint_go more r sh buf p = Ok (v, p') → (p < p')%nat.
Proof.
  revert r sh p; induction more as [|more IH]; intros r sh p; simpl; [done|].
  destruct (buf !! p); [|done]. destruct (_ =? 0); [intros [= _ <-]; lia|].
  intros H. apply IH in H. lia.
Qed.

Lemma fields_fuel {St} (body : St → Z → Z → pb St) n m st buf p :
  advances body → (length buf - p ≤ n)%nat → (length buf - p ≤ m)%nat →
  fields body n st buf p = fields body m st buf p.
Proof.
  intros Ha. revert m st p; induction n as [|n IH]; intros m st p Hn Hm.
  - destruct m; [done|]. cbn [fields]. unfold has_more.
    by rewrite (proj2 (Nat.ltb_ge _ _)) by lia.
  - destruct m as [|m].
    { cbn [fields]. unfold has_more. by rewrite (proj2 (Nat.ltb_ge _ _)) by lia. }
    cbn [fields]. unfold has_more. destruct (p <? length buf)%nat eqn:E; [|done]. norm.
    destruct (read_key buf p) as [[[t w] p1]| |] eqn:Ek; [|done..].
    destruct (body st t w buf p1) as [[st' p2]| |] eqn:Eb; [|done..].
    unfold read_key in Ek. destruct (read_varint buf p) as [[k p1']| |] eqn:Ev; [|done..]. norm.
    apply read_varint_go_advances in Ev. apply Ha in Eb. apply IH; lia.
Qed.

(** ** V2Ray messages *)

Definition cidr_fields (c : list Z * Z) : list pbfield := [FB 1 c.1; FV 2 c.2].
Definition country_fields (e : str * list (list Z * Z)) : list pbfield :=
  FB 1 e.1 :: map (λ c, FB 2 (enc_msg (cidr_fields c))) e.2.
(** A [geoip.dat]: a list of country entries. *)
Definition geoip_dat (cs : list (str * list (list Z * Z))) : list Z :=
  enc_msg (map (λ c, FB 1 (enc_msg (country_fields c))) cs).

Definition show_cidr (c : list Z * Z) : str :=
  (if (length c.1 =? 4)%nat then show_v4 c.1 else show_v6 c.1) ++ [47] ++ show_dec c.2.

Definition country_wf (e : str * list (list Z * Z)) : Prop :=
  e.1 ≠ [] ∧ utf8_valid e.1 = true
  ∧ Forall (λ c, (length c.1 = 4%nat ∨ length c.1 = 16%nat) ∧ is_u32 c.2) e.2.

#[export] Instance country_wf_dec e : Decision (country_wf e).
Proof. unfold country_wf. apply _. Defined.

(** A message inside a field is shorter than the message around it. *)
Lemma enc_field_inner tag b : (length b ≤ length (enc_field (FB tag b)))%nat.
Proof. cbn. len. Qed.
Lemma enc_msg_elem f fs : f ∈ fs → (length (enc_field f) ≤ length (enc_msg fs))%nat.
Proof.
  unfold enc_msg. induction fs as [|x fs IH]; cbn; [set_solver|]. rewrite elem_of_cons, length_app.
  intros [->|H]; [lia | apply IH in H; lia].
Qed.
Lemma enc_msg_inner tag b fs : FB tag b ∈ fs → (length b ≤ length (enc_msg fs))%nat.
Proof. intros H. pose proof (enc_msg_elem _ _ H). pose proof (enc_field_inner tag b). lia. Qed.

Lemma parse_pb_cidr_enc c :
  (length c.1 = 4%nat ∨ length c.1 = 16%nat) → is_u32 c.2 →
  Z.of_nat (length (enc_msg (cidr_fields c))) < 2 ^ 64 →
  parse_pb_cidr (enc_msg (cidr_fields c)) = Ok (Some (show_cidr c)).
Proof.
  intros Hl Hp Hn. unfold parse_pb_cidr.
  rewrite (read_fields_msg _ (λ '(ip, p) f, match f with FB _ b => (b, p) | FV _ v => (ip, v) end));
    [| | |done].
  - cbn. unfold show_cidr. by destruct Hl as [-> | ->].
  - unfold cidr_fields. repeat constructor; cbn -[read_varint].
    + intros [ip p] buf q q' ->. done.
    + intros [ip p] buf q q' ->. by rewrite wrap_small.
  - unfold cidr_fields. unfold in_range in *. repeat constructor; cbn; lia.
Qed.

Section Dat.
Context `{RL : RegexLib}.

(** The effect of one field of a country entry. *)
Definition entry_step (st : str * list DomainPattern * list str) (f : pbfield) :=
  let '(code, pats, cidrs) := st in
  match f with
  | FB 1 b => (from_utf8_lossy b, pats, cidrs)
  | FB 2 b => (code, pats, match parse_pb_cidr b with Ok o => opt_push cidrs o | _ => cidrs end)
  | _ => st
  end.

Lemma fold_entry_step code pats cs cidrs :
  Forall (λ c, (length c.1 = 4%nat ∨ length c.1 = 16%nat) ∧ is_u32 c.2
               ∧ Z.of_nat (length (enc_msg (cidr_fields c))) < 2 ^ 64) cs →
  fold_left entry_step (map (λ c, FB 2 (enc_msg (cidr_fields c))) cs) (code, pats, cidrs)
  = (code, pats, cidrs ++ map show_cidr cs).
Proof.
  intros H. revert cidrs; induction H as [|c cs (H1 & H2 & H3) _ IH]; intros cidrs; cbn [fold_left map entry_step].
  - by rewrite app_nil_r.
  - rewrite parse_pb_cidr_enc by done. cbn [opt_push]. rewrite IH. by rewrite <- app_assoc.
Qed.

Lemma parse_geo_entry_enc e :
  country_wf e → Z.of_nat (length (enc_msg (country_fields e))) < 2 ^ 64 →
  parse_geo_entry (enc_msg (country_fields e))
  = Ok (Some (e.1, false, (None, if is_nil e.2 then None else Some (map show_cidr e.2)))).
Proof.
  destruct e as [code cs]. intros (Hc & Hu & Hf) Hn. cbn [fst snd] in *.
  assert (Hf' : Forall (λ c, (length c.1 = 4%nat ∨ length c.1 = 16%nat) ∧ is_u32 c.2
               ∧ Z.of_nat (length (enc_msg (cidr_fields c))) < 2 ^ 64) cs).
  { apply Forall_forall. intros c Hc'. rewrite Forall_forall in Hf. destruct (Hf c Hc').
    split; [done|]. split; [done|].
    assert (FB 2 (enc_msg (cidr_fields c)) ∈ country_fields (code, cs)) as Hi.
    { right. apply list_elem_of_fmap. by exists c. }
    apply enc_msg_inner in Hi. lia. }
  unfold parse_geo_entry.
  rewrite (read_fields_msg _ entry_step); [| | |done].
  - unfold country_fields. cbn [fold_left fst snd].
    change (entry_step ([], [], []) (FB 1 code)) with (from_utf8_lossy code, @nil DomainPattern, @nil str).
    rewrite from_utf8_lossy_valid, fold_entry_step by done. cbn [ok_opt].
    destruct code as [|x code]; [done|]. cbn. by destruct cs.
  - apply Forall_cons. split.
    + intros [[a b] c] buf q q' H. cbn [Z.eqb Pos.eqb andb]. by rewrite H.
    + apply Forall_fmap, Forall_forall. intros c Hc'. rewrite Forall_forall in Hf'.
      destruct (Hf' c Hc') as (H1 & H2 & H3). intros [[a b] d] buf q q' H. cbn [Z.eqb Pos.eqb andb entry_step].
      by rewrite H, parse_pb_cidr_enc by done.
  - apply Forall_cons. split; [cbn; lia|]. apply Forall_fmap, Forall_forall. intros c _. cbn. lia.
Qed.

(** A V2Ray [geoip.dat] is read completely: from the encoding of any list
    of countries with non-empty codes and IPv4 or IPv6 blocks, the parser
    returns every country in order with its blocks printed as CIDR text, and
    reports no site list; nested messages, lengths and ten-byte varints
    included. *)
Theorem geoip_dat_roundtrip cs :
  Forall country_wf cs → Z.of_nat (length (geoip_dat cs)) < 2 ^ 64 →
  parse_v2ray_dat (geoip_dat cs) = Ok ([], map (λ e, (e.1, map show_cidr e.2)) cs).
Proof.
  intros Hw Hn. unfold parse_v2ray_dat, geoip_dat.
  set (step := λ (st : list (str * list DomainPattern) * list (str * list str)) f,
    match f with
    | FB 1 b => match parse_geo_entry b with
                | Ok (Some (code, _, (_, cidrs))) => (st.1, st.2 ++ [(code, default [] cidrs)])
                | _ => st
                end
    | _ => st
    end).
  assert (Hin : Forall (λ e, country_wf e ∧ Z.of_nat (length (enc_msg (country_fields e))) < 2 ^ 64) cs).
  { apply Forall_forall. intros e He. split; [by apply (proj1 (Forall_forall _ _) Hw)|].
    assert (FB 1 (enc_msg (country_fields e)) ∈ map (λ c, FB 1 (enc_msg (country_fields c))) cs) as H.
    { apply list_elem_of_fmap. by exists e. }
    apply enc_msg_inner in H. unfold geoip_dat in Hn. lia. }
  rewrite (read_fields_msg _ step); [| | |done].
  - f_equal. clear Hn Hw. cut (∀ l, fold_left step (map (λ c, FB 1 (enc_msg (country_fields c))) cs) ([], l)
      = ([], l ++ map (λ e, (e.1, map show_cidr e.2)) cs)); [intros H; apply H|].
    induction Hin as [|e es [H1 H2] _ IH]; intros l; cbn [fold_left map].
    + by rewrite app_nil_r.
    + unfold step at 2. rewrite parse_geo_entry_enc by done. cbn [fst snd]. rewrite IH, <- app_assoc.
      cbn. by destruct e as [code [|]].
  - apply Forall_fmap, Forall_forall. intros e He. rewrite Forall_forall in Hin.
    destruct (Hin e He) as [H1 H2]. intros [a b] buf q q' H. unfold step. cbn [Z.eqb Pos.eqb andb].
    by rewrite H, parse_geo_entry_enc by done.
  - apply Forall_fmap, Forall_forall. intros e _. cbn. lia.
Qed.
End Dat.

Lemma geoip_dat_roundtrip_witness :
  let cs := [(bs "CN", [([1; 0; 1; 0], 24); (replicate 15 0 ++ [1], 128)]); (bs "lan", [])] in
  @parse_v2ray_dat literal_regex (geoip_dat cs)
  = Ok ([], [(bs "CN", [bs "1.0.1.0/24"; bs "::1/128"]); (bs "lan", [])]).
Proof.
  intros cs. rewrite (@geoip_dat_roundtrip literal_regex cs).
  - vm_compute. reflexivity.
  - by_decide.
  - vm_compute. reflexivity.
Defined.

Section Registry.
Context `{RL : RegexLib}.

(** What is installed is what lookups see.  After [install_domains] a
    geosite lookup under the same code, ASCII case ignored, holds exactly for
    the names one of the patterns matches, and lookups under other codes and
    geoip lookups are unchanged; after a successful [install_cidrs] a geoip
    lookup holds exactly for the addresses in one of the blocks; a failed one
    leaves the registry as it was. *)
Theorem registry_install g site ps country cidrs code d ip :
  (geosite_matches (registry_lookup (install_domains g site ps)) code d
   = if bool_decide (to_ascii_lowercase code = to_ascii_lowercase site)
     then existsb (λ p, pattern_matches (lower_pattern p) d) ps
     else geosite_matches (registry_lookup g) code d)
  ∧ geoip_contains (registry_lookup (install_domains g site ps)) code ip
    = geoip_contains (registry_lookup g) code ip
  ∧ match install_cidrs g country cidrs with
    | (Ok _, g') =>
      (geoip_contains (registry_lookup g') code ip = true ↔
       if bool_decide (to_ascii_lowercase code = to_ascii_lowercase country)
       then ∃ c, c ∈ cidrs ∧ cidr_contains c ip
       else geoip_contains (registry_lookup g) code ip = true)
      ∧ geosite_matches (registry_lookup g') code d = geosite_matches (registry_lookup g) code d
    | (_, g') => g' = g
    end.
Proof.
  split; [|split].
  - cbn. case_bool_decide as H.
    + rewrite H, lookup_insert_eq, dm_matches_fold, dm_matches_alt. cbn.
      by rewrite bool_decide_false by set_solver.
    + by rewrite lookup_insert_ne by congruence.
  - done.
  - unfold install_cidrs. destruct (from_cidrs cidrs) as [m|e|] eqn:E; [|done..].
    split; [|done]. cbn. case_bool_decide as H.
    + rewrite H, lookup_insert_eq. by apply from_cidrs_matches.
    + by rewrite lookup_insert_ne by congruence.
Qed.

(** A genuine V2Ray [geosite.dat] puts the domains of a site in field 2 (the
    type in field 1 of the domain, the value in field 2); the parser reads
    patterns from field 3 and takes field 2 for address blocks. *)
Definition site_dat (code : str) (ds : list (Z * str)) : list Z :=
  enc_msg [FB 1 (enc_msg (FB 1 code :: map (λ d, FB 2 (enc_msg [FV 1 d.1; FB 2 d.2])) ds))].

Example site_dat_lost :
  parse_v2ray_dat (site_dat (bs "ads") [(2, bs "doubleclick.net"); (3, bs "ads.example")])
  = Ok ([], [(bs "ads", [])]).
Proof. vm_compute. reflexivity. Qed.

(** A length field near [2^64] makes the reader's bound check overflow. *)
Example length_overflow_panics :
  parse_v2ray_dat (enc_varint (1 * 8 + 2) ++ enc_varint (2 ^ 64 - 1)) = Panic.
Proof. vm_compute. reflexivity. Qed.

End Registry.
