(* ===== verification/Hash.v ===== *)
(** * Hash: digests that take their message in pieces

    The buffer of the MD5 of [omni-proto/src/crypto.rs] and of the SHA-1 of
    [shadowsocks/mod.rs] and of [ws/mod.rs], which is the same code around a
    different compression function, and what it computes: the digest of the
    whole padded message, block by block. *)

From S2P Require Import Prelude.

Record Hasher := mk_hasher {
  state : list Z;
  len : Z;
  buf : list Z;
  buflen : nat
}.

Section Streaming.
Context (compress : list Z → list Z → list Z).

(** The [while] loop of [update]: every round takes at least one byte, so the
    data's length is enough fuel. *)
Fixpoint update_go (fuel : nat) (h : Hasher) (data : list Z) : Hasher :=
  match fuel with
  | O => h
  | S fuel =>
    match data with
    | [] => h
    | _ =>
      let n := Nat.min (64 - buflen h) (length data) in
      let buf' := take (buflen h) (buf h) ++ take n data ++ drop (buflen h + n) (buf h) in
      let data := drop n data in
      if (buflen h + n =? 64)%nat
      then update_go fuel (mk_hasher (compress (state h) buf') (len h) buf' 0) data
      else update_go fuel (mk_hasher (state h) (len h) buf' (buflen h + n)) data
    end
  end.

Definition update (h : Hasher) (data : list Z) : Hasher :=
  update_go (length data)
    (mk_hasher (state h) (wadd 64 (len h) (Z.of_nat (length data))) (buf h) (buflen h)) data.

(** [while self.buflen != 56 { self.update(&\[0\]) }]: at most 63 rounds. *)
Fixpoint pad (fuel : nat) (h : Hasher) : Hasher :=
  match fuel with
  | O => h
  | S fuel => if (buflen h =? 56)%nat then h else pad fuel (update h [0])
  end.

(** [finalize], with the byte orders of the length and of the words. *)
Definition finalize (len_bytes : Z → list Z) (word_bytes : Z → list Z) (h : Hasher) : list Z :=
  let bitlen := wmul 64 (len h) 8 in
  let h := update h [128] in
  let h := pad 64 h in
  let h := update h (len_bytes bitlen) in
  concat (map word_bytes (state h)).

(** A hasher at the start, with the initial chaining value. *)
Definition start (iv : list Z) : Hasher := mk_hasher iv 0 (replicate 64 0) 0.

(** ** The digest of a whole message *)

(** The chaining value after the complete 64-byte blocks of [l], and the bytes
    left over. *)
Fixpoint absorb (fuel : nat) (s l : list Z) : list Z * list Z :=
  match fuel with
  | O => (s, l)
  | S fuel =>
    if (64 <=? length l)%nat then absorb fuel (compress s (take 64 l)) (drop 64 l) else (s, l)
  end.
Definition absorb_all (s l : list Z) : list Z * list Z := absorb (length l) s l.

(** The padded message. *)
Definition zeros (n : nat) : nat := ((119 - n mod 64) mod 64)%nat.
Definition padded (len_bytes : Z → list Z) (msg : list Z) : list Z :=
  msg ++ [128] ++ replicate (zeros (length msg)) 0 ++ len_bytes (wrap 64 (Z.of_nat (length msg) * 8)).

(** The digest computed on the whole padded message. *)
Definition hash_spec (len_bytes word_bytes : Z → list Z) (iv msg : list Z) : list Z :=
  concat (map word_bytes (absorb_all iv (padded len_bytes msg)).1).

Lemma absorb_S n s l :
  absorb (S n) s l =
  if (64 <=? length l)%nat then absorb n (compress s (take 64 l)) (drop 64 l) else (s, l).
Proof. reflexivity. Qed.

Lemma absorb_fuel n m s l : (length l ≤ n)%nat → (length l ≤ m)%nat → absorb n s l = absorb m s l.
Proof.
  revert m s l; induction n as [|n IH]; intros m s l Hn Hm.
  - destruct l; [|cbn in *; lia]. by destruct m.
  - destruct m as [|m]; [destruct l; [done | cbn in *; lia]|].
    rewrite !absorb_S. destruct (64 <=? length l)%nat eqn:E; [|done]. norm.
    apply IH; rewrite length_drop; lia.
Qed.

Lemma absorb_all_block s a l :
  length a = 64%nat → absorb_all s (a ++ l) = absorb_all (compress s a) l.
Proof.
  intros Ha. unfold absorb_all. rewrite length_app, Ha.
  change (64 + length l)%nat with (S (63 + length l)). rewrite absorb_S.
  rewrite (proj2 (Nat.leb_le _ _)) by len. rewrite take_app_length', drop_app_length' by done.
  apply absorb_fuel; lia.
Qed.

Lemma absorb_all_short s l : (length l < 64)%nat → absorb_all s l = (s, l).
Proof.
  intros Hl. unfold absorb_all. destruct (length l) eqn:E; [done|].
  by rewrite absorb_S, E, (proj2 (Nat.leb_gt _ _)).
Qed.

Lemma absorb_rest n s l :
  (length l ≤ n)%nat →
  (length (absorb n s l).2 < 64)%nat ∧ length (absorb n s l).2 = (length l mod 64)%nat.
Proof.
  revert s l; induction n as [|n IH]; intros s l Hn.
  - destruct l; [|cbn in *; lia]. cbn. split; [lia | done].
  - rewrite absorb_S. destruct (Nat.leb_spec 64 (length l)) as [E|E].
    + destruct (IH (compress s (take 64 l)) (drop 64 l)) as [H1 H2]; [rewrite length_drop; lia|].
      split; [done|]. rewrite H2, length_drop.
      replace (length l mod 64)%nat with (((length l - 64) + 1 * 64) mod 64)%nat by (f_equal; lia).
      by rewrite Nat.Div0.mod_add.
    + split; [done|]. symmetry. by apply Nat.mod_small.
Qed.

(** Absorbing in two steps. *)
Lemma absorb_all_app s m d :
  absorb_all s (m ++ d) = absorb_all (absorb_all s m).1 ((absorb_all s m).2 ++ d).
Proof.
  remember (length m) as n eqn:Hn. revert s m Hn.
  induction (lt_wf n) as [n _ IH]; intros s m ->.
  destruct (decide (length m < 64)%nat) as [H|H].
  - by rewrite (absorb_all_short s m).
  - assert (∃ a b, m = a ++ b ∧ length a = 64%nat) as (a & b & -> & Ha).
    { exists (take 64 m), (drop 64 m). rewrite take_drop, length_take. split; [done | lia]. }
    rewrite <- app_assoc, (absorb_all_block s a b), (absorb_all_block s a (b ++ d)) by done.
    eapply IH; [|reflexivity]. len.
Qed.

(** The streaming state that has taken in [msg]. *)
Definition Rep (iv : list Z) (h : Hasher) (msg : list Z) : Prop :=
  length (buf h) = 64%nat ∧ (buflen h < 64)%nat
  ∧ absorb_all iv msg = (state h, take (buflen h) (buf h))
  ∧ len h = wrap 64 (Z.of_nat (length msg)).

Lemma update_go_spec fuel h data :
  (length data ≤ fuel)%nat → length (buf h) = 64%nat → (buflen h < 64)%nat →
  let h' := update_go fuel h data in
  length (buf h') = 64%nat ∧ (buflen h' < 64)%nat ∧ len h' = len h
  ∧ absorb_all (state h) (take (buflen h) (buf h) ++ data) = (state h', take (buflen h') (buf h')).
Proof.
  revert h data; induction fuel as [|fuel IH]; intros [st ln bf bl] data Hf Hb Hl; cbn in Hb, Hl.
  - destruct data; [|cbn in *; lia]. cbn [update_go state len buf buflen]. rewrite app_nil_r.
    rewrite absorb_all_short by len. done.
  - destruct data as [|x data].
    { cbn [update_go state len buf buflen]. rewrite app_nil_r, absorb_all_short by len. done. }
    cbn [update_go state len buf buflen]. remember (x :: data) as d eqn:Hd.
    assert (0 < length d)%nat by (subst; cbn; lia). clear Hd.
    set (n := Nat.min (64 - bl) (length d)).
    destruct (bl + n =? 64)%nat eqn:E; norm.
    + assert (Hlen : length (take bl bf ++ take n d) = 64%nat) by (unfold n in *; len).
      rewrite (drop_ge bf) by lia. rewrite app_nil_r.
      destruct (IH (mk_hasher (compress st (take bl bf ++ take n d)) ln (take bl bf ++ take n d) 0) (drop n d))
        as (H1 & H2 & H3 & H4); [len | done | cbn; lia |].
      cbn [state len buf buflen take app] in *. split; [done|]. split; [done|]. split; [done|].
      rewrite <- H4, <- (take_drop n d) at 1. by rewrite app_assoc, absorb_all_block.
    + assert (n = length d) as Hn by (unfold n in *; lia).
      rewrite Hn, drop_all, (take_ge d) by lia.
      assert (∀ h, update_go fuel h [] = h) as -> by (intros; by destruct fuel).
      cbn [state len buf buflen]. split; [len|]. split; [lia|]. split; [done|].
      rewrite (app_assoc (take bl bf)), (take_app_le (take bl bf ++ d)) by len.
      rewrite (take_ge (take bl bf ++ d)) by len.
      apply absorb_all_short. len.
Qed.

Lemma update_Rep iv h msg data : Rep iv h msg → Rep iv (update h data) (msg ++ data).
Proof.
  intros (H1 & H2 & H3 & H4). unfold update.
  destruct (update_go_spec (length data)
    (mk_hasher (state h) (wadd 64 (len h) (Z.of_nat (length data))) (buf h) (buflen h)) data)
    as (G1 & G2 & G3 & G4); [done..|]. cbn [state len buf buflen] in *.
  split; [done|]. split; [done|]. split.
  - by rewrite absorb_all_app, H3, <- G4.
  - rewrite G3, H4, length_app, Nat2Z.inj_add. unfold wadd, wrap. by rewrite Zplus_mod_idemp_l.
Qed.

Lemma updates_Rep iv parts h msg : Rep iv h msg → Rep iv (fold_left update parts h) (msg ++ concat parts).
Proof.
  revert h msg; induction parts as [|p parts IH]; intros h msg H; cbn.
  - by rewrite app_nil_r.
  - rewrite app_assoc. apply IH. by apply update_Rep.
Qed.

Lemma Rep_buflen iv h msg : Rep iv h msg → buflen h = (length msg mod 64)%nat.
Proof.
  intros (H1 & H2 & H3 & _). destruct (absorb_rest (length msg) iv msg) as [_ Hr]; [done|].
  fold (absorb_all iv msg) in Hr. rewrite H3 in Hr. cbn [snd] in Hr. rewrite length_take in Hr. lia.
Qed.

Lemma pad_Rep iv k fuel h msg :
  Rep iv h msg → (k < 64)%nat → ((length msg + k) mod 64 = 56)%nat → (k < fuel)%nat →
  Rep iv (pad fuel h) (msg ++ replicate k 0).
Proof.
  revert fuel h msg; induction k as [|k IH]; intros fuel h msg HR Hk Hm Hf;
    (destruct fuel as [|fuel]; [lia|]); cbn [pad].
  - rewrite (Rep_buflen _ _ _ HR). rewrite Nat.add_0_r in Hm. rewrite Hm. cbn. by rewrite app_nil_r.
  - rewrite (Rep_buflen _ _ _ HR).
    destruct (Nat.eqb_spec (length msg mod 64) 56) as [E|E].
    { exfalso. pose proof (Nat.div_mod_eq (length msg) 64).
      pose proof (Nat.div_mod_eq (length msg + S k) 64). lia. }
    change (replicate (S k) 0) with ([0] ++ replicate k 0); rewrite app_assoc. apply (IH fuel (update h [0]) (msg ++ [0])); [by apply update_Rep | lia | | lia].
    rewrite length_app. cbn. by rewrite <- Nat.add_assoc.
Qed.

(** Pieces or the whole message: the same digest. *)
Lemma streaming len_bytes word_bytes iv parts :
  finalize len_bytes word_bytes (fold_left update parts (start iv)) = hash_spec len_bytes word_bytes iv (concat parts).
Proof.
  unfold finalize, hash_spec. set (msg := concat parts).
  assert (H0 : Rep iv (fold_left update parts (start iv)) msg).
  { apply (updates_Rep iv parts (start iv) []). split; [done|]. split; [cbn; lia|]. done. }
  set (h := fold_left update parts (start iv)) in *.
  pose proof (update_Rep iv h msg [128] H0) as H1.
  apply (pad_Rep iv (zeros (length msg)) 64) in H1; cycle 1.
  { unfold zeros. apply Nat.mod_upper_bound. lia. }
  { rewrite length_app. cbn [length]. unfold zeros.
    pose proof (Nat.mod_upper_bound (length msg) 64 ltac:(lia)).
    pose proof (Nat.div_mod_eq (length msg) 64) as Hd. set (r := (length msg mod 64)%nat) in *.
    rewrite <- (Nat.Div0.add_mod_idemp_r _ ((119 - r) mod 64)), Nat.Div0.mod_mod, Nat.Div0.add_mod_idemp_r.
    replace (length msg + 1 + (119 - r))%nat with (56 + (length msg / 64 + 1) * 64)%nat by lia.
    by rewrite Nat.Div0.mod_add. }
  { unfold zeros. apply Nat.mod_upper_bound. lia. }
  assert (Hbits : wmul 64 (len h) 8 = wrap 64 (Z.of_nat (length msg) * 8)).
  { destruct H0 as (_ & _ & _ & ->). unfold wmul, wrap. by rewrite Zmult_mod_idemp_l. }
  cbv zeta. rewrite Hbits. eapply (update_Rep iv _ _ (len_bytes (wrap 64 (Z.of_nat (length msg) * 8)))) in H1.
  destruct H1 as (_ & _ & H1 & _). unfold padded. rewrite <- !app_assoc in H1.
  rewrite H1. cbn [fst]. reflexivity.
Qed.

(** ** Lengths *)

Section Lengths.
Context (compress_length : ∀ s b, length (compress s b) = length s).

Lemma update_state h data : length (state (update h data)) = length (state h).
Proof using compress_length.
  assert (∀ fuel x d, length (state (update_go fuel x d)) = length (state x)) as Hgo.
  { induction fuel as [|fuel IH]; intros x d; cbn [update_go]; [done|]. destruct d as [|b d]; [done|].
    destruct (_ =? 64)%nat; rewrite IH; [apply compress_length | done]. }
  unfold update. by rewrite Hgo.
Qed.

Lemma concat_words_length n (f : Z → list Z) l :
  (∀ w, length (f w) = n) → length (concat (map f l)) = (n * length l)%nat.
Proof.
  intros Hf. induction l as [|w l IH]; cbn [map concat length]; [lia|].
  rewrite length_app, Hf, IH. lia.
Qed.

Lemma finalize_length len_bytes word_bytes iv parts :
  (∀ w, length (word_bytes w) = 4%nat) →
  length (finalize len_bytes word_bytes (fold_left update parts (start iv))) = (4 * length iv)%nat.
Proof using compress_length.
  intros Hw. unfold finalize.
  assert (∀ fuel h, length (state (pad fuel h)) = length (state h)) as Hpad.
  { induction fuel as [|fuel IH]; intros h; cbn [pad]; [done|].
    destruct (_ =? 56)%nat; [done|]. by rewrite IH, update_state. }
  rewrite (concat_words_length 4) by done. rewrite update_state, Hpad, update_state.
  assert (∀ h, length (state (fold_left update parts h)) = length (state h)) as ->; [|done].
  induction parts as [|x parts IH]; intros h; cbn [fold_left]; [done|]. by rewrite IH, update_state.
Qed.
End Lengths.
End Streaming.
