(* ===== verification/Crypto.v ===== *)
(** * Crypto: the primitives of [omni-proto/src/crypto.rs]

    MD5 (written out in the sources, streaming), FNV-1a, hexadecimal, the CFB
    and CTR modes over AES-128, and UUID text.  The AES block cipher and the
    SHA-2 digests come from crates; the block cipher is the interface
    [BlockCipher], of which the modes only use the block length. *)

From S2P Require Import Prelude Text Hash.

(** ** MD5 *)

Module Md5.

Definition S : list Z :=
  [7; 12; 17; 22; 7; 12; 17; 22; 7; 12; 17; 22; 7; 12; 17; 22; 5; 9; 14; 20; 5; 9; 14; 20; 5;
   9; 14; 20; 5; 9; 14; 20; 4; 11; 16; 23; 4; 11; 16; 23; 4; 11; 16; 23; 4; 11; 16; 23; 6; 10;
   15; 21; 6; 10; 15; 21; 6; 10; 15; 21; 6; 10; 15; 21].

Definition K : list Z :=
  [0xd76aa478; 0xe8c7b756; 0x242070db; 0xc1bdceee; 0xf57c0faf; 0x4787c62a; 0xa8304613;
   0xfd469501; 0x698098d8; 0x8b44f7af; 0xffff5bb1; 0x895cd7be; 0x6b901122; 0xfd987193;
   0xa679438e; 0x49b40821; 0xf61e2562; 0xc040b340; 0x265e5a51; 0xe9b6c7aa; 0xd62f105d;
   0x02441453; 0xd8a1e681; 0xe7d3fbc8; 0x21e1cde6; 0xc33707d6; 0xf4d50d87; 0x455a14ed;
   0xa9e3e905; 0xfcefa3f8; 0x676f02d9; 0x8d2a4c8a; 0xfffa3942; 0x8771f681; 0x6d9d6122;
   0xfde5380c; 0xa4beea44; 0x4bdecfa9; 0xf6bb4b60; 0xbebfbc70; 0x289b7ec6; 0xeaa127fa;
   0xd4ef3085; 0x04881d05; 0xd9d4d039; 0xe6db99e5; 0x1fa27cf8; 0xc4ac5665; 0xf4292244;
   0x432aff97; 0xab9423a7; 0xfc93a039; 0x655b59c3; 0x8f0ccc92; 0xffeff47d; 0x85845dd1;
   0x6fa87e4f; 0xfe2ce6e0; 0xa3014314; 0x4e0811a1; 0xf7537e82; 0xbd3af235; 0x2ad7d2bb;
   0xeb86d391].

Definition Md5 : Type := Hasher.

Definition new : Md5 := start [0x67452301; 0xefcdab89; 0x98badcfe; 0x10325476].

(** The word [m\[i\]] of a block, little-endian. *)
Definition word (block : list Z) (i : nat) : Z := le_value (take 4 (drop (i * 4) block)).

(** One of the 64 steps; [!!!] reads the constant tables and the block's
    words, always in range. *)
Definition round (m : list Z) (st : Z * Z * Z * Z) (i : nat) : Z * Z * Z * Z :=
  let '(a, b, c, d) := st in
  let '(f, g) :=
    match (i / 16)%nat with
    | 0%nat => (Z.lor (Z.land b c) (Z.land (wnot 32 b) d), i)
    | 1%nat => (Z.lor (Z.land d b) (Z.land (wnot 32 d) c), ((5 * i + 1) mod 16)%nat)
    | 2%nat => (Z.lxor (Z.lxor b c) d, ((3 * i + 5) mod 16)%nat)
    | _ => (Z.lxor c (Z.lor b (wnot 32 d)), ((7 * i) mod 16)%nat)
    end in
  let x := wadd 32 (wadd 32 (wadd 32 a f) (K !!! i)) (m !!! g) in
  (d, wadd 32 b (rotl 32 x (S !!! i)), b, c).

Definition compress (s : list Z) (block : list Z) : list Z :=
  let m := map (word block) (seq 0 16) in
  match s with
  | [s0; s1; s2; s3] =>
    let '(a, b, c, d) := fold_left (round m) (seq 0 64) (s0, s1, s2, s3) in
    [wadd 32 s0 a; wadd 32 s1 b; wadd 32 s2 c; wadd 32 s3 d]
  | _ => s
  end.

Definition update (h : Md5) (data : list Z) : Md5 := Hash.update compress h data.
Definition finalize (h : Md5) : list Z := Hash.finalize compress (le_bytes 8) (le_bytes 4) h.

Definition digest (parts : list (list Z)) : list Z :=
  finalize (fold_left update parts new).

End Md5.

(** ** FNV-1a *)

Definition fnv1a32 (data : list Z) : Z :=
  fold_left (λ hash b, wmul 32 (Z.lxor hash b) 16777619) data 2166136261.

(** ** Hexadecimal and UUIDs *)

Definition hex_digit (d : Z) : Z := if d <? 10 then 48 + d else 87 + d.

Definition hex_encode (data : list Z) : str :=
  concat (map (λ b, [hex_digit (Z.shiftr b 4); hex_digit (Z.land b 15)]) data).

(** [u8::from_str_radix] on each pair of digits. *)
Fixpoint hex_pairs (s : str) : option (list Z) :=
  match s with
  | a :: b :: s =>
    let+ v := res_ok (parse_uint 8 16 [a; b]) in
    let+ l := hex_pairs s in
    Some (v :: l)
  | _ => Some []
  end.

Definition hex_decode (s : str) : option (list Z) :=
  if negb (Nat.even (length s)) || negb (forallb is_hexdigit s) then None
  else hex_pairs s.

Definition parse_uuid (s : str) : option (list Z) :=
  let cleaned := List.filter is_hexdigit s in
  if negb (length cleaned =? 32)%nat then None else hex_pairs cleaned.

Definition uuid_to_string (u : list Z) : str :=
  hex_encode (take 4 u) ++ [45] ++ hex_encode (take 2 (drop 4 u)) ++ [45]
  ++ hex_encode (take 2 (drop 6 u)) ++ [45] ++ hex_encode (take 2 (drop 8 u)) ++ [45]
  ++ hex_encode (drop 10 u).

(** ** Block cipher modes *)

Class BlockCipher := {
  encrypt_block : list Z → list Z → list Z;
  encrypt_block_length : ∀ k b, length (encrypt_block k b) = 16%nat
}.

Section Modes.
Context `{BC : BlockCipher}.

Definition shift_feedback (fb : list Z) (used : nat) (ct_chunk : list Z) : list Z :=
  if (16 <=? used)%nat then take 16 ct_chunk
  else drop used fb ++ take used ct_chunk.

(** [Cfb128Encryptor::apply_xor] and [Cfb128Decryptor::apply_xor]: the
    processed data and the next feedback. *)
Fixpoint cfb_encrypt (key fb : list Z) (cs : list (list Z)) : list Z * list Z :=
  match cs with
  | [] => ([], fb)
  | c :: cs =>
    let out := zip_with Z.lxor c (encrypt_block key fb) in
    let '(rest, fb) := cfb_encrypt key (shift_feedback fb (length c) out) cs in
    (out ++ rest, fb)
  end.
Fixpoint cfb_decrypt (key fb : list Z) (cs : list (list Z)) : list Z * list Z :=
  match cs with
  | [] => ([], fb)
  | c :: cs =>
    let out := zip_with Z.lxor c (encrypt_block key fb) in
    let '(rest, fb) := cfb_decrypt key (shift_feedback fb (length c) c) cs in
    (out ++ rest, fb)
  end.
Definition cfb_enc_apply (key iv data : list Z) : list Z * list Z :=
  cfb_encrypt key iv (chunks 16 data).
Definition cfb_dec_apply (key iv data : list Z) : list Z * list Z :=
  cfb_decrypt key iv (chunks 16 data).

Record Aes128Ctr := mk_ctr {
  ctr_key : list Z;
  counter : list Z;
  keystream : list Z;
  pos : nat
}.

Definition ctr_new (key nonce_counter : list Z) : Aes128Ctr :=
  mk_ctr key nonce_counter (replicate 16 0) 16.

(** Increment from the last byte, stopping at the first that does not wrap. *)
Fixpoint incr_le (l : list Z) : list Z :=
  match l with
  | [] => []
  | b :: l => let b' := wadd 8 b 1 in if b' =? 0 then b' :: incr_le l else b' :: l
  end.
Definition incr_be (l : list Z) : list Z := rev (incr_le (rev l)).

Definition refill (c : Aes128Ctr) : Aes128Ctr :=
  mk_ctr (ctr_key c) (incr_be (counter c)) (encrypt_block (ctr_key c) (counter c)) 0.

Fixpoint apply_keystream (c : Aes128Ctr) (data : list Z) : list Z * Aes128Ctr :=
  match data with
  | [] => ([], c)
  | b :: data =>
    let c := if (pos c =? 16)%nat then refill c else c in
    let out := Z.lxor b (keystream c !!! pos c) in
    let '(rest, c) := apply_keystream (mk_ctr (ctr_key c) (counter c) (keystream c) (pos c + 1)) data in
    (out :: rest, c)
  end.

End Modes.

(** ** Vectors of the source's tests *)

Example md5_abc :
  hex_encode (Md5.digest [bs "abc"]) = bs "900150983cd24fb0d6963f7d28e17f72".
Proof. vm_compute. reflexivity. Qed.
Example md5_empty :
  hex_encode (Md5.digest [[]]) = bs "d41d8cd98f00b204e9800998ecf8427e".
Proof. vm_compute. reflexivity. Qed.
Example md5_long :
  hex_encode (Md5.digest [replicate 1000 97]) = bs "cabe45dcc9ae5b66ba86600cca6b8ba8".
Proof. vm_compute. reflexivity. Qed.
Example fnv_vectors : fnv1a32 [] = 2166136261 ∧ fnv1a32 (bs "a") = 0xe40c292c.
Proof. vm_compute. auto. Qed.

(** ** MD5: streaming against the whole message *)

(** The digest of RFC 1321 of a whole message. *)
Definition md5_spec (msg : list Z) : list Z :=
  hash_spec Md5.compress (le_bytes 8) (le_bytes 4) [0x67452301; 0xefcdab89; 0x98badcfe; 0x10325476] msg.

(** The streaming MD5 computes the digest of the concatenated input: for
    any split of the message over [update] calls, [finalize] returns the
    RFC 1321 value computed block by block over the padded message, with the
    bit length taken modulo 2^64. *)
Theorem md5_streaming parts :
  Md5.digest parts = md5_spec (concat parts).
Proof. apply (streaming Md5.compress). Qed.

(** ** Hexadecimal round trips *)

Definition hex_byte (b : Z) : str := [hex_digit (Z.shiftr b 4); hex_digit (Z.land b 15)].

Lemma hex_byte_parse b : is_u8 b → parse_uint 8 16 (hex_byte b) = Ok b.
Proof.
  intros Hb.
  pose proof (u8_forall (λ b, match parse_uint 8 16 (hex_byte b) with Ok v => v =? b | _ => false end)
    b eq_refl Hb) as H. cbn beta in H.
  destruct (parse_uint 8 16 (hex_byte b)); [|done..]. by apply Z.eqb_eq in H as ->.
Qed.

Lemma hex_byte_digits b : is_u8 b → forallb is_hexdigit (hex_byte b) = true.
Proof. intros. by apply (u8_forall (λ b, forallb is_hexdigit (hex_byte b))). Qed.

Lemma hex_encode_app a b : hex_encode (a ++ b) = hex_encode a ++ hex_encode b.
Proof. unfold hex_encode. by rewrite map_app, concat_app. Qed.

Lemma hex_encode_digits d : bytes d → forallb is_hexdigit (hex_encode d) = true.
Proof.
  induction 1 as [|b d Hb _ IH]; [done|]. change (hex_encode (b :: d)) with (hex_byte b ++ hex_encode d).
  by rewrite forallb_app, hex_byte_digits, IH.
Qed.

Lemma hex_encode_length d : length (hex_encode d) = (2 * length d)%nat.
Proof.
  induction d as [|b d IH]; [done|].
  change (length (hex_encode (b :: d))) with (S (S (length (hex_encode d)))). cbn [length]. lia.
Qed.

Lemma hex_pairs_encode d : bytes d → hex_pairs (hex_encode d) = Some d.
Proof.
  induction 1 as [|b d Hb _ IH]; [done|].
  change (hex_encode (b :: d)) with (hex_digit (Z.shiftr b 4) :: hex_digit (Z.land b 15) :: hex_encode d).
  cbn [hex_pairs]. fold (hex_byte b). by rewrite hex_byte_parse, IH by done.
Qed.

Lemma filter_hex_all s : forallb is_hexdigit s = true → List.filter is_hexdigit s = s.
Proof.
  induction s as [|b s IH]; [done|]. cbn. intros H. apply andb_true_iff in H as [-> H].
  by rewrite IH.
Qed.

Lemma filter_uuid u : bytes u → List.filter is_hexdigit (uuid_to_string u) = hex_encode u.
Proof.
  intros Hu. unfold uuid_to_string.
  rewrite !List.filter_app.
  change (List.filter is_hexdigit [45]) with (@nil Z). rewrite !app_nil_l.
  rewrite !filter_hex_all by (apply hex_encode_digits; eauto with rust).
  rewrite <- !hex_encode_app. f_equal.
  rewrite !app_assoc, (take_take_drop u 4 2); cbn [Nat.add].
  rewrite (take_take_drop u 6 2); cbn [Nat.add]. rewrite (take_take_drop u 8 2).
  apply take_drop.
Qed.

(** Hexadecimal and UUID text decode to what was encoded: for any bytes
    [hex_decode] inverts [hex_encode], and for sixteen bytes [parse_uuid]
    inverts [uuid_to_string]. *)
Theorem hex_uuid_roundtrip d u :
  bytes d → bytes u → length u = 16%nat →
  hex_decode (hex_encode d) = Some d ∧ parse_uuid (uuid_to_string u) = Some u.
Proof.
  intros Hd Hu Hl. split.
  - unfold hex_decode. rewrite hex_encode_length, hex_encode_digits, Nat.even_mul by done.
    by apply hex_pairs_encode.
  - unfold parse_uuid. rewrite filter_uuid, hex_encode_length, Hl by done.
    by apply hex_pairs_encode.
Qed.

Lemma hex_uuid_roundtrip_witness :
  let u := [184; 49; 56; 29; 99; 36; 77; 83; 173; 79; 140; 218; 72; 179; 8; 17] in
  hex_decode (hex_encode [0; 255]) = Some [0; 255]
  ∧ parse_uuid (uuid_to_string u) = Some u
  ∧ uuid_to_string u = bs "b831381d-6324-4d53-ad4f-8cda48b30811".
Proof.
  intros u. destruct (hex_uuid_roundtrip [0; 255] u ltac:(by_decide) ltac:(by_decide) eq_refl).
  split; [done|]. split; [done|]. vm_compute. reflexivity.
Defined.

(** ** Block cipher modes *)

Section ModesTheory.
Context `{BC : BlockCipher}.

Lemma xor_twice a k : (length a ≤ length k)%nat → zip_with Z.lxor (zip_with Z.lxor a k) k = a.
Proof.
  revert k; induction a as [|x a IH]; intros [|y k] H; cbn in *; [done..|lia|].
  rewrite IH by lia. by rewrite Z.lxor_assoc, Z.lxor_nilpotent, Z.lxor_0_r.
Qed.

Lemma cfb_inverse key fb cs :
  Forall (λ c, 0 < length c ≤ 16)%nat cs →
  ∃ cs', (cfb_encrypt key fb cs).1 = concat cs' ∧ Forall2 (λ c c', length c = length c') cs cs'
    ∧ cfb_decrypt key fb cs' = (concat cs, (cfb_encrypt key fb cs).2).
Proof.
  intros Hc. revert fb; induction Hc as [|c cs Hc _ IH]; intros fb; cbn.
  - by exists [].
  - destruct (IH (shift_feedback fb (length c) (zip_with Z.lxor c (encrypt_block key fb))))
      as (cs' & H1 & H2 & H3).
    pose proof (encrypt_block_length key fb) as Hk.
    set (out := zip_with Z.lxor c (encrypt_block key fb)) in *.
    assert (length out = length c) as Ho by (unfold out; rewrite length_zip_with; lia).
    destruct (cfb_encrypt key _ cs) as [rest fb'] eqn:E. cbn in *.
    exists (out :: cs'). cbn. rewrite H1, Ho, H3. split; [done|]. split; [by constructor|].
    unfold out. by rewrite xor_twice by lia.
Qed.

(** Cutting into sixteen-byte pieces depends only on the lengths. *)
Lemma chunks_fuel_lengths {A} fuel n (l k : list A) cs :
  length l = length k → chunks_fuel fuel n l = cs →
  Forall2 (λ c c', length c = length c') cs (chunks_fuel fuel n k).
Proof.
  revert l k cs; induction fuel as [|fuel IH]; intros l k cs Hl <-; cbn; [constructor|].
  destruct l as [|x l], k as [|y k]; try done. constructor; [len|].
  eapply IH; [|done]. len.
Qed.

Lemma Forall2_length_concat {A} (cs ds : list (list A)) :
  Forall2 (λ c d, length c = length d) cs ds → concat cs = concat ds → cs = ds.
Proof.
  induction 1 as [|c d cs ds Hl _ IH]; cbn; [done|]. intros E.
  apply app_inj_1 in E as [-> E]; [|done]. by rewrite IH.
Qed.

(** The CFB decryptor undoes the encryptor: from the same key and feedback
    register, decrypting in one call what was encrypted in one call gives the
    data back and leaves both registers equal, for any length, the last
    partial block included. *)
Theorem cfb_roundtrip key iv data :
  cfb_dec_apply key iv (cfb_enc_apply key iv data).1
  = (data, (cfb_enc_apply key iv data).2).
Proof.
  unfold cfb_enc_apply, cfb_dec_apply.
  destruct (cfb_inverse key iv (chunks 16 data)) as (cs' & H1 & H2 & H3);
    [apply chunks_Forall; lia|].
  rewrite (chunks_concat 16 data) in H3 by lia. rewrite H1.
  assert (chunks 16 (concat cs') = cs') as ->; [|done].
  apply Forall2_length_concat; [|apply chunks_concat; lia].
  assert (Hlen : length data = length (concat cs')).
  { rewrite <- (chunks_concat 16 data) by lia. clear -H2.
    induction H2; cbn; [done|]. rewrite !length_app. lia. }
  unfold chunks. rewrite <- Hlen.
  assert (Hs : Forall2 (λ c c', length c = length c') (chunks_fuel (length data) 16 (concat cs'))
            (chunks_fuel (length data) 16 data)) by (by eapply chunks_fuel_lengths).
  fold (chunks 16 data) in Hs. clear -H2 Hs.
  revert cs' H2 Hs. generalize (chunks 16 data).
  intros ds cs' H2 Hs. revert Hs. generalize (chunks_fuel (length data) 16 (concat cs')).
  intros l Hs. revert cs' H2. induction Hs as [|c d l ds Hcd _ IH]; intros cs' H2.
  - apply Forall2_nil_inv_l in H2 as ->. constructor.
  - apply Forall2_cons_inv_l in H2 as (d' & cs'' & Hd & H2 & ->). constructor; [congruence | by apply IH].
Qed.

Lemma apply_keystream_app c a b :
  apply_keystream c (a ++ b) =
  let '(x, c) := apply_keystream c a in
  let '(y, c) := apply_keystream c b in (x ++ y, c).
Proof.
  revert c; induction a as [|v a IH]; intros c; cbn.
  - by destruct (apply_keystream c b).
  - rewrite IH. destruct (apply_keystream _ a) as [x c1]. by destruct (apply_keystream c1 b).
Qed.

Lemma apply_keystream_twice c d :
  apply_keystream c (apply_keystream c d).1 = (d, (apply_keystream c d).2).
Proof.
  revert c; induction d as [|v d IH]; intros c; cbn; [done|].
  set (c' := if (pos c =? 16)%nat then refill c else c).
  specialize (IH (mk_ctr (ctr_key c') (counter c') (keystream c') (pos c' + 1))).
  destruct (apply_keystream _ d) as [x c1]. cbn in *. fold c'. rewrite IH.
  by rewrite Z.lxor_assoc, Z.lxor_nilpotent, Z.lxor_0_r.
Qed.

(** Counter mode is a stream: processing data in one call or in any two
    consecutive calls gives the same bytes and the same state, so the caller's
    buffering is invisible; and applying the keystream twice from the same
    state restores the data. *)
Theorem ctr_stream c a b :
  apply_keystream c (a ++ b) =
    ((apply_keystream c a).1 ++ (apply_keystream (apply_keystream c a).2 b).1,
     (apply_keystream (apply_keystream c a).2 b).2)
  ∧ (apply_keystream c (apply_keystream c a).1).1 = a.
Proof.
  split.
  - rewrite apply_keystream_app. destruct (apply_keystream c a) as [x c1]. cbn.
    by destruct (apply_keystream c1 b).
  - by rewrite apply_keystream_twice.
Qed.

End ModesTheory.

Lemma hex_pairs_length s l : hex_pairs s = Some l → (length l = length s / 2)%nat.
Proof.
  remember (length s) as n eqn:Hn. revert s l Hn.
  induction (lt_wf n) as [n _ IH]. intros [|a [|b s]] l Hn; cbn [hex_pairs length] in *; subst n.
  1, 2: by intros [= <-].
  destruct (res_ok _) as [v|]; [|done]. destruct (hex_pairs s) as [k|] eqn:E; [|done].
  intros [= <-].
  assert (H : (length k = length s / 2)%nat) by (eapply IH; [|done..]; lia).
  cbn [length]. rewrite H. change (S (S (length s))) with (2 + length s)%nat.
  replace (2 + length s)%nat with (1 * 2 + length s)%nat by lia. by rewrite Nat.div_add_l by lia.
Qed.

Lemma parse_uuid_length s u : parse_uuid s = Some u → length u = 16%nat.
Proof.
  unfold parse_uuid. destruct (negb _) eqn:E; [done|].
  apply negb_false_iff, Nat.eqb_eq in E. intros H. apply hex_pairs_length in H. by rewrite H, E.
Qed.
