(* ===== verification/Config.v ===== *)
(** * Config: the configuration and its validation

    The wire structures of [omni-config/src/wire.rs] that the runtime reads,
    and [omni-core/src/runtime/assembly/validation.rs].  Free-form JSON values
    come from the [serde_json] crate and are an interface, [Json]: the
    accessors the sources use.  Fields no component reads are left out of the
    records. *)

From S2P Require Import Prelude Text.

(** [serde_json::Value]: [as_str] and the like, and the object's entries. *)
Class Json := {
  value : Type;
  as_str : value → option str;
  as_bool : value → option bool;
  as_u64 : value → option Z;
  as_array : value → option (list value);
  as_object : value → option (list (str * value))
}.

Fixpoint obj_get {V} (m : list (str * V)) (k : str) : option V :=
  match m with
  | [] => None
  | (k', v) :: m => if bool_decide (k' = k) then Some v else obj_get m k
  end.

(** ** Wire structures *)

Section Wire.
Context `{JS : Json}.

Record TargetSpecWire := mk_target_wire {
  t_server : option str;
  t_server_port : option Z
}.

Record OutboundSpecWire := mk_outbound_wire {
  ob_tag : str;
  ob_type : str;
  ob_target : option TargetSpecWire;
  ob_rest : gmap str value
}.

Record TlsInboundSpecWire := mk_tls_wire {
  tls_enabled : bool;
  cert_mode : option str;
  cert_domain : option str;
  cert_file : option str;
  key_file : option str;
  cert_content : option str;
  key_content : option str;
  tls_alpn : option (list str);
  reality_short_ids : option (list str)
}.

Record WsSpecWire := mk_ws_wire {
  ws_path : option str;
  ws_host : option str;
  ws_max_streams : option Z
}.
Record PathHostWire := mk_path_host { ph_path : option str; ph_host : option str }.

Record NodeConfigWire := mk_node_wire {
  n_type : str;
  n_tag : str;
  n_listen : option str;
  n_port : option Z;
  n_ports : option (list Z);
  n_port_ranges : option (list (Z * Z));
  n_accept_proxy_protocol : bool;
  n_enable_proxy_protocol : bool;
  n_accept_udp_proxy_protocol : bool;
  n_enable_udp_proxy_protocol : bool;
  n_mux_enabled : bool;
  n_mux : option (option str);
  n_tls : option TlsInboundSpecWire;
  n_ws : option WsSpecWire;
  n_httpup : option PathHostWire;
  n_grpc : option (option str);
  n_h2 : option PathHostWire;
  n_fields : gmap str value
}.

Record DnsWire := mk_dns_wire { default_dns : option (list str) }.

Record RuntimeConfigWire := mk_runtime_wire {
  w_outbounds : list OutboundSpecWire;
  w_nodes : list NodeConfigWire;
  w_extra : gmap str value;
  w_dns : option DnsWire;
  w_metrics_port : option Z;
  w_user_persist_path : option str
}.
(** [RuntimeConfigWire::default()]. *)
Definition runtime_wire_default : RuntimeConfigWire := mk_runtime_wire [] [] ∅ None None None.

(** [m.get(k).and_then(|v| v.as_str()).map(String::from)]. *)
Definition str_field (m : gmap str value) (k : str) : option str :=
  m !! k ≫= as_str.

(** ** Validation ([validation.rs]) *)

Definition require_nonempty (spec field : str) (v : option str) : res str unit :=
  match v with
  | Some v => if negb (bool_decide (trim v = [])) then Ok tt
              else Err (spec ++ bs " outbound requires a non-empty '" ++ field ++ bs "'")
  | None => Err (spec ++ bs " outbound requires a non-empty '" ++ field ++ bs "'")
  end.

Definition opt_is_empty (o : option str) : bool :=
  match o with Some s => bool_decide (s = []) | None => true end.

Definition validate_target (proto : str) (target : option TargetSpecWire) : res str unit :=
  let e := bs "protocol " ++ proto ++ bs " requires target.server and target.server_port" in
  match target with
  | None => Err e
  | Some t =>
    if opt_is_empty (t_server t) || bool_decide (t_server_port t = None) then Err e else Ok tt
  end.

Definition validate_outbound (ob : OutboundSpecWire) : res str unit :=
  let get := str_field (ob_rest ob) in
  let need proto fields :=
    let? _ := validate_target proto (ob_target ob) in
    foldr (λ f k, let? _ := require_nonempty proto f (get f) in k) (Ok tt) fields in
  let is_ t := bool_decide (ob_type ob = t) in
  if is_ (bs "trojan") then need (bs "trojan") [bs "password"]
  else if is_ (bs "vless") then need (bs "vless") [bs "uuid"]
  else if is_ (bs "vmess") then need (bs "vmess") [bs "uuid"]
  else if is_ (bs "shadowsocks") then need (bs "shadowsocks") [bs "method"; bs "password"]
  else if is_ (bs "anytls") then need (bs "anytls") [bs "password"]
  else if is_ (bs "mieru") then need (bs "mieru") [bs "username"; bs "password"]
  else if is_ [] then Err (bs "outbound protocol cannot be empty")
  else Ok tt.

Definition hex_decode_check (s : str) : bool :=
  Nat.even (length s) && forallb is_hexdigit s.

Definition validate_tls (tls : TlsInboundSpecWire) : res str unit :=
  let is_ t := bool_decide (cert_mode tls = Some t) in
  let? _ :=
    (if bool_decide (cert_mode tls = None) || is_ [] then Ok tt
     else if is_ (bs "file") then
       if opt_is_empty (cert_file tls) || opt_is_empty (key_file tls)
       then Err (bs "cert_mode=file requires cert_file and key_file paths") else Ok tt
     else if is_ (bs "content") then
       if opt_is_empty (cert_content tls) then Err (bs "cert_mode=content requires cert_content")
       else if opt_is_empty (key_content tls) then Err (bs "cert_mode=content requires key_content")
       else Ok tt
     else if is_ (bs "self") then
       if opt_is_empty (cert_domain tls) then Err (bs "cert_mode=self requires cert_domain") else Ok tt
     else Err (bs "cert: unsupported cert_mode: " ++ default [] (cert_mode tls))) in
  match reality_short_ids tls with
  | None => Ok tt
  | Some sids =>
    foldr (λ sid k, if negb (hex_decode_check sid)
                    then Err (bs "reality.short_ids entry '" ++ sid ++ bs "' is not valid hex")
                    else k) (Ok tt) sids
  end.

Definition validate_node (n : NodeConfigWire) : res str unit :=
  if bool_decide (n_type n = []) then Err (bs "protocol cannot be empty") else
  if negb (n_mux_enabled n)
     && match n_mux n with Some (Some _) => true | _ => false end
  then Err (bs "mux is disabled but a mux kind is configured") else
  match n_tls n with Some tls => validate_tls tls | None => Ok tt end.

Definition label (tag : str) : str := if bool_decide (tag = []) then bs "<untagged>" else tag.

(** One round of the loop over the outbounds, then over the inbounds; the
    state is the tags seen so far. *)
Definition check_outbound (tags : list str) (ob : OutboundSpecWire) : res str (list str) :=
  let? _ := map_err (λ e, bs "config validation failed for outbound " ++ label (ob_tag ob) ++ bs ": " ++ e)
              (validate_outbound ob) in
  if bool_decide (ob_tag ob = [])
  then Err (bs "config validation failed for outbound <untagged>: outbound tag cannot be empty")
  else if bool_decide (ob_tag ob ∈ tags)
  then Err (bs "config validation failed for outbound " ++ ob_tag ob ++
            bs ": duplicate tag (tags must be unique across inbounds and outbounds)")
  else Ok (tags ++ [ob_tag ob]).

Definition check_node (tags : list str) (n : NodeConfigWire) : res str (list str) :=
  let? _ := map_err (λ e, bs "config validation failed for inbound " ++ label (n_tag n) ++ bs ": " ++ e)
              (validate_node n) in
  if bool_decide (n_tag n = []) then Ok tags
  else if bool_decide (n_tag n ∈ tags)
  then Err (bs "config validation failed for inbound " ++ n_tag n ++
            bs ": duplicate tag (tags must be unique across inbounds and outbounds)")
  else Ok (tags ++ [n_tag n]).

Definition validate (wire : RuntimeConfigWire) : res str unit :=
  let? tags := try_fold check_outbound [] (w_outbounds wire) in
  let? _ := try_fold check_node tags (w_nodes wire) in
  Ok tt.

(** ** What a valid configuration guarantees *)

(** The fields the checked protocols require. *)
Definition required (proto : str) : option (list str) :=
  if bool_decide (proto = bs "trojan") then Some [bs "password"]
  else if bool_decide (proto = bs "vless") then Some [bs "uuid"]
  else if bool_decide (proto = bs "vmess") then Some [bs "uuid"]
  else if bool_decide (proto = bs "shadowsocks") then Some [bs "method"; bs "password"]
  else if bool_decide (proto = bs "anytls") then Some [bs "password"]
  else if bool_decide (proto = bs "mieru") then Some [bs "username"; bs "password"]
  else None.

Definition target_ok (t : option TargetSpecWire) : Prop :=
  ∃ s p, t = Some (mk_target_wire (Some s) (Some p)) ∧ s ≠ [].

Definition outbound_ok (ob : OutboundSpecWire) : Prop :=
  ob_type ob ≠ [] ∧
  ∀ fields, required (ob_type ob) = Some fields →
    target_ok (ob_target ob)
    ∧ Forall (λ f, ∃ v, str_field (ob_rest ob) f = Some v ∧ trim v ≠ []) fields.

Lemma validate_target_ok proto t : validate_target proto t = Ok tt ↔ target_ok t.
Proof.
  unfold validate_target, target_ok. destruct t as [[srv pt]|]; cbn; [|naive_solver].
  destruct srv as [s|]; cbn; [|split; [done | by intros (? & ? & [= ] & _)]].
  destruct (bool_decide_reflect (s = [])); cbn.
  { split; [done | intros (? & ? & [= -> _] & ?); done]. }
  destruct (bool_decide_reflect (pt = None)).
  - split; [done|]. intros (? & ? & [= _ ->] & _). done.
  - destruct pt as [p|]; [|done]. split; [by exists s, p | done].
Qed.

Lemma need_ok proto t fields (get : str → option str) :
  (let? _ := validate_target proto t in
   foldr (λ f k, let? _ := require_nonempty proto f (get f) in k) (Ok tt) fields) = Ok tt
  ↔ target_ok t ∧ Forall (λ f, ∃ v, get f = Some v ∧ trim v ≠ []) fields.
Proof.
  rewrite <- (validate_target_ok proto). destruct (validate_target proto t) as [[]| |];
    [|split; [done | by intros [? _]]..].
  trans (Forall (λ f, ∃ v, get f = Some v ∧ trim v ≠ []) fields); [|naive_solver].
  induction fields as [|f fs IH]; cbn; [done|]. rewrite Forall_cons, <- IH.
  unfold require_nonempty. destruct (get f) as [v|]; [|split; [done | by intros [(? & ? & ?) _]]].
  destruct (bool_decide_reflect (trim v = [])) as [E|E]; cbn.
  - split; [done|]. intros [(? & [= <-] & ?) _]. done.
  - split; [intros; split; [by exists v | done] | by intros [_ ?]].
Qed.

Lemma validate_outbound_ok ob : validate_outbound ob = Ok tt ↔ outbound_ok ob.
Proof.
  unfold validate_outbound, outbound_ok, required.
  repeat match goal with |- context [bool_decide (ob_type ob = bs ?p)] =>
    destruct (bool_decide_reflect (ob_type ob = bs p)) as [->|?] end;
    [rewrite need_ok; split;
       [intros H; split; [done | by intros ? [= <-]] | intros [_ H]; by apply H] ..|].
  case_bool_decide; naive_solver.
Qed.

(** *** Inbounds *)

(** A text that is there and is not empty. *)
Definition given (o : option str) : Prop := ∃ s, o = Some s ∧ s ≠ [].

(** Where the certificate of an inbound comes from. *)
Inductive cert_ok (tls : TlsInboundSpecWire) : Prop :=
  | cert_unset : cert_mode tls = None → cert_ok tls
  | cert_blank : cert_mode tls = Some [] → cert_ok tls
  | cert_from_files : cert_mode tls = Some (bs "file") → given (cert_file tls) → given (key_file tls) → cert_ok tls
  | cert_from_text : cert_mode tls = Some (bs "content") → given (cert_content tls) → given (key_content tls) → cert_ok tls
  | cert_from_self : cert_mode tls = Some (bs "self") → given (cert_domain tls) → cert_ok tls.

(** The text of whole bytes in hexadecimal. *)
Definition hex_text (s : str) : Prop := (∃ k, length s = (2 * k)%nat) ∧ Forall (λ c, c ∈ bs "0123456789abcdefABCDEF") s.

Definition tls_ok (tls : TlsInboundSpecWire) : Prop :=
  cert_ok tls ∧ ∀ sids, reality_short_ids tls = Some sids → Forall hex_text sids.

Definition node_ok (n : NodeConfigWire) : Prop :=
  n_type n ≠ []
  ∧ (n_mux_enabled n = false → ∀ kind, n_mux n ≠ Some (Some kind))
  ∧ ∀ tls, n_tls n = Some tls → tls_ok tls.

Lemma opt_is_empty_given o : opt_is_empty o = false ↔ given o.
Proof.
  unfold given. destruct o as [s|]; cbn [opt_is_empty]; [|naive_solver].
  rewrite bool_decide_eq_false. naive_solver.
Qed.

Lemma hexdigit_in c : is_hexdigit c = true ↔ c ∈ bs "0123456789abcdefABCDEF".
Proof.
  unfold is_hexdigit, is_digit. split.
  - intros H. assert (c ∈ seqZ 48 10 ++ seqZ 97 6 ++ seqZ 65 6) as Hc by (rewrite !elem_of_app, !elem_of_seqZ; lia).
    exact Hc.
  - intros H. assert (c ∈ seqZ 48 10 ++ seqZ 97 6 ++ seqZ 65 6) as Hc by exact H.
    rewrite !elem_of_app, !elem_of_seqZ in Hc. lia.
Qed.

Lemma hex_decode_check_ok s : hex_decode_check s = true ↔ hex_text s.
Proof.
  unfold hex_decode_check, hex_text. rewrite andb_true_iff, Nat.even_spec, forallb_forall, Forall_forall.
  setoid_rewrite hexdigit_in. setoid_rewrite list_elem_of_In. done.
Qed.

Lemma short_ids_ok sids :
  foldr (λ sid k, if negb (hex_decode_check sid)
                  then Err (bs "reality.short_ids entry '" ++ sid ++ bs "' is not valid hex") else k) (Ok tt) sids = Ok tt
  ↔ Forall hex_text sids.
Proof.
  induction sids as [|sid sids IH]; cbn [foldr]; [done|]. rewrite Forall_cons, <- IH, <- hex_decode_check_ok.
  destruct (hex_decode_check sid); cbn [negb]; naive_solver.
Qed.

Lemma validate_tls_ok tls : validate_tls tls = Ok tt ↔ tls_ok tls.
Proof.
  unfold validate_tls, tls_ok. cbv zeta.
  match goal with |- (let? _ := ?c in _) = _ ↔ _ => assert (c = Ok tt ↔ cert_ok tls) as Hc; [|destruct c as [[]|e|] eqn:E] end.
  - clear. split.
    + intros H.
      assert (∀ o (e : str) k, (if opt_is_empty o then Err e else k) = Ok tt → given o ∧ k = Ok tt) as Hg.
      { intros o e k. rewrite <- opt_is_empty_given. by destruct (opt_is_empty o). }
      destruct (cert_mode tls) as [m|] eqn:Em; [|by apply cert_unset].
      rewrite bool_decide_eq_false_2 in H by done. cbn [orb] in H.
      repeat match type of H with (if bool_decide (Some m = Some ?t) then _ else _) = _ =>
        destruct (bool_decide_reflect (Some m = Some t)) as [[= ->]|] end.
      * by apply cert_blank.
      * destruct (opt_is_empty (cert_file tls)) eqn:E; [done|]. apply opt_is_empty_given in E.
        apply Hg in H as [H _]. by apply cert_from_files.
      * apply Hg in H as [H1 [H2 _]%Hg]. by apply cert_from_text.
      * apply Hg in H as [H _]. by apply cert_from_self.
      * done.
    + intros [H|H|H H1 H2|H H1 H2|H H1]; rewrite H; try done;
        apply opt_is_empty_given in H1; rewrite ?H1; try (apply opt_is_empty_given in H2; rewrite ?H2); done.
  - destruct (reality_short_ids tls) as [sids|]; [rewrite short_ids_ok|]; naive_solver.
  - naive_solver.
  - naive_solver.
Qed.

Lemma validate_node_ok n : validate_node n = Ok tt ↔ node_ok n.
Proof.
  unfold validate_node, node_ok. case_bool_decide; [naive_solver|].
  assert (negb (n_mux_enabled n) && match n_mux n with Some (Some _) => true | _ => false end = false
          ↔ (n_mux_enabled n = false → ∀ kind, n_mux n ≠ Some (Some kind))) as <-.
  { destruct (n_mux_enabled n), (n_mux n) as [[|]|]; naive_solver. }
  destruct (_ && _); [naive_solver|].
  destruct (n_tls n) as [tls|]; [rewrite validate_tls_ok|]; naive_solver.
Qed.

Lemma check_outbounds_ok tags obs tags' :
  try_fold check_outbound tags obs = Ok tags' ↔
  tags' = tags ++ map ob_tag obs
  ∧ Forall (λ ob, outbound_ok ob ∧ ob_tag ob ≠ []) obs
  ∧ Forall (λ ob, ob_tag ob ∉ tags) obs ∧ NoDup (map ob_tag obs).
Proof.
  revert tags; induction obs as [|ob obs IH]; intros tags; cbn [try_fold map].
  { rewrite app_nil_r. split; [intros [= ->] | intros (-> & _)]; [|done].
    repeat split; constructor. }
  unfold check_outbound at 1.
  destruct (validate_outbound ob) as [[]| |] eqn:E; cbn [map_err].
  2, 3: split; [done|]; intros (_ & H & _); apply Forall_cons in H as [[H _] _];
    apply validate_outbound_ok in H; congruence.
  apply validate_outbound_ok in E.
  rewrite NoDup_cons, !Forall_cons.
  destruct (bool_decide_reflect (ob_tag ob = [])) as [Et|Et]; [naive_solver|].
  destruct (bool_decide_reflect (ob_tag ob ∈ tags)) as [Ei|Ei]; [naive_solver|].
  rewrite IH, <- app_assoc. cbn [app].
  assert (Forall (λ o, ob_tag o ∉ tags ++ [ob_tag ob]) obs ↔
          Forall (λ o, ob_tag o ∉ tags) obs ∧ ob_tag ob ∉ map ob_tag obs) as ->; [|naive_solver].
  rewrite !Forall_forall, list_elem_of_fmap. set_solver.
Qed.

Definition named (n : NodeConfigWire) : bool := negb (bool_decide (n_tag n = [])).

Lemma elem_of_named x ns :
  x ∈ map n_tag (List.filter named ns) ↔ ∃ n, n ∈ ns ∧ named n = true ∧ x = n_tag n.
Proof.
  rewrite list_elem_of_fmap. setoid_rewrite list_elem_of_In. setoid_rewrite filter_In.
  naive_solver.
Qed.

Lemma check_nodes_ok tags ns tags' :
  try_fold check_node tags ns = Ok tags' ↔
  tags' = tags ++ map n_tag (List.filter named ns)
  ∧ Forall node_ok ns
  ∧ Forall (λ n, named n = true → n_tag n ∉ tags) ns ∧ NoDup (map n_tag (List.filter named ns)).
Proof.
  revert tags; induction ns as [|n ns IH]; intros tags; cbn [try_fold List.filter map].
  { cbn. rewrite app_nil_r. split; [intros [= ->] | intros (-> & _)]; [|done].
    repeat split; constructor. }
  unfold check_node at 1.
  destruct (validate_node n) as [[]| |] eqn:E; cbn [map_err].
  2, 3: split; [done|]; intros (_ & H & _); apply Forall_cons in H as [H _]; apply validate_node_ok in H; congruence.
  apply validate_node_ok in E. rewrite !Forall_cons.
  destruct (bool_decide_reflect (n_tag n = [])) as [Et|Et].
  - assert (named n = false) as -> by (unfold named; by rewrite bool_decide_true).
    rewrite IH. naive_solver.
  - assert (named n = true) as -> by (unfold named; by rewrite bool_decide_false).
    cbn [map]. rewrite NoDup_cons.
    destruct (bool_decide_reflect (n_tag n ∈ tags)) as [Ei|Ei]; [naive_solver|].
    rewrite IH, <- app_assoc. cbn [app].
    assert (Forall (λ o, named o = true → n_tag o ∉ tags ++ [n_tag n]) ns ↔
            Forall (λ o, named o = true → n_tag o ∉ tags) ns
            ∧ n_tag n ∉ map n_tag (List.filter named ns)) as ->; [|naive_solver].
    rewrite !Forall_forall, list_elem_of_fmap.
    setoid_rewrite list_elem_of_In. setoid_rewrite filter_In. setoid_rewrite <- list_elem_of_In.
    set_solver.
Qed.

Lemma validate_outbound_tags wire :
  validate wire = Ok tt → NoDup (map ob_tag (w_outbounds wire)).
Proof.
  unfold validate. destruct (try_fold check_outbound [] _) as [t1| |] eqn:E; [|done..].
  apply check_outbounds_ok in E as (_ & _ & _ & H). done.
Qed.

(** C37: validation accepts exactly the well-formed configurations: every
    outbound has a protocol, a tag, and for the protocols with required fields
    a server, a port and non-blank credentials; every inbound has a protocol,
    no multiplexer where multiplexing is off, and with TLS a certificate from
    two named files, from two texts or made for a named domain, or none yet,
    with short ids in hexadecimal; and no two tags, over outbounds and named
    inbounds together, are equal. *)
Theorem validate_spec wire :
  validate wire = Ok tt ↔
  Forall (λ ob, outbound_ok ob ∧ ob_tag ob ≠ []) (w_outbounds wire)
  ∧ Forall node_ok (w_nodes wire)
  ∧ NoDup (map ob_tag (w_outbounds wire) ++ map n_tag (List.filter named (w_nodes wire))).
Proof.
  unfold validate. rewrite NoDup_app.
  trans (∃ t1 t2, try_fold check_outbound [] (w_outbounds wire) = Ok t1
                  ∧ try_fold check_node t1 (w_nodes wire) = Ok t2).
  { destruct (try_fold check_outbound [] _) as [t1| |];
      [|split; [done | by intros (? & ? & ? & _)]..].
    destruct (try_fold check_node t1 _) as [t2| |] eqn:E;
      (split; [try done; intros _; by exists t1, t2|]);
      intros (? & ? & [= <-] & ?); congruence. }
  setoid_rewrite check_outbounds_ok. setoid_rewrite check_nodes_ok. cbn [app].
  split.
  - intros (t1 & t2 & (-> & H1 & _ & H2) & (-> & H3 & H4 & H5)).
    split; [done|]. split; [done|]. split; [done|]. split; [|done].
    intros x Hx (n & Hn & Hnn & ->)%elem_of_named.
    by apply (proj1 (Forall_forall _ _) H4 n).
  - intros (H1 & H2 & H3 & H4 & H5). do 2 eexists. split; [split_and!; try done|].
    { apply Forall_forall. intros x _. apply not_elem_of_nil. }
    split_and!; try done. apply Forall_forall. intros n Hn Hnn Hin.
    apply (H4 (n_tag n)); [done|]. apply elem_of_named. by exists n.
Qed.

End Wire.
