(* ===== verification/Resolver.v ===== *)
(** * Resolver: name servers and name resolution

    [omni-core/src/resolver/hickory.rs], the resolver port of
    [omni-domain/src/ports/resolver.rs] and the [Dialer] of
    [omni-transport/src/dial.rs].  The queries themselves, of the hickory crate
    and of the operating system, are arguments. *)

From S2P Require Import Prelude Text Net Io.

(** ** Addresses of name servers *)

(** [str::trim_start_matches(p)] for a non-empty [p]. *)
Fixpoint trim_start_matches_go (fuel : nat) (p s : str) : str :=
  match fuel with
  | O => s
  | S fuel => match strip_prefix p s with
              | Some r => trim_start_matches_go fuel p r
              | None => s
              end
  end.
Definition trim_start_matches (p s : str) : str := trim_start_matches_go (length s) p s.

(** [parse::<SocketAddr>()] with its error as text. *)
Definition parse_addr (s : str) : res str SocketAddr :=
  ok_or (bs "invalid socket address syntax") (parse_sockaddr s).

(** [rsplitn(2, c)], collected. *)
Definition rsplitn2 (c : Z) (s : str) : list str :=
  match rsplit_once c s with Some (h, t) => [t; h] | None => [s] end.

Definition normalize_dns_addr (s : str) : res str SocketAddr :=
  let s := trim_start_matches (bs "tcp://") (trim_start_matches (bs "udp://") s) in
  match strip_prefix (bs "https://") s with
  | Some rest => parse_addr (default rest (head (split 47 rest)) ++ bs ":443")
  | None =>
    match strip_prefix (bs "tls://") s with
    | Some rest => parse_addr (rest ++ bs ":853")
    | None =>
      if negb (contains [58] s) then parse_addr (s ++ bs ":53")
      else if starts_with [91] s then parse_addr s
      else
        match rsplitn2 58 s with
        | [p; h] =>
          if bool_decide (is_Some (parse_ip h)) then parse_addr s
          else parse_addr (bs "[" ++ trim_end_char 91 (trim_start_char 91 h) ++ bs "]:" ++ p)
        | _ => Panic
        end
    end
  end.

(** ** Resolvers *)

(** The servers a hickory resolver was built with, in order; all of them are
    asked over UDP. *)
Record HickoryDns := mk_hickory { name_servers : list SocketAddr }.

Definition add_name_server (servers : list SocketAddr) (s : str) : res str (list SocketAddr) :=
  let? addr := normalize_dns_addr s in Ok (servers ++ [addr]).

Definition hickory_new (servers : list str) : res str HickoryDns :=
  if bool_decide (servers = []) then Err (bs "dns: no servers")
  else let? l := try_fold add_name_server [] servers in Ok (mk_hickory l).

(** [dyn Resolver]: the two implementations. *)
Inductive AnyResolver := Hickory (r : HickoryDns) | SystemResolver.

Section Resolve.
(** A lookup at a set of servers, and the one of the operating system. *)
Context (lookup_ip : list SocketAddr → str → res str (list IpAddr)).
Context (lookup_host : str → Z → res str (list SocketAddr)).

Definition dns_err (e : str) : ioerr := other (bs "dns: " ++ e).

Definition resolve (r : AnyResolver) (host : str) (port : Z) : res ioerr (list SocketAddr) :=
  match r with
  | Hickory h =>
    let? resp := map_err dns_err (lookup_ip (name_servers h) host) in
    Ok (map (λ ip, sa_new ip port) resp)
  | SystemResolver => map_err dns_err (lookup_host host port)
  end.
End Resolve.

(** [Dialer::resolve]. *)
Definition dialer_resolve (lookup : str → Z → res ioerr (list SocketAddr)) (target : ProxyTarget)
    : res ioerr SocketAddr :=
  match target with
  | Tcp a => Ok a
  | Domain h p =>
    let? addrs := lookup h p in
    match addrs with
    | a :: _ => Ok a
    | [] => Err (mk_ioerr NotFound (bs "dns: no address records found"))
    end
  end.

(** ** What the address parsers read *)

(** [p] takes characters of the class [P] off its input. *)
Definition takes {A} (P : Z → Prop) (p : parser A) : Prop :=
  ∀ s a r, p s = Some (a, r) → ∃ c, s = c ++ r ∧ Forall P c.

Definition decimal (b : Z) : Prop := 48 <= b <= 57.
Definition dotted (b : Z) : Prop := b = 46 ∨ decimal b.
(** The characters of IP addresses. *)
Definition ip_char (b : Z) : Prop := dotted b ∨ b = 58 ∨ 65 <= b <= 70 ∨ 97 <= b <= 102.

Lemma takes_weaken {A} (P Q : Z → Prop) (p : parser A) : (∀ b, P b → Q b) → takes P p → takes Q p.
Proof. intros HPQ Hp s a r (c & -> & Hc)%Hp. exists c. split; [done|]. by eapply Forall_impl. Qed.

Lemma takes_char (P : Z → Prop) c : P c → takes P (read_given_char c).
Proof.
  intros Hc [|b s] [] r; cbn; [done|]. destruct (b =? c) eqn:E; [|done]. intros [= ->].
  apply Z.eqb_eq in E as ->. exists [c]. by repeat constructor.
Qed.

Lemma read_number_go_takes (P : Z → Prop) w radix m n a s v k r :
  (∀ b d, digit_val radix b = Some d → P b) →
  read_number_go w radix m n a s = Some (v, k, r) → ∃ c, s = c ++ r ∧ Forall P c.
Proof.
  intros HP. revert n a; induction s as [|b s IH]; intros n a; cbn [read_number_go].
  { intros [= _ _ <-]. by exists []. }
  destruct (digit_val radix b) as [d|] eqn:Ed; [|intros [= _ _ <-]; by exists []].
  destruct (_ <? _); [|done].
  assert (Hr : ∀ n' a', read_number_go w radix m n' a' s = Some (v, k, r) →
    ∃ c, b :: s = c ++ r ∧ Forall P c).
  { intros n' a' (c & -> & Hc)%IH. exists (b :: c). split; [done|]. constructor; [by eapply HP | done]. }
  destruct m as [m|]; [|apply Hr]. destruct (m <? S n)%nat; [done | apply Hr].
Qed.

Lemma takes_number (P : Z → Prop) w radix m z :
  (∀ b d, digit_val radix b = Some d → P b) → takes P (read_number w radix m z).
Proof.
  intros HP s a r. unfold read_number.
  destruct (read_number_go _ _ _ _ _ s) as [[[v k] r']|] eqn:E; [|done].
  destruct (k =? 0)%nat; [done|]. destruct (negb z && _ && _); [done|]. intros [= -> ->].
  by eapply read_number_go_takes.
Qed.

Lemma takes_separator {A} (P : Z → Prop) sep i (p : parser A) :
  P sep → takes P p → takes P (read_separator sep i p).
Proof.
  intros Hs Hp s a r. destruct i as [|i]; cbn; [apply Hp|].
  destruct (read_given_char sep s) as [[[] s']|] eqn:E; [|done].
  apply (takes_char P sep Hs) in E as (c & -> & Hc). intros (c' & -> & Hc')%Hp.
  exists (c ++ c'). by rewrite Forall_app, app_assoc.
Qed.

Lemma digit_decimal b d : digit_val 10 b = Some d → decimal b.
Proof. unfold digit_val, decimal, is_digit. repeat case_match; intros; simplify_eq; norm; lia. Qed.
Lemma digit_hex b d : digit_val 16 b = Some d → ip_char b.
Proof. unfold digit_val, ip_char, dotted, decimal, is_digit. repeat case_match; intros; simplify_eq; norm; lia. Qed.

Lemma takes_octet i : takes dotted (read_octet i).
Proof.
  apply takes_separator; [by left|]. apply takes_number. intros b d H. right. by eapply digit_decimal.
Qed.

(** One step of a parser written with [let+]. *)
Ltac take_step L :=
  match goal with |- match ?e with _ => _ end = _ → _ =>
    let E := fresh "E" in destruct e as [[? ?]|] eqn:E; [|done]; apply L in E as (? & -> & ?) end.

Lemma takes_ipv4 : takes dotted read_ipv4_addr.
Proof.
  intros s a r. unfold read_ipv4_addr. do 4 take_step takes_octet. intros [= _ ->].
  eexists. rewrite !app_assoc. split; [done|]. by rewrite !Forall_app.
Qed.

Lemma takes_groups limit i s gs e r :
  read_groups limit i s = (gs, e, r) → ∃ c, s = c ++ r ∧ Forall ip_char c.
Proof.
  assert (H4 : ∀ j, takes ip_char (read_separator 58 j read_ipv4_addr)).
  { intros j. apply takes_separator; [by right; left|].
    eapply takes_weaken; [|apply takes_ipv4]. by left. }
  assert (H6 : ∀ j, takes ip_char (read_separator 58 j (read_number 16 16 (Some 4%nat) true))).
  { intros j. apply takes_separator; [by right; left | apply takes_number; apply digit_hex]. }
  revert i s gs e; induction limit as [|more IH]; intros i s gs e; cbn [read_groups].
  { intros [= _ _ ->]. by exists []. }
  assert (Hg : match read_separator 58 i (read_number 16 16 (Some 4%nat) true) s with
      | Some (g, s) => let '(gs, e, s) := read_groups more (S i) s in (g :: gs, e, s)
      | None => ([], false, s)
      end = (gs, e, r) → ∃ c, s = c ++ r ∧ Forall ip_char c).
  { destruct (read_separator 58 i _ s) as [[g s1]|] eqn:E.
    - apply H6 in E as (c & -> & Hc). destruct (read_groups more (S i) s1) as [[gs' e'] s2] eqn:E2.
      intros [= _ _ ->]. apply IH in E2 as (c' & -> & Hc'). exists (c ++ c').
      by rewrite Forall_app, app_assoc.
    - intros [= _ _ ->]. by exists []. }
  destruct more as [|more]; [exact Hg|].
  destruct (read_separator 58 i read_ipv4_addr s) as [[o s1]|] eqn:E; [|exact Hg].
  destruct o as [|? [|? [|? [|? [|]]]]]; try exact Hg.
  intros [= _ _ ->]. by apply H4 in E.
Qed.

Lemma takes_ipv6 : takes ip_char read_ipv6_addr.
Proof.
  assert (Hc : takes ip_char (read_given_char 58)) by (apply takes_char; by right; left).
  intros s a r. unfold read_ipv6_addr.
  destruct (read_groups 8 0 s) as [[hd h4] s1] eqn:E. apply takes_groups in E as (c & -> & Hh).
  destruct (length hd =? 8)%nat; [intros [= _ ->]; by exists c|]. destruct h4; [done|].
  do 2 take_step Hc.
  match goal with |- context[read_groups ?l 0 ?s] => destruct (read_groups l 0 s) as [[tl t4] s4] eqn:E4 end.
  apply takes_groups in E4 as (c' & -> & Ht). intros [= _ ->].
  eexists. rewrite !app_assoc. split; [done|]. by rewrite !Forall_app.
Qed.

(** An IP address is written with hexadecimal digits, dots and colons. *)
Lemma parse_ip_chars h a : parse_ip h = Some a → Forall ip_char h.
Proof.
  unfold parse_ip, parse_all, read_ip_addr.
  destruct (read_ipv4_addr h) as [[o r]|] eqn:E4.
  - destruct r; [|done]. intros _. apply takes_ipv4 in E4 as (c & -> & Hc). rewrite app_nil_r.
    eapply Forall_impl; [exact Hc|]. by left.
  - destruct (read_ipv6_addr h) as [[o r]|] eqn:E6; [|done]. destruct r; [|done]. intros _.
    apply takes_ipv6 in E6 as (c & -> & Hc). by rewrite app_nil_r.
Qed.

(** A socket address without brackets has a single colon. *)
Lemma parse_sockaddr_colon s a :
  parse_sockaddr s = Some a → head s ≠ Some 91 → ∃ c d, s = c ++ 58 :: d ∧ 58 ∉ c ∧ 58 ∉ d.
Proof.
  assert (Hd : ∀ c, Forall dotted c → 58 ∉ c).
  { intros c Hc Hin. rewrite Forall_forall in Hc. apply Hc in Hin. unfold dotted, decimal in Hin. lia. }
  intros H Hn. unfold parse_sockaddr, parse_all, read_socket_addr in H.
  destruct (read_socket_addr_v4 s) as [[x r]|] eqn:E.
  - destruct r; [|done]. revert E. unfold read_socket_addr_v4. take_step takes_ipv4.
    destruct (read_port l0) as [[p t']|] eqn:Ep; [|done]. intros [= _ ->]. unfold read_port in Ep.
    destruct (read_given_char 58 l0) as [[[] t]|] eqn:Eg; [|done]. rename Ep into Et.
    apply (takes_number dotted) in Et as (d & -> & Hd'); [|intros ? ? ?; right; by eapply digit_decimal].
    destruct l0 as [|b l0]; [done|]. cbn in Eg. destruct (b =? 58) eqn:Eb; [|done].
    apply Z.eqb_eq in Eb as ->. injection Eg as ->. rewrite app_nil_r. exists x0, d. auto.
  - destruct s as [|b s]; [done|]. unfold read_socket_addr_v6 in H.
    cbn [read_given_char] in H. destruct (b =? 91) eqn:Eb; [|done]. apply Z.eqb_eq in Eb as ->. by destruct Hn.
Qed.

(** ** Which name servers are accepted *)

Lemma ip_char_hex b : ip_char b → b ≠ 117 ∧ b ≠ 116 ∧ b ≠ 104 ∧ b ≠ 91.
Proof. unfold ip_char, dotted, decimal. lia. Qed.

Lemma strip_prefix_ne c p b s : b ≠ c → strip_prefix (c :: p) (b :: s) = None.
Proof.
  intros H. unfold strip_prefix. cbn [starts_with]. rewrite (proj2 (Z.eqb_neq c b)) by congruence. done.
Qed.

Lemma trim_start_matches_ne c p b s : b ≠ c → trim_start_matches (c :: p) (b :: s) = b :: s.
Proof. intros H. unfold trim_start_matches. cbn [length trim_start_matches_go]. by rewrite strip_prefix_ne. Qed.

(** A server that starts like an address has no scheme. *)
Lemma normalize_plain b s : ip_char b →
  normalize_dns_addr (b :: s) =
    if negb (contains [58] (b :: s)) then parse_addr ((b :: s) ++ bs ":53")
    else match rsplitn2 58 (b :: s) with
         | [p; h] =>
           if bool_decide (is_Some (parse_ip h)) then parse_addr (b :: s)
           else parse_addr (bs "[" ++ trim_end_char 91 (trim_start_char 91 h) ++ bs "]:" ++ p)
         | _ => Panic
         end.
Proof.
  intros (Hu & Ht & Hh & Hb)%ip_char_hex. unfold normalize_dns_addr. cbn [bs].
  change (trim_start_matches (bs "udp://") (b :: s)) with (trim_start_matches (117 :: bs "dp://") (b :: s)).
  rewrite trim_start_matches_ne by done.
  change (trim_start_matches (bs "tcp://") (b :: s)) with (trim_start_matches (116 :: bs "cp://") (b :: s)).
  rewrite trim_start_matches_ne by done.
  change (strip_prefix (bs "https://") (b :: s)) with (strip_prefix (104 :: bs "ttps://") (b :: s)).
  rewrite strip_prefix_ne by done.
  change (strip_prefix (bs "tls://") (b :: s)) with (strip_prefix (116 :: bs "ls://") (b :: s)).
  rewrite strip_prefix_ne by done.
  assert (starts_with [91] (b :: s) = false) as ->; [|done].
  cbn [starts_with]. rewrite (proj2 (Z.eqb_neq 91 b)) by congruence. done.
Qed.

Lemma show_v4_head o : ip_wf (V4 o) → ∃ b s, show_v4 o = b :: s ∧ ip_char b.
Proof.
  intros Ho. pose proof (parse_ip_chars _ _ (parse_show_v4 o Ho)) as Hc.
  destruct (show_v4 o) as [|b s] eqn:E; [|apply Forall_inv in Hc; eauto].
  apply parse_show_v4 in Ho. by rewrite E in Ho.
Qed.

Lemma show_v4_plain o c : ip_wf (V4 o) → (c < 46 ∨ c = 47 ∨ 57 < c < 97 ∨ 102 < c) → c ∉ show_v4 o.
Proof. intros [_ Ho]. by apply show_v4_no. Qed.

Lemma contains_1 c s : contains [c] s = true ↔ c ∈ s.
Proof.
  rewrite contains_iff. split.
  - intros (a & b & ->). set_solver.
  - intros (a & b & ->)%list_elem_of_split. by exists a, b.
Qed.
Lemma contains_1_false c s : contains [c] s = false ↔ c ∉ s.
Proof. rewrite <- contains_1. by destruct (contains [c] s). Qed.

(** IPv4 servers: the default port, an explicit port, DNS over TLS, and DNS
    over HTTPS, whose path is dropped. *)
Theorem normalize_v4 o p path :
  ip_wf (V4 o) → is_u16 p →
  normalize_dns_addr (show_v4 o) = Ok (sa_new (V4 o) 53)
  ∧ normalize_dns_addr (show_v4 o ++ 58 :: show_dec p) = Ok (sa_new (V4 o) p)
  ∧ normalize_dns_addr (bs "tls://" ++ show_v4 o) = Ok (sa_new (V4 o) 853)
  ∧ normalize_dns_addr (bs "https://" ++ show_v4 o ++ 47 :: path) = Ok (sa_new (V4 o) 443).
Proof.
  intros Ho Hp. destruct (show_v4_head o Ho) as (b & s & Es & Hb).
  assert (Hport : ∀ q, is_u16 q → parse_addr (show_v4 o ++ 58 :: show_dec q) = Ok (sa_new (V4 o) q)).
  { intros q Hq. unfold parse_addr. by rewrite parse_show_sockaddr_v4. }
  split; [|split; [|split]].
  - rewrite Es, normalize_plain, <- Es by done.
    rewrite (proj2 (contains_1_false 58 _)) by (apply show_v4_plain; [done | lia]).
    apply (Hport 53). by_decide.
  - assert (E : show_v4 o ++ 58 :: show_dec p = b :: (s ++ 58 :: show_dec p)) by by rewrite Es.
    rewrite E, normalize_plain, <- E by done.
    rewrite (proj2 (contains_1 58 _)) by set_solver. cbn [negb]. unfold rsplitn2.
    rewrite rsplit_once_app by (apply show_dec_no; unfold is_u16, in_range in Hp; lia).
    rewrite parse_show_v4, bool_decide_true by done. by apply Hport.
  - transitivity (parse_addr (show_v4 o ++ bs ":853")); [reflexivity|]. apply (Hport 853). by_decide.
  - transitivity (parse_addr (default (show_v4 o ++ 47 :: path)
      (head (split 47 (show_v4 o ++ 47 :: path))) ++ bs ":443")); [reflexivity|].
    rewrite split_app by (apply show_v4_plain; [done | lia]). apply (Hport 443). by_decide.
Qed.

Lemma normalize_v4_witness :
  normalize_dns_addr (bs "https://1.1.1.1/dns-query") = Ok (sa_new (V4 [1; 1; 1; 1]) 443).
Proof. apply (normalize_v4 [1; 1; 1; 1] 53 (bs "dns-query")); by_decide. Defined.

(** An IPv6 server without brackets is refused with any port: the branch for
    addresses parses the text as it stands, which needs the brackets. *)
Theorem normalize_bare_v6 h a p :
  parse_ip h = Some a → 58 ∈ h → 58 ∉ p →
  normalize_dns_addr (h ++ 58 :: p) = Err (bs "invalid socket address syntax").
Proof.
  intros Ha Hh Hp. pose proof (parse_ip_chars _ _ Ha) as Hc.
  destruct h as [|b s]; [set_solver|]. apply Forall_inv in Hc.
  pose proof (normalize_plain b (s ++ 58 :: p) Hc) as E.
  change (b :: s ++ 58 :: p) with ((b :: s) ++ 58 :: p) in E. rewrite E.
  rewrite (proj2 (contains_1 58 _)) by set_solver. cbn [negb]. unfold rsplitn2.
  rewrite rsplit_once_app, bool_decide_true by (done || by eexists).
  unfold parse_addr. destruct (parse_sockaddr _) as [x|] eqn:Ex; [|done]. exfalso.
  apply parse_sockaddr_colon in Ex as (c & d & E2 & Hcc & Hd).
  - apply (f_equal (rsplit_once 58)) in E2. rewrite !rsplit_once_app in E2 by done.
    injection E2 as E2 _. by rewrite <- E2 in Hcc.
  - destruct (ip_char_hex b Hc) as (_ & _ & _ & Hne). cbn. congruence.
Qed.

Lemma normalize_bare_v6_witness :
  normalize_dns_addr (bs "2001:4860:4860::8888:53") = Err (bs "invalid socket address syntax").
Proof.
  apply (normalize_bare_v6 (bs "2001:4860:4860::8888")
    (V6 [32; 1; 72; 96; 72; 96; 0; 0; 0; 0; 0; 0; 0; 0; 136; 136]) (bs "53"));
    [vm_compute; reflexivity | by_decide | by_decide].
Defined.

(** Without a port the last group of a bare IPv6 address is taken for one. *)
Example normalize_bare_v6_no_port :
  normalize_dns_addr (bs "2001:4860:4860::8888") = Err (bs "invalid socket address syntax")
  ∧ normalize_dns_addr (bs "::1") = Err (bs "invalid socket address syntax").
Proof. split; vm_compute; reflexivity. Qed.
(** The last branch serves addresses with a zone. *)
Example normalize_scoped_v6 :
  normalize_dns_addr (bs "fe80::1%3:53")
  = Ok (mk_sockaddr (V6 ([254; 128] ++ replicate 13 0 ++ [1])) 53 3).
Proof. vm_compute. reflexivity. Qed.

Lemma normalize_never_panics s : normalize_dns_addr s ≠ Panic.
Proof.
  unfold normalize_dns_addr.
  assert (Hp : ∀ t, parse_addr t ≠ Panic) by (intros t; unfold parse_addr; by destruct (parse_sockaddr t)).
  set (u := trim_start_matches _ _). destruct (strip_prefix _ u); [apply Hp|].
  destruct (strip_prefix _ u); [apply Hp|]. destruct (contains [58] u) eqn:E; cbn [negb]; [|apply Hp].
  destruct (starts_with _ u); [apply Hp|].
  assert (∃ h t, rsplit_once 58 u = Some (h, t)) as (h & t & Hs).
  { apply contains_1 in E. apply list_elem_of_split_r in E as (h & t & -> & Ht).
    exists h, t. by apply rsplit_once_app. }
  unfold rsplitn2. rewrite Hs. case_bool_decide; apply Hp.
Qed.

Lemma add_name_servers l acc r :
  try_fold add_name_server acc l = Ok r ↔
    ∃ t, r = acc ++ t ∧ Forall2 (λ s a, normalize_dns_addr s = Ok a) l t.
Proof.
  revert acc; induction l as [|s l IH]; intros acc; cbn [try_fold].
  - split; [intros [= ->]; exists []; by rewrite app_nil_r|].
    intros (t & -> & ->%Forall2_nil_inv_l). by rewrite app_nil_r.
  - unfold add_name_server at 1. destruct (normalize_dns_addr s) as [a|e|] eqn:E.
    + rewrite IH. split.
      * intros (t & -> & Ht). exists (a :: t). rewrite <- app_assoc. split; [done|]. by constructor.
      * intros (t & -> & (a' & t' & Ha & Ht & ->)%Forall2_cons_inv_l). rewrite E in Ha. injection Ha as ->.
        exists t'. by rewrite <- app_assoc.
    + split; [done|]. intros (t & _ & (a' & t' & Ha & _)%Forall2_cons_inv_l). congruence.
    + split; [done|]. intros (t & _ & (a' & t' & Ha & _)%Forall2_cons_inv_l). congruence.
Qed.

Lemma hickory_new_parts servers h :
  hickory_new servers = Ok h ↔
    servers ≠ [] ∧ Forall2 (λ s a, normalize_dns_addr s = Ok a) servers (name_servers h).
Proof.
  unfold hickory_new. pose proof (add_name_servers servers []) as Hf. destruct h as [t].
  case_bool_decide as Hs; [split; [done | by intros []]|]. split.
  - destruct (try_fold _ [] servers) as [l| |]; [|done..]. intros [= ->].
    destruct (proj1 (Hf t) eq_refl) as (? & -> & ?). done.
  - intros [_ H]. by rewrite (proj2 (Hf t)) by (by exists t).
Qed.

(** No text of a server stops the program. *)
Lemma hickory_new_never_panics servers : hickory_new servers ≠ Panic.
Proof.
  unfold hickory_new. case_bool_decide; [done|]. generalize (@nil SocketAddr).
  assert (HP : ∀ acc, try_fold add_name_server acc servers ≠ Panic).
  { clear. induction servers as [|s l IH]; intros acc; cbn [try_fold]; [done|]. unfold add_name_server at 1.
    pose proof (normalize_never_panics s). by destruct (normalize_dns_addr s). }
  intros acc. specialize (HP acc). by destruct (try_fold _ acc servers).
Qed.
