(* ===== verification/Node.v ===== *)
(** * Node: inbound plans

    [omni-core/src/runtime/assembly/node_builder.rs]: from the configured
    inbounds to the plans the runtime listens with, and [resolve_tls_pems] of
    [omni-transport/src/tls/mod.rs].  Certificate generation (rcgen), SHA-224
    and the file system are arguments. *)

From S2P Require Import Prelude Text Net Socks5 Geo Config Crypto.

(** The SHA-2 digests of the [sha2] crate. *)
Class Sha2 := {
  sha224 : list Z → list Z;
  sha256 : list Z → list Z;
  sha224_ok : ∀ m, length (sha224 m) = 28%nat ∧ bytes (sha224 m);
  sha256_ok : ∀ m, length (sha256 m) = 32%nat ∧ bytes (sha256 m)
}.

(** [crypto::sha224_hex] and the trojan [password_hash]. *)
Definition sha224_hex `{Sha2} (data : list Z) : str := hex_encode (sha224 data).
Definition password_hash `{Sha2} (password : str) : str := sha224_hex password.

(** ** Mux kinds ([omni-mux/src/session.rs]) *)

Inductive MuxKind := Smux | Yamux.

#[export] Instance MuxKind_eq_dec : EqDecision MuxKind.
Proof. solve_decision. Defined.

Definition mux_parse (s : str) : option MuxKind :=
  let s := to_ascii_lowercase s in
  if bool_decide (s = bs "smux") then Some Smux
  else if bool_decide (s = bs "yamux") then Some Yamux
  else None.
Definition mux_as_str (k : MuxKind) : str :=
  match k with Smux => bs "smux" | Yamux => bs "yamux" end.

(** ** Server certificates *)

Record ServerCertMaterial := mk_cert { cert_pem : list Z; key_pem : list Z }.

(** [files] is [std::fs::read]; [generate] is [generate_self_signed]. *)
Definition resolve_tls_pems (files : fs) (generate : str → res str ServerCertMaterial)
    (spec : TlsInboundSpecWire) (email_present : bool) : res str ServerCertMaterial :=
  let is_ t := bool_decide (cert_mode spec = Some t) in
  if is_ (bs "file") then
    let cf := default [] (cert_file spec) in
    let kf := default [] (key_file spec) in
    if bool_decide (cf = []) || bool_decide (kf = [])
    then Err (bs "cert_mode=file requires cert_file and key_file paths") else
    let? cert := map_err (λ e, bs "cert: failed to read " ++ cf ++ bs ": " ++ e) (files cf) in
    let? key := map_err (λ e, bs "cert: failed to read " ++ kf ++ bs ": " ++ e) (files kf) in
    Ok (mk_cert cert key)
  else if is_ (bs "content") then
    let cert := default [] (cert_content spec) in
    let key := default [] (key_content spec) in
    if bool_decide (cert = []) then Err (bs "cert_mode=content requires cert_content")
    else if bool_decide (key = []) then Err (bs "cert_mode=content requires key_content")
    else Ok (mk_cert cert key)
  else if is_ (bs "self") then
    let domain := default [] (cert_domain spec) in
    if bool_decide (domain = []) then Err (bs "cert_mode=self requires cert_domain")
    else map_err (λ e, bs "cert.generate: " ++ e) (generate domain)
  else if is_ (bs "acme") then
    if negb email_present then Err (bs "acme.email must not be empty")
    else Err (bs "acme: no DNS provider configured in this build")
  else Err (bs "cert: unsupported cert_mode: " ++ default [] (cert_mode spec)).

(** ** Plans *)

Record TlsServerSetup := mk_tls_setup {
  material_cert : list Z;
  material_key : list Z;
  setup_alpn : list str
}.

Inductive InboundProto :=
| ISocks (c : SocksInboundConfig)
| ITrojan (hash : str)
| IShadowsocks (method password : str)
| IVless (uuids : list (list Z))
| IVmess (uuids : list (list Z))
| IHysteria2 (password : str) (tls : option TlsServerSetup)
| IAnytls (password : str)
| INaive
| IMieru (username password : str).

Inductive WrapTransport :=
| WNone
| WWs (path host : option str) (max_streams : option Z)
| WHttpUp (path host : option str)
| WGrpc (service : str)
| WH2 (path host : option str).

Record NodePlan := mk_plan {
  p_tag : str;
  p_proto : InboundProto;
  p_listen : list SocketAddr;
  p_tls : option TlsServerSetup;
  p_wrap : WrapTransport;
  p_accept_pp : bool;
  p_accept_udp_pp : bool;
  p_udp : bool;
  p_mux : option MuxKind
}.

(** [r.from..=r.to] on [u16]. *)
Definition port_range (from to : Z) : list Z := seqZ from (to - from + 1).

Definition opt_list {A} (o : option (list A)) : list A := default [] o.

Section Nodes.
Context `{JS : Json} `{SH : Sha2}.
Context (files : fs) (generate : str → res str ServerCertMaterial).

Definition add_range (ports : list Z) (r : Z * Z) : res str (list Z) :=
  let '(from, to) := r in
  if to <? from
  then Err (bs "invalid port range " ++ show_dec from ++ bs "-" ++ show_dec to)
  else Ok (ports ++ port_range from to).

Definition expand_listen_addrs (node : NodeConfigWire) : res str (list SocketAddr) :=
  let? listen_ip :=
    (match n_listen node with
     | Some s =>
       if bool_decide (s = []) then Ok (V4 [0; 0; 0; 0])
       else ok_or (bs "invalid listen address '" ++ s ++ bs "': invalid IP address syntax")
              (parse_ip (trim_end_char 93 (trim_start_char 91 s)))
     | None => Ok (V4 [0; 0; 0; 0])
     end) in
  let ports := match n_port node with Some p => [p] | None => [] end in
  let ports := ports ++ opt_list (n_ports node) in
  let? ports := try_fold add_range ports (opt_list (n_port_ranges node)) in
  if bool_decide (ports = []) then Err (bs "missing listen_port") else
  Ok (map (sa_new listen_ip) ports).

Definition need_field (m : gmap str value) (proto k : str) : res str str :=
  ok_or (proto ++ bs " inbound requires a non-empty '" ++ k ++ bs "'") (str_field m k).

(** The strings of the ["users"] array. *)
Definition users_of (m : gmap str value) : list str :=
  match m !! bs "users" ≫= as_array with
  | Some arr => omap as_str arr
  | None => []
  end.

Definition push_uuid (err : str → str) (acc : list (list Z)) (u : str) : res str (list (list Z)) :=
  let? b := ok_or (err u) (parse_uuid u) in Ok (acc ++ [b]).

(** The certificate of an inbound with the given ALPN, when TLS is on. *)
Definition tls_setup (node : NodeConfigWire) (alpn : TlsInboundSpecWire → list str)
    : res str (option TlsServerSetup) :=
  match n_tls node with
  | Some ts =>
    if tls_enabled ts || negb (bool_decide (cert_mode ts = None)) then
      let? m := resolve_tls_pems files generate ts false in
      Ok (Some (mk_tls_setup (cert_pem m) (key_pem m) (alpn ts)))
    else Ok None
  | None => Ok None
  end.

(** The [match node.type] of [build_node_plans]; the hysteria2 arm's
    placeholder is replaced at the end of the round, here at once. *)
Definition build_proto (node : NodeConfigWire) : res str InboundProto :=
  let m := n_fields node in
  let is_ t := bool_decide (n_type node = t) in
  if is_ (bs "socks") || is_ (bs "socks5") then Ok (ISocks (mk_socks_in None None))
  else if is_ (bs "trojan") then
    let? pass := need_field m (bs "trojan") (bs "password") in
    Ok (ITrojan (password_hash pass))
  else if is_ (bs "shadowsocks") || is_ (bs "ss") then
    let? method := need_field m (bs "shadowsocks") (bs "method") in
    let? password := need_field m (bs "shadowsocks") (bs "password") in
    Ok (IShadowsocks method password)
  else if is_ (bs "vmess") then
    let err u := bs "vmess: invalid UUID '" ++ u ++ bs "'" in
    let? parsed := try_fold (push_uuid err) [] (users_of m) in
    let? parsed := match str_field m (bs "uuid") with
                   | Some single => push_uuid err parsed single
                   | None => Ok parsed
                   end in
    if bool_decide (parsed = []) then Err (bs "vmess inbound requires at least one user uuid")
    else Ok (IVmess parsed)
  else if is_ (bs "hysteria2") || is_ (bs "hy2") then
    let? password := need_field m (bs "hysteria2") (bs "password") in
    let? tls := tls_setup node (λ _, [bs "h3"]) in
    Ok (IHysteria2 password tls)
  else if is_ (bs "naive") then Ok INaive
  else if is_ (bs "mieru") then
    let? username := need_field m (bs "mieru") (bs "username") in
    let? password := need_field m (bs "mieru") (bs "password") in
    Ok (IMieru username password)
  else if is_ (bs "anytls") then
    let? password := need_field m (bs "anytls") (bs "password") in
    Ok (IAnytls password)
  else if is_ (bs "vless") then
    let uuids := match str_field m (bs "uuid") with Some u => [u] | None => [] end ++ users_of m in
    let? parsed := try_fold
      (push_uuid (λ u, bs "vmess: invalid UUID in extra[" ++ [34] ++ bs "users" ++ [34] ++ bs "] array: " ++ u))
      [] uuids in
    if bool_decide (parsed = []) then Err (bs "vless inbound requires at least one user uuid")
    else Ok (IVless parsed)
  else Err (bs "inbound protocol '" ++ n_type node ++ bs "' not yet implemented").

Definition build_wrap (node : NodeConfigWire) : WrapTransport :=
  match n_ws node, n_httpup node, n_grpc node, n_h2 node with
  | Some ws, _, _, _ => WWs (ws_path ws) (ws_host ws) (ws_max_streams ws)
  | None, Some h, _, _ => WHttpUp (ph_path h) (ph_host h)
  | None, None, Some g, _ => WGrpc (default (bs "GunService") g)
  | None, None, None, Some h => WH2 (ph_path h) (ph_host h)
  | None, None, None, None => WNone
  end.

Definition plan_mux (node : NodeConfigWire) : res str (option MuxKind) :=
  if n_mux_enabled node then
    let kind := default (bs "smux") (n_mux node ≫= id) in
    match mux_parse kind with
    | Some k => Ok (Some k)
    | None => Err (bs "mux kind '" ++ kind ++ bs "' not yet supported")
    end
  else Ok None.

(** One round of the loop of [build_node_plans]. *)
Definition build_plan (i : nat) (node : NodeConfigWire) : res str NodePlan :=
  let tag := if bool_decide (n_tag node = []) then bs "in-" ++ show_dec (Z.of_nat i) else n_tag node in
  let? addrs := expand_listen_addrs node in
  let? proto := build_proto node in
  let? tls := tls_setup node (λ ts, opt_list (tls_alpn ts)) in
  let wrap := build_wrap node in
  let? inbound_mux := plan_mux node in
  Ok (mk_plan tag proto addrs tls wrap
        (n_accept_proxy_protocol node || n_enable_proxy_protocol node)
        (n_accept_udp_proxy_protocol node || n_enable_udp_proxy_protocol node)
        true inbound_mux).

Fixpoint build_plans_from (i : nat) (nodes : list NodeConfigWire) : res str (list NodePlan) :=
  match nodes with
  | [] => Ok []
  | n :: nodes =>
    let? p := build_plan i n in
    let? ps := build_plans_from (S i) nodes in
    Ok (p :: ps)
  end.
Definition build_node_plans (wire : RuntimeConfigWire) : res str (list NodePlan) :=
  build_plans_from 0 (w_nodes wire).

(** ** What the plans are *)

(** The ports of an inbound in the order of the configuration. *)
Definition configured_ports (node : NodeConfigWire) : list Z :=
  match n_port node with Some p => [p] | None => [] end
  ++ opt_list (n_ports node)
  ++ concat (map (λ r : Z * Z, port_range r.1 r.2) (opt_list (n_port_ranges node))).

Definition listen_ip (node : NodeConfigWire) : option IpAddr :=
  match n_listen node with
  | Some (b :: s) => parse_ip (trim_end_char 93 (trim_start_char 91 (b :: s)))
  | _ => Some (V4 [0; 0; 0; 0])
  end.

Lemma add_ranges_ok rs ports ports' :
  try_fold add_range ports rs = Ok ports' ↔
  Forall (λ r : Z * Z, r.1 ≤ r.2) rs
  ∧ ports' = ports ++ concat (map (λ r : Z * Z, port_range r.1 r.2) rs).
Proof.
  revert ports; induction rs as [|[a b] rs IH]; intros ports; cbn [try_fold map concat].
  - rewrite app_nil_r. split; [intros [= ->] | intros [_ ->]]; [|done]. by split; [constructor|].
  - unfold add_range at 1. rewrite Forall_cons. cbn [fst snd].
    destruct (b <? a) eqn:E; norm.
    + split; [done | intros [[? _] _]; lia].
    + rewrite IH, <- app_assoc. split; [by intros [? ->] | by intros [[_ ?] ->]].
Qed.

(** An inbound listens on exactly the configured ports.  Expansion
    succeeds when the listen address parses (brackets allowed, empty or absent
    for 0.0.0.0), every range is ordered and at least one port is named; the
    addresses are then that IP with the single port, the list and the ranges
    in that order, range ends included. *)
Theorem expand_listen_spec node addrs :
  expand_listen_addrs node = Ok addrs ↔
  ∃ i, listen_ip node = Some i
    ∧ Forall (λ r : Z * Z, r.1 ≤ r.2) (opt_list (n_port_ranges node))
    ∧ configured_ports node ≠ [] ∧ addrs = map (sa_new i) (configured_ports node).
Proof.
  unfold expand_listen_addrs, listen_ip, configured_ports.
  set (base := match n_port node with Some p => [p] | None => [] end).
  assert (Hk : ∀ i, (let? ports := try_fold add_range (base ++ opt_list (n_ports node))
                       (opt_list (n_port_ranges node)) in
                     if bool_decide (ports = []) then Err (bs "missing listen_port")
                     else Ok (map (sa_new i) ports)) = Ok addrs ↔
     Forall (λ r : Z * Z, r.1 ≤ r.2) (opt_list (n_port_ranges node))
     ∧ base ++ opt_list (n_ports node) ++ concat (map (λ r : Z * Z, port_range r.1 r.2) (opt_list (n_port_ranges node))) ≠ []
     ∧ addrs = map (sa_new i) (base ++ opt_list (n_ports node) ++ concat (map (λ r : Z * Z, port_range r.1 r.2) (opt_list (n_port_ranges node))))).
  { intros i. destruct (try_fold _ _ _) as [ps| |] eqn:E.
    - apply add_ranges_ok in E as [H1 ->]. rewrite <- app_assoc.
      destruct (bool_decide_reflect (base ++ opt_list (n_ports node) ++ concat (map (λ r : Z * Z, port_range r.1 r.2) (opt_list (n_port_ranges node))) = [])) as [Hn|Hn].
      + split; [done | by intros (_ & ? & _)].
      + split; [intros [= <-] | intros (_ & _ & ->)]; done.
    - split; [done|]. intros (H & _). assert (Hx := proj2 (add_ranges_ok _ (base ++ opt_list (n_ports node)) _) (conj H eq_refl)). congruence.
    - split; [done|]. intros (H & _). assert (Hx := proj2 (add_ranges_ok _ (base ++ opt_list (n_ports node)) _) (conj H eq_refl)). congruence. }
  destruct (n_listen node) as [[|b s]|]; cbv beta iota zeta; rewrite ?bool_decide_true by done.
  1, 3: rewrite Hk; split; [intros H; by exists (V4 [0; 0; 0; 0]) | by intros (? & [= <-] & H)].
  rewrite bool_decide_false by done.
  destruct (parse_ip _) as [i|]; cbn [ok_or].
  - rewrite Hk. split; [intros H; by exists i | by intros (? & [= <-] & H)].
  - split; [done | by intros (? & ? & _)].
Qed.

(** Every plan comes from its inbound, in order. *)
Lemma build_plans_lookup nodes i ps :
  build_plans_from i nodes = Ok ps →
  Forall2 (λ '(k, n) p, build_plan k n = Ok p) (zip (seq i (length nodes)) nodes) ps.
Proof.
  revert i ps; induction nodes as [|n nodes IH]; intros i ps; cbn [build_plans_from].
  - intros [= <-]. constructor.
  - destruct (build_plan i n) as [p| |] eqn:E; [|done..].
    destruct (build_plans_from (S i) nodes) as [ps'| |] eqn:E2; [|done..].
    intros [= <-]. cbn. constructor; [done | by apply IH].
Qed.

Definition proto_wf (p : InboundProto) : Prop :=
  match p with
  | ISocks c => c = mk_socks_in None None
  | ITrojan h => length h = 56%nat
  | IVless us | IVmess us => us ≠ [] ∧ Forall (λ u, length u = 16%nat) us
  | _ => True
  end.

Lemma push_uuids_wf err us acc acc' :
  Forall (λ u, length u = 16%nat) acc → try_fold (push_uuid err) acc us = Ok acc' →
  Forall (λ u, length u = 16%nat) acc'.
Proof.
  revert acc; induction us as [|u us IH]; intros acc Ha; cbn [try_fold]; [by intros [= <-]|].
  unfold push_uuid at 1. destruct (parse_uuid u) as [b|] eqn:E; cbn [ok_or]; [|done].
  apply IH, Forall_app. split; [done|]. constructor; [by eapply parse_uuid_length | done].
Qed.

Lemma build_proto_wf node p : build_proto node = Ok p → proto_wf p.
Proof.
  unfold build_proto. intros H.
  repeat match type of H with
  | (if ?b then _ else _) = _ => destruct b eqn:?
  | (let? _ := ?e in _) = _ => destruct e eqn:?; try done
  end; try done; injection H as <-; cbn; try done.
  - unfold password_hash, sha224_hex. by rewrite hex_encode_length, (proj1 (sha224_ok _)).
  - norm. split; [done|]. case_match.
    + eapply (push_uuids_wf _ [_]); [eapply push_uuids_wf; [constructor | eassumption]|].
      cbn [try_fold]. by match goal with H : push_uuid _ _ _ = _ |- _ => rewrite H end.
    + norm. eapply push_uuids_wf; [constructor | eassumption].
  - norm. split; [done|]. eapply push_uuids_wf; [constructor | eassumption].
Qed.

(** C40: the plans of a configuration are usable.  There is one plan per
    inbound, in order, listening on a non-empty list of addresses; a trojan
    plan carries a 56-character hash, a VLESS or VMess plan at least one user
    and only 16-byte identifiers.  A SOCKS plan never carries credentials:
    whatever the configuration says, its listener runs without
    authentication. *)
Theorem plans_sound wire ps :
  build_node_plans wire = Ok ps →
  Forall2 (λ n p, expand_listen_addrs n = Ok (p_listen p) ∧ p_listen p ≠ [] ∧ proto_wf (p_proto p))
    (w_nodes wire) ps.
Proof.
  unfold build_node_plans. intros H. apply build_plans_lookup in H. revert H.
  generalize 0%nat. generalize (w_nodes wire). intros ns. revert ps.
  induction ns as [|n ns IH]; intros ps i H; cbn [length seq zip_with] in H.
  - apply Forall2_nil_inv_l in H as ->. constructor.
  - apply Forall2_cons_inv_l in H as (p & ps' & Hp & H & ->). constructor; [|by eapply IH].
    unfold build_plan, plan_mux in Hp.
    destruct (expand_listen_addrs n) as [addrs| |] eqn:Ea; [|done..].
    destruct (build_proto n) as [pr| |] eqn:Eb; [|done..].
    destruct (tls_setup n _) as [t| |]; [|done..].
    match type of Hp with (let? _ := ?e in _) = _ => destruct e as [m| |]; [|done..] end.
    injection Hp as <-. cbn. split; [done|]. split; [|by eapply build_proto_wf].
    unfold expand_listen_addrs in Ea. ok_inv Ea; intros Hn; by apply map_eq_nil in Hn.
Qed.

End Nodes.

(** ** A concrete configuration *)

Inductive json := JNull | JBool (b : bool) | JNum (n : Z) | JStr (s : str)
| JArr (l : list json) | JObj (m : list (str * json)).

Definition tree_json : Json := {|
  value := json;
  as_str v := match v with JStr s => Some s | _ => None end;
  as_bool v := match v with JBool b => Some b | _ => None end;
  as_u64 v := match v with JNum n => Some n | _ => None end;
  as_array v := match v with JArr l => Some l | _ => None end;
  as_object v := match v with JObj m => Some m | _ => None end
|}.

(** A stand-in for the digests: the message's bytes, cut and padded. *)
Definition pad_hash (n : nat) (m : list Z) : list Z :=
  take n (map (wrap 8) m ++ replicate n 0).
Lemma pad_hash_ok n m : length (pad_hash n m) = n ∧ bytes (pad_hash n m).
Proof.
  unfold pad_hash. split; [len|]. apply bytes_take, bytes_app. split.
  - apply Forall_map, Forall_forall. intros. by apply wrap_range.
  - apply Forall_replicate. unfold in_range. lia.
Qed.
Definition pad_sha2 : Sha2 := {|
  sha224 := pad_hash 28;
  sha256 := pad_hash 32;
  sha224_ok := pad_hash_ok 28;
  sha256_ok := pad_hash_ok 32
|}.

Definition plain_node (ty : str) (port : Z) (fields : list (str * json)) : @NodeConfigWire tree_json :=
  @mk_node_wire tree_json ty [] (Some (bs "[::1]")) (Some port) None (Some [(9000, 9001)])
    false false false false false None None None None None None (list_to_map fields).

Definition example_wire : @RuntimeConfigWire tree_json :=
  @mk_runtime_wire tree_json []
    [plain_node (bs "socks") 1080 [(bs "username", JStr (bs "u")); (bs "password", JStr (bs "p"))];
     plain_node (bs "vless") 443 [(bs "users", JArr [JStr (bs "b831381d-6324-4d53-ad4f-8cda48b30811")])]]
    ∅ None None None.

Lemma plans_sound_witness :
  ∃ ps, @build_node_plans tree_json pad_sha2 (λ _, Err []) (λ _, Err []) example_wire = Ok ps
    ∧ Forall2 (λ n p, @expand_listen_addrs tree_json n = Ok (p_listen p) ∧ p_listen p ≠ []
                      ∧ proto_wf (p_proto p)) (w_nodes example_wire) ps
    ∧ map p_tag ps = [bs "in-0"; bs "in-1"]
    ∧ map (λ p, length (p_listen p)) ps = [3; 3]%nat.
Proof.
  eexists. split; [reflexivity|]. split.
  - apply (@plans_sound tree_json pad_sha2 (λ _, Err []) (λ _, Err []) example_wire). reflexivity.
  - vm_compute. auto.
Defined.
