(* ===== verification/Tls.v ===== *)
(** * Tls: certificates of the server and the trust of the client

    [omni-transport/src/tls/mod.rs]: [generate_self_signed],
    [build_client_config] and [NoVerifier]; [resolve_tls_pems] is in Node and
    the server configuration in Listener.  Generating keys and certificates
    ([rcgen]), verification against the built-in roots and the handshake
    itself (rustls) are arguments.  The reality and ktls modules of the crate
    only define an error type. *)

From S2P Require Import Prelude Text Net Node.

(** ** Self-signed certificates *)

Section SelfSigned.
Context {K : Type} (names_ok : list str → res str unit) (generate_key : res str K).
Context (sign : list str → str → K → res str (list Z)) (key_of : K → list Z).

Definition generate_self_signed (domain : str) : res str ServerCertMaterial :=
  let? _ := map_err (λ e, bs "invalid domain '" ++ domain ++ bs "': " ++ e) (names_ok [domain]) in
  let? key_pair := map_err (λ e, bs "key generation failed: " ++ e) generate_key in
  let? cert := map_err (λ e, bs "signing failed: " ++ e) (sign [domain] domain key_pair) in
  Ok (mk_cert cert (key_of key_pair)).
End SelfSigned.

(** ** Clients *)

Inductive SignatureScheme :=
| RSA_PKCS1_SHA256 | RSA_PKCS1_SHA384 | RSA_PKCS1_SHA512
| ECDSA_NISTP256_SHA256 | ECDSA_NISTP384_SHA384 | ECDSA_NISTP521_SHA512
| RSA_PSS_SHA256 | RSA_PSS_SHA384 | RSA_PSS_SHA512 | ED25519 | ED448.
#[export] Instance SignatureScheme_eq_dec : EqDecision SignatureScheme.
Proof. solve_decision. Defined.

(** What checks the server: nothing, or the built-in roots. *)
Inductive Verifier := NoVerifier | DefaultRoots.
Record ClientTlsSettings := mk_client_settings {
  skip_verify : bool;
  cs_alpn : list str;
  server_name_override : option str
}.
Record ClientConfig := mk_client_config { cc_verifier : Verifier; cc_alpn : list str }.

(** The configuration of the builder offers no protocols. *)
Definition apply_alpn (c : ClientConfig) (alpn : list str) : ClientConfig :=
  if bool_decide (alpn = []) then c else mk_client_config (cc_verifier c) alpn.
Definition build_client_config (s : ClientTlsSettings) : ClientConfig :=
  if skip_verify s then apply_alpn (mk_client_config NoVerifier []) (cs_alpn s)
  else apply_alpn (mk_client_config DefaultRoots []) (cs_alpn s).

Section Verify.
(** rustls on the built-in roots: the certificate for a name, a signature, and
    the schemes it takes. *)
Context {Cert Msg : Type} (webpki : Cert → str → bool) (webpki_sig : Cert → SignatureScheme → Msg → bool).
Context (webpki_schemes : list SignatureScheme).

Definition verify_server_cert (v : Verifier) (cert : Cert) (name : str) : bool :=
  match v with NoVerifier => true | DefaultRoots => webpki cert name end.
Definition verify_tls_signature (v : Verifier) (cert : Cert) (scheme : SignatureScheme) (m : Msg) : bool :=
  match v with NoVerifier => true | DefaultRoots => webpki_sig cert scheme m end.
Definition supported_verify_schemes (v : Verifier) : list SignatureScheme :=
  match v with
  | NoVerifier => [RSA_PKCS1_SHA256; ECDSA_NISTP256_SHA256; ED25519; RSA_PSS_SHA256]
  | DefaultRoots => webpki_schemes
  end.

(** A server is trusted when it signs with an offered scheme, for its name. *)
Definition trusts (c : ClientConfig) (cert : Cert) (name : str) (scheme : SignatureScheme) (m : Msg) : bool :=
  bool_decide (scheme ∈ supported_verify_schemes (cc_verifier c))
  && verify_server_cert (cc_verifier c) cert name && verify_tls_signature (cc_verifier c) cert scheme m.

(** Without [skip_verify] only servers with a certificate for the name and a
    valid signature are trusted; with it the certificate, the name and the
    signature play no part, and the schemes alone decide. *)
Theorem client_trust s cert name scheme m :
  trusts (build_client_config s) cert name scheme m = true ↔
    if skip_verify s then scheme ∈ [RSA_PKCS1_SHA256; ECDSA_NISTP256_SHA256; ED25519; RSA_PSS_SHA256]
    else scheme ∈ webpki_schemes ∧ webpki cert name = true ∧ webpki_sig cert scheme m = true.
Proof.
  assert (Hv : cc_verifier (build_client_config s) = if skip_verify s then NoVerifier else DefaultRoots).
  { unfold build_client_config, apply_alpn. by destruct (skip_verify s), (bool_decide _). }
  unfold trusts. rewrite Hv, !andb_true_iff, bool_decide_eq_true.
  destruct (skip_verify s); cbn [supported_verify_schemes verify_server_cert verify_tls_signature]; tauto.
Qed.

(** The protocols offered are those of the settings. *)
Lemma client_alpn s : cc_alpn (build_client_config s) = cs_alpn s.
Proof.
  unfold build_client_config, apply_alpn. destruct (skip_verify s); case_bool_decide as E; cbn; done.
Qed.
End Verify.
