(* ===== verification/Core.v ===== *)
(** * Core: connectors, the router and the assembly

    [omni-core/src/runtime/core.rs] (the JSON helpers, [build_connector],
    [rule_from_entry], [initialize], the authority parsers) and the router of
    [runtime/assembly/outbound_artifacts.rs].  Decoding of the base64 hijack
    response is the argument [b64] (the [base64] crate). *)

From S2P Require Import Prelude Text Net Io Matching Geo Config Resolver Crypto Node.

(** ** JSON helpers *)

Section Json.
Context `{JS : Json}.

Definition val_get (m : list (str * value)) (k : str) : option value := obj_get m k.

Definition json_str_arr (v : option value) : list str :=
  match v with
  | Some v =>
    match as_array v with
    | Some a => omap as_str a
    | None => match as_str v with Some s => [s] | None => [] end
    end
  | None => []
  end.

(** [x as u16] truncates. *)
Definition json_u16_arr (v : option value) : list Z :=
  match v with
  | Some v =>
    match as_array v with
    | Some a => map (wrap 16) (omap as_u64 a)
    | None => match as_u64 v with Some n => [u16! n] | None => [] end
    end
  | None => []
  end.

Definition get_obj (ob : OutboundSpecWire) (k : str) : option (list (str * value)) :=
  ob_rest ob !! k ≫= as_object.

(** [m.get(a).or_else(|| m.get(b))]. *)
Definition get_either (m : list (str * value)) (a b : str) : option value :=
  match val_get m a with Some v => Some v | None => val_get m b end.

Definition tls_obj_of (ob : OutboundSpecWire) : option (list (str * value)) := get_obj ob (bs "tls").

Definition tls_obj_and_insecure (ob : OutboundSpecWire) : bool :=
  default false (tls_obj_of ob ≫= λ m, val_get m (bs "insecure") ≫= as_bool).

Definition tls_obj_sni (ob : OutboundSpecWire) : option str :=
  tls_obj_of ob ≫= λ m, get_either m (bs "server_name") (bs "sni") ≫= as_str.

Record TlsClientSpec := mk_tls_client {
  skip_verify : bool;
  alpn : list str;
  sni_override : option str
}.

Definition parse_tls_client_spec (v : option value) : option TlsClientSpec :=
  let+ obj := v ≫= as_object in
  let enabled := default true (val_get obj (bs "enabled") ≫= as_bool) in
  if negb enabled && (length obj <=? 1)%nat then None else
  Some (mk_tls_client
          (default false (get_either obj (bs "insecure") (bs "skip_verify") ≫= as_bool))
          (json_str_arr (val_get obj (bs "alpn")))
          (get_either obj (bs "server_name") (bs "sni") ≫= as_str)).

Record TransportSpec := mk_transport {
  ts_kind : str;
  ts_path : option str;
  ts_host : option str;
  ts_service_name : option str
}.

Definition transport_parse (v : option value) : option TransportSpec :=
  let+ obj := v ≫= as_object in
  let kind := default (bs "tcp") (val_get obj (bs "type") ≫= as_str) in
  if bool_decide (kind = bs "tcp") || bool_decide (kind = []) then None else
  Some (mk_transport kind
          (val_get obj (bs "path") ≫= as_str)
          (get_either obj (bs "host") (bs "host_header") ≫= as_str)
          (val_get obj (bs "service_name") ≫= as_str)).

(** ** Connectors *)

(** The connector structs; pools start empty and are left out. *)
Inductive Connector :=
| CDirect
| CReject
| CTrojan (tag server : str) (port : Z) (password : str) (tls : option TlsClientSpec)
    (transport : option TransportSpec) (mux : option MuxKind)
| CSs (tag server : str) (port : Z) (method password : str)
| CVless (tag server : str) (port : Z) (uuid : str) (tls : option TlsClientSpec)
    (transport : option TransportSpec) (mux : option MuxKind)
| CVmess (tag server : str) (port : Z) (uuid security : str) (tls : option TlsClientSpec)
    (mux : option MuxKind)
| CHysteria2 (tag server : str) (port : Z) (password : str) (insecure : bool) (sni : option str)
| CNaive (tag server : str) (port : Z) (insecure : bool) (sni : option str)
| CAnytls (tag server : str) (port : Z) (password : str) (tls : option TlsClientSpec)
    (insecure : bool) (sni : option str)
| CMieru (tag server : str) (port : Z) (username password : str)
| CSocks5 (tag server : str) (port : Z) (username password : option str)
| CHttp (tag server : str) (port : Z) (username password : option str).

(** [OutboundConnector::tag]. *)
Definition c_tag (c : Connector) : str :=
  match c with
  | CDirect => bs "direct"
  | CReject => bs "reject"
  | CTrojan t _ _ _ _ _ _ | CSs t _ _ _ _ | CVless t _ _ _ _ _ _ | CVmess t _ _ _ _ _ _
  | CHysteria2 t _ _ _ _ _ | CNaive t _ _ _ _ | CAnytls t _ _ _ _ _ _ | CMieru t _ _ _ _
  | CSocks5 t _ _ _ _ | CHttp t _ _ _ _ => t
  end.

(** [supports_udp]: the default is [false]. *)
Definition c_supports_udp (c : Connector) : bool :=
  match c with
  | CDirect | CTrojan _ _ _ _ _ _ _ | CVless _ _ _ _ _ _ _ => true
  | _ => false
  end.

Definition build_connector (ob : OutboundSpecWire) : res str (option Connector) :=
  let target := default (mk_target_wire None None) (ob_target ob) in
  let server := default [] (t_server target) in
  let port := default 0 (t_server_port target) in
  let get k := str_field (ob_rest ob) k in
  let getd k := default [] (get k) in
  let tls := parse_tls_client_spec (ob_rest ob !! bs "tls") in
  let transport := transport_parse (ob_rest ob !! bs "transport") in
  let mux :=
    get_obj ob (bs "mux") ≫= λ m,
      if negb (default true (val_get m (bs "enabled") ≫= as_bool)) then None
      else mux_parse (default (bs "smux") (val_get m (bs "kind") ≫= as_str)) in
  let tag := ob_tag ob in
  let is_ t := bool_decide (ob_type ob = t) in
  if is_ (bs "direct") then Ok (Some CDirect)
  else if is_ (bs "reject") || is_ (bs "block") then Ok (Some CReject)
  else if is_ (bs "trojan") then Ok (Some (CTrojan tag server port (getd (bs "password")) tls transport mux))
  else if is_ (bs "shadowsocks") || is_ (bs "ss") then
    Ok (Some (CSs tag server port (getd (bs "method")) (getd (bs "password"))))
  else if is_ (bs "vless") then Ok (Some (CVless tag server port (getd (bs "uuid")) tls transport mux))
  else if is_ (bs "vmess") then
    Ok (Some (CVmess tag server port (getd (bs "uuid")) (default (bs "auto") (get (bs "security"))) tls mux))
  else if is_ (bs "hysteria2") || is_ (bs "hy2") then
    Ok (Some (CHysteria2 tag server port (getd (bs "password")) (tls_obj_and_insecure ob) (tls_obj_sni ob)))
  else if is_ (bs "naive") then
    Ok (Some (CNaive tag server port (tls_obj_and_insecure ob) (tls_obj_sni ob)))
  else if is_ (bs "anytls") then
    Ok (Some (CAnytls tag server port (getd (bs "password")) tls (tls_obj_and_insecure ob) (tls_obj_sni ob)))
  else if is_ (bs "mieru") then
    Ok (Some (CMieru tag server port (getd (bs "username")) (getd (bs "password"))))
  else if is_ (bs "socks") || is_ (bs "socks5") then
    Ok (Some (CSocks5 tag server port (get (bs "username")) (get (bs "password"))))
  else if is_ (bs "http") || is_ (bs "httpconnect") || is_ (bs "httpproxy") then
    Ok (Some (CHttp tag server port (get (bs "username")) (get (bs "password"))))
  else Err (bs "config validation failed for outbound " ++ tag ++ bs ": protocol '" ++ ob_type ob
            ++ bs "' not yet implemented").

Definition range_of (v : value) : option (Z * Z) :=
  let+ from := as_object v ≫= λ m, val_get m (bs "from") ≫= as_u64 in
  let+ to := as_object v ≫= λ m, val_get m (bs "to") ≫= as_u64 in
  Some (u16! from, u16! to).

Definition rule_from_entry (ob : OutboundSpecWire) : RouteRuleAst :=
  let arr k := json_str_arr (ob_rest ob !! k) in
  mk_ast (arr (bs "domain_suffix")) (arr (bs "domain_keyword")) (arr (bs "domain_regex"))
    (arr (bs "ip_cidr")) (arr (bs "geoip")) (arr (bs "geosite"))
    (json_u16_arr (ob_rest ob !! bs "ports"))
    (match ob_rest ob !! bs "port_ranges" ≫= as_array with
     | Some a => omap range_of a
     | None => []
     end)
    (arr (bs "inbound_tags")).

End Json.

(** ** The router ([outbound_artifacts.rs]) *)

Section Router.
Context `{RL : RegexLib}.

Record RouteEntry := mk_entry {
  e_rule : CompiledRule;
  e_tag : str;
  e_hijack : option (list Z)
}.

Record Router := mk_router {
  r_entries : list RouteEntry;
  r_connectors : gmap str Connector;
  r_default_tag : option str;
  r_geo : GeoRegistry
}.

Inductive RouteAction :=
| Proxy (c : Connector)
| Reject
| Hijack (b : list Z).

Definition entry_action (r : Router) (e : RouteEntry) : RouteAction :=
  match e_hijack e with
  | Some b => Hijack b
  | None => match r_connectors r !! e_tag e with
            | Some c => Proxy c
            | None => Reject
            end
  end.

Definition route (r : Router) (target : ProxyTarget) (sniffed_host : option str)
    (inbound_tag : str) : RouteAction :=
  let host := match sniffed_host with
              | Some h => Some h
              | None => match target with Domain h _ => Some h | Tcp _ => None end
              end in
  let port := target_port target in
  let ip := match target with Tcp a => Some (ip a) | Domain _ _ => None end in
  match List.find (λ e, r_has_criteria (e_rule e)
                        && rule_matches (e_rule e) host ip port (Some inbound_tag)
                             (registry_lookup (r_geo r))) (r_entries r) with
  | Some e => entry_action r e
  | None =>
    match List.find (λ e, negb (r_has_criteria (e_rule e))) (r_entries r) with
    | Some e => entry_action r e
    | None =>
      match r_default_tag r ≫= λ t, r_connectors r !! t with
      | Some c => Proxy c
      | None => Reject
      end
    end
  end.

(** [values] is the map's iteration order, which the code leaves open. *)
Definition first_udp_connector (values : list Connector) (r : Router) : option Connector :=
  match r_connectors r !! bs "direct" with
  | Some c => Some c
  | None => List.find c_supports_udp values
  end.

Record RouterBuilder := mk_builder {
  b_entries : list RouteEntry;
  b_connectors : gmap str Connector
}.
Definition builder_new : RouterBuilder := mk_builder [] ∅.

Definition add_connector (b : RouterBuilder) (c : Connector) : RouterBuilder :=
  mk_builder (b_entries b) (<[c_tag c := c]> (b_connectors b)).

Definition has_connector (b : RouterBuilder) (tag : str) : bool :=
  bool_decide (is_Some (b_connectors b !! tag)).

Definition add_rule_entry (b64 : str → res str (list Z)) (b : RouterBuilder)
    (ast : RouteRuleAst) (tag : str) (hijack_b64 : option str) : res str RouterBuilder :=
  let? rule := compile ast in
  let? hijack :=
    match hijack_b64 with
    | Some s =>
      if bool_decide (s = []) then Ok None else
      let? bytes := map_err (λ e, bs "route hijack response_base64 decode failed: " ++ e)
                      (b64 (trim s)) in
      Ok (if bool_decide (bytes = []) then None else Some bytes)
    | None => Ok None
    end in
  Ok (mk_builder (b_entries b ++ [mk_entry rule tag hijack]) (b_connectors b)).

Definition build (b : RouterBuilder) (geo : GeoRegistry) : Router :=
  mk_router (b_entries b) (b_connectors b) None geo.

End Router.

(** ** Assembly ([CoreRuntime::initialize]) *)

Inductive CoreError := EConfig (e : str) | EAssembly (e : str).
Definition show_CoreError (e : CoreError) : str :=
  match e with EConfig e => e | EAssembly e => e end.

Section Initialize.
Context `{JS : Json} `{SH : Sha2} `{RL : RegexLib}.
Context (files : fs) (generate : str → res str ServerCertMaterial) (b64 : str → res str (list Z)).

(** Load failures are logged and otherwise ignored; a panic is not. *)
Definition load_geo_file (g : GeoRegistry) (path : option str) : res str GeoRegistry :=
  match path with
  | Some path => match load_dat files g path with
                 | (Panic, _) => Panic
                 | (_, g) => Ok g
                 end
  | None => Ok g
  end.
Definition load_geo_files (g : GeoRegistry) (wire : RuntimeConfigWire) : res str GeoRegistry :=
  let? g := load_geo_file g (str_field (w_extra wire) (bs "geosite_path")) in
  load_geo_file g (str_field (w_extra wire) (bs "geoip_path")).

Definition hijack_of (ob : OutboundSpecWire) : option str :=
  get_obj ob (bs "hijack") ≫= λ m,
    get_either m (bs "response_b64") (bs "response_base64") ≫= as_str.

(** One round of the loop over the outbounds. *)
Definition add_outbound (b : RouterBuilder) (ob : OutboundSpecWire) : res str RouterBuilder :=
  let? connector := build_connector ob in
  let b := match connector with Some c => add_connector b c | None => b end in
  add_rule_entry b64 b (rule_from_entry ob) (ob_tag ob) (hijack_of ob).

(** The runtime: its counters and the tracker of online users start empty and
    are in Pipeline; the dialer is its resolver. *)
Record CoreRuntime := mk_runtime {
  rt_plans : list NodePlan;
  rt_router : Router;
  rt_resolver : AnyResolver;
  rt_metrics_port : option Z
}.

Definition resolver_of (wire : RuntimeConfigWire) : res CoreError AnyResolver :=
  match w_dns wire ≫= default_dns with
  | Some servers =>
    if bool_decide (servers = []) then Ok SystemResolver
    else let? h := map_err EAssembly (hickory_new servers) in Ok (Hickory h)
  | None => Ok SystemResolver
  end.

Definition initialize (wire : RuntimeConfigWire) : res CoreError CoreRuntime :=
  let? _ := map_err EConfig (validate wire) in
  let? resolver := resolver_of wire in
  let? geo := map_err EConfig (load_geo_files registry_new wire) in
  let? b := map_err EConfig (try_fold add_outbound builder_new (w_outbounds wire)) in
  let b := if negb (has_connector b (bs "direct")) then add_connector b CDirect else b in
  let b := if negb (has_connector b (bs "reject")) then add_connector b CReject else b in
  let router := build b geo in
  let? plans := map_err EConfig (build_node_plans files generate wire) in
  Ok (mk_runtime plans router resolver (w_metrics_port wire)).

End Initialize.

(** ** Authorities *)

(** [parse_hy_addr] (the destination of a hysteria2 request).  The slice that
    would take the bracketed host is only reached when the string starts with
    a closing bracket. *)
Definition parse_hy_addr (addr : str) : res str (option ProxyTarget) :=
  let addr := trim_start_char 91 addr in
  match strip_prefix [93] addr with
  | Some rest =>
    let rest := trim_start_char 58 rest in
    match parse_u16 rest with
    | Ok port =>
      let? host := slice addr 0 (length addr - length rest - 1) in
      Ok (option_map Tcp (parse_sockaddr ([91] ++ host ++ [93; 58] ++ show_dec port)))
    | _ => Ok None
    end
  | None =>
    match rsplit_once 58 addr with
    | None => Ok None
    | Some (h, p) =>
      match parse_u16 p with
      | Ok port =>
        match parse_ip h with
        | Some i => Ok (Some (Tcp (sa_new i port)))
        | None => Ok (Some (Domain h port))
        end
      | _ => Ok None
      end
    end
  end.

Definition port_or_443 (s : str) : Z := match parse_u16 s with Ok p => p | _ => 443 end.

Definition parse_naive_authority (authority : str) : ProxyTarget :=
  let a := trim_start_char 91 authority in
  match split_once 93 a with
  | Some (host, rest) =>
    let port := port_or_443 (trim_start_char 58 rest) in
    match parse_ip host with
    | Some i => Tcp (sa_new i port)
    | None => Domain host port
    end
  | None =>
    match rsplit_once 58 a with
    | Some (h, p) =>
      match parse_ip h with
      | Some i => Tcp (sa_new i (port_or_443 p))
      | None => Domain h (port_or_443 p)
      end
    | None => Domain a 443
    end
  end.

(** ** Routing order *)

Section RouterTheory.
Context `{RL : RegexLib}.

Lemma find_split {A} (f : A → bool) l :
  match List.find f l with
  | Some x => ∃ pre post, l = pre ++ x :: post ∧ f x = true ∧ Forall (λ y, f y = false) pre
  | None => Forall (λ y, f y = false) l
  end.
Proof.
  induction l as [|a l IH]; cbn; [constructor|]. destruct (f a) eqn:E.
  - by exists [], l.
  - destruct (List.find f l) as [x|].
    + destruct IH as (pre & post & -> & Hx & Hp). exists (a :: pre), post.
      split; [done|]. split; [done|]. by constructor.
    + by constructor.
Qed.

(** Whether an entry with criteria matches the connection. *)
Definition selects (r : Router) (target : ProxyTarget) (sniffed : option str) (tag : str)
    (e : RouteEntry) : bool :=
  r_has_criteria (e_rule e)
  && rule_matches (e_rule e)
       (match sniffed with
        | Some h => Some h
        | None => match target with Domain h _ => Some h | Tcp _ => None end
        end)
       (match target with Tcp a => Some (ip a) | Domain _ _ => None end)
       (target_port target) (Some tag) (registry_lookup (r_geo r)).


End RouterTheory.

(** ** What assembly registers *)

Section InitializeTheory.
Context `{JS : Json} `{SH : Sha2} `{RL : RegexLib}.
Context (files : fs) (generate : str → res str ServerCertMaterial) (b64 : str → res str (list Z)).

Definition is_direct (ob : OutboundSpecWire) : bool := bool_decide (ob_type ob = bs "direct").
Definition is_reject (ob : OutboundSpecWire) : bool :=
  bool_decide (ob_type ob = bs "reject") || bool_decide (ob_type ob = bs "block").

Lemma build_connector_tag ob o :
  build_connector ob = Ok o →
  ∃ c, o = Some c ∧
    c_tag c = if is_direct ob then bs "direct" else if is_reject ob then bs "reject" else ob_tag ob.
Proof.
  unfold build_connector, is_direct, is_reject. intros H.
  repeat match type of H with (if ?b then _ else _) = _ => destruct b end;
    first [discriminate H | injection H as <-; eexists; by split].
Qed.

(** The connector registered for an ordinary outbound. *)
Definition serves (t : str) (ob : OutboundSpecWire) : bool :=
  bool_decide (ob_tag ob = t) && negb (is_direct ob) && negb (is_reject ob).

Lemma add_outbound_inv b ob b' :
  add_outbound b64 b ob = Ok b' →
  ∃ c e, build_connector ob = Ok (Some c) ∧ b' = mk_builder (b_entries b ++ [e]) (<[c_tag c := c]> (b_connectors b))
    ∧ compile (rule_from_entry ob) = Ok (e_rule e) ∧ e_tag e = ob_tag ob
    ∧ (hijack_of ob = None → e_hijack e = None).
Proof.
  unfold add_outbound. destruct (build_connector ob) as [o| |] eqn:Ec; [|done..].
  destruct (build_connector_tag ob o Ec) as (c & -> & _). unfold add_rule_entry.
  destruct (compile (rule_from_entry ob)) as [rule| |] eqn:Er; [|done..].
  match goal with |- (let? _ := ?x in _) = _ → _ => destruct x as [h| |] eqn:Eh; [|done..] end.
  intros [= <-]. exists c, (mk_entry rule (ob_tag ob) h). cbn [e_rule e_tag e_hijack].
  repeat (split; [done|]). intros Hh. rewrite Hh in Eh. by injection Eh as <-.
Qed.

Lemma connectors_after b obs b' t :
  try_fold (add_outbound b64) b obs = Ok b' → NoDup (map ob_tag obs) →
  t ≠ bs "direct" → t ≠ bs "reject" →
  match List.find (serves t) obs with
  | Some ob => ∃ c, build_connector ob = Ok (Some c) ∧ b_connectors b' !! t = Some c
  | None => b_connectors b' !! t = b_connectors b !! t
  end.
Proof.
  intros H HN Hd Hr. revert b H HN; induction obs as [|ob obs IH]; intros b H HN; cbn [try_fold] in H.
  { by injection H as ->. }
  destruct (add_outbound b64 b ob) as [b1| |] eqn:E1; [|done..].
  apply add_outbound_inv in E1 as (c & e & Hc & -> & _ & _ & _).
  cbn [map] in HN. apply NoDup_cons in HN as [Hnin HN]. specialize (IH _ H HN).
  destruct (build_connector_tag ob _ Hc) as (c' & [= <-] & Ht). cbn [List.find b_connectors] in *.
  unfold serves at 1.
  destruct (bool_decide_reflect (ob_tag ob = t)) as [<-|Hne]; cbn [andb].
  - assert (List.find (serves (ob_tag ob)) obs = None) as Hf.
    { pose proof (find_split (serves (ob_tag ob)) obs) as Hs.
      destruct (List.find _ obs) as [o|]; [|done]. destruct Hs as (pre & post & -> & Ho & _).
      exfalso. apply Hnin. unfold serves in Ho.
      apply andb_true_iff in Ho as [[Ho _]%andb_true_iff _]. apply bool_decide_eq_true in Ho.
      rewrite <- Ho. apply list_elem_of_fmap. exists o. split; [done|]. set_solver. }
    rewrite Hf in *. destruct (is_direct ob); cbn [negb andb].
    { rewrite IH, lookup_insert_ne by congruence. done. }
    destruct (is_reject ob); cbn [negb andb].
    { rewrite IH, lookup_insert_ne by congruence. done. }
    exists c. split; [done|]. by rewrite IH, Ht, lookup_insert_eq.
  - destruct (List.find (serves t) obs) as [o|]; [done|].
    rewrite IH, lookup_insert_ne; [done|]. rewrite Ht.
    destruct (is_direct ob); [congruence|]. destruct (is_reject ob); congruence.
Qed.

(** The entry that an outbound leaves in the router. *)
Definition entry_of (ob : OutboundSpecWire) (e : RouteEntry) : Prop :=
  compile (rule_from_entry ob) = Ok (e_rule e) ∧ e_tag e = ob_tag ob ∧ (hijack_of ob = None → e_hijack e = None).

Lemma entries_after b obs b' :
  try_fold (add_outbound b64) b obs = Ok b' →
  ∃ es, b_entries b' = b_entries b ++ es
    ∧ Forall2 entry_of obs es.
Proof.
  revert b; induction obs as [|ob obs IH]; intros b H; cbn [try_fold] in H.
  { injection H as ->. exists []. by rewrite app_nil_r. }
  destruct (add_outbound b64 b ob) as [b1| |] eqn:E1; [|done..].
  apply add_outbound_inv in E1 as (c & e & _ & -> & He).
  destruct (IH _ H) as (es & -> & Hes). exists (e :: es). cbn [b_entries].
  rewrite <- app_assoc. split; [done|]. by constructor.
Qed.

Lemma resolver_of_spec wire rs :
  resolver_of wire = Ok rs →
  match rs with
  | Hickory h => ∃ servers, w_dns wire ≫= default_dns = Some servers
      ∧ Forall2 (λ s a, normalize_dns_addr s = Ok a) servers (name_servers h)
  | SystemResolver => default [] (w_dns wire ≫= default_dns) = []
  end.
Proof.
  unfold resolver_of. destruct (w_dns wire ≫= default_dns) as [servers|]; [|by intros [= <-]].
  case_bool_decide as Hs; [by intros [= <-]|].
  destruct (hickory_new servers) as [h| |] eqn:Eh; [|done..]. intros [= <-]. exists servers.
  split; [done|]. by apply hickory_new_parts.
Qed.

(** What a successful assembly went through. *)
Lemma initialize_inv wire rt :
  initialize files generate b64 wire = Ok rt →
  validate wire = Ok tt ∧ resolver_of wire = Ok (rt_resolver rt) ∧ build_node_plans files generate wire = Ok (rt_plans rt)
  ∧ ∃ geo b, try_fold (add_outbound b64) builder_new (w_outbounds wire) = Ok b
    ∧ rt_router rt =
        (let b := if negb (has_connector b (bs "direct")) then add_connector b CDirect else b in
         let b := if negb (has_connector b (bs "reject")) then add_connector b CReject else b in
         build b geo).
Proof.
  unfold initialize. destruct (validate wire) as [[]| |]; [|done..].
  cbn [map_err]. destruct (resolver_of wire) as [rs| |]; [|done..].
  destruct (load_geo_files files registry_new wire) as [geo| |]; [|done..].
  cbn [map_err]. destruct (try_fold (add_outbound b64) builder_new (w_outbounds wire)) as [b| |]; [|done..].
  cbn [map_err]. destruct (build_node_plans files generate wire) as [ps| |]; [|done..]. intros [= <-].
  repeat (split; [done|]). by exists geo, b.
Qed.

(** The router of an assembled runtime. *)
Lemma initialize_router wire rt :
  initialize files generate b64 wire = Ok rt →
  let r := rt_router rt in
  Forall2 entry_of (w_outbounds wire) (r_entries r) ∧ r_default_tag r = None
  ∧ is_Some (r_connectors r !! bs "direct") ∧ is_Some (r_connectors r !! bs "reject")
  ∧ ∀ ob, ob ∈ w_outbounds wire → ob_tag ob ≠ bs "direct" → ob_tag ob ≠ bs "reject" →
      if is_direct ob || is_reject ob then r_connectors r !! ob_tag ob = None
      else ∃ c, build_connector ob = Ok (Some c) ∧ r_connectors r !! ob_tag ob = Some c.
Proof.
  intros (Ev & _ & _ & geo & b & Eb & E)%initialize_inv. rewrite E. clear E.
  pose proof (validate_outbound_tags wire Ev) as HN.
  pose proof (entries_after _ _ _ Eb) as (es & Hes & HF).
  set (b1 := if negb (has_connector b (bs "direct")) then add_connector b CDirect else b).
  set (b2 := if negb (has_connector b1 (bs "reject")) then add_connector b1 CReject else b1).
  assert (Hb1 : is_Some (b_connectors b1 !! bs "direct")
    ∧ ∀ t, t ≠ bs "direct" → b_connectors b1 !! t = b_connectors b !! t).
  { unfold b1, has_connector. destruct (bool_decide_reflect (is_Some (b_connectors b !! bs "direct"))); cbn;
      [done|]. rewrite lookup_insert_eq. split; [done|]. intros t Ht. rewrite lookup_insert_ne by congruence. done. }
  assert (Hb2 : is_Some (b_connectors b2 !! bs "reject")
    ∧ ∀ t, t ≠ bs "reject" → b_connectors b2 !! t = b_connectors b1 !! t).
  { unfold b2, has_connector. destruct (bool_decide_reflect (is_Some (b_connectors b1 !! bs "reject"))); cbn;
      [done|]. rewrite lookup_insert_eq. split; [done|]. intros t Ht. rewrite lookup_insert_ne by congruence. done. }
  assert (He : b_entries b2 = b_entries b).
  { unfold b2, b1. by destruct (negb (has_connector b _)), (negb _). }
  cbn [r_entries r_connectors build]. fold b1. fold b2.
  split; [by rewrite He, Hes|]. split; [done|]. split; [rewrite (proj2 Hb2) by done; apply Hb1|].
  split; [apply Hb2|].
  intros ob Hob Hd Hr. rewrite (proj2 Hb2), (proj2 Hb1) by done.
  pose proof (connectors_after _ _ _ (ob_tag ob) Eb HN Hd Hr) as Hc.
  pose proof (find_split (serves (ob_tag ob)) (w_outbounds wire)) as Hs.
  destruct (List.find _ _) as [o|].
  - destruct Hs as (pre & post & Hsplit & Ho & _). unfold serves in Ho.
    apply andb_true_iff in Ho as [[Ho Ho2]%andb_true_iff Ho3]. apply bool_decide_eq_true in Ho.
    assert (o = ob) as ->.
    { eapply NoDup_map_inj; [exact HN | rewrite Hsplit; set_solver | exact Hob | exact Ho]. }
    apply negb_true_iff in Ho2. apply negb_true_iff in Ho3. by rewrite Ho2, Ho3.
  - rewrite Hc. rewrite Forall_forall in Hs. specialize (Hs ob Hob). unfold serves in Hs.
    rewrite bool_decide_true in Hs by done. by destruct (is_direct ob), (is_reject ob).
Qed.

(** C18: assembly connects tags to outbounds.  After [initialize] succeeds the
    configured name servers are those of the resolver, in order, or the system
    resolves names when there is none; there is one route entry per outbound, in order, compiled from its criteria and
    pointing at its tag; the tag of every proxying outbound resolves to the
    connector built from it; "direct" and "reject" always resolve; and the tag
    of a direct or reject outbound that is named otherwise resolves to nothing,
    so that its traffic is rejected. *)
Theorem initialize_connectors wire rt :
  initialize files generate b64 wire = Ok rt →
  let r := rt_router rt in
  match rt_resolver rt with
  | Hickory h => ∃ servers, w_dns wire ≫= default_dns = Some servers
      ∧ Forall2 (λ s a, normalize_dns_addr s = Ok a) servers (name_servers h)
  | SystemResolver => default [] (w_dns wire ≫= default_dns) = []
  end
  ∧ Forall2 (λ ob e, compile (rule_from_entry ob) = Ok (e_rule e) ∧ e_tag e = ob_tag ob)
    (w_outbounds wire) (r_entries r)
  ∧ is_Some (r_connectors r !! bs "direct") ∧ is_Some (r_connectors r !! bs "reject")
  ∧ ∀ ob, ob ∈ w_outbounds wire → ob_tag ob ≠ bs "direct" → ob_tag ob ≠ bs "reject" →
      if is_direct ob || is_reject ob then r_connectors r !! ob_tag ob = None
      else ∃ c, build_connector ob = Ok (Some c) ∧ r_connectors r !! ob_tag ob = Some c.
Proof.
  intros H. destruct (initialize_inv wire rt H) as (_ & Hr & _).
  destruct (initialize_router wire rt H) as (HF & _ & Hd & Hj & Hc).
  split; [by apply resolver_of_spec|]. split; [|done].
  eapply Forall2_impl; [exact HF|]. by intros ob e (? & ? & _).
Qed.

End InitializeTheory.

(** ** A concrete assembly *)

Definition route_wire : @RuntimeConfigWire tree_json :=
  let ob tag ty t rest := @mk_outbound_wire tree_json tag ty t (list_to_map rest) in
  @mk_runtime_wire tree_json
    [ob (bs "out") (bs "direct") None [];
     ob (bs "proxy") (bs "trojan") (Some (mk_target_wire (Some (bs "srv")) (Some 443)))
       [(bs "password", JStr (bs "pw")); (bs "domain_suffix", JArr [JStr (bs "example.com")])]]
    [] ∅ (Some (mk_dns_wire (Some [bs "1.1.1.1"; bs "tls://8.8.8.8"]))) None None.

Definition route_setup : res CoreError (@CoreRuntime literal_regex) :=
  @initialize tree_json pad_sha2 literal_regex (λ _, Err []) (λ _, Err []) (λ _, Err []) route_wire.

Definition routed (target : ProxyTarget) : option (@RouteAction) :=
  match route_setup with
  | Ok rt => Some (@route literal_regex (rt_router rt) target None (bs "in"))
  | _ => None
  end.

(** The trojan outbound takes its domain; everything else goes to the entry of
    the direct outbound, whose tag no connector carries, and is rejected. *)
Example routed_proxy :
  routed (Domain (bs "www.example.com") 443)
  = Some (Proxy (CTrojan (bs "proxy") (bs "srv") 443 (bs "pw") None None None)).
Proof. vm_compute. reflexivity. Qed.
Example routed_rest : routed (Domain (bs "example.org") 443) = Some Reject.
Proof. vm_compute. reflexivity. Qed.

Lemma initialize_connectors_witness :
  ∃ r, map_err show_CoreError route_setup = Ok r
    ∧ rt_resolver r = Hickory (mk_hickory
        [sa_new (V4 [1; 1; 1; 1]) 53; sa_new (V4 [8; 8; 8; 8]) 853])
    ∧ ∀ ob, ob ∈ w_outbounds route_wire → ob_tag ob ≠ bs "direct" → ob_tag ob ≠ bs "reject" →
        if is_direct ob || is_reject ob then r_connectors (rt_router r) !! ob_tag ob = None
        else ∃ c, build_connector ob = Ok (Some c) ∧ r_connectors (rt_router r) !! ob_tag ob = Some c.
Proof.
  eexists. split; [vm_compute; reflexivity|]. split; [reflexivity|].
  apply (@initialize_connectors tree_json pad_sha2 literal_regex (λ _, Err []) (λ _, Err [])
    (λ _, Err []) route_wire _). vm_compute. reflexivity.
Defined.

(** A bracketed IPv6 destination of a hysteria2 request is not understood: the
    opening bracket is trimmed before the closing one is looked for. *)
Example parse_hy_addr_bracketed :
  parse_hy_addr (bs "[::1]:443") = Ok (Some (Domain (bs "::1]") 443)).
Proof. vm_compute. reflexivity. Qed.
Example parse_naive_authority_bracketed :
  parse_naive_authority (bs "[::1]:443") = Tcp (sa_new (V6 (replicate 15 0 ++ [1])) 443).
Proof. vm_compute. reflexivity. Qed.

Lemma split_once_none c s : c ∉ s → split_once c s = None.
Proof.
  induction s as [|b s IH]; cbn; [done|]. rewrite not_elem_of_cons. intros [Hb Hs].
  destruct (b =? c) eqn:E; [norm; done|]. by rewrite IH.
Qed.

(** The text of a target reads back as the target: both authority parsers,
    the hysteria2 one and the naive one, return a domain target from its
    [Display] text, for every host without brackets that is not an IP address,
    colons inside the host included, and every port. *)
Theorem authority_roundtrip h p :
  91 ∉ h → 93 ∉ h → parse_ip h = None → is_u16 p →
  parse_hy_addr (show_target (Domain h p)) = Ok (Some (Domain h p))
  ∧ parse_naive_authority (show_target (Domain h p)) = Domain h p.
Proof.
  intros H1 H2 Hip Hp. unfold parse_hy_addr, parse_naive_authority, port_or_443. cbn [show_target].
  assert (0 ≤ p) by apply Hp.
  assert (Hn : ∀ c, c ∉ h → c ≠ 58 → (c < 48 ∨ 57 < c < 97 ∨ 102 < c) → c ∉ h ++ [58] ++ show_dec p).
  { intros c Hc Hc' Hr. rewrite !not_elem_of_app. split; [done|]. split; [set_solver|].
    by apply show_dec_no. }
  rewrite !trim_start_char_id by (apply Hn; [done | lia | lia]).
  rewrite split_once_none by (apply Hn; [done | lia | lia]).
  change ([58] ++ show_dec p) with (58 :: show_dec p) in *.
  rewrite rsplit_once_app by (apply show_dec_no; lia).
  unfold parse_u16. rewrite parse_show_dec, Hip by (done || lia). split; [|done].
  unfold strip_prefix. destruct (starts_with [93] _) eqn:E; [|done].
  apply starts_with_iff in E as [t Ht].
  exfalso. apply (Hn 93 H2); [lia | lia |]. rewrite Ht. by left.
Qed.

Lemma authority_roundtrip_witness :
  parse_hy_addr (bs "example.com:8443") = Ok (Some (Domain (bs "example.com") 8443))
  ∧ parse_naive_authority (bs "example.com:8443") = Domain (bs "example.com") 8443.
Proof.
  apply (authority_roundtrip (bs "example.com") 8443).
  - by_decide.
  - by_decide.
  - vm_compute. reflexivity.
  - by_decide.
Defined.
