(* ===== verification/Trojan.v ===== *)
(** * Trojan

    [omni-proto/src/proto/trojan]: the request head, the inbound handshake, the
    outbound connection, and UDP over the stream: the frame codec, the
    incremental decoder and the receive loops of the client. *)

From S2P Require Import Prelude Text Net Io Socks5 Crypto Node.

Definition CMD_CONNECT : Z := 1.
Definition CMD_UDP_ASSOCIATE : Z := 3.
Definition CRLF : list Z := [13; 10].

Definition ioerr_ (m : str) : ioerr := other m.

(** ** The request head ([mod.rs]) *)

Definition read_addr : io Socks5Addr :=
  do! atyp := read_u8 in
  if atyp =? 1 then
    do! b := read_exact 6 in
    do! ip <- slice b 0 4 in
    do! p0 <- idx b 4 in
    do! p1 <- idx b 5 in
    ret (SV4 ip (u16_be p0 p1))
  else if atyp =? 3 then
    do! l := read_u8 in
    let dl := Z.to_nat l in
    do! b := read_exact (dl + 2) in
    do! h <- slice b 0 dl in
    let host := from_utf8_lossy h in
    do! p0 <- idx b dl in
    do! p1 <- idx b (dl + 1) in
    ret (SDomain host (u16_be p0 p1))
  else if atyp =? 4 then
    do! b := read_exact 18 in
    do! ip <- slice b 0 16 in
    do! p0 <- idx b 16 in
    do! p1 <- idx b 17 in
    ret (SV6 ip (u16_be p0 p1))
  else fail (ioerr_ (bs "trojan: unknown address type")).

Definition read_request_head (expect_hash_hex : option str) : io (Z * ProxyTarget) :=
  do! head := read_exact (56 + 2) in
  do! h <- slice head 0 56 in
  let hash := from_utf8_lossy h in
  do! t <- slice head 56 58 in
  if negb (bool_decide (t = CRLF)) then fail (ioerr_ (bs "trojan: malformed request")) else
  do! _ :=
    match expect_hash_hex with
    | Some expect =>
      if negb (eq_ignore_ascii_case hash expect)
      then fail (ioerr_ (bs "trojan: authentication failed")) else ret tt
    | None => ret tt
    end in
  do! cmd := read_u8 in
  do! addr := read_addr in
  do! tail := read_exact 2 in
  if negb (bool_decide (tail = CRLF)) then fail (ioerr_ (bs "trojan: malformed request tail")) else
  ret (cmd, to_proxy_target addr).

Definition encode_request_head (cmd : Z) (target : ProxyTarget) (hash_hex : str) : list Z :=
  encode_into (from_proxy_target target) (hash_hex ++ CRLF ++ [cmd]) ++ CRLF.

(** ** The inbound ([inbound.rs]) *)

Inductive Accepted :=
| TrTcp (target : ProxyTarget)
| TrUdp.

#[export] Instance tr_accepted_eq_dec : EqDecision Accepted.
Proof. solve_decision. Defined.

Definition handshake (password_hash_hex : str) : io Accepted :=
  do! (cmd, target) := read_request_head (Some password_hash_hex) in
  if cmd =? CMD_CONNECT then ret (TrTcp target)
  else if cmd =? CMD_UDP_ASSOCIATE then ret TrUdp
  else fail (ioerr_ (bs "trojan: unsupported command")).

(** ** UDP frames *)

Definition frame_encode (addr : Socks5Addr) (payload : list Z) : list Z :=
  encode addr ++ CRLF ++ be_bytes 2 (u16! (Z.of_nat (length payload))) ++ CRLF ++ payload.

Inductive TryParse :=
| Need
| Bad
| Parsed (addr : Socks5Addr) (payload : list Z) (used : nat).

Definition try_parse (buf : list Z) : res ioerr TryParse :=
  match decode buf with
  | Panic => Panic
  | Err _ => if (length buf <? 260)%nat then Ok Need else Ok Bad
  | Ok (addr, used) =>
    let? rest := slice_from buf used in
    if (length rest <? 2)%nat then Ok Need else
    let? t := slice rest 0 2 in
    if negb (bool_decide (t = CRLF)) then Ok Bad else
    if (length rest <? 4)%nat then Ok Need else
    let? l0 := idx rest 2 in
    let? l1 := idx rest 3 in
    let len := Z.to_nat (u16_be l0 l1) in
    if (length rest <? 6 + len)%nat then Ok Need else
    let? payload := slice rest 6 (6 + len) in
    Ok (Parsed addr payload (used + 6 + len))
  end.

Record Decoder := mk_decoder { d_buf : list Z; d_eof : bool }.
Definition decoder_new : Decoder := mk_decoder [] false.
Definition feed (d : Decoder) (data : list Z) : Decoder := mk_decoder (d_buf d ++ data) (d_eof d).
Definition mark_eof (d : Decoder) : Decoder := mk_decoder (d_buf d) true.

(** [next_packet]: nothing yet, a packet, or an error.  [split_to] is within
    the buffer because a parsed frame lies in it. *)
Definition next_packet (d : Decoder)
    : res ioerr (option (res ioerr (Socks5Addr * list Z))) * Decoder :=
  if bool_decide (d_buf d = []) && d_eof d then (Ok None, d) else
  match try_parse (d_buf d) with
  | Panic => (Panic, d)
  | Err e => (Err e, d)
  | Ok Need =>
    if d_eof d then (Ok (Some (Err (ioerr_ (bs "trojan: truncated UDP frame")))), d)
    else (Ok None, d)
  | Ok Bad => (Ok (Some (Err (ioerr_ (bs "trojan: invalid UDP frame")))), d)
  | Ok (Parsed addr payload used) =>
    (Ok (Some (Ok (addr, payload))), mk_decoder (drop used (d_buf d)) (d_eof d))
  end.

(** ** The outbound ([outbound.rs]) *)

Section Outbound.
Context `{SH : Sha2}.

Definition connect_tcp_raw (password : str) (target : ProxyTarget) : io unit :=
  write_all (encode_request_head CMD_CONNECT target (password_hash password)).

(** [UdpRelayClient::start]. *)
Definition udp_start (password : str) : io Decoder :=
  do! _ := write_all (encode_request_head CMD_UDP_ASSOCIATE (Domain (bs "0.0.0.0") 0)
                        (password_hash password)) in
  ret decoder_new.

End Outbound.

Definition send_to (target : ProxyTarget) (data : list Z) : io unit :=
  write_all (frame_encode (from_proxy_target target) data).

(** [UdpRelayRecv]: the decoder and its own end-of-stream flag. *)
Record RelayRecv := mk_recv { rr_decoder : Decoder; rr_eof : bool }.

(** [UdpRelayRecv::recv_from]; a round either returns or reads.  A read takes
    at least one byte or ends the stream, so as many rounds as bytes are
    pending, and two more, are enough ([recv_from_frame]); the loop does not
    return before that. *)
Fixpoint recv_from (fuel : nat) (r : RelayRecv) (s : sock)
    : option (res ioerr (Socks5Addr * list Z) * RelayRecv * sock) :=
  match fuel with
  | O => None
  | S fuel =>
    match next_packet (rr_decoder r) with
    | (Ok (Some x), d) => Some (x, mk_recv d (rr_eof r), s)
    | (Err e, d) => Some (Err e, mk_recv d (rr_eof r), s)
    | (Panic, d) => Some (Panic, mk_recv d (rr_eof r), s)
    | (Ok None, d) =>
      if rr_eof r then Some (Err (ioerr_ (bs "trojan: UDP relay closed")), mk_recv d true, s) else
      match read (Z.to_nat 65536) s with
      | (Ok [], s) => recv_from fuel (mk_recv d true) s
      | (Ok b, s) => recv_from fuel (mk_recv (feed d b) false) s
      | (Err e, s) => Some (Err e, mk_recv d false, s)
      | (Panic, s) => Some (Panic, mk_recv d false, s)
      end
    end
  end.

(** [UdpRelayClient::recv_from]: as above, but the end of the stream is told to
    the decoder, which then reports a truncated frame. *)
Fixpoint client_recv_from (fuel : nat) (d : Decoder) (s : sock)
    : option (res ioerr (Socks5Addr * list Z) * Decoder * sock) :=
  match fuel with
  | O => None
  | S fuel =>
    match next_packet d with
    | (Ok (Some x), d) => Some (x, d, s)
    | (Err e, d) => Some (Err e, d, s)
    | (Panic, d) => Some (Panic, d, s)
    | (Ok None, d) =>
      match read (Z.to_nat 65536) s with
      | (Ok [], s) =>
        match next_packet (mark_eof d) with
        | (Ok (Some x), d) => Some (x, d, s)
        | (Ok None, d) => Some (Err (ioerr_ (bs "trojan: UDP relay closed")), d, s)
        | (Err e, d) => Some (Err e, d, s)
        | (Panic, d) => Some (Panic, d, s)
        end
      | (Ok b, s) => client_recv_from fuel (feed d b) s
      | (Err e, s) => Some (Err e, d, s)
      | (Panic, s) => Some (Panic, d, s)
      end
    end
  end.

(** [UdpRelayClient::split]: the sender's [fin_sent] flag, and the receiver. *)
Definition relay_split (d : Decoder) : bool * RelayRecv := (false, mk_recv d false).

(** [UdpRelaySend::shutdown]: the flag does not keep a second call from the
    stream. *)
Definition relay_shutdown (fin_sent : bool) : io bool := do! _ := shutdown in ret true.

(** [reject_and_close]. *)
Definition reject_and_close (s : sock) : sock := (shutdown s).2.

(** The bridge's receiving task: packets are forwarded until an error.  [n]
    bounds the packets taken. *)
Fixpoint bridge_recv (n fuel : nat) (r : RelayRecv) (s : sock) : list UdpPacket :=
  match n with
  | O => []
  | S n =>
    match recv_from fuel r s with
    | Some (Ok (addr, data), r, s) =>
      mk_packet None (to_proxy_target addr) data :: bridge_recv n fuel r s
    | _ => []
    end
  end.

(** The bridge's sending task: frames until a write fails, then shutdown. *)
Fixpoint bridge_send (pkts : list UdpPacket) (s : sock) : sock :=
  match pkts with
  | [] => (shutdown s).2
  | p :: pkts =>
    match send_to (pkt_target p) (data p) s with
    | (Ok _, s) => bridge_send pkts s
    | (_, s) => (shutdown s).2
    end
  end.

(** ** The request head *)

Lemma yields_read_addr a i : addr_wf a → yields read_addr (encode a ++ i) (Ok a) i [].
Proof.
  intros Ha. unfold read_addr.
  destruct a as [ip p|ip p|d p]; cbn [encode_into app addr_wf] in *; norm;
    apply yields_read_u8; cbn [Z.eqb Pos.eqb].
  - apply (yields_field_port 4); [done|]. rewrite u16_be_bytes by done. apply yields_ret.
  - apply (yields_field_port 16); [done|]. rewrite u16_be_bytes by done. apply yields_ret.
  - apply yields_read_u8. rewrite wrap_Z_of_nat_u8, Nat2Z.id by lia.
    apply (yields_field_port (length d)); [done|].
    rewrite u16_be_bytes, from_utf8_lossy_valid by done. apply yields_ret.
Qed.

Lemma eq_ignore_case_refl s : eq_ignore_ascii_case s s = true.
Proof. unfold eq_ignore_ascii_case. by apply bool_decide_true. Qed.

(** Hexadecimal text is ASCII. *)
Lemma hex_utf8 s : forallb is_hexdigit s = true → utf8_valid s = true.
Proof.
  intros H. apply utf8_valid_ascii, Forall_forall. intros b Hb.
  apply list_elem_of_In in Hb. pose proof (proj1 (forallb_forall _ _) H b Hb) as Hd.
  unfold is_hexdigit, is_digit in Hd. rewrite !orb_true_iff, !andb_true_iff, !Z.leb_le in Hd. lia.
Qed.

Definition target_addr_wf (t : ProxyTarget) : Prop :=
  addr_wf (from_proxy_target t) ∧ to_proxy_target (from_proxy_target t) = t.

#[export] Instance target_addr_wf_dec t : Decision (target_addr_wf t).
Proof. unfold target_addr_wf. apply _. Defined.

Lemma yields_request_head cmd t hash i :
  target_addr_wf t → length hash = 56%nat → forallb is_hexdigit hash = true →
  yields (read_request_head (Some hash)) (encode_request_head cmd t hash ++ i) (Ok (cmd, t)) i [].
Proof.
  intros [Ht Et] Hl Hh. unfold read_request_head, encode_request_head.
  rewrite encode_into_app. eapply yields_eq; [| |done].
  2: { rewrite <- !app_assoc. rewrite (app_assoc hash CRLF). reflexivity. }
  apply yields_read; [by rewrite length_app, Hl|].
  rewrite slice_prefix by done. apply yields_lift_ok.
  rewrite <- (app_nil_r CRLF), (slice_mid hash CRLF []) by (cbn; lia). apply yields_lift_ok.
  cbn [negb bool_decide]. rewrite bool_decide_true by done. cbn [negb].
  rewrite from_utf8_lossy_valid, eq_ignore_case_refl by by apply hex_utf8. cbn [negb].
  apply yields_ret_bind, yields_read_u8.
  eapply yields_silent; [by apply yields_read_addr|].
  apply yields_read; [done|]. rewrite bool_decide_true by done. rewrite Et. apply yields_ret.
Qed.

Section Interop.
Context `{SH : Sha2}.

Lemma password_hash_hex pw :
  length (password_hash pw) = 56%nat ∧ forallb is_hexdigit (password_hash pw) = true.
Proof.
  unfold password_hash, sha224_hex. destruct (sha224_ok pw) as [H1 H2].
  rewrite hex_encode_length, H1. split; [done|]. by apply hex_encode_digits.
Qed.

(** C11: trojan client and server agree.  What [connect_tcp_raw] writes for a
    password and a target, followed by any payload and cut into segments in
    any way, makes a server with the hash of the same password accept exactly
    that target and leave exactly the payload; nothing is written back. *)
Theorem trojan_interop pw t payload segs :
  target_addr_wf t →
  concat segs = s_out (connect_tcp_raw pw t (stream_of [])).2 ++ payload →
  ∃ s', handshake (password_hash pw) (stream_of segs) = (Ok (TrTcp t), s')
        ∧ avail s' = payload ∧ s_out s' = [].
Proof.
  intros Ht Hs. destruct (password_hash_hex pw) as [H1 H2].
  apply yields_run. rewrite Hs. cbn [connect_tcp_raw write_all stream_of s_wr s_out snd app].
  unfold handshake. eapply yields_silent; [by apply yields_request_head|].
  cbn [CMD_CONNECT Z.eqb Pos.eqb]. apply yields_ret.
Qed.

End Interop.

(** A handshake that succeeds has read the hash. *)
Lemma trojan_presents hash s acc s' :
  handshake hash s = (Ok acc, s') →
  ∃ h cmd rest, avail s = h ++ CRLF ++ [cmd] ++ rest ∧ length h = 56%nat
    ∧ eq_ignore_ascii_case (from_utf8_lossy h) hash = true
    ∧ cmd = match acc with TrTcp _ => CMD_CONNECT | TrUdp => CMD_UDP_ASSOCIATE end
    ∧ s_out s' = s_out s.
Proof.
  unfold handshake. intros H. io_inv H. destruct x as [cmd t].
  assert (Hacc : cmd = match acc with TrTcp _ => CMD_CONNECT | TrUdp => CMD_UDP_ASSOCIATE end ∧ s0 = s').
  { destruct (cmd =? CMD_CONNECT) eqn:E1; [|destruct (cmd =? CMD_UDP_ASSOCIATE) eqn:E2; [|done]];
      injection H as <- <-; split; norm; done. }
  destruct Hacc as [Hcmd <-]. clear H.
  unfold read_request_head in Hm. io_inv Hm. io_inv Hm. io_inv Hm.
  apply read_exact_inv in Hm0 as (Ha & Hl & Ho & _). apply lift_ok in Hm1 as [Hs1 ->].
  apply lift_ok in Hm2 as [Hs2 ->]. apply slice_inv in Hs1 as [_ ->]. apply slice_inv in Hs2 as [_ ->].
  destruct (bool_decide_reflect (take (58 - 56) (drop 56 x) = CRLF)) as [Hc|]; cbn [negb] in Hm; [|done].
  io_inv Hm. destruct (eq_ignore_ascii_case _ hash) eqn:Eh; cbn [negb] in Hm0; [|done].
  injection Hm0 as _ <-. io_inv Hm. apply read_u8_inv in Hm0 as (Ha1 & Ho1 & _).
  io_inv Hm. io_inv Hm. apply read_exact_inv in Hm1 as (_ & _ & Ho2 & _).
  assert (Ho3 : s_out s3 = s_out s2).
  { unfold read_addr in Hm0. clear Hm. io_invs; norm; congruence. }
  destruct (negb _) in Hm; [done|]. injection Hm as -> _ <-.
  exists (take 56 x), cmd, (avail s2). split; [|split; [len|split; [done|split; [done|congruence]]]].
  rewrite Ha, Ha1. cbn [app]. rewrite <- (take_drop 56 x) at 1.
  rewrite <- app_assoc. f_equal. rewrite <- Hc, take_ge by len. done.
Qed.

(** C15: the trojan listener lets nobody in without the hash: if the handshake
    succeeds, on any stream, then its first 56 bytes read as text equal the
    configured hash up to ASCII case, they are followed by CRLF and the command
    is CONNECT for a TCP session and UDP ASSOCIATE for a UDP one. *)
Theorem trojan_auth_safety hash s acc s' :
  handshake hash s = (Ok acc, s') →
  ∃ h cmd rest, avail s = h ++ CRLF ++ [cmd] ++ rest ∧ length h = 56%nat
    ∧ eq_ignore_ascii_case (from_utf8_lossy h) hash = true
    ∧ cmd = match acc with TrTcp _ => CMD_CONNECT | TrUdp => CMD_UDP_ASSOCIATE end
    ∧ s_out s' = s_out s.
Proof. apply trojan_presents. Qed.

Lemma trojan_auth_safety_witness :
  let hash := @password_hash pad_sha2 (bs "pw") in
  let s := stream_of [encode_request_head 1 (Domain (bs "a") 80) (map (λ b, if 97 <=? b then b - 32 else b) hash)] in
  ∃ h cmd rest, avail s = h ++ CRLF ++ [cmd] ++ rest ∧ length h = 56%nat
    ∧ eq_ignore_ascii_case (from_utf8_lossy h) hash = true ∧ cmd = CMD_CONNECT
    ∧ s_out (handshake hash s).2 = s_out s.
Proof.
  intros hash s. apply (trojan_auth_safety hash s (TrTcp (Domain (bs "a") 80))).
  vm_compute. reflexivity.
Defined.

Lemma trojan_interop_witness :
  let t := Tcp (sa_new (V4 [1; 2; 3; 4]) 443) in
  let segs := [s_out (@connect_tcp_raw pad_sha2 (bs "pw") t (stream_of [])).2; [7; 8]] in
  ∃ s', handshake (@password_hash pad_sha2 (bs "pw")) (stream_of segs) = (Ok (TrTcp t), s')
        ∧ avail s' = [7; 8] ∧ s_out s' = [].
Proof.
  intros t segs. apply (@trojan_interop pad_sha2 (bs "pw") t [7; 8] segs); [by_decide|].
  vm_compute. reflexivity.
Defined.

(** ** UDP frames over the stream *)

Lemma frame_length a p :
  length (frame_encode a p) = (length (encode a) + 6 + length p)%nat.
Proof. unfold frame_encode, CRLF. len. Qed.

(** The part of [try_parse] after the address. *)
Definition parse_tail (addr : Socks5Addr) (used : nat) (rest : list Z) : res ioerr TryParse :=
  if (length rest <? 2)%nat then Ok Need else
  let? t := slice rest 0 2 in
  if negb (bool_decide (t = CRLF)) then Ok Bad else
  if (length rest <? 4)%nat then Ok Need else
  let? l0 := idx rest 2 in
  let? l1 := idx rest 3 in
  let len := Z.to_nat (u16_be l0 l1) in
  if (length rest <? 6 + len)%nat then Ok Need else
  let? payload := slice rest 6 (6 + len) in
  Ok (Parsed addr payload (used + 6 + len)).

Lemma parse_tail_frame addr used r p more rest :
  Z.of_nat (length p) < 65536 →
  r ++ more = CRLF ++ be_bytes 2 (u16! (Z.of_nat (length p))) ++ CRLF ++ p ++ rest →
  parse_tail addr used r =
    if (6 + length p <=? length r)%nat then Ok (Parsed addr p (used + 6 + length p)) else Ok Need.
Proof.
  intros Hp E. rewrite wrap_small in E by (unfold in_range; lia).
  rewrite be_bytes_2 in E. cbn [CRLF app] in E.
  destruct r as [|c0 [|c1 r]]; [done..|]. cbn [app] in E. injection E as -> -> E.
  destruct r as [|l0 [|l1 r]]; [done..|]. cbn [app] in E. injection E as -> -> E.
  unfold parse_tail. change (length (13 :: 10 :: ?a :: ?b :: r)) with (4 + length r)%nat.
  change (4 + length r <? 2)%nat with false. change (4 + length r <? 4)%nat with false. cbv iota.
  rewrite (slice_ok _ 0 2) by (cbn; lia). cbn [Nat.sub drop take].
  rewrite bool_decide_true by done. cbn [negb].
  rewrite (idx_Some _ 2 (u8! (Z.shiftr (Z.of_nat (length p)) 8))),
    (idx_Some _ 3 (u8! (Z.of_nat (length p)))) by done.
  rewrite u16_be_bytes, Nat2Z.id by (unfold in_range; lia). cbv zeta.
  destruct (Nat.ltb_spec (4 + length r) (6 + length p)) as [H|H].
  { by rewrite (proj2 (Nat.leb_gt _ _)) by lia. }
  rewrite (proj2 (Nat.leb_le _ _)) by lia.
  change (r ++ more = [13; 10] ++ p ++ rest) in E.
  destruct (prefix_split _ _ _ _ E) as [Er E2]; [cbn; lia|]. cbn [length] in Er, E2.
  destruct (prefix_split _ _ _ _ E2) as [Er2 _]; [rewrite length_drop; lia|].
  rewrite Er, Er2. change (13 :: 10 :: ?a :: ?b :: [13; 10] ++ ?l) with ([13; 10; a; b; 13; 10] ++ l).
  by rewrite (slice_mid [13; 10; _; _; 13; 10] p) by done.
Qed.

(** What [try_parse] makes of a buffer that starts a frame. *)
Lemma try_parse_frame a p buf more rest :
  addr_wf a → Z.of_nat (length p) < 65536 → bytes buf → buf ++ more = frame_encode a p ++ rest →
  try_parse buf =
    if (length (frame_encode a p) <=? length buf)%nat
    then Ok (Parsed a p (length (frame_encode a p))) else Ok Need.
Proof.
  intros Ha Hp Hb E. unfold try_parse. unfold frame_encode in E. rewrite <- !app_assoc in E.
  pose proof (decode_prefix _ _ _ _ Ha Hb E) as Hd. rewrite frame_length.
  assert (length (encode a) ≤ 259)%nat by (rewrite encode_length by done; destruct a; cbn in Ha; lia).
  destruct (Nat.leb_spec (length (encode a)) (length buf)) as [Hl|Hl]; cycle 1.
  { destruct Hd as [e ->]. rewrite (proj2 (Nat.ltb_lt _ _)), (proj2 (Nat.leb_gt _ _)) by lia. done. }
  rewrite Hd, slice_from_ok by done. destruct (prefix_split _ _ _ _ E Hl) as [_ Hr].
  fold (parse_tail a (length (encode a)) (drop (length (encode a)) buf)).
  erewrite parse_tail_frame by done. rewrite length_drop.
  destruct (Nat.leb_spec (6 + length p) (length buf - length (encode a)));
    [rewrite (proj2 (Nat.leb_le _ _)) by lia | rewrite (proj2 (Nat.leb_gt _ _)) by lia]; done.
Qed.

(** Bytes pending for a receiver: what its decoder holds and what the stream
    will deliver. *)
Definition pending (r : RelayRecv) (s : sock) : list Z := d_buf (rr_decoder r) ++ avail s.

Definition open_recv (r : RelayRecv) : Prop := d_eof (rr_decoder r) = false ∧ rr_eof r = false.

Lemma next_packet_frame d a p more rest :
  addr_wf a → Z.of_nat (length p) < 65536 → bytes (d_buf d) → d_eof d = false →
  d_buf d ++ more = frame_encode a p ++ rest →
  next_packet d =
    if (length (frame_encode a p) <=? length (d_buf d))%nat
    then (Ok (Some (Ok (a, p))), mk_decoder (drop (length (frame_encode a p)) (d_buf d)) false)
    else (Ok None, d).
Proof.
  intros Ha Hp Hb He E. unfold next_packet. rewrite He, andb_false_r.
  erewrite try_parse_frame by done. by destruct (_ <=? _)%nat.
Qed.

(** One call of [recv_from] when a whole frame is on its way. *)
Lemma recv_from_frame fuel r s a p rest :
  addr_wf a → Z.of_nat (length p) < 65536 → open_recv r → clean s → bytes (pending r s) →
  pending r s = frame_encode a p ++ rest → (length (avail s) < fuel)%nat →
  ∃ r' s', recv_from fuel r s = Some (Ok (a, p), r', s')
    ∧ open_recv r' ∧ clean s' ∧ pending r' s' = rest ∧ (length (avail s') ≤ length (avail s))%nat.
Proof.
  intros Ha Hp. revert r s; induction fuel as [|fuel IH]; intros [d e] s [He1 He2] Hc Hb E Hf; [lia|].
  cbn in He1, He2. subst e. unfold pending in Hb, E. cbn [rr_decoder] in Hb, E.
  apply bytes_app in Hb as [Hb1 Hb2]. cbn [recv_from rr_decoder rr_eof].
  rewrite (next_packet_frame d a p (avail s) rest) by done.
  destruct (Nat.leb_spec (length (frame_encode a p)) (length (d_buf d))) as [Hl|Hl].
  - do 2 eexists. split; [done|]. split; [done|]. split; [done|].
    destruct (prefix_split _ _ _ _ E Hl) as [_ Hr]. by split.
  - destruct (read_clean (Z.to_nat 65536) s) as (b & s1 & -> & Hc1 & Ha1 & Hn1 & _); [lia | done |].
    destruct b as [|x b].
    { rewrite Hn1, app_nil_r in E by done. apply (f_equal length) in E. len. }
    destruct (IH (mk_recv (feed d (x :: b)) false) s1) as (r' & s' & H1 & H2 & H3 & H4 & H5).
    + by split.
    + done.
    + unfold pending, feed. cbn [rr_decoder d_buf]. rewrite <- app_assoc, <- Ha1.
      by apply bytes_app.
    + unfold pending, feed. cbn [rr_decoder d_buf]. by rewrite <- app_assoc, <- Ha1.
    + rewrite Ha1, length_app in Hf. cbn in Hf. lia.
    + exists r', s'. rewrite Ha1, length_app. cbn [length]. split; [done|]. repeat split; try done; [apply H2..|lia].
Qed.

(** With nothing pending and the stream at its end, [recv_from] reports that
    the relay is closed. *)
Lemma recv_from_closed fuel r s :
  open_recv r → clean s → pending r s = [] → (1 < fuel)%nat →
  ∃ r' s', recv_from fuel r s = Some (Err (ioerr_ (bs "trojan: UDP relay closed")), r', s').
Proof.
  destruct r as [[buf eof] e]. intros [He1 He2] Hc Hp Hf. cbn in *. subst.
  unfold pending in Hp. cbn in Hp. apply app_eq_nil in Hp as [-> Ha].
  destruct fuel as [|[|fuel]]; [lia..|].
  destruct (read_clean (Z.to_nat 65536) s) as (b & s1 & Hr & Hc1 & Ha1 & _ & _); [lia | done |].
  rewrite Ha in Ha1. symmetry in Ha1. apply app_eq_nil in Ha1 as [-> _].
  cbn [recv_from rr_decoder rr_eof next_packet d_buf d_eof]. unfold next_packet. cbn -[read Z.to_nat].
  rewrite Hr. by do 2 eexists.
Qed.

(** UDP frames survive the stream.  When the peer sends the frames of any
    list of packets (payloads below 65536 bytes) and closes, the bridge's
    receiving task forwards exactly those packets, in order, however the bytes
    are cut into segments, and then stops because the relay is closed; the
    given rounds are enough. *)
Theorem trojan_udp_relay pkts segs n fuel :
  Forall (λ q, addr_wf q.1 ∧ Z.of_nat (length q.2) < 65536 ∧ bytes q.2) pkts →
  concat segs = concat (map (λ q, frame_encode q.1 q.2) pkts) →
  (length pkts < n)%nat → (length (concat segs) + 1 < fuel)%nat →
  bridge_recv n fuel (mk_recv decoder_new false) (stream_of segs)
  = map (λ q, mk_packet None (to_proxy_target q.1) q.2) pkts.
Proof.
  intros Hp Hs Hn Hf.
  assert (Hb : ∀ pkts, Forall (λ q, addr_wf q.1 ∧ Z.of_nat (length q.2) < 65536 ∧ bytes q.2) pkts →
            bytes (concat (map (λ q, frame_encode q.1 q.2) pkts))).
  { induction 1 as [|[a p] l (H1 & H2 & H3) _ IH]; cbn; [constructor|].
    apply bytes_app. split; [|done]. unfold frame_encode. byt; try by apply encode_bytes.
    all: unfold CRLF; by_decide. }
  assert (Hgen : ∀ r s, open_recv r → clean s →
    pending r s = concat (map (λ q, frame_encode q.1 q.2) pkts) → (length (avail s) + 1 < fuel)%nat →
    bridge_recv n fuel r s = map (λ q, mk_packet None (to_proxy_target q.1) q.2) pkts).
  { clear Hs Hf segs. revert n Hn. induction Hp as [|[a p] l (H1 & H2 & H3) Hl IH]; intros n Hn r s Ho Hc E Hf;
      (destruct n as [|n]; [cbn in Hn; lia|]); cbn [bridge_recv map concat] in *.
    - destruct (recv_from_closed fuel r s) as (r' & s' & ->); [done..|lia|]. done.
    - destruct (recv_from_frame fuel r s a p (concat (map (λ q, frame_encode q.1 q.2) l)))
        as (r' & s' & -> & Ho' & Hc' & E' & Hlen); try done; [|lia|].
      { rewrite E. apply (Hb ((a, p) :: l)). by constructor. }
      cbn [fst snd]. f_equal. apply IH; try done; cbn in Hn; lia. }
  apply Hgen; [done | apply clean_stream_of | | by rewrite avail_stream_of].
  unfold pending. cbn [rr_decoder decoder_new d_buf app]. by rewrite avail_stream_of.
Qed.

Lemma trojan_udp_relay_witness :
  bridge_recv 3 100 (mk_recv decoder_new false)
    (stream_of [[1; 8; 8; 8]; [8; 0; 53; 13; 10; 0; 2; 13; 10; 5; 6; 3; 1]; [97; 0; 80; 13; 10; 0; 0; 13; 10]])
  = [mk_packet None (Tcp (sa_new (V4 [8; 8; 8; 8]) 53)) [5; 6]; mk_packet None (Domain (bs "a") 80) []].
Proof.
  apply (trojan_udp_relay [(SV4 [8; 8; 8; 8] 53, [5; 6]); (SDomain (bs "a") 80, [])]).
  - by_decide.
  - vm_compute. reflexivity.
  - simpl. lia.
  - simpl. lia.
Defined.

(** The unsplit client receives the packets the split one receives. *)
Lemma client_recv_from_packet fuel r s x r' s' :
  rr_eof r = false → recv_from fuel r s = Some (Ok x, r', s') →
  client_recv_from fuel (rr_decoder r) s = Some (Ok x, rr_decoder r', s').
Proof.
  revert r s; induction fuel as [|fuel IH]; intros r s Hr; [done|].
  cbn [recv_from client_recv_from]. destruct (next_packet (rr_decoder r)) as [n d] eqn:En.
  destruct n as [[y|]|e|]; [| |done..].
  { destruct y; [|done..]. by intros [= -> <- ->]. }
  rewrite Hr. destruct (read _ s) as [b s1]. destruct b as [[|b l]|e|]; [| |done..].
  - destruct fuel as [|fuel]; [done|]. cbn [recv_from rr_decoder rr_eof].
    assert (Hd : d = rr_decoder r).
    { revert En. unfold next_packet. repeat case_match; intros; simplify_eq; done. }
    subst d. rewrite En. done.
  - intros H. by apply (IH (mk_recv (feed d (b :: l)) false)) in H.
Qed.

(** At the end of the stream, inside a frame, the unsplit client reports the
    frame and the split one that the relay was closed. *)
Example truncated_frame :
  (fst <$> (fst <$> client_recv_from 9 decoder_new (stream_of [[1; 127; 0]])))
    = Some (Err (other (bs "trojan: truncated UDP frame")))
  ∧ (fst <$> (fst <$> recv_from 9 (mk_recv decoder_new false) (stream_of [[1; 127; 0]])))
    = Some (Err (other (bs "trojan: UDP relay closed"))).
Proof. split; vm_compute; reflexivity. Qed.
