(* ===== verification/Vless.v ===== *)
(** * VLESS

    [omni-proto/src/proto/vless]: the request head, the response, the inbound
    handshake, the outbound connection, and the UDP frame codec with its
    incremental decoder.  [read_full] is [read_exact] with logging. *)

From S2P Require Import Prelude Text Net Io Socks5 Crypto Node Trojan.

Definition CMD_TCP : Z := 1.
Definition CMD_UDP : Z := 2.
Definition ATYP_V4 : Z := 1.
Definition ATYP_DOMAIN : Z := 2.
Definition ATYP_V6 : Z := 3.

(** ** The request head ([mod.rs]) *)

(** The address part shared by the head and the UDP frame. *)
Definition encode_host (target : ProxyTarget) : list Z :=
  match target with
  | Tcp a => match ip a with
             | V4 o => [ATYP_V4] ++ o
             | V6 o => [ATYP_V6] ++ o
             end
  | Domain h _ => [ATYP_DOMAIN] ++ [u8! (Z.of_nat (length h))] ++ h
  end.

Definition encode_request (uuid : list Z) (cmd : Z) (target : ProxyTarget) (addons : list Z)
    : list Z :=
  [0] ++ uuid ++ [u8! (Z.of_nat (length addons))] ++ addons ++ [cmd]
  ++ be_bytes 2 (target_port target) ++ encode_host target.

Definition read_request_head : io (list Z * Z * ProxyTarget) :=
  do! ver := read_u8 in
  if negb (ver =? 0) then fail (other (bs "vless: unsupported version")) else
  do! uuid := read_exact 16 in
  do! alen := read_u8 in
  do! _ :=
    (if 0 <? alen then
       do! addons := read_exact (Z.to_nat alen) in
       if bool_decide (head addons = Some 1)
       then fail (other (bs "vless: flow addon requires vision support")) else ret tt
     else ret tt) in
  do! cmd := read_u8 in
  do! portb := read_exact 2 in
  do! p0 <- idx portb 0 in
  do! p1 <- idx portb 1 in
  let port := u16_be p0 p1 in
  do! atyp := read_u8 in
  do! addr :=
    (if atyp =? ATYP_V4 then do! b := read_exact 4 in ret (SV4 b port)
     else if atyp =? ATYP_DOMAIN then
       do! dl := read_u8 in
       do! rest := read_exact (Z.to_nat dl) in
       ret (SDomain (from_utf8_lossy rest) port)
     else if atyp =? ATYP_V6 then do! b := read_exact 16 in ret (SV6 b port)
     else fail (other (bs "vless: unknown address type"))) in
  ret (uuid, cmd, with_port (to_proxy_target addr) port).

Definition write_response : io unit := write_all [0; 0].

Definition read_response : io unit :=
  do! head := read_exact 2 in
  do! v <- idx head 0 in
  if negb (v =? 0) then fail (other (bs "vless: bad response version")) else
  do! n <- idx head 1 in
  if 0 <? n then do! _ := read_exact (Z.to_nat n) in ret tt else ret tt.

(** ** The inbound ([inbound.rs]) *)

Inductive Accepted :=
| VlTcp (target : ProxyTarget)
| VlUdp.

Definition handshake (allowed_uuids : list (list Z)) : io Accepted :=
  do! (uuid, cmd, target) := read_request_head in
  if negb (bool_decide (uuid ∈ allowed_uuids))
  then fail (other (bs "vless: authentication failed")) else
  if cmd =? CMD_TCP then do! _ := write_response in ret (VlTcp target)
  else if cmd =? CMD_UDP then do! _ := write_response in ret VlUdp
  else fail (other (bs "vless: unsupported command")).

(** ** The outbound ([outbound.rs]) *)

Definition uuid_bytes (uuid : str) : res ioerr (list Z) :=
  ok_or (invalid_data (bs "vless: invalid UUID '" ++ uuid ++ bs "'")) (parse_uuid uuid).

Definition connect_tcp (uuid : str) (target : ProxyTarget) : io unit :=
  do! u <- uuid_bytes uuid in
  do! _ := write_all (encode_request u CMD_TCP target []) in
  read_response.

(** [connect_udp] up to the point where the relay tasks start. *)
Definition connect_udp (uuid : str) : io unit :=
  do! u <- uuid_bytes uuid in
  do! _ := write_all (encode_request u CMD_UDP (Domain (bs "0.0.0.0") 0) []) in
  read_response.

(** ** UDP frames *)

Definition udp_encode (target : ProxyTarget) (data : list Z) : list Z :=
  be_bytes 2 (u16! (Z.of_nat (length data))) ++ encode_host target
  ++ be_bytes 2 (target_port target) ++ data.

Definition frame_addr_len (buf : list Z) : nat :=
  match buf with
  | [] => 0%nat
  | t :: rest =>
    if t =? ATYP_V4 then 7%nat
    else if t =? ATYP_V6 then 19%nat
    else if t =? ATYP_DOMAIN then
      match rest with dl :: _ => (1 + 1 + Z.to_nat dl + 2)%nat | [] => 2%nat end
    else 1%nat
  end.

(** The target and payload of a complete frame. *)
Definition parse_frame (frame : list Z) : res ioerr (ProxyTarget * list Z) :=
  let? atyp := idx frame 2 in
  if atyp =? ATYP_V4 then
    let? o := slice frame 3 7 in
    let? p0 := idx frame 7 in
    let? p1 := idx frame 8 in
    let? d := slice_from frame 9 in
    Ok (Tcp (sa_new (V4 o) (u16_be p0 p1)), d)
  else if atyp =? ATYP_DOMAIN then
    let? l := idx frame 3 in
    let dl := Z.to_nat l in
    let? h := slice frame 4 (4 + dl) in
    let? p0 := idx frame (4 + dl) in
    let? p1 := idx frame (5 + dl) in
    let? d := slice_from frame (6 + dl) in
    Ok (Domain (from_utf8_lossy h) (u16_be p0 p1), d)
  else if atyp =? ATYP_V6 then
    let? o := slice frame 3 19 in
    let? p0 := idx frame 19 in
    let? p1 := idx frame 20 in
    let? d := slice_from frame 21 in
    Ok (Tcp (sa_new (V6 o) (u16_be p0 p1)), d)
  else Err (other (bs "vless: unknown UDP address type")).

(** [Decoder::next_packet] of [vless::udp_frame]; the decoder is trojan's
    buffer and flag. *)
Definition next_packet (d : Decoder)
    : res ioerr (option (res ioerr (ProxyTarget * list Z))) * Decoder :=
  let buf := d_buf d in
  if (length buf <? 3)%nat then (Ok None, d) else
  let need :=
    let? l0 := idx buf 0 in
    let? l1 := idx buf 1 in
    let? tail := slice_from buf 2 in
    Ok (2 + frame_addr_len tail + 2 + Z.to_nat (u16_be l0 l1))%nat in
  match need with
  | Panic => (Panic, d)
  | Err e => (Err e, d)
  | Ok need =>
    if (length buf <? need)%nat then
      if d_eof d then (Ok (Some (Err (other (bs "vless: truncated UDP packet")))), d)
      else (Ok None, d)
    else
      let d' := mk_decoder (drop need buf) (d_eof d) in
      match parse_frame (take need buf) with
      | Panic => (Panic, d')
      | Err e => (Ok (Some (Err e)), d')
      | Ok x => (Ok (Some (Ok x)), d')
      end
  end.

(** The inner loop of the receiving task: packets until none is ready; an
    error ends the task.  [n] bounds the packets. *)
Fixpoint drain (n : nat) (d : Decoder) : list UdpPacket * bool * Decoder :=
  match n with
  | O => ([], true, d)
  | S n =>
    match next_packet d with
    | (Ok (Some (Ok (t, x))), d) =>
      let '(ps, go, d) := drain n d in (mk_packet None t x :: ps, go, d)
    | (Ok None, d) => ([], true, d)
    | (_, d) => ([], false, d)
    end
  end.

(** ** The request head *)

Lemma yields_vless_head uuid cmd t i :
  target_addr_wf t → length uuid = 16%nat →
  yields read_request_head (encode_request uuid cmd t [] ++ i) (Ok (uuid, cmd, t)) i [].
Proof.
  intros [Ht Et] Hu. unfold read_request_head, encode_request.
  eapply yields_eq; [|by rewrite <- !app_assoc | done].
  apply yields_read_u8. cbn [negb Z.eqb]. apply yields_read; [done|].
  apply yields_read_u8. cbn [length Z.of_nat]. change (0 <? u8! 0) with false. cbv iota.
  apply yields_ret_bind. cbn [app]. apply yields_read_u8.
  apply yields_read; [done|]. rewrite be_bytes_2. apply yields_lift_ok, yields_lift_ok.
  assert (is_u16 (target_port t)) as Hp.
  { destruct t as [[[o|o] p sc]|h p]; cbn in *; naive_solver. }
  rewrite u16_be_bytes by done. cbv zeta.
  destruct t as [[[o|o] p sc]|h p]; cbn in Ht, Et, Hp; simplify_eq; norm;
    cbn [encode_host ip app target_port port]; apply yields_read_u8; cbn [ATYP_V4 ATYP_DOMAIN ATYP_V6 Z.eqb Pos.eqb].
  - eapply yields_silent; [apply yields_read; [done | apply yields_ret] | apply yields_ret].
  - eapply yields_silent; [apply yields_read; [done | apply yields_ret] | apply yields_ret].
  - apply (yields_silent _ (SDomain h p) _ _ i); [|apply yields_ret].
    apply yields_read_u8. rewrite wrap_Z_of_nat_u8, Nat2Z.id by lia.
    apply yields_read; [done|]. rewrite from_utf8_lossy_valid by done. apply yields_ret.
Qed.

Lemma yields_vless_connect uuid u t i :
  parse_uuid uuid = Some u → yields (connect_tcp uuid t) ([0; 0] ++ i) (Ok tt) i (encode_request u CMD_TCP t []).
Proof.
  intros Hu. unfold connect_tcp, uuid_bytes. rewrite Hu. apply yields_lift_ok, yields_write_last.
  apply yields_read; [done|]. apply yields_lift_ok, yields_lift_ok, yields_ret.
Qed.

(** C12: VLESS client and server agree.  A server that allows the client's UUID
    accepts exactly the target the client asked for, answers two zero bytes
    and leaves the payload; the client, reading such an answer, succeeds and
    leaves what follows it; both for any segmentation. *)
Theorem vless_interop uuid u allowed t payload segs reply segs' :
  parse_uuid uuid = Some u → u ∈ allowed → target_addr_wf t →
  concat segs = encode_request u CMD_TCP t [] ++ payload → concat segs' = [0; 0] ++ reply →
  (∃ s', handshake allowed (stream_of segs) = (Ok (VlTcp t), s') ∧ avail s' = payload
         ∧ s_out s' = [0; 0])
  ∧ (∃ s', connect_tcp uuid t (stream_of segs') = (Ok tt, s') ∧ avail s' = reply
           ∧ s_out s' = encode_request u CMD_TCP t []).
Proof.
  intros Hu Hin Ht Hs Hs'. split; apply yields_run.
  - rewrite Hs. unfold handshake.
    eapply yields_silent; [apply yields_vless_head; [done | by eapply parse_uuid_length]|].
    cbv beta iota. rewrite bool_decide_true by done. cbn [negb CMD_TCP Z.eqb Pos.eqb].
    apply yields_write_ret.
  - rewrite Hs'. by apply yields_vless_connect.
Qed.

Lemma vless_interop_witness :
  let uuid := bs "b831381d-6324-4d53-ad4f-8cda48b30811" in
  ∃ u, parse_uuid uuid = Some u ∧
    ∃ s', handshake [u] (stream_of [encode_request u CMD_TCP (Domain (bs "a.b") 443) []; [9]])
          = (Ok (VlTcp (Domain (bs "a.b") 443)), s') ∧ avail s' = [9] ∧ s_out s' = [0; 0].
Proof.
  intros uuid. eexists. split; [vm_compute; reflexivity|].
  eapply (vless_interop uuid); [vm_compute; reflexivity | by left | by_decide | reflexivity |].
  instantiate (2 := [[0; 0]]). reflexivity.
Defined.

(** A handshake that succeeds has read the identifier of a user. *)
Lemma vless_presents allowed s acc s' :
  handshake allowed s = (Ok acc, s') →
  ∃ uuid rest, avail s = [0] ++ uuid ++ rest ∧ uuid ∈ allowed ∧ length uuid = 16%nat
    ∧ s_out s' = s_out s ++ [0; 0].
Proof.
  unfold handshake. intros H. io_inv H. destruct x as [[uuid cmd] t].
  destruct (bool_decide_reflect (uuid ∈ allowed)) as [Hin|]; cbn [negb] in H; [|done].
  assert (Hout : s_out s' = s_out s0 ++ [0; 0]).
  { clear Hm. unfold write_response in H. io_invs; norm; done. }
  clear H. unfold read_request_head in Hm.
  io_inv Hm. apply read_u8_inv in Hm0 as (Ha & Ho & _).
  destruct (x =? 0) eqn:Ex; cbn [negb] in Hm; [|done]. apply Z.eqb_eq in Ex as ->.
  io_inv Hm. apply read_exact_inv in Hm0 as (Ha1 & Hl & Ho1 & _).
  assert (x = uuid ∧ s_out s0 = s_out s2) as [-> Ho2].
  { io_invs; norm; split; congruence. }
  exists uuid, (avail s2). rewrite Ha, Ha1. split; [done|]. split; [done|]. split; [done|]. congruence.
Qed.

(** C16: the VLESS listener authenticates: a handshake that succeeds has read a
    version 0 head whose sixteen identifier bytes are one of the configured
    users, and has answered exactly the two-byte response. *)
Theorem vless_auth_safety allowed s acc s' :
  handshake allowed s = (Ok acc, s') →
  ∃ uuid rest, avail s = [0] ++ uuid ++ rest ∧ uuid ∈ allowed ∧ length uuid = 16%nat
    ∧ s_out s' = s_out s ++ [0; 0].
Proof. apply vless_presents. Qed.

Lemma vless_auth_safety_witness :
  let u := replicate 16 7 in
  let s := stream_of [encode_request u CMD_UDP (Domain (bs "x") 1) []] in
  ∃ uuid rest, avail s = [0] ++ uuid ++ rest ∧ uuid ∈ [u] ∧ length uuid = 16%nat
    ∧ s_out (handshake [u] s).2 = s_out s ++ [0; 0].
Proof. intros u s. apply (vless_auth_safety [u] s VlUdp). vm_compute. reflexivity. Defined.

(** ** UDP frames *)

Lemma encode_host_len t :
  target_addr_wf t → ∀ r, frame_addr_len (encode_host t ++ r) = (length (encode_host t) + 2)%nat.
Proof.
  intros [Ht _] r. destruct t as [[[o|o] p sc]|h p]; cbn [from_proxy_target ip addr_wf] in Ht; norm.
  - by rewrite H.
  - by rewrite H.
  - cbn [encode_host app frame_addr_len]. rewrite wrap_Z_of_nat_u8, Nat2Z.id by lia.
    cbn [ATYP_V4 ATYP_DOMAIN ATYP_V6 Z.eqb Pos.eqb]. cbn [length]. lia.
Qed.

(** A field, two bytes and the rest, after a prefix of known length. *)
Lemma frame_fields {E1 E2 E3 E4} (frame pre f d : list Z) x y n m :
  frame = pre ++ f ++ x :: y :: d → n = length pre → m = (length pre + length f)%nat →
  @slice E1 frame n m = Ok f ∧ @idx E2 frame m = Ok x ∧ @idx E3 frame (m + 1) = Ok y
  ∧ @slice_from E4 frame (m + 2) = Ok d.
Proof.
  intros -> -> ->. split; [by apply slice_mid|]. rewrite app_assoc.
  split; [apply idx_mid0; len|]. split; [apply idx_mid1; len|].
  change (x :: y :: d) with ([x; y] ++ d). rewrite app_assoc. apply slice_from_app. len.
Qed.

Lemma parse_frame_encode t d l0 l1 :
  target_addr_wf t →
  parse_frame ([l0; l1] ++ encode_host t ++ be_bytes 2 (target_port t) ++ d) = Ok (t, d).
Proof.
  intros [Ht Et]. unfold parse_frame. rewrite be_bytes_2.
  destruct t as [[[o|o] p sc]|h p]; cbn [from_proxy_target ip addr_wf target_port port] in *;
    cbn in Et; simplify_eq.
  - destruct Ht as (Hl & Hb & Hp). cbn [encode_host ip app].
    destruct (@frame_fields ioerr ioerr ioerr ioerr (l0 :: l1 :: ATYP_V4 :: o ++ u8! (Z.shiftr p 8) :: u8! p :: d)
      [l0; l1; ATYP_V4] o d (u8! (Z.shiftr p 8)) (u8! p) 3 7) as (H1 & H2 & H3 & H4); [done | done | cbn; lia|].
    rewrite (idx_Some _ 2 ATYP_V4) by done. change (ATYP_V4 =? ATYP_V4) with true. cbv iota.
    cbn [Nat.add] in *. by rewrite H1, H2, H3, H4, u16_be_bytes.
  - destruct Ht as (Hl & Hb & Hp). cbn [encode_host ip app].
    destruct (@frame_fields ioerr ioerr ioerr ioerr (l0 :: l1 :: ATYP_V6 :: o ++ u8! (Z.shiftr p 8) :: u8! p :: d)
      [l0; l1; ATYP_V6] o d (u8! (Z.shiftr p 8)) (u8! p) 3 19) as (H1 & H2 & H3 & H4); [done | done | cbn; lia|].
    rewrite (idx_Some _ 2 ATYP_V6) by done. change (ATYP_V6 =? ATYP_V4) with false.
    change (ATYP_V6 =? ATYP_DOMAIN) with false. change (ATYP_V6 =? ATYP_V6) with true. cbv iota.
    cbn [Nat.add] in *. by rewrite H1, H2, H3, H4, u16_be_bytes.
  - destruct Ht as (Hl & Hb & Hu & Hp). cbn [encode_host app].
    rewrite wrap_Z_of_nat_u8 by lia. set (l := Z.of_nat (length h)).
    destruct (@frame_fields ioerr ioerr ioerr ioerr
      (l0 :: l1 :: ATYP_DOMAIN :: l :: h ++ u8! (Z.shiftr p 8) :: u8! p :: d)
      [l0; l1; ATYP_DOMAIN; l] h d (u8! (Z.shiftr p 8)) (u8! p) 4 (4 + length h))
      as (H1 & H2 & H3 & H4); [done | done | done|].
    rewrite (idx_Some _ 2 ATYP_DOMAIN), (idx_Some _ 3 l) by done.
    change (ATYP_DOMAIN =? ATYP_V4) with false. change (ATYP_DOMAIN =? ATYP_DOMAIN) with true. cbv iota.
    assert (Z.to_nat l = length h) as -> by (unfold l; lia).
    replace (5 + length h)%nat with (4 + length h + 1)%nat by lia.
    replace (6 + length h)%nat with (4 + length h + 2)%nat by lia.
    by rewrite H1, H2, H3, H4, u16_be_bytes, from_utf8_lossy_valid.
Qed.

(** The VLESS UDP decoder loses the framing.  It counts the port twice, so
    a complete frame on its own is never delivered, and once two more bytes
    have arrived the packet is delivered with those two bytes, which belong to
    the next frame, appended to its payload. *)
Theorem vless_udp_overreads t d x y rest :
  target_addr_wf t → Z.of_nat (length d) < 65536 →
  next_packet (mk_decoder (udp_encode t d) false) = (Ok None, mk_decoder (udp_encode t d) false)
  ∧ next_packet (mk_decoder (udp_encode t d ++ [x; y] ++ rest) false)
    = (Ok (Some (Ok (t, d ++ [x; y]))), mk_decoder rest false).
Proof.
  intros Ht Hd.
  assert (Hhl : (1 < length (encode_host t))%nat).
  { destruct Ht as [Ht _]. destruct t as [[[o|o] p sc]|h p]; cbn in *; lia. }
  unfold udp_encode. rewrite wrap_small by (unfold in_range; lia).
  set (n := Z.of_nat (length d)) in *.
  set (need := (2 + (length (encode_host t) + 2) + 2 + length d)%nat).
  assert (Hneed : ∀ r,
    (let? l0 := @idx ioerr ((be_bytes 2 n ++ encode_host t ++ r)) 0 in
     let? l1 := idx (be_bytes 2 n ++ encode_host t ++ r) 1 in
     let? tail := slice_from (be_bytes 2 n ++ encode_host t ++ r) 2 in
     Ok (2 + frame_addr_len tail + 2 + Z.to_nat (u16_be l0 l1))%nat) = Ok need).
  { intros r. rewrite slice_from_app by by rewrite length_be_bytes.
    rewrite be_bytes_2. cbn [app].
    rewrite (idx_Some _ 0 (u8! (Z.shiftr n 8))), (idx_Some _ 1 (u8! n)) by done.
    rewrite u16_be_bytes, encode_host_len by (done || (unfold in_range; lia)).
    unfold n. by rewrite Nat2Z.id. }
  unfold next_packet. cbn [d_buf d_eof]. split.
  - rewrite (proj2 (Nat.ltb_ge _ 3)) by (rewrite length_app, length_be_bytes; len).
    rewrite Hneed. rewrite (proj2 (Nat.ltb_lt _ need)); [done|]. unfold need. len.
  - rewrite <- !app_assoc.
    rewrite (proj2 (Nat.ltb_ge _ 3)) by (rewrite length_app, length_be_bytes; len).
    rewrite Hneed. rewrite (proj2 (Nat.ltb_ge _ need)) by (unfold need; len).
    set (f := be_bytes 2 n ++ encode_host t ++ be_bytes 2 (target_port t) ++ d ++ [x; y]).
    replace (be_bytes 2 n ++ encode_host t ++ be_bytes 2 (target_port t) ++ d ++ [x; y] ++ rest)
      with (f ++ rest) by (unfold f; by rewrite <- !app_assoc).
    assert (Hf : need = length f) by (unfold need, f; len).
    rewrite Hf, take_app_length, drop_app_length. unfold f at 1. rewrite be_bytes_2 at 1.
    by rewrite parse_frame_encode.
Qed.

Lemma vless_udp_overreads_witness :
  let t := Tcp (sa_new (V4 [8; 8; 8; 8]) 53) in
  next_packet (mk_decoder (udp_encode t [1; 2; 3]) false)
  = (Ok None, mk_decoder (udp_encode t [1; 2; 3]) false)
  ∧ next_packet (mk_decoder (udp_encode t [1; 2; 3] ++ [0; 9]) false)
  = (Ok (Some (Ok (t, [1; 2; 3; 0; 9]))), mk_decoder [] false).
Proof. intros t. apply (vless_udp_overreads t [1; 2; 3] 0 9 []); [by_decide | simpl; lia]. Defined.
