(* ===== verification/ProxyProtocol.v ===== *)
(** * ProxyProtocol: the PROXY protocol header

    [omni-transport/src/proxy_protocol.rs]: parsing of the text and the binary
    header, the reader that the listener runs before anything else on a
    connection, and the encoder of the binary header. *)

From S2P Require Import Prelude Text Net Io.

Inductive ProxyProtocolHeader :=
| HV1 (src dst : SocketAddr)
| HV2 (src dst : SocketAddr).

#[export] Instance ProxyProtocolHeader_eq_dec : EqDecision ProxyProtocolHeader.
Proof. solve_decision. Defined.

Definition pp_err (m : str) : ioerr := invalid_data (bs "proxy_protocol: " ++ m).

Definition parse_addr_v1 (a p : str) : res ioerr SocketAddr :=
  let? i := ok_or (pp_err (bs "bad address in v1 header")) (parse_ip a) in
  let? n := map_err (λ _, pp_err (bs "bad port")) (parse_u16 p) in
  Ok (sa_new i n).

(** The text header.  The parts are separated by single spaces. *)
Definition parse_v1 (buf : list Z) : res ioerr (ProxyProtocolHeader * nat) :=
  let? pos := ok_or (pp_err (bs "incomplete v1 header")) (find_sub [13; 10] buf) in
  let line := take pos buf in
  if negb (utf8_valid line) then Err (pp_err (bs "invalid v1 header")) else
  match split 32 line with
  | [p0; _; p2; p3; p4; p5] =>
    if negb (bool_decide (p0 = bs "PROXY")) then Err (pp_err (bs "malformed v1 header")) else
    let? src := parse_addr_v1 p2 p4 in
    let? dst := parse_addr_v1 p3 p5 in
    Ok (HV1 src dst, (pos + 2)%nat)
  | _ => Err (pp_err (bs "malformed v1 header"))
  end.

Definition unspecified : SocketAddr := sa_new (V4 [0; 0; 0; 0]) 0.

(** The binary header; only the first five signature bytes are compared. *)
Definition parse_v2 (buf : list Z) : res ioerr (ProxyProtocolHeader * nat) :=
  let? ver_cmd := idx buf 12 in
  let? fam := idx buf 13 in
  if negb (Z.shiftr ver_cmd 4 =? 2) then Err (pp_err (bs "unsupported v2 version")) else
  let? l0 := idx buf 14 in
  let? l1 := idx buf 15 in
  let total := (16 + Z.to_nat (u16_be l0 l1))%nat in
  if (length buf <? total)%nat then Err (pp_err (bs "incomplete v2 header")) else
  let addr_len :=
    if (fam =? 17) || (fam =? 18) then 16
    else if (fam =? 33) || (fam =? 34) then 36 else 0 in
  if addr_len =? 0 then Ok (HV2 unspecified unspecified, total) else
  let? p := slice_from buf 16 in
  if addr_len =? 16 then
    let? a0 := idx p 0 in let? a1 := idx p 1 in let? a2 := idx p 2 in let? a3 := idx p 3 in
    let? p8 := idx p 8 in let? p9 := idx p 9 in
    let? a4 := idx p 4 in let? a5 := idx p 5 in let? a6 := idx p 6 in let? a7 := idx p 7 in
    let? p10 := idx p 10 in let? p11 := idx p 11 in
    Ok (HV2 (sa_new (V4 [a0; a1; a2; a3]) (u16_be p8 p9))
            (sa_new (V4 [a4; a5; a6; a7]) (u16_be p10 p11)), total)
  else Err (pp_err (bs "ipv6 v2 not parsed")).

Definition parse (buf : list Z) : res ioerr (ProxyProtocolHeader * nat) :=
  if (6 <=? length buf)%nat && bool_decide (take 5 buf = bs "PROXY") then parse_v1 buf
  else if (16 <=? length buf)%nat && bool_decide (take 5 buf = [13; 10; 13; 10; 0])
  then parse_v2 buf
  else Err (pp_err (bs "signature mismatch")).

(** The loop of [read_header_from].  A read of no bytes, an error and the
    three second timeout end it alike.  Each round reads at least one byte and
    the buffer stops the loop above 1024 bytes. *)
Fixpoint read_header_go (fuel : nat) (buf : list Z) : io ProxyProtocolHeader := λ s,
  match fuel with
  | O => (Err (pp_err (bs "header too large")), s)
  | S fuel =>
    let more :=
      if (1024 <? length buf)%nat then (Err (pp_err (bs "header too large")), s) else
      match read 256 s with
      | (Ok (b :: bs), s) => read_header_go fuel (buf ++ b :: bs) s
      | (Panic, s) => (Panic, s)
      | (_, s) => (Err (pp_err (bs "missing header")), s)
      end in
    if (16 <=? length buf)%nat then
      match parse buf with
      | Ok (h, _) => (Ok h, s)
      | Panic => (Panic, s)
      | Err _ => more
      end
    else more
  end.
Definition read_header_from : io ProxyProtocolHeader := read_header_go 1026 [].

Definition signature : list Z := [13; 10; 13; 10; 0; 13; 10; 81; 85; 73; 84; 10].

Definition encode_v2 (src dst : SocketAddr) : list Z :=
  let '(fam, abuf) :=
    match ip src, ip dst with
    | V4 s, V4 d => (17, s ++ d)
    | V6 s, V6 d => (33, s ++ d)
    | _, _ => (17, replicate 12 0)
    end in
  signature ++ [33] ++ [fam] ++ be_bytes 2 (u16! (Z.of_nat (length abuf) + 4))
  ++ abuf ++ be_bytes 2 (port src) ++ be_bytes 2 (port dst).

Definition v1_line (src dst : SocketAddr) : str :=
  bs "PROXY TCP4 " ++ show_ip (ip src) ++ [32] ++ show_ip (ip dst) ++ [32]
  ++ show_dec (port src) ++ [32] ++ show_dec (port dst).

Example parse_v1_sample :
  parse (bs "PROXY TCP4 1.2.3.4 5.6.7.8 1111 2222" ++ [13; 10])
  = Ok (HV1 (sa_new (V4 [1; 2; 3; 4]) 1111) (sa_new (V4 [5; 6; 7; 8]) 2222), 38%nat).
Proof. vm_compute. reflexivity. Qed.

(** An IPv4 family with a short address block aborts the connection task. *)
Example short_block_panics :
  parse (signature ++ [33; 17; 0; 0]) = Panic.
Proof. vm_compute. reflexivity. Qed.

(** Only five of the twelve signature bytes are compared. *)
Example wrong_signature_accepted :
  parse ([13; 10; 13; 10; 0] ++ replicate 7 65 ++ [32; 0; 0; 0])
  = Ok (HV2 unspecified unspecified, 16%nat).
Proof. vm_compute. reflexivity. Qed.

(** ** The binary header *)

Lemma parse_signature t : (4 <= length t)%nat → parse (signature ++ t) = parse_v2 (signature ++ t).
Proof.
  intros Ht. unfold parse. rewrite length_app.
  rewrite (proj2 (Nat.leb_le 16 _)) by (cbn; lia).
  change (take 5 (signature ++ t)) with [13; 10; 13; 10; 0].
  rewrite (bool_decide_eq_false_2 ([13; 10; 13; 10; 0] = bs "PROXY")) by done.
  by rewrite andb_false_r, bool_decide_eq_true_2.
Qed.

Section V2.
Context (s0 s1 s2 s3 d0 d1 d2 d3 sp dp : Z).
Let src := sa_new (V4 [s0; s1; s2; s3]) sp.
Let dst := sa_new (V4 [d0; d1; d2; d3]) dp.

Lemma encode_v2_v4 :
  encode_v2 src dst = signature ++ [33; 17; 0; 12; s0; s1; s2; s3; d0; d1; d2; d3;
    u8! (Z.shiftr sp 8); u8! sp; u8! (Z.shiftr dp 8); u8! dp].
Proof. reflexivity. Qed.

Lemma parse_v2_v4 rest :
  is_u16 sp → is_u16 dp → parse (encode_v2 src dst ++ rest) = Ok (HV2 src dst, 28%nat).
Proof.
  intros Hs Hd. rewrite encode_v2_v4, <- app_assoc, parse_signature by (cbn; lia).
  unfold parse_v2. repeat (erewrite idx_Some by reflexivity).
  change (negb (Z.shiftr 33 4 =? 2)) with false. cbv iota.
  change (Z.to_nat (u16_be 0 12)) with 12%nat.
  rewrite (proj2 (Nat.ltb_ge _ _)) by (cbn; lia).
  rewrite slice_from_ok by (cbn; lia). cbn [Z.eqb orb Pos.eqb drop app signature].
  repeat (erewrite idx_Some by reflexivity). by rewrite !u16_be_bytes.
Qed.

(** A prefix that misses bytes of the header is not taken for one. *)
Lemma parse_v2_prefix n :
  (16 <= n < 28)%nat → ∃ e, parse (take n (encode_v2 src dst)) = Err e.
Proof.
  intros Hn. rewrite encode_v2_v4.
  rewrite take_app_ge by (cbn; lia). change (length signature) with 12%nat.
  rewrite parse_signature by (rewrite length_take; cbn; lia).
  assert (∃ k, n - 12 = S (S (S (S k))) ∧ k < 12)%nat as (k & -> & Hk).
  { exists (n - 16)%nat. lia. }
  unfold parse_v2. cbn [take signature app]. repeat (erewrite idx_Some by reflexivity).
  change (negb (Z.shiftr 33 4 =? 2)) with false. cbv iota.
  change (Z.to_nat (u16_be 0 12)) with 12%nat.
  rewrite (proj2 (Nat.ltb_lt _ _)) by (cbn [length]; rewrite length_take; cbn; lia). by eexists.
Qed.
End V2.

Lemma v4_octets o : ip_wf (V4 o) → ∃ a b c d, o = [a; b; c; d].
Proof.
  intros [Hl _]. destruct o as [|a [|b [|c [|d [|]]]]]; try done. by exists a, b, c, d.
Qed.

Lemma encode_v2_scope a b sc p q sc' :
  encode_v2 (mk_sockaddr a p sc) (mk_sockaddr b q sc') = encode_v2 (sa_new a p) (sa_new b q).
Proof. reflexivity. Qed.

(** For a mixed pair the encoder writes twelve zero bytes and the ports, and
    counts sixteen; the ports come too late for the parser. *)
Lemma encode_v2_mixed a b sc p q sc' :
  is_v4 a = true ∧ is_v4 b = false ∨ is_v4 a = false ∧ is_v4 b = true →
  encode_v2 (mk_sockaddr a p sc) (mk_sockaddr b q sc')
  = signature ++ [33; 17; 0; 16] ++ replicate 12 0 ++ be_bytes 2 p ++ be_bytes 2 q.
Proof. destruct a, b; intros [[H1 H2]|[H1 H2]]; try discriminate; reflexivity. Qed.

Lemma parse_v2_mixed p q rest :
  parse ((signature ++ [33; 17; 0; 16] ++ replicate 12 0 ++ be_bytes 2 p ++ be_bytes 2 q) ++ rest)
  = Ok (HV2 unspecified unspecified, 32%nat).
Proof.
  rewrite <- app_assoc, parse_signature by (cbn; lia). rewrite !be_bytes_2.
  unfold parse_v2. cbn [app signature replicate]. repeat (erewrite idx_Some by reflexivity).
  change (negb (Z.shiftr 33 4 =? 2)) with false. cbv iota.
  change (Z.to_nat (u16_be 0 16)) with 16%nat.
  rewrite (proj2 (Nat.ltb_ge _ _)) by (cbn; lia).
  rewrite slice_from_ok by (cbn; lia). cbn [Z.eqb orb Pos.eqb drop].
  by repeat (erewrite idx_Some by reflexivity).
Qed.

(** The binary header written for a pair of addresses parses back.  Two
    IPv4 addresses with their ports are recovered and the 28 bytes of the
    header counted, whatever follows; for two IPv6 addresses the encoder writes
    a header that the parser refuses; for a mixed pair a 32 byte header that
    parses to unspecified addresses with port 0. *)
Theorem proxy_v2_roundtrip src dst rest :
  sa_wf src → sa_wf dst →
  parse (encode_v2 src dst ++ rest) =
    match ip src, ip dst with
    | V4 _, V4 _ => Ok (HV2 (sa_new (ip src) (port src)) (sa_new (ip dst) (port dst)), 28%nat)
    | V6 _, V6 _ => Err (pp_err (bs "ipv6 v2 not parsed"))
    | _, _ => Ok (HV2 unspecified unspecified, 32%nat)
    end.
Proof.
  destruct src as [[o|o] sp sc], dst as [[o'|o'] dp sc']; intros (Hi & Hp & _) (Hi' & Hp' & _);
    cbn [ip port] in *.
  - destruct (v4_octets _ Hi) as (?&?&?&?&->), (v4_octets _ Hi') as (?&?&?&?&->).
    rewrite encode_v2_scope. rewrite parse_v2_v4 by done. done.
  - rewrite encode_v2_mixed by (by left). apply parse_v2_mixed.
  - rewrite encode_v2_mixed by (by right). apply parse_v2_mixed.
  - destruct Hi as [Hl _], Hi' as [Hl' _].
    unfold encode_v2. cbn [ip port]. rewrite length_app, Hl, Hl'.
    change (be_bytes 2 (u16! (Z.of_nat (16 + 16) + 4))) with [0; 36].
    rewrite <- !app_assoc, parse_signature by (cbn; lia).
    unfold parse_v2. cbn [app signature]. repeat (erewrite idx_Some by reflexivity).
    change (negb (Z.shiftr 33 4 =? 2)) with false. cbv iota.
    change (Z.to_nat (u16_be 0 36)) with 36%nat.
    rewrite (proj2 (Nat.ltb_ge _ _)) by (cbn [length]; rewrite !length_app, Hl, Hl', !length_be_bytes; lia).
    rewrite slice_from_ok by (cbn [length]; lia). done.
Qed.

Lemma proxy_v2_roundtrip_witness :
  let a := sa_new (V4 [192; 168; 1; 5]) 5555 in let b := sa_new (V4 [10; 0; 0; 2]) 80 in
  parse (encode_v2 a b ++ [1; 2; 3]) = Ok (HV2 a b, 28%nat).
Proof. intros a b. apply (proxy_v2_roundtrip a b [1; 2; 3]); by_decide. Defined.

(** ** The text header *)

(** The text header of a pair of IPv4 addresses parses back to them, and
    the bytes counted are the line and its line feed, whatever follows. *)
Theorem proxy_v1_roundtrip src dst rest :
  sa_wf src → sa_wf dst → is_v4 (ip src) = true → is_v4 (ip dst) = true →
  parse (v1_line src dst ++ [13; 10] ++ rest)
  = Ok (HV1 (sa_new (ip src) (port src)) (sa_new (ip dst) (port dst)), (length (v1_line src dst) + 2)%nat).
Proof.
  destruct src as [[o|] sp sc], dst as [[o'|] dp sc']; intros (Hi & Hp & _) (Hi' & Hp' & _) ? ?;
    try done; cbn [ip port] in *.
  assert (0 ≤ sp ∧ 0 ≤ dp) as [Hp0 Hp0'] by (split; [apply Hp | apply Hp']).
  set (line := v1_line _ _).
  assert (Hno : ∀ c, (c < 46 ∨ c = 47 ∨ 57 < c < 97 ∨ 102 < c) →
    c ∉ show_v4 o ∧ c ∉ show_v4 o' ∧ c ∉ show_dec sp ∧ c ∉ show_dec dp).
  { intros c Hc. split; [apply show_v4_no; [apply Hi | lia]|].
    split; [apply show_v4_no; [apply Hi' | lia]|]. split; apply show_dec_no; lia. }
  assert (Hline : line = bs "PROXY" ++ 32 :: bs "TCP4" ++ 32 :: show_v4 o ++ 32 :: show_v4 o' ++ 32 ::
    show_dec sp ++ 32 :: show_dec dp) by done. clearbody line.
  unfold parse. rewrite (proj2 (Nat.leb_le 6 _)) by (rewrite Hline, !length_app; change (length (bs "PROXY")) with 5%nat; cbn [length]; lia).
  rewrite bool_decide_true by (by rewrite Hline). cbn [andb].
  unfold parse_v1.
  assert (Hpart : ∀ x, (∀ c, (c < 46 ∨ c = 47 ∨ 57 < c < 97 ∨ 102 < c) → c ∉ x) →
    Forall (λ b, 31 < b < 128) x).
  { intros x Hx. apply Forall_forall. intros b Hb. destruct (decide (31 < b < 128)); [done|].
    exfalso. apply (Hx b); [lia | done]. }
  assert (Hasc : Forall (λ b, 31 < b < 128) line).
  { assert (Hlit : ∀ l, forallb (λ b, (31 <? b) && (b <? 128)) l = true → Forall (λ b, 31 < b < 128) l).
    { intros l Hl. apply Forall_forall. intros b Hb. apply list_elem_of_In in Hb.
      apply (proj1 (forallb_forall _ _) Hl) in Hb. norm. lia. }
    rewrite Hline. repeat first [apply Forall_app; split | apply Forall_cons; split; [lia|]];
      first [apply Hlit; reflexivity | apply Hpart; intros c Hc; apply Hno, Hc]. }
  assert (13 ∉ line) as H13 by (intros Hin; apply (proj1 (Forall_forall _ _) Hasc) in Hin; lia).
  rewrite find_sub_first by done. cbn [ok_or]. rewrite take_app_length.
  rewrite utf8_valid_ascii by (eapply Forall_impl; [exact Hasc | cbv beta; lia]). cbn [negb].
  destruct (Hno 32) as (?&?&?&?); [lia|]. rewrite Hline.
  rewrite !split_app by (done || by_decide). rewrite split_none by done.
  rewrite bool_decide_true by done. cbn [negb]. unfold parse_addr_v1, parse_u16.
  by rewrite !parse_show_v4, !parse_show_dec by (done || lia).
Qed.

Lemma proxy_v1_roundtrip_witness :
  let a := sa_new (V4 [192; 168; 1; 5]) 5555 in let b := sa_new (V4 [10; 0; 0; 2]) 80 in
  parse (bs "PROXY TCP4 192.168.1.5 10.0.0.2 5555 80" ++ [13; 10] ++ [9]) = Ok (HV1 a b, 41%nat).
Proof.
  intros a b. apply (proxy_v1_roundtrip a b [9]); [by_decide | by_decide | reflexivity | reflexivity].
Defined.

(** ** The reader *)

(** Enough fuel: the loop ends before [fuel] rounds when the buffer can only
    grow to 1025 bytes. *)
Lemma read_header_fuel n : ∀ f1 f2 buf s,
  (1026 - length buf <= n)%nat → (n <= f1)%nat → (n <= f2)%nat → (0 < f1)%nat → (0 < f2)%nat →
  read_header_go f1 buf s = read_header_go f2 buf s.
Proof.
  induction n as [|n IH]; intros f1 f2 buf s Hn H1 H2 P1 P2;
    destruct f1 as [|f1], f2 as [|f2]; try lia; cbn [read_header_go].
  - rewrite (proj2 (Nat.ltb_lt 1024 (length buf))) by lia. done.
  - destruct (Nat.ltb_spec 1024 (length buf)); [done|].
    assert (∀ s b l, read_header_go f1 (buf ++ b :: l) s = read_header_go f2 (buf ++ b :: l) s) as E.
    { intros s' b l. apply IH; rewrite ?length_app; cbn; lia. }
    destruct (read 256 s) as [[[|b l]|e|] s']; rewrite ?E; done.
Qed.

Lemma read_header_v4 src dst payload : ∀ fuel buf s,
  (∃ a b c d, ip src = V4 [a; b; c; d]) → (∃ a b c d, ip dst = V4 [a; b; c; d]) →
  is_u16 (port src) → is_u16 (port dst) → scope_id src = 0 → scope_id dst = 0 →
  clean s → buf ++ avail s = encode_v2 src dst ++ payload → (28 < fuel + length buf)%nat → (0 < fuel)%nat →
  (length buf < 28 + 256)%nat →
  ∃ s' lost, read_header_go fuel buf s = (Ok (HV2 src dst), s') ∧ payload = lost ++ avail s'
    ∧ (length lost < 256)%nat ∧ s_out s' = s_out s.
Proof.
  induction fuel as [|fuel IH]; intros buf s Hs Hd Hsp Hdp Hss Hds Hc E Hf Hf0 Hb; [lia|].
  destruct src as [i sp sc], dst as [j dp sc']; cbn [ip port scope_id] in *.
  destruct Hs as (a&b&c&d&->), Hd as (a'&b'&c'&d'&->). subst sc sc'.
  pose proof (parse_v2_v4 a b c d a' b' c' d' sp dp) as Hfull.
  pose proof (parse_v2_prefix a b c d a' b' c' d' sp dp) as Hpre.
  change (sa_new (V4 [a; b; c; d]) sp) with (mk_sockaddr (V4 [a; b; c; d]) sp 0) in *.
  change (sa_new (V4 [a'; b'; c'; d']) dp) with (mk_sockaddr (V4 [a'; b'; c'; d']) dp 0) in *.
  set (src := mk_sockaddr (V4 [a; b; c; d]) sp 0) in *.
  set (dst := mk_sockaddr (V4 [a'; b'; c'; d']) dp 0) in *.
  assert (Hlen : length (encode_v2 src dst) = 28%nat) by done.
  cbn [read_header_go].
  destruct (Nat.leb_spec 28 (length buf)) as [Hge|Hlt].
  - rewrite (proj2 (Nat.leb_le 16 _)) by lia.
    destruct (prefix_split _ _ _ _ E) as [Hbuf Hrest]; [lia|]. rewrite Hlen in *.
    rewrite Hbuf, Hfull by done. exists s, (drop 28 buf).
    split; [done|]. split; [done|]. split; [|done]. rewrite length_drop. lia.
  - rewrite (proj2 (Nat.ltb_ge 1024 _)) by lia.
    assert (Hnext : ∃ s' lost,
      match read 256 s with
      | (Ok (b :: bs), s) => read_header_go fuel (buf ++ b :: bs) s
      | (Panic, s) => (Panic, s)
      | (_, s) => (Err (pp_err (bs "missing header")), s)
      end = (Ok (HV2 src dst), s') ∧ payload = lost ++ avail s' ∧ (length lost < 256)%nat
      ∧ s_out s' = s_out s).
    { destruct (read_clean 256 s) as (x & s' & Er & Hc' & Ha & Hx & Ho); [lia | done |].
      pose proof (read_length _ _ _ _ Er) as Hxl. rewrite Er. destruct x as [|x xs].
      - rewrite Hx in E by done. rewrite app_nil_r in E. apply (f_equal length) in E.
        rewrite length_app, Hlen in E. lia.
      - rewrite <- Ho. apply IH; try done; try (by repeat eexists).
        + by rewrite <- app_assoc, <- Ha.
        + rewrite length_app. cbn. lia.
        + lia.
        + rewrite length_app. lia. }
    destruct (Nat.leb_spec 16 (length buf)); [|exact Hnext].
    destruct (prefix_split (encode_v2 src dst) payload buf (avail s)) as [Hp _]; [done | lia|].
    destruct (Hpre (length buf)) as [e He]; [lia|].
    rewrite Hp, take_app_length in He. rewrite He. exact Hnext.
Qed.

(** C30: the header reader delivers the header of two IPv4 addresses however
    the stream is cut into segments, and answers nothing; but the bytes that
    arrived together with the end of the header (fewer than 256) are dropped
    with its buffer, so the connection continues in the middle of the payload. *)
Theorem proxy_header_reader src dst payload segs :
  sa_wf src → sa_wf dst → is_v4 (ip src) = true → is_v4 (ip dst) = true →
  scope_id src = 0 → scope_id dst = 0 →
  concat segs = encode_v2 src dst ++ payload →
  ∃ s' lost, read_header_from (stream_of segs) = (Ok (HV2 src dst), s')
    ∧ payload = lost ++ avail s' ∧ (length lost < 256)%nat ∧ s_out s' = [].
Proof.
  intros (Hi & Hp & _) (Hi' & Hp' & _) H4 H4' Hs Hs' E.
  destruct (ip src) as [o|] eqn:Es; [|done]. destruct (ip dst) as [o'|] eqn:Ed; [|done].
  destruct (v4_octets _ Hi) as (a&b&c&d&->), (v4_octets _ Hi') as (a'&b'&c'&d'&->).
  apply read_header_v4; try done; try (by repeat eexists); try (cbn; lia).
  - apply clean_stream_of.
  - by rewrite avail_stream_of.
Qed.

Lemma proxy_header_reader_witness :
  let a := sa_new (V4 [192; 168; 1; 5]) 5555 in let b := sa_new (V4 [10; 0; 0; 2]) 80 in
  ∃ s' lost, read_header_from (stream_of [encode_v2 a b ++ [1; 2]; [3]]) = (Ok (HV2 a b), s')
    ∧ [1; 2; 3] = lost ++ avail s' ∧ (length lost < 256)%nat ∧ s_out s' = [].
Proof.
  intros a b.
  apply (proxy_header_reader a b [1; 2; 3] [encode_v2 a b ++ [1; 2]; [3]]); [by_decide | by_decide | reflexivity..].
Defined.

Example payload_lost :
  let a := sa_new (V4 [192; 168; 1; 5]) 5555 in let b := sa_new (V4 [10; 0; 0; 2]) 80 in
  avail (read_header_from (stream_of [encode_v2 a b ++ [1; 2]; [3]])).2 = [3].
Proof. vm_compute. reflexivity. Qed.
