(* ===== verification/Sniff.v ===== *)
(** * Sniff: finding the destination host in the first bytes

    [omni-transport/src/routing.rs] parses a TLS ClientHello and an HTTP
    request head; [omni-core/src/pipeline/inspector.rs] reads from the client
    until one of them answers.  Index arithmetic is on [nat]: the buffers are
    far below the range of [usize]. *)

From S2P Require Import Prelude Text Io.

(** Functions that return an [Option] and may panic. *)
Abbreviation R := (res Empty_set).

Record SniffResult := mk_sniff { sr_host : option str; sr_protocol : str }.

Definition SNI_MAX_READ : nat := 1024.
Definition HTTP_MAX_READ : nat := Z.to_nat 8192.

Definition looks_like_http (buf : list Z) : bool :=
  existsb (λ m, starts_with (bs m) buf)
    ["GET "; "POST"; "PUT "; "DELE"; "HEAD"; "OPTI"; "PATC"; "CONN"]%string.

(** [u16::from_be_bytes(\[buf\[i\], buf\[i + 1\]\])]. *)
Definition u16_at (buf : list Z) (i : nat) : R Z :=
  let? a := idx buf i in let? b := idx buf (i + 1) in Ok (u16_be a b).

(** The loop over the server names; every round moves [r] by at least three. *)
Fixpoint sni_names (fuel : nat) (buf : list Z) (r list_end : nat) : R (option str) :=
  match fuel with
  | O => Ok None
  | S fuel =>
    if (r + 3 <=? list_end)%nat then
      let? name_type := idx buf r in
      let? nlen := u16_at buf (r + 1) in
      let ns := (r + 3)%nat in
      let ne := (ns + Z.to_nat nlen)%nat in
      if (name_type =? 0) && (ne <=? list_end)%nat then
        let? s := slice buf ns ne in Ok (if utf8_valid s then Some s else None)
      else sni_names fuel buf ne list_end
    else Ok None
  end.

(** The loop over the extensions; every round moves [q] by at least four. *)
Fixpoint sni_exts (fuel : nat) (buf : list Z) (q ext_end : nat) : R (option str) :=
  match fuel with
  | O => Ok None
  | S fuel =>
    if (q + 4 <=? ext_end)%nat then
      let? etype := u16_at buf q in
      let? elen := u16_at buf (q + 2) in
      let body_start := (q + 4)%nat in
      let body_end := (body_start + Z.to_nat elen)%nat in
      if etype =? 0 then
        if (body_end <? body_start + 5)%nat || (length buf <? body_end)%nat then Ok None else
        let? list_len := u16_at buf body_start in
        let list_end := Nat.min (body_start + 2 + Z.to_nat list_len) body_end in
        sni_names (length buf) buf (body_start + 2) list_end
      else sni_exts fuel buf body_end ext_end
    else Ok None
  end.

Definition parse_sni (buf : list Z) : R (option str) :=
  if (length buf <? 43)%nat then Ok None else
  let? rec_len := u16_at buf 3 in
  if (length buf <? 5 + Z.to_nat rec_len)%nat then Ok None else
  let? hs_type := idx buf 5 in
  if negb (hs_type =? 1) then Ok None else
  let? sid_len := u16_at buf 43 in
  let q := (43 + 2 + Z.to_nat sid_len)%nat in
  if (length buf <? q + 2)%nat then Ok None else
  let? cs_len := u16_at buf q in
  let q := (q + (2 + Z.to_nat cs_len))%nat in
  if (length buf <=? q)%nat then Ok None else
  let? cm_len := idx buf q in
  let q := (q + (1 + Z.to_nat cm_len))%nat in
  if (length buf <? q + 2)%nat then Ok None else
  let? ext_len := u16_at buf q in
  let q := (q + 2)%nat in
  sni_exts (length buf) buf q (Nat.min (q + Z.to_nat ext_len) (length buf)).

(** [s\[..n\]] and [s\[n..\]] of a string panic off a character boundary. *)
Definition strip_prefix_ci (s prefix : str) : R (option str) :=
  let n := length prefix in
  if (n <=? length s)%nat then
    if is_char_boundary s n then
      if eq_ignore_ascii_case (take n s) prefix then Ok (Some (drop n s)) else Ok None
    else Panic
  else Ok None.

Definition strip_port (host : str) : str :=
  match find_sub [91] host with
  | Some start =>
    match find_sub [93] (drop start host) with
    | Some e => take (e - 1) (drop (start + 1) host)
    | None => host
    end
  | None =>
    match split_once 58 host with
    | Some (h, p) => if is_ok (parse_u16 p) then h else host
    | None => host
    end
  end.

Fixpoint host_of_lines (ls : list str) : R (option str) :=
  match ls with
  | [] => Ok None
  | l :: ls =>
    match l with
    | [] => Ok None
    | _ =>
      let? r := strip_prefix_ci l (bs "host:") in
      match r with
      | Some rest =>
        let h := trim rest in
        match h with [] => host_of_lines ls | _ => Ok (Some (strip_port h)) end
      | None => host_of_lines ls
      end
    end
  end.

Definition parse_http_host_header (buf : list Z) : R (option str) :=
  if utf8_valid buf then host_of_lines (drop 1 (split_crlf buf)) else Ok None.

(** The first two bytes of a TLS handshake record. *)
Definition tls_head (buf : list Z) : bool :=
  (5 <=? length buf)%nat && bool_decide (take 2 buf = [22; 3]).

Definition try_sniff (buf : list Z) : R (option SniffResult) :=
  let http :=
    if looks_like_http buf then
      let? h := parse_http_host_header buf in
      Ok (option_map (λ h, mk_sniff (Some h) (bs "http")) h)
    else Ok None in
  if tls_head buf then
    let? h := parse_sni buf in
    match h with Some h => Ok (Some (mk_sniff (Some h) (bs "tls"))) | None => http end
  else http.

(** [routing::sniff]; the buffer stops the loop above 8192 bytes. *)
Fixpoint sniff_go (fuel : nat) (buf : list Z) : io SniffResult := λ s,
  match fuel with
  | O => (Ok (mk_sniff None (bs "unknown")), s)
  | S fuel =>
    match try_sniff buf with
    | Panic => (Panic, s)
    | Ok (Some r) => (Ok r, s)
    | _ =>
      if (HTTP_MAX_READ <? length buf)%nat then (Ok (mk_sniff None (bs "unknown")), s) else
      match read 512 s with
      | (Ok [], s) => (Ok (mk_sniff None (bs "unknown")), s)
      | (Ok b, s) => sniff_go fuel (buf ++ b) s
      | (Err e, s) => (Err e, s)
      | (Panic, s) => (Panic, s)
      end
    end
  end.
Definition sniff : io SniffResult := sniff_go (HTTP_MAX_READ + 2) [].

(** ** The inspector *)

Record SniffOutcome := mk_outcome {
  so_host : option str;
  so_protocol : str;
  so_consumed : list Z
}.

Definition try_classify (buf : list Z) : R (option SniffOutcome) :=
  let http :=
    if looks_like_http buf then
      let? h := parse_http_host_header buf in
      Ok (option_map (λ h, mk_outcome (Some h) (bs "http") buf) h)
    else Ok None in
  if tls_head buf then
    let? h := parse_sni buf in
    match h with Some h => Ok (Some (mk_outcome (Some h) (bs "tls") buf)) | None => http end
  else http.

(** [inspect_stream]: the end of the stream, an error and the timeout (an
    error event of the stream) all end the reading. *)
Fixpoint inspect_go (fuel : nat) (buf : list Z) : io SniffOutcome := λ s,
  match fuel with
  | O => (Ok (mk_outcome None (bs "unknown") buf), s)
  | S fuel =>
    match try_classify buf with
    | Panic => (Panic, s)
    | Ok (Some out) => (Ok out, s)
    | _ =>
      match read 512 s with
      | (Ok (b :: bs'), s) =>
        let buf := buf ++ b :: bs' in
        if (HTTP_MAX_READ <? length buf)%nat then (Ok (mk_outcome None (bs "unknown") buf), s)
        else inspect_go fuel buf s
      | (Panic, s) => (Panic, s)
      | (_, s) => (Ok (mk_outcome None (bs "unknown") buf), s)
      end
    end
  end.
Definition inspect_stream : io SniffOutcome := inspect_go (HTTP_MAX_READ + 2) [].

Example http_host_sample :
  parse_http_host_header (bs "GET / HTTP/1.1" ++ [13; 10] ++ bs "Host: www.Example.COM:8443"
    ++ [13; 10; 13; 10]) = Ok (Some (bs "www.Example.COM")).
Proof. vm_compute. reflexivity. Qed.
Example strip_port_cases :
  map strip_port [bs "a.com:99"; bs "[::1]:80"; bs "plain"] = [bs "a.com"; bs "::1"; bs "plain"].
Proof. vm_compute. reflexivity. Qed.
(** A header line whose fifth byte is inside a character. *)
Example host_line_panics :
  parse_http_host_header (bs "GET / HTTP/1.1" ++ [13; 10] ++ bs "abcd" ++ [195; 169] ++ bs ": x") = Panic.
Proof. vm_compute. reflexivity. Qed.
(** A record of exactly 43 bytes. *)
Example short_hello_panics : parse_sni ([22; 3; 1; 0; 38; 1] ++ replicate 37 0) = Panic.
Proof. vm_compute. reflexivity. Qed.

(** ** No index out of range *)

Lemma u16_at_ok buf i : (i + 2 <= length buf)%nat → ∃ v, u16_at buf i = Ok v.
Proof.
  intros. unfold u16_at.
  destruct (@idx_lt Empty_set buf i) as (a & -> & _); [lia|].
  destruct (@idx_lt Empty_set buf (i + 1)) as (b & -> & _); [lia|]. eauto.
Qed.

(** The loops answer, and with any larger fuel they give the same answer. *)
Lemma sni_names_total list_end buf : ∀ n fuel r,
  (list_end <= length buf)%nat → (list_end - r < n)%nat → (n <= fuel)%nat →
  ∃ o, sni_names fuel buf r list_end = Ok o ∧ sni_names n buf r list_end = Ok o.
Proof.
  induction n as [|n IH]; intros fuel r Hl Hn Hf; [lia|].
  destruct fuel as [|fuel]; [lia|]. cbn [sni_names].
  destruct (Nat.leb_spec (r + 3) list_end); [|by eexists].
  destruct (@idx_lt Empty_set buf r) as (x & -> & _); [lia|].
  destruct (u16_at_ok buf (r + 1)) as (v & ->); [lia|].
  destruct (x =? 0); cbn [andb].
  - destruct (Nat.leb_spec (r + 3 + Z.to_nat v) list_end).
    + rewrite slice_ok by lia. by eexists.
    + apply IH; lia.
  - apply IH; lia.
Qed.

Lemma sni_exts_total ext_end buf : ∀ n fuel q,
  (ext_end <= length buf)%nat → (ext_end - q < n)%nat → (n <= fuel)%nat →
  ∃ o, sni_exts fuel buf q ext_end = Ok o ∧ sni_exts n buf q ext_end = Ok o.
Proof.
  induction n as [|n IH]; intros fuel q Hl Hn Hf; [lia|].
  destruct fuel as [|fuel]; [lia|]. cbn [sni_exts].
  destruct (Nat.leb_spec (q + 4) ext_end); [|by eexists].
  destruct (u16_at_ok buf q) as (t & ->); [lia|].
  destruct (u16_at_ok buf (q + 2)) as (l & ->); [lia|].
  destruct (t =? 0); [|apply IH; lia].
  destruct (Nat.ltb_spec (q + 4 + Z.to_nat l) (q + 4 + 5)); [by eexists|].
  destruct (Nat.ltb_spec (length buf) (q + 4 + Z.to_nat l)); [by eexists|]. cbn [orb].
  destruct (u16_at_ok buf (q + 4)) as (ll & ->); [lia|].
  destruct (sni_names_total (Nat.min (q + 4 + 2 + Z.to_nat ll) (q + 4 + Z.to_nat l)) buf
    (length buf) (length buf) (q + 4 + 2)) as (o & -> & _); [lia.. |]. by exists o.
Qed.

(** The ClientHello parser is total.  On every buffer of at least 45 bytes,
    whatever its length fields claim, it returns an answer: no index is out of
    range and both loops end. *)
Theorem parse_sni_total buf : (45 <= length buf)%nat → ∃ o, parse_sni buf = Ok o.
Proof.
  intros Hb. unfold parse_sni. rewrite (proj2 (Nat.ltb_ge _ 43)) by lia.
  destruct (u16_at_ok buf 3) as (rl & ->); [lia|].
  destruct (Nat.ltb_spec (length buf) (5 + Z.to_nat rl)); [by eexists|].
  destruct (@idx_lt Empty_set buf 5) as (h & -> & _); [lia|].
  destruct (negb (h =? 1)); [by eexists|].
  destruct (u16_at_ok buf 43) as (sl & ->); [lia|].
  set (q := (43 + 2 + Z.to_nat sl)%nat).
  destruct (Nat.ltb_spec (length buf) (q + 2)); [by eexists|].
  destruct (u16_at_ok buf q) as (cs & ->); [lia|]. clearbody q.
  set (q1 := (q + (2 + Z.to_nat cs))%nat).
  destruct (Nat.leb_spec (length buf) q1); [by eexists|].
  destruct (@idx_lt Empty_set buf q1) as (cm & -> & _); [lia|]. clearbody q1.
  set (q2 := (q1 + (1 + Z.to_nat cm))%nat).
  destruct (Nat.ltb_spec (length buf) (q2 + 2)); [by eexists|].
  destruct (u16_at_ok buf q2) as (el & ->); [lia|]. clearbody q2. cbv zeta.
  destruct (sni_exts_total (Nat.min (q2 + 2 + Z.to_nat el) (length buf)) buf
    (length buf) (length buf) (q2 + 2)) as (o & -> & _); [lia.. |]. by exists o.
Qed.

Lemma parse_sni_total_witness : ∃ o, parse_sni ([22; 3; 1; 0; 40; 1] ++ replicate 39 255) = Ok o.
Proof. apply parse_sni_total. vm_compute. lia. Defined.

(** The session identifier length is read as two bytes.  When the byte at
    offset 43 is 32, as in a ClientHello with the usual 32-byte session
    identifier of RFC 8446 (one length byte), the parser skips at least 8192
    bytes and finds no name in any buffer the inspector can hold. *)
Theorem sni_missed buf :
  buf !! 43%nat = Some 32 → bytes buf → (45 <= length buf)%nat → Z.of_nat (length buf) < 8239 →
  parse_sni buf = Ok None.
Proof.
  intros H43 Hby Hb Hlt. unfold parse_sni. rewrite (proj2 (Nat.ltb_ge _ 43)) by lia.
  destruct (u16_at_ok buf 3) as (rl & ->); [lia|].
  destruct (Nat.ltb_spec (length buf) (5 + Z.to_nat rl)); [done|].
  destruct (@idx_lt Empty_set buf 5) as (h & -> & _); [lia|].
  destruct (negb (h =? 1)); [done|].
  unfold u16_at at 1. rewrite (idx_Some _ _ _ H43).
  destruct (@idx_lt Empty_set buf (43 + 1)) as (y & -> & Hy); [lia|].
  apply (bytes_lookup _ _ _ Hby) in Hy. cbv zeta.
  assert (8192 ≤ u16_be 32 y).
  { change (8192 ≤ y + 256 * (32 + 256 * 0)). unfold in_range in Hy. lia. }
  by rewrite (proj2 (Nat.ltb_lt _ _)) by lia.
Qed.

Lemma sni_missed_witness :
  parse_sni ([22; 3; 1; 0; 100; 1; 0; 0; 96; 3; 3] ++ replicate 32 7 ++ [32] ++ replicate 61 9) = Ok None.
Proof. apply sni_missed; [reflexivity | by_decide | vm_compute; lia | vm_compute; reflexivity]. Defined.

(** ** The layout the parser expects *)

(** An extension of type [t]. *)
Definition extension (t : Z) (body : list Z) : list Z :=
  be_bytes 2 t ++ be_bytes 2 (Z.of_nat (length body)) ++ body.

Definition server_name (host : str) : list Z :=
  be_bytes 2 (Z.of_nat (length host) + 3) ++ [0] ++ be_bytes 2 (Z.of_nat (length host)) ++ host.

(** A ClientHello record with a two-byte session identifier length. *)
Definition client_hello (ver rnd sid suites comps : list Z) (exts : list Z) : list Z :=
  let body := ver ++ rnd ++ be_bytes 2 (Z.of_nat (length sid)) ++ sid
    ++ be_bytes 2 (Z.of_nat (length suites)) ++ suites
    ++ [Z.of_nat (length comps)] ++ comps ++ be_bytes 2 (Z.of_nat (length exts)) ++ exts in
  [22; 3; 1] ++ be_bytes 2 (Z.of_nat (length body) + 4)
  ++ [1] ++ be_bytes 3 (Z.of_nat (length body)) ++ body.

(** Cursors: [drop q buf] is what the parser has in front of it. *)
Lemma cur_u16 buf q v t :
  drop q buf = be_bytes 2 v ++ t → is_u16 v → u16_at buf q = Ok v ∧ drop (q + 2) buf = t.
Proof.
  intros Hd Hv. rewrite be_bytes_2 in Hd. unfold u16_at, idx.
  rewrite <- (Nat.add_0_r q) at 1. rewrite <- !lookup_drop, Hd. cbn.
  split; [by rewrite u16_be_bytes|]. by rewrite <- drop_drop, Hd.
Qed.

Lemma cur_skip {A} (buf x t : list A) q n :
  drop q buf = x ++ t → n = length x → drop (q + n) buf = t.
Proof. intros Hd ->. by rewrite <- drop_drop, Hd, drop_app_length. Qed.

Lemma cur_len {A} (buf x t : list A) q :
  drop q buf = x ++ t → x ≠ [] → (q + length x + length t = length buf)%nat.
Proof.
  intros Hd Hx. apply (f_equal length) in Hd. rewrite length_drop, length_app in Hd.
  destruct x; [done|]. cbn in *. lia.
Qed.

Lemma sni_names_found buf q host t f :
  drop q buf = [0] ++ be_bytes 2 (Z.of_nat (length host)) ++ host ++ t →
  Z.of_nat (length host) < 65536 → utf8_valid host = true →
  sni_names (S f) buf q (q + 3 + length host) = Ok (Some host).
Proof.
  intros Hd Hh Hu. cbn [sni_names]. rewrite (proj2 (Nat.leb_le _ _)) by lia.
  pose proof (cur_len _ _ _ _ Hd) as Hl. rewrite length_app, length_app, length_be_bytes in Hl.
  unfold idx at 1. rewrite <- (Nat.add_0_r q) at 1. rewrite <- lookup_drop, Hd. cbn [app lookup list_lookup].
  apply (cur_skip _ [0] _ q 1) in Hd; [|done].
  destruct (cur_u16 _ _ _ _ Hd) as [-> Hd1]; [unfold in_range; lia|].
  rewrite Nat2Z.id, (proj2 (Nat.leb_le _ _)) by lia. cbn [Z.eqb andb].
  rewrite slice_ok by (specialize (Hl ltac:(done)); cbn in Hl; lia).
  replace (q + 1 + 2)%nat with (q + 3)%nat in Hd1 by lia.
  rewrite Hd1. replace (q + 3 + length host - (q + 3))%nat with (length host) by lia.
  by rewrite take_app_length, Hu.
Qed.

Lemma sni_exts_found pre host post buf : ∀ q f,
  drop q buf = concat (map (λ e, extension e.1 e.2) pre) ++ extension 0 (server_name host) ++ post →
  Forall (λ e : Z * list Z, is_u16 e.1 ∧ e.1 ≠ 0 ∧ Z.of_nat (length e.2) < 65536) pre →
  Z.of_nat (length host) < 65531 → utf8_valid host = true → (0 < length buf)%nat →
  (length pre < f)%nat → sni_exts f buf q (length buf) = Ok (Some host).
Proof.
  induction pre as [|[t b] pre IH]; intros q f Hd Hpre Hh Hu Hb Hf; destruct f as [|f];
    cbn [length] in Hf; [lia | | lia |]; cbn [sni_exts map concat app fst snd] in *.
  - unfold extension in Hd. rewrite <- !app_assoc in Hd.
    assert (Hsl : length (server_name host) = (length host + 5)%nat) by (unfold server_name; len).
    pose proof (cur_len _ _ _ _ Hd ltac:(done)) as Hl.
    rewrite !length_app, !length_be_bytes, Hsl in Hl.
    rewrite (proj2 (Nat.leb_le _ _)) by lia.
    destruct (cur_u16 _ _ _ _ Hd) as [-> Hd1]; [done|].
    destruct (cur_u16 _ _ _ _ Hd1) as [-> Hd2]; [unfold in_range; lia|].
    rewrite Nat2Z.id. change (0 =? 0) with true. cbv iota.
    rewrite (proj2 (Nat.ltb_ge _ (_ + 5))), (proj2 (Nat.ltb_ge (length buf) _)) by lia. cbn [orb].
    replace (q + 2 + 2)%nat with (q + 4)%nat in Hd2 by lia.
    unfold server_name in Hd2. rewrite <- !app_assoc in Hd2.
    destruct (cur_u16 _ _ _ _ Hd2) as [-> Hd3]; [unfold in_range; lia|].
    rewrite Hsl. replace (Nat.min _ _) with (q + 4 + 2 + 3 + length host)%nat by lia.
    destruct (length buf) as [|n] eqn:E; [lia|].
    apply (sni_names_found _ _ _ post); [done | lia | done].
  - apply Forall_cons in Hpre as [(Ht & Ht0 & Hbl) Hpre]. cbn [fst snd] in *.
    unfold extension at 1 in Hd. rewrite <- !app_assoc in Hd.
    pose proof (cur_len _ _ _ _ Hd ltac:(done)) as Hl.
    rewrite !length_app, !length_be_bytes in Hl. unfold extension in Hl at 2.
    rewrite !length_app, !length_be_bytes in Hl.
    rewrite (proj2 (Nat.leb_le _ _)) by lia.
    destruct (cur_u16 _ _ _ _ Hd) as [-> Hd1]; [done|].
    destruct (cur_u16 _ _ _ _ Hd1) as [-> Hd2]; [unfold in_range; lia|].
    rewrite (proj2 (Z.eqb_neq t 0)), Nat2Z.id by done.
    apply IH; try done; [|lia].
    apply (cur_skip _ b); [|done]. rewrite <- Hd2. f_equal. lia.
Qed.

(** The parser finds the name in the layout it expects: a ClientHello whose
    session identifier has a two-byte length, with any identifier, cipher
    suites, compression methods, extensions before the server name (of any
    other type) and after it. *)
Theorem sni_found ver rnd sid suites comps pre host post :
  length ver = 2%nat → length rnd = 32%nat →
  Forall (λ e : Z * list Z, is_u16 e.1 ∧ e.1 ≠ 0 ∧ Z.of_nat (length e.2) < 65536) pre →
  utf8_valid host = true → Z.of_nat (length host) < 65531 → (length comps < 256)%nat →
  let exts := concat (map (λ e, extension e.1 e.2) pre) ++ extension 0 (server_name host) ++ post in
  let buf := client_hello ver rnd sid suites comps exts in
  Z.of_nat (length buf) < 65536 →
  parse_sni buf = Ok (Some host).
Proof.
  intros Hv Hr Hpre Hu Hh Hc exts buf Hlen.
  set (body := ver ++ rnd ++ be_bytes 2 (Z.of_nat (length sid)) ++ sid
    ++ be_bytes 2 (Z.of_nat (length suites)) ++ suites
    ++ [Z.of_nat (length comps)] ++ comps ++ be_bytes 2 (Z.of_nat (length exts)) ++ exts).
  assert (Hbuf : buf = [22; 3; 1] ++ be_bytes 2 (Z.of_nat (length body) + 4) ++ [1] ++
    be_bytes 3 (Z.of_nat (length body)) ++ body) by done. clearbody buf.
  assert (Hexts : exts = concat (map (λ e, extension e.1 e.2) pre) ++ extension 0 (server_name host) ++ post)
    by done. clearbody exts.
  assert (Hbl : length buf = (9 + length body)%nat) by (rewrite Hbuf; len).
  assert (Hbody : length body = (41 + length sid + length suites + length comps + length exts)%nat).
  { unfold body. rewrite !length_app, !length_be_bytes, Hv, Hr. cbn [length]. lia. }
  assert (He : (length pre < length exts)%nat).
  { rewrite Hexts, length_app. unfold extension at 2. rewrite !length_app, !length_be_bytes.
    clear. induction pre as [|[t b] pre IH]; cbn [map concat length fst snd]; [lia|].
    rewrite length_app. unfold extension at 1. rewrite !length_app, !length_be_bytes. lia. }
  unfold parse_sni. rewrite (proj2 (Nat.ltb_ge _ 43)) by lia.
  assert (H3 : drop 3 buf = be_bytes 2 (Z.of_nat (length body) + 4) ++ [1] ++
    be_bytes 3 (Z.of_nat (length body)) ++ body) by by rewrite Hbuf.
  destruct (cur_u16 _ _ _ _ H3) as [-> H5]; [unfold in_range; lia|].
  rewrite (proj2 (Nat.ltb_ge _ _)) by lia.
  change (3 + 2)%nat with 5%nat in H5. unfold idx at 1. change (buf !! 5%nat) with (buf !! (5 + 0)%nat).
  rewrite <- lookup_drop, H5. cbn [app lookup list_lookup Z.eqb Pos.eqb negb].
  assert (H43 : drop 43 buf = drop 34 body).
  { apply (cur_skip _ [1] _ 5 1) in H5; [|done].
    apply (cur_skip _ _ _ 6 3) in H5; [|by rewrite length_be_bytes].
    change 43%nat with (9 + 34)%nat. change (6 + 3)%nat with 9%nat in H5.
    by rewrite <- drop_drop, H5. }
  unfold body in H43. rewrite app_assoc, drop_app_length' in H43 by len.
  destruct (cur_u16 _ _ _ _ H43) as [-> Hd]; [unfold in_range; lia|]. cbv zeta.
  rewrite !Nat2Z.id. apply (cur_skip _ sid _ _ (length sid)) in Hd; [|done].
  rewrite (proj2 (Nat.ltb_ge _ _)) by lia.
  destruct (cur_u16 _ _ _ _ Hd) as [-> Hd1]; [unfold in_range; lia|].
  apply (cur_skip _ suites _ _ (length suites)) in Hd1; [|done]. rewrite !Nat2Z.id.
  rewrite (proj2 (Nat.leb_gt _ _)) by lia.
  rewrite <- Nat.add_assoc in Hd1.
  set (q := (43 + 2 + length sid + (2 + length suites))%nat) in *.
  assert (Hq : q = (43 + 2 + length sid + (2 + length suites))%nat) by done. clearbody q.
  unfold idx at 1. rewrite <- (Nat.add_0_r q) at 1. rewrite <- lookup_drop, Hd1.
  cbn [app lookup list_lookup]. rewrite Nat2Z.id.
  apply (cur_skip _ (_ :: comps) _ _ (1 + length comps)) in Hd1; [|done].
  rewrite (proj2 (Nat.ltb_ge _ _)) by lia.
  destruct (cur_u16 _ _ _ _ Hd1) as [-> Hd2]; [unfold in_range; lia|].
  rewrite Nat2Z.id. replace (Nat.min _ _) with (length buf) by lia.
  apply (sni_exts_found pre host post); [by rewrite Hd2 | done | done | done | lia | lia].
Qed.

Lemma sni_found_witness :
  parse_sni (client_hello [3; 3] (replicate 32 0) [] [19; 1] [0]
    (extension 10 [0; 2; 0; 29] ++ extension 0 (server_name (bs "example.com")) ++ [0; 43; 0; 0]))
  = Ok (Some (bs "example.com")).
Proof.
  apply (sni_found [3; 3] (replicate 32 0) [] [19; 1] [0] [(10, [0; 2; 0; 29])] (bs "example.com") [0; 43; 0; 0]);
    [reflexivity | reflexivity | by_decide | vm_compute; reflexivity | vm_compute; reflexivity
    | vm_compute; lia | vm_compute; reflexivity].
Defined.

(** ** The inspector loses nothing *)

(** Every byte still to come, timeouts and errors in between included. *)
Fixpoint pending_ev (evs : list rd_event) : list Z :=
  match evs with
  | [] => []
  | Data b :: evs => b ++ pending_ev evs
  | RdErr _ :: evs => pending_ev evs
  end.
Definition pending (s : sock) : list Z := pending_ev (s_in s).

Lemma read_pending n s :
  let '(r, s') := read n s in
  s_out s' = s_out s ∧ s_wr s' = s_wr s ∧ s_shut s' = s_shut s ∧
  match r with
  | Ok b => pending s = b ++ pending s'
  | Err _ => pending s = pending s'
  | Panic => False
  end.
Proof.
  unfold read, pending. destruct (read_ev (s_in s) n) as [r evs] eqn:E. cbn [s_out s_wr s_shut s_in].
  split; [done|]. split; [done|]. split; [done|]. revert r evs E.
  induction (s_in s) as [|[[|x b]|e] l IH]; cbn [read_ev pending_ev]; intros r evs E; simplify_eq.
  - done.
  - by apply IH.
  - destruct (Nat.ltb_spec n (length (x :: b))); cbn [pending_ev].
    + by rewrite app_assoc, take_drop.
    + by rewrite take_ge by lia.
  - done.
Qed.

Lemma inspect_go_ok fuel : ∀ buf s out s',
  inspect_go fuel buf s = (Ok out, s') →
  so_consumed out ++ pending s' = buf ++ pending s ∧ (s_out s' = s_out s ∧ s_wr s' = s_wr s) ∧
  (so_host out = None ∨ try_classify (so_consumed out) = Ok (Some out)).
Proof.
  induction fuel as [|fuel IH]; intros buf s out s' H; cbn [inspect_go] in H.
  { simplify_eq. by auto. }
  assert (Hcl : ∀ b o, try_classify b = Ok (Some o) → so_consumed o = b).
  { clear. intros b o. unfold try_classify, option_map. intros H. ok_inv H; done. }
  destruct (try_classify buf) as [[o|]|e|] eqn:Ec; [| |destruct e|done].
  - injection H as -> ->. rewrite (Hcl _ _ Ec) in *. by auto.
  - pose proof (read_pending 512 s) as Hr. destruct (read 512 s) as [[[|b l]|e|] s1].
    all: destruct Hr as (Ho & Hw & _ & Hp).
    + injection H as <- <-. rewrite Hp. by auto.
    + destruct (HTTP_MAX_READ <? _)%nat.
      * injection H as <- <-. cbn [so_consumed so_host]. rewrite Hp, <- app_assoc. by auto.
      * apply IH in H as (H1 & [H2 H2'] & H3). rewrite H1, H2, H2', Hp, <- app_assoc. by auto.
    + injection H as <- <-. rewrite Hp. by auto.
    + done.
Qed.

(** The loop ends before its fuel. *)
Lemma inspect_fuel n : ∀ f1 f2 buf s,
  (HTTP_MAX_READ + 1 - length buf < n)%nat → (n <= f1)%nat → (n <= f2)%nat →
  inspect_go f1 buf s = inspect_go f2 buf s.
Proof.
  induction n as [|n IH]; intros f1 f2 buf s Hn H1 H2; [lia|].
  destruct f1 as [|f1], f2 as [|f2]; try lia. cbn [inspect_go].
  destruct (try_classify buf) as [[o|]|e|]; try done;
    destruct (read 512 s) as [[[|b l]|e'|] s1]; try done;
    destruct (Nat.ltb_spec HTTP_MAX_READ (length (buf ++ b :: l))); try done;
    apply IH; rewrite ?length_app in *; cbn [length] in *; lia.
Qed.

Lemma eq_sym_exists {A} (x : A) : ∃ y, y = x.
Proof. by exists x. Qed.

Lemma inspect_stream_unfold s : inspect_stream s = inspect_go (HTTP_MAX_READ + 2) [] s.
Proof. unfold inspect_stream. reflexivity. Qed.

Lemma inspect_stream_fuel fuel s :
  (HTTP_MAX_READ + 2 <= fuel)%nat → inspect_go fuel [] s = inspect_stream s.
Proof.
  intros Hf. rewrite inspect_stream_unfold.
  destruct (eq_sym_exists (HTTP_MAX_READ + 2)%nat) as [n En]. rewrite <- En in *.
  apply (inspect_fuel n); [|done..]. change (length (@nil Z)) with 0%nat. lia.
Qed.

(** C23: sniffing loses no byte.  Whatever arrives, in whatever segments, with
    timeouts and errors in between, what the inspector hands on as consumed
    followed by what is still to come is what the client sent; nothing is
    written; and a host is reported only when the consumed bytes parse as a
    request naming it.  More rounds would change nothing. *)
Theorem inspect_preserves s out s' :
  inspect_stream s = (Ok out, s') →
  so_consumed out ++ pending s' = pending s ∧ s_out s' = s_out s
  ∧ (so_host out = None ∨ try_classify (so_consumed out) = Ok (Some out))
  ∧ ∀ fuel, (HTTP_MAX_READ + 2 <= fuel)%nat → inspect_go fuel [] s = (Ok out, s').
Proof.
  intros H. pose proof H as H'. rewrite inspect_stream_unfold in H'.
  destruct (inspect_go_ok _ _ _ _ _ H') as (H1 & [H2 _] & H3). cbn [app] in H1.
  split; [done|]. split; [done|]. split; [done|]. intros fuel Hf. by rewrite inspect_stream_fuel.
Qed.

Lemma inspect_preserves_witness :
  let s := mk_sock [Data (bs "GET / HT"); Data (bs "TP/1.1" ++ [13; 10] ++ bs "Host: a.b" ++ [13; 10]);
                    RdErr early_eof; Data [1; 2]] [] [] false in
  let out := mk_outcome (Some (bs "a.b")) (bs "http")
    (bs "GET / HTTP/1.1" ++ [13; 10] ++ bs "Host: a.b" ++ [13; 10]) in
  so_consumed out ++ [1; 2] = pending s.
Proof.
  intros s out.
  destruct (inspect_preserves s out (mk_sock [RdErr early_eof; Data [1; 2]] [] [] false)) as [H _];
    [vm_compute; reflexivity | exact H].
Defined.
