(* ===== verification/Aead.v ===== *)
(** * Aead: the interface to the AEAD crates, and the tasks of a duplex

    The ciphers of the [aes-gcm] and [chacha20poly1305] crates, with the laws
    the protocols rely on: opening what was sealed under the same key, nonce
    and associated data gives it back, ciphertexts are as long as plaintexts
    and tags have sixteen bytes.  [detached_ciphers] is a concrete instance.
    The reading task of [vmess_duplex] and [ss_duplex] is shared. *)

From S2P Require Import Prelude Text Io.

Inductive aead_alg := Aes128Gcm | Aes256Gcm | ChaCha20Poly1305 | XChaCha20Poly1305.

#[export] Instance aead_alg_eq_dec : EqDecision aead_alg.
Proof. solve_decision. Defined.

Class Aead := {
  (** [encrypt_in_place_detached]: ciphertext and tag. *)
  aead_seal : aead_alg → list Z → list Z → list Z → list Z → list Z * list Z;
  (** [decrypt_in_place_detached]: key, nonce, associated data, ciphertext, tag. *)
  aead_open : aead_alg → list Z → list Z → list Z → list Z → list Z → option (list Z);
  aead_open_seal : ∀ g k n a p, let '(c, t) := aead_seal g k n a p in aead_open g k n a c t = Some p;
  aead_seal_length : ∀ g k n a p, length (aead_seal g k n a p).1 = length p
                                  ∧ length (aead_seal g k n a p).2 = 16%nat;
  aead_open_length : ∀ g k n a c t p, aead_open g k n a c t = Some p → length p = length c
}.

(** Ciphertext followed by its tag, the usual layout. *)
Definition sealed `{Aead} (g : aead_alg) (k n a p : list Z) : list Z :=
  let '(c, t) := aead_seal g k n a p in c ++ t.

(** Opening that layout; too short an input is refused. *)
Definition open_sealed `{Aead} (g : aead_alg) (k n a data : list Z) : option (list Z) :=
  if (length data <? 16)%nat then None
  else aead_open g k n a (take (length data - 16) data) (drop (length data - 16) data).

Lemma sealed_length `{Aead} g k n a p : length (sealed g k n a p) = (length p + 16)%nat.
Proof.
  unfold sealed. destruct (aead_seal_length g k n a p) as [H1 H2].
  destruct (aead_seal g k n a p) as [c t]. cbn in *. len.
Qed.

Lemma open_sealed_seal `{Aead} g k n a p : open_sealed g k n a (sealed g k n a p) = Some p.
Proof.
  unfold open_sealed. rewrite sealed_length, (proj2 (Nat.ltb_ge _ _)) by lia.
  unfold sealed. pose proof (aead_open_seal g k n a p) as Ho.
  destruct (aead_seal_length g k n a p) as [H1 H2].
  destruct (aead_seal g k n a p) as [c t]. cbn [fst snd] in *.
  by rewrite take_app_length', drop_app_length' by lia.
Qed.

Lemma open_sealed_length `{Aead} g k n a d p :
  open_sealed g k n a d = Some p → length d = (length p + 16)%nat.
Proof.
  unfold open_sealed. destruct (Nat.ltb_spec (length d) 16); [done|].
  intros Ho%aead_open_length. rewrite length_take in Ho. lia.
Qed.

(** A stand-in: the plaintext itself, and a tag cut from the key, the nonce,
    the associated data and the plaintext. *)
Definition plain_tag (k n a p : list Z) : list Z := take 16 (k ++ n ++ a ++ p ++ replicate 16 0).
Lemma plain_tag_length k n a p : length (plain_tag k n a p) = 16%nat.
Proof. unfold plain_tag. len. Qed.

Definition detached_ciphers : Aead.
Proof.
  refine {|
    aead_seal _ k n a p := (p, plain_tag k n a p);
    aead_open _ k n a c t := if bool_decide (t = plain_tag k n a c) then Some c else None |}.
  - intros. by rewrite bool_decide_true.
  - intros. split; [done | apply plain_tag_length].
  - intros g k n a c t p. destruct (bool_decide _); [by intros [= ->] | done].
Defined.

(** ** The reading task of a duplex

    [vmess_duplex] and [ss_duplex] move what a reader decrypts into a queue,
    16384 bytes at most at a time, until it answers no bytes (the end) or an
    error, which is handed on. *)

Section Duplex.
Context {St : Type} (read_data : nat → St → io (list Z * St)).

Fixpoint duplex_read (fuel : nat) (r : St) (s : sock) : list Z * res ioerr unit :=
  match fuel with
  | O => ([], Ok tt)
  | S fuel =>
    match read_data (Z.to_nat 16384) r s with
    | (Ok ([], _), _) => ([], Ok tt)
    | (Ok (b, r), s) => let '(l, e) := duplex_read fuel r s in (b ++ l, e)
    | (Err e, _) => ([], Err e)
    | (Panic, _) => ([], Panic)
    end
  end.
End Duplex.

Section DuplexWrite.
Context {St : Type} (write_chunk : list Z → St → sock → res ioerr unit * St * sock).

(** The writing task: empty buffers are skipped, the first error ends the
    loop, and a last chunk without data is written. *)
Fixpoint duplex_write (queue : list (list Z)) (w : St) (s : sock) : sock :=
  match queue with
  | [] => (write_chunk [] w s).2
  | [] :: queue => duplex_write queue w s
  | v :: queue =>
    match write_chunk v w s with
    | (Ok _, w, s) => duplex_write queue w s
    | (_, w, s) => (write_chunk [] w s).2
    end
  end.
End DuplexWrite.

(** ** [ChannelDuplex]

    The stream at the other end of the queues: [ch_rx] is what the reading task
    has put in, [ch_closed] says that the task is gone. *)

Record ChannelDuplex := mk_chan {
  ch_rx : list (res ioerr (list Z));
  ch_closed : bool;
  ch_pending : list Z;
  ch_eof : bool
}.

(** The loop of [poll_read] into [n] bytes of room; [None] is [Pending].  Every
    turn after the first takes an element of the queue. *)
Fixpoint chan_poll (fuel n : nat) (c : ChannelDuplex) : option (res ioerr (list Z)) * ChannelDuplex :=
  match fuel with
  | O => (None, c)
  | S fuel =>
    match ch_pending c with
    | _ :: _ =>
      let k := Nat.min n (length (ch_pending c)) in
      (Some (Ok (take k (ch_pending c))), mk_chan (ch_rx c) (ch_closed c) (drop k (ch_pending c)) (ch_eof c))
    | [] =>
      if ch_eof c then (Some (Ok []), c) else
      match ch_rx c with
      | Ok [] :: rx => chan_poll fuel n (mk_chan rx (ch_closed c) [] true)
      | Ok data :: rx => chan_poll fuel n (mk_chan rx (ch_closed c) data false)
      | Err e :: rx => (Some (Err e), mk_chan rx (ch_closed c) [] true)
      | Panic :: rx => (Some Panic, mk_chan rx (ch_closed c) [] true)
      | [] => if ch_closed c then (Some (Ok []), mk_chan [] true [] true) else (None, c)
      end
    end
  end.
Definition chan_poll_read (n : nat) (c : ChannelDuplex) : option (res ioerr (list Z)) * ChannelDuplex :=
  chan_poll (S (S (length (ch_rx c)))) n c.

(** [poll_write]: the buffer is queued for the writing task, unless that is
    gone. *)
Definition chan_poll_write (alive : bool) (queue : list (list Z)) (b : list Z) : res ioerr (nat * list (list Z)) :=
  if alive then Ok (length b, queue ++ [b]) else Err (mk_ioerr BrokenPipe (bs "ss: writer closed")).

(** The end of what the reading task queues. *)
Definition chan_end (e : res ioerr unit) : list (res ioerr (list Z)) :=
  match e with Ok _ => [Ok []] | Err e => [Err e; Ok []] | Panic => [] end.

(** What the queue delivers. *)
Fixpoint queued (rx : list (res ioerr (list Z))) (closed : bool) : list Z * outcome :=
  match rx with
  | [] => ([], if closed then OEof else OWait)
  | Ok [] :: _ => ([], OEof)
  | Ok d :: rx => let '(l, o) := queued rx closed in (d ++ l, o)
  | Err e :: _ => ([], OErr e)
  | Panic :: _ => ([], OPanic)
  end.

Definition chan_delivers (c : ChannelDuplex) : list Z * outcome :=
  if ch_eof c then (ch_pending c, OEof)
  else (ch_pending c ++ (queued (ch_rx c) (ch_closed c)).1, (queued (ch_rx c) (ch_closed c)).2).

Lemma chan_poll_pending fuel n rx closed x b eof :
  (0 < n)%nat →
  match chan_poll (S fuel) n (mk_chan rx closed (x :: b) eof) with
  | (Some (Ok (y :: c)), st) =>
    chan_delivers (mk_chan rx closed (x :: b) eof) = ((y :: c) ++ (chan_delivers st).1, (chan_delivers st).2)
  | _ => False
  end.
Proof.
  intros Hn. destruct n as [|n]; [lia|]. cbn [chan_poll ch_pending length Nat.min take drop ch_rx ch_closed ch_eof].
  unfold chan_delivers. cbn [ch_eof ch_pending ch_rx ch_closed].
  destruct eof; cbn [fst snd app]; [by rewrite take_drop | by rewrite app_assoc, take_drop].
Qed.

(** Every read gives the next part of what the tasks have queued. *)
Lemma chan_polls n : (0 < n)%nat → polls_to (chan_poll_read n) chan_delivers.
Proof.
  intros Hn [rx closed pending eof]. unfold chan_poll_read. cbn [ch_rx].
  destruct pending as [|x b].
  - cbn [chan_poll ch_pending ch_eof ch_rx ch_closed]. destruct eof; [done|].
    destruct rx as [|[[|x b]|e|] rx]; [by destruct closed|done| |done..]. cbn [length].
    pose proof (chan_poll_pending (length rx) n rx closed x b false Hn) as Hp.
    cbn [length chan_poll ch_pending ch_eof ch_rx ch_closed] in Hp |- *.
    destruct (take _ (x :: b)) as [|y c]; [done|]. rewrite <- Hp.
    unfold chan_delivers. cbn [ch_eof ch_pending ch_rx ch_closed queued]. by destruct (queued rx closed).
  - pose proof (chan_poll_pending (S (length rx)) n rx closed x b eof Hn) as Hp.
    destruct (chan_poll (S (S (length rx))) n (mk_chan rx closed (x :: b) eof)) as [[[[|y c]|e|]|] st]; done.
Qed.
