(* ===== verification/Duplex.v ===== *)
(** * Duplex: the writing side of an encrypted duplex, step by step

    [ChannelDuplex] and the writing task of [vmess_duplex] and [ss_duplex]
    ([omni-core/src/runtime/assembly/outbound_artifacts.rs]) with the operations
    of the stream's owner and the turns of the task in any order.  Aead has the
    outcome of the whole task ([duplex_write]); here it is reached, and what the
    peer has seen before is known too. *)

From S2P Require Import Prelude Text Io Aead.

Section Writing.
Context {St : Type} (write_chunk : list Z → St → sock → res ioerr unit * St * sock).

(** The queue, whether the owner still holds the stream, the writer of a task
    that runs, and the stream below. *)
Record Duplex := mk_duplex {
  dx_queue : list (list Z);
  dx_held : bool;
  dx_task : option St;
  dx_sock : sock
}.
Definition duplex_new (w : St) (s : sock) : Duplex := mk_duplex [] true (Some w) s.

(** A poll of the owner, the drop of the stream, or a turn of the task. *)
Inductive duplex_op := DWrite (b : list Z) | DFlush | DShutdown | DDrop | DTask.

(** The last chunk, and the end of the task. *)
Definition task_end (queue : list (list Z)) (held : bool) (w : St) (s : sock) : Duplex :=
  mk_duplex queue held None (write_chunk [] w s).2.

(** One turn of the loop over the queue: it waits while the queue is empty and
    the stream is held. *)
Definition task_turn (d : Duplex) : Duplex :=
  let 'mk_duplex queue held task s := d in
  match task with
  | None => d
  | Some w =>
    match queue with
    | [] => if held then d else task_end [] held w s
    | [] :: queue => mk_duplex queue held (Some w) s
    | v :: queue =>
      match write_chunk v w s with
      | (Ok _, w, s) => mk_duplex queue held (Some w) s
      | (_, w, s) => task_end queue held w s
      end
    end
  end.

(** What a poll answers, with the state it leaves. *)
Definition dx_poll_write (b : list Z) (d : Duplex) : res ioerr nat * Duplex :=
  match chan_poll_write (bool_decide (is_Some (dx_task d))) (dx_queue d) b with
  | Ok (n, queue) => (Ok n, mk_duplex queue (dx_held d) (dx_task d) (dx_sock d))
  | Err e => (Err e, d)
  | Panic => (Panic, d)
  end.
Definition dx_poll_flush (d : Duplex) : res ioerr unit * Duplex := (Ok tt, d).
Definition dx_poll_shutdown (d : Duplex) : res ioerr unit * Duplex := (Ok tt, d).

(** Nobody polls a stream that was dropped. *)
Definition duplex_step (d : Duplex) (op : duplex_op) : Duplex :=
  match op with
  | DTask => task_turn d
  | DDrop => mk_duplex (dx_queue d) false (dx_task d) (dx_sock d)
  | DWrite b => if dx_held d then (dx_poll_write b d).2 else d
  | DFlush => if dx_held d then (dx_poll_flush d).2 else d
  | DShutdown => if dx_held d then (dx_poll_shutdown d).2 else d
  end.
Definition duplex_run : Duplex → list duplex_op → Duplex := foldl duplex_step.

(** ** What is promised *)

(** What becomes of a state if the stream is dropped now and the task runs on. *)
Definition outcome_of (d : Duplex) : sock :=
  match dx_task d with Some w => duplex_write write_chunk (dx_queue d) w (dx_sock d) | None => dx_sock d end.

(** The writes that a run accepts: those of a held stream whose task runs. *)
Fixpoint accepted (d : Duplex) (ops : list duplex_op) : list (list Z) :=
  match ops with
  | [] => []
  | op :: ops =>
    match op with
    | DWrite b => if dx_held d && bool_decide (is_Some (dx_task d)) then [b] else []
    | _ => []
    end ++ accepted (duplex_step d op) ops
  end.

(** The chunks of writes alone, the last chunk not among them. *)
Fixpoint write_all_chunks (ws : list (list Z)) (w : St) (s : sock) : option (St * sock) :=
  match ws with
  | [] => Some (w, s)
  | [] :: ws => write_all_chunks ws w s
  | v :: ws => match write_chunk v w s with (Ok _, w, s) => write_all_chunks ws w s | _ => None end
  end.

Lemma write_all_chunks_app ws ws' w s w1 s1 :
  write_all_chunks ws w s = Some (w1, s1) → write_all_chunks (ws ++ ws') w s = write_all_chunks ws' w1 s1.
Proof.
  revert w s; induction ws as [|[|x v] ws IH]; intros w s H; cbn [app write_all_chunks] in *.
  - by injection H as -> ->.
  - by apply IH.
  - destruct (write_chunk (x :: v) w s) as [[[u|e|] w2] s2]; [by apply IH|done..].
Qed.

Lemma duplex_write_chunks ws ws' w s w1 s1 :
  write_all_chunks ws w s = Some (w1, s1) → duplex_write write_chunk (ws ++ ws') w s = duplex_write write_chunk ws' w1 s1.
Proof.
  revert w s; induction ws as [|[|x v] ws IH]; intros w s H; cbn [app write_all_chunks duplex_write] in *.
  - by injection H as -> ->.
  - by apply IH.
  - destruct (write_chunk (x :: v) w s) as [[[u|e|] w2] s2]; [by apply IH|done..].
Qed.

(** When a chunk fails, the chunks behind it do not matter. *)
Lemma duplex_write_fails ws ws' w s :
  write_all_chunks ws w s = None → duplex_write write_chunk (ws ++ ws') w s = duplex_write write_chunk ws w s.
Proof.
  revert w s; induction ws as [|[|x v] ws IH]; intros w s H; cbn [app write_all_chunks duplex_write] in *; [done|by apply IH|].
  destruct (write_chunk (x :: v) w s) as [[[u|e|] w2] s2]; [by apply IH|done..].
Qed.

(** The task and what it was given: it runs and has written the chunks of some
    of the writes, the rest is queued; or it has ended and nothing can change. *)
Inductive progress (w0 : St) (s0 : sock) (ws : list (list Z)) : Duplex → Prop :=
| prog_runs sent queue held w s :
    ws = sent ++ queue → write_all_chunks sent w0 s0 = Some (w, s) → progress w0 s0 ws (mk_duplex queue held (Some w) s)
| prog_ended queue held s :
    (held = true → write_all_chunks ws w0 s0 = None) → s = duplex_write write_chunk ws w0 s0 →
    progress w0 s0 ws (mk_duplex queue held None s).

Lemma progress_new w s : progress w s [] (duplex_new w s).
Proof. by apply (prog_runs w s [] []). Qed.

Lemma progress_turn w0 s0 ws d : progress w0 s0 ws d → progress w0 s0 ws (task_turn d).
Proof.
  intros [sent queue held w s Hws Hd|queue held s Hf Hs]; [|by apply prog_ended]. cbn [task_turn].
  destruct queue as [|v queue].
  - destruct held; [by apply (prog_runs w0 s0 ws sent)|]. apply prog_ended; [done|].
    by rewrite Hws, (duplex_write_chunks sent [] w0 s0 w s Hd).
  - assert (Hnext : ∀ w1 s1, write_all_chunks [v] w s = Some (w1, s1) →
      progress w0 s0 ws (mk_duplex queue held (Some w1) s1)).
    { intros w1 s1 H1. apply (prog_runs w0 s0 ws (sent ++ [v])); [by rewrite <- app_assoc|].
      by rewrite (write_all_chunks_app sent [v] w0 s0 w s Hd). }
    assert (Hend : ∀ s1, write_all_chunks [v] w s = None → s1 = duplex_write write_chunk (v :: queue) w s →
      progress w0 s0 ws (mk_duplex queue held None s1)).
    { intros s1 Hn ->. apply prog_ended.
      - intros _. rewrite Hws, (write_all_chunks_app sent _ w0 s0 w s Hd). cbn [write_all_chunks] in Hn |- *.
        destruct v as [|x v]; [done|]. by destruct (write_chunk (x :: v) w s) as [[[]]].
      - by rewrite Hws, (duplex_write_chunks sent _ w0 s0 w s Hd). }
    cbn [write_all_chunks duplex_write] in Hnext, Hend. destruct v as [|x v]; [by apply Hnext|].
    destruct (write_chunk (x :: v) w s) as [[[u|e|] w1] s1]; [by apply Hnext|by apply Hend..].
Qed.

Lemma progress_step w0 s0 ws d op :
  progress w0 s0 ws d → progress w0 s0 (ws ++ accepted d [op]) (duplex_step d op).
Proof.
  intros H. destruct op as [b| | | |]; cbn [accepted duplex_step]; rewrite ?app_nil_r;
    try (by destruct (dx_held d)); [|by destruct H as [sent|]; [apply (prog_runs _ _ _ sent)|apply prog_ended]|by apply progress_turn].
  destruct H as [sent queue held w s Hws Hd|queue held s Hf Hs]; cbn [dx_held dx_task].
  - destruct held; cbn [andb]; rewrite ?app_nil_r; [|by apply (prog_runs _ _ _ sent)].
    rewrite bool_decide_eq_true_2 by done. unfold dx_poll_write. cbn [dx_task dx_queue].
    rewrite bool_decide_eq_true_2 by done. apply (prog_runs _ _ _ sent); [|done]. by rewrite Hws, app_assoc.
  - rewrite andb_comm, bool_decide_eq_false_2 by (intros [? ?]; done). cbn [andb]. rewrite app_nil_r.
    unfold dx_poll_write. cbn [dx_task]. rewrite bool_decide_eq_false_2 by (intros [? ?]; done).
    destruct held; by apply prog_ended.
Qed.

Lemma progress_run ops : ∀ w0 s0 ws d, progress w0 s0 ws d → progress w0 s0 (ws ++ accepted d ops) (duplex_run d ops).
Proof.
  induction ops as [|op ops IH]; intros w0 s0 ws d H; cbn [accepted]; [by rewrite app_nil_r|].
  pose proof (progress_step w0 s0 ws d op H) as H1. cbn [accepted] in H1. rewrite app_nil_r in H1.
  rewrite app_assoc. by apply IH.
Qed.

(** A dropped stream's task is over after a turn for each queued buffer and one
    more. *)
Lemma task_over queue : ∀ w s, dx_task (duplex_run (mk_duplex queue false (Some w) s) (replicate (S (length queue)) DTask)) = None.
Proof.
  assert (Hend : ∀ n q s, dx_task (duplex_run (mk_duplex q false None s) (replicate n DTask)) = None) by (induction n; auto).
  induction queue as [|v queue IH]; intros w s; [done|]. cbn [length]. remember (S (length queue)) as n eqn:En.
  cbn [replicate duplex_run foldl duplex_step task_turn]. subst n. fold duplex_run.
  destruct v as [|x v]; [apply IH|]. destruct (write_chunk (x :: v) w s) as [[[u|e|] w1] s1]; [apply IH|apply Hend..].
Qed.

(** The writing side of an encrypted duplex, however the owner's polls and the
    task's turns interleave.  While the stream is held and no chunk has failed,
    the peer has seen the chunks of some of the writes, in order, and never the
    last chunk that ends the stream: flushes and shutdowns, at any point, do
    nothing.  Once it is dropped and the task has had a turn for each queued
    buffer and one more, the peer has seen exactly what the task as a whole
    writes of the accepted writes. *)
Theorem duplex_half_close w s ops :
  let d := duplex_run (duplex_new w s) ops in
  let ws := accepted (duplex_new w s) ops in
  (dx_held d = true → is_Some (write_all_chunks ws w s) →
     ∃ sent w1, dx_task d = Some w1 ∧ sent `prefix_of` ws ∧ write_all_chunks sent w s = Some (w1, dx_sock d))
  ∧ dx_sock (duplex_run d (DDrop :: replicate (S (length (dx_queue d))) DTask)) = duplex_write write_chunk ws w s.
Proof.
  intros d ws. pose proof (progress_run ops w s [] _ (progress_new w s)) as Hp. fold d ws in Hp. cbn [app] in Hp. split.
  - intros Hh [x Hx]. destruct Hp as [sent queue held w1 s1 Hws Hd|queue held s1 Hf Hs].
    + exists sent, w1. split; [done|]. split; [|done]. rewrite Hws. by apply prefix_app_r.
    + cbn [dx_held] in Hh. rewrite (Hf Hh) in Hx. done.
  - pose proof (progress_run (DDrop :: replicate (S (length (dx_queue d))) DTask) w s ws d Hp) as H2.
    assert (accepted d (DDrop :: replicate (S (length (dx_queue d))) DTask) = []) as Ha.
    { cbn [accepted app]. generalize (S (length (dx_queue d))), (duplex_step d DDrop). intros n.
      induction n as [|n IH]; intros d'; [done|]. apply IH. }
    rewrite Ha, app_nil_r in H2.
    assert (dx_task (duplex_run d (DDrop :: replicate (S (length (dx_queue d))) DTask)) = None) as Ht.
    { clear. destruct d as [queue held task s1]. cbn [duplex_run foldl duplex_step dx_queue dx_task dx_sock]. fold duplex_run.
      destruct task as [w1|]; [apply task_over|]. generalize (S (length queue)). intros n. by induction n. }
    destruct H2 as [sent queue held w1 s1 _ _|queue held s1 _ Hs]; [done|exact Hs].
Qed.
End Writing.
