(* ===== verification/Shadowsocks.v ===== *)
(** * Shadowsocks: AEAD streams over TCP

    [omni-proto/src/proto/shadowsocks/]: key derivation (MD5 and HKDF-SHA1,
    written out in the sources), the chunk stream in both directions, the
    inbound and the outbound.  The ciphers are the interface [Aead]; sealing
    fails only on inputs no chunk reaches, so it is total here. *)

From S2P Require Import Prelude Text Net Io Socks5 Hash Crypto Trojan Aead.

Definition MAX_PAYLOAD : nat := Z.to_nat 16383.
Definition TAG_LEN : nat := 16.
Definition NONCE_LEN : nat := 12.

(** ** Methods *)

Inductive Method := MAes128Gcm | MAes256Gcm | MChaCha20IetfPoly1305.

#[export] Instance ss_method_eq_dec : EqDecision Method.
Proof. solve_decision. Defined.

Definition method_parse (s : str) : option Method :=
  let l := to_ascii_lowercase s in
  if bool_decide (l = bs "aes-128-gcm") then Some MAes128Gcm
  else if bool_decide (l = bs "aes-256-gcm") then Some MAes256Gcm
  else if bool_decide (l = bs "chacha20-ietf-poly1305") || bool_decide (l = bs "chacha20-poly1305")
  then Some MChaCha20IetfPoly1305
  else None.
Definition key_len (m : Method) : nat := match m with MAes128Gcm => 16 | _ => 32 end.
Definition salt_len (m : Method) : nat := key_len m.

(** ** Keys *)

(** The loop of [evp_bytes_to_key]: every round adds sixteen bytes. *)
Fixpoint evp_go (fuel : nat) (password prev out : list Z) (key_len : nat) : list Z :=
  match fuel with
  | O => out
  | S fuel =>
    if (length out <? key_len)%nat then
      let d := Md5.digest [prev ++ password] in
      evp_go fuel password d (out ++ d) key_len
    else out
  end.
Definition evp_bytes_to_key (password : list Z) (key_len : nat) : list Z :=
  take key_len (evp_go key_len password [] [] key_len).

Module Sha1.
Definition Sha1 : Type := Hasher.
Definition new : Sha1 := start [0x67452301; 0xefcdab89; 0x98badcfe; 0x10325476; 0xc3d2e1f0].

(** The message schedule: sixteen big-endian words, then 64 derived ones. *)
Definition schedule_step (w : list Z) (i : nat) : list Z :=
  w ++ [rotl 32 (Z.lxor (Z.lxor (Z.lxor (w !!! (i - 3)%nat) (w !!! (i - 8)%nat)) (w !!! (i - 14)%nat))
                        (w !!! (i - 16)%nat)) 1].
Definition schedule (block : list Z) : list Z :=
  fold_left schedule_step (seq 16 64)
    (map (λ i, be_value (take 4 (drop (i * 4) block))) (seq 0 16)).

Definition round (w : list Z) (st : Z * Z * Z * Z * Z) (i : nat) : Z * Z * Z * Z * Z :=
  let '(a, b, c, d, e) := st in
  let '(f, k) :=
    match (i / 20)%nat with
    | 0%nat => (Z.lor (Z.land b c) (Z.land (wnot 32 b) d), 0x5a827999)
    | 1%nat => (Z.lxor (Z.lxor b c) d, 0x6ed9eba1)
    | 2%nat => (Z.lor (Z.lor (Z.land b c) (Z.land b d)) (Z.land c d), 0x8f1bbcdc)
    | _ => (Z.lxor (Z.lxor b c) d, 0xca62c1d6)
    end in
  let tmp := wadd 32 (wadd 32 (wadd 32 (wadd 32 (rotl 32 a 5) f) e) k) (w !!! i) in
  (tmp, a, rotl 32 b 30, c, d).

Definition block (s : list Z) (b : list Z) : list Z :=
  match s with
  | [h0; h1; h2; h3; h4] =>
    let '(a, b, c, d, e) := fold_left (round (schedule b)) (seq 0 80) (h0, h1, h2, h3, h4) in
    [wadd 32 h0 a; wadd 32 h1 b; wadd 32 h2 c; wadd 32 h3 d; wadd 32 h4 e]
  | _ => s
  end.

Definition update (x : Sha1) (data : list Z) : Sha1 := Hash.update block x data.
Definition finalize (x : Sha1) : list Z := Hash.finalize block (be_bytes 8) (be_bytes 4) x.
End Sha1.

Definition sha1 (data : list Z) : list Z := Sha1.finalize (Sha1.update Sha1.new data).

Definition hmac_sha1 (key data : list Z) : list Z :=
  let k := if (64 <? length key)%nat then sha1 key ++ replicate 44 0
           else key ++ replicate (64 - length key) 0 in
  let ipad := map (λ b, Z.lxor b 0x36) k in
  let opad := map (λ b, Z.lxor b 0x5c) k in
  sha1 (opad ++ sha1 (ipad ++ data)).

Definition extract (salt ikm : list Z) : list Z := hmac_sha1 salt ikm.

(** The loop of [expand]: every round adds twenty bytes. *)
Fixpoint expand_go (fuel : nat) (prk info t okm : list Z) (counter : Z) (n : nat) : list Z :=
  match fuel with
  | O => okm
  | S fuel =>
    if (length okm <? n)%nat then
      let t := hmac_sha1 prk (t ++ info ++ [counter]) in
      expand_go fuel prk info t (okm ++ t) (wadd 8 counter 1) n
    else okm
  end.
Definition expand (prk info : list Z) (n : nat) : list Z := take n (expand_go n prk info [] [] 1 n).

Definition derive_subkey (master_key salt : list Z) : list Z :=
  expand (extract salt master_key) (bs "ss-subkey") (length master_key).

Fixpoint increment_nonce (nonce : list Z) : list Z :=
  match nonce with
  | [] => []
  | b :: rest =>
    let b := wadd 8 b 1 in
    if b =? 0 then b :: increment_nonce rest else b :: rest
  end.

Example sha1_abc : hex_encode (sha1 (bs "abc")) = bs "a9993e364706816aba3e25717850c26c9cd0d89d".
Proof. vm_compute. reflexivity. Qed.
Example hmac_sha1_rfc2202 :
  hex_encode (hmac_sha1 (replicate 20 11) (bs "Hi There")) = bs "b617318655057264e28bc0b6fb378c8ef146be00".
Proof. vm_compute. reflexivity. Qed.

(** ** The chunk stream *)

Section Stream.
Context `{AE : Aead}.

Record SsAead := mk_ssaead { ss_method : Method; ss_key : list Z }.

(** [SsAead::new] aborts on a key of the wrong length. *)
Definition ssaead_new (m : Method) (key : list Z) : res ioerr SsAead :=
  if (length key =? key_len m)%nat then Ok (mk_ssaead m key) else Panic.

Definition alg_of (m : Method) : aead_alg :=
  match m with
  | MAes128Gcm => Aes128Gcm
  | MAes256Gcm => Aes256Gcm
  | MChaCha20IetfPoly1305 => ChaCha20Poly1305
  end.
Definition ss_seal (c : SsAead) (nonce plaintext : list Z) : list Z * list Z :=
  aead_seal (alg_of (ss_method c)) (ss_key c) nonce [] plaintext.
Definition ss_open (c : SsAead) (nonce ciphertext tag : list Z) : option (list Z) :=
  aead_open (alg_of (ss_method c)) (ss_key c) nonce [] ciphertext tag.

(** [read_full]: every round of its loop takes a byte or fails. *)
Fixpoint read_full (fuel n : nat) : io (list Z) :=
  match n with
  | O => ret []
  | _ =>
    match fuel with
    | O => ret []
    | S fuel =>
      do! b := read n in
      match b with
      | [] => fail (mk_ioerr UnexpectedEof (bs "shadowsocks: stream closed mid-chunk"))
      | _ => do! rest := read_full fuel (n - length b) in ret (b ++ rest)
      end
    end
  end.

Record SsReader := mk_ss_reader {
  sr_cipher : SsAead;
  sr_nonce : list Z;
  sr_rbuf : list Z;
  sr_rpos : nat;
  sr_eof : bool
}.
Definition ss_reader_new (c : SsAead) (nonce : list Z) : SsReader := mk_ss_reader c nonce [] 0 false.

(** After an error the reader is not used again, so it is not returned. *)
Definition ss_fill_chunk (r : SsReader) : io SsReader :=
  do! hdr := read_full 18 18 in
  do! h0 <- idx hdr 0 in
  do! h1 <- idx hdr 1 in
  do! tag <- slice hdr 2 18 in
  match ss_open (sr_cipher r) (sr_nonce r) [h0; h1] tag with
  | None => fail (invalid_data (bs "shadowsocks: length decrypt failed"))
  | Some len_ct =>
    let nonce := increment_nonce (sr_nonce r) in
    do! l0 <- idx len_ct 0 in
    do! l1 <- idx len_ct 1 in
    let len := Z.to_nat (u16_be l0 l1) in
    if (MAX_PAYLOAD <? len)%nat then fail (invalid_data (bs "shadowsocks: payload too large")) else
    do! body := read_full (len + 16) (len + 16) in
    match ss_open (sr_cipher r) nonce (take len body) (drop len body) with
    | None => fail (invalid_data (bs "shadowsocks: payload decrypt failed"))
    | Some plain =>
      ret (mk_ss_reader (sr_cipher r) (increment_nonce nonce) plain 0 (sr_eof r || (len =? 0)%nat))
    end
  end.

Definition read_target (r : SsReader) : io (ProxyTarget * SsReader) :=
  do! r := if (length (sr_rbuf r) <=? sr_rpos r)%nat && negb (sr_eof r) then ss_fill_chunk r else ret r in
  do! rest <- slice_from (sr_rbuf r) (sr_rpos r) in
  do! (addr, used) <- map_err invalid_data (decode rest) in
  ret (to_proxy_target addr,
       mk_ss_reader (sr_cipher r) (sr_nonce r) (sr_rbuf r) (sr_rpos r + used) (sr_eof r)).

(** [read_data] into a buffer of [n] bytes.  A filled chunk holds a byte or is
    the end, so the loop makes at most two rounds. *)
Fixpoint ss_read_go (fuel n : nat) (r : SsReader) : io (list Z * SsReader) :=
  match fuel with
  | O => ret ([], r)
  | S fuel =>
    if (sr_rpos r <? length (sr_rbuf r))%nat then
      let k := Nat.min n (length (sr_rbuf r) - sr_rpos r) in
      ret (take k (drop (sr_rpos r) (sr_rbuf r)),
           mk_ss_reader (sr_cipher r) (sr_nonce r) (sr_rbuf r) (sr_rpos r + k) (sr_eof r))
    else if sr_eof r then ret ([], r)
    else do! r := ss_fill_chunk r in ss_read_go fuel n r
  end.
Definition ss_read_data : nat → SsReader → io (list Z * SsReader) := ss_read_go 3.

Record SsWriter := mk_ss_writer { sw_cipher : SsAead; sw_nonce : list Z }.

(** [seal] of the writer: the ciphertext, the tag and the next nonce. *)
Definition writer_seal (w : SsWriter) (p : list Z) : list Z * list Z * SsWriter :=
  let '(c, t) := ss_seal (sw_cipher w) (sw_nonce w) p in
  (c, t, mk_ss_writer (sw_cipher w) (increment_nonce (sw_nonce w))).

Fixpoint ss_write_pieces (pieces : list (list Z)) (w : SsWriter) (s : sock)
    : res ioerr unit * SsWriter * sock :=
  match pieces with
  | [] => (Ok tt, w, s)
  | piece :: pieces =>
    let '(hdr, ltag, w) := writer_seal w (be_bytes 2 (u16! (Z.of_nat (length piece)))) in
    let '(payload, ptag, w) := writer_seal w piece in
    match (do! _ := write_all hdr in do! _ := write_all ltag in
           do! _ := write_all payload in write_all ptag) s with
    | (Ok _, s) => ss_write_pieces pieces w s
    | (r, s) => (r, w, s)
    end
  end.
Definition ss_write_chunk (data : list Z) (w : SsWriter) (s : sock) : res ioerr unit * SsWriter * sock :=
  ss_write_pieces (chunks MAX_PAYLOAD data) w s.

(** ** Inbound and outbound; the random salt is an argument *)

Record SsConfig := mk_ss_config { ss_cfg_method : str; ss_cfg_password : str }.

Definition parsed_method (cfg : SsConfig) : res ioerr Method :=
  ok_or (invalid_data (bs "shadowsocks: unsupported method '" ++ ss_cfg_method cfg ++ [39]))
    (method_parse (ss_cfg_method cfg)).
Definition master_key (cfg : SsConfig) : res ioerr (list Z) :=
  let? m := parsed_method cfg in Ok (evp_bytes_to_key (ss_cfg_password cfg) (key_len m)).

Definition ss_accept_tcp (cfg : SsConfig) : io (SsReader * SsWriter) :=
  do! method <- parsed_method cfg in
  do! master <- master_key cfg in
  do! salt := read_exact (salt_len method) in
  do! cipher <- ssaead_new method (derive_subkey master salt) in
  ret (ss_reader_new cipher (replicate 12 0), mk_ss_writer cipher (replicate 12 0)).

Definition ss_connect_tcp (cfg : SsConfig) (salt : list Z) (target : ProxyTarget) : io (SsReader * SsWriter) :=
  do! method <- parsed_method cfg in
  do! master <- master_key cfg in
  do! _ := write_all salt in
  do! cipher <- ssaead_new method (derive_subkey master salt) in
  let addr := encode (from_proxy_target target) in
  let writer := mk_ss_writer cipher (replicate 12 0) in
  let reader := ss_reader_new cipher (replicate 12 0) in
  λ s, match ss_write_chunk addr writer s with
       | (Ok _, writer, s) => (Ok (reader, writer), s)
       | (Err e, _, s) => (Err e, s)
       | (Panic, _, s) => (Panic, s)
       end.

End Stream.

(** ** Key lengths *)

Lemma md5_digest_length parts : length (Md5.digest parts) = 16%nat.
Proof.
  apply (finalize_length Md5.compress); [|intros; apply length_le_bytes].
  intros s b. unfold Md5.compress. destruct s as [|? [|? [|? [|? [|]]]]]; reflexivity.
Qed.

Lemma sha1_length data : length (sha1 data) = 20%nat.
Proof.
  apply (finalize_length Sha1.block) with (parts := [data]); [|intros; apply length_be_bytes].
  intros s b. unfold Sha1.block. destruct s as [|? [|? [|? [|? [|? [|]]]]]]; reflexivity.
Qed.

(** SHA-1 as the digest of FIPS 180 of the whole message. *)
Lemma sha1_spec data :
  sha1 data = hash_spec Sha1.block (be_bytes 8) (be_bytes 4) [0x67452301; 0xefcdab89; 0x98badcfe; 0x10325476; 0xc3d2e1f0] data.
Proof. rewrite <- (app_nil_r data) at 2. apply (streaming Sha1.block _ _ _ [data]). Qed.

Lemma evp_length pw k : length (evp_bytes_to_key pw k) = k.
Proof.
  assert (∀ fuel prev out, (k <= length out + 16 * fuel)%nat →
            (k <= length (evp_go fuel pw prev out k))%nat) as Hgo.
  { induction fuel as [|fuel IH]; intros prev out Hk; cbn [evp_go]; [lia|].
    destruct (Nat.ltb_spec (length out) k); [|lia]. apply IH.
    rewrite length_app, md5_digest_length. lia. }
  unfold evp_bytes_to_key. rewrite length_take. specialize (Hgo k [] [] ltac:(cbn; lia)). lia.
Qed.

Lemma expand_length prk info n : length (expand prk info n) = n.
Proof.
  assert (∀ fuel t okm c, (n <= length okm + 20 * fuel)%nat →
            (n <= length (expand_go fuel prk info t okm c n))%nat) as Hgo.
  { induction fuel as [|fuel IH]; intros t okm c Hk; cbn [expand_go]; [lia|].
    destruct (Nat.ltb_spec (length okm) n); [|lia]. apply IH.
    rewrite length_app. unfold hmac_sha1. rewrite sha1_length. lia. }
  unfold expand. rewrite length_take. specialize (Hgo n [] [] 1 ltac:(cbn; lia)). lia.
Qed.

(** The subkey has the master key's length, so building the cipher succeeds. *)
Lemma ssaead_new_ok m pw salt :
  ssaead_new m (derive_subkey (evp_bytes_to_key pw (key_len m)) salt)
  = Ok (mk_ssaead m (derive_subkey (evp_bytes_to_key pw (key_len m)) salt)).
Proof.
  unfold ssaead_new, derive_subkey. rewrite expand_length, evp_length.
  by rewrite Nat.eqb_refl.
Qed.

(** ** The stream carries chunks *)

Section StreamTheory.
Context `{AE : Aead}.

Lemma yields_read_some n i :
  (0 < n)%nat → i ≠ [] → ∀ s, avail s = i → s_wr s = [] → clean s →
  ∃ b s', read n s = (Ok b, s') ∧ b ≠ [] ∧ (length b <= n)%nat ∧ i = b ++ avail s'
    ∧ s_out s' = s_out s ∧ s_wr s' = [] ∧ s_shut s' = s_shut s ∧ clean s'.
Proof.
  intros Hn Hi s Ha Hw Hc. destruct (read_clean n s Hn Hc) as (b & s' & Hr & Hc' & Hav & Hb & Ho).
  exists b, s'. pose proof (read_length _ _ _ _ Hr) as Hl.
  assert (s_wr s' = s_wr s ∧ s_shut s' = s_shut s) as [Hw' Hs'].
  { unfold read in Hr. destruct (read_ev _ _) as [r evs]. by simplify_eq/=. }
  rewrite <- Ha. repeat split; try done; [|congruence]. intros ->. apply Hi. rewrite <- Ha. by apply Hb.
Qed.

(** *** What a client has to know *)

(** The bytes start with a salt and a chunk whose length and payload open under
    the key of the method, the password and the salt. *)
Definition ss_credentials (cfg : SsConfig) (i : list Z) : Prop :=
  ∃ m salt len tag body btag rest n p, method_parse (ss_cfg_method cfg) = Some m
  ∧ i = salt ++ len ++ tag ++ body ++ btag ++ rest
  ∧ length salt = salt_len m ∧ length len = 2%nat ∧ length tag = 16%nat ∧ length btag = 16%nat
  ∧ let c := mk_ssaead m (derive_subkey (evp_bytes_to_key (ss_cfg_password cfg) (key_len m)) salt) in
    ss_open c (replicate 12 0) len tag = Some n ∧ ss_open c (increment_nonce (replicate 12 0)) body btag = Some p.

Lemma read_full_inv fuel : ∀ n s a s', read_full fuel n s = (Ok a, s') → (n <= fuel)%nat →
  avail s = a ++ avail s' ∧ length a = n.
Proof.
  induction fuel as [|fuel IH]; intros [|n] s a s' H Hn; cbn [read_full] in H; try lia; try (by injection H as <- <-).
  io_inv H. apply read_inv in Hm as [Ha Hl]. destruct x as [|x b]; [done|]. io_inv H. injection H as <- <-.
  destruct (IH _ _ _ _ Hm) as [Ha' Hl']; [cbn [length]; lia|].
  change (x :: b ++ x0) with ((x :: b) ++ x0). rewrite Ha, Ha', app_assoc, length_app, Hl'. split; [done|lia].
Qed.

Lemma fill_chunk_inv r s r' s' : ss_fill_chunk r s = (Ok r', s') →
  ∃ len tag body btag n p, avail s = len ++ tag ++ body ++ btag ++ avail s'
  ∧ length len = 2%nat ∧ length tag = 16%nat ∧ length btag = 16%nat
  ∧ ss_open (sr_cipher r) (sr_nonce r) len tag = Some n
  ∧ ss_open (sr_cipher r) (increment_nonce (sr_nonce r)) body btag = Some p.
Proof.
  unfold ss_fill_chunk. intros H. io_inv H. apply read_full_inv in Hm as [Ha Hl]; [|lia].
  destruct x as [|h0 [|h1 tag]]; [done|done|]. cbn [length] in Hl.
  rewrite (idx_Some _ 0 h0), (idx_Some _ 1 h1) in H by done.
  rewrite (slice_ok _ 2 18) in H; [|lia|cbn [length]; lia].
  do 3 (io_inv H; apply lift_ok in Hm as [[= <-] ->]). cbn [drop] in H. rewrite (take_ge tag) in H by lia.
  destruct (ss_open _ _ [h0; h1] tag) as [n|] eqn:En; [|done].
  do 2 (io_inv H; apply lift_ok in Hm as [_ ->]).
  destruct (_ <? _)%nat; [done|]. io_inv H. apply read_full_inv in Hm as [Ha' Hl']; [|lia].
  destruct (ss_open _ _ (take _ _) (drop _ _)) as [p|] eqn:Ep; [|done]. injection H as _ <-.
  eexists [h0; h1], tag, _, _, n, p. split_and!; [|done|lia| |done|exact Ep].
  - rewrite Ha, Ha'. cbn [app]. do 3 f_equal. rewrite app_assoc. by rewrite take_drop.
  - rewrite length_drop. lia.
Qed.

Lemma ss_presents cfg s t r s' :
  (do! (r, _) := ss_accept_tcp cfg in read_target r) s = (Ok (t, r), s') → ss_credentials cfg (avail s).
Proof.
  intros H. io_inv H. destruct x as [r0 w0]. unfold ss_accept_tcp, master_key, parsed_method in Hm.
  destruct (method_parse (ss_cfg_method cfg)) as [m|] eqn:Em; cbn [ok_or] in Hm; [|done].
  do 3 io_inv Hm. apply lift_ok in Hm0 as [[= <-] ->], Hm1 as [[= <-] ->]. apply read_exact_inv in Hm2 as (Ha & Hl & _).
  io_inv Hm. rewrite ssaead_new_ok in Hm0. apply lift_ok in Hm0 as [[= <-] ->]. injection Hm as <- _ <-.
  unfold read_target in H. cbn in H. io_inv H. apply fill_chunk_inv in Hm as (len & tag & body & btag & n & p & Ha' & H1 & H2 & H3 & H4 & H5).
  eexists m, _, len, tag, body, btag, _, n, p. split; [done|]. split; [by rewrite Ha, Ha'|]. done.
Qed.

(** Runs on streams that end cleanly. *)
Definition gives {A} (m : io A) (i : list Z) (r : res ioerr A) (i' o : list Z) : Prop :=
  ∀ s, avail s = i → s_wr s = [] → clean s →
  ∃ s', m s = (r, s') ∧ avail s' = i' ∧ s_out s' = s_out s ++ o ∧ s_wr s' = [] ∧ clean s'.

Lemma gives_read_full fuel : ∀ n a i,
  length a = n → (n <= fuel)%nat → gives (read_full fuel n) (a ++ i) (Ok a) i [].
Proof.
  induction fuel as [|fuel IH]; intros n a i Hl Hf s Ha Hw Hc; destruct n as [|n]; try lia;
    cbn [read_full].
  - destruct a; [|done]. exists s. by rewrite app_nil_r.
  - destruct a; [|done]. exists s. by rewrite app_nil_r.
  - assert (a ++ i ≠ []) as Hne by (destruct a; done).
    destruct (yields_read_some (S n) _ ltac:(lia) Hne s Ha Hw Hc)
      as (b & s1 & Hr & Hb & Hbl & Hav & Ho & Hw1 & _ & Hc1).
    unfold io_bind. rewrite Hr. destruct b as [|x b]; [done|].
    destruct (prefix_split _ _ _ _ Hav) as [Hsp Hrest]; [lia|].
    destruct (IH (S n - length (x :: b))%nat (drop (length (x :: b)) a) i) with (s := s1)
      as (s2 & Hm & Ha2 & Ho2 & Hw2 & Hc2); try done.
    + by rewrite length_drop, Hl.
    + cbn [length]. lia.
    + rewrite Hm. exists s2. unfold ret. rewrite Hsp at 2. rewrite Ho2, Ho. done.
Qed.

Lemma read_full_closed n fuel s :
  avail s = [] → clean s → (0 < n)%nat → (0 < fuel)%nat →
  ∃ s', read_full fuel n s = (Err (mk_ioerr UnexpectedEof (bs "shadowsocks: stream closed mid-chunk")), s').
Proof.
  intros Ha Hc Hn Hf. destruct n as [|n], fuel as [|fuel]; try lia. cbn [read_full].
  destruct (read_clean (S n) s) as (b & s' & Hr & _ & Hav & _); [lia | done|].
  rewrite Ha in Hav. symmetry in Hav. apply app_eq_nil in Hav as [-> _].
  exists s'. unfold io_bind. by rewrite Hr.
Qed.

Lemma gives_ret {A} (a : A) i : gives (ret a) i (Ok a) i [].
Proof. intros s Hi Hw Hc. exists s. by rewrite app_nil_r. Qed.

Lemma gives_bind {A B} (m : io A) (k : A → io B) i a i1 o1 r i2 o2 :
  gives m i (Ok a) i1 o1 → gives (k a) i1 r i2 o2 → gives (io_bind m k) i r i2 (o1 ++ o2).
Proof.
  intros Hm Hk s Hi Hw Hc. destruct (Hm s Hi Hw Hc) as (s1 & E1 & Hi1 & Ho1 & Hw1 & Hc1).
  destruct (Hk s1 Hi1 Hw1 Hc1) as (s2 & E2 & Hi2 & Ho2 & Hw2 & Hc2).
  exists s2. unfold io_bind. by rewrite E1, E2, Ho2, Ho1, <- app_assoc.
Qed.

Lemma gives_silent {A B} (m : io A) (k : A → io B) i a i1 r i2 o :
  gives m i (Ok a) i1 [] → gives (k a) i1 r i2 o → gives (io_bind m k) i r i2 o.
Proof. apply (gives_bind m k i a i1 []). Qed.

Lemma gives_lift {A B} (x : A) (k : A → io B) i r i' o :
  gives (k x) i r i' o → gives (io_bind (lift (Ok x)) k) i r i' o.
Proof. intros Hk. apply (gives_silent _ _ _ x i); [|done]. intros s Hi Hw Hc. exists s. by rewrite app_nil_r. Qed.

Lemma gives_yields {A} (m : io A) i r i' o : yields m i r i' o → keeps_clean m → gives m i r i' o.
Proof.
  intros Hy Hk s Hi Hw Hc. destruct (Hy s Hi Hw) as (s' & E & ? & ? & ? & _).
  exists s'. specialize (Hk s Hc). rewrite E in Hk. done.
Qed.

(** A chunk on the wire, for a cipher and its nonce. *)
Definition piece_bytes (c : SsAead) (n p : list Z) : list Z :=
  let '(hc, ht) := ss_seal c n (be_bytes 2 (u16! (Z.of_nat (length p)))) in
  let '(pc, pt) := ss_seal c (increment_nonce n) p in
  hc ++ ht ++ pc ++ pt.

Lemma MAX_PAYLOAD_value : 16382 < Z.of_nat MAX_PAYLOAD < 16384.
Proof. vm_compute. done. Qed.

Lemma ss_open_seal c n p : let '(x, t) := ss_seal c n p in ss_open c n x t = Some p.
Proof. apply aead_open_seal. Qed.
Lemma ss_seal_length c n p : length (ss_seal c n p).1 = length p ∧ length (ss_seal c n p).2 = 16%nat.
Proof. apply aead_seal_length. Qed.

(** One chunk is filled back as it was written. *)
Lemma gives_fill r p i :
  (length p <= MAX_PAYLOAD)%nat →
  gives (ss_fill_chunk r) (piece_bytes (sr_cipher r) (sr_nonce r) p ++ i)
    (Ok (mk_ss_reader (sr_cipher r) (increment_nonce (increment_nonce (sr_nonce r))) p 0
           (sr_eof r || (length p =? 0)%nat))) i [].
Proof.
  intros Hp. pose proof MAX_PAYLOAD_value as HM. unfold ss_fill_chunk, piece_bytes.
  set (c := sr_cipher r). set (n := sr_nonce r). set (n1 := increment_nonce n).
  set (lp := be_bytes 2 (u16! (Z.of_nat (length p)))).
  pose proof (ss_open_seal c n lp) as Ho1. destruct (ss_seal_length c n lp) as [Hl1 Ht1].
  destruct (ss_seal c n lp) as [hc ht]. cbn [fst snd] in *.
  pose proof (ss_open_seal c n1 p) as Ho2. destruct (ss_seal_length c n1 p) as [Hl2 Ht2].
  destruct (ss_seal c n1 p) as [pc pt]. cbn [fst snd] in *.
  assert (length hc = 2%nat) as Hhc by (rewrite Hl1; unfold lp; apply length_be_bytes).
  destruct hc as [|h0 [|h1 [|]]]; try done.
  rewrite <- !app_assoc, (app_assoc [h0; h1] ht).
  eapply gives_silent; [apply gives_read_full; [cbn; lia | lia]|].
  cbn [app]. rewrite (idx_Some _ 0 h0), (idx_Some _ 1 h1) by done. apply gives_lift, gives_lift.
  rewrite <- (app_nil_r ht), (slice_mid [h0; h1] ht []) by (cbn; lia). apply gives_lift. rewrite Ho1.
  unfold lp. rewrite be_bytes_2. rewrite (idx_Some _ 0 (u8! (Z.shiftr (u16! (Z.of_nat (length p))) 8))),
    (idx_Some _ 1 (u8! (u16! (Z.of_nat (length p))))) by done. apply gives_lift, gives_lift.
  rewrite u16_be_bytes by (apply wrap_range; lia).
  rewrite wrap_small by (unfold in_range; lia). rewrite Nat2Z.id.
  rewrite (proj2 (Nat.ltb_ge _ _)) by lia. rewrite (app_assoc pc pt).
  eapply gives_silent; [apply gives_read_full; [rewrite length_app; lia | lia]|].
  fold n1. rewrite take_app_length', drop_app_length', Ho2 by lia.
  apply gives_ret.
Qed.

(** The bytes of a sequence of chunks, and the nonce after them. *)
Fixpoint pieces_bytes (c : SsAead) (n : list Z) (ps : list (list Z)) : list Z :=
  match ps with
  | [] => []
  | p :: ps => piece_bytes c n p ++ pieces_bytes c (increment_nonce (increment_nonce n)) ps
  end.
Fixpoint nonce_after (n : list Z) (k : nat) : list Z :=
  match k with O => n | S k => nonce_after (increment_nonce (increment_nonce n)) k end.

Lemma pieces_bytes_app c n ps qs :
  pieces_bytes c n (ps ++ qs) = pieces_bytes c n ps ++ pieces_bytes c (nonce_after n (length ps)) qs.
Proof.
  revert n; induction ps as [|p ps IH]; intros n; cbn [app pieces_bytes nonce_after length]; [done|].
  by rewrite IH, <- app_assoc.
Qed.

Lemma write_pieces_bytes ps : ∀ c n s, s_wr s = [] →
  ss_write_pieces ps (mk_ss_writer c n) s
  = (Ok tt, mk_ss_writer c (nonce_after n (length ps)),
     mk_sock (s_in s) (s_out s ++ pieces_bytes c n ps) [] (s_shut s)).
Proof.
  induction ps as [|p ps IH]; intros c n s Hw; cbn [ss_write_pieces pieces_bytes nonce_after length].
  { destruct s. cbn in *. subst. by rewrite app_nil_r. }
  unfold writer_seal, piece_bytes. cbn [sw_cipher sw_nonce].
  destruct (ss_seal c n _) as [hc ht]. cbn [sw_cipher sw_nonce].
  destruct (ss_seal c (increment_nonce n) p) as [pc pt].
  unfold io_bind, write_all. rewrite Hw. cbn [s_wr s_in s_out s_shut].
  rewrite IH by done. cbn [s_in s_out s_shut]. by rewrite <- !app_assoc.
Qed.

(** Reading chunks until the stream closes. *)
Lemma duplex_pieces ps : ∀ fuel r s,
  Forall (λ p, 0 < length p <= MAX_PAYLOAD)%nat ps → (length ps < fuel)%nat →
  (length (sr_rbuf r) <= sr_rpos r)%nat → sr_eof r = false →
  clean s → s_wr s = [] → avail s = pieces_bytes (sr_cipher r) (sr_nonce r) ps →
  duplex_read ss_read_data fuel r s
  = (concat ps, Err (mk_ioerr UnexpectedEof (bs "shadowsocks: stream closed mid-chunk"))).
Proof.
  induction ps as [|p ps IH]; intros fuel r s Hps Hf Hr He Hc Hw Ha; (destruct fuel as [|fuel]; [cbn in Hf; lia|]);
    cbn [duplex_read concat pieces_bytes] in *; unfold ss_read_data; cbn [ss_read_go];
    rewrite (proj2 (Nat.ltb_ge _ _)), He by done; unfold io_bind at 1.
  - unfold ss_fill_chunk. destruct (read_full_closed 18 18 s) as [s' Hs']; [done | done | lia | lia|].
    unfold io_bind at 1. by rewrite Hs'.
  - apply Forall_cons in Hps as [[Hp0 Hp1] Hps].
    destruct (gives_fill r p (pieces_bytes (sr_cipher r) (increment_nonce (increment_nonce (sr_nonce r))) ps)
      Hp1 s Ha Hw Hc) as (s1 & -> & Ha1 & _ & Hw1 & Hc1).
    rewrite He. cbn [orb]. rewrite (proj2 (Nat.eqb_neq _ 0)) by lia.
    cbn [ss_read_go sr_rpos sr_rbuf sr_cipher sr_nonce sr_eof].
    rewrite (proj2 (Nat.ltb_lt 0 (length p))) by lia. pose proof MAX_PAYLOAD_value.
    rewrite Nat.sub_0_r, Nat.min_r by lia. unfold ret. rewrite drop_0, take_ge by lia.
    destruct p as [|x p]; [cbn in Hp0; lia|].
    rewrite (IH fuel _ s1); cbn [sr_rpos sr_rbuf sr_cipher sr_nonce sr_eof]; try done; cbn in Hf; try lia.
Qed.
End StreamTheory.

Section Interop.
Context `{AE : Aead}.

(** A client session: connect, then the writing task on the queued buffers,
    until the application closes. *)
Definition client_run (cfg : SsConfig) (salt : list Z) (t : ProxyTarget) (blocks : list (list Z)) : sock :=
  match ss_connect_tcp cfg salt t (stream_of []) with
  | (Ok (_, w), s) => duplex_write ss_write_chunk blocks w s
  | (_, s) => s
  end.

(** A server session: accept, read the target, then the reading task. *)
Definition server_run (cfg : SsConfig) (fuel : nat) (s : sock)
    : res ioerr (ProxyTarget * (list Z * res ioerr unit)) :=
  match (do! (r, _) := ss_accept_tcp cfg in read_target r) s with
  | (Ok (t, r), s) => Ok (t, duplex_read ss_read_data fuel r s)
  | (Err e, _) => Err e
  | (Panic, _) => Panic
  end.

Lemma chunks_nil {A} n : chunks n (@nil A) = [].
Proof. reflexivity. Qed.

Definition all_pieces (blocks : list (list Z)) : list (list Z) := concat (map (chunks MAX_PAYLOAD) blocks).

Lemma duplex_write_bytes blocks : ∀ c n s, s_wr s = [] →
  s_out (duplex_write ss_write_chunk blocks (mk_ss_writer c n) s)
  = s_out s ++ pieces_bytes c n (all_pieces blocks).
Proof.
  induction blocks as [|b blocks IH]; intros c n s Hw; cbn [duplex_write].
  - unfold ss_write_chunk. rewrite chunks_nil. cbn. by rewrite app_nil_r.
  - destruct b as [|x b].
    + rewrite IH by done. done.
    + unfold ss_write_chunk at 1. rewrite write_pieces_bytes by done.
      rewrite IH by done. cbn [s_out]. unfold all_pieces. cbn [map concat].
      by rewrite pieces_bytes_app, <- app_assoc.
Qed.

Lemma all_pieces_ok blocks :
  concat (all_pieces blocks) = concat blocks
  ∧ Forall (λ p, 0 < length p <= MAX_PAYLOAD)%nat (all_pieces blocks).
Proof.
  pose proof MAX_PAYLOAD_value.
  induction blocks as [|b blocks [IH1 IH2]]; [done|]. unfold all_pieces in *. cbn [map concat].
  rewrite concat_app, IH1, chunks_concat by lia. split; [done|].
  apply Forall_app. split; [apply chunks_Forall; lia | done].
Qed.

(** C14: shadowsocks client and server agree.  For every supported method,
    password, salt and target, what the client writes for a sequence of
    buffers (salt, address chunk, data chunks), delivered in any segments,
    makes a server with the same method and password recover exactly the target
    and then exactly the data, in order.  There is no end marker: when the
    client closes, even between chunks, the server's stream ends in the error
    of a truncated chunk. *)
Theorem shadowsocks_interop cfg m salt t blocks segs fuel :
  method_parse (ss_cfg_method cfg) = Some m → length salt = salt_len m → target_addr_wf t →
  concat segs = s_out (client_run cfg salt t blocks) → (length (all_pieces blocks) < fuel)%nat →
  server_run cfg fuel (stream_of segs)
  = Ok (t, (concat blocks, Err (mk_ioerr UnexpectedEof (bs "shadowsocks: stream closed mid-chunk")))).
Proof.
  intros Hm Hs [Ht Et] E Hf.
  set (c := mk_ssaead m (derive_subkey (evp_bytes_to_key (ss_cfg_password cfg) (key_len m)) salt)).
  set (n0 := replicate 12 0). set (a := encode (from_proxy_target t)).
  assert (Hal : (0 < length a <= 259)%nat).
  { unfold a. rewrite encode_length by done. destruct (from_proxy_target t); cbn in Ht; lia. }
  pose proof MAX_PAYLOAD_value as HM.
  assert (Hout : s_out (client_run cfg salt t blocks)
    = salt ++ piece_bytes c n0 a ++ pieces_bytes c (increment_nonce (increment_nonce n0)) (all_pieces blocks)).
  { unfold client_run, ss_connect_tcp, parsed_method, master_key, parsed_method. rewrite Hm. cbn [ok_or].
    unfold io_bind, lift, write_all. cbn [stream_of s_wr s_in s_out s_shut map app].
    rewrite ssaead_new_ok. fold c. fold a. unfold ss_write_chunk at 1.
    rewrite chunks_small by (lia || (intros Hn; rewrite Hn in Hal; cbn in Hal; lia)).
    rewrite write_pieces_bytes by done. cbn [s_in s_out s_shut pieces_bytes length nonce_after].
    rewrite duplex_write_bytes by done. cbn [s_out]. by rewrite app_nil_r, <- app_assoc. }
  rewrite Hout in E. unfold server_run.
  assert (Hg : gives (do! (r, _) := ss_accept_tcp cfg in read_target r) (concat segs)
    (Ok (t, mk_ss_reader c (increment_nonce (increment_nonce n0)) a (length a) false))
    (pieces_bytes c (increment_nonce (increment_nonce n0)) (all_pieces blocks)) []).
  { rewrite E. eapply gives_silent.
    - unfold ss_accept_tcp, parsed_method, master_key, parsed_method. rewrite Hm. cbn [ok_or].
      apply gives_lift, gives_lift.
      eapply gives_silent; [apply gives_yields; [by apply yields_read_exact | apply kc_read_exact]|].
      rewrite ssaead_new_ok. apply gives_lift, gives_ret.
    - cbv beta iota. unfold read_target, ss_reader_new. cbn [sr_rbuf sr_rpos sr_eof length Nat.leb negb andb].
      fold c n0. eapply gives_silent; [apply (gives_fill (mk_ss_reader c n0 [] 0 false)); lia|].
      cbn [sr_rbuf sr_rpos sr_eof sr_cipher sr_nonce orb]. rewrite (proj2 (Nat.eqb_neq _ 0)) by lia.
      rewrite slice_from_ok by lia. apply gives_lift. rewrite drop_0.
      rewrite <- (app_nil_r a). unfold a at 1. rewrite decode_encode_app by done. cbn [map_err].
      apply gives_lift. rewrite app_nil_r, Et. apply gives_ret. }
  destruct (Hg (stream_of segs) (avail_stream_of segs) eq_refl (clean_stream_of segs))
    as (s1 & -> & Ha1 & _ & Hw1 & Hc1).
  destruct (all_pieces_ok blocks) as [Hcat Hall].
  rewrite (duplex_pieces (all_pieces blocks)); cbn [sr_rbuf sr_rpos sr_eof sr_cipher sr_nonce]; try done.
  by rewrite Hcat.
Qed.

(** The two directions of a connection are sealed with the same key from the
    same first nonce: the server's writer starts as the client's did. *)
Lemma directions_share_keys cfg m salt t :
  method_parse (ss_cfg_method cfg) = Some m → length salt = salt_len m →
  ∃ r w s r' s' c,
    ss_accept_tcp cfg (stream_of [salt]) = (Ok (r, w), s) ∧ w = mk_ss_writer c (replicate 12 0)
    ∧ ss_connect_tcp cfg salt t (stream_of []) = (Ok (r', mk_ss_writer c (nonce_after (replicate 12 0)
        (length (chunks MAX_PAYLOAD (encode (from_proxy_target t)))))), s').
Proof.
  intros Hm Hs.
  assert (Hy : yields (ss_accept_tcp cfg) (salt ++ [])
    (Ok (ss_reader_new (mk_ssaead m (derive_subkey (evp_bytes_to_key (ss_cfg_password cfg) (key_len m)) salt))
           (replicate 12 0),
         mk_ss_writer (mk_ssaead m (derive_subkey (evp_bytes_to_key (ss_cfg_password cfg) (key_len m)) salt))
           (replicate 12 0))) [] []).
  { unfold ss_accept_tcp, parsed_method, master_key, parsed_method. rewrite Hm. cbn [ok_or].
    apply yields_lift_ok, yields_lift_ok, yields_read; [done|]. rewrite ssaead_new_ok.
    apply yields_lift_ok, yields_ret. }
  destruct (yields_run _ [salt] _ _ _ Hy) as (s & Hrun & _).
  do 6 eexists. split; [exact Hrun|]. split; [reflexivity|].
  unfold ss_connect_tcp, parsed_method, master_key, parsed_method. rewrite Hm. cbn [ok_or].
  unfold io_bind, lift, write_all. cbn [stream_of s_wr s_in s_out s_shut map app].
  rewrite ssaead_new_ok. unfold ss_write_chunk. by rewrite write_pieces_bytes by done.
Qed.
End Interop.

Lemma shadowsocks_interop_witness :
  let cfg := mk_ss_config (bs "AES-128-GCM") (bs "pw") in
  let t := Domain (bs "a.b") 443 in
  let out := s_out (@client_run detached_ciphers cfg (replicate 16 5) t [[1; 2]; []; [3]]) in
  @server_run detached_ciphers cfg 10 (stream_of [take 20 out; drop 20 out])
  = Ok (t, ([1; 2; 3], Err (mk_ioerr UnexpectedEof (bs "shadowsocks: stream closed mid-chunk")))).
Proof.
  intros cfg t out.
  apply (@shadowsocks_interop detached_ciphers cfg MAes128Gcm (replicate 16 5) t [[1; 2]; []; [3]]).
  - vm_compute. reflexivity.
  - reflexivity.
  - by_decide.
  - cbn [concat]. rewrite app_nil_r. apply take_drop.
  - vm_compute. lia.
Defined.
