(* ===== verification/Vmess.v ===== *)
(** * Vmess: the VMess protocol

    [omni-proto/src/proto/vmess/]: SHAKE128 (written out in the sources) and
    the size parser on it, the chunk stream, the request command, the sealed
    header, the inbound handshake and the outbound.  The ciphers are the
    interface [Aead]; HMAC and the AES block are [VmessCrypto].  Random draws
    and the clock are arguments. *)

From S2P Require Import Prelude Text Net Io Socks5 Crypto Node Trojan Aead Shadowsocks Vless.

(** ** SHAKE128 ([shake.rs]) *)

Definition RATE : nat := 168.
Definition ROUND_CONSTS : list Z :=
  [0x0000000000000001; 0x0000000000008082; 0x800000000000808a; 0x8000000080008000;
   0x000000000000808b; 0x0000000080000001; 0x8000000080008081; 0x8000000000008009;
   0x000000000000008a; 0x0000000000000088; 0x0000000080008009; 0x000000008000000a;
   0x000000008000808b; 0x800000000000008b; 0x8000000000008089; 0x8000000000008003;
   0x8000000000008002; 0x8000000000000080; 0x000000000000800a; 0x800000008000000a;
   0x8000000080008081; 0x8000000000008080; 0x0000000080000001; 0x8000000080008008].
Definition RHO_OFFSETS : list (list Z) :=
  [[0; 36; 3; 41; 18]; [1; 44; 10; 45; 2]; [62; 6; 43; 15; 61]; [28; 55; 25; 21; 56]; [27; 20; 39; 8; 14]].

(** One round on the 25 lanes; lane [(x, y)] is at index [x + 5 y]. *)
Definition keccak_round (state : list Z) (rc : Z) : list Z :=
  let c := map (λ x, Z.lxor (Z.lxor (Z.lxor (Z.lxor (state !!! x) (state !!! (x + 5)%nat))
             (state !!! (x + 10)%nat)) (state !!! (x + 15)%nat)) (state !!! (x + 20)%nat)) (seq 0 5) in
  let d := map (λ x, Z.lxor (c !!! ((x + 4) mod 5)%nat) (rotl 64 (c !!! ((x + 1) mod 5)%nat) 1)) (seq 0 5) in
  let state := imap (λ i s, Z.lxor s (d !!! (i mod 5)%nat)) state in
  let b := fold_left (λ b xy, let '(x, y) := xy in
      <[(y + 5 * ((2 * x + 3 * y) mod 5))%nat := rotl 64 (state !!! (x + 5 * y)%nat) (RHO_OFFSETS !!! x !!! y)]> b)
    (list_prod (seq 0 5) (seq 0 5)) (replicate 25 0) in
  let state := map (λ i, let x := (i mod 5)%nat in let y := (i / 5)%nat in
      Z.lxor (b !!! i) (Z.land (wnot 64 (b !!! ((x + 1) mod 5 + 5 * y)%nat)) (b !!! ((x + 2) mod 5 + 5 * y)%nat)))
    (seq 0 25) in
  <[0%nat := Z.lxor (state !!! 0%nat) rc]> state.
Definition keccak_f1600 (state : list Z) : list Z := fold_left keccak_round ROUND_CONSTS state.

Record Shake128 := mk_shake { sh_state : list Z; sh_pos : nat; sh_finalized : bool }.
Definition shake_new : Shake128 := mk_shake (replicate 25 0) 0 false.

Definition xor_byte (state : list Z) (i : nat) (byte : Z) : list Z :=
  let j := (i / 8)%nat in
  <[j := Z.lxor (state !!! j) (Z.shiftl byte (Z.of_nat (i mod 8) * 8))]> state.

(** [absorb]: every round of its loop takes a byte. *)
Fixpoint absorb_go (fuel : nat) (st : Shake128) (data : list Z) : Shake128 :=
  match fuel with
  | O => st
  | S fuel =>
    match data with
    | [] => st
    | _ =>
      let n := Nat.min (RATE - sh_pos st) (length data) in
      let state := fold_left (λ s ib, xor_byte s (sh_pos st + ib.1) ib.2) (imap pair (take n data)) (sh_state st) in
      let pos := (sh_pos st + n)%nat in
      absorb_go fuel
        (if (pos =? RATE)%nat then mk_shake (keccak_f1600 state) 0 (sh_finalized st)
         else mk_shake state pos (sh_finalized st)) (drop n data)
    end
  end.
Definition absorb (st : Shake128) (data : list Z) : Shake128 := absorb_go (length data) st data.

Definition shake_finalize (st : Shake128) : Shake128 :=
  mk_shake (keccak_f1600 (xor_byte (xor_byte (sh_state st) (sh_pos st) 0x1f) (RATE - 1) 0x80)) 0 true.

Fixpoint squeeze_go (n : nat) (st : Shake128) : list Z * Shake128 :=
  match n with
  | O => ([], st)
  | S n =>
    let st := if (sh_pos st =? RATE)%nat then mk_shake (keccak_f1600 (sh_state st)) 0 (sh_finalized st) else st in
    let i := sh_pos st in
    let byte := Z.land (Z.shiftr (sh_state st !!! (i / 8)%nat) (Z.of_nat (i mod 8) * 8)) 255 in
    let '(out, st) := squeeze_go n (mk_shake (sh_state st) (S i) (sh_finalized st)) in
    (byte :: out, st)
  end.
Definition squeeze (n : nat) (st : Shake128) : list Z * Shake128 :=
  squeeze_go n (if sh_finalized st then st else shake_finalize st).

Example shake128_empty_vector :
  hex_encode (squeeze 32 shake_new).1
  = bs "7f9c2ba4e88f827d616045507605853ed73b8093f6efbc88eb1a6eacfa66ef26".
Proof. vm_compute. reflexivity. Qed.

(** [ShakeSizeParser]. *)
Definition parser_new (nonce : list Z) : Shake128 := absorb shake_new nonce.
Definition parser_next (p : Shake128) : Z * Shake128 :=
  let '(b, p) := squeeze 2 p in (be_value b, p).
Definition next_padding_len (p : Shake128) : Z * Shake128 :=
  let '(v, p) := parser_next p in (v mod 64, p).
Definition parser_encode (p : Shake128) (size : Z) : list Z * Shake128 :=
  let '(v, p) := parser_next p in (be_bytes 2 (Z.lxor size v), p).
Definition parser_decode (p : Shake128) (b : list Z) : Z * Shake128 :=
  let '(v, p) := parser_next p in (Z.lxor (be_value b) v, p).

(** ** Chunks ([chunk.rs]) *)

Definition MAX_CHUNK : nat := Z.to_nat 16383.

Record ChunkKeys := mk_chunk_keys { ck_key : list Z; ck_iv : list Z }.
Definition nonce_for (k : ChunkKeys) (counter : Z) : list Z := be_bytes 2 counter ++ take 10 (drop 2 (ck_iv k)).

Inductive ChunkSecurity := CsNone | CsGcm | CsChaCha.

Section Chunks.
Context `{AE : Aead} `{SH : Sha2}.

Definition chacha_key (key16 : list Z) : list Z := sha256 key16.

Definition chunk_seal (sec : ChunkSecurity) (k : ChunkKeys) (nonce p : list Z) : list Z :=
  match sec with
  | CsNone => p
  | CsGcm => sealed Aes128Gcm (ck_key k) nonce [] p
  | CsChaCha => sealed ChaCha20Poly1305 (chacha_key (ck_key k)) nonce [] p
  end.
Definition chunk_open (sec : ChunkSecurity) (k : ChunkKeys) (nonce c : list Z) : option (list Z) :=
  match sec with
  | CsNone => Some c
  | CsGcm => open_sealed Aes128Gcm (ck_key k) nonce [] c
  | CsChaCha => open_sealed ChaCha20Poly1305 (chacha_key (ck_key k)) nonce [] c
  end.
Definition overhead (sec : ChunkSecurity) : nat := match sec with CsNone => 0 | _ => 16 end.

(** What both ends keep: keys, options, the size parser and the counter. *)
Record ChunkState := mk_chunk {
  cs_keys : ChunkKeys;
  cs_sec : ChunkSecurity;
  cs_masking : bool;
  cs_padding : bool;
  cs_parser : Shake128;
  cs_counter : Z
}.
Definition chunk_new (k : ChunkKeys) (sec : ChunkSecurity) (masking padding : bool) : ChunkState :=
  mk_chunk k sec masking padding (parser_new (ck_iv k)) 0.
Definition with_parser (c : ChunkState) (p : Shake128) : ChunkState :=
  mk_chunk (cs_keys c) (cs_sec c) (cs_masking c) (cs_padding c) p (cs_counter c).

(** [next_nonce]: the counter does not move without encryption. *)
Definition next_nonce (c : ChunkState) : list Z * ChunkState :=
  match cs_sec c with
  | CsNone => ([], c)
  | _ => (nonce_for (cs_keys c) (cs_counter c),
          mk_chunk (cs_keys c) (cs_sec c) (cs_masking c) (cs_padding c) (cs_parser c) (wadd 16 (cs_counter c) 1))
  end.

Definition take_padding (on : bool) (c : ChunkState) : nat * ChunkState :=
  if on then let '(n, p) := next_padding_len (cs_parser c) in (Z.to_nat n, with_parser c p) else (0%nat, c).

(** A reader; [vr_ppos] is the position in the decrypted chunk. *)
Record VmReader := mk_vm_reader { vr_chunk : ChunkState; vr_pending : list Z; vr_ppos : nat; vr_eof : bool }.
Definition vm_reader_new (c : ChunkState) : VmReader := mk_vm_reader c [] 0 false.

(** After an error the reader is not used again, so it is not returned. *)
Definition vm_fill_chunk (r : VmReader) : io VmReader :=
  let '(padding_len, c) := take_padding (cs_padding (vr_chunk r)) (vr_chunk r) in
  do! masked_size := read_exact 2 in
  let '(decoded_size, c) :=
    if cs_masking c then let '(v, p) := parser_decode (cs_parser c) masked_size in (v, with_parser c p)
    else (be_value masked_size, c) in
  let size := Z.to_nat decoded_size in
  if (size =? overhead (cs_sec c) + padding_len)%nat then
    ret (mk_vm_reader c (vr_pending r) (vr_ppos r) true)
  else if (size <? overhead (cs_sec c) + padding_len)%nat then
    fail (invalid_data (bs "vmess: invalid chunk size"))
  else
    let payload_ct := (size - padding_len)%nat in
    do! buf := read_exact payload_ct in
    do! _ := (if (0 <? padding_len)%nat then do! _ := read_exact padding_len in ret tt else ret tt) in
    let '(nonce, c) := next_nonce c in
    match chunk_open (cs_sec c) (cs_keys c) nonce buf with
    | None => fail (invalid_data (bs "vmess: chunk decrypt failed"))
    | Some plain => ret (mk_vm_reader c plain 0 (vr_eof r))
    end.

(** [read_data]: a filled chunk holds a byte or is the end, so the loop makes
    at most two rounds. *)
Fixpoint vm_read_go (fuel n : nat) (r : VmReader) : io (list Z * VmReader) :=
  match fuel with
  | O => ret ([], r)
  | S fuel =>
    if (vr_ppos r <? length (vr_pending r))%nat then
      let k := Nat.min n (length (vr_pending r) - vr_ppos r) in
      ret (take k (drop (vr_ppos r) (vr_pending r)),
           mk_vm_reader (vr_chunk r) (vr_pending r) (vr_ppos r + k) (vr_eof r))
    else if vr_eof r then ret ([], r)
    else do! r := vm_fill_chunk r in vm_read_go fuel n r
  end.
Definition vm_read_data : nat → VmReader → io (list Z * VmReader) := vm_read_go 3.

(** A writer with the source of its random padding: the i-th draw of 64
    bytes. *)
Record VmWriter := mk_vm_writer { vw_chunk : ChunkState; vw_draws : nat }.
Context (random64 : nat → list Z).

Definition size_bytes (c : ChunkState) (total : Z) : list Z * ChunkState :=
  if cs_masking c then let '(b, p) := parser_encode (cs_parser c) total in (b, with_parser c p)
  else (be_bytes 2 total, c).

Definition write_padding (padding_len draws : nat) : io nat :=
  if (0 <? padding_len)%nat then
    do! pad <- slice (random64 draws) 0 padding_len in
    do! _ := write_all pad in ret (S draws)
  else ret draws.

(** One piece of [write_chunk].  The state moves on even when a write fails. *)
Definition vm_write_piece (piece : list Z) (w : VmWriter) (s : sock) : res ioerr unit * VmWriter * sock :=
  let c := vw_chunk w in
  let '(padding_len, c) := take_padding (cs_padding c && negb (bool_decide (piece = []))) c in
  let total := (length piece + overhead (cs_sec c) + padding_len)%nat in
  if 65535 <? Z.of_nat total then
    (Err (invalid_data (bs "vmess: chunk too large")), mk_vm_writer c (vw_draws w), s) else
  let '(size, c) := size_bytes c (Z.of_nat total) in
  match write_all size s with
  | (Ok _, s) =>
    let '(nonce, c) := next_nonce c in
    match (do! _ := write_all (chunk_seal (cs_sec c) (cs_keys c) nonce piece) in
           write_padding padding_len (vw_draws w)) s with
    | (Ok d, s) => (Ok tt, mk_vm_writer c d, s)
    | (Err e, s) => (Err e, mk_vm_writer c (vw_draws w), s)
    | (Panic, s) => (Panic, mk_vm_writer c (vw_draws w), s)
    end
  | (r, s) => (r, mk_vm_writer c (vw_draws w), s)
  end.

Fixpoint vm_write_pieces (pieces : list (list Z)) (w : VmWriter) (s : sock) : res ioerr unit * VmWriter * sock :=
  match pieces with
  | [] => (Ok tt, w, s)
  | p :: pieces =>
    match vm_write_piece p w s with
    | (Ok _, w, s) => vm_write_pieces pieces w s
    | x => x
    end
  end.

(** The end marker, a chunk without data. *)
Definition vm_write_end (w : VmWriter) (s : sock) : res ioerr unit * VmWriter * sock :=
  let '(padding_len, c) := take_padding (cs_padding (vw_chunk w)) (vw_chunk w) in
  let '(size, c) := size_bytes c (u16! (Z.of_nat (overhead (cs_sec c) + padding_len))) in
  match write_all size s with
  | (Ok _, s) =>
    let '(nonce, c) := next_nonce c in
    match (do! _ := (match cs_sec c with CsNone => ret tt | _ =>
                       write_all (chunk_seal (cs_sec c) (cs_keys c) nonce []) end) in
           write_padding padding_len (vw_draws w)) s with
    | (Ok d, s) => (Ok tt, mk_vm_writer c d, s)
    | (Err e, s) => (Err e, mk_vm_writer c (vw_draws w), s)
    | (Panic, s) => (Panic, mk_vm_writer c (vw_draws w), s)
    end
  | (r, s) => (r, mk_vm_writer c (vw_draws w), s)
  end.

Definition vm_write_chunk (data : list Z) (w : VmWriter) (s : sock) : res ioerr unit * VmWriter * sock :=
  match data with
  | [] => vm_write_end w s
  | _ => vm_write_pieces (chunks MAX_CHUNK data) w s
  end.
End Chunks.

(** ** The request command ([mod.rs]) *)

Definition VERSION : Z := 1.
Definition OPT_CHUNK_STREAM : Z := 1.
Definition OPT_CHUNK_MASKING : Z := 4.
Definition OPT_GLOBAL_PADDING : Z := 8.
Definition OPT_AUTHENTICATED_LENGTH : Z := 16.
Definition SEC_LEGACY : Z := 1.
Definition SEC_AUTO : Z := 2.
Definition SEC_AES128_GCM : Z := 3.
Definition SEC_CHACHA20_POLY1305 : Z := 4.
Definition SEC_NONE : Z := 5.

Definition encode_request_command (request_iv request_key : list Z) (response_v options security cmd : Z)
    (target : ProxyTarget) : list Z :=
  let buf := [VERSION] ++ request_iv ++ request_key ++ [response_v] ++ [options] ++ [Z.land security 15]
    ++ [0] ++ [cmd] ++ be_bytes 2 (target_port target) ++ encode_host target in
  buf ++ be_bytes 4 (fnv1a32 buf).

Record DecodedRequest := mk_request {
  rq_iv : list Z;
  rq_key : list Z;
  rq_response_v : Z;
  rq_options : Z;
  rq_security : Z;
  rq_cmd : Z;
  rq_target : ProxyTarget
}.

(** The address at [pos] and the position after it. *)
Definition decode_address (buf : list Z) (atyp port : Z) (pos : nat) : res ioerr (ProxyTarget * nat) :=
  if atyp =? ATYP_V4 then
    if (length buf <? pos + 4)%nat then Err (other (bs "vmess: short ipv4")) else
    let? o := slice buf pos (pos + 4) in
    Ok (Tcp (sa_new (V4 o) port), (pos + 4)%nat)
  else if atyp =? ATYP_DOMAIN then
    if (length buf <? pos + 1)%nat then Err (other (bs "vmess: short domain len")) else
    let? dl := idx buf pos in
    let pos := (pos + 1)%nat in
    let dl := Z.to_nat dl in
    if (length buf <? pos + dl)%nat then Err (other (bs "vmess: short domain")) else
    let? h := slice buf pos (pos + dl) in
    Ok (Domain (from_utf8_lossy h) port, (pos + dl)%nat)
  else if atyp =? ATYP_V6 then
    if (length buf <? pos + 16)%nat then Err (other (bs "vmess: short ipv6")) else
    let? o := slice buf pos (pos + 16) in
    Ok (Tcp (sa_new (V6 o) port), (pos + 16)%nat)
  else Err (other (bs "vmess: unknown address type")).

Definition decode_request_command (buf : list Z) : res ioerr DecodedRequest :=
  if (length buf <? 41)%nat then Err (other (bs "vmess: command buffer too short")) else
  let? fnv := slice_from buf (length buf - 4) in
  let? head := slice buf 0 (length buf - 4) in
  if negb (fnv1a32 head =? be_value fnv) then Err (other (bs "vmess: command fnv mismatch")) else
  let? ver := idx buf 0 in
  if negb (ver =? VERSION) then Err (other (bs "vmess: unsupported version")) else
  let? iv := slice buf 1 17 in
  let? key := slice buf 17 33 in
  let? response_v := idx buf 33 in
  let? options := idx buf 34 in
  let? security := idx buf 35 in
  let? _ := idx buf 36 in
  let? cmd := idx buf 37 in
  let? p0 := idx buf 38 in
  let? p1 := idx buf 39 in
  let? atyp := idx buf 40 in
  let? (target, pos) := decode_address buf atyp (u16_be p0 p1) 41 in
  if negb (pos =? length buf - 4)%nat then Err (other (bs "vmess: trailing garbage in command")) else
  Ok (mk_request iv key response_v options (Z.land security 15) cmd target).

(** ** The sealed header ([aead_header.rs]) *)

(** The [hmac] crate over SHA-256, and the [aes] crate's block operations. *)
Class VmessCrypto := {
  hmac_sha256 : list Z → list Z → list Z;
  hmac_sha256_length : ∀ k m, length (hmac_sha256 k m) = 32%nat;
  aes_encrypt : list Z → list Z → list Z;
  aes_decrypt : list Z → list Z → list Z;
  aes_encrypt_length : ∀ k b, length b = 16%nat → length (aes_encrypt k b) = 16%nat;
  aes_decrypt_encrypt : ∀ k b, length b = 16%nat → aes_decrypt k (aes_encrypt k b) = b
}.

Section Header.
Context `{AE : Aead} `{SH : Sha2} `{VC : VmessCrypto}.

Definition cmd_key (uuid_bytes : list Z) : list Z := Md5.digest [uuid_bytes].

(** The key is not used. *)
Definition kdf (_key : list Z) (path : list (list Z)) : list Z :=
  hmac_sha256 (fold_left hmac_sha256 path (bs "VMess AEAD KDF")) [].
Definition kdf16 (key : list Z) (path : list (list Z)) : list Z := take 16 (kdf key path).
Definition kdf12 (key : list Z) (path : list (list Z)) : list Z := take 12 (kdf key path).

Definition create_auth_id (cmd_key : list Z) (ts_secs : Z) (rand_part : list Z) : list Z :=
  aes_encrypt (kdf16 cmd_key [bs "AES Auth ID Encryption"])
    (be_bytes 8 (u64! ts_secs) ++ rand_part ++ replicate 4 0).

(** [now] is the clock in seconds; [rand4] and [nonce8] are random. *)
Definition seal_vmess_aead_header (cmd_key data : list Z) (now : Z) (rand4 nonce8 : list Z) : list Z :=
  let auth_id := create_auth_id cmd_key now rand4 in
  let len_key := kdf16 cmd_key [bs "VMess Header AEAD Key_Length"; auth_id; nonce8] in
  let len_nonce := kdf12 cmd_key [bs "VMess Header AEAD Nonce_Length"; auth_id; nonce8] in
  let hdr_key := kdf16 cmd_key [bs "VMess Header AEAD Key"; auth_id; nonce8] in
  let hdr_nonce := kdf12 cmd_key [bs "VMess Header AEAD Nonce"; auth_id; nonce8] in
  let enc_len := sealed Aes128Gcm len_key len_nonce auth_id (be_bytes 2 (u16! (Z.of_nat (length data)))) in
  let enc_hdr := sealed Aes128Gcm hdr_key hdr_nonce auth_id data in
  auth_id ++ enc_len ++ nonce8 ++ enc_hdr.

(** ** The inbound ([inbound.rs]) *)

(** A 64-bit pattern as an [i64]. *)
Definition as_i64 (x : Z) : Z := let v := u64! x in if v <? 2 ^ 63 then v else v - 2 ^ 64.

(** [(now - ts).abs() <= 120] with the wrapping arithmetic of a release
    build. *)
Definition fresh_ts (now ts : Z) : bool :=
  let d := as_i64 (now - ts) in (if d =? - 2 ^ 63 then d else Z.abs d) <=? 120.

Definition resp_chunk_keys (req : DecodedRequest) : ChunkKeys :=
  mk_chunk_keys (take 16 (sha256 (rq_key req))) (take 16 (sha256 (rq_iv req))).
Definition req_chunk_keys (req : DecodedRequest) : ChunkKeys := mk_chunk_keys (rq_key req) (rq_iv req).

Definition chunk_security_of (security : Z) : res ioerr ChunkSecurity :=
  if (security =? SEC_AES128_GCM) || (security =? SEC_AUTO) then Ok CsGcm
  else if security =? SEC_CHACHA20_POLY1305 then Ok CsChaCha
  else if security =? SEC_NONE then Ok CsNone
  else if security =? SEC_LEGACY then Err (other (bs "vmess: legacy security not supported"))
  else Err (other (bs "vmess: unknown security")).

(** The first user whose key decrypts the id to a fresh time. *)
Fixpoint match_user (now : Z) (auth_id : list Z) (users : list (list Z)) : option (list Z) :=
  match users with
  | [] => None
  | u :: users =>
    let ck := cmd_key u in
    let plain := aes_decrypt (kdf16 ck [bs "AES Auth ID Encryption"]) auth_id in
    if fresh_ts now (as_i64 (be_value (take 8 plain))) then Some ck else match_user now auth_id users
  end.

(** What is read and checked before the answer. *)
Definition read_vmess_request (users : list (list Z)) (now : Z) : io DecodedRequest :=
  do! auth_id := read_exact 16 in
  do! ck <- ok_or (other (bs "vmess: authentication failed")) (match_user now auth_id users) in
  do! enc_len := read_exact 18 in
  do! nonce8 := read_exact 8 in
  let len_key := kdf16 ck [bs "VMess Header AEAD Key_Length"; auth_id; nonce8] in
  let len_nonce := kdf12 ck [bs "VMess Header AEAD Nonce_Length"; auth_id; nonce8] in
  do! len_plain <- ok_or (other (bs "vmess: header length decrypt failed"))
                     (open_sealed Aes128Gcm len_key len_nonce auth_id enc_len) in
  if negb (length len_plain =? 2)%nat then fail (other (bs "vmess: bad header length block")) else
  do! l0 <- idx len_plain 0 in
  do! l1 <- idx len_plain 1 in
  let hdr_len := Z.to_nat (u16_be l0 l1) in
  let hdr_key := kdf16 ck [bs "VMess Header AEAD Key"; auth_id; nonce8] in
  let hdr_nonce := kdf12 ck [bs "VMess Header AEAD Nonce"; auth_id; nonce8] in
  do! enc_hdr := read_exact (hdr_len + 16) in
  do! cmd_buf <- ok_or (other (bs "vmess: header payload decrypt failed"))
                   (open_sealed Aes128Gcm hdr_key hdr_nonce auth_id enc_hdr) in
  do! req <- decode_request_command cmd_buf in
  if negb (rq_cmd req =? CMD_TCP) then fail (other (bs "vmess: UDP command not supported in this build"))
  else if negb (Z.land (rq_options req) OPT_AUTHENTICATED_LENGTH =? 0)
  then fail (other (bs "vmess: authenticated-length option not supported"))
  else if Z.land (rq_options req) OPT_CHUNK_STREAM =? 0
  then fail (other (bs "vmess: non-chunked body not supported"))
  else ret req.

(** [std::io::Read::read_exact] on the bytes a reader has. *)
Definition std_read_exact (n : nat) (b : list Z) : res ioerr (list Z * list Z) :=
  if (n <=? length b)%nat then Ok (take n b, drop n b)
  else Err (mk_ioerr UnexpectedEof (bs "failed to fill whole buffer")).

(** A second reader of sealed headers, which no other function calls: it takes
    eighteen more bytes with the identifier than it uses. *)
Definition open_vmess_aead_header (cmd_key : list Z) (ts_now : Z) (stream : list Z) : res ioerr (list Z * list Z) :=
  let? (auth_and_len, stream) := std_read_exact 34 stream in
  let auth_id := take 16 auth_and_len in
  let dec := aes_decrypt (kdf16 cmd_key [bs "AES Auth ID Encryption"]) auth_id in
  if negb (fresh_ts ts_now (as_i64 (be_value (take 8 dec))))
  then Err (invalid_data (bs "vmess: auth id timestamp expired")) else
  let? (nonce8, stream) := std_read_exact 8 stream in
  let len_key := kdf16 cmd_key [bs "VMess Header AEAD Key_Length"; auth_id; nonce8] in
  let len_nonce := kdf12 cmd_key [bs "VMess Header AEAD Nonce_Length"; auth_id; nonce8] in
  let? (enc_len, stream) := std_read_exact 18 stream in
  let? len_plain := ok_or (invalid_data (bs "vmess: failed to decrypt header length"))
                      (open_sealed Aes128Gcm len_key len_nonce auth_id enc_len) in
  if negb (length len_plain =? 2)%nat then Err (invalid_data (bs "vmess: bad length block")) else
  let? l0 := idx len_plain 0 in
  let? l1 := idx len_plain 1 in
  let hdr_len := Z.to_nat (u16_be l0 l1) in
  let hdr_key := kdf16 cmd_key [bs "VMess Header AEAD Key"; auth_id; nonce8] in
  let hdr_nonce := kdf12 cmd_key [bs "VMess Header AEAD Nonce"; auth_id; nonce8] in
  let? (enc_hdr, stream) := std_read_exact (hdr_len + 16) stream in
  let? data := ok_or (invalid_data (bs "vmess: failed to decrypt header payload"))
                 (open_sealed Aes128Gcm hdr_key hdr_nonce auth_id enc_hdr) in
  Ok (data, stream).

(** The answer: the sealed length and the sealed payload. *)
Definition seal_response (wkeys : ChunkKeys) (payload : list Z) : list Z * list Z :=
  (sealed Aes128Gcm (kdf16 (ck_key wkeys) [bs "AEAD Resp Header Len Key"])
     (kdf12 (ck_iv wkeys) [bs "AEAD Resp Header Len IV"]) [] (be_bytes 2 (u16! (Z.of_nat (length payload)))),
   sealed Aes128Gcm (kdf16 (ck_key wkeys) [bs "AEAD Resp Header Key"])
     (kdf12 (ck_iv wkeys) [bs "AEAD Resp Header IV"]) [] payload).

Definition handshake (users : list (list Z)) (now : Z) : io (ProxyTarget * VmReader * ChunkState) :=
  do! req := read_vmess_request users now in
  do! security <- chunk_security_of (rq_security req) in
  let masking := negb (Z.land (rq_options req) OPT_CHUNK_MASKING =? 0) in
  let global_padding := negb (Z.land (rq_options req) OPT_GLOBAL_PADDING =? 0) in
  let '(enc_len, enc_payload) := seal_response (resp_chunk_keys req) [rq_response_v req; rq_options req; 0] in
  do! _ := write_all enc_len in
  do! _ := write_all enc_payload in
  ret (rq_target req, vm_reader_new (chunk_new (req_chunk_keys req) security masking global_padding),
       chunk_new (resp_chunk_keys req) security masking global_padding).

(** *** What a client has to know *)

(** The bytes start with an identifier that the key of some user decrypts to a
    fresh time, and a header whose length and content open under that user's
    keys (which are the same for every user, as [kdf] ignores its key). *)
Definition vmess_credentials (users : list (list Z)) (now : Z) (i : list Z) : Prop :=
  ∃ u auth_id enc_len nonce8 enc_hdr rest len hdr, u ∈ users
  ∧ i = auth_id ++ enc_len ++ nonce8 ++ enc_hdr ++ rest
  ∧ length auth_id = 16%nat ∧ length enc_len = 18%nat ∧ length nonce8 = 8%nat
  ∧ fresh_ts now (as_i64 (be_value (take 8 (aes_decrypt (kdf16 (cmd_key u) [bs "AES Auth ID Encryption"]) auth_id)))) = true
  ∧ open_sealed Aes128Gcm (kdf16 (cmd_key u) [bs "VMess Header AEAD Key_Length"; auth_id; nonce8])
      (kdf12 (cmd_key u) [bs "VMess Header AEAD Nonce_Length"; auth_id; nonce8]) auth_id enc_len = Some len
  ∧ open_sealed Aes128Gcm (kdf16 (cmd_key u) [bs "VMess Header AEAD Key"; auth_id; nonce8])
      (kdf12 (cmd_key u) [bs "VMess Header AEAD Nonce"; auth_id; nonce8]) auth_id enc_hdr = Some hdr.

Lemma match_user_inv now auth_id users ck :
  match_user now auth_id users = Some ck →
  ∃ u, u ∈ users ∧ ck = cmd_key u
    ∧ fresh_ts now (as_i64 (be_value (take 8 (aes_decrypt (kdf16 (cmd_key u) [bs "AES Auth ID Encryption"]) auth_id)))) = true.
Proof.
  induction users as [|u users IH]; cbn [match_user]; [done|].
  destruct (fresh_ts _ _) eqn:E; [intros [= <-]; exists u; by split; [left|]|].
  intros (u' & Hu & H)%IH. exists u'. split; [by right|done].
Qed.

Lemma vmess_presents users now s x s' :
  handshake users now s = (Ok x, s') → vmess_credentials users now (avail s).
Proof.
  unfold handshake. intros H. io_inv H. clear H. unfold read_vmess_request in Hm.
  io_inv Hm. apply read_exact_inv in Hm0 as (Ha & Hl & _). rename x1 into auth_id.
  io_inv Hm. apply lift_ok in Hm0 as [Hm0 ->]. destruct (match_user _ _ _) as [ck|] eqn:Eu; [|done]. injection Hm0 as <-.
  apply match_user_inv in Eu as (u & Hu & -> & Hf).
  io_inv Hm. apply read_exact_inv in Hm0 as (Ha1 & Hl1 & _). io_inv Hm. apply read_exact_inv in Hm0 as (Ha2 & Hl2 & _).
  io_inv Hm. apply lift_ok in Hm0 as [Hm0 ->]. destruct (open_sealed _ _ _ _ _) as [len|] eqn:El; [|done].
  injection Hm0 as ->. destruct (negb _); [done|]. do 2 (io_inv Hm; apply lift_ok in Hm0 as [_ ->]).
  io_inv Hm. apply read_exact_inv in Hm0 as (Ha3 & _). io_inv Hm. apply lift_ok in Hm0 as [Hm0 ->].
  destruct (open_sealed _ _ _ _ _) as [hdr|] eqn:Eh in Hm0; [|done].
  eexists u, auth_id, _, _, _, _, _, hdr. split; [done|]. split; [by rewrite Ha, Ha1, Ha2, Ha3|]. done.
Qed.

(** ** The outbound ([outbound.rs]) *)

Definition security_byte (s : str) : res ioerr Z :=
  let l := to_ascii_lowercase s in
  if bool_decide (l = bs "auto") || bool_decide (l = []) then Ok SEC_AES128_GCM
  else if bool_decide (l = bs "aes-128-gcm") then Ok SEC_AES128_GCM
  else if bool_decide (l = bs "chacha20-poly1305") || bool_decide (l = bs "chacha20-ietf-poly1305")
  then Ok SEC_CHACHA20_POLY1305
  else if bool_decide (l = bs "none") then Ok SEC_NONE
  else Err (other (bs "vmess: unsupported security '" ++ l ++ bs "'")).

(** The random draws of a connection. *)
Record VmDraws := mk_draws { dr_iv : list Z; dr_key : list Z; dr_v : Z; dr_auth : list Z; dr_nonce : list Z }.

Record VmessConfig := mk_vmess_config { vm_uuid : str; vm_security : str }.

(** The answer of the server, checked against [response_v]. *)
Definition read_response (resp_keys : ChunkKeys) (response_v : Z) : io unit :=
  do! enc_len := read_exact 18 in
  do! len_plain <- ok_or (other (bs "vmess: response length decrypt failed"))
    (open_sealed Aes128Gcm (kdf16 (ck_key resp_keys) [bs "AEAD Resp Header Len Key"])
       (kdf12 (ck_iv resp_keys) [bs "AEAD Resp Header Len IV"]) [] enc_len) in
  if negb (length len_plain =? 2)%nat then fail (other (bs "vmess: bad response length block")) else
  do! l0 <- idx len_plain 0 in
  do! l1 <- idx len_plain 1 in
  do! enc_payload := read_exact (Z.to_nat (u16_be l0 l1) + 16) in
  do! payload <- ok_or (other (bs "vmess: response payload decrypt failed"))
    (open_sealed Aes128Gcm (kdf16 (ck_key resp_keys) [bs "AEAD Resp Header Key"])
       (kdf12 (ck_iv resp_keys) [bs "AEAD Resp Header IV"]) [] enc_payload) in
  if bool_decide (head payload = Some response_v) then ret tt
  else fail (other (bs "vmess: response auth mismatch")).

Definition chunk_sec_out (sec : Z) : ChunkSecurity :=
  if sec =? SEC_CHACHA20_POLY1305 then CsChaCha else if sec =? SEC_NONE then CsNone else CsGcm.

Definition connect_tcp (cfg : VmessConfig) (d : VmDraws) (now : Z) (target : ProxyTarget)
    : io (VmReader * ChunkState) :=
  do! uuid <- ok_or (other (bs "vmess: invalid UUID '" ++ vm_uuid cfg ++ bs "'")) (parse_uuid (vm_uuid cfg)) in
  do! sec <- security_byte (vm_security cfg) in
  let options := Z.lor (Z.lor OPT_CHUNK_STREAM OPT_CHUNK_MASKING) OPT_GLOBAL_PADDING in
  let cmd_buf := encode_request_command (dr_iv d) (dr_key d) (dr_v d) options sec CMD_TCP target in
  do! _ := write_all (seal_vmess_aead_header (cmd_key uuid) cmd_buf now (dr_auth d) (dr_nonce d)) in
  let resp_keys := mk_chunk_keys (take 16 (sha256 (dr_key d))) (take 16 (sha256 (dr_iv d))) in
  do! _ := read_response resp_keys (dr_v d) in
  let masking := negb (Z.land options OPT_CHUNK_MASKING =? 0) in
  let padding := negb (Z.land options OPT_GLOBAL_PADDING =? 0) in
  do! sec <- security_byte (vm_security cfg) in
  let chunk_sec := chunk_sec_out sec in
  ret (vm_reader_new (chunk_new resp_keys chunk_sec masking padding),
       chunk_new (mk_chunk_keys (dr_key d) (dr_iv d)) chunk_sec masking padding).
End Header.

(** ** The size parser *)

Lemma lxor_range w a b : 0 ≤ w → in_range w a → in_range w b → in_range w (Z.lxor a b).
Proof.
  unfold in_range. intros Hw Ha Hb.
  assert (0 ≤ Z.lxor a b) as H0 by (apply Z.lxor_nonneg; lia). split; [done|].
  destruct (Z.eq_dec (Z.lxor a b) 0) as [->|Hn]; [lia|].
  apply Z.log2_lt_pow2; [lia|].
  assert (0 < w) by (destruct (Z.eq_dec w 0) as [->|]; [|lia]; change (2 ^ 0) with 1 in *;
    assert (a = 0) by lia; assert (b = 0) by lia; subst; done).
  assert (∀ x, 0 ≤ x < 2 ^ w → Z.log2 x < w) as Hl.
  { intros x Hx. destruct (Z.eq_dec x 0) as [->|]; [done|]. apply Z.log2_lt_pow2; lia. }
  pose proof (Z.log2_lxor a b ltac:(lia) ltac:(lia)). pose proof (Hl a Ha). pose proof (Hl b Hb). lia.
Qed.

Lemma land_255 x : is_u8 (Z.land x 255).
Proof. change 255 with (Z.ones 8). rewrite Z.land_ones by lia. apply Z.mod_pos_bound. done. Qed.

Lemma squeeze_go_ok n : ∀ st, length (squeeze_go n st).1 = n ∧ bytes (squeeze_go n st).1.
Proof.
  induction n as [|n IH]; intros st; cbn [squeeze_go]; [by split; [|constructor]|].
  set (st1 := if (sh_pos st =? RATE)%nat then _ else st).
  destruct (IH (mk_shake (sh_state st1) (S (sh_pos st1)) (sh_finalized st1))) as [H1 H2].
  destruct (squeeze_go n _) as [out st2]. cbn [fst length] in *. split; [by rewrite H1|].
  constructor; [apply land_255 | done].
Qed.

Lemma parser_next_u16 p : is_u16 (parser_next p).1.
Proof.
  unfold parser_next, squeeze.
  destruct (squeeze_go_ok 2 (if sh_finalized p then p else shake_finalize p)) as [H1 H2].
  destruct (squeeze_go 2 _) as [b p']. cbn [fst] in *.
  pose proof (be_value_range b H2) as H. rewrite H1 in H. exact H.
Qed.

Lemma next_padding_small p : 0 ≤ (next_padding_len p).1 < 64.
Proof. unfold next_padding_len. destruct (parser_next p). cbn [fst]. by apply Z.mod_pos_bound. Qed.

(** Masking a size and unmasking it with a parser in the same state. *)
Lemma parser_codec p size :
  is_u16 size → parser_decode p (parser_encode p size).1 = (size, (parser_encode p size).2)
  ∧ length (parser_encode p size).1 = 2%nat.
Proof.
  intros Hs. unfold parser_decode, parser_encode. pose proof (parser_next_u16 p) as Hv.
  destruct (parser_next p) as [v p']. cbn [fst snd] in *.
  rewrite be_value_u16 by by apply lxor_range. split; [|by rewrite length_be_bytes].
  by rewrite Z.lxor_assoc, Z.lxor_nilpotent, Z.lxor_0_r.
Qed.

Section ChunkTheory.
Context `{AE : Aead} `{SH : Sha2}.

(** The size field written for [total] reads back, and both ends move their
    parser alike. *)
Lemma size_codec c total :
  is_u16 total →
  length (size_bytes c total).1 = 2%nat
  ∧ (if cs_masking c then let '(v, p) := parser_decode (cs_parser c) (size_bytes c total).1 in (v, with_parser c p)
     else (be_value (size_bytes c total).1, c)) = (total, (size_bytes c total).2).
Proof.
  intros Ht. unfold size_bytes. destruct (cs_masking c).
  - destruct (parser_codec (cs_parser c) total Ht) as [H1 H2].
    destruct (parser_encode (cs_parser c) total) as [b p]. cbn [fst snd] in *. by rewrite H1.
  - cbn [fst snd]. by rewrite length_be_bytes, be_value_u16.
Qed.

Lemma chunk_codec sec k nonce p :
  chunk_open sec k nonce (chunk_seal sec k nonce p) = Some p
  ∧ length (chunk_seal sec k nonce p) = (length p + overhead sec)%nat.
Proof.
  destruct sec; cbn [chunk_open chunk_seal overhead]; rewrite ?open_sealed_seal, ?sealed_length; auto with lia.
Qed.

Lemma take_padding_small on c : ((take_padding on c).1 < 64)%nat.
Proof.
  unfold take_padding. destruct on; [|cbn; lia]. pose proof (next_padding_small (cs_parser c)).
  destruct (next_padding_len (cs_parser c)). cbn in *. lia.
Qed.

(** A piece on the wire and the state after it; [pad] is the random draw. *)
Definition piece_out (c : ChunkState) (pad piece : list Z) : list Z * ChunkState :=
  let '(n, c) := take_padding (cs_padding c) c in
  let '(size, c) := size_bytes c (Z.of_nat (length piece + overhead (cs_sec c) + n)) in
  let '(nonce, c) := next_nonce c in
  (size ++ chunk_seal (cs_sec c) (cs_keys c) nonce piece ++ take n pad, c).

Lemma MAX_CHUNK_value : 16382 < Z.of_nat MAX_CHUNK < 16384.
Proof. vm_compute. done. Qed.

Lemma size_bytes_fields c t :
  cs_sec (size_bytes c t).2 = cs_sec c ∧ cs_keys (size_bytes c t).2 = cs_keys c.
Proof. unfold size_bytes. destruct (cs_masking c); [|done]. by destruct (parser_encode _ _). Qed.

Lemma next_nonce_fields c : cs_sec (next_nonce c).2 = cs_sec c ∧ cs_keys (next_nonce c).2 = cs_keys c.
Proof. unfold next_nonce. by destruct (cs_sec c) eqn:E; cbn; rewrite ?E. Qed.

(** The reader takes a piece as the writer made it. *)
Lemma yields_fill r pad piece i :
  (0 < length piece <= MAX_CHUNK)%nat → length pad = 64%nat →
  yields (vm_fill_chunk r) ((piece_out (vr_chunk r) pad piece).1 ++ i)
    (Ok (mk_vm_reader (piece_out (vr_chunk r) pad piece).2 piece 0 (vr_eof r))) i [].
Proof.
  intros Hp Hpad. pose proof MAX_CHUNK_value as HM. unfold vm_fill_chunk, piece_out.
  pose proof (take_padding_small (cs_padding (vr_chunk r)) (vr_chunk r)) as Hn.
  destruct (take_padding _ _) as [n c]. cbn [fst] in Hn.
  set (total := Z.of_nat (length piece + overhead (cs_sec c) + n)).
  assert (overhead (cs_sec c) <= 16)%nat as Hov by (destruct (cs_sec c); cbn; lia).
  assert (is_u16 total) as Ht by (unfold total, in_range; lia).
  destruct (size_codec c total Ht) as [Hl Hdec]. destruct (size_bytes_fields c total) as [Hsec Hkeys].
  destruct (size_bytes c total) as [size c1]. cbn [fst snd] in *.
  destruct (next_nonce_fields c1) as [Hsec1 Hkeys1].
  destruct (next_nonce c1) as [nonce c2] eqn:En. cbn [fst snd] in *.
  destruct (chunk_codec (cs_sec c2) (cs_keys c2) nonce piece) as [Hop Hsl].
  rewrite <- !app_assoc. apply yields_read; [done|]. rewrite Hdec. unfold total. rewrite Nat2Z.id, Hsec.
  rewrite (proj2 (Nat.eqb_neq _ _)) by lia. rewrite (proj2 (Nat.ltb_ge _ _)) by lia.
  apply yields_read; [rewrite Hsl, Hsec1, Hsec; lia|].
  destruct (Nat.ltb_spec 0 n).
  - eapply yields_silent; [apply yields_read; [len | apply yields_ret]|]. rewrite En, Hop. apply yields_ret.
  - replace n with 0%nat by lia. cbn [take app]. apply yields_ret_bind. rewrite En, Hop. apply yields_ret.
Qed.

(** The size field of the end marker. *)
Definition end_size (c : ChunkState) : list Z :=
  let '(n, c) := take_padding (cs_padding c) c in
  (size_bytes c (u16! (Z.of_nat (overhead (cs_sec c) + n)))).1.

Lemma yields_fill_end r i :
  ∃ c, yields (vm_fill_chunk r) (end_size (vr_chunk r) ++ i)
    (Ok (mk_vm_reader c (vr_pending r) (vr_ppos r) true)) i [].
Proof.
  unfold vm_fill_chunk, end_size.
  pose proof (take_padding_small (cs_padding (vr_chunk r)) (vr_chunk r)) as Hn.
  destruct (take_padding _ _) as [n c]. cbn [fst] in Hn.
  assert (overhead (cs_sec c) <= 16)%nat as Hov by (destruct (cs_sec c); cbn; lia).
  rewrite wrap_small by (unfold in_range; lia).
  set (total := Z.of_nat (overhead (cs_sec c) + n)).
  assert (is_u16 total) as Ht by (unfold total, in_range; lia).
  destruct (size_codec c total Ht) as [Hl Hdec]. destruct (size_bytes_fields c total) as [Hsec Hkeys].
  destruct (size_bytes c total) as [size c1]. cbn [fst snd] in *. exists c1.
  apply yields_read; [done|]. rewrite Hdec. unfold total. rewrite Nat2Z.id, Hsec, Nat.eqb_refl. apply yields_ret.
Qed.

(** Whole bodies: the bytes of the pieces and the state after them. *)
Context (random64 : nat → list Z) (random64_length : ∀ i, length (random64 i) = 64%nat).

Lemma kc_fill r : keeps_clean (vm_fill_chunk r).
Proof. unfold vm_fill_chunk, next_nonce. keeps_clean. Qed.

(** What the writer puts out for the pieces is what [piece_out] says. *)
Lemma write_piece_out piece w :
  (0 < length piece <= MAX_CHUNK)%nat →
  ∃ d, ∀ s, s_wr s = [] → vm_write_piece random64 piece w s
    = (Ok tt, mk_vm_writer (piece_out (vw_chunk w) (random64 (vw_draws w)) piece).2 d,
       mk_sock (s_in s) (s_out s ++ (piece_out (vw_chunk w) (random64 (vw_draws w)) piece).1) [] (s_shut s)).
Proof using random64_length.
  intros Hp. pose proof MAX_CHUNK_value as HM. unfold vm_write_piece, piece_out.
  rewrite (bool_decide_eq_false_2 (piece = [])) by (intros ->; cbn in Hp; lia).
  rewrite andb_true_r.
  pose proof (take_padding_small (cs_padding (vw_chunk w)) (vw_chunk w)) as Hn.
  destruct (take_padding _ _) as [n c]. cbn [fst] in Hn.
  assert (overhead (cs_sec c) <= 16)%nat as Hov by (destruct (cs_sec c); cbn; lia).
  rewrite (proj2 (Z.ltb_ge 65535 _)) by lia.
  destruct (size_bytes c _) as [size c1]. destruct (next_nonce c1) as [nonce c2].
  exists (if (0 <? n)%nat then S (vw_draws w) else vw_draws w). intros s Hw.
  unfold write_padding, io_bind, lift, write_all, ret. rewrite Hw. cbn [s_wr s_in s_out s_shut fst snd].
  destruct (Nat.ltb_spec 0 n).
  - rewrite slice_ok by (rewrite ?random64_length; lia). rewrite drop_0, Nat.sub_0_r.
    cbn [s_wr s_in s_out s_shut]. by rewrite <- !app_assoc.
  - replace n with 0%nat by lia. cbn [take]. by rewrite app_nil_r, <- !app_assoc.
Qed.

Lemma write_end_out w :
  ∃ w' tail, ∀ s, s_wr s = [] → vm_write_end random64 w s
    = (Ok tt, w', mk_sock (s_in s) (s_out s ++ end_size (vw_chunk w) ++ tail) [] (s_shut s)).
Proof using random64_length.
  unfold vm_write_end, end_size.
  pose proof (take_padding_small (cs_padding (vw_chunk w)) (vw_chunk w)) as Hn.
  destruct (take_padding _ _) as [n c]. cbn [fst] in Hn.
  destruct (size_bytes c _) as [size c1]. destruct (next_nonce c1) as [nonce c2]. cbn [fst].
  set (tl := match cs_sec c2 with CsNone => [] | _ => chunk_seal (cs_sec c2) (cs_keys c2) nonce [] end).
  exists (mk_vm_writer c2 (if (0 <? n)%nat then S (vw_draws w) else vw_draws w)),
    (tl ++ if (0 <? n)%nat then take n (random64 (vw_draws w)) else []).
  intros s Hw. unfold write_all at 1. rewrite Hw.
  unfold write_padding, io_bind, lift, write_all, ret. cbn [s_wr s_in s_out s_shut].
  destruct (0 <? n)%nat; rewrite ?slice_ok by (rewrite ?random64_length; lia);
    rewrite ?drop_0, ?Nat.sub_0_r; unfold tl; destruct (cs_sec c2);
    cbn [s_wr s_in s_out s_shut app]; rewrite ?app_nil_r, <- ?app_assoc; done.
Qed.

(** [carried c ps bs]: the bytes [bs] are the pieces [ps] written from state
    [c], with some padding, and the end marker. *)
Inductive carried : ChunkState → list (list Z) → list Z → Prop :=
| carried_end c tail : carried c [] (end_size c ++ tail)
| carried_piece c p ps pad rest :
    (0 < length p <= MAX_CHUNK)%nat → length pad = 64%nat →
    carried (piece_out c pad p).2 ps rest → carried c (p :: ps) ((piece_out c pad p).1 ++ rest).

Lemma duplex_carried c ps bts :
  carried c ps bts → ∀ fuel r s,
  vr_chunk r = c → (length (vr_pending r) <= vr_ppos r)%nat → vr_eof r = false → (length ps < fuel)%nat →
  clean s → s_wr s = [] → avail s = bts →
  duplex_read vm_read_data fuel r s = (concat ps, Ok tt).
Proof.
  pose proof MAX_CHUNK_value as HM.
  induction 1 as [c tail | c p ps pad rest Hp Hpad Hc IH]; intros fuel r s Hr Hpos He Hf Hcl Hw Ha;
    (destruct fuel as [|fuel]; [cbn in Hf; lia|]); cbn [duplex_read concat]; unfold vm_read_data;
    cbn [vm_read_go]; rewrite (proj2 (Nat.ltb_ge _ _)), He by done; unfold io_bind at 1; subst c.
  - destruct (yields_fill_end r tail) as [c Hy]. destruct (Hy s Ha Hw) as (s1 & -> & _).
    cbn [vm_read_go vr_ppos vr_pending vr_eof]. by rewrite (proj2 (Nat.ltb_ge _ _)).
  - destruct (yields_fill r pad p rest Hp Hpad s Ha Hw) as (s1 & E & Ha1 & _ & Hw1 & _).
    pose proof (kc_fill r s Hcl) as Hcl1. rewrite E in Hcl1 |- *. cbn [snd] in Hcl1.
    cbn [vm_read_go vr_ppos vr_pending vr_eof vr_chunk].
    rewrite (proj2 (Nat.ltb_lt 0 (length p))) by lia.
    rewrite Nat.sub_0_r, Nat.min_r by lia. unfold ret. rewrite drop_0, take_ge by lia.
    destruct p as [|x p]; [cbn in Hp; lia|].
    rewrite (IH fuel _ s1); cbn [vr_ppos vr_pending vr_eof vr_chunk]; try done; cbn in Hf; lia.
Qed.

Lemma write_pieces_carried ps : ∀ w,
  Forall (λ p, 0 < length p <= MAX_CHUNK)%nat ps →
  ∃ w' bs, (∀ s, s_wr s = [] →
      vm_write_pieces random64 ps w s = (Ok tt, w', mk_sock (s_in s) (s_out s ++ bs) [] (s_shut s)))
    ∧ ∀ qs rest, carried (vw_chunk w') qs rest → carried (vw_chunk w) (ps ++ qs) (bs ++ rest).
Proof using random64_length.
  induction ps as [|p ps IH]; intros w Hps; cbn [vm_write_pieces].
  - exists w, []. split; [|done]. intros s Hw. rewrite app_nil_r. destruct s. cbn in *. by subst.
  - apply Forall_cons in Hps as [Hp Hps].
    destruct (write_piece_out p w Hp) as [d Hd].
    destruct (IH (mk_vm_writer (piece_out (vw_chunk w) (random64 (vw_draws w)) p).2 d) Hps) as (w' & b & Hb & Hcar).
    exists w', ((piece_out (vw_chunk w) (random64 (vw_draws w)) p).1 ++ b). split.
    + intros s Hw. rewrite Hd, Hb by done. cbn [s_in s_out s_shut]. by rewrite <- app_assoc.
    + intros qs rest Hq. rewrite <- app_assoc.
      cbn [app]. apply carried_piece; [done | apply random64_length | by apply Hcar].
Qed.

Definition body_pieces (blocks : list (list Z)) : list (list Z) := concat (map (chunks MAX_CHUNK) blocks).

Lemma duplex_write_carried blocks : ∀ w,
  ∃ bs, carried (vw_chunk w) (body_pieces blocks) bs ∧ ∀ s, s_wr s = [] →
    s_out (duplex_write (vm_write_chunk random64) blocks w s) = s_out s ++ bs.
Proof using random64_length.
  pose proof MAX_CHUNK_value as HM.
  induction blocks as [|b blocks IH]; intros w; cbn [duplex_write].
  - destruct (write_end_out w) as (w' & tail & E). exists (end_size (vw_chunk w) ++ tail).
    split; [apply carried_end|]. intros s Hw. cbn [vm_write_chunk]. by rewrite E.
  - destruct b as [|x b]; [apply IH|].
    destruct (write_pieces_carried (chunks MAX_CHUNK (x :: b)) w) as (w' & bs & E & Hcar);
      [apply chunks_Forall; lia|].
    destruct (IH w') as (bs' & Hc' & E'). exists (bs ++ bs'). split; [by apply Hcar|].
    intros s Hw. cbn [vm_write_chunk]. rewrite E, E' by done. cbn [s_out]. by rewrite <- app_assoc.
Qed.
End ChunkTheory.


(** ** The request command *)

Lemma fnv_u32 data : is_u32 (fnv1a32 data).
Proof.
  unfold fnv1a32. assert (is_u32 2166136261) as H by (unfold in_range; lia). revert H.
  generalize 2166136261. induction data as [|b data IH]; intros h Hh; [done|].
  cbn [fold_left]. apply IH. unfold wmul. by apply wrap_range.
Qed.

Lemma decode_address_encode t pre rest :
  target_addr_wf t →
  ∃ a hs, encode_host t = a :: hs ∧
  decode_address (pre ++ hs ++ rest) a (target_port t) (length pre) = Ok (t, (length pre + length hs)%nat).
Proof.
  intros [Ht Et]. unfold decode_address.
  destruct t as [[[o|o] p sc]|h p]; cbn in Ht, Et; simplify_eq; norm;
    cbn [encode_host ip app target_port port]; do 2 eexists; (split; [reflexivity|]);
    cbn [ATYP_V4 ATYP_DOMAIN ATYP_V6 Z.eqb Pos.eqb].
  - rewrite (proj2 (Nat.ltb_ge _ _)) by len. rewrite slice_mid by len. f_equal. f_equal. lia.
  - rewrite (proj2 (Nat.ltb_ge _ _)) by len. rewrite slice_mid by len. f_equal. f_equal. lia.
  - rewrite (proj2 (Nat.ltb_ge _ _)) by len.
    rewrite (idx_Some _ (length pre) (u8! (Z.of_nat (length h)))).
    2:{ rewrite lookup_app_r, Nat.sub_diag by lia. done. }
    rewrite wrap_Z_of_nat_u8 by lia. rewrite Nat2Z.id. rewrite (proj2 (Nat.ltb_ge _ _)) by len.
    replace (pre ++ (Z.of_nat (length h) :: h) ++ rest) with ((pre ++ [Z.of_nat (length h)]) ++ h ++ rest)
      by (by rewrite <- !app_assoc).
    rewrite slice_mid by len. rewrite from_utf8_lossy_valid by done. f_equal. f_equal. cbn [length]. lia.
Qed.

Lemma slice_mid_nil {E} a b i : i = length a → @slice E (a ++ b) 0 i = Ok a.
Proof. intros ->. apply (slice_mid [] a b); cbn; lia. Qed.

(** Encoding a request and decoding it. *)
Lemma request_command_roundtrip iv key v options sec cmd t :
  length iv = 16%nat → length key = 16%nat → target_addr_wf t → 0 ≤ sec < 16 →
  decode_request_command (encode_request_command iv key v options sec cmd t)
  = Ok (mk_request iv key v options sec cmd t).
Proof.
  intros Hiv Hkey Ht Hsec.
  assert (Z.land sec 15 = sec) as Hs15 by (change 15 with (Z.ones 4); rewrite Z.land_ones by lia; by apply Z.mod_small).
  assert (is_u16 (target_port t)) as Hp.
  { destruct Ht as [Ht Et]. destruct t as [[[o|o] p sc]|h p]; cbn in *; naive_solver. }
  unfold encode_request_command. rewrite Hs15, be_bytes_2.
  destruct (decode_address_encode t ([VERSION] ++ iv ++ key ++ [v; options; sec; 0; cmd]
    ++ [u8! (Z.shiftr (target_port t) 8); u8! (target_port t)] ++ [match encode_host t with a :: _ => a | [] => 0 end])
    (be_bytes 4 (fnv1a32 ([VERSION] ++ iv ++ key ++ [v] ++ [options] ++ [sec] ++ [0] ++ [cmd]
      ++ [u8! (Z.shiftr (target_port t) 8); u8! (target_port t)] ++ encode_host t))) Ht) as (a & hs & Eh & Hdec).
  rewrite Eh in *. cbv zeta.
  set (head := [VERSION] ++ iv ++ key ++ [v] ++ [options] ++ [sec] ++ [0] ++ [cmd] ++ _ ++ a :: hs) in *.
  assert (length head = 41 + length hs)%nat as Hhl by (unfold head; len).
  unfold decode_request_command.
  assert (length (head ++ be_bytes 4 (fnv1a32 head)) - 4 = length head)%nat as Hl4
    by (rewrite length_app, length_be_bytes; lia).
  rewrite Hl4. rewrite (proj2 (Nat.ltb_ge _ _)) by (rewrite length_app, length_be_bytes; lia).
  rewrite slice_from_app by done.
  rewrite (slice_mid_nil head _ (length head)) by done.
  rewrite be_value_u32 by apply fnv_u32. rewrite Z.eqb_refl. cbn [negb].
  assert (length (be_bytes 4 (fnv1a32 head)) = 4%nat) as Hf by apply length_be_bytes.
  generalize dependent (be_bytes 4 (fnv1a32 head)). intros fnv Hdec Hl4 Hf.
  do 16 (destruct iv as [|? iv]; [done|]). destruct iv; [|done].
  do 16 (destruct key as [|? key]; [done|]). destruct key; [|done].
  unfold head in *. cbn [app] in Hdec |- *. cbn [app] in Hl4.
  rewrite !slice_ok by (cbn [length]; lia). unfold idx. cbn [lookup list_lookup take drop Nat.sub].
  rewrite Z.eqb_refl. cbn [negb]. rewrite u16_be_bytes by done.
  cbn [length app] in Hdec. rewrite Hdec, Hs15.
  rewrite (proj2 (Nat.eqb_eq _ _)); [done | exact (eq_sym Hhl)].
Qed.

(** ** The handshake *)

Lemma as_i64_small x : 0 ≤ x < 2 ^ 63 → as_i64 x = x.
Proof. intros H. unfold as_i64. rewrite wrap_small by (unfold in_range; lia). by rewrite (proj2 (Z.ltb_lt _ _)) by lia. Qed.

Lemma fresh_ts_near now ts :
  0 ≤ now < 2 ^ 63 → 0 ≤ ts < 2 ^ 63 → fresh_ts now ts = bool_decide (Z.abs (now - ts) ≤ 120).
Proof.
  intros Hn Ht. unfold fresh_ts. assert (as_i64 (now - ts) = now - ts) as ->.
  { unfold as_i64, wrap. destruct (Z.le_gt_cases ts now).
    - rewrite Z.mod_small by lia. by rewrite (proj2 (Z.ltb_lt _ _)) by lia.
    - rewrite <- (Z_mod_plus_full _ 1), Z.mod_small by lia. rewrite (proj2 (Z.ltb_ge _ _)) by lia. lia. }
  rewrite (proj2 (Z.eqb_neq _ _)) by lia. apply eq_true_iff_eq.
  by rewrite Z.leb_le, bool_decide_eq_true.
Qed.

Section Handshake.
Context `{AE : Aead} `{SH : Sha2} `{VC : VmessCrypto}.

Lemma create_auth_id_ok ck ts r4 :
  length r4 = 4%nat → 0 ≤ ts < 2 ^ 63 →
  length (create_auth_id ck ts r4) = 16%nat
  ∧ ∀ ck', as_i64 (be_value (take 8 (aes_decrypt (kdf16 ck' [bs "AES Auth ID Encryption"])
              (create_auth_id ck ts r4)))) = ts.
Proof.
  intros Hr Hts. unfold create_auth_id.
  assert (length (be_bytes 8 (u64! ts) ++ r4 ++ replicate 4 0) = 16%nat) as Hl by len.
  split; [by apply aes_encrypt_length|]. intros ck'.
  change (kdf16 ck' [bs "AES Auth ID Encryption"]) with (kdf16 ck [bs "AES Auth ID Encryption"]).
  rewrite aes_decrypt_encrypt by done. rewrite take_app_length' by len.
  rewrite be_value_u64 by by apply wrap_range. rewrite wrap_small by (unfold in_range; lia). by apply as_i64_small.
Qed.

(** The key of the client plays no part: the first user is matched. *)
Lemma match_user_any ck ts r4 u users now :
  length r4 = 4%nat → 0 ≤ ts < 2 ^ 63 → 0 ≤ now < 2 ^ 63 → Z.abs (now - ts) ≤ 120 →
  match_user now (create_auth_id ck ts r4) (u :: users) = Some (cmd_key u).
Proof.
  intros Hr Hts Hn Hd. cbn [match_user]. rewrite (proj2 (create_auth_id_ok ck ts r4 Hr Hts)).
  by rewrite fresh_ts_near, bool_decide_true by done.
Qed.

Lemma match_user_late ck ts r4 users now :
  length r4 = 4%nat → 0 ≤ ts < 2 ^ 63 → 0 ≤ now < 2 ^ 63 → 120 < Z.abs (now - ts) →
  match_user now (create_auth_id ck ts r4) users = None.
Proof.
  intros Hr Hts Hn Hd. induction users as [|u users IH]; cbn [match_user]; [done|].
  rewrite (proj2 (create_auth_id_ok ck ts r4 Hr Hts)).
  rewrite fresh_ts_near, bool_decide_false by (done || lia). done.
Qed.

Lemma std_read_exact_app n a b : length a = n → std_read_exact n (a ++ b) = Ok (a, b).
Proof.
  intros <-. unfold std_read_exact. rewrite (proj2 (Nat.leb_le _ _)) by len.
  by rewrite take_app_length, drop_app_length.
Qed.

(** The second reader opens a header that carries eighteen other bytes behind
    the identifier and the sealed length behind the nonce. *)
Lemma open_header_layout ck data ts now r4 nonce8 gap rest :
  length r4 = 4%nat → length nonce8 = 8%nat → length gap = 18%nat → Z.of_nat (length data) < 65536 →
  0 ≤ ts < 2 ^ 63 → 0 ≤ now < 2 ^ 63 → Z.abs (now - ts) ≤ 120 →
  let aid := create_auth_id ck ts r4 in
  let key n := kdf16 ck [n; aid; nonce8] in
  let nonce n := kdf12 ck [n; aid; nonce8] in
  open_vmess_aead_header ck now
    (aid ++ gap ++ nonce8
      ++ sealed Aes128Gcm (key (bs "VMess Header AEAD Key_Length")) (nonce (bs "VMess Header AEAD Nonce_Length")) aid
           (be_bytes 2 (Z.of_nat (length data)))
      ++ sealed Aes128Gcm (key (bs "VMess Header AEAD Key")) (nonce (bs "VMess Header AEAD Nonce")) aid data ++ rest)
  = Ok (data, rest).
Proof.
  intros Hr Hn8 Hg Hd Hts Hnow Hdt aid key nonce. unfold open_vmess_aead_header.
  destruct (create_auth_id_ok ck ts r4 Hr Hts) as [Hal Hat]. specialize (Hat ck). fold aid in Hal, Hat.
  rewrite (app_assoc aid gap). rewrite std_read_exact_app by len.
  rewrite take_app_length' by done. rewrite Hat, fresh_ts_near, bool_decide_true by done. cbn [negb].
  rewrite std_read_exact_app by done.
  rewrite std_read_exact_app by by rewrite sealed_length, length_be_bytes.
  unfold key, nonce. rewrite open_sealed_seal. cbn [ok_or]. rewrite length_be_bytes. cbn [Nat.eqb negb].
  rewrite be_bytes_2. rewrite (idx_Some _ 0 (u8! (Z.shiftr (Z.of_nat (length data)) 8))),
    (idx_Some _ 1 (u8! (Z.of_nat (length data)))) by done.
  rewrite u16_be_bytes, Nat2Z.id by (unfold in_range; lia).
  rewrite std_read_exact_app by by rewrite sealed_length. by rewrite open_sealed_seal.
Qed.

(** A sealed two-byte length, read back. *)
Lemma yields_sealed_u16 {A} k n a v e (f : list Z → io A) i r i' o :
  is_u16 v →
  yields (f (be_bytes 2 v)) i r i' o →
  yields (do! b := read_exact 18 in do! p <- ok_or e (open_sealed Aes128Gcm k n a b) in f p)
    (sealed Aes128Gcm k n a (be_bytes 2 v) ++ i) r i' o.
Proof.
  intros Hv Hf. apply yields_read; [by rewrite sealed_length, length_be_bytes|].
  rewrite open_sealed_seal. by apply yields_lift_ok.
Qed.

Definition req_of (d : VmDraws) (sec : Z) (t : ProxyTarget) : DecodedRequest :=
  mk_request (dr_iv d) (dr_key d) (dr_v d) 13 sec CMD_TCP t.

Definition draws_wf (d : VmDraws) : Prop :=
  length (dr_iv d) = 16%nat ∧ length (dr_key d) = 16%nat ∧ length (dr_auth d) = 4%nat ∧ length (dr_nonce d) = 8%nat.

(** The sealed header of a client, whatever its key, read by a server. *)
Lemma yields_request ck d sec t u users ts now i :
  draws_wf d → target_addr_wf t → 0 ≤ sec < 16 →
  0 ≤ ts < 2 ^ 63 → 0 ≤ now < 2 ^ 63 → Z.abs (now - ts) ≤ 120 →
  yields (read_vmess_request (u :: users) now)
    (seal_vmess_aead_header ck (encode_request_command (dr_iv d) (dr_key d) (dr_v d) 13 sec CMD_TCP t)
       ts (dr_auth d) (dr_nonce d) ++ i) (Ok (req_of d sec t)) i [].
Proof.
  intros (Hiv & Hkey & Hau & Hno) Ht Hsec Hts Hnow Hd.
  pose proof (request_command_roundtrip (dr_iv d) (dr_key d) (dr_v d) 13 sec CMD_TCP t Hiv Hkey Ht Hsec) as Hrt.
  set (cmd := encode_request_command _ _ _ _ _ _ _) in *.
  assert (Z.of_nat (length cmd) < 65536) as Hcl.
  { unfold cmd, encode_request_command. destruct Ht as [Ht Et]. rewrite !length_app, !length_be_bytes, Hiv, Hkey. cbn [length].
    destruct t as [[[o|o] p sc]|h p]; cbn in Ht; norm; cbn [encode_host ip length app]; lia. }
  clearbody cmd. unfold read_vmess_request, seal_vmess_aead_header.
  pose proof (proj1 (create_auth_id_ok ck ts (dr_auth d) Hau Hts)) as Hal.
  pose proof (match_user_any ck ts (dr_auth d) u users now Hau Hts Hnow Hd) as Hm.
  generalize dependent (create_auth_id ck ts (dr_auth d)). intros aid Hal Hm.
  rewrite <- !app_assoc. apply yields_read; [done|]. rewrite Hm. apply yields_lift_ok.
  apply yields_read; [by rewrite sealed_length, length_be_bytes|]. apply yields_read; [done|].
  change (kdf16 (cmd_key u)) with (kdf16 ck). change (kdf12 (cmd_key u)) with (kdf12 ck).
  rewrite open_sealed_seal. apply yields_lift_ok. rewrite length_be_bytes. cbn [Nat.eqb negb].
  rewrite be_bytes_2. apply yields_lift_ok, yields_lift_ok. rewrite u16_be_bytes by (apply wrap_range; lia).
  rewrite wrap_small by (unfold in_range; lia). rewrite Nat2Z.id.
  apply yields_read; [by rewrite sealed_length|]. rewrite open_sealed_seal. apply yields_lift_ok.
  cbn [ok_or]. rewrite Hrt. apply yields_lift_ok. apply yields_ret.
Qed.

(** The answer of the server, read by the client. *)
Lemma yields_response keys v o i :
  yields (read_response keys v) ((seal_response keys [v; o; 0]).1 ++ (seal_response keys [v; o; 0]).2 ++ i)
    (Ok tt) i [].
Proof.
  unfold read_response, seal_response. cbn [fst snd].
  apply yields_read; [by rewrite sealed_length, length_be_bytes|].
  rewrite open_sealed_seal. apply yields_lift_ok. rewrite length_be_bytes. cbn [Nat.eqb negb].
  rewrite be_bytes_2. apply yields_lift_ok, yields_lift_ok. rewrite u16_be_bytes by (apply wrap_range; lia).
  apply yields_read; [by rewrite sealed_length|]. rewrite open_sealed_seal. apply yields_lift_ok.
  cbn [head]. rewrite bool_decide_true by done. apply yields_ret.
Qed.

Definition client_keys (d : VmDraws) : ChunkKeys := mk_chunk_keys (dr_key d) (dr_iv d).
Definition server_keys (d : VmDraws) : ChunkKeys :=
  mk_chunk_keys (take 16 (sha256 (dr_key d))) (take 16 (sha256 (dr_iv d))).

(** Every security the client offers is one the server takes, to the same
    chunk cipher. *)
Lemma security_agrees s sec :
  security_byte s = Ok sec → chunk_security_of sec = Ok (chunk_sec_out sec) ∧ 0 ≤ sec < 16.
Proof.
  unfold security_byte. intros H. ok_inv H; (split; [reflexivity|]);
    unfold SEC_AES128_GCM, SEC_CHACHA20_POLY1305, SEC_NONE; lia.
Qed.

Definition request_bytes (cfg : VmessConfig) (u : list Z) (d : VmDraws) (ts sec : Z) (t : ProxyTarget) : list Z :=
  seal_vmess_aead_header (cmd_key u) (encode_request_command (dr_iv d) (dr_key d) (dr_v d) 13 sec CMD_TCP t)
    ts (dr_auth d) (dr_nonce d).

Lemma yields_handshake cfg uc d s sec t u users ts now i :
  draws_wf d → target_addr_wf t → security_byte s = Ok sec →
  0 ≤ ts < 2 ^ 63 → 0 ≤ now < 2 ^ 63 → Z.abs (now - ts) ≤ 120 →
  yields (handshake (u :: users) now) (request_bytes cfg uc d ts sec t ++ i)
    (Ok (t, vm_reader_new (chunk_new (client_keys d) (chunk_sec_out sec) true true),
         chunk_new (server_keys d) (chunk_sec_out sec) true true)) i
    ((seal_response (server_keys d) [dr_v d; 13; 0]).1 ++ (seal_response (server_keys d) [dr_v d; 13; 0]).2).
Proof.
  intros Hd Ht Hs Hts Hnow Hn. destruct (security_agrees s sec Hs) as [Hcs Hsec].
  unfold handshake. eapply yields_silent; [by apply yields_request|].
  cbn [rq_security req_of]. rewrite Hcs. apply yields_lift_ok.
  change (resp_chunk_keys (req_of d sec t)) with (server_keys d).
  change (rq_response_v (req_of d sec t)) with (dr_v d). change (rq_options (req_of d sec t)) with 13.
  destruct (seal_response (server_keys d) [dr_v d; 13; 0]) as [a b]. cbn [fst snd].
  apply yields_write, yields_write_ret.
Qed.

Lemma yields_connect cfg d ts t u sec i :
  parse_uuid (vm_uuid cfg) = Some u → security_byte (vm_security cfg) = Ok sec →
  yields (connect_tcp cfg d ts t)
    ((seal_response (server_keys d) [dr_v d; 13; 0]).1 ++ (seal_response (server_keys d) [dr_v d; 13; 0]).2 ++ i)
    (Ok (vm_reader_new (chunk_new (server_keys d) (chunk_sec_out sec) true true),
         chunk_new (client_keys d) (chunk_sec_out sec) true true)) i
    (request_bytes cfg u d ts sec t).
Proof.
  intros Hu Hs. unfold connect_tcp. rewrite Hu, Hs. apply yields_lift_ok, yields_lift_ok.
  apply yields_write_last. eapply yields_silent; [apply yields_response|].
  apply yields_lift_ok, yields_ret.
Qed.

Lemma kc_read_response keys v : keeps_clean (read_response keys v).
Proof. unfold read_response. keeps_clean. Qed.
Lemma kc_connect cfg d ts t : keeps_clean (connect_tcp cfg d ts t).
Proof. unfold connect_tcp. pose proof kc_read_response. keeps_clean. Qed.
Lemma kc_handshake users now : keeps_clean (handshake users now).
Proof. unfold handshake, read_vmess_request. keeps_clean. Qed.

(** ** Sessions

    The two tasks of a duplex run on the halves of one stream, so each starts
    from the stream the handshake left. *)
Context (random64 : nat → list Z).

Definition vm_session (r : VmReader) (w : ChunkState) (blocks : list (list Z)) (fuel : nat) (s : sock)
    : list Z * (list Z * res ioerr unit) :=
  (s_out (duplex_write (vm_write_chunk random64) blocks (mk_vm_writer w 0) s), duplex_read vm_read_data fuel r s).

(** What a client writes, and what it hands to the application. *)
Definition vm_client (cfg : VmessConfig) (d : VmDraws) (ts : Z) (t : ProxyTarget) (ups : list (list Z)) (fuel : nat)
    (s : sock) : res ioerr (list Z * (list Z * res ioerr unit)) :=
  match connect_tcp cfg d ts t s with
  | (Ok (r, w), s) => Ok (vm_session r w ups fuel s)
  | (Err e, _) => Err e
  | (Panic, _) => Panic
  end.

(** The target of a server's session, what it writes and what it receives. *)
Definition vm_server (users : list (list Z)) (now : Z) (downs : list (list Z)) (fuel : nat) (s : sock)
    : res ioerr (ProxyTarget * (list Z * (list Z * res ioerr unit))) :=
  match handshake users now s with
  | (Ok (t, r, w), s) => Ok (t, vm_session r w downs fuel s)
  | (Err e, _) => Err e
  | (Panic, _) => Panic
  end.

Context (random64_length : ∀ i, length (random64 i) = 64%nat).

Lemma body_pieces_concat blocks : concat (body_pieces blocks) = concat blocks.
Proof.
  pose proof MAX_CHUNK_value. unfold body_pieces. induction blocks as [|b blocks IH]; [done|].
  cbn [map concat]. by rewrite concat_app, IH, chunks_concat by lia.
Qed.

(** One side of a session whose peer's bytes carry the given buffers. *)
Lemma session_reads r w out c blocks fuel rest s :
  vr_chunk r = c → vr_pending r = [] → vr_ppos r = 0%nat → vr_eof r = false →
  (length (body_pieces blocks) < fuel)%nat → clean s → s_wr s = [] → avail s = rest →
  carried c (body_pieces blocks) rest →
  (vm_session r w out fuel s).2 = (concat blocks, Ok tt).
Proof.
  intros Hr Hp Hpp He Hf Hc Hw Ha Hcar. unfold vm_session. cbn [snd].
  rewrite (duplex_carried c _ rest Hcar), body_pieces_concat; try done. by rewrite Hp, Hpp.
Qed.

(** C8: a VMess connection end to end, for any client.  Take any client
    configuration with a well-formed UUID and a supported security, any
    well-formed target, and any server whose user list is not empty and whose
    clock is within 120 seconds of the client's: the client's UUID need not be
    among the server's users, because [kdf] ignores its key.  There are byte
    strings for the two directions such that, each delivered in any segments,
    the server opens exactly the client's target and receives exactly what the
    client's application sent, in order and ended cleanly, while the client
    receives exactly what the server's side sent, ended cleanly. *)
Theorem vmess_accepts_any cfg uc sec d ts now u users t ups downs fuel :
  parse_uuid (vm_uuid cfg) = Some uc → security_byte (vm_security cfg) = Ok sec →
  draws_wf d → target_addr_wf t →
  0 ≤ ts < 2 ^ 63 → 0 ≤ now < 2 ^ 63 → Z.abs (now - ts) ≤ 120 →
  (length (body_pieces ups) < fuel)%nat → (length (body_pieces downs) < fuel)%nat →
  ∃ up down, ∀ usegs dsegs, concat usegs = up → concat dsegs = down →
    vm_server (u :: users) now downs fuel (stream_of usegs) = Ok (t, (down, (concat ups, Ok tt)))
    ∧ vm_client cfg d ts t ups fuel (stream_of dsegs) = Ok (up, (concat downs, Ok tt)).
Proof using random64_length.
  intros Hu Hs Hd Ht Hts Hnow Hn Hf1 Hf2.
  set (ans := (seal_response (server_keys d) [dr_v d; 13; 0]).1 ++ (seal_response (server_keys d) [dr_v d; 13; 0]).2).
  set (cc := chunk_new (client_keys d) (chunk_sec_out sec) true true).
  set (sc := chunk_new (server_keys d) (chunk_sec_out sec) true true).
  destruct (duplex_write_carried random64 random64_length ups (mk_vm_writer cc 0)) as (ub & Hub & Hup).
  destruct (duplex_write_carried random64 random64_length downs (mk_vm_writer sc 0)) as (db & Hdb & Hdown).
  exists (request_bytes cfg uc d ts sec t ++ ub), (ans ++ db). intros usegs dsegs Eu Ed. split.
  - pose proof (yields_handshake cfg uc d _ sec t u users ts now ub Hd Ht Hs Hts Hnow Hn) as Hy.
    destruct (Hy (stream_of usegs)) as (s1 & E & Ha & Ho & Hw & _); [by rewrite avail_stream_of | done|].
    pose proof (kc_handshake (u :: users) now _ (clean_stream_of usegs)) as Hc.
    unfold vm_server. rewrite E in Hc |- *. cbn [snd] in Hc.
    rewrite (surjective_pairing (vm_session _ _ _ _ _)).
    rewrite (session_reads _ sc downs cc ups fuel ub s1) by done.
    unfold vm_session. cbn [fst]. fold sc. by rewrite Hdown, Ho by done.
  - unfold ans in Ed. rewrite <- app_assoc in Ed. pose proof (yields_connect cfg d ts t uc sec db Hu Hs) as Hy.
    destruct (Hy (stream_of dsegs)) as (s1 & E & Ha & Ho & Hw & _); [by rewrite avail_stream_of | done|].
    pose proof (kc_connect cfg d ts t _ (clean_stream_of dsegs)) as Hc.
    unfold vm_client. rewrite E in Hc |- *. cbn [snd] in Hc.
    rewrite (surjective_pairing (vm_session _ _ _ _ _)).
    rewrite (session_reads _ cc ups sc downs fuel db s1) by done.
    unfold vm_session. cbn [fst]. fold cc. by rewrite Hup, Ho by done.
Qed.
End Handshake.

(** A stand-in for HMAC and AES: padding, and a mask. *)
Definition mask_crypto : VmessCrypto.
Proof.
  refine {|
    hmac_sha256 k m := take 32 (m ++ k ++ replicate 32 0);
    aes_encrypt k b := zip_with Z.lxor b (take 16 (k ++ replicate 16 0));
    aes_decrypt k b := zip_with Z.lxor b (take 16 (k ++ replicate 16 0)) |}.
  - intros. len.
  - intros k b Hb. rewrite length_zip_with. len.
  - intros k b Hb. apply xor_twice. len.
Defined.

(** The client's UUID is not the server's. *)
Lemma vmess_accepts_any_witness :
  let cfg := mk_vmess_config (bs "00000000-0000-0000-0000-00000000002a") (bs "auto") in
  let d := mk_draws (replicate 16 1) (replicate 16 2) 3 (replicate 4 4) (replicate 8 5) in
  let t := Domain (bs "a.b") 443 in
  ∃ up down, ∀ usegs dsegs, concat usegs = up → concat dsegs = down →
    @vm_server detached_ciphers pad_sha2 mask_crypto (λ _, replicate 64 0) [replicate 16 7] 1000 [[9]; [8]] 9
      (stream_of usegs) = Ok (t, (down, ([1; 2; 3], Ok tt)))
    ∧ @vm_client detached_ciphers pad_sha2 mask_crypto (λ _, replicate 64 0) cfg d 1100 t [[1]; []; [2; 3]] 9
      (stream_of dsegs) = Ok (up, ([9; 8], Ok tt)).
Proof.
  intros cfg d t.
  apply (@vmess_accepts_any detached_ciphers pad_sha2 mask_crypto (λ _, replicate 64 0) (λ _, eq_refl)
    cfg (replicate 15 0 ++ [42]) 3 d 1100 1000 (replicate 16 7) [] t [[1]; []; [2; 3]] [[9]; [8]] 9);
    try by_decide; try (vm_compute; reflexivity); vm_compute; lia.
Defined.

(** What a client seals, the second reader refuses. *)
Example open_header_refuses :
  @open_vmess_aead_header detached_ciphers mask_crypto (replicate 16 9) 1000
    (@seal_vmess_aead_header detached_ciphers mask_crypto (replicate 16 9) [1; 2; 3; 4] 1000 (replicate 4 4) (replicate 8 5))
  = Err (invalid_data (bs "vmess: failed to decrypt header length")).
Proof. vm_compute. reflexivity. Qed.
