(* ===== verification/Anytls.v ===== *)
(** * Anytls: sessions that carry many streams on one connection

    [omni-proto/src/proto/anytls/]: the frame codec, the reading loop of a
    session with its registry of streams, the streams, the writing task behind
    its bounded queue, the client session and the server's accept.

    An [mpsc] channel is what was sent on it so far and how much of that was
    taken.  The registry maps a stream identifier to a channel, by its place in
    the list of all channels ever made: after a second SYN for an identifier
    the older channel is still there, without a sender. *)

From S2P Require Import Prelude Text Net Io Socks5 Crypto Node Trojan.

(** ** Frames ([frame.rs]) *)

Definition CMD_WASTE : Z := 0.
Definition CMD_SYN : Z := 1.
Definition CMD_PSH : Z := 2.
Definition CMD_FIN : Z := 3.
Definition CMD_SETTINGS : Z := 4.
Definition CMD_ALERT : Z := 5.
Definition HEADER_SIZE : nat := 7.

Record Frame := mk_frame { f_cmd : Z; f_sid : Z; f_data : list Z }.

#[export] Instance Frame_eq_dec : EqDecision Frame.
Proof. solve_decision. Defined.

Definition frame_encode_into (f : Frame) (buf : list Z) : list Z :=
  buf ++ [f_cmd f] ++ be_bytes 4 (f_sid f) ++ be_bytes 2 (u16! (Z.of_nat (length (f_data f)))) ++ f_data f.
Definition frame_encode (f : Frame) : list Z := frame_encode_into f [].

Inductive DecodeOutcome :=
| NeedMore
| Decoded (f : Frame) (used : nat).

Definition try_decode (buf : list Z) : res ioerr DecodeOutcome :=
  if (length buf <? HEADER_SIZE)%nat then Ok NeedMore else
  let? cmd := idx buf 0 in
  let? sid := slice buf 1 5 in
  let? l0 := idx buf 5 in
  let? l1 := idx buf 6 in
  let dlen := Z.to_nat (u16_be l0 l1) in
  if (length buf <? HEADER_SIZE + dlen)%nat then Ok NeedMore else
  let? data := slice buf HEADER_SIZE (HEADER_SIZE + dlen) in
  Ok (Decoded (mk_frame cmd (be_value sid) data) (HEADER_SIZE + dlen)).

(** ** The reading loop ([session.rs]) *)

Definition MAX_PAYLOAD : nat := Z.to_nat 16384.

Inductive StreamMsg :=
| MData (b : list Z)
| MEof.

#[export] Instance StreamMsg_eq_dec : EqDecision StreamMsg.
Proof. solve_decision. Defined.

Record Session := mk_session {
  se_registry : gmap Z nat;
  se_chans : list (Z * list StreamMsg);
  se_settings : bool
}.
Definition session_new : Session := mk_session ∅ [] false.

(** [tx.send(msg).await]: a message to a stream that was dropped is lost,
    which no one can tell from one that is never read. *)
Definition chan_send (st : Session) (k : nat) (m : StreamMsg) : Session :=
  mk_session (se_registry st) (alter (λ c, (c.1, c.2 ++ [m])) k (se_chans st)) (se_settings st).

(** The registry entry and the channel of a new stream. *)
Definition register (st : Session) (sid : Z) : Session :=
  mk_session (<[sid := length (se_chans st)]> (se_registry st)) (se_chans st ++ [(sid, [])]) (se_settings st).

(** One frame, as the loop's [match] treats it. *)
Definition handle_frame (is_server : bool) (st : Session) (f : Frame) : res ioerr Session :=
  if f_cmd f =? CMD_WASTE then Ok st
  else if f_cmd f =? CMD_SETTINGS then Ok (mk_session (se_registry st) (se_chans st) true)
  else if f_cmd f =? CMD_SYN then
    if is_server && negb (se_settings st) then Err (invalid_data (bs "anytls: SYN before settings"))
    else Ok (register st (f_sid f))
  else if f_cmd f =? CMD_PSH then
    Ok match se_registry st !! f_sid f with
       | Some k => chan_send st k (match f_data f with [] => MEof | d => MData d end)
       | None => st
       end
  else if f_cmd f =? CMD_FIN then
    Ok match se_registry st !! f_sid f with
       | Some k => chan_send (mk_session (delete (f_sid f) (se_registry st)) (se_chans st) (se_settings st)) k MEof
       | None => st
       end
  else if f_cmd f =? CMD_ALERT then
    Err (mk_ioerr PermissionDenied (bs "anytls: alert from peer: " ++ from_utf8_lossy (f_data f)))
  else Ok st.

(** [read_loop]: its outcome and the session it leaves. *)
Fixpoint read_loop (fuel : nat) (is_server : bool) (buf : list Z) (st : Session) (s : sock)
    : res ioerr unit * Session :=
  match fuel with
  | O => (Ok tt, st)
  | S fuel =>
    match try_decode buf with
    | Panic => (Panic, st)
    | Err e => (Err e, st)
    | Ok (Decoded f used) =>
      match handle_frame is_server st f with
      | Ok st => read_loop fuel is_server (drop used buf) st s
      | Err e => (Err e, st)
      | Panic => (Panic, st)
      end
    | Ok NeedMore =>
      match read MAX_PAYLOAD s with
      | (Ok [], _) =>
        (match buf with
         | [] => Ok tt
         | _ => Err (mk_ioerr UnexpectedEof (bs "anytls: truncated frame"))
         end, st)
      | (Ok tmp, s) => read_loop fuel is_server (buf ++ tmp) st s
      | (Err e, _) => (Err e, st)
      | (Panic, _) => (Panic, st)
      end
    end
  end.

(** ** The writing task and its queue *)

Definition FRAME_BUF : nat := 256.

(** The channel of frames, whether the task still runs, and the connection. *)
Record Writer := mk_writer { w_sent : list Frame; w_taken : nat; w_open : bool; w_sock : sock }.
Definition spawn_writer (s : sock) : Writer := mk_writer [] 0 true s.

(** Room in the queue. *)
Definition has_room (w : Writer) : bool := (length (w_sent w) - w_taken w <? FRAME_BUF)%nat.
Definition push_frame (w : Writer) (f : Frame) : Writer :=
  mk_writer (w_sent w ++ [f]) (w_taken w) (w_open w) (w_sock w).

(** [try_send]. *)
Definition try_send (w : Writer) (f : Frame) : option Writer :=
  if w_open w && has_room w then Some (push_frame w f) else None.

(** [send().await]: [None] while it waits for room. *)
Definition send (w : Writer) (f : Frame) : option (res ioerr Writer) :=
  if negb (w_open w) then Some (Err (other (bs "anytls: session closed")))
  else if has_room w then Some (Ok (push_frame w f)) else None.

(** One turn of the task: a frame is encoded and written; after an error the
    connection is shut down and the queue is gone. *)
Definition writer_turn (w : Writer) : Writer :=
  if negb (w_open w) then w else
  match w_sent w !! w_taken w with
  | None => w
  | Some f =>
    match write_all (frame_encode f) (w_sock w) with
    | (Ok _, s) => mk_writer (w_sent w) (S (w_taken w)) true s
    | (_, s) => mk_writer (w_sent w) (S (w_taken w)) false (shutdown s).2
    end
  end.

(** ** Streams *)

(** The two halves of [AnytlsStream]: what it sends with, and what it reads
    from.  [ar_queue] is what is in its channel and [ar_closed] says that no
    sender is left. *)
Record StreamTx := mk_stream_tx { at_sid : Z; at_fin : bool }.
Record StreamRx := mk_stream_rx {
  ar_queue : list StreamMsg;
  ar_closed : bool;
  ar_leftover : option (list Z);
  ar_eof : bool
}.

Definition broken (m : str) : ioerr := mk_ioerr BrokenPipe m.

Definition send_psh (t : StreamTx) (d : list Z) (w : Writer) : res ioerr Writer :=
  if at_fin t then Err (broken (bs "anytls: closed"))
  else ok_or (broken (bs "anytls: session closed")) (try_send w (mk_frame CMD_PSH (at_sid t) d)).

(** [poll_write]: the pieces sent before a failure stay sent. *)
Fixpoint write_pieces (t : StreamTx) (pieces : list (list Z)) (w : Writer) : res ioerr unit * Writer :=
  match pieces with
  | [] => (Ok tt, w)
  | p :: pieces =>
    match send_psh t p w with
    | Ok w => write_pieces t pieces w
    | Err e => (Err e, w)
    | Panic => (Panic, w)
    end
  end.
Definition poll_write (t : StreamTx) (buf : list Z) (w : Writer) : res ioerr nat * Writer :=
  match write_pieces t (chunks MAX_PAYLOAD buf) w with
  | (Ok _, w) => (Ok (length buf), w)
  | (Err e, w) => (Err e, w)
  | (Panic, w) => (Panic, w)
  end.

(** [send_fin]; [poll_shutdown] is it. *)
Definition send_fin (t : StreamTx) (w : Writer) : StreamTx * Writer :=
  if at_fin t then (t, w)
  else (mk_stream_tx (at_sid t) true, default w (try_send w (mk_frame CMD_FIN (at_sid t) []))).

(** [poll_read] into a buffer with [n] bytes of room: [None] is [Pending]. *)
Definition give (n : nat) (d : list Z) (queue : list StreamMsg) (closed : bool) : list Z * StreamRx :=
  (take n d, mk_stream_rx queue closed (if (n <? length d)%nat then Some (drop n d) else None) false).
Definition poll_read (n : nat) (r : StreamRx) : option (list Z * StreamRx) :=
  match ar_leftover r with
  | Some d =>
    let '(b, r') := give n d (ar_queue r) (ar_closed r) in
    Some (b, mk_stream_rx (ar_queue r') (ar_closed r') (ar_leftover r') (ar_eof r))
  | None =>
    if ar_eof r then Some ([], r) else
    match ar_queue r with
    | MData [] :: q => Some ([], mk_stream_rx q (ar_closed r) None true)
    | MData d :: q => Some (give n d q (ar_closed r))
    | MEof :: q => Some ([], mk_stream_rx q (ar_closed r) None true)
    | [] => if ar_closed r then Some ([], mk_stream_rx [] true None true) else None
    end
  end.

(** ** The client ([client.rs]) *)

(** A session: the next identifier, the call of [open_stream_to] that is
    between its two sends, the streams it opened, the writing task, and what
    the reading task keeps.  The lock on the session keeps a second opening
    out, but not the writes of other streams. *)
Record Client := mk_client {
  cl_next : Z;
  cl_opening : option (Z * ProxyTarget);
  cl_streams : list StreamTx;
  cl_writer : Writer;
  cl_session : Session
}.

Section Auth.
Context `{SH : Sha2}.

Definition auth_token (password : str) : list Z := sha256 password.

(** [connect], with the package version the build puts in.  The queue is
    fresh, so the settings are sent at once. *)
Definition settings (version : str) : list Z :=
  bs "v=2" ++ [10] ++ bs "client=omni-rs/" ++ version ++ [10]
  ++ bs "padding-md5=" ++ hex_encode (Md5.digest [[]]).
Definition client_connect (password version : str) : io Client := λ s,
  match (do! _ := write_all (auth_token password) in write_all (be_bytes 2 0)) s with
  | (Ok _, s) => (Ok (mk_client 1 None [] (push_frame (spawn_writer s) (mk_frame CMD_SETTINGS 0 (settings version)))
            session_new), s)
  | (Err e, s) => (Err e, s)
  | (Panic, s) => (Panic, s)
  end.

(** [read_auth]. *)
Definition read_auth (password : str) : io unit :=
  do! token := read_exact 32 in
  do! pad_len_b := read_exact 2 in
  let pad_len := Z.to_nat (be_value pad_len_b) in
  do! _ := (if (0 <? pad_len)%nat then do! _ := read_exact pad_len in ret tt else ret tt) in
  if bool_decide (token = sha256 password) then ret tt else fail (other (bs "anytls: authentication failed")).
End Auth.

(** What the tasks of a client do: the two halves of [open_stream_to], a
    write and a shutdown on the k-th stream, a turn of the writing task, and a
    frame received.  [None]: the step waits, or there is no such stream. *)
Inductive client_op :=
| OpSyn (t : ProxyTarget)
| OpAddr
| OpWrite (k : nat) (d : list Z)
| OpShutdown (k : nat)
| OpTurn
| OpRecv (f : Frame).

Definition with_writer (c : Client) (w : Writer) : Client :=
  mk_client (cl_next c) (cl_opening c) (cl_streams c) w (cl_session c).

Definition client_step (c : Client) (op : client_op) : option (res ioerr unit * Client) :=
  match op with
  | OpSyn t =>
    match cl_opening c with
    | Some _ => None
    | None =>
      let sid := cl_next c in
      let c := mk_client (wadd 32 sid 1) None (cl_streams c) (cl_writer c) (register (cl_session c) sid) in
      let+ r := send (cl_writer c) (mk_frame CMD_SYN sid []) in
      Some match r with
           | Ok w => (Ok tt, mk_client (cl_next c) (Some (sid, t)) (cl_streams c) w (cl_session c))
           | Err e => (Err e, c)
           | Panic => (Panic, c)
           end
    end
  | OpAddr =>
    let+ (sid, t) := cl_opening c in
    let+ r := send (cl_writer c) (mk_frame CMD_PSH sid (encode (from_proxy_target t))) in
    Some match r with
         | Ok w => (Ok tt, mk_client (cl_next c) None (cl_streams c ++ [mk_stream_tx sid false]) w (cl_session c))
         | Err e => (Err e, mk_client (cl_next c) None (cl_streams c) (cl_writer c) (cl_session c))
         | Panic => (Panic, mk_client (cl_next c) None (cl_streams c) (cl_writer c) (cl_session c))
         end
  | OpWrite k d =>
    let+ t := cl_streams c !! k in
    let '(r, w) := poll_write t d (cl_writer c) in
    Some (match r with Ok _ => Ok tt | Err e => Err e | Panic => Panic end, with_writer c w)
  | OpShutdown k =>
    let+ t := cl_streams c !! k in
    let '(t, w) := send_fin t (cl_writer c) in
    Some (Ok tt, mk_client (cl_next c) (cl_opening c) (<[k := t]> (cl_streams c)) w (cl_session c))
  | OpTurn => Some (Ok tt, with_writer c (writer_turn (cl_writer c)))
  | OpRecv f =>
    Some match handle_frame false (cl_session c) f with
         | Ok st => (Ok tt, mk_client (cl_next c) (cl_opening c) (cl_streams c) (cl_writer c) st)
         | Err e => (Err e, c)
         | Panic => (Panic, c)
         end
  end.

(** A run in which every step went through. *)
Fixpoint client_run (ops : list client_op) (c : Client) : option Client :=
  match ops with
  | [] => Some c
  | op :: ops =>
    match client_step c op with
    | Some (Ok _, c) => client_run ops c
    | _ => None
    end
  end.

(** ** The server ([server.rs]) *)

Inductive Accept :=
| Routed (t : ProxyTarget) (leftover : list Z) (r : StreamRx)
| Dropped
| Waiting (buf : list Z) (r : StreamRx).

(** The task of a new stream: its address, then the route. *)
Fixpoint accept_stream (fuel : nat) (buf : list Z) (r : StreamRx) : Accept :=
  match fuel with
  | O => Waiting buf r
  | S fuel =>
    match decode buf with
    | Ok (addr, used) => Routed (to_proxy_target addr) (drop used buf) r
    | _ =>
      if 4096 <? Z.of_nat (length buf) then Dropped else
      match poll_read 512 r with
      | None => Waiting buf r
      | Some ([], _) => Dropped
      | Some (b, r) => accept_stream fuel (buf ++ b) r
      end
    end
  end.

(** [PrefixedStream::poll_read]. *)
Definition prefixed_read (n : nat) (prefix : option (list Z)) (r : StreamRx)
    : option (list Z * (option (list Z) * StreamRx)) :=
  match prefix with
  | Some ((_ :: _) as pre) => Some (take n pre, (Some (drop n pre), r))
  | _ => let+ (b, r) := poll_read n r in Some (b, (None, r))
  end.

(** ** Frames and the reading loop *)

Definition frame_wf (f : Frame) : Prop :=
  is_u8 (f_cmd f) ∧ is_u32 (f_sid f) ∧ Z.of_nat (length (f_data f)) < 65536.

Lemma try_decode_encode f rest :
  frame_wf f → try_decode (frame_encode f ++ rest) = Ok (Decoded f (7 + length (f_data f))).
Proof.
  intros (Hc & Hs & Hd). destruct f as [cmd sid data]. cbn [f_cmd f_sid f_data] in *.
  unfold frame_encode, frame_encode_into. cbn [f_cmd f_sid f_data app].
  rewrite wrap_small by (unfold in_range; lia). rewrite be_bytes_2. rewrite <- !app_assoc.
  pose proof (length_be_bytes 4 sid) as Hl.
  pose proof (be_value_u32 sid Hs) as Hv.
  destruct (be_bytes 4 sid) as [|s0 [|s1 [|s2 [|s3 [|]]]]]; try done. cbn [app]. unfold try_decode.
  rewrite (proj2 (Nat.ltb_ge _ _)) by (unfold HEADER_SIZE; cbn [length]; lia).
  unfold idx. cbn [lookup list_lookup].
  rewrite slice_ok by (cbn [length]; lia). cbn [take drop Nat.sub].
  rewrite u16_be_bytes by (unfold in_range; lia). rewrite Nat2Z.id.
  rewrite (proj2 (Nat.ltb_ge _ _)) by (unfold HEADER_SIZE; cbn [length]; rewrite length_app; lia).
  rewrite slice_ok by (unfold HEADER_SIZE; cbn [length]; rewrite ?length_app; lia).
  unfold HEADER_SIZE. cbn [drop]. replace (7 + length data - 7)%nat with (length data) by lia.
  by rewrite drop_0, take_app_length, Hv.
Qed.

(** Decoding never fails, and a decoded frame is a prefix of the buffer. *)
Lemma try_decode_cases buf :
  (try_decode buf = Ok NeedMore)
  ∨ ∃ f u, try_decode buf = Ok (Decoded f u) ∧ (7 <= u <= length buf)%nat
           ∧ ∀ more, try_decode (buf ++ more) = Ok (Decoded f u).
Proof.
  unfold try_decode, HEADER_SIZE. destruct (Nat.ltb_spec (length buf) 7); [by left|].
  do 7 (destruct buf as [|? buf]; [cbn in *; lia|]). unfold idx. cbn [lookup list_lookup].
  rewrite (slice_ok _ 1 5) by (cbn [length]; lia). cbn [drop take Nat.sub].
  remember (Z.to_nat (u16_be z4 z5)) as dl eqn:Edl.
  destruct (Nat.ltb_spec (length (z :: z0 :: z1 :: z2 :: z3 :: z4 :: z5 :: buf)) (7 + dl)); [by left|].
  right. cbn [length] in *. rewrite slice_ok by (cbn [length]; lia). do 2 eexists. split; [done|]. split; [lia|].
  intros more. cbn [app length lookup list_lookup]. rewrite length_app.
  rewrite (slice_ok _ 1 5) by (cbn [length]; lia). cbn [drop take Nat.sub]. rewrite <- Edl. change (7 + dl)%nat with (S (S (S (S (S (S (S dl))))))).
  change (S (S (S (S (S (S (S (length buf + length more))))))) <? 7)%nat with false. cbv iota.
  rewrite (proj2 (Nat.ltb_ge _ _)) by lia. rewrite slice_ok by (cbn [length]; rewrite ?length_app; lia).
  cbn [drop]. rewrite !drop_0. by rewrite take_app_le by lia.
Qed.

(** The frames a byte string begins with, and the rest. *)
Fixpoint frames_fuel (fuel : nat) (b : list Z) : list Frame * list Z :=
  match fuel with
  | O => ([], b)
  | S fuel =>
    match try_decode b with
    | Ok (Decoded f u) => let '(fs, t) := frames_fuel fuel (drop u b) in (f :: fs, t)
    | _ => ([], b)
    end
  end.
Definition frames_of (b : list Z) : list Frame * list Z := frames_fuel (length b) b.

Lemma frames_fuel_enough n b : (length b <= n)%nat → frames_fuel n b = frames_of b.
Proof.
  unfold frames_of. revert b. induction n as [n IH] using lt_wf_ind. intros b Hn.
  destruct n as [|n], (length b) as [|m] eqn:E; try lia; cbn [frames_fuel]; [done|..].
  - destruct b; [|done]. done.
  - destruct (try_decode_cases b) as [->|(f & u & -> & Hu & _)]; [done|].
    rewrite (IH n), (IH m); rewrite ?length_drop; try lia. done.
Qed.

Lemma frames_of_unfold b :
  frames_of b = match try_decode b with
                | Ok (Decoded f u) => let '(fs, t) := frames_of (drop u b) in (f :: fs, t)
                | _ => ([], b)
                end.
Proof.
  rewrite <- (frames_fuel_enough (S (length b))) by lia. cbn [frames_fuel].
  destruct (try_decode_cases b) as [->|(f & u & -> & Hu & _)]; [done|].
  by rewrite frames_fuel_enough by (rewrite length_drop; lia).
Qed.

Lemma frames_of_encode fs rest :
  Forall frame_wf fs → frames_of (concat (map frame_encode fs) ++ rest)
  = let '(gs, t) := frames_of rest in (fs ++ gs, t).
Proof.
  induction 1 as [|f fs Hf Hfs IH]; cbn [map concat app]; [by destruct (frames_of rest)|].
  rewrite <- app_assoc, frames_of_unfold, try_decode_encode by done.
  assert (length (frame_encode f) = 7 + length (f_data f))%nat as <-
    by (unfold frame_encode, frame_encode_into; len).
  rewrite drop_app_length, IH. by destruct (frames_of rest).
Qed.

(** Frames in order, up to the first that ends the session. *)
Fixpoint process (is_server : bool) (st : Session) (fs : list Frame) : res ioerr unit * Session :=
  match fs with
  | [] => (Ok tt, st)
  | f :: fs =>
    match handle_frame is_server st f with
    | Ok st => process is_server st fs
    | Err e => (Err e, st)
    | Panic => (Panic, st)
    end
  end.

(** The outcome of the loop on the frames and the rest of a byte string. *)
Definition loop_spec (is_server : bool) (st : Session) (b : list Z) : res ioerr unit * Session :=
  let '(fs, tail) := frames_of b in
  match process is_server st fs with
  | (Ok _, st) => (match tail with
                   | [] => Ok tt
                   | _ => Err (mk_ioerr UnexpectedEof (bs "anytls: truncated frame"))
                   end, st)
  | x => x
  end.

Lemma read_loop_frames is_server fuel : ∀ buf st s,
  clean s → (length buf + 2 * length (avail s) < fuel)%nat →
  read_loop fuel is_server buf st s = loop_spec is_server st (buf ++ avail s).
Proof.
  unfold loop_spec. induction fuel as [|fuel IH]; intros buf st s Hc Hf; [lia|]. cbn [read_loop].
  destruct (try_decode_cases buf) as [E|(f & u & E & Hu & Hmore)]; rewrite E.
  - destruct (read_clean MAX_PAYLOAD s) as (b & s' & Hr & Hc' & Ha & Hb & _);
      [unfold MAX_PAYLOAD; lia | done|]. rewrite Hr. destruct b as [|x b].
    + rewrite (Hb eq_refl), app_nil_r, frames_of_unfold, E. cbn [process]. by destruct buf.
    + rewrite IH; [|done|rewrite length_app; rewrite Ha, length_app in Hf; cbn [length] in *; lia].
      by rewrite <- app_assoc, <- Ha.
  - rewrite (frames_of_unfold (buf ++ avail s)), Hmore. rewrite drop_app_le by lia.
    assert (∀ st', read_loop fuel is_server (drop u buf) st' s = _) as IH'
      by (intros st'; apply IH; [done | rewrite length_drop; lia]).
    destruct (frames_of (drop u buf ++ avail s)) as [fs t]. cbn [process].
    destruct (handle_frame is_server st f) as [st'|e|]; [apply IH' | done..].
Qed.

(** C24: the reading loop of a session is a fold over the frames of the
    connection.  However the peer's bytes are cut into segments, the loop
    handles exactly the frames they spell, in order, stops at the first frame
    that ends the session, and otherwise ends cleanly when nothing is left of
    the last frame and with a truncation error when something is. *)
Theorem read_loop_refines is_server st s fuel :
  clean s → (2 * length (avail s) < fuel)%nat →
  read_loop fuel is_server [] st s
  = let '(fs, tail) := frames_of (avail s) in
    match process is_server st fs with
    | (Ok _, st) => (match tail with
                     | [] => Ok tt
                     | _ => Err (mk_ioerr UnexpectedEof (bs "anytls: truncated frame"))
                     end, st)
    | x => x
    end.
Proof. intros Hc Hf. by rewrite read_loop_frames. Qed.

(** ** What the peer of a client sees

    A stream as the server knows it: its target, whether its address arrived,
    the pieces of data, and whether the client sent its end ([p_fin]) and the
    end found room in the queue ([p_ended]). *)
Record Peer := mk_peer {
  p_target : ProxyTarget;
  p_addr : bool;
  p_pieces : list (list Z);
  p_fin : bool;
  p_ended : bool
}.
Definition fresh (t : ProxyTarget) : Peer := mk_peer t false [] false false.
Definition p_msgs (p : Peer) : list StreamMsg :=
  (if p_addr p then [MData (encode (from_proxy_target (p_target p)))] else [])
  ++ map MData (p_pieces p) ++ (if p_ended p then [MEof] else []).

Definition sid_of (k : nat) : Z := Z.of_nat k + 1.

(** The session of a server whose client has opened the streams [P]. *)
Definition Rep (st : Session) (P : list Peer) : Prop :=
  se_settings st = true
  ∧ se_chans st = imap (λ k p, (sid_of k, p_msgs p)) P
  ∧ ∀ k, se_registry st !! sid_of k = (P !! k) ≫= λ p, if p_ended p then None else Some k.

Lemma sid_of_inj k j : sid_of k = sid_of j → k = j.
Proof. unfold sid_of. lia. Qed.

Lemma Rep_syn st P t :
  Rep st P →
  ∃ st', handle_frame true st (mk_frame CMD_SYN (sid_of (length P)) []) = Ok st' ∧ Rep st' (P ++ [fresh t]).
Proof.
  intros (Hs & Hc & Hr). unfold handle_frame. cbn [f_cmd f_sid CMD_SYN CMD_WASTE CMD_SETTINGS Z.eqb Pos.eqb].
  rewrite Hs. cbn [andb negb]. eexists. split; [done|]. unfold Rep, register. cbn [se_settings se_chans se_registry].
  rewrite Hc, imap_app, length_imap. split; [done|]. split.
  - cbn [imap]. rewrite Nat.add_0_r. done.
  - intros k. destruct (decide (k = length P)) as [->|Hk].
    + rewrite lookup_insert, lookup_app_r, Nat.sub_diag by lia. by rewrite decide_True.
    + rewrite lookup_insert_ne, Hr by (intros E; by apply Hk, eq_sym, sid_of_inj).
      destruct (Nat.lt_ge_cases k (length P)); [by rewrite lookup_app_l by lia|].
      rewrite !lookup_ge_None_2 by (rewrite ?length_app; cbn; lia). done.
Qed.

(** A message to the k-th stream, kept or ended by it. *)
Lemma Rep_send st P k p p' m reg :
  Rep st P → P !! k = Some p → p_msgs p' = p_msgs p ++ [m] →
  (∀ j, reg !! sid_of j = if decide (j = k) then if p_ended p' then None else Some k else se_registry st !! sid_of j) →
  Rep (chan_send (mk_session reg (se_chans st) (se_settings st)) k m) (<[k := p']> P).
Proof.
  intros (Hs & Hc & Hr) Hk Hm Hreg. pose proof (lookup_lt_Some _ _ _ Hk) as Hlt. unfold Rep, chan_send. cbn [se_settings se_chans se_registry].
  split; [done|]. split.
  - rewrite Hc. apply list_eq. intros j. rewrite list_lookup_imap.
    destruct (decide (j = k)) as [->|Hj].
    + rewrite list_lookup_alter_eq, list_lookup_imap, Hk, list_lookup_insert_eq by done. cbn. by rewrite Hm.
    + rewrite list_lookup_alter_ne, list_lookup_imap by done. by rewrite list_lookup_insert_ne by done.
  - intros j. rewrite Hreg. destruct (decide (j = k)) as [->|Hj].
    + by rewrite list_lookup_insert_eq by done.
    + by rewrite list_lookup_insert_ne, Hr by done.
Qed.

Lemma Rep_same st P k p p' :
  Rep st P → P !! k = Some p → p_msgs p' = p_msgs p → p_ended p' = p_ended p → Rep st (<[k := p']> P).
Proof.
  intros (Hs & Hc & Hr) Hk Hm He. pose proof (lookup_lt_Some _ _ _ Hk). split; [done|]. split.
  - rewrite Hc. apply list_eq. intros j. rewrite !list_lookup_imap.
    destruct (decide (j = k)) as [->|]; [|by rewrite list_lookup_insert_ne].
    rewrite list_lookup_insert_eq, Hk by done. cbn. by rewrite Hm.
  - intros j. rewrite Hr. destruct (decide (j = k)) as [->|]; [|by rewrite list_lookup_insert_ne].
    rewrite list_lookup_insert_eq, Hk by done. cbn. by rewrite He.
Qed.

Lemma Rep_psh st P k p p' d :
  Rep st P → P !! k = Some p → p_ended p = false → p_ended p' = false → d ≠ [] →
  p_msgs p' = p_msgs p ++ [MData d] →
  ∃ st', handle_frame true st (mk_frame CMD_PSH (sid_of k) d) = Ok st' ∧ Rep st' (<[k := p']> P).
Proof.
  intros HR Hk He He' Hd Hm. pose proof HR as (_ & _ & Hr).
  unfold handle_frame. cbn [f_cmd f_sid f_data CMD_SYN CMD_WASTE CMD_SETTINGS CMD_PSH Z.eqb Pos.eqb].
  rewrite Hr, Hk. cbn [mbind option_bind]. rewrite He. destruct d as [|x d]; [done|]. eexists. split; [done|].
  destruct st as [reg chans set]. apply (Rep_send (mk_session reg chans set) P k p p' _ reg); try done.
  intros j. case_decide; [subst|done]. rewrite Hr, Hk. cbn. by rewrite He, He'.
Qed.

Lemma Rep_fin st P k p :
  Rep st P → P !! k = Some p → p_ended p = false →
  ∃ st', handle_frame true st (mk_frame CMD_FIN (sid_of k) []) = Ok st'
    ∧ Rep st' (<[k := mk_peer (p_target p) (p_addr p) (p_pieces p) true true]> P).
Proof.
  intros HR Hk He. pose proof HR as (_ & _ & Hr).
  unfold handle_frame. cbn [f_cmd f_sid f_data CMD_SYN CMD_WASTE CMD_SETTINGS CMD_PSH CMD_FIN Z.eqb Pos.eqb].
  rewrite Hr, Hk. cbn [mbind option_bind]. rewrite He. eexists. split; [done|].
  destruct st as [reg chans set].
  apply (Rep_send (mk_session reg chans set) P k p _ _ (delete (sid_of k) reg)); try done.
  - unfold p_msgs. cbn [p_addr p_target p_pieces p_ended]. rewrite He, app_nil_r. by rewrite <- app_assoc.
  - intros j. case_decide; [subst; apply lookup_delete_eq|]. apply lookup_delete_ne.
    intros E. by apply sid_of_inj in E.
Qed.

Lemma process_snoc b st fs f st' st'' :
  process b st fs = (Ok tt, st') → handle_frame b st' f = Ok st'' → process b st (fs ++ [f]) = (Ok tt, st'').
Proof.
  revert st; induction fs as [|g fs IH]; intros st; cbn [process app].
  - intros [= ->] ->. done.
  - destruct (handle_frame b st g) as [st1|e|]; [|done..]. apply IH.
Qed.

(** The writing side of a client that goes well: nothing failed, what was
    taken from the queue is on the wire after [out0], and a server that reads
    all that was sent knows the streams [P]. *)
Record Winv (out0 : list Z) (w : Writer) (P : list Peer) : Prop := {
  wi_open : w_open w = true;
  wi_ok : s_wr (w_sock w) = [];
  wi_taken : (w_taken w <= length (w_sent w))%nat;
  wi_out : s_out (w_sock w) = out0 ++ concat (map frame_encode (take (w_taken w) (w_sent w)));
  wi_wf : Forall frame_wf (w_sent w);
  wi_rep : ∃ st, process true session_new (w_sent w) = (Ok tt, st) ∧ Rep st P
}.

Lemma Winv_push out0 w P f P' :
  Winv out0 w P → frame_wf f →
  (∀ st, Rep st P → ∃ st', handle_frame true st f = Ok st' ∧ Rep st' P') →
  Winv out0 (push_frame w f) P'.
Proof.
  intros [Ho Hw Ht Hout Hwf (st & Hp & HR)] Hf Hh. destruct (Hh st HR) as (st' & Hst & HR').
  split; cbn [push_frame w_open w_sock w_taken w_sent]; try done.
  - rewrite length_app. lia.
  - by rewrite take_app_le by lia.
  - apply Forall_app. split; [done|]. by constructor.
  - exists st'. split; [|done]. by eapply process_snoc.
Qed.

Lemma Winv_turn out0 w P : Winv out0 w P → Winv out0 (writer_turn w) P.
Proof.
  intros [Ho Hw Ht Hout Hwf Hrep]. unfold writer_turn. rewrite Ho. cbn [negb].
  destruct (w_sent w !! w_taken w) as [f|] eqn:E; [|done].
  unfold write_all. rewrite Hw. pose proof (lookup_lt_Some _ _ _ E).
  split; cbn [w_open w_sock w_taken w_sent s_wr s_out]; try done; try lia.
  by rewrite (take_S_r _ _ f), map_app, concat_app, Hout, <- app_assoc by done; cbn; rewrite app_nil_r.
Qed.

Definition add_pieces (p : Peer) (ps : list (list Z)) : Peer :=
  mk_peer (p_target p) (p_addr p) (p_pieces p ++ ps) (p_fin p) (p_ended p).

Lemma payload_max_value : 16383 < Z.of_nat MAX_PAYLOAD < 16385.
Proof. vm_compute. done. Qed.

Lemma sid_of_u32 k : Z.of_nat k + 1 < 2 ^ 32 → is_u32 (sid_of k).
Proof. unfold in_range, sid_of. lia. Qed.

Lemma Winv_pieces out0 k fin pieces : ∀ w w' P p,
  Winv out0 w P → write_pieces (mk_stream_tx (sid_of k) fin) pieces w = (Ok tt, w') →
  P !! k = Some p → p_ended p = false → Z.of_nat k + 1 < 2 ^ 32 →
  Forall (λ d, 0 < length d <= MAX_PAYLOAD)%nat pieces → Winv out0 w' (<[k := add_pieces p pieces]> P).
Proof.
  induction pieces as [|d pieces IH]; intros w w' P p HW Hw Hk He Hsid Hps.
  - injection Hw as ->. unfold add_pieces. rewrite app_nil_r, list_insert_id; [done|]. by destruct p.
  - apply Forall_cons in Hps as [Hd Hps]. cbn [write_pieces] in Hw. unfold send_psh in Hw. cbn [at_fin at_sid] in Hw.
    destruct fin; [done|]. unfold try_send in Hw. destruct (w_open w && has_room w); [|done]. cbn [ok_or] in Hw.
    pose proof payload_max_value as HM. pose proof (lookup_lt_Some _ _ _ Hk) as Hlt.
    assert (<[k := add_pieces p (d :: pieces)]> P
      = <[k := add_pieces (add_pieces p [d]) pieces]> (<[k := add_pieces p [d]]> P)) as ->.
    { rewrite list_insert_insert_eq. unfold add_pieces. cbn. by rewrite <- app_assoc. }
    eapply IH; [| exact Hw | by apply list_lookup_insert_eq | done | done | done].
    eapply Winv_push; [exact HW | |].
    + split; [done|]. split; [by apply sid_of_u32|]. cbn [f_data]. lia.
    + intros st HR. apply (Rep_psh st P k p); try done; [intros ->; cbn in Hd; lia|].
      unfold p_msgs, add_pieces. cbn [p_target p_addr p_pieces p_ended]. rewrite He, !app_nil_r, map_app.
      by rewrite <- app_assoc.
Qed.

(** The streams as the program that uses the client knows them: the targets
    and the bytes written, in the order the streams were opened; and the
    target of the stream being opened. *)
Definition streams : Type := list (ProxyTarget * list Z) * option ProxyTarget.
Definition spec_step (sp : streams) (op : client_op) : streams :=
  match op with
  | OpSyn t => (sp.1, Some t)
  | OpAddr => match sp.2 with Some t => (sp.1 ++ [(t, [])], None) | None => sp end
  | OpWrite k d => (alter (λ x, (x.1, x.2 ++ d)) k sp.1, sp.2)
  | OpShutdown _ | OpTurn | OpRecv _ => sp
  end.
Definition spec_run (ops : list client_op) (sp : streams) : streams := fold_left spec_step ops sp.

Definition op_wf (op : client_op) : Prop :=
  match op with OpSyn t => target_addr_wf t | _ => True end.

#[export] Instance op_wf_dec op : Decision (op_wf op).
Proof. destruct op; apply _. Defined.

Definition opening_peers (o : option ProxyTarget) : list Peer :=
  match o with Some t => [fresh t] | None => [] end.

(** A client that went well, with its opened streams [L] and the one being
    opened. *)
Record Cinv (out0 : list Z) (c : Client) (L : list Peer) (o : option ProxyTarget) : Prop := {
  ci_writer : Winv out0 (cl_writer c) (L ++ opening_peers o);
  ci_next : cl_next c = sid_of (length (L ++ opening_peers o));
  ci_opening : cl_opening c = (λ t, (sid_of (length L), t)) <$> o;
  ci_streams : cl_streams c = imap (λ k p, mk_stream_tx (sid_of k) (p_fin p)) L;
  ci_peers : Forall (λ p, p_addr p = true ∧ (p_fin p = false → p_ended p = false) ∧ target_addr_wf (p_target p)
                          ∧ Forall (λ d, d ≠ []) (p_pieces p)) L;
  ci_wf : ∀ t, o = Some t → target_addr_wf t
}.

Definition abs (L : list Peer) (o : option ProxyTarget) : streams :=
  (map (λ p, (p_target p, concat (p_pieces p))) L, o).

Lemma map_alter_insert {A B} (f : A → B) (g : B → B) l k x y :
  l !! k = Some x → f y = g (f x) → map f (<[k := y]> l) = alter g k (map f l).
Proof.
  intros Hk E. apply list_eq. intros j. pose proof (lookup_lt_Some _ _ _ Hk).
  rewrite list_lookup_fmap. destruct (decide (j = k)) as [->|Hj].
  - rewrite list_lookup_insert_eq, list_lookup_alter_eq, list_lookup_fmap, Hk by done. cbn. by rewrite E.
  - by rewrite list_lookup_insert_ne, list_lookup_alter_ne, list_lookup_fmap by done.
Qed.

Lemma Cinv_syn out0 c L o t c' :
  Cinv out0 c L o → target_addr_wf t → Z.of_nat (length L) + 2 < 2 ^ 32 →
  client_step c (OpSyn t) = Some (Ok tt, c') → o = None ∧ Cinv out0 c' L (Some t).
Proof.
  intros [HW Hn Ho Hst Hp Hwf] Ht HL Hstep. cbn [client_step] in Hstep. rewrite Ho in Hstep.
  destruct o; [done|]. split; [done|]. cbn [opening_peers] in *. rewrite app_nil_r in *.
  cbn [fmap option_fmap option_map] in Hstep. unfold send in Hstep. cbn [cl_writer] in Hstep.
  rewrite (wi_open _ _ _ HW) in Hstep. cbn [negb] in Hstep.
  destruct (has_room (cl_writer c)); [|done]. injection Hstep as <-.
  split; cbn [cl_next cl_opening cl_streams cl_writer opening_peers]; try done.
  - eapply Winv_push; [exact HW | |].
    + split; [done|]. split; [|done]. rewrite Hn. apply sid_of_u32. lia.
    + intros st HR. rewrite Hn. by apply Rep_syn.
  - rewrite Hn. unfold wadd. rewrite wrap_small by (unfold in_range, sid_of; lia).
    unfold sid_of. rewrite length_app. cbn [length]. lia.
  - by rewrite Hn.
  - by intros ? [= <-].
Qed.

Lemma Cinv_addr out0 c L o c' :
  Cinv out0 c L o → Z.of_nat (length L) + 2 < 2 ^ 32 → client_step c OpAddr = Some (Ok tt, c') →
  ∃ t, o = Some t ∧ Cinv out0 c' (L ++ [mk_peer t true [] false false]) None.
Proof.
  intros [HW Hn Ho Hst Hp Hwf] HL Hstep. cbn [client_step] in Hstep. rewrite Ho in Hstep.
  destruct o as [t|]; [|done]. exists t. split; [done|]. cbn [fmap option_fmap option_map opening_peers] in *.
  unfold send in Hstep. rewrite (wi_open _ _ _ HW) in Hstep. cbn [negb] in Hstep.
  destruct (has_room (cl_writer c)); [|done]. injection Hstep as <-.
  pose proof (Hwf t eq_refl) as [Ht Et]. set (a := encode (from_proxy_target t)).
  assert (0 < length a <= 259)%nat as Hal.
  { unfold a. rewrite encode_length by done. destruct (from_proxy_target t); cbn in Ht; lia. }
  split; cbn [cl_next cl_opening cl_streams cl_writer opening_peers]; rewrite ?app_nil_r; try done.
  - eapply Winv_push; [exact HW | |].
    + split; [done|]. split; [by apply sid_of_u32; lia|]. cbn [f_data]. fold a. lia.
    + intros st HR. replace (L ++ [mk_peer t true [] false false])
        with (<[length L := mk_peer t true [] false false]> (L ++ [fresh t]))
        by (by rewrite insert_app_r_alt, Nat.sub_diag by lia).
      apply (Rep_psh st _ _ (fresh t)); try done.
      * by rewrite lookup_app_r, Nat.sub_diag by lia.
      * fold a. intros E. rewrite E in Hal. cbn in Hal. lia.
  - by rewrite Hn, !length_app.
  - rewrite imap_app, Hst. cbn. by rewrite Nat.add_0_r.
  - apply Forall_app. split; [done|]. by constructor.
Qed.

Lemma streams_insert L k p p' (f : nat → Peer → StreamTx) :
  L !! k = Some p → f k p' = f k p → imap f (<[k := p']> L) = imap f L.
Proof.
  intros Hk E. pose proof (lookup_lt_Some _ _ _ Hk). apply list_eq. intros j. rewrite !list_lookup_imap.
  destruct (decide (j = k)) as [->|]; [|by rewrite list_lookup_insert_ne].
  rewrite list_lookup_insert_eq, Hk by done. cbn. by rewrite E.
Qed.

Lemma Cinv_write out0 c L o k d c' :
  Cinv out0 c L o → Z.of_nat (length L) + 2 < 2 ^ 32 → client_step c (OpWrite k d) = Some (Ok tt, c') →
  ∃ p ps, L !! k = Some p ∧ concat ps = d ∧ Cinv out0 c' (<[k := add_pieces p ps]> L) o.
Proof.
  intros [HW Hn Ho Hst Hp Hwf] HL Hstep. pose proof payload_max_value as HM. cbn [client_step] in Hstep.
  rewrite Hst, list_lookup_imap in Hstep. destruct (L !! k) as [p|] eqn:Hk; [|done].
  cbn [fmap option_fmap option_map] in Hstep. unfold poll_write in Hstep.
  destruct (write_pieces _ _ _) as [[[]|e|] w] eqn:Ew; [|done..]. injection Hstep as <-.
  pose proof (lookup_lt_Some _ _ _ Hk) as Hlt. pose proof (Forall_lookup_1 _ _ _ _ Hp Hk) as (Ha & Hfe & Htw & Hne).
  exists p, (chunks MAX_PAYLOAD d). split; [done|]. split; [apply chunks_concat; lia|].
  assert (d = [] ∨ p_fin p = false) as Hd.
  { destruct d as [|x d]; [by left|]. right. destruct (p_fin p) eqn:E; [|done].
    unfold chunks in Ew. cbn [length chunks_fuel write_pieces] in Ew. by cbn in Ew. }
  destruct Hd as [->|Hfin].
  { injection Ew as <-. change (chunks MAX_PAYLOAD []) with (@nil (list Z)).
    assert (add_pieces p [] = p) as -> by (unfold add_pieces; rewrite app_nil_r; by destruct p).
    by rewrite list_insert_id. }
  split; cbn [with_writer cl_next cl_opening cl_streams cl_writer]; rewrite ?length_app, ?length_insert; try done.
  - rewrite <- insert_app_l by done.
    eapply Winv_pieces; [exact HW | exact Ew | by rewrite lookup_app_l | auto | lia | apply chunks_Forall; lia].
  - by rewrite Hn, length_app.
  - rewrite Hst. symmetry. by eapply streams_insert.
  - apply Forall_insert; [done|]. cbn. split; [done|]. split; [done|]. split; [done|].
    apply Forall_app. split; [done|]. eapply Forall_impl; [apply (chunks_Forall MAX_PAYLOAD d); lia|].
    cbn. intros x Hx ->. cbn in Hx. lia.
Qed.

Lemma Cinv_shutdown out0 c L o k c' :
  Cinv out0 c L o → Z.of_nat (length L) + 2 < 2 ^ 32 → client_step c (OpShutdown k) = Some (Ok tt, c') →
  ∃ p e, L !! k = Some p ∧ Cinv out0 c' (<[k := mk_peer (p_target p) (p_addr p) (p_pieces p) true e]> L) o.
Proof.
  intros [HW Hn Ho Hst Hp Hwf] HL Hstep. cbn [client_step] in Hstep.
  rewrite Hst, list_lookup_imap in Hstep. destruct (L !! k) as [p|] eqn:Hk; [|done].
  cbn [fmap option_fmap option_map] in Hstep. unfold send_fin in Hstep. cbn [at_fin at_sid] in Hstep.
  pose proof (lookup_lt_Some _ _ _ Hk) as Hlt. pose proof (Forall_lookup_1 _ _ _ _ Hp Hk) as (Ha & Hfe & Htw & Hne).
  exists p. destruct (p_fin p) eqn:Hfin; injection Hstep as <-.
  { exists (p_ended p). split; [done|].
    assert (mk_peer (p_target p) (p_addr p) (p_pieces p) true (p_ended p) = p) as -> by (rewrite <- Hfin; by destruct p).
    rewrite (list_insert_id L) by done. split; cbn [cl_next cl_opening cl_streams cl_writer]; try done.
    apply list_insert_id. rewrite list_lookup_imap, Hk. cbn. by rewrite Hfin. }
  exists (w_open (cl_writer c) && has_room (cl_writer c)). split; [done|]. unfold try_send.
  split; cbn [cl_next cl_opening cl_streams cl_writer]; rewrite ?length_app, ?length_insert; try done.
  - rewrite <- insert_app_l by done. destruct (w_open (cl_writer c) && has_room (cl_writer c)); cbn [default from_option id].
    + eapply Winv_push; [exact HW | |].
      * split; [done|]. split; [apply sid_of_u32; lia | done].
      * intros st HR. apply Rep_fin; [done | by rewrite lookup_app_l | auto].
    + destruct HW as [? ? ? ? ? (st & Hpr & HR)]. split; try done. exists st. split; [done|].
      apply (Rep_same st _ k p); [done | by rewrite lookup_app_l | unfold p_msgs; cbn; by rewrite Hfe | cbn; by rewrite Hfe].
  - by rewrite Hn, length_app.
  - apply list_eq. intros j. rewrite list_lookup_imap. destruct (decide (j = k)) as [->|Hj].
    + rewrite !list_lookup_insert_eq by (rewrite ?length_imap; done). done.
    + rewrite !list_lookup_insert_ne, list_lookup_imap by done. done.
  - by apply Forall_insert.
Qed.

Lemma Cinv_step out0 c L o op c' :
  Cinv out0 c L o → op_wf op → Z.of_nat (length L) + 2 < 2 ^ 32 → client_step c op = Some (Ok tt, c') →
  ∃ L' o', Cinv out0 c' L' o' ∧ abs L' o' = spec_step (abs L o) op ∧ (length L' <= S (length L))%nat.
Proof.
  intros HC Hop HL Hstep. destruct op as [t| |k d|k| |f].
  - destruct (Cinv_syn _ _ _ _ _ _ HC Hop HL Hstep) as [-> HC']. exists L, (Some t). split; [done|]. split; [done | lia].
  - destruct (Cinv_addr _ _ _ _ _ HC HL Hstep) as (t & -> & HC'). eexists _, None. split; [exact HC'|].
    unfold abs. rewrite map_app, length_app. split; [done | cbn; lia].
  - destruct (Cinv_write _ _ _ _ _ _ _ HC HL Hstep) as (p & ps & Hk & <- & HC'). eexists _, o. split; [exact HC'|].
    rewrite length_insert. split; [|lia]. unfold abs, spec_step. cbn [fst snd]. f_equal.
    apply (map_alter_insert _ _ L k p); [done|]. cbn. by rewrite concat_app.
  - destruct (Cinv_shutdown _ _ _ _ _ _ HC HL Hstep) as (p & e & Hk & HC'). eexists _, o. split; [exact HC'|].
    rewrite length_insert. split; [|lia]. unfold abs, spec_step. f_equal.
    rewrite (map_alter_insert _ id L k p) by done. rewrite list_alter_id; [done|]. done.
  - injection Hstep as <-. exists L, o. split; [|split; [done | lia]].
    destruct HC. split; try done. by apply Winv_turn.
  - cbn [client_step] in Hstep. destruct (handle_frame _ _ _); [|done..]. injection Hstep as <-.
    exists L, o. split; [|split; [done | lia]]. by destruct HC; split.
Qed.

Lemma Cinv_run out0 ops : ∀ c L o c',
  Cinv out0 c L o → Forall op_wf ops → Z.of_nat (length L + length ops) + 2 < 2 ^ 32 → client_run ops c = Some c' →
  ∃ L' o', Cinv out0 c' L' o' ∧ abs L' o' = spec_run ops (abs L o).
Proof.
  induction ops as [|op ops IH]; intros c L o c' HC Hops HL Hrun.
  - injection Hrun as <-. by exists L, o.
  - apply Forall_cons in Hops as [Hop Hops]. cbn [client_run] in Hrun.
    destruct (client_step c op) as [[[[]|e|] c1]|] eqn:E; [|done..].
    destruct (Cinv_step _ _ _ _ _ _ HC Hop ltac:(cbn in HL; lia) E) as (L1 & o1 & HC1 & Habs & Hl).
    destruct (IH c1 L1 o1 c' HC1 Hops ltac:(cbn in HL; lia) Hrun) as (L2 & o2 & HC2 & E2).
    exists L2, o2. split; [done|]. unfold spec_run in *. cbn [fold_left]. by rewrite <- Habs.
Qed.

(** ** A session end to end *)

(** Reading a routed stream [n] bytes at a time until it ends. *)
Fixpoint read_all (n fuel : nat) (prefix : option (list Z)) (r : StreamRx) : list Z :=
  match fuel with
  | O => []
  | S fuel =>
    match prefixed_read n prefix r with
    | Some ([], _) | None => []
    | Some (b, (prefix, r)) => b ++ read_all n fuel prefix r
    end
  end.

(** What the server makes of a channel once the session is over and no sender
    is left: the target it routes to and the bytes it forwards. *)
Definition served (n fuel : nat) (ch : Z * list StreamMsg) : option (ProxyTarget * list Z) :=
  match accept_stream 3 [] (mk_stream_rx ch.2 true None false) with
  | Routed t lo r => Some (t, read_all n fuel (Some lo) r)
  | _ => None
  end.

(** One read takes a non-empty part of a non-empty message and keeps the
    rest. *)
Lemma give_split n (x : Z) l :
  (0 < n)%nat → ∃ y b lo,
    take n (x :: l) = y :: b ∧ (if (n <? length (x :: l))%nat then Some (drop n (x :: l)) else None) = lo
    ∧ lo ≠ Some [] ∧ x :: l = (y :: b) ++ default [] lo.
Proof.
  intros Hn. destruct (take n (x :: l)) as [|y b] eqn:Eb; [destruct n; [lia | done]|].
  exists y, b, (if (n <? length (x :: l))%nat then Some (drop n (x :: l)) else None).
  split; [done|]. split; [done|]. rewrite <- Eb.
  destruct (Nat.ltb_spec n (length (x :: l))) as [Hlt|Hge]; cbn [default from_option id]; split.
  - intros [= E]. apply (f_equal length) in E. rewrite length_drop in E. cbn in E, Hlt. lia.
  - by rewrite take_drop.
  - done.
  - by rewrite take_ge, app_nil_r by lia.
Qed.

Lemma read_all_end n ps e fuel r d :
  (0 < n)%nat → ar_eof r = false → ar_closed r = true → ar_queue r = map MData ps ++ (if e : bool then [MEof] else []) →
  Forall (λ p, p ≠ []) ps → ar_leftover r ≠ Some [] → default [] (ar_leftover r) ++ concat ps = d →
  (length d < fuel)%nat → read_all n fuel None r = d.
Proof.
  intros Hn. revert ps r d. induction fuel as [|fuel IH]; intros ps r d He Hc Hq Hps Hl Hd Hf; [lia|].
  destruct r as [q cl lo eof]. cbn [ar_eof ar_closed ar_queue ar_leftover] in *. subst q cl eof.
  cbn [read_all]. unfold prefixed_read, poll_read, give. cbn [ar_eof ar_closed ar_queue ar_leftover].
  destruct lo as [l|]; cbn [default from_option id] in Hd.
  - destruct l as [|x l]; [done|]. destruct (give_split n x l Hn) as (y & b & lo & -> & -> & Hlo & E).
    rewrite E, <- app_assoc in Hd. rewrite <- Hd in Hf |- *. rewrite length_app in Hf. cbn [length] in Hf.
    rewrite (IH ps _ (default [] lo ++ concat ps)); cbn [ar_eof ar_closed ar_queue ar_leftover]; try done. lia.
  - destruct ps as [|p ps]; cbn [map app].
    + cbn in Hd. subst d. by destruct e.
    + apply Forall_cons in Hps as [Hp Hps]. destruct p as [|x l]; [done|].
      destruct (give_split n x l Hn) as (y & b & lo & -> & -> & Hlo & E).
      cbn [concat] in Hd. rewrite E, <- app_assoc in Hd. cbn [app] in Hd. rewrite <- Hd in Hf |- *. cbn [length] in Hf.
      rewrite length_app in Hf. cbn [app]. f_equal. f_equal.
      apply (IH ps _ (default [] lo ++ concat ps)); cbn [ar_eof ar_closed ar_queue ar_leftover]; try done.
      rewrite !length_app in *. lia.
Qed.

(** A stream whose address arrived is routed to its target with its data, in
    two turns of [accept_stream]. *)
Definition peer_ok (p : Peer) : Prop :=
  p_addr p = true ∧ target_addr_wf (p_target p) ∧ Forall (λ d, d ≠ []) (p_pieces p).

Lemma accept_peer p turns :
  peer_ok p → ∃ r, accept_stream (S (S turns)) [] (mk_stream_rx (p_msgs p) true None false) = Routed (p_target p) [] r
    ∧ ∀ n fuel, (0 < n)%nat → (length (concat (p_pieces p)) < fuel)%nat → read_all n fuel (Some []) r = concat (p_pieces p).
Proof.
  intros (Ha & [Ht Et] & Hps). unfold p_msgs. rewrite Ha. cbn [app].
  pose proof (decode_encode_app _ [] Ht) as Hdec. rewrite app_nil_r in Hdec.
  assert (0 < length (encode (from_proxy_target (p_target p))) <= 259)%nat as Hal.
  { rewrite encode_length by done. destruct (from_proxy_target (p_target p)); cbn in Ht; lia. }
  generalize dependent (encode (from_proxy_target (p_target p))). intros a Hdec Hal.
  assert (∀ r, accept_stream (S turns) ([] ++ a) r = Routed (p_target p) [] r) as Hacc.
  { intros r. cbn [accept_stream app]. by rewrite Hdec, Et, drop_all. }
  assert (∀ r, accept_stream (S (S turns)) [] r = match poll_read 512 r with
    | None => Waiting [] r | Some ([], _) => Dropped | Some (b, r) => accept_stream (S turns) ([] ++ b) r end) as H3 by done.
  rewrite H3. clear H3.
  destruct a as [|x a]; [cbn in Hal; lia|].
  unfold poll_read, give. cbn [ar_eof ar_closed ar_queue ar_leftover].
  rewrite (take_ge (x :: a)) by lia. rewrite (proj2 (Nat.ltb_ge _ _)) by lia. rewrite Hacc.
  eexists. split; [done|]. intros n fuel Hn Hf. destruct fuel as [|fuel]; [lia|].
  apply (read_all_end n (p_pieces p) (p_ended p) (S fuel)); done.
Qed.

Lemma served_peer n fuel k p :
  (0 < n)%nat → peer_ok p → (length (concat (p_pieces p)) < fuel)%nat →
  served n fuel (k, p_msgs p) = Some (p_target p, concat (p_pieces p)).
Proof.
  intros Hn Hp Hf. unfold served. cbn [snd]. destruct (accept_peer p 1 Hp) as (r & -> & Hr). by rewrite Hr.
Qed.

Lemma process_settings ver :
  Z.of_nat (length (settings ver)) < 65536 → ∀ s,
  s_wr s = [] → Winv (s_out s) (push_frame (spawn_writer s) (mk_frame CMD_SETTINGS 0 (settings ver))) [].
Proof.
  intros Hl s Hs. split; cbn [push_frame spawn_writer w_open w_sock w_taken w_sent app]; try done.
  - lia.
  - cbn. by rewrite app_nil_r.
  - constructor; [|done]. split; [done|]. split; [done|]. done.
  - eexists. split; [reflexivity|]. split; [done|]. split; [done|]. intros k. cbn. apply lookup_empty.
Qed.

Section EndToEnd.
Context `{SH : Sha2}.

Lemma yields_read_auth pw i :
  yields (read_auth pw) (auth_token pw ++ be_bytes 2 0 ++ i) (Ok tt) i [].
Proof.
  unfold read_auth, auth_token. apply yields_read; [apply sha256_ok|]. apply yields_read; [done|].
  change (Z.to_nat (be_value (be_bytes 2 0))) with 0%nat. cbn [Nat.ltb Nat.leb]. apply yields_ret_bind.
  rewrite bool_decide_true by done. apply yields_ret.
Qed.

Lemma kc_read_auth pw : keeps_clean (read_auth pw).
Proof. unfold read_auth. keeps_clean. Qed.

(** What a server reads from a client that went well: it accepts the password
    and handles a session whose channels are the client's streams. *)
Lemma session_peers pw ver ops c0 s0 c s :
  client_connect pw ver (stream_of []) = (Ok c0, s0) → Z.of_nat (length (settings ver)) < 65536 →
  Forall op_wf ops → Z.of_nat (length ops) + 2 < 2 ^ 32 →
  client_run ops c0 = Some c → cl_opening c = None → w_taken (cl_writer c) = length (w_sent (cl_writer c)) →
  avail s = s_out (w_sock (cl_writer c)) → clean s → s_wr s = [] →
  ∃ s1 st L, read_auth pw s = (Ok tt, s1) ∧ (length (avail s1) <= length (avail s))%nat
    ∧ (∀ fuel, (2 * length (avail s1) < fuel)%nat → read_loop fuel true [] session_new s1 = (Ok tt, st))
    ∧ se_chans st = imap (λ k p, (sid_of k, p_msgs p)) L ∧ Forall peer_ok L
    ∧ map (λ p, (p_target p, concat (p_pieces p))) L = (spec_run ops ([], None)).1.
Proof.
  intros Hconn Hset Hops HL Hrun Hop Hdr Hav Hc Hwr.
  assert (Cinv (auth_token pw ++ be_bytes 2 0) c0 [] None) as HC0.
  { injection Hconn as <- _. split; try done. exact (process_settings ver Hset (mk_sock [] (auth_token pw ++ be_bytes 2 0) [] false) eq_refl). }
  destruct (Cinv_run _ ops c0 [] None c HC0 Hops ltac:(cbn; lia) Hrun) as (L & o & HC & Habs).
  destruct HC as [HW _ Ho _ Hp _]. rewrite Hop in Ho. destruct o; [done|]. cbn [opening_peers] in HW.
  rewrite app_nil_r in HW. destruct HW as [_ _ _ Hout Hwf (st & Hpr & HR)].
  rewrite Hdr, take_ge, <- app_assoc in Hout by lia. rewrite Hout in Hav.
  destruct (yields_read_auth pw (concat (map frame_encode (w_sent (cl_writer c)))) s Hav Hwr) as (s1 & E1 & Ha1 & _).
  pose proof (kc_read_auth pw _ Hc) as Hc1. rewrite E1 in Hc1. cbn [snd] in Hc1.
  exists s1, st, L. split; [done|]. split; [rewrite Ha1, Hav, !length_app; lia|]. split; [|split; [|split]].
  - intros fuel Hf. rewrite read_loop_frames by (done || (cbn [length]; lia)).
    unfold loop_spec. cbn [app]. rewrite Ha1.
    pose proof (frames_of_encode (w_sent (cl_writer c)) [] Hwf) as Hfr. rewrite app_nil_r in Hfr.
    rewrite Hfr. change (frames_of []) with (@nil Frame, @nil Z). cbv iota beta. by rewrite app_nil_r, Hpr.
  - by destruct HR as (_ & -> & _).
  - eapply Forall_impl; [exact Hp|]. intros p (H1 & _ & H2 & H3). by split.
  - unfold abs in Habs. change (map _ []) with (@nil (ProxyTarget * list Z)) in Habs. by rewrite <- Habs.
Qed.

(** C9: a session carries its streams without mixing them.  Take any run of a
    client on a fresh connection in which every step goes through: streams
    opened, written and shut down in any order and interleaving, with the
    turns of the writing task anywhere between.  Once the queue is empty, a
    server with the same password that gets those bytes, in any segments,
    accepts the session, handles it to a clean end, and routes exactly the
    opened streams, in order, each to the target its client asked for and with
    exactly the bytes written to it. *)
Theorem anytls_multiplexing pw ver ops c0 s0 c segs n fuel rfuel :
  client_connect pw ver (stream_of []) = (Ok c0, s0) → Z.of_nat (length (settings ver)) < 65536 →
  Forall op_wf ops → Z.of_nat (length ops) + 2 < 2 ^ 32 →
  client_run ops c0 = Some c → cl_opening c = None → w_taken (cl_writer c) = length (w_sent (cl_writer c)) →
  concat segs = s_out (w_sock (cl_writer c)) → (0 < n)%nat → (2 * length (concat segs) < fuel)%nat →
  Forall (λ x, length x.2 < rfuel)%nat (spec_run ops ([], None)).1 →
  ∃ s1 st, read_auth pw (stream_of segs) = (Ok tt, s1)
    ∧ read_loop fuel true [] session_new s1 = (Ok tt, st)
    ∧ map (served n rfuel) (se_chans st) = map Some (spec_run ops ([], None)).1.
Proof.
  intros Hconn Hset Hops HL Hrun Hop Hdr Hsegs Hn Hf Hrf.
  destruct (session_peers pw ver ops c0 s0 c (stream_of segs)) as (s1 & st & L & E1 & Hle & E2 & Hch & Hp & Habs); try done.
  { by rewrite avail_stream_of. }
  { apply clean_stream_of. }
  exists s1, st. split; [done|]. rewrite avail_stream_of in Hle. split; [apply E2; lia|].
  rewrite Hch. rewrite <- Habs in Hrf |- *. apply list_eq. intros j.
  rewrite !list_lookup_fmap, list_lookup_imap. destruct (L !! j) as [p|] eqn:Hj; [|done]. cbn.
  rewrite served_peer; [done|done|exact (Forall_lookup_1 _ _ _ _ Hp Hj)|].
  rewrite Forall_map in Hrf. exact (Forall_lookup_1 _ _ _ _ Hrf Hj).
Qed.

(** ** The queue *)

(** Clients that any steps lead to, failing steps included. *)
Inductive client_reach (pw ver : str) : Client → Prop :=
| reach_connect s c s' : client_connect pw ver s = (Ok c, s') → client_reach pw ver c
| reach_step c op r c' :
    client_reach pw ver c → op_wf op → client_step c op = Some (r, c') → client_reach pw ver c'.

Definition queue_ok (w : Writer) : Prop :=
  (w_taken w <= length (w_sent w) <= w_taken w + FRAME_BUF)%nat
  ∧ Forall (λ f, Z.of_nat (length (f_data f)) < 65536) (w_sent w).

Lemma queue_push w f :
  queue_ok w → has_room w = true → Z.of_nat (length (f_data f)) < 65536 → queue_ok (push_frame w f).
Proof.
  unfold queue_ok, has_room. intros [Hq Hd] Hr%Nat.ltb_lt Hf. cbn [push_frame w_taken w_sent].
  rewrite length_app. cbn [length]. split; [lia|]. apply Forall_app. split; [done|]. by constructor.
Qed.

Lemma queue_send w f r :
  queue_ok w → Z.of_nat (length (f_data f)) < 65536 → send w f = Some (Ok r) → queue_ok r.
Proof.
  unfold send. intros Hq Hf H. destruct (w_open w); [|done]. cbn [negb] in H.
  destruct (has_room w) eqn:E; [|done]. injection H as <-. by apply queue_push.
Qed.

Lemma queue_pieces t pieces : ∀ w,
  queue_ok w → Forall (λ d, 0 < length d <= MAX_PAYLOAD)%nat pieces → queue_ok (write_pieces t pieces w).2.
Proof.
  pose proof payload_max_value. induction pieces as [|d pieces IH]; intros w Hq Hps; cbn [write_pieces]; [done|].
  apply Forall_cons in Hps as [Hd Hps]. unfold send_psh, try_send. destruct (at_fin t); [done|].
  destruct (w_open w && has_room w) eqn:E; cbn [ok_or]; [|done].
  apply andb_true_iff in E as [_ E]. apply IH; [|done]. apply queue_push; [done..|]. cbn [f_data]. lia.
Qed.

Lemma queue_turn w : queue_ok w → queue_ok (writer_turn w).
Proof.
  intros [Hq Hd]. unfold writer_turn. destruct (w_open w); [|done]. cbn [negb].
  destruct (w_sent w !! w_taken w) as [f|] eqn:E; [|done]. pose proof (lookup_lt_Some _ _ _ E).
  destruct (write_all (frame_encode f) (w_sock w)) as [[]s]; (split; [cbn; lia | done]).
Qed.

(** Addresses being sent come from well-formed targets. *)
Definition opening_ok (c : Client) : Prop := ∀ sid t, cl_opening c = Some (sid, t) → target_addr_wf t.

Lemma queue_step c op r c' :
  queue_ok (cl_writer c) → opening_ok c → op_wf op → client_step c op = Some (r, c') →
  queue_ok (cl_writer c') ∧ opening_ok c'.
Proof.
  intros Hq Ho Hop Hstep. pose proof payload_max_value as HM. destruct op as [t| |k d|k| |f]; cbn [client_step] in Hstep.
  - destruct (cl_opening c) eqn:E; [done|]. cbn [cl_writer] in Hstep.
    destruct (send _ _) as [[w|e|]|] eqn:Es; simplify_eq; cbn [cl_writer];
      (split; [|unfold opening_ok; cbn; naive_solver]); [|done..]. by eapply queue_send in Es.
  - destruct (cl_opening c) as [[sid t]|] eqn:E; [|done]. destruct (Ho _ _ E) as [Ht _].
    destruct (send _ _) as [[w|e|]|] eqn:Es; simplify_eq; cbn [cl_writer];
      (split; [|unfold opening_ok; cbn; naive_solver]); [|done..].
    eapply queue_send in Es; [done | done|]. cbn [f_data].
    rewrite encode_length by done. destruct (from_proxy_target t); cbn in Ht; lia.
  - destruct (cl_streams c !! k) as [t|]; [|done]. unfold poll_write in Hstep.
    pose proof (queue_pieces t (chunks MAX_PAYLOAD d) (cl_writer c) Hq ltac:(apply chunks_Forall; lia)) as Hq'.
    destruct (write_pieces _ _ _) as [[[]|e|] w]; simplify_eq; done.
  - destruct (cl_streams c !! k) as [t|]; [|done]. unfold send_fin, try_send in Hstep.
    destruct (at_fin t); simplify_eq; [done|]. cbn [cl_writer]. split; [|done].
    destruct (w_open (cl_writer c) && has_room (cl_writer c)) eqn:E; cbn [default from_option id]; [|done].
    apply andb_true_iff in E as [_ E]. by apply queue_push.
  - simplify_eq. split; [by apply queue_turn | done].
  - destruct (handle_frame _ _ _); simplify_eq; done.
Qed.

(** C33: bounds of a client, whatever its tasks do and whatever fails: the
    queue of frames never holds more than 256, the writing task never takes
    more than was sent, and no frame's data is longer than its two-byte length
    field can say, so the lengths on the wire are exact. *)
Theorem client_bounds pw ver c :
  Z.of_nat (length (settings ver)) < 65536 → client_reach pw ver c →
  (length (w_sent (cl_writer c)) - w_taken (cl_writer c) <= FRAME_BUF)%nat
  ∧ (w_taken (cl_writer c) <= length (w_sent (cl_writer c)))%nat
  ∧ Forall (λ f, u16! (Z.of_nat (length (f_data f))) = Z.of_nat (length (f_data f))) (w_sent (cl_writer c)).
Proof.
  intros Hv HR. assert (queue_ok (cl_writer c) ∧ opening_ok c) as [[Hq Hd] _].
  { induction HR as [s c s' H | c op r c' HR [IH1 IH2] Hop Hs]; [|by eapply queue_step].
    unfold client_connect in H. destruct (io_bind _ _ _) as [[?|?|] s1]; simplify_eq.
    split; [|done]. split; [cbn; unfold FRAME_BUF; lia|]. by constructor. }
  split; [lia|]. split; [lia|]. eapply Forall_impl; [exact Hd|]. intros f Hf. cbn in Hf.
  apply wrap_small. unfold in_range. lia.
Qed.
End EndToEnd.

(** ** Witnesses *)

Definition ex_ops : list client_op :=
  [OpSyn (Domain (bs "a.b") 443); OpTurn; OpAddr; OpSyn (Tcp (sa_new (V4 [10; 0; 0; 1]) 53)); OpWrite 0 [1; 2];
   OpAddr; OpTurn; OpWrite 1 [9]; OpWrite 0 [3]; OpShutdown 0; OpTurn; OpTurn; OpTurn; OpWrite 1 [8; 7];
   OpTurn; OpTurn; OpTurn; OpTurn; OpTurn; OpTurn; OpTurn].

Definition ex_start : Client :=
  match @client_connect pad_sha2 (bs "pw") (bs "1") (stream_of []) with
  | (Ok c, _) => c
  | _ => mk_client 0 None [] (spawn_writer (stream_of [])) session_new
  end.
Definition ex_end : Client := default ex_start (client_run ex_ops ex_start).
Definition ex_bytes : list Z := s_out (w_sock (cl_writer ex_end)).

(** Two interleaved streams. *)
Lemma anytls_multiplexing_witness :
  ∃ s1 st, @read_auth pad_sha2 (bs "pw") (stream_of [take 40 ex_bytes; drop 40 ex_bytes]) = (Ok tt, s1)
    ∧ read_loop 500 true [] session_new s1 = (Ok tt, st)
    ∧ map (served 2 10) (se_chans st)
      = [Some (Domain (bs "a.b") 443, [1; 2; 3]); Some (Tcp (sa_new (V4 [10; 0; 0; 1]) 53), [9; 8; 7])].
Proof.
  apply (@anytls_multiplexing pad_sha2 (bs "pw") (bs "1") ex_ops ex_start
    (mk_sock [] (@auth_token pad_sha2 (bs "pw") ++ be_bytes 2 0) [] false) ex_end
    [take 40 ex_bytes; drop 40 ex_bytes] 2 500 10); try (vm_compute; reflexivity); by_decide.
Defined.

Lemma client_bounds_witness :
  (length (w_sent (cl_writer ex_start)) - w_taken (cl_writer ex_start) <= FRAME_BUF)%nat.
Proof.
  refine (proj1 (@client_bounds pad_sha2 (bs "pw") (bs "1") ex_start _ _)); [vm_compute; reflexivity|].
  apply (@reach_connect pad_sha2 (bs "pw") (bs "1") (stream_of []) ex_start
    (mk_sock [] (@auth_token pad_sha2 (bs "pw") ++ be_bytes 2 0) [] false)). vm_compute. reflexivity.
Defined.

Lemma read_loop_refines_witness :
  read_loop 100 true [] session_new (stream_of [[4; 0; 0]; [0; 0; 0; 0; 1; 0; 0; 0; 5; 0; 0; 9]])
  = (Err (mk_ioerr UnexpectedEof (bs "anytls: truncated frame")), mk_session {[5 := 0%nat]} [(5, [])] true).
Proof.
  rewrite (read_loop_refines true session_new); [vm_compute; reflexivity | apply clean_stream_of | vm_compute; lia].
Defined.

(** A shutdown that finds the queue full is lost: the stream counts as ended
    and the peer is not told. *)
Lemma fin_lost t w :
  at_fin t = false → has_room w = false → send_fin t w = (mk_stream_tx (at_sid t) true, w).
Proof. intros Ht Hr. unfold send_fin, try_send. by rewrite Ht, Hr, andb_false_r. Qed.
