(* ===== verification/Hysteria2.v ===== *)
(** * Hysteria2: the codec and the streams

    [omni-proto/src/proto/hysteria2/]: variable-length integers, the TCP
    request and response, UDP messages, the authentication of both ends,
    the accept of a TCP stream, the client's connection and its streams, and
    the two ends of UDP; Quic has the task of a connection.
    QUIC streams are the streams of [Io]; QUIC, HTTP/3 and sockets themselves
    are libraries. *)

From S2P Require Import Prelude Text Net Io.

Definition FRAME_TYPE_TCP_REQUEST : Z := 0x401.
Definition MAX_ADDRESS_LENGTH : Z := 2048.
Definition MAX_MESSAGE_LENGTH : Z := 2048.
Definition MAX_PADDING_LENGTH : Z := 4096.
Definition AUTH_STATUS_OK : Z := 233.

(** ** Integers of variable length ([mod.rs]) *)

(** The loop of [write_varint]: bytes from the last, as few as the value has.
    Eight rounds are enough for a [u64]. *)
Fixpoint varint_bytes (fuel : nat) (v : Z) (acc : list Z) : list Z :=
  match fuel with
  | O => acc
  | S fuel =>
    let acc := Z.land v 255 :: acc in
    let v := Z.shiftr v 8 in
    if v =? 0 then acc else varint_bytes fuel v acc
  end.

Definition write_varint (buf : list Z) (v : Z) : list Z :=
  match varint_bytes 8 v [] with
  | [] => buf
  | first :: tail =>
    buf ++ (match length (first :: tail) with
            | 1%nat => first
            | 2%nat => Z.lor (Z.land first 63) 64
            | 4%nat => Z.lor (Z.land first 63) 128
            | _ => Z.lor (Z.land first 63) 192
            end) :: tail
  end.
Definition encode_varint (v : Z) : list Z := write_varint [] v.

Definition unexpected_eof (m : str) : ioerr := mk_ioerr UnexpectedEof m.

Definition read_varint (data : list Z) : res ioerr (Z * nat) :=
  match data with
  | [] => Err (unexpected_eof (bs "hysteria2: empty varint"))
  | first :: rest =>
    let prefix := Z.shiftr first 6 in
    let len := if prefix =? 0 then 1%nat else if prefix =? 1 then 2%nat else if prefix =? 2 then 4%nat else 8%nat in
    if (length data <? len)%nat then Err (unexpected_eof (bs "hysteria2: truncated varint")) else
    Ok (fold_left (λ value b, Z.lor (Z.shiftl value 8) b) (take (len - 1) rest) (Z.land first 63), len)
  end.

(** ** Requests and responses *)

Definition encode_tcp_request (addr : str) : list Z :=
  let out := write_varint [] FRAME_TYPE_TCP_REQUEST in
  let out := write_varint out (Z.of_nat (length addr)) in
  write_varint (out ++ addr) 0.

(** [{:#x}]. *)
Definition show_0x (v : Z) : str := bs "0x" ++ show_hex v.

Definition decode_tcp_request (buf : list Z) : res ioerr (str * list Z) :=
  let? (frame_type, n) := read_varint buf in
  if negb (frame_type =? FRAME_TYPE_TCP_REQUEST)
  then Err (invalid_data (bs "hysteria2: unexpected frame type " ++ show_0x frame_type)) else
  let? rest := slice_from buf n in
  let? (addr_len, n1) := read_varint rest in
  if (addr_len =? 0) || (MAX_ADDRESS_LENGTH <? addr_len)
  then Err (invalid_data (bs "hysteria2: invalid address length")) else
  let? rest := slice_from rest n1 in
  if Z.of_nat (length rest) <? addr_len then Err (unexpected_eof (bs "hysteria2: truncated address")) else
  let? a := slice rest 0 (Z.to_nat addr_len) in
  let? rest := slice_from rest (Z.to_nat addr_len) in
  let? (pad_len, n2) := read_varint rest in
  if MAX_PADDING_LENGTH <? pad_len then Err (invalid_data (bs "hysteria2: padding too large")) else
  let? rest := slice_from rest n2 in
  if Z.of_nat (length rest) <? pad_len then Err (unexpected_eof (bs "hysteria2: truncated padding")) else
  let? rest := slice_from rest (Z.to_nat pad_len) in
  Ok (from_utf8_lossy a, rest).

Definition encode_tcp_response (ok : bool) (msg : str) : list Z :=
  write_varint (write_varint [if ok then 0 else 1] (Z.of_nat (length msg)) ++ msg) 0.

Definition decode_tcp_response (buf : list Z) : res ioerr (bool * str) :=
  match buf with
  | [] => Err (unexpected_eof (bs "hysteria2: empty response"))
  | b :: _ =>
    let? t := slice_from buf 1 in
    let? (msg_len, n) := read_varint t in
    if MAX_MESSAGE_LENGTH <? msg_len then Err (invalid_data (bs "hysteria2: message too long")) else
    let? rest := slice_from buf (1 + n) in
    if Z.of_nat (length rest) <? msg_len then Err (unexpected_eof (bs "hysteria2: truncated message")) else
    let? m := slice rest 0 (Z.to_nat msg_len) in
    let? rest := slice_from rest (Z.to_nat msg_len) in
    let? (pad_len, _) := read_varint rest in
    if MAX_PADDING_LENGTH <? pad_len then Err (invalid_data (bs "hysteria2: padding too large")) else
    Ok (b =? 0, from_utf8_lossy m)
  end.

(** ** UDP messages *)

Record UdpMessage := mk_udp {
  um_session_id : Z;
  um_packet_id : Z;
  um_frag_id : Z;
  um_frag_count : Z;
  um_addr : str;
  um_data : list Z
}.

Definition udp_serialize (m : UdpMessage) : list Z :=
  write_varint (be_bytes 4 (um_session_id m) ++ be_bytes 2 (um_packet_id m) ++ [um_frag_id m; um_frag_count m])
    (Z.of_nat (length (um_addr m))) ++ um_addr m ++ um_data m.

Definition udp_parse (buf : list Z) : res ioerr UdpMessage :=
  if (length buf <? 8)%nat then Err (invalid_data (bs "hysteria2: short udp message")) else
  let? sid := slice buf 0 4 in
  let? pid := slice buf 4 6 in
  let? frag_id := idx buf 6 in
  let? frag_count := idx buf 7 in
  let? t := slice_from buf 8 in
  let? (addr_len, n) := read_varint t in
  if (addr_len =? 0) || (MAX_MESSAGE_LENGTH <? addr_len)
  then Err (invalid_data (bs "hysteria2: invalid udp address length")) else
  let? rest := slice_from buf (8 + n) in
  if Z.of_nat (length rest) <? addr_len then Err (unexpected_eof (bs "hysteria2: truncated udp address")) else
  let? a := slice rest 0 (Z.to_nat addr_len) in
  let? d := slice_from rest (Z.to_nat addr_len) in
  Ok (mk_udp (be_value sid) (be_value pid) frag_id frag_count (from_utf8_lossy a) d).

(** ** The server ([inbound.rs]) *)

(** A request of the HTTP/3 connection: method, host, path and the value of
    [Hysteria-Auth] when it is there and is text. *)
Record H3Request := mk_h3 { h3_method : str; h3_host : option str; h3_path : str; h3_auth : option str }.

(** The loop until [authenticated]: the requests left over, or nothing when
    the connection ends first.  The password of the configuration is not
    consulted. *)
Fixpoint authenticate (reqs : list H3Request) : option (list H3Request) :=
  match reqs with
  | [] => None
  | r :: reqs =>
    let is_auth := bool_decide (h3_method r = bs "POST") && bool_decide (h3_host r = Some (bs "hysteria"))
                   && bool_decide (h3_path r = bs "/auth") in
    if negb is_auth then authenticate reqs
    else if bool_decide (default [] (h3_auth r) = []) then authenticate reqs
    else Some reqs
  end.

Definition HEAD_SIZE : nat := Z.to_nat 4096.

(** The task of a stream up to its target; [head] is what was read.  [None]:
    the task ends. *)
Fixpoint accept_stream (fuel : nat) (head : list Z) (s : sock) : option str * sock :=
  match fuel with
  | O => (None, s)
  | S fuel =>
    match read (HEAD_SIZE - length head) s with
    | (Ok [], s) | (Err _, s) | (Panic, s) => (None, s)
    | (Ok b, s) =>
      let head := head ++ b in
      match decode_tcp_request head with
      | Panic => (None, s)
      | Err e =>
        if bool_decide (ekind e = UnexpectedEof) then
          if (HEAD_SIZE <=? length head)%nat
          then (None, (write_all (encode_tcp_response false (bs "addr too long")) s).2)
          else accept_stream fuel head s
        else (None, (write_all (encode_tcp_response false (emsg e)) s).2)
      | Ok (addr, rest) =>
        match (do! _ := (match rest with [] => ret tt | _ => write_all rest end) in
               write_all (encode_tcp_response true [])) s with
        | (Ok _, s) => (Some addr, s)
        | (_, s) => (None, s)
        end
      end
    end
  end.

(** The dispatcher of datagrams.  [bind n] says whether the n-th socket can be
    made, [resolve] is the name lookup. *)
Record UdpState := mk_udp_state { us_sessions : gmap Z nat; us_bound : nat; us_attempts : nat }.

Section Dispatcher.
Context (bind : nat → bool) (resolve : str → option SocketAddr).

(** The next state and the datagram sent, with the socket it is sent from; the
    sockets are bound to [0.0.0.0]. *)
Definition udp_dispatch (st : UdpState) (dgram : list Z) : UdpState * option (nat * SocketAddr * list Z) :=
  match udp_parse dgram with
  | Ok msg =>
    if negb (um_frag_count msg =? 1) then (st, None) else
    let send sock := resolve (um_addr msg) ≫= λ target,
      inet_send (um_data msg) target ≫= λ x, Some (sock, x.2, x.1) in
    match us_sessions st !! um_session_id msg with
    | Some sock => (st, send sock)
    | None =>
      if bind (us_attempts st) then
        (mk_udp_state (<[um_session_id msg := us_bound st]> (us_sessions st)) (S (us_bound st)) (S (us_attempts st)),
         send (us_bound st))
      else (mk_udp_state (us_sessions st) (us_bound st) (S (us_attempts st)), None)
    end
  | _ => (st, None)
  end.

(** What the task of a session's socket sends back. *)
Definition udp_reply (sid : Z) (from : SocketAddr) (data : list Z) : list Z :=
  udp_serialize (mk_udp sid 0 0 1 (show_sockaddr from) data).
End Dispatcher.

(** ** The client ([outbound.rs]) *)

Definition hy_err (m : str) : ioerr := other (bs "hysteria2: " ++ m).

(** [h3_auth] after the answer of the server. *)
Definition check_auth (status : Z) : res ioerr unit :=
  if negb (status =? 233)
  then Err (hy_err (bs "authentication failed (status " ++ show_dec status ++ bs ")"))
  else Ok tt.

(** The headers [h3_auth] sets; [padding] is a random text. *)
Definition auth_headers (password padding : str) : list (str * str) :=
  [(bs "Hysteria-Auth", password); (bs "Hysteria-CC-RX", bs "0"); (bs "Hysteria-Padding", padding)].
Definition auth_request (password : str) : H3Request :=
  mk_h3 (bs "POST") (Some (bs "hysteria")) (bs "/auth") (Some password).

(** The answer of the server to the request that ends its loop. *)
Definition auth_response : Z * list (str * str) :=
  (AUTH_STATUS_OK, [(bs "Hysteria-UDP", bs "false"); (bs "Hysteria-CC-RX", bs "0")]).

Section Connect.
(** The h3 crate: a client on the connection, which texts are header values,
    and the status that answers a request; quinn: a connection to an address
    under a server name, whose certificate is checked unless [insecure]. *)
Context (h3_client : res str unit) (header_values : list (str * str) → res str unit).
Context (send_request : H3Request → list (str * str) → res str Z).
Context (quic_connect : bool → str → SocketAddr → res str unit).

Definition h3_authenticate (password padding : str) : res ioerr unit :=
  let? _ := map_err (λ e, hy_err (bs "h3 handshake failed: " ++ e)) h3_client in
  let? _ := map_err (λ e, hy_err (bs "bad auth request: " ++ e)) (header_values (auth_headers password padding)) in
  let? status := map_err hy_err (send_request (auth_request password) (auth_headers password padding)) in
  check_auth status.

(** [Hysteria2Conn::connect]. *)
Definition hysteria2_connect (password : str) (insecure : bool) (sni : option str) (addr : SocketAddr) (padding : str)
    : res ioerr unit :=
  let? _ := map_err hy_err (quic_connect insecure (default (bs "hysteria") sni) addr) in
  h3_authenticate password padding.
End Connect.

Definition addr_str (host : str) (port : Z) : str :=
  if bool_decide (58 ∈ host) && negb (starts_with [91] host)
  then [91] ++ host ++ bs "]:" ++ show_dec port
  else host ++ [58] ++ show_dec port.

(** [open_tcp] on a new stream. *)
Definition open_tcp (host : str) (port : Z) : io unit :=
  do! _ := write_all (encode_tcp_request (addr_str host port)) in
  do! resp_buf := read 512 in
  do! _ <- (match resp_buf with [] => Err (hy_err (bs "closed")) | _ => Ok tt end) in
  do! (ok, msg) <- decode_tcp_response resp_buf in
  if negb ok then fail (hy_err (bs "server refused TCP: " ++ msg)) else ret tt.

(** [connect_udp]: the sending task numbers its packets, the receiving task
    keeps the messages of its session. *)
Fixpoint udp_send_all (sid counter : Z) (pkts : list UdpPacket) : list (list Z) :=
  match pkts with
  | [] => []
  | p :: pkts =>
    let counter := wadd 16 counter 1 in
    udp_serialize (mk_udp sid counter 0 1 (show_target (pkt_target p)) (data p)) :: udp_send_all sid counter pkts
  end.

Definition udp_receive (resolve : str → option SocketAddr) (sid : Z) (dgram : list Z) : option UdpPacket :=
  match udp_parse dgram with
  | Ok msg =>
    if negb (um_session_id msg =? sid) then None
    else if negb (um_frag_count msg =? 1) then None
    else Some (mk_packet (resolve (um_addr msg)) (Domain [] 0) (um_data msg))
  | _ => None
  end.

(** ** Integers of variable length *)

Lemma fold_be l : ∀ acc, bytes l → 0 ≤ acc →
  fold_left (λ value b, Z.lor (Z.shiftl value 8) b) l acc = acc * 256 ^ Z.of_nat (length l) + be_value l.
Proof.
  induction l as [|b l IH]; intros acc Hl Ha; cbn [fold_left length].
  - change (be_value []) with 0. change (256 ^ Z.of_nat 0) with 1. lia.
  - apply bytes_cons in Hl as [Hb Hl]. unfold in_range in Hb.
    rewrite Z.lor_comm, lor_shiftl_add by lia. rewrite IH by (done || lia).
    rewrite be_value_cons, Nat2Z.inj_succ, Z.pow_succ_r by lia. change (2 ^ 8) with 256. ring.
Qed.

(** The bytes of the loop: as many as the value needs, at least one. *)
Lemma varint_bytes_spec fuel : ∀ v acc, (0 < fuel)%nat → 0 ≤ v < 256 ^ Z.of_nat fuel →
  ∃ n, (0 < n <= fuel)%nat ∧ varint_bytes fuel v acc = be_bytes n v ++ acc ∧ v < 256 ^ Z.of_nat n
    ∧ (n = 1%nat ∨ 256 ^ Z.of_nat (n - 1) ≤ v).
Proof.
  induction fuel as [|fuel IH]; intros v acc Hf Hv; [lia|]. cbn [varint_bytes].
  assert (Z.land v 255 = wrap 8 v) as -> by (apply (Z.land_ones v 8); lia).
  assert (Z.shiftr v 8 = v / 256) as Es by (apply (Z.shiftr_div_pow2 v 8); lia).
  destruct (Z.eqb_spec (Z.shiftr v 8) 0) as [E|E].
  - exists 1%nat. rewrite Es in E. apply Z.div_small_iff in E; [|lia].
    split; [lia|]. split; [reflexivity|]. split; [change (256 ^ Z.of_nat 1) with 256; lia | by left].
  - destruct fuel as [|fuel]; [exfalso; change (256 ^ Z.of_nat 1) with 256 in Hv; rewrite Es, Z.div_small in E; lia|].
    destruct (IH (Z.shiftr v 8) (wrap 8 v :: acc)) as (n & Hn & Hb & Hlt & Hge); [lia | |].
    { rewrite Es. rewrite Nat2Z.inj_succ, Z.pow_succ_r in Hv by lia. split; [apply Z.div_pos; lia|].
      apply Z.div_lt_upper_bound; lia. }
    exists (S n). split; [lia|]. split; [|split].
    + rewrite Hb. unfold be_bytes. cbn [le_bytes]. change (le_bytes (S n) v) with (wrap 8 v :: le_bytes n (Z.shiftr v 8)).
      cbn [rev]. by rewrite <- app_assoc.
    + rewrite Es in Hlt. rewrite Nat2Z.inj_succ, Z.pow_succ_r by lia.
      pose proof (Z.div_mod v 256). pose proof (Z.mod_pos_bound v 256). nia.
    + right. replace (S n - 1)%nat with n by lia. rewrite Es in Hge, E.
      destruct Hge as [->|Hge]; [change (256 ^ Z.of_nat 1) with 256|].
      * pose proof (Z.div_pos v 256). pose proof (Z.mul_div_le v 256). lia.
      * replace (Z.of_nat n) with (Z.succ (Z.of_nat (n - 1))) by lia. rewrite Z.pow_succ_r by lia.
        pose proof (Z.mul_div_le v 256). lia.
Qed.

Definition varint_len (p : Z) : nat :=
  let prefix := Z.shiftr p 6 in
  if prefix =? 0 then 1 else if prefix =? 1 then 2 else if prefix =? 2 then 4 else 8.

Lemma read_varint_ok p tail rest :
  is_u8 p → bytes tail → S (length tail) = varint_len p →
  read_varint (p :: tail ++ rest) = Ok (be_value (Z.land p 63 :: tail), S (length tail)).
Proof.
  intros Hp Ht Hl. unfold read_varint. fold (varint_len p). rewrite <- Hl.
  rewrite (proj2 (Nat.ltb_ge _ _)) by (cbn [length]; rewrite length_app; lia).
  replace (S (length tail) - 1)%nat with (length tail) by lia. rewrite take_app_length.
  rewrite fold_be, be_value_cons by (done || (apply Z.land_nonneg; right; lia)). done.
Qed.

Lemma read_varint_short p tail :
  (S (length tail) < varint_len p)%nat →
  read_varint (p :: tail) = Err (unexpected_eof (bs "hysteria2: truncated varint")).
Proof.
  intros Hl. unfold read_varint. fold (varint_len p). by rewrite (proj2 (Nat.ltb_lt _ _)).
Qed.

(** The first byte with the tag of a length of [n] bytes. *)
Definition tagged (n : nat) (first : Z) : Z :=
  match n with
  | 1%nat => first
  | 2%nat => Z.lor (Z.land first 63) 64
  | 4%nat => Z.lor (Z.land first 63) 128
  | _ => Z.lor (Z.land first 63) 192
  end.

Definition tag_ok (t : Z) (len : nat) (first : Z) : Prop :=
  is_u8 (Z.lor (Z.land first 63) t) ∧ Z.land (Z.lor (Z.land first 63) t) 63 = first mod 64
  ∧ varint_len (Z.lor (Z.land first 63) t) = len.
#[local] Instance tag_ok_dec t len first : Decision (tag_ok t len first).
Proof. unfold tag_ok. apply _. Defined.

Lemma tag_ok_all t len first :
  forallb (λ f, bool_decide (tag_ok t len f)) (seqZ 0 256) = true → is_u8 first → tag_ok t len first.
Proof. intros H Hf. pose proof (u8_forall _ first H Hf) as Hx. by apply bool_decide_eq_true in Hx. Qed.

Lemma tagged_facts n first :
  is_u8 first →
  is_u8 (tagged n first) ∧ Z.land (tagged n first) 63 = first mod 64
  ∧ varint_len (tagged n first) = match n with
      | 1%nat => varint_len first | 2%nat => 2%nat | 4%nat => 4%nat | _ => 8%nat end.
Proof.
  intros Hf.
  assert (tag_ok 64 2 first) by (apply tag_ok_all; [vm_compute; reflexivity | done]).
  assert (tag_ok 128 4 first) by (apply tag_ok_all; [vm_compute; reflexivity | done]).
  assert (tag_ok 192 8 first) by (apply tag_ok_all; [vm_compute; reflexivity | done]).
  assert (Z.land first 63 = first mod 64) as Hm by (apply (Z.land_ones first 6); lia).
  do 5 (destruct n as [|n]; [by cbn [tagged]|]). by cbn [tagged].
Qed.

Lemma varint_len_small first : is_u8 first → varint_len first = 1%nat ↔ first < 64.
Proof.
  intros Hf. unfold varint_len. rewrite Z.shiftr_div_pow2 by lia. change (2 ^ 6) with 64. unfold in_range in Hf.
  destruct (Z.eqb_spec (first / 64) 0) as [E|E].
  - apply Z.div_small_iff in E; [|lia]. split; [lia | done].
  - split; [repeat case_match; done|]. intros H. rewrite Z.div_small in E by lia. lia.
Qed.

(** What is written for a value: its bytes, the first one tagged. *)
Lemma encode_varint_shape v :
  is_u64 v → ∃ n first tail,
    encode_varint v = tagged n first :: tail ∧ n = S (length tail) ∧ (n <= 8)%nat ∧ is_u8 first ∧ bytes tail
    ∧ v = first * 256 ^ Z.of_nat (length tail) + be_value tail ∧ (n = 1%nat ∨ 0 < first).
Proof.
  intros Hv. destruct (varint_bytes_spec 8 v [] ltac:(lia) Hv) as (n & Hn & Hb & Hlt & Hge).
  pose proof (length_be_bytes n v) as Hl. pose proof (be_bytes_bytes n v) as Hbs.
  pose proof (be_value_bytes n v) as Hval. rewrite Z.mod_small in Hval by (unfold in_range in Hv; lia).
  rewrite app_nil_r in Hb. destruct (be_bytes n v) as [|first tail]; [cbn in Hl; lia|].
  apply bytes_cons in Hbs as [Hf Ht]. exists n, first, tail. cbn [length] in Hl.
  rewrite be_value_cons in Hval. pose proof (be_value_range tail Ht) as Hr.
  split; [|split; [done|split; [lia|split; [done|split; [done|split; [done|]]]]]].
  - unfold encode_varint, write_varint. rewrite Hb. cbn [app]. rewrite <- Hl. cbn [length]. done.
  - destruct Hge as [->|Hge]; [by left|]. right. replace (n - 1)%nat with (length tail) in Hge by lia.
    unfold in_range in Hf. nia.
Qed.

(** Which numbers of bytes and first bytes belong to the values that fit. *)
Lemma varint_ranges k first r v :
  (k < 8)%nat → 0 ≤ first < 256 → 0 ≤ r < 256 ^ Z.of_nat k → v = first * 256 ^ Z.of_nat k + r → (k = 0%nat ∨ 0 < first) →
  (v < 64 ∨ 256 ≤ v < 2 ^ 14 ∨ 2 ^ 24 ≤ v < 2 ^ 30 ∨ 2 ^ 56 ≤ v < 2 ^ 62)
  ↔ first < 64 ∧ (k = 0%nat ∨ k = 1%nat ∨ k = 3%nat ∨ k = 7%nat).
Proof.
  intros Hk Hf Hr Ev Hpos.
  do 8 (destruct k as [|k]; [match type of Ev with context [256 ^ ?e] => let x := eval vm_compute in (256 ^ e) in change (256 ^ e) with x in * end; lia|]).
  lia.
Qed.

(** C34: which values survive the variable-length integers.  A [u64] written by
    [write_varint] is read back as itself exactly when it is below 64, or has
    two bytes and is below 2^14, or four and is below 2^30, or eight and is
    below 2^62.  Every other value is truncated, misread or refused: among
    them the lengths from 64 to 255. *)
Theorem varint_exact v :
  is_u64 v →
  read_varint (encode_varint v) = Ok (v, length (encode_varint v))
  ↔ (v < 64 ∨ 256 ≤ v < 2 ^ 14 ∨ 2 ^ 24 ≤ v < 2 ^ 30 ∨ 2 ^ 56 ≤ v < 2 ^ 62).
Proof.
  intros Hv. destruct (encode_varint_shape v Hv) as (n & first & tail & -> & Hn & Hn8 & Hf & Ht & Ev & Hpos).
  destruct (tagged_facts n first Hf) as (Hp & Hm & Hlen). pose proof (be_value_range tail Ht) as Hr.
  pose proof (Z.div_mod first 64 ltac:(lia)) as Hdm. pose proof (Z.mod_pos_bound first 64 ltac:(lia)) as Hmb.
  assert (0 ≤ first / 64) as Hq by (apply Z.div_pos; unfold in_range in Hf; lia).
  destruct (decide (S (length tail) = varint_len (tagged n first))) as [E|E].
  - rewrite <- (app_nil_r tail) at 1. rewrite read_varint_ok by done. rewrite Hm, be_value_cons.
    cbn [length].
    assert ((first mod 64 * 256 ^ Z.of_nat (length tail) + be_value tail = v) ↔ first < 64) as Heq.
    { pose proof (Z.pow_pos_nonneg 256 (Z.of_nat (length tail)) ltac:(lia) ltac:(lia)). split; [nia|].
      intros. rewrite Z.mod_small by (unfold in_range in Hf; lia). lia. }
    rewrite (varint_ranges (length tail) first (be_value tail) v) by (done || lia).
    transitivity (first < 64); [split; [intros [= H]; by apply Heq | intros H; do 2 f_equal; by apply Heq]|].
    split; [|by intros []]. intros H. split; [done|]. rewrite Hlen, Hn in E. clear -E.
    generalize dependent (length tail). intros k E. do 8 (destruct k as [|k]; [cbn in E; lia|]). cbn in E. lia.
  - rewrite (varint_ranges (length tail) first (be_value tail) v) by (done || lia).
    assert (S (length tail) < varint_len (tagged n first))%nat as Hlt.
    { rewrite Hlen in E |- *. rewrite Hn in E |- *. clear -E Hn8 Hn.
      assert (1 <= varint_len first)%nat by (unfold varint_len; repeat case_match; lia).
      rewrite Hn in Hn8. clear Hn. generalize dependent (length tail). intros k E Hk.
      do 8 (destruct k as [|k]; [cbn in *; lia|]). lia. }
    rewrite read_varint_short by done. split; [done|]. intros [H1 H2]. exfalso. rewrite Hlen, Hn in E. apply E.
    destruct H2 as [H2|[H2|[H2|H2]]]; rewrite H2; cbn; try done. symmetry. by apply varint_len_small.
Qed.

Lemma varint_exact_witness :
  read_varint (encode_varint 1025) = Ok (1025, 2%nat) ∧ read_varint (encode_varint 64) ≠ Ok (64, 1%nat).
Proof.
  split.
  - apply (varint_exact 1025); [by_decide | lia].
  - intros H. apply (varint_exact 64) in H; [lia | by_decide].
Defined.

(** ** Requests *)

Definition fits (v : Z) : Prop := v < 64 ∨ 256 ≤ v < 2 ^ 14 ∨ 2 ^ 24 ≤ v < 2 ^ 30 ∨ 2 ^ 56 ≤ v < 2 ^ 62.

Lemma encode_varint_fits v :
  is_u64 v → fits v → ∃ p tail, encode_varint v = p :: tail ∧ is_u8 p ∧ bytes tail
    ∧ S (length tail) = varint_len p ∧ be_value (Z.land p 63 :: tail) = v.
Proof.
  intros Hv Hfit. destruct (encode_varint_shape v Hv) as (n & first & tail & -> & Hn & Hn8 & Hf & Ht & Ev & Hpos).
  destruct (tagged_facts n first Hf) as (Hp & Hm & Hlen). pose proof (be_value_range tail Ht) as Hr.
  unfold fits in Hfit. rewrite (varint_ranges (length tail) first (be_value tail) v) in Hfit by (done || lia).
  destruct Hfit as [H64 Hk]. exists (tagged n first), tail. split; [done|]. split; [done|]. split; [done|]. split.
  - rewrite Hlen, Hn. destruct Hk as [Hk|[Hk|[Hk|Hk]]]; rewrite Hk; cbn; try done. symmetry. by apply varint_len_small.
  - rewrite Hm, be_value_cons, Z.mod_small by (unfold in_range in Hf; lia). done.
Qed.

Lemma read_varint_encode v rest :
  is_u64 v → fits v → read_varint (encode_varint v ++ rest) = Ok (v, length (encode_varint v)).
Proof.
  intros Hv Hf. destruct (encode_varint_fits v Hv Hf) as (p & tail & -> & Hp & Ht & Hl & Ev).
  cbn [app]. by rewrite read_varint_ok, Ev.
Qed.

Lemma read_varint_prefix v p q :
  is_u64 v → fits v → encode_varint v = p ++ q → q ≠ [] → ∃ m, read_varint p = Err (unexpected_eof m).
Proof.
  intros Hv Hf E Hq. destruct (encode_varint_fits v Hv Hf) as (x & tail & E' & Hp & Ht & Hl & Ev).
  rewrite E' in E. destruct p as [|y p]; [by eexists|]. injection E as <- ->. eexists.
  apply read_varint_short. rewrite <- Hl, length_app. destruct q; [done|]. cbn [length]. lia.
Qed.

Lemma write_varint_app buf v : write_varint buf v = buf ++ encode_varint v.
Proof. unfold encode_varint, write_varint. destruct (varint_bytes 8 v []); [by rewrite app_nil_r | done]. Qed.

Lemma encode_request_shape a :
  encode_tcp_request a = [0x44; 0x01] ++ encode_varint (Z.of_nat (length a)) ++ a ++ [0].
Proof.
  unfold encode_tcp_request. rewrite !write_varint_app. change (encode_varint FRAME_TYPE_TCP_REQUEST) with [0x44; 0x01].
  change (encode_varint 0) with [0]. by rewrite <- !app_assoc.
Qed.

(** The part of the decoder after the frame type. *)
Lemma decode_request_head rest :
  decode_tcp_request ([0x44; 0x01] ++ rest) =
  (let? (addr_len, n1) := read_varint rest in
   if (addr_len =? 0) || (MAX_ADDRESS_LENGTH <? addr_len)
   then Err (invalid_data (bs "hysteria2: invalid address length")) else
   let? rest := slice_from rest n1 in
   if Z.of_nat (length rest) <? addr_len then Err (unexpected_eof (bs "hysteria2: truncated address")) else
   let? a := slice rest 0 (Z.to_nat addr_len) in
   let? rest := slice_from rest (Z.to_nat addr_len) in
   let? (pad_len, n2) := read_varint rest in
   if MAX_PADDING_LENGTH <? pad_len then Err (invalid_data (bs "hysteria2: padding too large")) else
   let? rest := slice_from rest n2 in
   if Z.of_nat (length rest) <? pad_len then Err (unexpected_eof (bs "hysteria2: truncated padding")) else
   let? rest := slice_from rest (Z.to_nat pad_len) in
   Ok (from_utf8_lossy a, rest)).
Proof.
  unfold decode_tcp_request. change [0x44; 0x01] with (encode_varint FRAME_TYPE_TCP_REQUEST) at 1.
  rewrite read_varint_encode by (by_decide || (unfold fits; cbn; lia)).
  rewrite Z.eqb_refl. cbn [negb]. by rewrite slice_from_app.
Qed.

Lemma request_roundtrip a rest :
  utf8_valid a = true → (1 <= length a)%nat → Z.of_nat (length a) ≤ 2048 → fits (Z.of_nat (length a)) →
  decode_tcp_request (encode_tcp_request a ++ rest) = Ok (a, rest).
Proof.
  intros Hu H1 H2 Hf. rewrite encode_request_shape, <- !app_assoc, decode_request_head.
  rewrite read_varint_encode by (done || (unfold in_range; lia)).
  rewrite (proj2 (Z.eqb_neq _ 0)), (proj2 (Z.ltb_ge _ _)) by (unfold MAX_ADDRESS_LENGTH; lia). cbn [orb].
  rewrite slice_from_app by done. rewrite (proj2 (Z.ltb_ge _ _)) by (rewrite length_app; lia). rewrite Nat2Z.id.
  rewrite slice_ok by (rewrite ?length_app; lia). rewrite drop_0, Nat.sub_0_r, take_app_length.
  rewrite slice_from_app by done. cbn [app].
  change (0 :: rest) with (encode_varint 0 ++ rest). rewrite read_varint_encode by (by_decide || (unfold fits; lia)).
  change (MAX_PADDING_LENGTH <? 0) with false. cbv iota. rewrite slice_from_app by done.
  rewrite (proj2 (Z.ltb_ge _ _)) by lia.
  rewrite (slice_from_ok rest (Z.to_nat 0)) by lia. by rewrite from_utf8_lossy_valid.
Qed.

(** A request that has not arrived in full is asked for again. *)
Lemma request_prefix a p q :
  (1 <= length a)%nat → Z.of_nat (length a) ≤ 2048 → fits (Z.of_nat (length a)) →
  encode_tcp_request a = p ++ q → q ≠ [] → ∃ m, decode_tcp_request p = Err (unexpected_eof m).
Proof.
  intros H1 H2 Hf E Hq. rewrite encode_request_shape in E.
  apply cut_cases in E as [(k & Ek & Hk & _)|(p1 & -> & E)].
  { change [0x44; 0x01] with (encode_varint FRAME_TYPE_TCP_REQUEST) in Ek.
    destruct (read_varint_prefix FRAME_TYPE_TCP_REQUEST p k) as [m Hm];
      [by_decide | unfold fits, FRAME_TYPE_TCP_REQUEST; lia | done | done |]. exists m. unfold decode_tcp_request. by rewrite Hm. }
  rewrite decode_request_head.
  apply cut_cases in E as [(k & Ek & Hk & _)|(p2 & -> & E)].
  { destruct (read_varint_prefix (Z.of_nat (length a)) p1 k) as [m Hm]; [unfold in_range; lia | done | done | done |].
    exists m. by rewrite Hm. }
  rewrite read_varint_encode by (done || (unfold in_range; lia)).
  rewrite (proj2 (Z.eqb_neq _ 0)), (proj2 (Z.ltb_ge _ _)) by (unfold MAX_ADDRESS_LENGTH; lia). cbn [orb].
  rewrite slice_from_app by done.
  apply cut_cases in E as [(k & Ek & Hk & _)|(p3 & -> & E)].
  { eexists. rewrite (proj2 (Z.ltb_lt _ _)); [done|]. rewrite Ek, length_app. destruct k; [done|]. cbn [length]. lia. }
  destruct p3 as [|x p3]; [|apply (f_equal length) in E; destruct q; [done|]; rewrite length_app in E; cbn [length] in E; lia].
  rewrite app_nil_r, Z.ltb_irrefl, Nat2Z.id. rewrite slice_ok, slice_from_ok by lia.
  rewrite drop_all. by eexists.
Qed.

Lemma length_request a :
  (1 <= length a)%nat → Z.of_nat (length a) ≤ 2048 → fits (Z.of_nat (length a)) →
  Z.of_nat (length (encode_tcp_request a)) < Z.of_nat HEAD_SIZE.
Proof.
  intros H1 H2 Hf. rewrite encode_request_shape, !length_app. cbn [length].
  destruct (encode_varint_fits (Z.of_nat (length a))) as (p & tail & -> & Hp & Ht & Hl & _); [unfold in_range; lia | done |].
  assert (varint_len p <= 8)%nat by (unfold varint_len; repeat case_match; lia). cbn [length]. rewrite Hl.
  assert (4095 < Z.of_nat HEAD_SIZE) by (unfold HEAD_SIZE; rewrite Z2Nat.id; lia). lia.
Qed.

(** The accept of a stream on which a request arrives, cut anywhere. *)
Lemma accept_stream_spec a payload fuel : ∀ head later s,
  utf8_valid a = true → (1 <= length a)%nat → Z.of_nat (length a) ≤ 2048 → fits (Z.of_nat (length a)) →
  clean s → s_wr s = [] →
  later ≠ [] → encode_tcp_request a = head ++ later → avail s = later ++ payload → (length later <= fuel)%nat →
  ∃ early s', accept_stream fuel head s = (Some a, s')
    ∧ payload = early ++ avail s' ∧ s_out s' = s_out s ++ early ++ encode_tcp_response true [].
Proof.
  induction fuel as [|fuel IH]; intros head later s Hu H1 H2 Hf Hc Hw Hn E Ha Hl; [destruct later; [done | cbn in Hl; lia]|].
  pose proof (length_request a H1 H2 Hf) as Hsz. rewrite E, length_app in Hsz.
  cbn [accept_stream].
  destruct (read_clean (HEAD_SIZE - length head) s ltac:(lia) Hc) as (b & s1 & Hr & Hc1 & Ha1 & Hb & Ho).
  pose proof (read_wr (HEAD_SIZE - length head) s) as Hw1. rewrite Hr in Hw1 |- *. cbn [snd] in Hw1. rewrite Hw in Hw1.
  destruct b as [|x b]; [rewrite Hb in Ha by done; symmetry in Ha; by apply app_eq_nil in Ha as [-> _]|].
  rewrite Ha in Ha1. apply cut_cases in Ha1 as [(later' & -> & Hn' & Ha')|(early & Eb & Ep)].
  - rewrite app_assoc in E. destruct (request_prefix a _ _ H1 H2 Hf E Hn') as [m ->].
    cbn [ekind unexpected_eof]. rewrite bool_decide_eq_true_2 by done.
    rewrite !length_app in Hsz. rewrite length_app in Hl. cbn [length] in Hl.
    rewrite (proj2 (Nat.leb_gt _ _)) by (rewrite length_app; lia). rewrite <- Ho.
    apply (IH (head ++ x :: b) later'); try done. lia.
  - rewrite Eb, app_assoc, <- E, request_roundtrip by done. destruct early as [|y early].
    + rewrite app_nil_r in Eb. exists []. eexists. unfold io_bind, ret. rewrite write_all_sure by done.
      split; [done|]. split; [done|]. cbn [s_out]. by rewrite Ho.
    + exists (y :: early). eexists. unfold io_bind. rewrite write_all_sure by done. rewrite write_all_sure by done.
      split; [done|]. split; [done|]. cbn [s_out]. by rewrite Ho, <- app_assoc.
Qed.

(** When the request has its segments for itself, nothing is written back. *)
Lemma accept_stream_alone a segs2 sh : ∀ segs1 fuel head later out,
  utf8_valid a = true → (1 <= length a)%nat → Z.of_nat (length a) ≤ 2048 → fits (Z.of_nat (length a)) →
  later ≠ [] → encode_tcp_request a = head ++ later → concat segs1 = later → (length later <= fuel)%nat →
  ∃ segs', concat segs' = concat segs2
    ∧ accept_stream fuel head (mk_sock (map Data (segs1 ++ segs2)) out [] sh)
      = (Some a, mk_sock (map Data segs') (out ++ encode_tcp_response true []) [] sh).
Proof.
  induction segs1 as [|[|x b] segs1 IH]; intros fuel head later out Hu H1 H2 Hf Hn E Hs Hl; [by subst later| |].
  { destruct (IH fuel head later out) as (segs' & Hc & Ha); try done. exists segs'. split; [done|].
    by rewrite <- Ha; destruct fuel. }
  pose proof (length_request a H1 H2 Hf) as Hsz. rewrite E, length_app, <- Hs in Hsz.
  cbn [concat] in Hs, Hsz. rewrite length_app in Hsz.
  destruct fuel as [|fuel]; [rewrite <- Hs in Hl; cbn in Hl; lia|].
  cbn [app map accept_stream]. unfold read. cbn [s_in s_out s_wr s_shut read_ev].
  rewrite take_ge by lia. rewrite (proj2 (Nat.ltb_ge _ _)) by lia. cbv zeta.
  destruct (concat segs1) as [|y l] eqn:Ec.
  - rewrite app_nil_r in Hs. rewrite Hs, <- E. rewrite <- (app_nil_r (encode_tcp_request a)), request_roundtrip by done.
    unfold io_bind, ret. rewrite write_all_sure by done. cbn [s_in s_out s_shut].
    exists (segs1 ++ segs2). by rewrite concat_app, Ec.
  - rewrite <- Hs, app_assoc in E. destruct (request_prefix a _ _ H1 H2 Hf E) as [m ->]; [done|].
    cbn [ekind unexpected_eof]. rewrite bool_decide_eq_true_2 by done.
    rewrite (proj2 (Nat.leb_gt _ _)) by (rewrite length_app; lia).
    apply (IH fuel (head ++ x :: b) (y :: l)); try done. rewrite <- Hs, length_app in Hl. cbn [length] in *. lia.
Qed.

Lemma read_varint_inv data v n :
  read_varint data = Ok (v, n) → ∃ p t, data = p :: t ∧ n = varint_len p ∧ (n <= length data)%nat.
Proof.
  unfold read_varint. destruct data as [|p t]; [done|]. fold (varint_len p).
  destruct (Nat.ltb_spec (length (p :: t)) (varint_len p)); [done|]. intros [= _ <-]. by exists p, t.
Qed.

Lemma varint_len_pos p : (1 <= varint_len p)%nat.
Proof. unfold varint_len. repeat case_match; lia. Qed.

(** Where the address of an accepted request was found. *)
Lemma decode_request_place buf x r :
  decode_tcp_request ([0x44; 0x01] ++ buf) = Ok (x, r) →
  ∃ p t n k, buf = p :: t ∧ x = from_utf8_lossy (take n (drop (varint_len p) buf))
    ∧ (varint_len p + n + S k + length r = length buf)%nat.
Proof.
  rewrite decode_request_head. intros H.
  destruct (read_varint buf) as [[al n1]| |] eqn:E1; [|done..].
  apply read_varint_inv in E1 as (p & t & -> & -> & Hn1).
  destruct ((al =? 0) || (MAX_ADDRESS_LENGTH <? al)); [done|].
  rewrite slice_from_ok in H by done. case_match; [done|]. norm.
  rewrite slice_ok, slice_from_ok in H by lia.
  destruct (read_varint (drop _ _)) as [[pl n2]| |] eqn:E2; [|done..].
  apply read_varint_inv in E2 as (p2 & t2 & Ed & -> & Hn2). pose proof (varint_len_pos p2).
  case_match; [done|]. rewrite slice_from_ok in H by done. case_match; [done|]. norm.
  rewrite slice_from_ok in H by lia. injection H as <- <-.
  exists p, t, (Z.to_nat al), (varint_len p2 - 1 + Z.to_nat pl)%nat. split; [done|]. split; [by rewrite drop_0, Nat.sub_0_r|].
  rewrite !length_drop in *. cbn [length] in *. lia.
Qed.

(** The address that was asked for is not found when its length has one byte
    and two bits of tag. *)
Lemma request_lost a rest :
  Forall (λ b, 0 ≤ b < 128) a → 64 ≤ Z.of_nat (length a) < 256 →
  decode_tcp_request (encode_tcp_request a ++ rest) ≠ Ok (a, rest).
Proof.
  intros Ha Hl H. rewrite encode_request_shape, <- !app_assoc in H.
  assert (encode_varint (Z.of_nat (length a)) = [Z.of_nat (length a)]) as E.
  { unfold encode_varint, write_varint. cbn [varint_bytes].
    rewrite (Z.land_ones _ 8), Z.mod_small, (Z.shiftr_div_pow2 _ 8), Z.div_small by lia. done. }
  rewrite E in H. apply decode_request_place in H as (p & t & n & k & Eb & Ex & Hlen).
  cbn [app] in Eb. injection Eb as <- <-. cbn [app] in Ex, Hlen.
  assert (2 <= varint_len (Z.of_nat (length a)))%nat as Hv.
  { pose proof (varint_len_pos (Z.of_nat (length a))). pose proof (varint_len_small (Z.of_nat (length a))) as Hs.
    unfold in_range in Hs. destruct (decide (varint_len (Z.of_nat (length a)) = 1%nat)) as [E1|]; [|lia].
    apply Hs in E1; lia. }
  cbn [length] in Hlen. rewrite !length_app in Hlen. cbn [length] in Hlen.
  destruct (varint_len (Z.of_nat (length a))) as [|m]; [lia|]. cbn [drop] in Ex.
  rewrite drop_app_le, take_app_le in Ex by (rewrite ?length_drop; lia).
  rewrite from_utf8_lossy_valid in Ex by (apply utf8_valid_ascii; by apply Forall_take, Forall_drop).
  apply (f_equal length) in Ex. rewrite length_take, length_drop in Ex. lia.
Qed.

(** C27: what reaches the server of a TCP request.  For an ASCII address of
    1 to 2048 bytes, the server decodes the client's request to that address
    and leaves what follows it exactly when the address has fewer than 64 or
    at least 256 bytes; it finds nothing or another address for the lengths in
    between.  When it does, then however the request and the payload after it
    are cut into segments the task of the stream finds the target, and what it
    has written is the part of the payload that arrived with the request
    ([early], sent back to the client and so lost to the target) and then the
    response. *)
Theorem hysteria2_request a :
  Forall (λ b, 0 ≤ b < 128) a → 1 ≤ Z.of_nat (length a) ≤ 2048 →
  (∀ rest, decode_tcp_request (encode_tcp_request a ++ rest) = Ok (a, rest)
           ↔ Z.of_nat (length a) < 64 ∨ 256 ≤ Z.of_nat (length a))
  ∧ (Z.of_nat (length a) < 64 ∨ 256 ≤ Z.of_nat (length a) →
     ∀ segs payload fuel, concat segs = encode_tcp_request a ++ payload →
     (length (encode_tcp_request a) <= fuel)%nat →
     ∃ early s', accept_stream fuel [] (stream_of segs) = (Some a, s')
       ∧ payload = early ++ avail s' ∧ s_out s' = early ++ encode_tcp_response true []).
Proof.
  intros Ha Hl. pose proof (utf8_valid_ascii a Ha) as Hu.
  assert (Z.of_nat (length a) < 64 ∨ 256 ≤ Z.of_nat (length a) → fits (Z.of_nat (length a))) as Hfit
    by (unfold fits; lia).
  split.
  - intros rest. split; [|intros; apply request_roundtrip; auto; lia]. intros H.
    destruct (decide (64 ≤ Z.of_nat (length a) < 256)) as [Hm|]; [|lia]. by apply request_lost in H.
  - intros Hf segs payload fuel Hs Hfuel.
    apply (accept_stream_spec a payload fuel [] (encode_tcp_request a)); try done; auto; [lia|lia| | |].
    + apply clean_stream_of.
    + rewrite encode_request_shape. done.
    + by rewrite avail_stream_of.
Qed.

Lemma hysteria2_request_witness :
  ∃ early s', accept_stream 100 [] (stream_of [take 5 (encode_tcp_request (bs "example.com:443"));
      drop 5 (encode_tcp_request (bs "example.com:443")) ++ [1; 2]; [3]])
    = (Some (bs "example.com:443"), s')
    ∧ [1; 2; 3] = early ++ avail s' ∧ s_out s' = early ++ encode_tcp_response true [].
Proof.
  apply (hysteria2_request (bs "example.com:443")).
  - repeat constructor; cbn; lia.
  - by_decide.
  - left. by_decide.
  - reflexivity.
  - by_decide.
Defined.

(** ** The client's opening *)

(** Bytes of the target that come in the same read as the response are not
    part of the stream that the client returns. *)
Lemma open_tcp_drops host port early segs :
  (length early <= 509)%nat →
  ∃ s', open_tcp host port (stream_of ((encode_tcp_response true [] ++ early) :: segs)) = (Ok tt, s')
    ∧ avail s' = concat segs ∧ s_out s' = encode_tcp_request (addr_str host port).
Proof.
  intros Hl. unfold open_tcp, io_bind. rewrite write_all_sure by done. cbn [s_in stream_of map].
  change (encode_tcp_response true []) with [0; 0; 0]. cbn [app].
  unfold read. cbn [s_in read_ev]. rewrite (proj2 (Nat.ltb_ge _ _)) by (cbn [length]; lia).
  rewrite take_ge by (cbn [length]; lia).
  assert (∀ r, read_varint (0 :: r) = Ok (0, 1%nat)) as Hz
    by (intros r; apply (read_varint_encode 0 r); [by_decide | unfold fits; lia]).
  assert (decode_tcp_response (0 :: 0 :: 0 :: early) = Ok (true, [])) as E.
  { unfold decode_tcp_response. rewrite slice_from_ok by (cbn [length]; lia). cbn [drop]. rewrite Hz.
    change (MAX_MESSAGE_LENGTH <? 0) with false. cbv iota. rewrite slice_from_ok by (cbn [length]; lia).
    cbn [Nat.add drop]. rewrite (proj2 (Z.ltb_ge _ _)) by lia. change (Z.to_nat 0) with 0%nat.
    rewrite (slice_ok _ 0 0), (slice_from_ok _ 0) by lia. cbn [drop take Nat.sub]. by rewrite Hz. }
  unfold lift. rewrite E. cbn [negb ret]. eexists. split; [done|]. unfold avail. cbn [s_in s_out].
  split; [|done]. apply (avail_stream_of segs).
Qed.

(** ** Authentication *)

Definition is_auth (r : H3Request) : Prop :=
  h3_method r = bs "POST" ∧ h3_host r = Some (bs "hysteria") ∧ h3_path r = bs "/auth".
Definition has_token (r : H3Request) : Prop := ∃ c t, h3_auth r = Some (c :: t).

(** The first authentication request with a token, whatever the token is, ends
    the loop. *)
Lemma authenticate_spec reqs left :
  authenticate reqs = Some left ↔
  ∃ before r, reqs = before ++ r :: left ∧ is_auth r ∧ has_token r ∧ Forall (λ q, ¬ (is_auth q ∧ has_token q)) before.
Proof.
  induction reqs as [|r reqs IH]; cbn [authenticate].
  { split; [done|]. intros (before & r & E & _). by destruct before. }
  assert (is_auth r ↔ bool_decide (h3_method r = bs "POST") && bool_decide (h3_host r = Some (bs "hysteria"))
            && bool_decide (h3_path r = bs "/auth") = true) as Ha.
  { unfold is_auth. rewrite !andb_true_iff, !bool_decide_eq_true. tauto. }
  assert (has_token r ↔ bool_decide (default [] (h3_auth r) = []) = false) as Ht.
  { unfold has_token. rewrite bool_decide_eq_false. destruct (h3_auth r) as [[|c t]|]; cbn; split; try done.
    - by intros (? & ? & ?).
    - intros _. by exists c, t.
    - by intros (? & ? & ?). }
  assert (¬ (is_auth r ∧ has_token r) → authenticate reqs = Some left ↔
    ∃ before q, r :: reqs = before ++ q :: left ∧ is_auth q ∧ has_token q ∧ Forall (λ q, ¬ (is_auth q ∧ has_token q)) before) as Hskip.
  { intros Hn. rewrite IH. split.
    - intros (before & q & -> & H1 & H2 & H3). exists (r :: before), q. split; [done|]. split; [done|]. split; [done|]. by constructor.
    - intros (before & q & E & H1 & H2 & H3). destruct before as [|b before]; [by injection E as -> _; exfalso; apply Hn|].
      injection E as -> ->. inversion H3; subst. by exists before, q. }
  destruct (bool_decide (h3_method r = _) && _ && _); cbn [negb]; [|apply Hskip; rewrite Ha; by intros []].
  destruct (bool_decide (default [] _ = _)); [apply Hskip; rewrite Ht; by intros []|].
  split.
  - intros [= ->]. exists [], r. split; [done|]. split; [by apply Ha|]. split; [by apply Ht | constructor].
  - intros (before & q & E & H1 & H2 & H3). destruct before as [|b before]; [by injection E as _ ->|].
    injection E as -> _. inversion H3 as [|? ? Hb]; subst. exfalso. apply Hb. rewrite Ha, Ht. done.
Qed.

Lemma authenticate_none reqs : Forall (λ r, ¬ (is_auth r ∧ has_token r)) reqs → authenticate reqs = None.
Proof.
  intros H. destruct (authenticate reqs) as [left|] eqn:E; [|done].
  apply authenticate_spec in E as (before & r & -> & H1 & H2 & _). apply Forall_app in H as [_ H].
  apply Forall_cons in H as [H _]. by destruct H.
Qed.

(** A client is let in exactly when its password is not empty: a server that
    answers the request that ends its loop, and leaves the others unanswered so
    that the connection times out. *)
Lemma client_let_in password padding insecure sni addr timeout :
  hysteria2_connect (Ok tt) (λ _, Ok tt)
    (λ r _, match authenticate [r] with Some _ => Ok auth_response.1 | None => Err timeout end)
    (λ _ _ _, Ok tt) password insecure sni addr padding
  = if bool_decide (password = []) then Err (hy_err timeout) else Ok tt.
Proof.
  by destruct password.
Qed.

(** ** UDP *)

Definition udp_ok (m : UdpMessage) : Prop :=
  is_u32 (um_session_id m) ∧ is_u16 (um_packet_id m) ∧ utf8_valid (um_addr m) = true
  ∧ 1 ≤ Z.of_nat (length (um_addr m)) ≤ 2048 ∧ (Z.of_nat (length (um_addr m)) < 64 ∨ 256 ≤ Z.of_nat (length (um_addr m))).
#[export] Instance udp_ok_dec m : Decision (udp_ok m).
Proof. unfold udp_ok. apply _. Defined.

Lemma udp_roundtrip m : udp_ok m → udp_parse (udp_serialize m) = Ok m.
Proof.
  intros (Hs & Hp & Hu & Hl & Hf). destruct m as [sid pid fid fc a d]; cbn [um_session_id um_packet_id um_frag_id um_frag_count um_addr um_data] in *.
  assert (fits (Z.of_nat (length a))) as Hfit by (unfold fits; lia).
  unfold udp_serialize. cbn [um_session_id um_packet_id um_frag_id um_frag_count um_addr um_data].
  rewrite write_varint_app, <- !app_assoc. unfold udp_parse.
  set (tl := encode_varint (Z.of_nat (length a)) ++ a ++ d).
  pose proof (length_be_bytes 4 sid) as L4. pose proof (length_be_bytes 2 pid) as L2.
  remember (be_bytes 4 sid ++ be_bytes 2 pid ++ [fid; fc] ++ tl) as w eqn:Ew.
  assert (length w = (8 + length tl)%nat) as Lw by (subst w; rewrite !length_app, L4, L2; cbn [length]; lia).
  assert (@slice ioerr w 0 4 = Ok (be_bytes 4 sid)) as -> by (subst w; apply (slice_mid []); rewrite ?L4; done).
  assert (@slice ioerr w 4 6 = Ok (be_bytes 2 pid)) as -> by (subst w; apply slice_mid; rewrite ?L4, ?L2; done).
  assert (@idx ioerr w 6 = Ok fid ∧ @idx ioerr w 7 = Ok fc) as [-> ->]
    by (subst w; split; rewrite !idx_app_r by lia; rewrite L4, L2; done).
  assert (w = (be_bytes 4 sid ++ be_bytes 2 pid ++ [fid; fc]) ++ tl) as Ew2 by (subst w; by rewrite <- !app_assoc).
  assert (@slice_from ioerr w 8 = Ok tl) as ->
    by (rewrite Ew2; apply slice_from_app; rewrite !length_app, L4, L2; done).
  assert (read_varint tl = Ok (Z.of_nat (length a), length (encode_varint (Z.of_nat (length a))))) as ->
    by (apply read_varint_encode; [unfold in_range; lia | done]).
  rewrite (proj2 (Nat.ltb_ge _ _)) by lia.
  rewrite (proj2 (Z.eqb_neq _ 0)), (proj2 (Z.ltb_ge _ _)) by (unfold MAX_MESSAGE_LENGTH; lia). cbn [orb].
  rewrite Ew2. unfold tl. rewrite app_assoc.
  rewrite slice_from_app by (rewrite !length_app, L4, L2; cbn [length]; lia).
  rewrite (proj2 (Z.ltb_ge _ _)) by (rewrite length_app; lia). rewrite Nat2Z.id.
  rewrite slice_ok by (rewrite ?length_app; lia). rewrite drop_0, Nat.sub_0_r, take_app_length, slice_from_app by done.
  rewrite from_utf8_lossy_valid by done. rewrite !be_value_bytes.
  rewrite !Z.mod_small by (unfold in_range in *; cbn; lia). done.
Qed.

(** The texts of addresses that a UDP message carries: not those of 64 to 255
    bytes, whose length the variable-length integers garble. *)
Definition text_ok (a : str) : Prop :=
  utf8_valid a = true ∧ 1 ≤ Z.of_nat (length a) ≤ 2048 ∧ (Z.of_nat (length a) < 64 ∨ 256 ≤ Z.of_nat (length a)).
#[export] Instance text_ok_dec a : Decision (text_ok a).
Proof. unfold text_ok. apply _. Defined.

Lemma udp_parse_text sid pid a d : is_u32 sid → is_u16 pid → text_ok a →
  udp_parse (udp_serialize (mk_udp sid pid 0 1 a d)) = Ok (mk_udp sid pid 0 1 a d).
Proof. intros Hs Hp (Hu & Hl & Hg). by apply udp_roundtrip. Qed.

Section Sessions.
Context (bind : nat → bool) (resolve : str → option SocketAddr).

(** A run of the dispatcher: the state at the end and what it sent. *)
Fixpoint udp_run (st : UdpState) (ds : list (list Z)) : UdpState * list (nat * SocketAddr * list Z) :=
  match ds with
  | [] => (st, [])
  | d :: ds =>
    let '(st, o) := udp_dispatch bind resolve st d in
    let '(st, os) := udp_run st ds in
    (st, match o with Some x => x :: os | None => os end)
  end.

Record udp_inv (st : UdpState) : Prop := mk_udp_inv {
  ui_bound : ∀ sid n, us_sessions st !! sid = Some n → (n < us_bound st)%nat;
  ui_inj : ∀ sid sid' n, us_sessions st !! sid = Some n → us_sessions st !! sid' = Some n → sid = sid';
  ui_attempts : (us_bound st <= us_attempts st)%nat
}.

Lemma udp_dispatch_inv st d :
  udp_inv st → udp_inv (udp_dispatch bind resolve st d).1
  ∧ us_sessions st ⊆ us_sessions (udp_dispatch bind resolve st d).1.
Proof.
  intros [Hb Hi Ha]. unfold udp_dispatch. destruct (udp_parse d) as [m| |]; [|by split..].
  destruct (negb _); [by split|].
  destruct (us_sessions st !! um_session_id m) as [k|] eqn:E; [by split|].
  destruct (bind _); cbn [fst].
  - split; [|by apply insert_subseteq]. split; cbn [us_sessions us_bound us_attempts]; [| |lia].
    + intros sid n. rewrite lookup_insert_Some. intros [[_ <-]|[_ H]]; [lia|]. apply Hb in H. lia.
    + intros sid sid' n. rewrite !lookup_insert_Some. intros [[<- <-]|[Hn H]] [[<- E2]|[Hn' H']].
      * done.
      * apply Hb in H'. lia.
      * subst n. apply Hb in H. lia.
      * by apply (Hi _ _ n).
  - split; [|done]. split; cbn [us_sessions us_bound us_attempts]; [exact Hb | exact Hi | lia].
Qed.

Lemma udp_run_inv ds : ∀ st, udp_inv st → udp_inv (udp_run st ds).1 ∧ us_sessions st ⊆ us_sessions (udp_run st ds).1.
Proof.
  induction ds as [|d ds IH]; intros st H; cbn [udp_run]; [by split|].
  destruct (udp_dispatch_inv st d H) as [H1 H2]. destruct (udp_dispatch bind resolve st d) as [st1 o]. cbn [fst] in *.
  destruct (IH st1 H1) as [H3 H4]. destruct (udp_run st1 ds) as [st2 os]. cbn [fst] in *. split; [done|]. by transitivity (us_sessions st1).
Qed.

(** Where the server sends a packet: the address its target resolves to first,
    if that is an IPv4 address. *)
Definition reached (p : UdpPacket) : option SocketAddr :=
  match resolve (show_target (pkt_target p)) with
  | Some a => if is_v4 (ip a) then Some a else None
  | None => None
  end.
Definition forwarded (sock : nat) (pkts : list UdpPacket) : list (nat * SocketAddr * list Z) :=
  omap (λ p, (λ a, (sock, a, data p)) <$> reached p) pkts.

(** A packet of a session, at the server. *)
Lemma udp_dispatch_packet st sid pid p :
  is_u32 sid → text_ok (show_target (pkt_target p)) →
  let send sock := (λ a, (sock, a, data p)) <$> reached p in
  udp_dispatch bind resolve st (udp_serialize (mk_udp sid (wadd 16 pid 1) 0 1 (show_target (pkt_target p)) (data p)))
  = match us_sessions st !! sid with
    | Some sock => (st, send sock)
    | None =>
      if bind (us_attempts st) then
        (mk_udp_state (<[sid := us_bound st]> (us_sessions st)) (S (us_bound st)) (S (us_attempts st)), send (us_bound st))
      else (mk_udp_state (us_sessions st) (us_bound st) (S (us_attempts st)), None)
    end.
Proof.
  intros Hsid Ht send. unfold udp_dispatch. rewrite udp_parse_text by (done || (apply wrap_range; lia)).
  cbn [um_session_id um_frag_count um_addr um_data]. cbn [Z.eqb negb Pos.eqb].
  assert (∀ sock : nat, (resolve (show_target (pkt_target p)) ≫= λ target,
    inet_send (data p) target ≫= λ x, Some (sock, x.2, x.1)) = send sock) as Hsend.
  { intros sock. unfold send, reached, inet_send. destruct (resolve _) as [a|]; [|done]. cbn. by destruct (is_v4 (ip a)). }
  destruct (us_sessions st !! sid); [by rewrite Hsend|]. destruct (bind _); [by rewrite Hsend | done].
Qed.

Lemma forwarded_cons sock p pkts :
  forwarded sock (p :: pkts) = match (λ a, (sock, a, data p)) <$> reached p with Some x => x :: forwarded sock pkts | None => forwarded sock pkts end.
Proof. unfold forwarded. cbn. by destruct (reached p). Qed.

(** What the datagrams of a session become once it has its socket. *)
Lemma udp_run_bound sid sock pkts : ∀ st counter,
  us_sessions st !! sid = Some sock → is_u32 sid →
  Forall (λ p, text_ok (show_target (pkt_target p))) pkts →
  udp_run st (udp_send_all sid counter pkts) = (st, forwarded sock pkts).
Proof.
  induction pkts as [|p pkts IH]; intros st counter Hs Hsid Hp; cbn [udp_send_all udp_run]; [done|].
  apply Forall_cons in Hp as [Ht Hp]. cbv zeta. rewrite udp_dispatch_packet, Hs, forwarded_cons by done. by rewrite IH.
Qed.

(** And before that: packets are lost as long as no socket can be made. *)
Lemma udp_run_session sid pkts : ∀ st counter,
  is_u32 sid → Forall (λ p, text_ok (show_target (pkt_target p))) pkts →
  ∃ sock lost kept, pkts = lost ++ kept
    ∧ (udp_run st (udp_send_all sid counter pkts)).2 = forwarded sock kept
    ∧ (kept ≠ [] → us_sessions (udp_run st (udp_send_all sid counter pkts)).1 !! sid = Some sock)
    ∧ (lost ≠ [] → us_sessions st !! sid = None)
    ∧ ∀ k, (k < length lost)%nat → bind (us_attempts st + k)%nat = false.
Proof.
  induction pkts as [|p pkts IH]; intros st counter Hsid Hp.
  { exists 0%nat, [], []. split_and!; try done. cbn. lia. }
  destruct (us_sessions st !! sid) as [sock|] eqn:E.
  { exists sock, [], (p :: pkts). rewrite (udp_run_bound sid sock) by done. split_and!; try done. cbn. lia. }
  pose proof Hp as [Ht Hp']%Forall_cons. cbn [udp_send_all udp_run]. rewrite udp_dispatch_packet, E by done.
  destruct (bind (us_attempts st)) eqn:Eb.
  - exists (us_bound st), [], (p :: pkts).
    rewrite (udp_run_bound sid (us_bound st)) by (done || (cbn [us_sessions]; apply lookup_insert_eq)).
    split_and!; [done | by rewrite forwarded_cons | intros _; cbn [fst us_sessions]; apply lookup_insert_eq | done | cbn; lia].
  - destruct (IH (mk_udp_state (us_sessions st) (us_bound st) (S (us_attempts st))) (wadd 16 counter 1) Hsid Hp')
      as (sock & lost & kept & -> & Hrun & Hk & Hl & Hb). cbn [us_sessions us_attempts] in *.
    exists sock, (p :: lost), kept. destruct (udp_run _ _) as [st' os]. cbn [fst snd] in *. split_and!; try done.
    intros [|k] Hlt; [by rewrite Nat.add_0_r|]. rewrite Nat.add_succ_r. apply Hb. cbn in Hlt. lia.
Qed.

(** What comes to the socket of a session, at a client. *)
Lemma udp_receive_reply sid other from d :
  is_u32 other → text_ok (show_sockaddr from) →
  udp_receive resolve sid (udp_reply other from d)
  = if decide (other = sid) then Some (mk_packet (resolve (show_sockaddr from)) (Domain [] 0) d) else None.
Proof.
  intros Ho Ht. unfold udp_receive, udp_reply. rewrite udp_parse_text by done.
  cbn [um_session_id um_frag_count um_addr um_data]. case_decide as E; [by rewrite E, Z.eqb_refl|].
  by rewrite (proj2 (Z.eqb_neq _ _)).
Qed.
End Sessions.

Definition udp_init : UdpState := mk_udp_state ∅ 0 0.

(** C28: the UDP sessions of the server, for packets whose address has a text of
    1 to 63 or of 256 to 2048 bytes (those between are garbled, C34).  After any
    datagrams, the packets that a client sends under a session number leave in
    order from one socket that no other session has, each for the address that
    its target resolves to first; those for an IPv6 address, and those that do
    not resolve, go nowhere, since the sockets are IPv4 ones.  Packets are lost
    only at the start of a session without a socket, one for each socket that
    cannot be made.  The sessions there before keep their sockets, and a client
    takes the answer that comes to a socket exactly when its session owns it. *)
Theorem hysteria2_udp_sessions bind resolve ds sid counter pkts :
  is_u32 sid → Forall (λ p, text_ok (show_target (pkt_target p))) pkts →
  let st := (udp_run bind resolve udp_init ds).1 in
  let '(st', sent) := udp_run bind resolve st (udp_send_all sid counter pkts) in
  ∃ sock lost kept, pkts = lost ++ kept
    ∧ sent = omap (λ p, match resolve (show_target (pkt_target p)) with
                        | Some a => if is_v4 (ip a) then Some (sock, a, data p) else None
                        | None => None
                        end) kept
    ∧ (kept ≠ [] → us_sessions st' !! sid = Some sock ∧ ∀ other, us_sessions st' !! other = Some sock → other = sid)
    ∧ (lost ≠ [] → us_sessions st !! sid = None)
    ∧ (∀ k, (k < length lost)%nat → bind (us_attempts st + k)%nat = false)
    ∧ us_sessions st ⊆ us_sessions st'
    ∧ (∀ other from d, is_u32 other → text_ok (show_sockaddr from) →
       udp_receive resolve sid (udp_reply other from d)
       = if decide (other = sid) then Some (mk_packet (resolve (show_sockaddr from)) (Domain [] 0) d) else None).
Proof.
  intros Hsid Hp st.
  assert (udp_inv st) as Hi by (apply udp_run_inv; split; by cbn).
  destruct (udp_run_inv bind resolve (udp_send_all sid counter pkts) st Hi) as [Hi' Hsub].
  destruct (udp_run_session bind resolve sid pkts st counter Hsid Hp) as (sock & lost & kept & H1 & H2 & H3 & H4 & H5).
  destruct (udp_run bind resolve st (udp_send_all sid counter pkts)) as [st' sent]. cbn [fst snd] in *.
  exists sock, lost, kept. split; [done|]. split; [|split].
  - rewrite H2. apply list_omap_ext, Forall_Forall2_diag, Forall_forall. intros p _. unfold reached.
    destruct (resolve _) as [a|]; [|done]. by destruct (is_v4 (ip a)).
  - intros Hk. specialize (H3 Hk). split; [done|]. intros other Ho. by apply (ui_inj st' Hi' other sid sock).
  - split; [done|]. split; [done|]. split; [done|]. intros other from d. apply udp_receive_reply.
Qed.

Lemma hysteria2_udp_sessions_witness :
  let resolve (a : str) := if bool_decide (a = bs "six.b:53") then Some (sa_new (V6 (replicate 16 1)) 53)
                           else Some (sa_new (V4 [1; 2; 3; 4]) 53) in
  let p := mk_packet None (Domain (bs "a.b") 53) [7] in
  let q := mk_packet None (Domain (bs "six.b") 53) [8] in
  let '(st', sent) := udp_run (λ n, (0 <? n)%nat) resolve udp_init (udp_send_all 9 0 [p; q; p]) in
  ∃ sock, us_sessions st' !! 9 = Some sock ∧ sent = [(sock, sa_new (V4 [1; 2; 3; 4]) 53, [7])].
Proof.
  intros resolve p q.
  pose proof (hysteria2_udp_sessions (λ n, (0 <? n)%nat) resolve [] 9 0 [p; q; p] ltac:(by_decide) ltac:(by_decide)) as H.
  cbn zeta in H. cbn [udp_run fst] in H.
  assert (length (udp_run (λ n, (0 <? n)%nat) resolve udp_init (udp_send_all 9 0 [p; q; p])).2 = 1%nat) as Hlen
    by (vm_compute; reflexivity).
  destruct (udp_run _ resolve udp_init (udp_send_all 9 0 [p; q; p])) as [st' sent].
  destruct H as (sock & lost & kept & Hpk & -> & Hk & _ & Hl & _).
  destruct lost as [|x [|y lost]].
  - cbn [app] in Hpk. subst kept. discriminate Hlen.
  - injection Hpk as _ <-. exists sock. split; [by apply Hk | reflexivity].
  - specialize (Hl 1%nat ltac:(cbn; lia)). discriminate Hl.
Defined.
