(* ===== verification/Mux.v ===== *)
(** * Mux: pooled sessions and the yamux driver

    [omni-mux/src/pool.rs]: the pool that reuses multiplexed sessions, its
    leases and [PooledStream]; [omni-mux/src/session.rs]: sessions with the
    opening and the accepting of streams, the task that drives a yamux
    connection, and the stream adapters that wake it.  The smux
    and yamux protocols are libraries: a connection is what its polls return. *)

From S2P Require Import Prelude Text Io Node.

(** ** The pool ([pool.rs]) *)

Section Pool.
Context {U Sess S : Type}.

Definition DEFAULT_MAX_STREAMS_PER_SESSION : Z := 64.

Record Entry := mk_entry { e_session : Sess; e_active : Z }.

Record MuxPool := mk_pool { mp_kind : MuxKind; max_streams : Z; mp_entries : list Entry }.

Definition with_max_streams (kind : MuxKind) (max : Z) : MuxPool := mk_pool kind max [].
Definition pool_new (kind : MuxKind) : MuxPool := with_max_streams kind DEFAULT_MAX_STREAMS_PER_SESSION.

(** A lease shares the counter of its entry.  Entries are never removed or
    moved, so a lease is the position of its entry. *)
Abbreviation PoolLease := nat.

(** [fetch_add] and [fetch_sub] on an [AtomicUsize] wrap around. *)
Definition fetch_add (e : Entry) (n : Z) : Entry := mk_entry (e_session e) (wrap 64 (e_active e + n)).

Definition set_entries (p : MuxPool) (es : list Entry) : MuxPool := mk_pool (mp_kind p) (max_streams p) es.

(** The loop of [dial] under the lock: the first session with room on which a
    stream can be opened.  [open i] is the outcome of [open_stream] on the i-th
    session. *)
Fixpoint scan (open : nat → Sess → option S) (max : Z) (i : nat) (es : list Entry) : option (nat * S) :=
  match es with
  | [] => None
  | e :: es =>
    if max <=? e_active e then scan open max (Datatypes.S i) es else
    match open i (e_session e) with
    | Some s => Some (i, s)
    | None => scan open max (Datatypes.S i) es
    end
  end.

Definition dial_reuse (open : nat → Sess → option S) (p : MuxPool) : option (S * PoolLease * MuxPool) :=
  match scan open (max_streams p) 0 (mp_entries p) with
  | Some (i, s) => Some (s, i, set_entries p (alter (λ e, fetch_add e 1) i (mp_entries p)))
  | None => None
  end.

(** The end of a [dial] that made a session: the entry is pushed under a lock
    of its own. *)
Definition dial_push (session : Sess) (p : MuxPool) : PoolLease * MuxPool :=
  (length (mp_entries p), set_entries p (mp_entries p ++ [mk_entry session 1])).

(** [dial] when no other dial comes between its two locks. *)
Definition dial (open : nat → Sess → option S) (connect : res ioerr U)
    (client : U → MuxKind → res ioerr Sess) (first : Sess → res ioerr S) (p : MuxPool)
    : res ioerr (S * PoolLease) * MuxPool :=
  match dial_reuse open p with
  | Some (s, lease, p) => (Ok (s, lease), p)
  | None =>
    match (let? underlay := connect in
           let? session := client underlay (mp_kind p) in
           let? stream := first session in
           Ok (session, stream)) with
    | Ok (session, stream) => let '(lease, p) := dial_push session p in (Ok (stream, lease), p)
    | Err e => (Err e, p)
    | Panic => (Panic, p)
    end
  end.

(** [PoolLease::release], also the drop of a [PooledStream]. *)
Definition release (lease : PoolLease) (p : MuxPool) : MuxPool :=
  set_entries p (alter (λ e, fetch_add e (-1)) lease (mp_entries p)).

Definition prune_dead (p : MuxPool) : nat * MuxPool :=
  let kept := filter (λ _, True) (mp_entries p) in
  ((length (mp_entries p) - length kept)%nat, set_entries p kept).

(** *** Dials and releases of many tasks

    [w_dialing] counts the dials between their two locks, [w_leases] are the
    leases that have not been released. *)
Record world := mk_world { w_pool : MuxPool; w_dialing : nat; w_leases : list PoolLease }.

Inductive pool_step : world → world → Prop :=
| step_reuse open p n ls s lease p' :
    dial_reuse open p = Some (s, lease, p') →
    pool_step (mk_world p n ls) (mk_world p' n (lease :: ls))
| step_miss open p n ls :
    dial_reuse open p = None →
    pool_step (mk_world p n ls) (mk_world p (Datatypes.S n) ls)
| step_push p n ls session :
    pool_step (mk_world p (Datatypes.S n) ls)
              (mk_world (dial_push session p).2 n ((dial_push session p).1 :: ls))
| step_fail p n ls :
    pool_step (mk_world p (Datatypes.S n) ls) (mk_world p n ls)
| step_release p n before lease after :
    pool_step (mk_world p n (before ++ lease :: after)) (mk_world (release lease p) n (before ++ after))
| step_prune p n ls :
    pool_step (mk_world p n ls) (mk_world (prune_dead p).2 n ls).

Definition reachable (kind : MuxKind) (max : Z) (w : world) : Prop :=
  rtc pool_step (mk_world (with_max_streams kind max) 0 []) w.

Definition leases_of (i : nat) (ls : list PoolLease) : Z := Z.of_nat (length (filter (eq i) ls)).

(** Every counter is the number of leases of its session, and within the
    bound; a session made for a dial has at least that one. *)
Record pool_inv (max : Z) (w : world) : Prop := mk_pool_inv {
  pi_max : max_streams (w_pool w) = max;
  pi_count : ∀ i e, mp_entries (w_pool w) !! i = Some e →
    e_active e = leases_of i (w_leases w) ∧ e_active e ≤ Z.max 1 max;
  pi_lease : ∀ i, i ∈ w_leases w → (i < length (mp_entries (w_pool w)))%nat
}.

Lemma scan_some open max es : ∀ i j s,
  scan open max i es = Some (j, s) → ∃ e, es !! (j - i)%nat = Some e ∧ e_active e < max ∧ (i <= j)%nat
    ∧ open j (e_session e) = Some s.
Proof.
  induction es as [|e es IH]; intros i j s H; cbn [scan] in H; [done|].
  assert (scan open max (Datatypes.S i) es = Some (j, s) → ∃ e0, (e :: es) !! (j - i)%nat = Some e0
            ∧ e_active e0 < max ∧ (i <= j)%nat ∧ open j (e_session e0) = Some s) as Hrec.
  { intros H'. apply IH in H' as (e0 & H1 & H2 & H3 & H4). exists e0.
    replace (j - i)%nat with (Datatypes.S (j - Datatypes.S i)) by lia. split_and!; [done|done|lia|done]. }
  destruct (Z.leb_spec max (e_active e)); [by apply Hrec|].
  destruct (open i (e_session e)) as [s'|] eqn:E; [|by apply Hrec].
  injection H as <- <-. exists e. rewrite Nat.sub_diag. split_and!; [done|lia|lia|done].
Qed.

Lemma leases_of_cons i j ls : leases_of i (j :: ls) = (if decide (i = j) then 1 else 0) + leases_of i ls.
Proof. unfold leases_of. rewrite filter_cons. repeat case_decide; try done; cbn [length]; lia. Qed.

Lemma leases_of_perm i ls ls' : ls ≡ₚ ls' → leases_of i ls = leases_of i ls'.
Proof. intros H. unfold leases_of. by rewrite H. Qed.

Lemma leases_of_fresh i ls : (∀ j, j ∈ ls → j ≠ i) → leases_of i ls = 0.
Proof.
  induction ls as [|j ls IH]; intros H; [done|]. rewrite leases_of_cons, decide_False, IH; [done| |].
  - intros k Hk. apply H. by right.
  - intros ->. by apply (H j); [left|].
Qed.

Lemma fetch_add_small e n : 0 ≤ e_active e + n < 2 ^ 64 → e_active (fetch_add e n) = e_active e + n.
Proof. intros. by apply wrap_small. Qed.

Lemma filter_true {A} (l : list A) : filter (λ _, True) l = l.
Proof. induction l as [|x l IH]; [done|]. rewrite filter_cons, IH. by case_decide. Qed.

Lemma pool_step_inv max w w' : is_u64 max → pool_step w w' → pool_inv max w → pool_inv max w'.
Proof.
  intros Hmax Hs [Hm Hc Hl]. unfold in_range in Hmax. destruct Hs; cbn [w_pool w_leases] in *.
  - unfold dial_reuse in H. destruct (scan _ _ _ _) as [[i s']|] eqn:E; [|done]. injection H as <- <- <-.
    apply scan_some in E as (e & He & Ha & _ & _). rewrite Nat.sub_0_r in He. rewrite Hm in Ha.
    split; cbn [w_pool w_leases set_entries max_streams mp_entries]; [done| |].
    + intros k e' Hk. rewrite leases_of_cons. case_decide as Ek.
      * subst k. rewrite list_lookup_alter_eq, He in Hk. injection Hk as <-. destruct (Hc i e He) as [Hce Hb].
        assert (0 ≤ leases_of i ls) by (unfold leases_of; lia). rewrite fetch_add_small by lia. lia.
      * rewrite list_lookup_alter_ne in Hk by done. rewrite Z.add_0_l. by apply Hc.
    + intros k Hk. rewrite length_alter. apply elem_of_cons in Hk as [->|Hk]; [by eapply lookup_lt_Some | by apply Hl].
  - by split.
  - split; cbn [w_pool w_leases dial_push fst snd set_entries max_streams mp_entries]; [done| |].
    + intros k e' Hk. rewrite leases_of_cons. case_decide as Ek.
      * subst k. rewrite lookup_app_r, Nat.sub_diag in Hk by done. injection Hk as <-. cbn [e_active].
        rewrite leases_of_fresh; [lia|]. intros j Hj ->. apply Hl in Hj. lia.
      * rewrite Z.add_0_l. apply lookup_app_Some in Hk as [Hk|[Hge Hk]]; [by apply Hc|].
        apply list_lookup_singleton_Some in Hk as [Hz _]. lia.
    + intros k Hk. rewrite length_app. cbn [length]. apply elem_of_cons in Hk as [->|Hk]; [lia|]. apply Hl in Hk. lia.
  - by split.
  - assert (∀ k, leases_of k (before ++ lease :: after) = (if decide (k = lease) then 1 else 0) + leases_of k (before ++ after)) as Hp.
    { intros k. rewrite <- leases_of_cons. apply leases_of_perm. symmetry. by apply Permutation_middle. }
    split; cbn [w_pool w_leases release set_entries max_streams mp_entries]; [done| |].
    + intros k e' Hk. destruct (decide (k = lease)) as [->|Ek].
      * rewrite list_lookup_alter_eq in Hk. destruct (mp_entries p !! lease) as [e|] eqn:He; [|done]. injection Hk as <-.
        destruct (Hc lease e He) as [Hce Hb]. rewrite Hp, decide_True in Hce by done.
        assert (0 ≤ leases_of lease (before ++ after)) by (unfold leases_of; lia). rewrite fetch_add_small by lia. lia.
      * rewrite list_lookup_alter_ne in Hk by done. specialize (Hc k e' Hk) as Hck. rewrite Hp, decide_False in Hck by done.
        by rewrite Z.add_0_l in Hck.
    + intros k Hk. rewrite length_alter. apply Hl. set_solver.
  - unfold prune_dead. cbn [snd]. rewrite filter_true. by split.
Qed.

(** A sequential [dial] is a run of these steps. *)
Lemma dial_steps open connect client first p n ls s lease p' :
  dial open connect client first p = (Ok (s, lease), p') →
  rtc pool_step (mk_world p n ls) (mk_world p' n (lease :: ls)).
Proof.
  unfold dial. destruct (dial_reuse open p) as [[[s0 l0] p0]|] eqn:E.
  - intros [= <- <- <-]. apply rtc_once. by eapply step_reuse.
  - destruct (let? underlay := connect in _) as [[session stream]| |]; [|done..]. intros [= <- <- <-].
    eapply rtc_l; [by eapply step_miss|]. apply rtc_once. apply (step_push p n ls session).
Qed.

(** *** Dials whose leases are not released *)

(** [n] dials one after the other, each session taking every stream. *)
Fixpoint dials (open : nat → Sess → option S) (connect : res ioerr U)
    (client : U → MuxKind → res ioerr Sess) (first : Sess → res ioerr S) (n : nat) (p : MuxPool) : MuxPool :=
  match n with
  | O => p
  | Datatypes.S n => dials open connect client first n (dial open connect client first p).2
  end.

(** [q] full sessions, and one with [r] streams when [r > 0]. *)
Definition filled (max : Z) (session : Sess) (q : nat) (r : Z) : list Entry :=
  replicate q (mk_entry session max) ++ (if r =? 0 then [] else [mk_entry session r]).

Lemma scan_filled open max session q r : ∀ i,
  (∀ j, ∃ s, open j session = Some s) → r < max →
  if r =? 0 then scan open max i (filled max session q r) = None
  else ∃ s, scan open max i (filled max session q r) = Some ((i + q)%nat, s).
Proof.
  unfold filled. induction q as [|q IH]; intros i Ho Hr; cbn [replicate app scan].
  - destruct (Z.eqb_spec r 0) as [->|Hne]; cbn [scan e_active e_session]; [done|].
    rewrite (proj2 (Z.leb_gt _ _)) by lia. destruct (Ho i) as [s ->]. exists s. by rewrite Nat.add_0_r.
  - cbn [e_active]. rewrite (proj2 (Z.leb_le _ _)) by lia. specialize (IH (Datatypes.S i) Ho Hr).
    by rewrite Nat.add_succ_r.
Qed.

Definition after_dials (max : Z) (session : Sess) (n : Z) : list Entry :=
  filled max session (Z.to_nat (n / max)) (n mod max).

(** One stream more: in the session with room, which it may fill, or in a new
    one. *)
Lemma filled_next max session n :
  1 ≤ max → 0 ≤ n →
  after_dials max session (n + 1) =
  if n mod max =? 0 then after_dials max session n ++ [mk_entry session 1]
  else replicate (Z.to_nat (n / max)) (mk_entry session max) ++ [mk_entry session (n mod max + 1)].
Proof.
  intros Hm Hn. unfold after_dials, filled. pose proof (Z.mod_pos_bound n max ltac:(lia)) as Hb.
  pose proof (Z.div_mod n max ltac:(lia)) as Hd. pose proof (Z.div_pos n max ltac:(lia) ltac:(lia)) as Hq.
  destruct (decide (n mod max + 1 < max)) as [Hlt|Hge].
  - assert ((n + 1) / max = n / max ∧ (n + 1) mod max = n mod max + 1) as [-> ->].
    { split; [symmetry; apply (Z.div_unique_pos _ _ _ (n mod max + 1)) | symmetry; apply (Z.mod_unique_pos _ _ (n / max))]; lia. }
    rewrite (proj2 (Z.eqb_neq (n mod max + 1) 0)) by lia.
    destruct (Z.eqb_spec (n mod max) 0) as [->|]; [by rewrite app_nil_r | done].
  - assert ((n + 1) / max = n / max + 1 ∧ (n + 1) mod max = 0) as [-> ->].
    { split; [symmetry; apply (Z.div_unique_pos _ _ _ 0) | symmetry; apply (Z.mod_unique_pos _ _ (n / max + 1))]; lia. }
    rewrite Z.eqb_refl, app_nil_r, Z2Nat.inj_add, Nat.add_1_r, replicate_S_end by lia.
    destruct (Z.eqb_spec (n mod max) 0) as [E|]; [rewrite app_nil_r|]; do 3 f_equal; lia.
Qed.

Lemma length_after_dials max session n :
  1 ≤ max → 0 ≤ n → Z.of_nat (length (after_dials max session n)) = (n + max - 1) / max.
Proof.
  intros Hm Hn. unfold after_dials, filled. rewrite length_app, length_replicate.
  pose proof (Z.mod_pos_bound n max ltac:(lia)) as Hb. pose proof (Z.div_mod n max ltac:(lia)) as Hd.
  pose proof (Z.div_pos n max ltac:(lia) ltac:(lia)) as Hq.
  rewrite Nat2Z.inj_add, Z2Nat.id by lia. destruct (Z.eqb_spec (n mod max) 0) as [E|E]; cbn [length].
  - apply (Z.div_unique_pos _ _ _ (max - 1)); lia.
  - apply (Z.div_unique_pos _ _ _ (n mod max - 1)); lia.
Qed.

Section Unreleased.
Context (open : nat → Sess → option S) (underlay : U) (client : U → MuxKind → res ioerr Sess)
  (first : Sess → res ioerr S) (session : Sess) (stream : S).
Context (open_all : ∀ i, ∃ s, open i session = Some s)
  (client_ok : ∀ k, client underlay k = Ok session) (first_ok : first session = Ok stream).

Lemma dial_next p n :
  1 ≤ max_streams p < 2 ^ 64 → 0 ≤ n → mp_entries p = after_dials (max_streams p) session n →
  (dial open (Ok underlay) client first p).2
  = set_entries p (after_dials (max_streams p) session (n + 1)).
Proof using open_all client_ok first_ok.
  intros Hm Hn He. rewrite filled_next by lia. unfold dial, dial_reuse. rewrite He.
  pose proof (Z.mod_pos_bound n (max_streams p) ltac:(lia)) as Hb.
  pose proof (scan_filled open (max_streams p) session (Z.to_nat (n / max_streams p)) (n mod max_streams p) 0 open_all ltac:(lia)) as Hs.
  fold (after_dials (max_streams p) session n) in Hs.
  destruct (Z.eqb_spec (n mod max_streams p) 0) as [E|E].
  - rewrite Hs, client_ok, first_ok. unfold dial_push. cbn [snd]. by rewrite He.
  - destruct Hs as [s ->]. cbn [snd]. f_equal. unfold after_dials, filled.
    rewrite (proj2 (Z.eqb_neq _ _)) by done. rewrite Nat.add_0_l, alter_app_r_alt by (rewrite length_replicate; lia).
    rewrite length_replicate, Nat.sub_diag. cbn [alter list_alter]. do 2 f_equal.
    unfold fetch_add. cbn [e_session e_active]. f_equal. apply wrap_small. unfold in_range. lia.
Qed.

Lemma dials_spec k : ∀ p n,
  1 ≤ max_streams p < 2 ^ 64 → 0 ≤ n → mp_entries p = after_dials (max_streams p) session n →
  mp_entries (dials open (Ok underlay) client first k p) = after_dials (max_streams p) session (n + Z.of_nat k).
Proof using open_all client_ok first_ok.
  induction k as [|k IH]; intros p n Hm Hn He; cbn [dials]; [by rewrite Z.add_0_r|].
  rewrite (dial_next p n) by done.
  rewrite (IH (set_entries p (after_dials (max_streams p) session (n + 1))) (n + 1)) by (done || cbn [set_entries max_streams]; lia).
  cbn [set_entries max_streams]. f_equal. lia.
Qed.
End Unreleased.
End Pool.

Arguments mk_entry {Sess}.
Arguments mk_pool {Sess}.
Arguments with_max_streams {Sess}.

(** C20: the leases of the pool.  In every state that dials (also dials that
    overlap between their two locks), failures, releases and prunings of many
    tasks can reach, the counter of every session is the number of its leases
    that are out and is at most the bound (or 1), so it never wraps around.
    Leases that are never released, as in [dial_with_transport], only ever
    accumulate: after [n] dials there are n / max sessions, rounded up, however
    many of the streams have ended. *)
Theorem mux_pool_leases {U Sess S} (kind : MuxKind) (max : Z) :
  is_u64 max →
  (∀ w : @world Sess, @reachable Sess S kind max w → ∀ i e, mp_entries (w_pool w) !! i = Some e →
     e_active e = leases_of i (w_leases w) ∧ 0 ≤ e_active e ≤ Z.max 1 max)
  ∧ (∀ (open : nat → Sess → option S) (underlay : U) client first session stream n,
     1 ≤ max → (∀ i, ∃ s, open i session = Some s) → (∀ k, client underlay k = Ok session) →
     first session = Ok stream →
     Z.of_nat (length (mp_entries (dials open (Ok underlay) client first n (with_max_streams kind max))))
     = (Z.of_nat n + max - 1) / max).
Proof.
  intros Hmax. split.
  - intros w Hw i e He. assert (pool_inv max w) as [_ Hc _].
    { revert Hw. unfold reachable. apply (rtc_ind_r (pool_inv max)); [|intros; by eapply pool_step_inv].
      split; cbn; [done | intros; by simplify_eq | intros k Hk; by apply elem_of_nil in Hk]. }
    destruct (Hc i e He) as [H1 H2]. split; [done|]. split; [|done]. rewrite H1. unfold leases_of. lia.
  - intros open underlay client first session stream n Hm Ho Hcl Hf.
    rewrite (dials_spec open underlay client first session stream Ho Hcl Hf n _ 0); [|unfold in_range in Hmax; cbn; lia|done|].
    + by apply length_after_dials; [|lia].
    + cbn [with_max_streams mp_entries max_streams]. unfold after_dials, filled.
      rewrite Z.mod_0_l, Z.div_0_l by lia. done.
Qed.

Lemma mux_pool_leases_witness :
  Z.of_nat (length (mp_entries (dials (λ _ (_ : unit), Some tt) (Ok tt) (λ _ _, Ok tt) (λ _, Ok tt) 130
    (with_max_streams Smux 64)))) = 3.
Proof.
  apply (proj2 (@mux_pool_leases unit unit unit Smux 64 ltac:(by_decide)) _ tt _ _ tt tt 130%nat);
    [lia | by eexists | done | done].
Defined.

(** ** The task that drives a yamux connection ([session.rs]) *)

Section Driver.
Context {S : Type}.

(** What a poll of the connection returns; an exhausted list is pending. *)
Inductive out_poll := OutPending | OutReady (r : res ioerr S).
Inductive in_poll := InPending | InStream (s : S) | InEnd.

(** A request is the [oneshot] sender of an [open_stream], here its number.
    [answers] are the senders that were used, [dropped] those dropped unused. *)
Record Driver := mk_driver {
  pending_open : option nat;
  open_rx : list nat;
  open_closed : bool;
  accept_q : list S;
  accept_alive : bool;
  answers : list (nat * res ioerr S);
  dropped : list nat;
  finished : bool
}.

Definition ACCEPT_QUEUE : nat := 64.

Definition opt_list (o : option nat) : list nat := match o with Some x => [x] | None => [] end.

(** [Poll::Ready(())]: the task is over and what it owns is dropped. *)
Definition finish (d : Driver) : Driver :=
  mk_driver None [] (open_closed d) (accept_q d) (accept_alive d) (answers d)
    (dropped d ++ opt_list (pending_open d) ++ open_rx d) true.

(** A turn of the loop after the pending request: the next request, else the
    next stream of the peer.  [go] is the rest of the loop. *)
Definition drive_rest (go : Driver → list out_poll → list in_poll → Driver)
    (d : Driver) (outs : list out_poll) (ins : list in_poll) : Driver :=
  match open_rx d with
  | cb :: rx =>
    go (mk_driver (Some cb) rx (open_closed d) (accept_q d) (accept_alive d) (answers d)
          (dropped d ++ opt_list (pending_open d)) false) outs ins
  | [] =>
    if open_closed d then finish d else
    match ins with
    | InStream s :: ins =>
      if accept_alive d && (length (accept_q d) <? ACCEPT_QUEUE)%nat
      then go (mk_driver (pending_open d) [] false (accept_q d ++ [s]) true (answers d) (dropped d) false) outs ins
      else finish d
    | InEnd :: _ => finish d
    | InPending :: _ | [] => d
    end
  end.

(** The request [cb] is answered. *)
Definition answer (d : Driver) (cb : nat) (r : res ioerr S) : Driver :=
  mk_driver None (open_rx d) (open_closed d) (accept_q d) (accept_alive d) (answers d ++ [(cb, r)]) (dropped d) false.

(** One poll of the task.  Every turn of the loop that goes on has taken an
    element of [outs], of [open_rx] or of [ins]. *)
Fixpoint drive (fuel : nat) (d : Driver) (outs : list out_poll) (ins : list in_poll) : Driver :=
  match fuel with
  | O => d
  | Datatypes.S fuel =>
    match pending_open d, outs with
    | Some cb, OutReady (Ok s) :: outs => drive fuel (answer d cb (Ok s)) outs ins
    | Some cb, OutReady r :: _ => finish (answer d cb r)
    | Some _, OutPending :: outs => drive_rest (drive fuel) d outs ins
    | _, _ => drive_rest (drive fuel) d outs ins
    end
  end.

(** [open_stream] of a session: the request is queued, or refused when the
    task is over; a request whose sender was dropped gets an error. *)
Definition open_request (d : Driver) (cb : nat) : res ioerr Driver :=
  if finished d then Err (other (bs "mux: yamux driver closed")) else
  Ok (mk_driver (pending_open d) (open_rx d ++ [cb]) (open_closed d) (accept_q d) (accept_alive d) (answers d) (dropped d) false).

Definition open_result (d : Driver) (cb : nat) : option (res ioerr S) :=
  match find (λ p, Nat.eqb p.1 cb) (answers d) with
  | Some (_, r) => Some r
  | None => if bool_decide (cb ∈ dropped d) then Some (Err (other (bs "mux: yamux driver dropped result"))) else None
  end.

(** [accept_stream]: [None] is a wait, [Ok None] the end of the session. *)
Definition accept_result (d : Driver) : option (res ioerr (option S) * Driver) :=
  match accept_q d with
  | s :: q => Some (Ok (Some s), mk_driver (pending_open d) (open_rx d) (open_closed d) q (accept_alive d) (answers d) (dropped d) (finished d))
  | [] => if finished d then Some (Ok None, d) else None
  end.

(** All requests there are, wherever they have got to. *)
Definition requests (d : Driver) : list nat :=
  map fst (answers d) ++ dropped d ++ opt_list (pending_open d) ++ open_rx d.

Lemma requests_finish d : requests (finish d) = requests d.
Proof. unfold requests, finish. cbn [answers dropped pending_open open_rx opt_list]. by rewrite !app_nil_r. Qed.

Lemma requests_answer d cb r : pending_open d = Some cb → requests (answer d cb r) ≡ₚ requests d.
Proof.
  intros Ep. unfold requests, answer. cbn [answers dropped pending_open open_rx opt_list].
  rewrite Ep, map_app, <- !app_assoc. cbn [map fst opt_list app]. apply Permutation_app_head.
  by rewrite Permutation_middle.
Qed.

Lemma requests_rest go d outs ins :
  (∀ d outs ins, requests (go d outs ins) ≡ₚ requests d) → requests (drive_rest go d outs ins) ≡ₚ requests d.
Proof.
  intros IH. unfold drive_rest. destruct (open_rx d) as [|cb rx] eqn:Erx.
  - destruct (open_closed d); [by rewrite requests_finish|].
    destruct ins as [|[| s|] ins]; [done|done| |by rewrite requests_finish].
    destruct (accept_alive d && _); [|by rewrite requests_finish].
    rewrite IH. unfold requests. cbn [answers dropped pending_open open_rx]. by rewrite Erx.
  - rewrite IH. unfold requests. cbn [answers dropped pending_open open_rx opt_list]. rewrite Erx.
    by rewrite <- !app_assoc.
Qed.

(** No poll loses or doubles a request. *)
Lemma drive_requests fuel : ∀ d outs ins, requests (drive fuel d outs ins) ≡ₚ requests d.
Proof.
  induction fuel as [|fuel IH]; intros d outs ins; cbn [drive]; [done|].
  destruct (pending_open d) as [cb|] eqn:Ep; [|by apply requests_rest].
  destruct outs as [|[|[s|e|]] outs]; [by apply requests_rest|by apply requests_rest| | |];
    rewrite ?IH, ?requests_finish; by apply requests_answer.
Qed.

(** A driver that waits: no request is in hand or queued. *)
Definition idle (d : Driver) : Prop :=
  pending_open d = None ∧ open_rx d = [] ∧ open_closed d = false ∧ finished d = false.

(** When the connection can open at once, the queue is answered in order. *)
Lemma drive_fifo q : ∀ fuel d ss,
  pending_open d = None → open_rx d = q → open_closed d = false → length ss = length q → (2 * length q < fuel)%nat →
  drive fuel d (map (λ s, OutReady (Ok s)) ss) []
  = mk_driver None [] false (accept_q d) (accept_alive d) (answers d ++ zip q (map Ok ss)) (dropped d)
      (if q is [] then finished d else false).
Proof.
  induction q as [|cb q IH]; intros fuel d ss Hp Hq Hc Hl Hf.
  - destruct ss; [|done]. destruct fuel as [|fuel]; [lia|]. cbn [drive map zip zip_with]. rewrite Hp. unfold drive_rest.
    rewrite Hq, Hc, app_nil_r. destruct d; cbn in *. by subst.
  - destruct ss as [|s ss]; [done|]. cbn [length] in Hf, Hl. destruct fuel as [|[|fuel]]; [lia..|].
    cbn [drive map]. rewrite Hp. unfold drive_rest at 1. rewrite Hq, Hc.
    cbn [drive pending_open map]. rewrite IH; cbn [answer pending_open open_rx open_closed accept_q accept_alive answers dropped finished opt_list]; try done; try lia.
    rewrite Hp. cbn [opt_list]. rewrite app_nil_r, <- app_assoc. cbn [map zip zip_with app]. by destruct q.
Qed.

(** While the connection cannot open yet, a new request takes the place of the
    one before it. *)
Lemma drive_overwrites q : ∀ fuel d,
  open_rx d = q → open_closed d = false → (length q < fuel)%nat →
  drive fuel d [] []
  = match last q with
    | None => d
    | Some cb => mk_driver (Some cb) [] false (accept_q d) (accept_alive d) (answers d)
                   (dropped d ++ opt_list (pending_open d) ++ removelast q) false
    end.
Proof.
  induction q as [|cb q IH]; intros fuel d Hq Hc Hf; (destruct fuel as [|fuel]; [cbn in Hf; lia|]).
  - cbn [drive last]. unfold drive_rest. rewrite Hq, Hc. by destruct (pending_open d).
  - assert (drive (Datatypes.S fuel) d [] [] = drive_rest (drive fuel) d [] []) as ->.
    { cbn [drive]. by destruct (pending_open d). }
    unfold drive_rest. rewrite Hq, Hc. cbn [length] in Hf. rewrite IH by (done || lia).
    destruct q as [|cb' q]; cbn [last removelast].
    + by rewrite app_nil_r.
    + destruct (last_is_Some (cb' :: q)) as [_ [x Hx]]; [done|]. rewrite Hx.
      cbn [pending_open opt_list accept_q accept_alive answers dropped]. by rewrite <- !app_assoc.
Qed.
(** Enough turns: more fuel changes nothing. *)
Lemma drive_fuel fuel : ∀ fuel' d outs ins,
  (length outs + length (open_rx d) + length ins < fuel)%nat → (fuel <= fuel')%nat →
  drive fuel' d outs ins = drive fuel d outs ins.
Proof.
  assert (∀ (go go' : Driver → list out_poll → list in_poll → Driver) n d outs ins,
    (∀ d outs ins, (length outs + length (open_rx d) + length ins < n)%nat → go' d outs ins = go d outs ins) →
    (length outs + length (open_rx d) + length ins < Datatypes.S n)%nat →
    drive_rest go' d outs ins = drive_rest go d outs ins) as Hrest.
  { intros go go' n d outs ins Hgo Hn. unfold drive_rest. destruct (open_rx d) as [|cb rx] eqn:Erx.
    - destruct (open_closed d); [done|]. destruct ins as [|[| s|] ins]; [done..| |done].
      destruct (accept_alive d && _); [|done]. apply Hgo. cbn [open_rx length] in *. lia.
    - apply Hgo. cbn [open_rx length] in *. lia. }
  induction fuel as [|fuel IH]; intros fuel' d outs ins Hm Hle; [lia|]. destruct fuel' as [|fuel']; [lia|].
  assert (∀ d outs ins, (length outs + length (open_rx d) + length ins < fuel)%nat →
            drive fuel' d outs ins = drive fuel d outs ins) as Hgo by (intros; apply IH; lia).
  cbn [drive]. destruct (pending_open d) as [cb|]; [|by apply (Hrest _ _ fuel)].
  destruct outs as [|[|[s|e|]] outs]; cbn [length] in Hm; [by apply (Hrest _ _ fuel)| | |done..].
  - apply (Hrest _ _ fuel); [done | lia].
  - apply Hgo. cbn [answer open_rx]. lia.
Qed.
End Driver.

Arguments out_poll : clear implicits.
Arguments in_poll : clear implicits.
Arguments Driver : clear implicits.

Definition driver_new {S} (q : list nat) : Driver S := mk_driver None q false [] true [] [] false.

(** C32: the requests to a yamux driver.  A poll ends, and it neither loses nor
    doubles a request: each is answered, dropped, in hand or queued.  When the
    connection opens streams at once the queued requests are answered in order
    with the streams.  While it cannot, each request of the queue takes the
    place of the one before it, and all but the last get the error of a
    dropped result. *)
Theorem yamux_driver {S} (d : Driver S) outs ins fuel :
  (length outs + length (open_rx d) + length ins < fuel)%nat →
  requests (drive fuel d outs ins) ≡ₚ requests d
  ∧ (∀ fuel', (fuel <= fuel')%nat → drive fuel' d outs ins = drive fuel d outs ins)
  ∧ (∀ q (ss : list S) n, length ss = length q → (2 * length q < n)%nat →
     answers (drive n (driver_new q) (map (λ s, OutReady (Ok s)) ss) []) = zip q (map Ok ss))
  ∧ (∀ q n cb, (length q < n)%nat → cb ∈ removelast q →
     open_result (@drive S n (driver_new q) [] []) cb = Some (Err (other (bs "mux: yamux driver dropped result")))).
Proof.
  intros Hf. split; [apply drive_requests|]. split; [intros; by apply drive_fuel|]. split.
  - intros q ss n Hl Hn. rewrite (drive_fifo q) by done. done.
  - intros q n cb Hn Hcb. rewrite (drive_overwrites q) by done. destruct (last q) as [x|] eqn:E.
    + unfold open_result. cbn [driver_new answers find dropped pending_open opt_list app].
      by rewrite bool_decide_eq_true_2.
    + apply last_None in E as ->. by apply elem_of_nil in Hcb.
Qed.

Lemma yamux_driver_witness :
  answers (drive 10 (driver_new [1; 2; 3]%nat) (map (λ s, OutReady (Ok s)) [true; false; true]) [])
  = [(1, Ok true); (2, Ok false); (3, Ok true)]%nat
  ∧ open_result (@drive bool 10 (driver_new [1; 2]%nat) [] []) 1
    = Some (Err (other (bs "mux: yamux driver dropped result"))).
Proof.
  destruct (@yamux_driver bool (driver_new []) [] [] 1 ltac:(by_decide)) as (_ & _ & H1 & H2). split.
  - apply (H1 [1; 2; 3]%nat); [done | by_decide].
  - apply H2; [by_decide | by_decide].
Defined.

(** ** Sessions and their streams ([session.rs]) *)

Section Session.
Context {Sm St : Type}.

Definition mux_err (m : str) : ioerr := other (bs "mux: " ++ m).

(** A smux session, or the channels to a yamux driver. *)
Inductive MuxBackend := BSmux (s : Sm) | BYamux.

(** [MuxSession::client] and [server]: the handshake of smux is an argument; a
    yamux session starts with its driver and cannot fail. *)
Definition mux_start (handshake : res str Sm) (kind : MuxKind) : res ioerr MuxBackend :=
  match kind with
  | Smux => let? s := map_err mux_err handshake in Ok (BSmux s)
  | Yamux => Ok BYamux
  end.

(** [open_stream] and [accept_stream]: of smux as arguments, of yamux as the
    driver answers ([open_result], [accept_result]).  An error of a smux accept
    is the end of the session. *)
Definition mux_open (smux_open : Sm → res str St) (yamux_open : res ioerr St) (b : MuxBackend) : res ioerr St :=
  match b with BSmux s => map_err mux_err (smux_open s) | BYamux => yamux_open end.
Definition mux_accept (smux_accept : Sm → res str St) (yamux_accept : res ioerr (option St)) (b : MuxBackend)
    : res ioerr (option St) :=
  match b with
  | BSmux s => match smux_accept s with Ok x => Ok (Some x) | Err _ => Ok None | Panic => Panic end
  | BYamux => yamux_accept
  end.

(** A poll: pending, or ready with a result. *)
Definition poll (A : Type) := option (res ioerr A).

(** [TokioToFut]: the bytes put in the buffer become their number; the other
    polls are those of the inner stream. *)
Definition fut_poll_read (inner : poll (list Z)) : poll nat :=
  match inner with
  | Some r => Some (let? filled := r in Ok (length filled))
  | None => None
  end.
Definition fut_poll_write (inner : poll nat) : poll nat := inner.
Definition fut_poll_flush (inner : poll unit) : poll unit := inner.
Definition fut_poll_close (inner_shutdown : poll unit) : poll unit := inner_shutdown.

(** The waker that the driver and the streams of a connection share: whether
    the driver has been polled and has left its waker, and whether a poll of it
    is due. *)
Record DriverWaker := mk_waker { wk_registered : bool; wk_due : bool }.

(** A poll of the driver leaves its waker and is no longer due. *)
Definition driver_polled (w : DriverWaker) : DriverWaker := mk_waker true false.
Definition poke_driver (w : DriverWaker) : DriverWaker :=
  if wk_registered w then mk_waker true true else w.

(** [WakeDriverIo]: reads are delegated; writes, flushes and shutdowns also
    poke the driver, whatever the inner stream answers. *)
Definition wake_poll_read (inner : poll (list Z)) (w : DriverWaker) : poll (list Z) * DriverWaker := (inner, w).
Definition wake_poll_write (inner : poll nat) (w : DriverWaker) : poll nat * DriverWaker := (inner, poke_driver w).
Definition wake_poll_flush (inner : poll unit) (w : DriverWaker) : poll unit * DriverWaker := (inner, poke_driver w).
Definition wake_poll_shutdown (inner : poll unit) (w : DriverWaker) : poll unit * DriverWaker := (inner, poke_driver w).

(** What happens to a connection after its driver was first polled. *)
Inductive IoEvent :=
| EvRead (r : poll (list Z))
| EvWrite (r : poll nat)
| EvFlush (r : poll unit)
| EvShutdown (r : poll unit)
| EvDriver.
Definition io_event (w : DriverWaker) (e : IoEvent) : DriverWaker :=
  match e with
  | EvRead r => (wake_poll_read r w).2
  | EvWrite r => (wake_poll_write r w).2
  | EvFlush r => (wake_poll_flush r w).2
  | EvShutdown r => (wake_poll_shutdown r w).2
  | EvDriver => driver_polled w
  end.
Definition pokes (e : IoEvent) : bool :=
  match e with EvWrite _ | EvFlush _ | EvShutdown _ => true | _ => false end.

(** No wake-up is lost: once the driver has run, a poll of it is due exactly
    when a stream was written, flushed or shut down after its last poll.  Every
    stream is made by the driver, so none can be used before that. *)
Theorem wake_not_lost es1 es2 :
  Forall (λ e, e ≠ EvDriver) es2 →
  wk_due (foldl io_event (mk_waker false false) (es1 ++ EvDriver :: es2)) = existsb pokes es2.
Proof.
  intros H. rewrite foldl_app. cbn [foldl io_event]. unfold driver_polled.
  assert (Hd : ∀ d, wk_due (foldl io_event (mk_waker true d) es2) = d || existsb pokes es2); [|apply Hd].
  induction H as [|e es He H IH]; intros d; cbn [foldl existsb]; [by rewrite orb_false_r|].
  destruct e; cbn [io_event wake_poll_read wake_poll_write wake_poll_flush wake_poll_shutdown snd poke_driver
    wk_registered pokes orb]; rewrite ?IH; try done; by rewrite orb_true_r.
Qed.
End Session.

Lemma wake_not_lost_witness :
  wk_due (foldl io_event (mk_waker false false)
    ([EvWrite None] ++ EvDriver :: [EvRead None; EvWrite (Some (Ok 3%nat)); EvRead None])) = true.
Proof.
  apply (wake_not_lost [EvWrite None] [EvRead None; EvWrite (Some (Ok 3%nat)); EvRead None]).
  repeat constructor; discriminate.
Defined.
