(* ===== verification/Ws.v ===== *)
(** * Ws: the WebSocket transport

    [omni-transport/src/ws/mod.rs]: the upgrade of an inbound connection, the
    request of an outbound one, and [WsProxyStream], which makes a byte stream
    of a stream of messages.  HTTP parsing (httparse), base64 and the framing
    of WebSocket (tungstenite) are crates: the parser and the encoder are
    arguments, a connection is the messages it delivers and those it was
    given; once it is closed it takes no message.  The SHA-1 of the file is the code of [Shadowsocks.Sha1] again. *)

From S2P Require Import Prelude Text Net Io Hash Shadowsocks.

(** ** The upgrade *)

Definition WS_GUID : str := bs "258EAFA5-E914-47DA-95CA-C5AB0DC85B11".

(** [sha1::digest]. *)
Definition digest (data : list Z) : list Z := Sha1.finalize (Sha1.update Sha1.new data).

Record WsInboundSpec := mk_ws_in { ws_path : option str; ws_host : option str; max_concurrent_streams : option Z }.

(** What [httparse] makes of a request. *)
Inductive http_parsed :=
| HComplete (path : option str) (headers : list (str * list Z))
| HPartial
| HErr (msg : str).

Definition normalize (p : str) : str :=
  let p := match split 63 p with x :: _ => x | [] => p end in
  if bool_decide (p = []) || bool_decide (p = [47]) then [47] else trim_end_char 47 p.

Definition path_matches (actual want : str) : bool :=
  let a := normalize actual in
  let w := normalize want in
  bool_decide (a = w) || starts_with (trim_end_char 47 w ++ [47]) a.

Definition CRLF2 : list Z := [13; 10; 13; 10].
Definition MAX_HANDSHAKE : nat := Z.to_nat 65536.

(** The loop that reads up to the end of the head, with the name of the
    transport in its errors; the first turn that does
    not read ends it.  Every turn reads at least one byte, so [S MAX_HANDSHAKE]
    turns are enough. *)
Fixpoint read_head (name : str) (fuel : nat) (buf : list Z) : io (list Z) :=
  match fuel with
  | O => ret buf
  | S fuel =>
    if contains CRLF2 buf then ret buf
    else if (MAX_HANDSHAKE <? length buf)%nat then fail (other (name ++ bs ": oversized handshake"))
    else
      do! tmp := read (Z.to_nat 2048) in
      match tmp with
      | [] => fail (other (name ++ bs ": closed during handshake"))
      | _ => read_head name fuel (buf ++ tmp)
      end
  end.

(** The loop over the headers: the last key, and the verdict of the last
    [Upgrade]. *)
Definition scan_headers (headers : list (str * list Z)) : option str * bool :=
  fold_left (λ '(key, upgrade_ok) '(name, value),
    let key := if eq_ignore_ascii_case name (bs "sec-websocket-key") then Some (from_utf8_lossy value) else key in
    let upgrade_ok := if eq_ignore_ascii_case name (bs "upgrade")
                      then eq_ignore_ascii_case (from_utf8_lossy value) (bs "websocket") else upgrade_ok in
    (key, upgrade_ok)) headers (None, false).

Section Upgrade.
Context (b64 : list Z → str) (http_parse : list Z → http_parsed).

Definition accept_key (key : str) : str := b64 (digest (key ++ WS_GUID)).

(** The checks of [handshake_inbound] on the head: the key of the client. *)
Definition check_request (spec : WsInboundSpec) (head : list Z) : res ioerr str :=
  let? (path, headers) :=
    match http_parse head with
    | HComplete path headers => Ok (path, headers)
    | HPartial => Err (other (bs "ws: incomplete request"))
    | HErr e => Err (invalid_data (bs "ws: " ++ e))
    end in
  let path := default [47] path in
  let? _ := match ws_path spec with
            | Some want => if path_matches path want then Ok tt else Err (other (bs "ws: path mismatch"))
            | None => Ok tt
            end in
  let '(key, upgrade_ok) := scan_headers headers in
  if negb upgrade_ok then Err (other (bs "ws: not an upgrade request")) else
  ok_or (other (bs "ws: missing sec-websocket-key")) key.

Definition response (key : str) : str :=
  bs "HTTP/1.1 101 Switching Protocols" ++ [13; 10] ++ bs "Upgrade: websocket" ++ [13; 10]
  ++ bs "Connection: Upgrade" ++ [13; 10] ++ bs "Sec-WebSocket-Accept: " ++ accept_key key ++ CRLF2.

Definition handshake_inbound (spec : WsInboundSpec) : io unit :=
  do! buf := read_head (bs "ws") (S (S MAX_HANDSHAKE)) [] in
  do! pos <- ok_or (other (bs "ws: malformed request")) (find_sub CRLF2 buf) in
  let header_end := (pos + 4)%nat in
  do! leftover <- slice_from buf header_end in
  do! head <- slice buf 0 header_end in
  do! key <- check_request spec head in
  do! _ := write_all (response key) in
  match leftover with
  | [] => ret tt
  | _ => write_all leftover
  end.
End Upgrade.

(** ** The outbound request *)

Record WsOutboundSpec := mk_ws_out { host_header : option str; out_path : option str; skip_verify : bool }.

(** The URL and the [Host] header of [connect_outbound]. *)
Definition outbound_request (spec : WsOutboundSpec) (target : ProxyTarget) : str * str :=
  (bs "ws://" ++ target_host target ++ [58] ++ show_dec (target_port target) ++ default [47] (out_path spec),
   default (target_host target) (host_header spec)).

(** ** [WsProxyStream] *)

Inductive Message := Binary (b : list Z) | MText (t : list Z) | Ping (b : list Z) | Pong (b : list Z) | Close | Frame.

(** What a poll of the connection gives; the end of the list is [None]. *)
Inductive ws_event := WMsg (m : Message) | WErr (e : str) | WPending.

(** What a poll of the sink gives; when the list is exhausted it is ready. *)
Inductive sink_event := SReady | SErr (e : str) | SPending.

(** [ws_sent] are the messages that the connection has taken, in order;
    [ws_closed] is whether [poll_close] was called on it. *)
Record WsProxyStream := mk_ws {
  ws_events : list ws_event;
  ws_sinks : list sink_event;
  ws_sent : list Message;
  ws_closed : bool;
  read_buf : list Z;
  write_buf : list Z
}.

Definition ws_new (evs : list ws_event) (sinks : list sink_event) : WsProxyStream := mk_ws evs sinks [] false [] [].

Definition ws_err (e : str) : ioerr := other (bs "ws: " ++ e).

(** [poll_read] into [n] bytes of room; [None] is [Pending]. *)
Definition ws_give (n : nat) (w : WsProxyStream) : res ioerr (list Z) * WsProxyStream :=
  let k := Nat.min n (length (read_buf w)) in
  (Ok (take k (read_buf w)),
   mk_ws (ws_events w) (ws_sinks w) (ws_sent w) (ws_closed w) (drop k (read_buf w)) (write_buf w)).

Definition ws_with (w : WsProxyStream) (evs : list ws_event) (b : list Z) : WsProxyStream :=
  mk_ws evs (ws_sinks w) (ws_sent w) (ws_closed w) b (write_buf w).

Definition poll_read (n : nat) (w : WsProxyStream) : option (res ioerr (list Z)) * WsProxyStream :=
  let give w := let '(r, w) := ws_give n w in (Some r, w) in
  match read_buf w with
  | [] =>
    match ws_events w with
    | [] => (Some (Ok []), w)
    | WPending :: evs => (None, ws_with w evs [])
    | WErr e :: evs => (Some (Err (ws_err e)), ws_with w evs [])
    | WMsg m :: evs =>
      match m with
      | Binary b | MText b => give (ws_with w evs b)
      | Close => (Some (Ok []), ws_with w evs [])
      | Ping _ | Pong _ | Frame => give (ws_with w evs [])
      end
    end
  | _ => give w
  end.

Definition poll_write (b : list Z) (w : WsProxyStream) : nat * WsProxyStream :=
  (length b, mk_ws (ws_events w) (ws_sinks w) (ws_sent w) (ws_closed w) (read_buf w) (write_buf w ++ b)).

Definition next_sink (w : WsProxyStream) : sink_event * list sink_event :=
  match ws_sinks w with [] => (SReady, []) | x :: l => (x, l) end.
Definition set_sinks (w : WsProxyStream) (l : list sink_event) : WsProxyStream :=
  mk_ws (ws_events w) l (ws_sent w) (ws_closed w) (read_buf w) (write_buf w).

(** The flush of the connection, the last part of [poll_flush]. *)
Definition flush_inner (w : WsProxyStream) : option (res ioerr unit) * WsProxyStream :=
  let '(e, l) := next_sink w in
  let w := set_sinks w l in
  match e with
  | SReady => (Some (Ok tt), w)
  | SErr e => (Some (Err (ws_err e)), w)
  | SPending => (None, w)
  end.

Section Closing.
(** The connection takes no message once it was closed: [after_close] is the
    text of the error of [start_send] then. *)
Context (after_close : str).

(** [poll_ready], [start_send] and the flush of the connection each take the
    next event of the sink; a [start_send] is never pending. *)
Definition poll_flush (w : WsProxyStream) : option (res ioerr unit) * WsProxyStream :=
  match write_buf w with
  | [] => flush_inner w
  | data =>
    let '(e, l) := next_sink w in
    match e with
    | SPending => (None, set_sinks w l)
    | SErr e => (Some (Err (ws_err e)), mk_ws (ws_events w) l (ws_sent w) (ws_closed w) (read_buf w) [])
    | SReady =>
      let w := mk_ws (ws_events w) l (ws_sent w) (ws_closed w) (read_buf w) [] in
      if ws_closed w then (Some (Err (ws_err after_close)), w) else
      let '(e, l) := next_sink w in
      match e with
      | SErr e => (Some (Err (ws_err e)), set_sinks w l)
      | _ => flush_inner (mk_ws (ws_events w) l (ws_sent w ++ [Binary data]) (ws_closed w) (read_buf w) [])
      end
    end
  end.
End Closing.

(** [poll_close] of the connection: the first queues a close message, each
    flushes.  What is in [write_buf] stays there. *)
Definition ws_close (w : WsProxyStream) : WsProxyStream :=
  if ws_closed w then w
  else mk_ws (ws_events w) (ws_sinks w) (ws_sent w ++ [Close]) true (read_buf w) (write_buf w).

Definition poll_shutdown (w : WsProxyStream) : option (res ioerr unit) * WsProxyStream := flush_inner (ws_close w).

(** ** The upgrade, however it arrives *)

Lemma starts_with_ext p s t : (length p <= length s)%nat → starts_with p (s ++ t) = starts_with p s.
Proof.
  revert s; induction p as [|c p IH]; intros s Hl; [by destruct s, t|].
  destruct s as [|b s]; [cbn in Hl; lia|]. cbn [app starts_with]. by rewrite IH by (cbn in Hl; lia).
Qed.

Lemma find_sub_ext p s t n : find_sub p s = Some n → find_sub p (s ++ t) = Some n.
Proof.
  revert n. induction s as [|b s IH]; intros n H.
  - apply find_sub_Some in H as (a & r & E & Hn). symmetry in E. apply app_eq_nil in E as [-> E].
    apply app_eq_nil in E as [-> ->]. cbn in Hn. subst n. cbn [app]. by destruct t.
  - assert (length p <= length (b :: s))%nat as Hl.
    { apply find_sub_Some in H as (a & r & -> & _). rewrite !length_app. lia. }
    change ((b :: s) ++ t) with (b :: (s ++ t)). cbn [find_sub] in H |- *.
    rewrite (starts_with_ext p (b :: s) t Hl : starts_with p (b :: s ++ t) = _).
    destruct (starts_with p (b :: s)); [done|]. destruct (find_sub p s) as [m|]; [|done]. by rewrite (IH m).
Qed.

(** A head ends with its first empty line. *)
Definition is_head (head : list Z) : Prop :=
  (4 <= length head)%nat ∧ find_sub CRLF2 head = Some (length head - 4)%nat.
#[export] Instance is_head_dec head : Decision (is_head head).
Proof. unfold is_head. apply _. Defined.

Lemma head_prefix head buf later :
  is_head head → head = buf ++ later → later ≠ [] → contains CRLF2 buf = false.
Proof.
  intros [H4 Hf] E Hn. unfold contains. destruct (find_sub CRLF2 buf) as [n|] eqn:Eb; [|done]. exfalso.
  pose proof (find_sub_ext _ _ later _ Eb) as Hx. rewrite <- E, Hf in Hx. injection Hx as Hx.
  apply find_sub_Some in Eb as (a & r & -> & Ha). rewrite E, !length_app in Hx. cbn [length CRLF2] in Hx.
  destruct later; [done|]. cbn [length] in Hx. lia.
Qed.

Lemma read_head_spec name head payload fuel : ∀ buf later s,
  is_head head → Z.of_nat (length head) ≤ 65536 → head = buf ++ later → later ≠ [] →
  clean s → avail s = later ++ payload → (length later < fuel)%nat →
  ∃ early s', read_head name fuel buf s = (Ok (head ++ early), s')
    ∧ payload = early ++ avail s' ∧ s_out s' = s_out s ∧ s_wr s' = s_wr s.
Proof.
  assert (65535 < Z.of_nat MAX_HANDSHAKE < 65537) as Hmax by (unfold MAX_HANDSHAKE; rewrite Z2Nat.id; lia).
  assert (0 < Z.to_nat 2048)%nat as H2048 by lia.
  induction fuel as [|fuel IH]; intros buf later s Hh Hz E Hn Hc Ha Hf; [lia|]. cbn [read_head].
  rewrite (head_prefix head buf later) by done.
  rewrite (proj2 (Nat.ltb_ge _ _)) by (rewrite E, length_app in Hz; lia).
  destruct (read_clean (Z.to_nat 2048) s H2048 Hc) as (b & s1 & Hr & Hc1 & Ha1 & Hb & Ho).
  pose proof (read_wr (Z.to_nat 2048) s) as Hw. rewrite Hr in Hw. cbn [snd] in Hw.
  unfold io_bind at 1. rewrite Hr.
  destruct b as [|x b]; [rewrite Hb in Ha by done; symmetry in Ha; by apply app_eq_nil in Ha as [-> _]|].
  rewrite Ha in Ha1. apply cut_cases in Ha1 as [(later' & El & Hn' & Ha')|(early & Eb & Ep)].
  - rewrite El, length_app in Hf. cbn [length] in Hf.
    destruct (IH (buf ++ x :: b) later' s1) as (early & s' & -> & H1 & H2 & H3); try done; [|lia|].
    { by rewrite <- app_assoc, <- El. }
    exists early, s'. by rewrite H2, H3.
  - rewrite Eb, app_assoc, <- E. exists early, s1. split; [|by rewrite <- Ep].
    destruct fuel as [|fuel]; [destruct later; [done | cbn in Hf; lia]|]. cbn [read_head].
    destruct Hh as [H4 Hfs]. unfold contains. by rewrite (find_sub_ext _ _ early _ Hfs).
Qed.

Section UpgradeProofs.
Context (b64 : list Z → str) (http_parse : list Z → http_parsed).

Lemma handshake_inbound_spec spec head payload segs :
  is_head head → Z.of_nat (length head) ≤ 65536 → concat segs = head ++ payload →
  ∃ early s', payload = early ++ avail s'
    ∧ match check_request http_parse spec head with
      | Ok key => handshake_inbound b64 http_parse spec (stream_of segs) = (Ok tt, s')
                  ∧ s_out s' = response b64 key ++ early
      | Err e => handshake_inbound b64 http_parse spec (stream_of segs) = (Err e, s') ∧ s_out s' = []
      | Panic => True
      end.
Proof.
  intros Hh Hz Hs.
  assert (65535 < Z.of_nat MAX_HANDSHAKE < 65537) as Hmax by (unfold MAX_HANDSHAKE; rewrite Z2Nat.id; lia).
  unfold handshake_inbound. remember (S (S MAX_HANDSHAKE)) as fuel eqn:Efuel.
  destruct (read_head_spec (bs "ws") head payload fuel [] head (stream_of segs)) as (early & s1 & Hr & Hp & Ho & Hw);
    [done|done|done| |apply clean_stream_of|by rewrite avail_stream_of|lia|].
  { destruct Hh as [H4 _]. by destruct head; [cbn in H4; lia|]. }
  destruct Hh as [H4 Hf]. unfold io_bind, lift. rewrite Hr, (find_sub_ext _ _ early _ Hf). cbn [ok_or].
  replace (length head - 4 + 4)%nat with (length head) by lia.
  rewrite slice_from_app by done. rewrite (slice_mid [] head early 0 (length head)) by done.
  destruct (check_request http_parse spec head) as [key|e|].
  - rewrite write_all_sure by done. exists early. destruct early as [|x early].
    + eexists. split; [|split; [done|]]; [done|]. cbn [s_out]. by rewrite Ho, app_nil_r.
    + eexists. rewrite write_all_sure by done. split; [|split; [done|]]; [done|]. cbn [s_out]. by rewrite Ho.
  - exists early, s1. split; [done|]. split; [done|]. by rewrite Ho.
  - by exists early, s1.
Qed.
End UpgradeProofs.

(** The values of the headers with a given name, in order. *)
Definition header_values (name : str) (headers : list (str * list Z)) : list str :=
  omap (λ h, if eq_ignore_ascii_case h.1 name then Some (from_utf8_lossy h.2) else None) headers.

Lemma scan_headers_spec headers :
  scan_headers headers
  = (last (header_values (bs "sec-websocket-key") headers),
     match last (header_values (bs "upgrade") headers) with
     | Some v => eq_ignore_ascii_case v (bs "websocket") | None => false end).
Proof.
  induction headers as [|[name value] headers IH] using rev_ind; [done|].
  unfold scan_headers in *. rewrite fold_left_app, IH. cbn [fold_left]. unfold header_values.
  rewrite !omap_app. cbn [omap list_omap fst snd].
  destruct (eq_ignore_ascii_case name (bs "sec-websocket-key")), (eq_ignore_ascii_case name (bs "upgrade"));
    rewrite ?app_nil_r, ?last_snoc; done.
Qed.

(** What an upgrade request needs. *)
Definition acceptable (spec : WsInboundSpec) (path : option str) (headers : list (str * list Z)) (key : str) : Prop :=
  (∀ want, ws_path spec = Some want → path_matches (default [47] path) want = true)
  ∧ (∃ v, last (header_values (bs "upgrade") headers) = Some v ∧ eq_ignore_ascii_case v (bs "websocket") = true)
  ∧ last (header_values (bs "sec-websocket-key") headers) = Some key.

Lemma check_request_spec http_parse spec head path headers :
  http_parse head = HComplete path headers →
  match check_request http_parse spec head with
  | Ok key => acceptable spec path headers key
  | Err _ => ∀ key, ¬ acceptable spec path headers key
  | Panic => False
  end.
Proof.
  intros Hp. unfold check_request, acceptable. rewrite Hp, scan_headers_spec.
  destruct (ws_path spec) as [want|].
  1: destruct (path_matches _ want) eqn:Em; [|intros key (H & _); by rewrite H in Em].
  all: destruct (last (header_values (bs "upgrade") headers)) as [v|]; [|intros key (_ & (? & ? & _) & _); done].
  all: destruct (eq_ignore_ascii_case v _) eqn:Ev; cbn [negb]; [|intros key (_ & (? & [= <-] & ?) & _); congruence].
  all: destruct (last (header_values (bs "sec-websocket-key") headers)) as [key|]; cbn [ok_or]; [|by intros key (_ & _ & ?)].
  all: split; [intros w Hw; first [done | by injection Hw as <-] | split; [by exists v | done]].
Qed.

(** C26: the upgrade of an inbound connection.  However the request head and
    the bytes after it arrive, the connection is upgraded exactly when the
    path matches, the last [Upgrade] header is [websocket] and there is a key:
    then the response with the key's digest is written, followed by the bytes
    that were read beyond the head ([early], which go back to the client and
    are no longer in the stream).  Otherwise the handshake fails and nothing is
    written. *)
Theorem ws_upgrade b64 http_parse spec head payload segs path headers :
  is_head head → Z.of_nat (length head) ≤ 65536 → concat segs = head ++ payload →
  http_parse head = HComplete path headers →
  ∃ early s', payload = early ++ avail s'
    ∧ ((∃ key, acceptable spec path headers key
         ∧ handshake_inbound b64 http_parse spec (stream_of segs) = (Ok tt, s')
         ∧ s_out s' = response b64 key ++ early)
       ∨ ((∀ key, ¬ acceptable spec path headers key)
         ∧ (∃ e, handshake_inbound b64 http_parse spec (stream_of segs) = (Err e, s')) ∧ s_out s' = [])).
Proof.
  intros Hh Hz Hs Hp. pose proof (check_request_spec http_parse spec head path headers Hp) as Hc.
  destruct (handshake_inbound_spec b64 http_parse spec head payload segs Hh Hz Hs) as (early & s' & He & H).
  exists early, s'. split; [done|].
  destruct (check_request http_parse spec head) as [key|e|]; [|destruct H; right; eauto | done].
  left. exists key. by destruct H.
Qed.

(** A parser that knows one request. *)
Definition one_request (head : list Z) : http_parsed :=
  HComplete (Some (bs "/ray")) [(bs "Upgrade", bs "websocket"); (bs "Sec-WebSocket-Key", bs "a2V5")].

Lemma ws_upgrade_witness :
  let segs := [bs "GET /ray HTTP/1.1"; [13; 10; 13]; [10; 7; 8]; [9]] in
  ∃ early s', [7; 8; 9] = early ++ avail s'
    ∧ handshake_inbound id one_request (mk_ws_in (Some (bs "/ray")) None None) (stream_of segs) = (Ok tt, s').
Proof.
  intros segs.
  destruct (ws_upgrade id one_request (mk_ws_in (Some (bs "/ray")) None None) (bs "GET /ray HTTP/1.1" ++ CRLF2)
              [7; 8; 9] segs (Some (bs "/ray")) [(bs "Upgrade", bs "websocket"); (bs "Sec-WebSocket-Key", bs "a2V5")])
    as (early & s' & He & [(key & _ & H & _)|[H _]]); [by_decide | by_decide | reflexivity | reflexivity | by exists early, s' |].
  exfalso. apply (H (bs "a2V5")). split; [by intros want [= <-]|]. split; [|reflexivity].
  by exists (bs "websocket").
Defined.

(** ** The byte stream *)

(** A reader that reads [n] bytes at a time until it gets none. *)
Definition ws_read_all (fuel n : nat) (w : WsProxyStream) : list Z * outcome := read_all (poll_read n) fuel w.

(** What such a reader should see: the data of the messages up to the first
    event that is not a message with data. *)
Fixpoint delivered (evs : list ws_event) : list Z * outcome :=
  match evs with
  | [] => ([], OEof)
  | WMsg (Binary (x :: b)) :: evs | WMsg (MText (x :: b)) :: evs =>
    let '(l, o) := delivered evs in ((x :: b) ++ l, o)
  | WMsg _ :: _ => ([], OEof)
  | WErr e :: _ => ([], OErr (ws_err e))
  | WPending :: _ => ([], OWait)
  end.

Definition ws_delivers (w : WsProxyStream) : list Z * outcome :=
  (read_buf w ++ (delivered (ws_events w)).1, (delivered (ws_events w)).2).

(** Giving out bytes: the ones given and the ones kept are the ones in hand. *)
Lemma ws_give_delivers n w x b :
  (0 < n)%nat → read_buf w = x :: b →
  let '(r, w') := ws_give n w in
  match r with
  | Ok (y :: c) => ws_delivers w = ((y :: c) ++ (ws_delivers w').1, (ws_delivers w').2)
  | _ => False
  end.
Proof.
  intros Hn Hb. unfold ws_give, ws_delivers. rewrite Hb. cbn [read_buf ws_events fst snd].
  destruct n as [|n]; [lia|]. cbn [length Nat.min take drop app]. by rewrite app_assoc, take_drop.
Qed.

Lemma ws_polls n : (0 < n)%nat → polls_to (poll_read n) ws_delivers.
Proof.
  intros Hn w. unfold poll_read.
  destruct (read_buf w) as [|x b] eqn:Hb; cycle 1.
  { pose proof (ws_give_delivers n w x b Hn Hb) as Hg. destruct (ws_give n w) as [[[|y c]|e|] w']; done. }
  assert (∀ x b evs, (ws_delivers w).1 = x :: b ++ (delivered evs).1 → (ws_delivers w).2 = (delivered evs).2 →
    match (let '(r, w0) := ws_give n (ws_with w evs (x :: b)) in (Some r, w0)) with
    | (Some (Ok (y :: c)), st') => ws_delivers w = ((y :: c) ++ (ws_delivers st').1, (ws_delivers st').2)
    | _ => False end) as Hmsg.
  { intros x b evs E1 E2. pose proof (ws_give_delivers n (ws_with w evs (x :: b)) x b Hn eq_refl) as Hg.
    destruct (ws_give n (ws_with w evs (x :: b))) as [[[|y c]|e|] w']; [done| |done|done]. rewrite <- Hg.
    rewrite (surjective_pairing (ws_delivers w)), E1, E2. done. }
  assert (∀ evs, ws_give n (ws_with w evs []) = (Ok [], ws_with w evs [])) as Hnone
    by (intros; unfold ws_give; cbn [ws_with read_buf length]; by rewrite Nat.min_0_r).
  destruct (ws_events w) as [|[[[|x b]|[|x b]|b|b| |]|e|] evs] eqn:He;
    rewrite ?Hnone; try (unfold ws_delivers; by rewrite Hb, He).
  all: specialize (Hmsg x b evs); unfold ws_delivers in Hmsg at 1 2; rewrite Hb, He in Hmsg; cbn [app delivered] in Hmsg;
    destruct (delivered evs); specialize (Hmsg eq_refl eq_refl);
    destruct (ws_give n _) as [[[|y c]|e|] w']; done.
Qed.

Lemma ws_read_all_spec n fuel w : (0 < n)%nat →
  (length (read_buf w) + length (delivered (ws_events w)).1 < fuel)%nat →
  ws_read_all fuel n w = (read_buf w ++ (delivered (ws_events w)).1, (delivered (ws_events w)).2).
Proof.
  intros Hn Hf. apply (read_all_delivers (poll_read n) ws_delivers); [by apply ws_polls|].
  unfold ws_delivers. cbn [fst]. rewrite length_app. done.
Qed.

(** *** Writing *)

Inductive ws_op := OWrite (b : list Z) | OFlush | OShutdown.
#[export] Instance ws_op_eq_dec : EqDecision ws_op.
Proof. solve_decision. Defined.

(** All that was written, what was written since the last flush, and what was
    done before the first shutdown. *)
Definition written (ops : list ws_op) : list Z :=
  concat (map (λ op, match op with OWrite b => b | _ => [] end) ops).
Definition unflushed (ops : list ws_op) : list Z :=
  fold_left (λ acc op, match op with OWrite b => acc ++ b | OFlush => [] | OShutdown => acc end) ops [].
Fixpoint before_shutdown (ops : list ws_op) : list ws_op :=
  match ops with
  | [] | OShutdown :: _ => []
  | op :: ops => op :: before_shutdown ops
  end.

Lemma written_snoc ops op : written (ops ++ [op]) = written ops ++ match op with OWrite b => b | _ => [] end.
Proof. unfold written. rewrite map_app, concat_app. cbn [map concat]. by rewrite app_nil_r. Qed.

Lemma unflushed_snoc ops op :
  unflushed (ops ++ [op]) = match op with OWrite b => unflushed ops ++ b | OFlush => [] | OShutdown => unflushed ops end.
Proof. unfold unflushed. by rewrite fold_left_app. Qed.

Lemma before_shutdown_none ops : OShutdown ∉ ops → before_shutdown ops = ops.
Proof.
  induction ops as [|op ops IH]; [done|]. intros [H1 H2]%not_elem_of_cons. cbn [before_shutdown].
  destruct op; [by rewrite IH..|done].
Qed.

Lemma before_shutdown_app ops ops' : OShutdown ∈ ops → before_shutdown (ops ++ ops') = before_shutdown ops.
Proof.
  induction ops as [|op ops IH]; intros H; [by apply elem_of_nil in H|]. cbn [app before_shutdown].
  destruct op; [..|done]; (apply elem_of_cons in H as [H|H]; [done|by rewrite IH]).
Qed.

Lemma before_shutdown_snoc ops : OShutdown ∉ ops → before_shutdown (ops ++ [OShutdown]) = ops.
Proof.
  induction ops as [|op ops IH]; [done|]. intros [H1 H2]%not_elem_of_cons. cbn [app before_shutdown].
  destruct op; [by rewrite IH..|done].
Qed.

(** Data messages, then whatever follows them. *)
Lemma delivered_data ms evs : Forall (λ b, b ≠ []) ms →
  delivered (map (λ b, WMsg (Binary b)) ms ++ evs) = (concat ms ++ (delivered evs).1, (delivered evs).2).
Proof.
  induction 1 as [|[|x b] ms Hb H IH]; cbn [map app concat delivered]; [by destruct (delivered evs)|done|].
  rewrite IH. by rewrite app_assoc.
Qed.

Section Writing.
Context (after_close : str).

Definition ws_do (w : WsProxyStream) (op : ws_op) : WsProxyStream :=
  match op with
  | OWrite b => (poll_write b w).2
  | OFlush => (poll_flush after_close w).2
  | OShutdown => (poll_shutdown w).2
  end.
Definition ws_run (ops : list ws_op) (w : WsProxyStream) : WsProxyStream := fold_left ws_do ops w.

(** The connection's messages: the data, and the close message once there was
    a shutdown. *)
Record writer_inv (ops : list ws_op) (w : WsProxyStream) : Prop := mk_writer_inv {
  wi_sinks : ws_sinks w = [];
  wi_closed : ws_closed w = bool_decide (OShutdown ∈ ops);
  wi_buf : write_buf w = unflushed ops;
  wi_sent : ∃ ms, ws_sent w = map Binary ms ++ (if ws_closed w then [Close] else []) ∧ Forall (λ b, b ≠ []) ms
              ∧ written (before_shutdown ops) = concat ms ++ unflushed (before_shutdown ops)
}.

Lemma writer_inv_do ops w op : writer_inv ops w → writer_inv (ops ++ [op]) (ws_do w op).
Proof.
  intros [H1 H2 H3 (ms & H4 & H5 & H6)].
  destruct w as [evs sinks sent cl rb wb]. cbn [ws_sinks ws_sent ws_closed write_buf] in *. subst sinks cl wb sent.
  assert (bool_decide (OShutdown ∈ ops ++ [op]) = bool_decide (OShutdown ∈ ops) || bool_decide (op = OShutdown)) as Hc.
  { rewrite <- bool_decide_or. apply bool_decide_ext. rewrite elem_of_app, list_elem_of_singleton. naive_solver. }
  destruct (bool_decide_reflect (OShutdown ∈ ops)) as [Hin|Hin]; cbn [orb] in Hc.
  - pose proof (before_shutdown_app ops [op] Hin) as Hb. destruct op as [b| |]; cbn [ws_do].
    + split; [done | by rewrite Hc | by rewrite unflushed_snoc | exists ms; by rewrite Hb].
    + unfold poll_flush. cbn [write_buf next_sink ws_sinks ws_closed].
      destruct (unflushed ops) as [|x buf] eqn:E; cbn [flush_inner next_sink ws_sinks set_sinks snd];
        (split; [done | by rewrite Hc | by rewrite unflushed_snoc | exists ms; by rewrite Hb]).
    + unfold poll_shutdown, ws_close. cbn [ws_closed flush_inner next_sink ws_sinks set_sinks snd].
      split; [done | by rewrite Hc | by rewrite unflushed_snoc | exists ms; by rewrite Hb].
  - rewrite before_shutdown_none in H6 by done.
    assert (op ≠ OShutdown → before_shutdown (ops ++ [op]) = ops ++ [op]) as Hb.
    { intros Hop. apply before_shutdown_none. rewrite elem_of_app, list_elem_of_singleton. intuition congruence. }
    destruct op as [b| |]; cbn [ws_do].
    + split; [done | by rewrite Hc | by rewrite unflushed_snoc|]. exists ms. rewrite Hb, written_snoc, unflushed_snoc, H6 by done.
      by rewrite app_assoc.
    + unfold poll_flush. cbn [write_buf next_sink ws_sinks ws_closed].
      destruct (unflushed ops) as [|x buf] eqn:E; cbn [flush_inner next_sink ws_sinks set_sinks snd];
        (split; [done | by rewrite Hc | by rewrite unflushed_snoc|]); cbn [ws_sent ws_closed].
      * exists ms. rewrite Hb, written_snoc, unflushed_snoc, H6 by done. by rewrite !app_nil_r.
      * exists (ms ++ [x :: buf]). rewrite Hb, written_snoc, unflushed_snoc, H6 by done.
        rewrite map_app, concat_app, !app_nil_r. cbn [concat]. rewrite app_nil_r.
        split; [done|]. split; [|done]. apply Forall_app. split; [done|]. by constructor.
    + unfold poll_shutdown, ws_close. cbn [ws_closed flush_inner next_sink ws_sinks set_sinks snd].
      split; [done | by rewrite Hc | by rewrite unflushed_snoc|]. cbn [ws_sent ws_closed].
      exists ms. rewrite before_shutdown_snoc by done. by rewrite app_nil_r.
Qed.

Lemma writer_inv_run ops : writer_inv ops (ws_run ops (ws_new [] [])).
Proof.
  induction ops as [|op ops IH] using rev_ind.
  - split; [done..|]. by exists [].
  - unfold ws_run. rewrite fold_left_app. cbn [fold_left]. by apply writer_inv_do.
Qed.

(** The peer of a connection that has taken these messages: it gets them, and
    then waits for more. *)
Definition ws_peer (w : WsProxyStream) : WsProxyStream := ws_new (map WMsg (ws_sent w) ++ [WPending]) [].

(** C25: bytes through a WebSocket.  Of what is written, in pieces of any sizes
    with flushes and shutdowns anywhere, the peer reads, with reads of any size,
    exactly the bytes up to the last flush before the first shutdown, in order.
    It then waits for more, and gets the end of the stream if there was a
    shutdown, and only then.  What was written and not flushed before the
    shutdown is lost, and what comes after it too, where a flush fails.  A
    reader also takes for the end a message without data, so that a ping hides
    whatever follows it. *)
Theorem ws_transfer ops n :
  (0 < n)%nat →
  let w := ws_run ops (ws_new [] []) in
  ∃ sent,
    written (before_shutdown ops) = sent ++ unflushed (before_shutdown ops)
  ∧ (∀ fuel, (length sent < fuel)%nat →
       ws_read_all fuel n (ws_peer w) = (sent, if bool_decide (OShutdown ∈ ops) then OEof else OWait))
  ∧ (OShutdown ∈ ops → unflushed ops ≠ [] → (poll_flush after_close w).1 = Some (Err (ws_err after_close)))
  ∧ ∀ m rest fuel, OShutdown ∉ ops → m = Ping [] ∨ m = Pong [] ∨ m = Close → (length sent < fuel)%nat →
      ws_read_all fuel n (ws_new (map WMsg (ws_sent w) ++ WMsg m :: rest) []) = (sent, OEof).
Proof.
  intros Hn w. destruct (writer_inv_run ops) as [H1 H2 H3 (ms & H4 & H5 & H6)]. fold w in H1, H2, H3, H4.
  assert (∀ evs fuel, (length (concat ms ++ (delivered evs).1) < fuel)%nat →
            ws_read_all fuel n (ws_new (map (λ b, WMsg (Binary b)) ms ++ evs) [])
            = (concat ms ++ (delivered evs).1, (delivered evs).2)) as Hread.
  { intros evs fuel Hf. rewrite ws_read_all_spec; cbn [ws_new read_buf ws_events app length Nat.add]; rewrite ?delivered_data by done; done. }
  exists (concat ms). split; [done|]. split; [|split].
  - intros fuel Hf. unfold ws_peer. rewrite H4, H2, map_app, map_map, <- app_assoc.
    rewrite Hread; destruct (bool_decide _); cbn [map app delivered fst snd]; by rewrite ?app_nil_r.
  - intros Hin Hu. unfold poll_flush, next_sink. rewrite H3, H1. cbn [ws_closed]. rewrite H2, bool_decide_eq_true_2 by done.
    by destruct (unflushed ops).
  - intros m rest fuel Hin Hm Hf. rewrite H4, H2, bool_decide_eq_false_2, app_nil_r, map_map by done.
    rewrite Hread; destruct Hm as [->|[->| ->]]; cbn [delivered fst snd]; by rewrite app_nil_r.
Qed.
End Writing.

Lemma ws_transfer_witness :
  let w := ws_run [] [OWrite [1; 2]; OWrite [3]; OFlush; OWrite [4]; OShutdown; OWrite [5]; OFlush] (ws_new [] []) in
  ∃ sent, [1; 2; 3; 4] = sent ++ [4] ∧ ws_read_all 9 2 (ws_peer w) = (sent, OEof).
Proof.
  intros w.
  destruct (ws_transfer [] [OWrite [1; 2]; OWrite [3]; OFlush; OWrite [4]; OShutdown; OWrite [5]; OFlush] 2 ltac:(lia))
    as (sent & H & Hr & _).
  exists sent. split; [exact H|]. apply Hr.
  apply (f_equal length) in H. rewrite length_app in H.
  change (length (written _)) with 4%nat in H. lia.
Defined.
