(* ===== verification/H2.v ===== *)
(** * H2: the HTTP/2 transports and the HTTP upgrade

    [omni-transport/src/h2/mod.rs]: a byte stream over an HTTP/2 stream, the
    requests a server answers and the ones a client makes, with gRPC
    ([grpc/mod.rs]), xhttp ([xhttp/mod.rs]) and naive
    ([omni-proto/src/proto/naive/]) on top; [omni-transport/src/httpup/mod.rs].
    The h2 and httparse crates are libraries: a stream is the chunks it
    delivers and the capacities it grants, a request is its parts. *)

From S2P Require Import Prelude Text Net Io Core Ws.

Definition h2_err (m : str) : ioerr := other (bs "h2: " ++ m).

(** ** [H2Stream] *)

(** What a poll for data gives; the end of the list is the end of the body. *)
Inductive h2_event := HData (b : list Z) | HFail (e : str) | HPending.

(** What a poll for capacity gives, with the outcome of the [send_data] after
    it; when the list is exhausted it is pending. *)
Inductive cap_event := CapOk (n : nat) (sent : res str unit) | CapErr (e : str) | CapNone | CapPending.

(** [h2_sent] are the frames given to the library, with their end flag; it sends
    none after one with that flag. *)
Record H2Stream := mk_h2 {
  h2_in : list h2_event;
  h2_caps : list cap_event;
  h2_sent : list (list Z * bool);
  wbuf : list Z;
  h2_eof : bool
}.

Definition h2_new (evs : list h2_event) (caps : list cap_event) : H2Stream := mk_h2 evs caps [] [] false.

(** [poll_read] into [n] bytes of room; [None] is [Pending]. *)
Definition h2_poll_read (n : nat) (s : H2Stream) : option (res ioerr (list Z)) * H2Stream :=
  match wbuf s with
  | _ :: _ =>
    let k := Nat.min n (length (wbuf s)) in
    (Some (Ok (take k (wbuf s))), mk_h2 (h2_in s) (h2_caps s) (h2_sent s) (drop k (wbuf s)) (h2_eof s))
  | [] =>
    if h2_eof s then (Some (Ok []), s) else
    match h2_in s with
    | HData chunk :: evs =>
      let capped := Nat.min n (length chunk) in
      (Some (Ok (take capped chunk)),
       mk_h2 evs (h2_caps s) (h2_sent s) (if (capped <? length chunk)%nat then drop capped chunk else []) false)
    | HFail e :: evs => (Some (Err (h2_err e)), mk_h2 evs (h2_caps s) (h2_sent s) [] false)
    | HPending :: evs => (None, mk_h2 evs (h2_caps s) (h2_sent s) [] false)
    | [] => (Some (Ok []), mk_h2 [] (h2_caps s) (h2_sent s) [] true)
    end
  end.

Definition with_caps (s : H2Stream) (caps : list cap_event) (sent : list (list Z * bool)) : H2Stream :=
  mk_h2 (h2_in s) caps sent (wbuf s) (h2_eof s).

Definition h2_poll_write (buf : list Z) (s : H2Stream) : option (res ioerr nat) * H2Stream :=
  match h2_caps s with
  | CapOk n r :: caps =>
    let k := Nat.min n (length buf) in
    match r with
    | Ok _ => (Some (Ok k), with_caps s caps (h2_sent s ++ [(take k buf, false)]))
    | Err e => (Some (Err (h2_err e)), with_caps s caps (h2_sent s))
    | Panic => (Some Panic, with_caps s caps (h2_sent s))
    end
  | CapErr e :: caps => (Some (Err (h2_err e)), with_caps s caps (h2_sent s))
  | CapNone :: caps => (Some (Err (h2_err (bs "capacity closed"))), with_caps s caps (h2_sent s))
  | CapPending :: caps => (None, with_caps s caps (h2_sent s))
  | [] => (None, s)
  end.

Definition h2_poll_shutdown (s : H2Stream) : H2Stream := with_caps s (h2_caps s) (h2_sent s ++ [([], true)]).

(** ** Requests *)

(** A request as the server's library gives it. *)
Record H2Request := mk_request {
  rq_method : str;
  rq_authority : option str;
  rq_path : str
}.

(** A request as a client builds it. *)
Record ClientRequest := mk_client_request {
  cr_method : str;
  cr_uri : str;
  cr_headers : list (str * str)
}.

Definition grpc_path_for (service_name : str) : str := [47] ++ trim_start_char 47 service_name ++ bs "/Tun".

(** What [serve_requests] answers to a request: 404, or 200. *)
Definition answer_request (expect_path_prefix : option str) (rq : H2Request) : Z :=
  match expect_path_prefix with
  | Some prefix =>
    if negb (starts_with prefix (rq_path rq)) && negb (bool_decide (normalize (rq_path rq) = normalize prefix))
    then 404 else 200
  | None => 200
  end.

(** A connection: the error of its handshake, or what [accept] gives until it
    gives nothing.  Each request comes with its stream and whether the library
    takes the response to it. *)
Definition h2_conn (St : Type) : Type := res str (list (res str (H2Request * St * bool))).

(** The requests before the first error. *)
Fixpoint accepted {St} (rqs : list (res str (H2Request * St * bool))) : list (H2Request * St * bool) :=
  match rqs with
  | Ok x :: rqs => x :: accepted rqs
  | _ => []
  end.

(** Each answer with the stream its handler is given. *)
Definition serve_requests {St} (expect_path_prefix : option str) (conn : h2_conn St) : res ioerr (list (Z * option St)) :=
  let? rqs := map_err h2_err conn in
  Ok (map (λ '(rq, st, taken),
        let status := answer_request expect_path_prefix rq in
        (status, if (status =? 200) && taken then Some st else None)) (accepted rqs)).

(** What [serve_connect] answers: a status, and the authority with 200. *)
Definition answer_connect (rq : H2Request) : Z * option str :=
  if negb (bool_decide (rq_method rq = bs "CONNECT")) then (405, None) else
  match rq_authority rq with
  | Some a => (200, Some a)
  | None => (400, None)
  end.

Definition serve_connect {St} (conn : h2_conn St) : res ioerr (list (Z * option (St * str))) :=
  let? rqs := map_err h2_err conn in
  Ok (map (λ '(rq, st, taken),
        match answer_connect rq with
        | (status, Some a) => (status, if taken : bool then Some (st, a) else None)
        | (status, None) => (status, None)
        end) (accepted rqs)).

Definition proxy_request (method path authority content_type : str) : ClientRequest :=
  mk_client_request method (bs "https://" ++ authority ++ path)
    [(bs "content-type", content_type); (bs "te", bs "trailers")].

Record GrpcOutboundSpec := mk_grpc { g_service_name : str; g_host_header : option str }.
Record XhttpOutboundSpec := mk_xhttp { x_path : option str; x_host : option str; x_mode : option str }.

Definition naive_authority (target : ProxyTarget) : str :=
  match target with Domain h p => h ++ [58] ++ show_dec p | Tcp a => show_sockaddr a end.

Section Clients.
(** [send] is the library: building and sending a request and waiting for the
    status, with the stream or the text of the error; [show_status] is the text
    of a status. *)
Context {St : Type} (send : ClientRequest → res str (Z * St)) (show_status : Z → str).

Definition open_proxy_stream (method path authority content_type : str) : res ioerr St :=
  let? (status, st) := map_err h2_err (send (proxy_request method path authority content_type)) in
  if (200 <=? status) && (status <? 300) then Ok st
  else Err (h2_err (bs "upstream responded " ++ show_status status)).

Definition grpc_connect (spec : GrpcOutboundSpec) (target : ProxyTarget) : res ioerr St :=
  open_proxy_stream (bs "POST") (grpc_path_for (g_service_name spec))
    (default (target_host target) (g_host_header spec)) (bs "application/grpc").
Definition xhttp_connect (spec : XhttpOutboundSpec) (target : ProxyTarget) : res ioerr St :=
  open_proxy_stream (bs "POST") (default [47] (x_path spec)) (default (target_host target) (x_host spec)) [].
Definition naive_connect (target : ProxyTarget) : res ioerr St :=
  open_proxy_stream (bs "CONNECT") [47] (naive_authority target) [].
End Clients.

Definition grpc_serve {St} (service_name : str) (conn : h2_conn St) : res ioerr (list (Z * option St)) :=
  serve_requests (Some (grpc_path_for service_name)) conn.
Definition xhttp_serve {St} (expect_path : option str) (conn : h2_conn St) : res ioerr (list (Z * option St)) :=
  serve_requests expect_path conn.
Definition naive_serve {St} (conn : h2_conn St) : res ioerr (list (Z * option (St * str))) := serve_connect conn.

(** ** The HTTP upgrade ([httpup/mod.rs]) *)

Record HttpUpSpec := mk_httpup { hu_path : option str; hu_host : option str }.

Definition upgrade_response : list Z :=
  bs "HTTP/1.1 101 Switching Protocols" ++ [13; 10] ++ bs "Upgrade: websocket" ++ [13; 10]
  ++ bs "Connection: Upgrade" ++ CRLF2.

(** [http_path] is the path after parsing, or the parser's error. *)
Definition check_upgrade (http_path : list Z → res str (option str)) (spec : HttpUpSpec) (buf : list Z) : res ioerr unit :=
  let? path := map_err (λ e, invalid_data (bs "httpup: " ++ e)) (http_path buf) in
  if bool_decide (default [] path = []) then Err (other (bs "httpup: missing path")) else
  match hu_path spec with
  | Some want =>
    let actual := default [47] path in
    if negb (bool_decide (normalize actual = normalize want))
       && negb (starts_with (trim_end_char 47 (normalize want) ++ [47]) (normalize actual))
    then Err (other (bs "httpup: path mismatch")) else Ok tt
  | None => Ok tt
  end.

Definition httpup_inbound (http_path : list Z → res str (option str)) (spec : HttpUpSpec) : io unit :=
  do! buf := read_head (bs "httpup") (S (S MAX_HANDSHAKE)) [] in
  do! _ <- check_upgrade http_path spec buf in
  write_all upgrade_response.

(** ** Bytes over an HTTP/2 stream *)

Fixpoint h2_delivered (evs : list h2_event) : list Z * outcome :=
  match evs with
  | [] => ([], OEof)
  | HData [] :: _ => ([], OEof)
  | HData b :: evs => let '(l, o) := h2_delivered evs in (b ++ l, o)
  | HFail e :: _ => ([], OErr (h2_err e))
  | HPending :: _ => ([], OWait)
  end.

Definition h2_delivers (s : H2Stream) : list Z * outcome :=
  if h2_eof s then (wbuf s, OEof) else (wbuf s ++ (h2_delivered (h2_in s)).1, (h2_delivered (h2_in s)).2).

Lemma h2_polls n : (0 < n)%nat → polls_to (h2_poll_read n) h2_delivers.
Proof.
  intros Hn [evs caps sent buf eof]. unfold h2_poll_read. cbn [wbuf h2_eof h2_in h2_caps h2_sent].
  destruct n as [|n]; [lia|]. destruct buf as [|x buf].
  - destruct eof; [done|]. destruct evs as [|[[|x b]|e|] evs]; [done|done| |done|done].
    cbn [length Nat.min take drop]. unfold h2_delivers. cbn [wbuf h2_eof h2_in h2_delivered app].
    destruct (h2_delivered evs) as [l o]. cbn [fst snd].
    assert ((if (S (Nat.min n (length b)) <? S (length b))%nat then drop (Nat.min n (length b)) b else []) = drop (Nat.min n (length b)) b) as ->.
    { destruct (Nat.ltb_spec (S (Nat.min n (length b))) (S (length b))); [done|]. by rewrite drop_ge by lia. }
    by rewrite app_assoc, take_drop.
  - cbn [length Nat.min take drop]. unfold h2_delivers. cbn [wbuf h2_eof h2_in].
    destruct eof; cbn [fst snd app]; [by rewrite take_drop | by rewrite app_assoc, take_drop].
Qed.

(** [AsyncWriteExt::write_all] on such a stream: [None] while it waits; a write
    of no bytes is an error. *)
Fixpoint h2_write_all (fuel : nat) (buf : list Z) (s : H2Stream) : option (res ioerr unit) * H2Stream :=
  match fuel with
  | O => (None, s)
  | S fuel =>
    match buf with
    | [] => (Some (Ok tt), s)
    | _ =>
      match h2_poll_write buf s with
      | (None, s) => (None, s)
      | (Some (Ok 0%nat), s) => (Some (Err (mk_ioerr Other (bs "failed to write whole buffer"))), s)
      | (Some (Ok k), s) => h2_write_all fuel (drop k buf) s
      | (Some (Err e), s) => (Some (Err e), s)
      | (Some Panic, s) => (Some Panic, s)
      end
    end
  end.

(** What the peer's library makes of the frames it was sent: their data, up to
    the frame with the end flag, after which nothing is sent; without it the
    peer waits for more. *)
Fixpoint as_events (sent : list (list Z * bool)) : list h2_event :=
  match sent with
  | [] => [HPending]
  | (b, false) :: sent => HData b :: as_events sent
  | (b, true) :: _ => [HData b]
  end.

Definition h2_peer (s : H2Stream) : H2Stream := h2_new (as_events (h2_sent s)) [].

Definition data_frames (sent : list (list Z * bool)) : Prop := Forall (λ f, f.2 = false ∧ f.1 ≠ []) sent.

Lemma delivered_frames sent rest : data_frames sent →
  h2_delivered (as_events (sent ++ rest))
  = (concat (map fst sent) ++ (h2_delivered (as_events rest)).1, (h2_delivered (as_events rest)).2).
Proof.
  induction 1 as [|[b e] sent [He Hb] H IH]; cbn [app map concat]; [by destruct (h2_delivered _)|].
  cbn [fst snd] in He, Hb. subst e. cbn [as_events]. destruct b as [|x b]; [done|]. cbn [h2_delivered fst]. rewrite IH.
  by rewrite app_assoc.
Qed.

Lemma h2_write_all_spec fuel : ∀ buf s,
  Forall (λ c, ∃ n, c = CapOk (S n) (Ok tt)) (h2_caps s) → (length buf <= length (h2_caps s))%nat → (length buf < fuel)%nat →
  data_frames (h2_sent s) →
  ∃ s', h2_write_all fuel buf s = (Some (Ok tt), s') ∧ data_frames (h2_sent s')
    ∧ concat (map fst (h2_sent s')) = concat (map fst (h2_sent s)) ++ buf
    ∧ ∃ used, h2_caps s = used ++ h2_caps s' ∧ (length used <= length buf)%nat.
Proof.
  induction fuel as [|fuel IH]; intros buf s Hc Hl Hf Hd; [lia|]. cbn [h2_write_all].
  destruct buf as [|x buf]; [exists s; rewrite app_nil_r; split_and!; [done..|by exists []]|].
  unfold h2_poll_write. destruct (h2_caps s) as [|c caps] eqn:Ec; [cbn in Hl; lia|].
  apply Forall_cons in Hc as [(n & ->) Hc]. cbn [length Nat.min take drop]. cbn [length] in Hl, Hf.
  destruct (IH (drop (Nat.min n (length buf)) buf) (with_caps s caps (h2_sent s ++ [(x :: take (Nat.min n (length buf)) buf, false)])))
    as (s' & Hw & Hd' & Ho & used & Hu & Hul); cbn [with_caps h2_caps h2_sent].
  - done.
  - rewrite length_drop. lia.
  - rewrite length_drop. lia.
  - apply Forall_app. split; [done|]. by constructor.
  - exists s'. split; [done|]. split; [done|]. rewrite Ho. cbn [with_caps h2_sent h2_caps] in *. split.
    + rewrite map_app, concat_app. cbn [map fst concat app]. rewrite <- app_assoc, app_nil_r. cbn [app]. by rewrite take_drop.
    + exists (CapOk (S n) (Ok tt) :: used). cbn [app length]. rewrite Hu. split; [done|]. rewrite length_drop in Hul. lia.
Qed.

(** Writing sends frames and takes none back, whatever is granted. *)
Lemma h2_write_all_sends fuel : ∀ buf s, ∃ l, h2_sent (h2_write_all fuel buf s).2 = h2_sent s ++ l.
Proof.
  induction fuel as [|fuel IH]; intros buf s; cbn [h2_write_all]; [exists []; by rewrite app_nil_r|].
  destruct buf as [|x buf]; [exists []; by rewrite app_nil_r|].
  assert (∃ l, h2_sent (h2_poll_write (x :: buf) s).2 = h2_sent s ++ l) as [l Hl].
  { unfold h2_poll_write. destruct (h2_caps s) as [|[n [?|?|]|e| |] caps]; cbn [snd with_caps h2_sent];
      first [by eexists | exists []; by rewrite app_nil_r]. }
  destruct (h2_poll_write (x :: buf) s) as [[[[|k]|e|]|] s1]; cbn [snd] in *; try (by exists l).
  destruct (IH (drop (S k) (x :: buf)) s1) as [l' ->]. exists (l ++ l'). by rewrite Hl, app_assoc.
Qed.

(** A sequence of buffers, each written to its end. *)
Fixpoint h2_write_bufs (fuel : nat) (bufs : list (list Z)) (s : H2Stream) : option (res ioerr unit) * H2Stream :=
  match bufs with
  | [] => (Some (Ok tt), s)
  | buf :: bufs =>
    match h2_write_all fuel buf s with
    | (Some (Ok _), s) => h2_write_bufs fuel bufs s
    | r => r
    end
  end.

Lemma h2_write_bufs_spec fuel bufs : ∀ s,
  Forall (λ c, ∃ n, c = CapOk (S n) (Ok tt)) (h2_caps s) → (length (concat bufs) <= length (h2_caps s))%nat →
  (length (concat bufs) < fuel)%nat → data_frames (h2_sent s) →
  ∃ s', h2_write_bufs fuel bufs s = (Some (Ok tt), s') ∧ data_frames (h2_sent s')
    ∧ concat (map fst (h2_sent s')) = concat (map fst (h2_sent s)) ++ concat bufs.
Proof.
  induction bufs as [|buf bufs IH]; intros s Hc Hl Hf Hd; cbn [h2_write_bufs concat] in *; [exists s; by rewrite app_nil_r|].
  rewrite length_app in Hl, Hf.
  destruct (h2_write_all_spec fuel buf s Hc) as (s1 & -> & Hd1 & Ho & used & Hu & Hul); [lia|lia|done|].
  rewrite Hu in Hc, Hl. apply Forall_app in Hc as [_ Hc]. rewrite length_app in Hl.
  destruct (IH s1 Hc) as (s' & -> & Hd' & Ho'); [lia|lia|done|]. exists s'. by rewrite Ho', Ho, app_assoc.
Qed.

(** C36: bytes over an HTTP/2 stream.  With capacities of any sizes granted, all
    of the buffers are written, and the peer, with reads of any size, reads
    exactly their bytes in order.  Then it waits for more until the stream is
    shut down, and only then gets the end; whatever is written afterwards, with
    whatever capacities, reaches it no more. *)
Theorem h2_transfer bufs caps n fuel :
  (0 < n)%nat → Forall (λ c, ∃ k, c = CapOk (S k) (Ok tt)) caps → (length (concat bufs) <= length caps)%nat →
  (length (concat bufs) < fuel)%nat →
  ∃ s', h2_write_bufs fuel bufs (h2_new [] caps) = (Some (Ok tt), s')
    ∧ read_all (h2_poll_read n) fuel (h2_peer s') = (concat bufs, OWait)
    ∧ ∀ fuel' later,
        read_all (h2_poll_read n) fuel (h2_peer (h2_write_all fuel' later (h2_poll_shutdown s')).2) = (concat bufs, OEof).
Proof.
  intros Hn Hc Hl Hf.
  destruct (h2_write_bufs_spec fuel bufs (h2_new [] caps)) as (s' & Hw & Hd & Ho); [done|done|done|constructor|].
  cbn [h2_new h2_sent map concat app] in Ho. exists s'. split; [done|].
  assert (∀ rest s1, h2_sent s1 = h2_sent s' ++ rest → (h2_delivered (as_events rest)).1 = [] →
    read_all (h2_poll_read n) fuel (h2_peer s1) = (concat bufs, (h2_delivered (as_events rest)).2)) as Hread.
  { intros rest s1 E Hr. unfold h2_peer. rewrite E.
    rewrite (read_all_delivers _ h2_delivers); unfold h2_delivers; cbn [h2_new h2_eof wbuf h2_in];
      [|by apply h2_polls|]; by rewrite delivered_frames, Ho, Hr, app_nil_r by done. }
  split; [by apply (Hread []); [rewrite app_nil_r|]|]. intros fuel' later.
  destruct (h2_write_all_sends fuel' later (h2_poll_shutdown s')) as [l Hs].
  apply (Hread (([], true) :: l)); [|done]. rewrite Hs. cbn [h2_poll_shutdown with_caps h2_sent]. by rewrite <- app_assoc.
Qed.

Lemma h2_transfer_witness :
  ∃ s', h2_write_bufs 9 [[1; 2]; [3]] (h2_new [] [CapOk 1 (Ok tt); CapOk 1 (Ok tt); CapOk 7 (Ok tt)]) = (Some (Ok tt), s')
    ∧ read_all (h2_poll_read 1) 9 (h2_peer (h2_write_all 9 [4] (h2_poll_shutdown s')).2) = ([1; 2; 3], OEof).
Proof.
  destruct (h2_transfer [[1; 2]; [3]] [CapOk 1 (Ok tt); CapOk 1 (Ok tt); CapOk 7 (Ok tt)] 1 9) as (s' & H & _ & Hr).
  - lia.
  - repeat constructor; by eexists.
  - cbn. lia.
  - cbn. lia.
  - exists s'. split; [exact H | apply Hr].
Defined.

(** ** Which requests are served *)

Definition plain_name (s : str) : Prop := 47 ∉ s ∧ 63 ∉ s.
#[export] Instance plain_name_dec s : Decision (plain_name s).
Proof. unfold plain_name. apply _. Defined.

Lemma grpc_path_plain s : plain_name s → grpc_path_for s = 47 :: s ++ bs "/Tun" ∧ normalize (grpc_path_for s) = grpc_path_for s.
Proof.
  intros [H1 H2]. assert (grpc_path_for s = 47 :: s ++ bs "/Tun") as E by (unfold grpc_path_for; by rewrite trim_start_char_id).
  split; [done|]. rewrite E. unfold normalize. rewrite split_none; [|].
  - rewrite !bool_decide_eq_false_2; [|intros [= Hs]; by apply app_eq_nil in Hs as [_ ?]|intros [=]]. cbn [orb]. unfold trim_end_char.
    change (47 :: s ++ bs "/Tun") with ((47 :: s) ++ bs "/Tun"). rewrite rev_app_distr.
    change (rev (bs "/Tun")) with (110 :: [117; 84; 47]). cbn [app trim_start_char Z.eqb Pos.eqb].
    cbn [rev]. rewrite rev_app_distr, rev_involutive, <- !app_assoc. done.
  - rewrite elem_of_cons, elem_of_app. intros [H|[H|H]]; [done | done |]. revert H. by_decide.
Qed.

(** Two plain names whose paths agree up to what follows. *)
Lemma grpc_path_inj s s' t : plain_name s → plain_name s' → 47 :: s ++ bs "/Tun" = (47 :: s' ++ bs "/Tun") ++ t → s = s'.
Proof.
  intros [H1 _] [H2 _] E. injection E as E. rewrite <- app_assoc in E.
  change (bs "/Tun") with (47 :: bs "Tun") in E. cbn [app] in E.
  apply (f_equal (split_once 47)) in E. rewrite !split_once_app in E by done. congruence.
Qed.

(** Authorities of the plain kind: a host name, or a host name and a port. *)
Definition host_char (c : Z) : bool := is_digit c || (97 <=? c) && (c <=? 122) || (65 <=? c) && (c <=? 90) || (c =? 45) || (c =? 46).
Definition plain_host (h : str) : Prop := h ≠ [] ∧ Forall (λ c, host_char c = true) h.
#[export] Instance plain_host_dec h : Decision (plain_host h).
Proof. unfold plain_host. apply _. Defined.
Inductive plain_authority : str → Prop :=
| pa_host h : plain_host h → plain_authority h
| pa_port h p : plain_host h → is_u16 p → plain_authority (h ++ [58] ++ show_dec p).

Lemma plain_host_no h c : plain_host h → host_char c = false → c ∉ h.
Proof. intros [_ H] Hc Hin. rewrite Forall_forall in H. by rewrite (H c Hin) in Hc. Qed.

(** A client and a server over one connection.  [uri_parts] is the library's
    reading of a URI, of which the code relies on the plain case. *)
Section Exchange.
Context (uri_parts : str → option (option str * str)).
Definition reads_uris : Prop := ∀ a p, plain_authority a → starts_with [47] p = true → 63 ∉ p →
  uri_parts (bs "https://" ++ a ++ p) = Some (Some a, p).

Definition delivered (cr : ClientRequest) : option H2Request :=
  match uri_parts (cr_uri cr) with Some (a, p) => Some (mk_request (cr_method cr) a p) | None => None end.

(** A server that answers with [serve]: the status, and what its handler is given. *)
Definition served {A} (serve : h2_conn unit → res ioerr (list (Z * A))) (cr : ClientRequest) : res str (Z * A) :=
  match delivered cr with
  | None => Err (bs "invalid uri")
  | Some rq =>
    match serve (Ok [Ok (rq, tt, true)]) with
    | Ok [r] => Ok r
    | _ => Err (bs "closed")
    end
  end.

(** The client's view of it. *)
Definition exchange {A} (serve : h2_conn unit → res ioerr (list (Z * A))) (cr : ClientRequest) : res str (Z * unit) :=
  let? r := served serve cr in Ok (r.1, tt).
End Exchange.

Lemma grpc_answer s s' m a : plain_name s → plain_name s' →
  answer_request (Some (grpc_path_for s')) (mk_request m a (grpc_path_for s)) = if bool_decide (s = s') then 200 else 404.
Proof.
  intros Hs Hs'. unfold answer_request. cbn [rq_path].
  destruct (grpc_path_plain s Hs) as [E En], (grpc_path_plain s' Hs') as [E' En'].
  destruct (bool_decide_reflect (s = s')) as [->|Hne].
  - rewrite En'. rewrite (bool_decide_eq_true_2 (grpc_path_for s' = grpc_path_for s')) by done. by rewrite andb_false_r.
  - assert (starts_with (grpc_path_for s') (grpc_path_for s) = false) as ->.
    { destruct (starts_with _ _) eqn:Esw; [|done]. exfalso. apply starts_with_iff in Esw as [t Ht].
      rewrite E, E' in Ht. by apply Hne, (grpc_path_inj s s' t). }
    rewrite bool_decide_eq_false_2; [done|]. rewrite En, En', E, E'. intros Heq. apply Hne, (grpc_path_inj s s' []); try done.
    by rewrite app_nil_r.
Qed.

Lemma grpc_delivered uri_parts s a m ct : reads_uris uri_parts → plain_name s → plain_authority a →
  delivered uri_parts (proxy_request m (grpc_path_for s) a ct) = Some (mk_request m (Some a) (grpc_path_for s)).
Proof.
  intros Hu Hs Ha. unfold delivered, proxy_request. cbn [cr_uri cr_method].
  destruct (grpc_path_plain s Hs) as [E _]. rewrite Hu; [done|done| |]; rewrite E; [done|].
  rewrite elem_of_cons, elem_of_app. intros [H|[H|H]]; [done|by apply Hs|]. revert H. by_decide.
Qed.

Lemma naive_delivered uri_parts h p : reads_uris uri_parts → plain_host h → is_u16 p →
  delivered uri_parts (proxy_request (bs "CONNECT") [47] (naive_authority (Domain h p)) []) =
  Some (mk_request (bs "CONNECT") (Some (show_target (Domain h p))) [47]).
Proof.
  intros Hu Hh Hp. unfold delivered, proxy_request, naive_authority. cbn [cr_uri cr_method].
  rewrite Hu; [done| by constructor | done | by_decide].
Qed.

(** The requests of the HTTP/2 transports.  A gRPC client is connected by
    a gRPC server exactly when the two name the same service (names without
    slashes and queries), whatever the target and the host header.  A naive
    client is connected by a naive server, whose listener gets the authority
    from which it recovers exactly the client's target; a request with another
    method gets 405 and no handler.  A failed handshake is an error. *)
Theorem h2_requests uri_parts show_status :
  reads_uris uri_parts →
  (∀ s s' host target, plain_name s → plain_name s' → plain_authority (default (target_host target) host) →
     grpc_connect (exchange uri_parts (grpc_serve s')) show_status (mk_grpc s host) target
     = if bool_decide (s = s') then Ok tt else Err (h2_err (bs "upstream responded " ++ show_status 404)))
  ∧ (∀ h p, plain_host h → parse_ip h = None → is_u16 p →
     naive_connect (exchange uri_parts naive_serve) show_status (Domain h p) = Ok tt
     ∧ ∃ a, served uri_parts naive_serve (proxy_request (bs "CONNECT") [47] (naive_authority (Domain h p)) [])
            = Ok (200, Some (tt, a)) ∧ parse_naive_authority a = Domain h p)
  ∧ (∀ St (st : St) rq taken, rq_method rq ≠ bs "CONNECT" → naive_serve (Ok [Ok (rq, st, taken)]) = Ok [(405, None)])
  ∧ (∀ St prefix e, serve_requests (St := St) prefix (Err e) = Err (h2_err e)).
Proof.
  intros Hu. split; [|split; [|split]]; [| | |done].
  - intros s s' host target Hs Hs' Ha. unfold grpc_connect, open_proxy_stream, exchange, served.
    cbn [g_service_name g_host_header]. rewrite grpc_delivered by done. unfold grpc_serve, serve_requests.
    cbn [map_err accepted map]. rewrite grpc_answer by done. by destruct (bool_decide (s = s')).
  - intros h p Hh Hip Hp. pose proof (naive_delivered uri_parts h p Hu Hh Hp) as Hd. split.
    + unfold naive_connect, open_proxy_stream, exchange, served. by rewrite Hd.
    + exists (show_target (Domain h p)). split; [unfold served; by rewrite Hd|].
      apply authority_roundtrip; [by apply plain_host_no|by apply plain_host_no|done|done].
  - intros St st rq taken Hm. unfold naive_serve, serve_connect, answer_connect. cbn [map_err accepted map].
    by rewrite bool_decide_eq_false_2.
Qed.

(** A reading of URIs that is enough: the text up to the first slash after
    [https://] and the rest of it. *)
Definition split_uri (u : str) : option (option str * str) :=
  match split_once 47 (drop 8 u) with
  | Some (a, p) => Some (Some a, 47 :: p)
  | None => None
  end.

Lemma split_uri_reads : reads_uris split_uri.
Proof.
  intros a p Ha Hp _. apply starts_with_iff in Hp as [t ->]. unfold split_uri.
  change (bs "https://" ++ a ++ [47] ++ t) with (bs "https://" ++ (a ++ 47 :: t)). rewrite drop_app_length' by done.
  rewrite split_once_app; [done|]. destruct Ha as [h Hh|h p Hh Hp]; [by apply plain_host_no|].
  rewrite !not_elem_of_app. split; [by apply plain_host_no|]. split; [by_decide|]. apply show_dec_no; [apply Hp|lia].
Qed.

Lemma h2_requests_witness :
  grpc_connect (exchange split_uri (grpc_serve (bs "GunService"))) show_dec (mk_grpc (bs "Other") None) (Domain (bs "a.b") 1)
  = Err (h2_err (bs "upstream responded 404"))
  ∧ naive_connect (exchange split_uri naive_serve) show_dec (Domain (bs "a.b") 80) = Ok tt.
Proof.
  destruct (h2_requests split_uri show_dec split_uri_reads) as (H1 & H2 & _). split.
  - apply (H1 (bs "Other") (bs "GunService") None (Domain (bs "a.b") 1)); [by_decide|by_decide|].
    apply pa_host. by_decide.
  - apply (H2 (bs "a.b") 80); [by_decide | vm_compute; reflexivity | by_decide].
Defined.

(** ** The upgrade, however it arrives *)

(** What was read beyond the head is in nobody's hands: neither in the stream
    nor written to it. *)
Lemma httpup_spec http_path spec head payload segs :
  is_head head → Z.of_nat (length head) ≤ 65536 → concat segs = head ++ payload →
  ∃ early s', payload = early ++ avail s'
    ∧ match check_upgrade http_path spec (head ++ early) with
      | Ok _ => httpup_inbound http_path spec (stream_of segs) = (Ok tt, s') ∧ s_out s' = upgrade_response
      | Err e => httpup_inbound http_path spec (stream_of segs) = (Err e, s') ∧ s_out s' = []
      | Panic => True
      end.
Proof.
  intros Hh Hz Hs.
  assert (65535 < Z.of_nat MAX_HANDSHAKE < 65537) as Hmax by (unfold MAX_HANDSHAKE; rewrite Z2Nat.id; lia).
  unfold httpup_inbound. remember (S (S MAX_HANDSHAKE)) as fuel eqn:Efuel.
  destruct (read_head_spec (bs "httpup") head payload fuel [] head (stream_of segs)) as (early & s1 & Hr & Hp & Ho & Hw);
    [done|done|done| |apply clean_stream_of|by rewrite avail_stream_of|lia|].
  { destruct Hh as [H4 _]. by destruct head; [cbn in H4; lia|]. }
  unfold io_bind, lift. rewrite Hr. exists early.
  destruct (check_upgrade http_path spec (head ++ early)) as [[]|e|].
  - eexists. rewrite write_all_sure by done. split; [|split; [done|]]; [done|]. cbn [s_out]. by rewrite Ho.
  - exists s1. split; [done|]. split; [done|]. by rewrite Ho.
  - by exists s1.
Qed.
