(* ===== verification/Mieru.v ===== *)
(** * Mieru: segments, the two handshakes and the reading tasks

    [omni-proto/src/proto/mieru/]: key derivation, metadata blocks, the
    segments of [SegmentState] (written out twice in the sources, in
    [inbound.rs] and in [outbound.rs]), [accept_session], [connect_tcp], the
    tasks that decrypt what arrives; [ChannelDuplex] is the one of [Aead].  XChaCha20-Poly1305 is
    the interface [Aead], HMAC and SHA-256 are crates, the clock and the random
    nonces are arguments. *)

From S2P Require Import Prelude Text Net Io Socks5 Node Aead Shadowsocks.

Definition METADATA_SIZE : nat := 32.
Definition TAG_SIZE : nat := 16.
Definition NONCE_SIZE : nat := 24.
Definition KEY_LEN : nat := 32.
Definition PROTO_DATA_C2S : Z := 0.
Definition PROTO_DATA_S2C : Z := 1.
Definition PROTO_OPEN_SESSION_REQ : Z := 2.
Definition PROTO_OPEN_SESSION_RESP : Z := 3.

(** ** Metadata ([mod.rs]) *)

(** A block of 32 bytes: each field is copied to its place. *)
Definition build_metadata (proto_type epoch_minute session_id seq status payload_len suffix_len : Z) : list Z :=
  [proto_type; 0] ++ be_bytes 4 epoch_minute ++ be_bytes 4 session_id ++ be_bytes 4 seq ++ [status]
  ++ be_bytes 2 payload_len ++ [suffix_len] ++ replicate 14 0.

Record ParsedMetadata := mk_md {
  md_proto_type : Z;
  md_epoch_minute : Z;
  md_session_id : Z;
  md_seq : Z;
  md_status : Z;
  md_payload_len : Z;
  md_suffix_len : Z
}.

Definition parse_metadata (m : list Z) : ParsedMetadata :=
  mk_md (m !!! 0%nat) (be_value (take 4 (drop 2 m))) (be_value (take 4 (drop 6 m))) (be_value (take 4 (drop 10 m)))
        (m !!! 14%nat) (be_value (take 2 (drop 15 m))) (m !!! 17%nat).

(** ** Keys ([crypto.rs]) *)

Section Keys.
Context (hmac_sha256 : list Z → list Z → list Z).

(** The rounds of a block after the first. *)
Fixpoint pbkdf2_rounds (n : nat) (password u acc : list Z) : list Z :=
  match n with
  | O => acc
  | S n => let u := hmac_sha256 password u in pbkdf2_rounds n password u (zip_with Z.lxor acc u)
  end.

(** The [while] loop: every block adds 32 bytes. *)
Fixpoint pbkdf2_blocks (fuel : nat) (password salt : list Z) (rounds : nat) (dk_len : nat) (block_index : Z)
    (out : list Z) : list Z :=
  match fuel with
  | O => out
  | S fuel =>
    if (length out <? dk_len)%nat then
      let u := hmac_sha256 password (salt ++ be_bytes 4 block_index) in
      pbkdf2_blocks fuel password salt rounds dk_len (block_index + 1) (out ++ pbkdf2_rounds (rounds - 1) password u u)
    else out
  end.
Definition pbkdf2_sha256 (password salt : list Z) (rounds dk_len : nat) : list Z :=
  take dk_len (pbkdf2_blocks dk_len password salt rounds dk_len 1 []).

Definition derive_key `{Sha2} (username password : list Z) (epoch_minute : Z) : list Z :=
  pbkdf2_sha256 (sha256 (password ++ [0] ++ username)) (be_bytes 8 epoch_minute) 64 KEY_LEN.
End Keys.

(** [increment_nonce] is the code of the one of Shadowsocks. *)
Definition increment_nonce (nonce : list Z) : list Z := Shadowsocks.increment_nonce nonce.

Section Segments.
Context `{Aead}.

Definition seal (key nonce plaintext : list Z) : list Z := sealed XChaCha20Poly1305 key nonce [] plaintext.
Definition open (key nonce data : list Z) : option (list Z) := open_sealed XChaCha20Poly1305 key nonce [] data.

(** ** Segments *)

Record SegmentState := mk_seg { sg_key : list Z; sg_nonce : list Z; sg_seq : Z }.

Definition bump (payload : list Z) (nonce : list Z) : list Z :=
  increment_nonce (match payload with [] => nonce | _ => increment_nonce nonce end).

(** [encrypt_segment]: the length is a [usize], so it takes eight bytes. *)
Definition encrypt_segment (now : Z) (proto_type : Z) (payload : list Z) (first : bool) (st : SegmentState)
    : list Z * SegmentState :=
  let em := wrap 32 now in
  let metadata := build_metadata proto_type em 0 (sg_seq st) 0 (wrap 16 (Z.of_nat (length payload))) 0 in
  let enc_meta := seal (sg_key st) (sg_nonce st) metadata in
  let nonce_len := if first then NONCE_SIZE else 0%nat in
  let size := (4 + nonce_len + METADATA_SIZE + TAG_SIZE + length payload + TAG_SIZE)%nat in
  (be_bytes 8 (Z.of_nat size)
   ++ (if first then sg_nonce st else [])
   ++ enc_meta
   ++ (match payload with [] => [] | _ => seal (sg_key st) (increment_nonce (sg_nonce st)) payload end),
   mk_seg (sg_key st) (bump payload (sg_nonce st)) (wadd 32 (sg_seq st) 1)).

(** [decrypt_segment] of the client. *)
Definition decrypt_segment (data : list Z) (has_nonce : bool) (st : SegmentState)
    : option (ParsedMetadata * list Z) * SegmentState :=
  if has_nonce && (length data <? NONCE_SIZE)%nat then (None, st) else
  let nonce := if has_nonce then take NONCE_SIZE data else sg_nonce st in
  let off := if has_nonce then NONCE_SIZE else 0%nat in
  if (length data <? off + METADATA_SIZE + TAG_SIZE)%nat then (None, st) else
  match open (sg_key st) nonce (take (METADATA_SIZE + TAG_SIZE) (drop off data)) with
  | None => (None, st)
  | Some meta_plain =>
    let md := parse_metadata meta_plain in
    let payload_start := (off + METADATA_SIZE + TAG_SIZE)%nat in
    let payload_end := (payload_start + Z.to_nat (md_payload_len md) + TAG_SIZE)%nat in
    let payload :=
      if (0 <? md_payload_len md) && (payload_start <=? length data)%nat && (payload_end <=? length data)%nat
      then open (sg_key st) (increment_nonce nonce) (take (payload_end - payload_start) (drop payload_start data))
      else Some [] in
    match payload with
    | None => (None, st)
    | Some payload =>
      let n := increment_nonce (sg_nonce st) in
      let n := if 0 <? md_payload_len md then increment_nonce n else n in
      (Some (md, payload), mk_seg (sg_key st) n (sg_seq st))
    end
  end.

(** ** The server ([inbound.rs]) *)

Definition io_err (m : str) : ioerr := other (bs "mieru: " ++ m).

Record accepted := mk_accepted { ac_target : ProxyTarget; ac_client_nonce : list Z; ac_state : SegmentState }.

(** [accept_session] up to the two tasks; [key] is the derived key,
    [resp_nonce] the random nonce. *)
Definition accept_session (now : Z) (key resp_nonce : list Z) : io accepted :=
  do! len_buf := read_exact 4 in
  let seg_len := Z.to_nat (be_value len_buf) in
  do! seg_buf := read_exact seg_len in
  if (length seg_buf <? NONCE_SIZE + METADATA_SIZE + TAG_SIZE)%nat
  then fail (io_err (bs "mieru: short open session segment")) else
  do! client_nonce <- slice seg_buf 0 NONCE_SIZE in
  do! enc <- slice seg_buf NONCE_SIZE (NONCE_SIZE + METADATA_SIZE + TAG_SIZE) in
  do! meta_plain <- ok_or (io_err (bs "mieru: authentication failed")) (open key client_nonce enc) in
  let md := parse_metadata meta_plain in
  let payload_start := (NONCE_SIZE + METADATA_SIZE + TAG_SIZE)%nat in
  let payload_end := Nat.min (payload_start + Z.to_nat (md_payload_len md)) (length seg_buf) in
  do! addr_bytes <- slice seg_buf payload_start payload_end in
  do! (addr, _) <- map_err (λ e, invalid_data (bs "mieru: socks addr: " ++ e)) (decode addr_bytes) in
  let '(resp_seg, st_resp) :=
    encrypt_segment now PROTO_OPEN_SESSION_RESP [] false (mk_seg key resp_nonce 0) in
  do! _ := write_all resp_seg in
  ret (mk_accepted (to_proxy_target addr) client_nonce st_resp).

(** What a client has to know: the bytes start with a length, a nonce and
    metadata that opens under the key. *)
Definition mieru_credentials (key i : list Z) : Prop :=
  ∃ len nonce meta rest m, i = len ++ nonce ++ meta ++ rest
  ∧ length len = 4%nat ∧ length nonce = NONCE_SIZE ∧ length meta = (METADATA_SIZE + TAG_SIZE)%nat ∧ open key nonce meta = Some m.

Lemma mieru_presents now key resp_nonce s a s' :
  accept_session now key resp_nonce s = (Ok a, s') → mieru_credentials key (avail s).
Proof.
  unfold accept_session. intros Hs. io_inv Hs. apply read_exact_inv in Hm as (Ha & Hl & _).
  io_inv Hs. apply read_exact_inv in Hm as (Ha' & _). destruct (Nat.ltb_spec (length x0) (NONCE_SIZE + METADATA_SIZE + TAG_SIZE)) as [|Hlen]; [done|].
  io_inv Hs. apply lift_ok in Hm as [[_ ->]%slice_inv ->]. io_inv Hs. apply lift_ok in Hm as [[_ ->]%slice_inv ->].
  io_inv Hs. apply lift_ok in Hm as [Hm ->]. destruct (open key _ _) as [m|] eqn:E; [|done]. clear Hs Hm.
  rewrite drop_0, Nat.sub_0_r in E.
  replace (NONCE_SIZE + METADATA_SIZE + TAG_SIZE - NONCE_SIZE)%nat with (METADATA_SIZE + TAG_SIZE)%nat in E by lia.
  eexists x, _, _, (drop (METADATA_SIZE + TAG_SIZE) (drop NONCE_SIZE x0) ++ avail s1), m.
  split; [|split; [done|split; [|split; [|exact E]]]].
  - rewrite Ha, Ha'. f_equal. by rewrite !app_assoc, <- (app_assoc (take NONCE_SIZE x0)), !take_drop.
  - rewrite length_take. lia.
  - rewrite length_take, length_drop. lia.
Qed.

(** The server's reading task: [Running] with its nonce and buffer, or ended,
    by a [return] or by the panic of [drain]. *)
Inductive pump := Running (nonce buf : list Z) | Returned | Panicked.

(** The [while] loop over the buffer: every turn removes 64 bytes or more. *)
Fixpoint serve_segments (fuel : nat) (key nonce buf : list Z) : list (list Z) * pump :=
  match fuel with
  | O => ([], Running nonce buf)
  | S fuel =>
    if (length buf <? METADATA_SIZE + TAG_SIZE)%nat then ([], Running nonce buf) else
    match open key nonce (take (METADATA_SIZE + TAG_SIZE) buf) with
    | None => ([], Returned)
    | Some meta_plain =>
      let md := parse_metadata meta_plain in
      let nonce1 := increment_nonce nonce in
      let payload_start := (METADATA_SIZE + TAG_SIZE)%nat in
      let payload_end := (payload_start + Z.to_nat (md_payload_len md) + TAG_SIZE)%nat in
      let payload :=
        if (0 <? md_payload_len md) && (payload_end <=? length buf)%nat
        then open key (increment_nonce nonce1) (take (payload_end - payload_start) (drop payload_start buf))
        else Some [] in
      match payload with
      | None => ([], Returned)
      | Some payload =>
        let n := increment_nonce nonce in
        let n := if 0 <? md_payload_len md then increment_nonce n else n in
        if (length buf <? payload_end)%nat then ([], Panicked) else
        let '(out, p) := serve_segments fuel key n (drop payload_end buf) in
        (match payload with [] => out | _ => payload :: out end, p)
      end
    end
  end.

(** ** The client ([outbound.rs]) *)

Definition encode_socks_addr (target : ProxyTarget) : list Z :=
  match from_proxy_target target with
  | SV4 ip port => [1] ++ ip ++ be_bytes 2 port
  | SDomain h port => [3; u8! (Z.of_nat (length h))] ++ h ++ be_bytes 2 port
  | SV6 ip port => [4] ++ ip ++ be_bytes 2 port
  end.

(** [connect_tcp] up to the two tasks: the states that write and read. *)
Definition connect_tcp (now : Z) (key nonce : list Z) (target : ProxyTarget) : io (SegmentState * SegmentState) :=
  let '(open_seg, st) := encrypt_segment now PROTO_OPEN_SESSION_REQ (encode_socks_addr target) true (mk_seg key nonce 0) in
  do! _ := write_all open_seg in
  do! hdr := read 512 in
  match hdr with
  | [] => fail (io_err (bs "connection closed during open"))
  | _ =>
    if (length hdr <? NONCE_SIZE + METADATA_SIZE + TAG_SIZE)%nat
    then fail (io_err (bs "short openSessionResponse")) else
    do! server_nonce <- slice hdr 0 NONCE_SIZE in
    do! enc <- slice hdr NONCE_SIZE (NONCE_SIZE + METADATA_SIZE + TAG_SIZE) in
    do! meta_plain <- ok_or (io_err (bs "open response decrypt failed")) (open key server_nonce enc) in
    if negb (md_status (parse_metadata meta_plain) =? 0) then fail (io_err (bs "mieru: open rejected")) else
    ret (st, mk_seg key server_nonce 0)
  end.

(** The client's reading task on what it has in its buffer: the payloads, the
    state and what is left. *)
Fixpoint receive_segments (fuel : nat) (st : SegmentState) (buf : list Z) : list (list Z) * SegmentState * list Z :=
  match fuel with
  | O => ([], st, buf)
  | S fuel =>
    if (length buf <? METADATA_SIZE + TAG_SIZE)%nat then ([], st, buf) else
    match decrypt_segment buf false st with
    | (None, st) => ([], st, buf)
    | (Some (md, payload), st) =>
      let consumed := (METADATA_SIZE + TAG_SIZE + Z.to_nat (md_payload_len md) + TAG_SIZE)%nat in
      let '(out, st, rest) := receive_segments fuel st (drop (Nat.min consumed (length buf)) buf) in
      (match payload with [] => out | _ => payload :: out end, st, rest)
    end
  end.

(** The writing task of either side: one segment for each buffer with data. *)
Fixpoint send_segments (now proto_type : Z) (queue : list (list Z)) (st : SegmentState) : list (list Z) * SegmentState :=
  match queue with
  | [] => ([], st)
  | [] :: queue => send_segments now proto_type queue st
  | data :: queue =>
    let '(seg, st) := encrypt_segment now proto_type data false st in
    let '(segs, st) := send_segments now proto_type queue st in
    (seg :: segs, st)
  end.
End Segments.

(** ** Metadata *)

Lemma take_drop_mid {A} (a b c : list A) n k : length a = k → length b = n → take n (drop k (a ++ b ++ c)) = b.
Proof. intros <- <-. by rewrite drop_app_length, take_app_length. Qed.

Lemma metadata_roundtrip ty em sid seq status plen slen :
  is_u32 em → is_u32 sid → is_u32 seq → is_u16 plen →
  parse_metadata (build_metadata ty em sid seq status plen slen) = mk_md ty em sid seq status plen slen.
Proof.
  intros Hem Hsid Hseq Hpl. unfold build_metadata.
  pose proof (length_be_bytes 4 em) as L1. pose proof (length_be_bytes 4 sid) as L2.
  pose proof (length_be_bytes 4 seq) as L3. pose proof (length_be_bytes 2 plen) as L4.
  unfold parse_metadata. f_equal.
  - by rewrite (take_drop_mid [ty; 0] (be_bytes 4 em)), be_value_bytes, Z.mod_small.
  - rewrite app_assoc, (take_drop_mid ([ty; 0] ++ be_bytes 4 em) (be_bytes 4 sid)) by (rewrite ?length_app; cbn [length]; lia).
    by rewrite be_value_bytes, Z.mod_small.
  - rewrite app_assoc, app_assoc. rewrite <- (app_assoc [ty; 0]).
    rewrite (take_drop_mid ([ty; 0] ++ be_bytes 4 em ++ be_bytes 4 sid) (be_bytes 4 seq)) by (rewrite ?length_app; cbn [length]; lia).
    by rewrite be_value_bytes, Z.mod_small.
  - replace ([ty; 0] ++ be_bytes 4 em ++ be_bytes 4 sid ++ be_bytes 4 seq ++ [status] ++ be_bytes 2 plen ++ [slen] ++ replicate 14 0)
      with (([ty; 0] ++ be_bytes 4 em ++ be_bytes 4 sid ++ be_bytes 4 seq ++ [status]) ++ be_bytes 2 plen ++ [slen] ++ replicate 14 0)
      by (by rewrite <- !app_assoc).
    rewrite take_drop_mid by (rewrite ?length_app; cbn [length]; lia). by rewrite be_value_bytes, Z.mod_small.
Qed.

Lemma metadata_length ty em sid seq status plen slen : length (build_metadata ty em sid seq status plen slen) = METADATA_SIZE.
Proof. unfold build_metadata. rewrite !length_app, !length_be_bytes. done. Qed.

Section Proofs.
Context `{Aead}.

Lemma seal_length key nonce p : length (seal key nonce p) = (length p + TAG_SIZE)%nat.
Proof. apply sealed_length. Qed.

Lemma open_seal key nonce p : open key nonce (seal key nonce p) = Some p.
Proof. apply open_sealed_seal. Qed.

(** The body of a segment, after its length and its nonce. *)
Definition body (now ty : Z) (payload : list Z) (st : SegmentState) : list Z :=
  seal (sg_key st) (sg_nonce st) (build_metadata ty (wrap 32 now) 0 (sg_seq st) 0 (wrap 16 (Z.of_nat (length payload))) 0)
  ++ (match payload with [] => [] | _ => seal (sg_key st) (increment_nonce (sg_nonce st)) payload end).

Lemma encrypt_segment_shape now ty payload (first : bool) st :
  (encrypt_segment now ty payload first st).1
  = be_bytes 8 (Z.of_nat (4 + (if first then NONCE_SIZE else 0) + METADATA_SIZE + TAG_SIZE + length payload + TAG_SIZE))
    ++ (if first then sg_nonce st else []) ++ body now ty payload st.
Proof. reflexivity. Qed.

(** The client's [decrypt_segment] reads back the body of a segment with data,
    and what follows it does not matter. *)
Lemma decrypt_body now ty payload st rest seq :
  payload ≠ [] → Z.of_nat (length payload) < 65536 → is_u32 (sg_seq st) →
  decrypt_segment (body now ty payload st ++ rest) false (mk_seg (sg_key st) (sg_nonce st) seq)
  = (Some (mk_md ty (wrap 32 now) 0 (sg_seq st) 0 (Z.of_nat (length payload)) 0, payload),
     mk_seg (sg_key st) (bump payload (sg_nonce st)) seq).
Proof.
  intros Hne Hl Hseq. unfold body.
  set (meta := build_metadata _ _ _ _ _ _ _). set (em := seal (sg_key st) (sg_nonce st) meta).
  assert (length em = (METADATA_SIZE + TAG_SIZE)%nat) as Lem by (unfold em; rewrite seal_length; unfold meta; by rewrite metadata_length).
  destruct payload as [|x p]; [done|]. set (d := x :: p) in *.
  set (ep := seal (sg_key st) (increment_nonce (sg_nonce st)) d).
  assert (length ep = (length d + TAG_SIZE)%nat) as Lep by apply seal_length.
  unfold decrypt_segment. cbn [andb sg_nonce sg_key sg_seq]. rewrite <- app_assoc.
  rewrite (proj2 (Nat.ltb_ge _ _)) by (rewrite !length_app; lia). cbn [Nat.add]. rewrite drop_0, take_app_length' by done.
  unfold em at 1. rewrite open_seal. unfold meta.
  rewrite metadata_roundtrip by (first [apply wrap_range; lia | done | by_decide]). cbn [md_payload_len].
  rewrite wrap_small by (unfold in_range; lia).
  assert (0 < length d)%nat by (unfold d; cbn [length]; lia).
  rewrite (proj2 (Z.ltb_lt 0 _)), !(proj2 (Nat.leb_le _ _)) by (rewrite ?length_app; lia). cbn [andb].
  rewrite drop_app_length' by (rewrite Lem; done). rewrite Nat2Z.id.
  rewrite take_app_length' by (rewrite Lep; lia). unfold ep. rewrite open_seal. done.
Qed.

(** The states of a writer and of the reader at the other end. *)
Definition in_step (w r : SegmentState) : Prop := sg_key r = sg_key w ∧ sg_nonce r = sg_nonce w.

Definition sendable (p : list Z) : Prop := Z.of_nat (length p) < 65536.

Lemma length_body now ty payload st :
  payload ≠ [] → length (body now ty payload st) = (METADATA_SIZE + TAG_SIZE + length payload + TAG_SIZE)%nat.
Proof.
  intros Hne. unfold body. rewrite length_app, seal_length, metadata_length.
  destruct payload; [done|]. rewrite seal_length. lia.
Qed.

Lemma receive_sent now ty queue : ∀ w r fuel,
  Forall sendable queue → in_step w r → is_u32 (sg_seq w) → (length queue < fuel)%nat →
  let '(segs, w') := send_segments now ty queue w in
  ∃ r', receive_segments fuel r (concat (map (drop 8) segs)) = (filter (λ p, p ≠ []) queue, r', []) ∧ in_step w' r'.
Proof.
  induction queue as [|p queue IH]; intros w r fuel Hq Hs Hseq Hf; cbn [send_segments].
  - destruct fuel as [|fuel]; [cbn in Hf; lia|]. exists r. cbn [map concat receive_segments length]. done.
  - apply Forall_cons in Hq as [Hp Hq]. cbn [length] in Hf. destruct fuel as [|fuel]; [lia|].
    destruct p as [|x p].
    { specialize (IH w r (S fuel) Hq Hs Hseq ltac:(lia)). destruct (send_segments now ty queue w) as [segs w'].
      destruct IH as (r' & IH & Hs'). exists r'. split; [|done]. rewrite IH, filter_cons.
      by rewrite decide_False by auto. }
    set (d := x :: p) in *. assert (d ≠ []) as Hne by done.
    pose proof (encrypt_segment_shape now ty d false w) as Hshape.
    assert ((encrypt_segment now ty d false w).2 = mk_seg (sg_key w) (bump d (sg_nonce w)) (wadd 32 (sg_seq w) 1)) as Hst by done.
    destruct (encrypt_segment now ty d false w) as [seg w1]. cbn [fst snd] in Hshape, Hst. subst w1.
    specialize (IH (mk_seg (sg_key w) (bump d (sg_nonce w)) (wadd 32 (sg_seq w) 1))
                   (mk_seg (sg_key w) (bump d (sg_nonce w)) (sg_seq r)) fuel Hq (conj eq_refl eq_refl)
                   ltac:(cbn [sg_seq]; apply wrap_range; lia) ltac:(lia)).
    destruct (send_segments now ty queue _) as [segs w'] eqn:Es. destruct IH as (r' & IH & Hs').
    exists r'. split; [|done]. cbn [map concat].
    assert (drop 8 seg = body now ty d w) as ->.
    { rewrite Hshape. cbn [app]. by rewrite drop_app_length' by (by rewrite length_be_bytes). }
    cbn [receive_segments]. pose proof (length_body now ty d w Hne) as Lb.
    rewrite (proj2 (Nat.ltb_ge _ _)) by (rewrite length_app; lia).
    destruct Hs as [Hk Hn]. destruct r as [rk rn rseq]. cbn [sg_key sg_nonce sg_seq] in *. subst rk rn.
    rewrite decrypt_body by done. cbn [md_payload_len]. rewrite Nat2Z.id.
    rewrite Nat.min_l by (rewrite length_app; lia). rewrite drop_app_length' by lia.
    rewrite IH. rewrite filter_cons. rewrite decide_True by done. done.
Qed.

(** The first four bytes of a length that has eight are zero. *)
Lemma length_prefix n : 0 ≤ n < 2 ^ 32 → be_bytes 8 n = [0; 0; 0; 0] ++ be_bytes 4 n.
Proof.
  intros Hn. rewrite <- (be_bytes_value ([0; 0; 0; 0] ++ be_bytes 4 n) 8).
  - f_equal. cbn [app]. rewrite !be_value_cons, be_value_u32 by done. lia.
  - apply Forall_app. split; [by_decide | apply be_bytes_bytes].
  - by rewrite length_app, length_be_bytes.
Qed.

(** A server reads four of the eight bytes and takes them for the length. *)
Lemma accept_refuses now key resp_nonce seg size rest :
  0 ≤ size < 2 ^ 32 → seg = be_bytes 8 size ++ rest →
  ∀ segs, concat segs = seg → ∃ s', accept_session now key resp_nonce (stream_of segs)
    = (Err (io_err (bs "mieru: short open session segment")), s') ∧ s_out s' = [].
Proof.
  intros Hsz -> segs Hs. rewrite length_prefix in Hs by done.
  assert (yields (accept_session now key resp_nonce) (concat segs)
            (Err (io_err (bs "mieru: short open session segment"))) (be_bytes 4 size ++ rest) []) as Hy.
  { rewrite Hs, <- app_assoc. unfold accept_session. apply (yields_read 4 [0; 0; 0; 0]); [done|].
    change (Z.to_nat (be_value [0; 0; 0; 0])) with 0%nat. apply (yields_read 0 []); [done|].
    cbn [length Nat.ltb Nat.leb Nat.add NONCE_SIZE]. apply yields_fail. }
  destruct (yields_run _ segs _ _ _ Hy) as (s' & E & Ha & Ho). by exists s'.
Qed.
End Proofs.

(** The data of a session.  The payloads that a writing task seals, one
    segment each, are the payloads that the client's reading task opens, in
    order and with the two nonces in step after every segment, when it is given
    the segments without the eight bytes of length that precede them; payloads
    are below 65536 bytes, since the metadata has two bytes for their length. *)
Theorem mieru_segments `{Aead} now ty queue w fuel :
  Forall sendable queue → is_u32 (sg_seq w) → (length queue < fuel)%nat →
  let '(segs, w') := send_segments now ty queue w in
  ∃ r', receive_segments fuel w (concat (map (drop 8) segs)) = (filter (λ p, p ≠ []) queue, r', [])
    ∧ sg_nonce r' = sg_nonce w'.
Proof.
  intros Hq Hseq Hf. pose proof (receive_sent now ty queue w w fuel Hq (conj eq_refl eq_refl) Hseq Hf) as Hr.
  destruct (send_segments now ty queue w) as [segs w']. destruct Hr as (r' & Hr & _ & Hn). by exists r'.
Qed.

Lemma mieru_segments_witness :
  let '(segs, w') := @send_segments detached_ciphers 0 0 [[1; 2]; []; [3]] (mk_seg [] (replicate 24 0) 0) in
  ∃ r', @receive_segments detached_ciphers 4 (mk_seg [] (replicate 24 0) 0) (concat (map (drop 8) segs))
        = ([[1; 2]; [3]], r', []).
Proof.
  pose proof (@mieru_segments detached_ciphers 0 0 [[1; 2]; []; [3]] (mk_seg [] (replicate 24 0) 0) 4) as Hm.
  destruct (@send_segments detached_ciphers 0 0 [[1; 2]; []; [3]] (mk_seg [] (replicate 24 0) 0)) as [segs w'].
  destruct Hm as (r' & Hr & _).
  - repeat constructor; unfold sendable; cbn; lia.
  - by_decide.
  - cbn. lia.
  - by exists r'.
Defined.

(** C31: no session is ever opened.  Whatever the cipher, the key, the clock and
    the nonces: however the client's first segment arrives, and whatever
    follows it, the server refuses it as too short and writes nothing, because
    the client writes the length with eight bytes and the server reads four.
    And the client refuses the answer the server would give: it has 56 bytes,
    the client wants 72. *)
Theorem mieru_no_session `{Aead} now key nonce resp_nonce target :
  Z.of_nat (length (encode_socks_addr target)) < 2 ^ 31 →
  (∀ segs rest,
     concat segs = (encrypt_segment now PROTO_OPEN_SESSION_REQ (encode_socks_addr target) true (mk_seg key nonce 0)).1 ++ rest →
     ∃ s', accept_session now key resp_nonce (stream_of segs)
           = (Err (io_err (bs "mieru: short open session segment")), s') ∧ s_out s' = [])
  ∧ (∃ s', connect_tcp now key nonce target
             (stream_of [(encrypt_segment now PROTO_OPEN_SESSION_RESP [] false (mk_seg key resp_nonce 0)).1])
           = (Err (io_err (bs "short openSessionResponse")), s')).
Proof.
  intros Hl. split.
  - intros segs rest Hs. rewrite encrypt_segment_shape, <- app_assoc in Hs.
    eapply (accept_refuses now key resp_nonce _ _ _ _ eq_refl segs Hs). Unshelve.
    unfold NONCE_SIZE, METADATA_SIZE, TAG_SIZE. lia.
  - rewrite encrypt_segment_shape. cbn [app].
    set (resp := be_bytes 8 _ ++ body _ _ _ _).
    assert (length resp = 56%nat) as Lr.
    { unfold resp, body. rewrite !length_app, length_be_bytes, seal_length, metadata_length. done. }
    unfold connect_tcp. destruct (encrypt_segment now PROTO_OPEN_SESSION_REQ _ true _) as [seg st].
    unfold io_bind at 1. rewrite write_all_sure by done. unfold io_bind at 1.
    unfold read. cbn [s_in stream_of map]. destruct resp as [|x resp]; [done|]. cbn [read_ev].
    rewrite take_ge by lia. rewrite (proj2 (Nat.ltb_lt (length (x :: resp)) (NONCE_SIZE + METADATA_SIZE + TAG_SIZE)))
      by (unfold NONCE_SIZE, METADATA_SIZE, TAG_SIZE; lia).
    by eexists.
Qed.

Lemma mieru_no_session_witness :
  ∃ s', @accept_session detached_ciphers 0 [1] (replicate 24 0)
          (stream_of [(@encrypt_segment detached_ciphers 0 PROTO_OPEN_SESSION_REQ
             (encode_socks_addr (Domain (bs "a.b") 80)) true (mk_seg [1] (replicate 24 7) 0)).1])
        = (Err (io_err (bs "mieru: short open session segment")), s').
Proof.
  destruct (proj1 (@mieru_no_session detached_ciphers 0 [1] (replicate 24 7) (replicate 24 0) (Domain (bs "a.b") 80) ltac:(by_decide))
    [(@encrypt_segment detached_ciphers 0 PROTO_OPEN_SESSION_REQ
       (encode_socks_addr (Domain (bs "a.b") 80)) true (mk_seg [1] (replicate 24 7) 0)).1] []) as (s' & Hs & _); [reflexivity|].
  by exists s'.
Defined.
