(* ===== verification/Pipeline.v ===== *)
(** * Pipeline: from an accepted connection to the remote server

    [omni-core/src/pipeline/executor.rs], the routing of a session and the UDP
    uplinks in [listener_executor.rs], and the counters, the tracker of online
    users and the metrics text of [observability/].  Dialling a connector (in
    Outbound), tokio's [copy_bidirectional], and the shadowsocks and VMess
    sessions (in Listener) are parameters here. *)

From S2P Require Import Prelude Text Net Io Resolver Socks5 Matching Geo Crypto Config Node Core Trojan Vless Sniff.

(** ** Counters ([observability/mod.rs]) *)

Record Counters := mk_counters { connections_total : Z; bytes_up : Z; bytes_down : Z }.
Definition counters_default : Counters := mk_counters 0 0 0.
Definition add_conn (c : Counters) : Counters :=
  mk_counters (wadd 64 (connections_total c) 1) (bytes_up c) (bytes_down c).
Definition add_up (c : Counters) (n : Z) : Counters :=
  mk_counters (connections_total c) (wadd 64 (bytes_up c) n) (bytes_down c).
Definition add_down (c : Counters) (n : Z) : Counters :=
  mk_counters (connections_total c) (bytes_up c) (wadd 64 (bytes_down c) n).
Definition counters_snapshot (c : Counters) : gmap str Z :=
  <[bs "bytes_down" := bytes_down c]> (<[bs "bytes_up" := bytes_up c]>
    (<[bs "connections" := connections_total c]> ∅)).

(** ** Online users ([observability/online_tracker.rs])

    The counts are [i64]; reaching their bound takes 2^63 open connections. *)

Record OnlineTracker := mk_tracker { by_user : gmap str Z; total : Z }.
Definition tracker_new : OnlineTracker := mk_tracker ∅ 0.

Definition mark_online (t : OnlineTracker) (user : str) : OnlineTracker :=
  let prev := match by_user t !! user with Some c => c + 1 | None => 1 end in
  mk_tracker (<[user := prev]> (by_user t))
             (if prev =? 1 then wadd 64 (total t) 1 else total t).

Definition mark_offline (t : OnlineTracker) (user : str) : OnlineTracker :=
  match by_user t !! user with
  | None => t
  | Some c =>
    if c - 1 <=? 0 then mk_tracker (delete user (by_user t)) (wadd 64 (total t) (-1))
    else mk_tracker (<[user := c - 1]> (by_user t)) (total t)
  end.
Definition online_total (t : OnlineTracker) : Z := total t.

(** [metrics::render]. *)
Definition render (c : Counters) (o : OnlineTracker) : str :=
  let snap k := show_dec (default 0 (counters_snapshot c !! bs k)) in
  bs "# TYPE omni_connections_total counter" ++ [10]
  ++ bs "omni_connections_total " ++ snap "connections"%string ++ [10]
  ++ bs "# TYPE omni_bytes_total counter" ++ [10]
  ++ bs "omni_bytes_total{direction=" ++ [34] ++ bs "up" ++ [34] ++ bs "} " ++ snap "bytes_up"%string ++ [10]
  ++ bs "omni_bytes_total{direction=" ++ [34] ++ bs "down" ++ [34] ++ bs "} " ++ snap "bytes_down"%string ++ [10]
  ++ bs "# TYPE omni_online gauge" ++ [10]
  ++ bs "omni_online " ++ show_dec (online_total o) ++ [10].

(** The task of a metrics connection: reads until the end of the head is seen
    in one read, the end of the stream or an error, then answers.  Whether it was
    seen, and the stream. *)
Fixpoint metrics_head (fuel : nat) (s : sock) : bool * sock :=
  match fuel with
  | O => (false, s)
  | S fuel =>
    match read (Z.to_nat 4096) s with
    | (Ok [], s) => (false, s)
    | (Ok b, s) => if contains [13; 10; 13; 10] b then (true, s) else metrics_head fuel s
    | (_, s) => (false, s)
    end
  end.

Definition metrics_response (body : str) : str :=
  bs "HTTP/1.1 200 OK" ++ [13; 10] ++ bs "Content-Type: text/plain; version=0.0.4" ++ [13; 10]
  ++ bs "Content-Length: " ++ show_dec (Z.of_nat (length body)) ++ [13; 10]
  ++ bs "Connection: close" ++ [13; 10; 13; 10] ++ body.

(** A read takes a byte or is the last. *)
Definition metrics_task (c : Counters) (o : OnlineTracker) (s : sock) : sock :=
  let '(_, s) := metrics_head (S (length (avail s))) s in
  (write_all (metrics_response (render c o)) s).2.

Lemma metrics_head_writes fuel s :
  s_out (metrics_head fuel s).2 = s_out s ∧ s_wr (metrics_head fuel s).2 = s_wr s.
Proof.
  revert s; induction fuel as [|fuel IH]; intros s; [done|]. cbn [metrics_head].
  pose proof (read_wr (Z.to_nat 4096) s) as Hw.
  assert (Ho : s_out (read (Z.to_nat 4096) s).2 = s_out s) by (unfold read; by destruct (read_ev _ _)).
  destruct (read _ s) as [r s1]. cbn [snd] in Hw, Ho. rewrite <- Hw, <- Ho.
  destruct r as [[|x b]| |]; [done| |done..]. destruct (contains _ _); [done | apply IH].
Qed.

(** Every scraper is answered with the text of the counters and its length,
    whatever it sends. *)
Lemma metrics_answered c o s :
  s_wr s = [] → s_out (metrics_task c o s) = s_out s ++ metrics_response (render c o).
Proof.
  intros Hs. unfold metrics_task. destruct (metrics_head_writes (S (length (avail s))) s) as [Ho Hw].
  destruct (metrics_head _ s) as [b s1]. cbn [snd] in Ho, Hw. rewrite write_all_sure by congruence. cbn. by rewrite Ho.
Qed.

(** A head whose end is cut is not recognised: the task then waits for the
    scraper to close its side. *)
Example metrics_cut_head :
  (metrics_head 40 (stream_of [bs "GET / HTTP/1.1" ++ [13; 10; 13; 10]])).1 = true
  ∧ (metrics_head 40 (stream_of [bs "GET / HTTP/1.1" ++ [13; 10; 13]; [10]])).1 = false.
Proof. split; vm_compute; reflexivity. Qed.

(** ** Executing a routed session *)

Section Pipeline.
Context `{RL : RegexLib}.
Context (dial : Connector → ProxyTarget → res ioerr sock).
Context (copy_bidirectional : sock → sock → res ioerr (Z * Z) * (sock * sock)).

(** How a session ended: its result, the two streams and the counters. *)
Record Relay := mk_relay {
  rl_res : res ioerr unit;
  rl_client : sock;
  rl_remote : option sock;
  rl_counters : Counters
}.

Definition execute_tcp (c : Counters) (action : RouteAction) (client : sock) (target : ProxyTarget)
    (pre_read : list Z) : Relay :=
  match action with
  | Reject => mk_relay (Ok tt) client None c
  | Hijack resp =>
    let '(r, client) := (do! _ := write_all resp in shutdown) client in
    mk_relay r client None c
  | Proxy connector =>
    match dial connector target with
    | Err e => mk_relay (Err e) client None c
    | Panic => mk_relay Panic client None c
    | Ok remote =>
      match (match pre_read with [] => ret tt | _ => write_all pre_read end) remote with
      | (Err e, remote) => mk_relay (Err e) client (Some remote) c
      | (Panic, remote) => mk_relay Panic client (Some remote) c
      | (Ok _, remote) =>
        match copy_bidirectional client remote with
        | (Ok (up, down), (client, remote)) =>
          mk_relay (Ok tt) client (Some remote) (add_down (add_up c up) down)
        | (Err e, (client, remote)) => mk_relay (Err e) client (Some remote) c
        | (Panic, (client, remote)) => mk_relay Panic client (Some remote) c
        end
      end
    end
  end.

Definition domain_of (t : ProxyTarget) : option str :=
  match t with Domain h _ => Some h | Tcp _ => None end.

Record PipelineShared := mk_shared { sh_inbound_tag : str; sh_router : Router }.

Definition resolve_action (sh : PipelineShared) (target : ProxyTarget) (sniffed_host : option str)
    : RouteAction := route (sh_router sh) target sniffed_host (sh_inbound_tag sh).

(** [run_tcp_route]; sniffing itself never fails. *)
Definition run_tcp_route (sh : PipelineShared) (c : Counters) (stream : sock) (target : ProxyTarget)
    (pre_read : list Z) : Relay :=
  match inspect_stream stream with
  | (Ok sniffed, stream) =>
    let host := match so_host sniffed with Some h => Some h | None => domain_of target end in
    execute_tcp c (resolve_action sh target host) stream target (pre_read ++ so_consumed sniffed)
  | (Err e, stream) => mk_relay (Err e) stream None c
  | (Panic, stream) => mk_relay Panic stream None c
  end.

(** [run_proto_pipeline]: the session of one stream of a multiplexed or
    wrapped transport.  The shadowsocks and vmess sessions yield their target
    and a decrypted stream. *)
Section Protocols.
Context (accept_ss : str → str → sock → res ioerr (ProxyTarget * sock) * sock).
Context (accept_vmess : list (list Z) → sock → res ioerr (ProxyTarget * sock) * sock).

Definition unsupported (m : str) : ioerr := mk_ioerr Unsupported m.

Definition run_proto_pipeline (sh : PipelineShared) (c : Counters) (proto : InboundProto) (stream : sock)
    : Relay :=
  let stop {A} (r : res ioerr A) s :=
    mk_relay (match r with Err e => Err e | Panic => Panic | Ok _ => Ok tt end) s None c in
  let duplex (x : res ioerr (ProxyTarget * sock) * sock) :=
    match x with
    | (Ok (t, s), _) => run_tcp_route sh c s t []
    | (r, s) => stop r s
    end in
  match proto with
  | ISocks cfg =>
    match Socks5.handshake cfg stream with
    | (Ok (AccTcp t), s) => run_tcp_route sh c s t []
    | (Ok AccUdpAssociate, s) =>
      stop (A := unit) (Err (unsupported (bs "socks UDP not supported on multiplexed transports"))) s
    | (r, s) => stop r s
    end
  | ITrojan hash =>
    match Trojan.handshake hash stream with
    | (Ok (TrTcp t), s) => run_tcp_route sh c s t []
    | (Ok TrUdp, s) =>
      stop (A := unit) (Err (other (bs "trojan UDP not supported on multiplexed transports"))) s
    | (r, s) => stop r s
    end
  | IShadowsocks method password => duplex (accept_ss method password stream)
  | IVless uuids =>
    match Vless.handshake uuids stream with
    | (Ok (VlTcp t), s) => run_tcp_route sh c s t []
    | (Ok VlUdp, s) =>
      stop (A := unit) (Err (unsupported (bs "vless UDP not supported on multiplexed transports"))) s
    | (r, s) => stop r s
    end
  | IVmess uuids => duplex (accept_vmess uuids stream)
  | IHysteria2 _ _ => stop (A := unit) (Err (other (bs "hysteria2 runs on the QUIC path only"))) stream
  | IAnytls _ => stop (A := unit) (Err (other (bs "anytls handled by dedicated session path"))) stream
  | IMieru _ _ => stop (A := unit) (Err (other (bs "mieru handled by dedicated session path"))) stream
  | INaive => stop (A := unit) (Err (other (bs "naive handled by dedicated CONNECT path"))) stream
  end.
End Protocols.
End Pipeline.

(** ** UDP sessions of the trojan and VLESS listeners *)

Section Udp.
(** A decoder step, its packet as the relay sends it on. *)
Context (next : Decoder → res ioerr (option (res ioerr (ProxyTarget * list Z))) * Decoder).

(** The inner loop; [false] when an error ended the task.  Every packet takes
    bytes, so the bytes held bound the rounds. *)
Fixpoint drain_packets (n : nat) (d : Decoder) : list UdpPacket * bool * Decoder :=
  match n with
  | O => ([], true, d)
  | S n =>
    match next d with
    | (Ok (Some (Ok (t, x))), d) =>
      let '(ps, go, d) := drain_packets n d in (mk_packet None t x :: ps, go, d)
    | (Ok None, d) => ([], true, d)
    | (_, d) => ([], false, d)
    end
  end.

(** The task that reads the client's stream and sends packets on. *)
Fixpoint udp_uplink (fuel : nat) (d : Decoder) (s : sock) : list UdpPacket * sock :=
  match fuel with
  | O => ([], s)
  | S fuel =>
    match read (Z.to_nat 65536) s with
    | (Ok (b :: l), s) =>
      let d := feed d (b :: l) in
      let '(ps, go, d) := drain_packets (S (length (d_buf d))) d in
      if go then let '(qs, s) := udp_uplink fuel d s in (ps ++ qs, s) else (ps, s)
    | (_, s) => ([], s)
    end
  end.
End Udp.

Definition next_trojan (d : Decoder)
    : res ioerr (option (res ioerr (ProxyTarget * list Z))) * Decoder :=
  match Trojan.next_packet d with
  | (Ok (Some (Ok (addr, x))), d) => (Ok (Some (Ok (to_proxy_target addr, x))), d)
  | (Ok (Some (Err e)), d) => (Ok (Some (Err e)), d)
  | (Ok (Some Panic), d) => (Panic, d)
  | (Ok None, d) => (Ok None, d)
  | (Err e, d) => (Err e, d)
  | (Panic, d) => (Panic, d)
  end.

(** [handle_trojan_udp] and [handle_vless_udp], upwards and downwards. *)
Definition trojan_uplink (fuel : nat) : sock → list UdpPacket * sock := udp_uplink next_trojan fuel decoder_new.
Definition vless_uplink (fuel : nat) : sock → list UdpPacket * sock :=
  udp_uplink Vless.next_packet fuel decoder_new.

Fixpoint udp_downlink (encode : UdpPacket → list Z) (pkts : list UdpPacket) (s : sock) : sock :=
  match pkts with
  | [] => s
  | p :: pkts =>
    match write_all (encode p) s with
    | (Ok _, s) => udp_downlink encode pkts s
    | (_, s) => s
    end
  end.
Definition trojan_downlink : list UdpPacket → sock → sock :=
  udp_downlink (λ p, frame_encode (from_proxy_target (pkt_target p)) (data p)).
Definition vless_downlink : list UdpPacket → sock → sock :=
  udp_downlink (λ p, udp_encode (pkt_target p) (data p)).

(** ** The SOCKS5 UDP pump ([run_socks_udp_pump])

    Datagrams from the local socket set the peer and become packets; packets
    from the remote side become datagrams for the last peer.  A send that the
    socket refuses ends the second task. *)

Record Pump := mk_pump { peer : option SocketAddr }.

(** A datagram of at most 65535 bytes from [from]. *)
Definition pump_up (p : Pump) (datagram : list Z) (from : SocketAddr) : res ioerr (option UdpPacket) * Pump :=
  let p := mk_pump (Some from) in
  match parse_udp_packet datagram with
  | Ok (addr, x) => (Ok (Some (mk_packet None (to_proxy_target addr) x)), p)
  | Err _ => (Ok None, p)
  | Panic => (Panic, p)
  end.

(** The datagram for a packet and the address it is sent to. *)
Definition pump_down (p : Pump) (pkt : UdpPacket) : list Z * SocketAddr :=
  let src :=
    match source pkt with
    | Some a => a
    | None =>
      match pkt_target pkt with
      | Tcp a => a
      | Domain h n => default (sa_new (V4 [0; 0; 0; 0]) 0) (parse_sockaddr (h ++ [58] ++ show_dec n))
      end
    end in
  (encode_udp_packet (from_proxy_target (pkt_target pkt)) (data pkt), default src (peer p)).

(** The reply of [handle_socks_udp] that names the relay's address. *)
Definition socks_udp_reply (local_port : Z) : list Z :=
  [5; 0; 0; 1] ++ [0; 0; 0; 0] ++ be_bytes 2 local_port.

(** ** The online tracker counts users *)

Inductive track_event := Online (u : str) | Offline (u : str).
Definition track (t : OnlineTracker) (e : track_event) : OnlineTracker :=
  match e with Online u => mark_online t u | Offline u => mark_offline t u end.

(** The connections of [u] that are open: a close without an open is ignored. *)
Definition count1 (u : str) (n : Z) (e : track_event) : Z :=
  match e with
  | Online v => if bool_decide (u = v) then n + 1 else n
  | Offline v => if bool_decide (u = v) then Z.max 0 (n - 1) else n
  end.
Definition open_count (es : list track_event) (u : str) : Z := foldl (count1 u) 0 es.

Definition tracker_inv (t : OnlineTracker) : Prop :=
  (∀ u c, by_user t !! u = Some c → 0 < c) ∧ total t = Z.of_nat (size (by_user t)).

Lemma track_inv t e :
  tracker_inv t → Z.of_nat (size (by_user t)) + 1 < 2 ^ 64 →
  tracker_inv (track t e) ∧ (size (by_user (track t e)) <= size (by_user t) + 1)%nat
  ∧ ∀ u, default 0 (by_user (track t e) !! u) = count1 u (default 0 (by_user t !! u)) e.
Proof.
  intros [Hpos Htot] Hlt. destruct e as [v|v]; cbn [track count1].
  - unfold mark_online. destruct (by_user t !! v) as [c|] eqn:E; cbn [by_user].
    + pose proof (Hpos _ _ E). rewrite (proj2 (Z.eqb_neq (c + 1) 1)) by lia.
      split; [split|split].
      * intros u c'. cbn. rewrite lookup_insert_Some. intros [[_ <-]|[_ H']]; [lia | by eapply Hpos].
      * cbn. by rewrite map_size_insert_Some.
      * rewrite map_size_insert_Some by done. lia.
      * intros u. destruct (bool_decide_reflect (u = v)) as [->|].
        -- by rewrite lookup_insert_eq, E.
        -- by rewrite lookup_insert_ne.
    + change (1 =? 1) with true. cbv iota. split; [split|split].
      * intros u c'. cbn. rewrite lookup_insert_Some. intros [[_ <-]|[_ H']]; [lia | by eapply Hpos].
      * cbn. rewrite map_size_insert_None by done. unfold wadd. rewrite wrap_small; [lia|].
        unfold in_range. lia.
      * rewrite map_size_insert_None by done. lia.
      * intros u. destruct (bool_decide_reflect (u = v)) as [->|].
        -- by rewrite lookup_insert_eq, E.
        -- by rewrite lookup_insert_ne.
  - unfold mark_offline. destruct (by_user t !! v) as [c|] eqn:E.
    + pose proof (Hpos _ _ E). destruct (Z.leb_spec (c - 1) 0); cbn [by_user].
      * split; [split|split].
        -- intros u c'. cbn. rewrite lookup_delete_Some. intros [_ H']. by eapply Hpos.
        -- cbn. rewrite map_size_delete_Some by eauto. unfold wadd.
           assert (size (by_user t) ≠ 0%nat).
           { intros Hz. apply map_size_empty_inv in Hz. rewrite Hz, lookup_empty in E. done. }
           rewrite wrap_small; [lia|]. unfold in_range. lia.
        -- rewrite map_size_delete_Some by eauto. lia.
        -- intros u. destruct (bool_decide_reflect (u = v)) as [->|].
           ++ rewrite lookup_delete_eq, E. cbn. lia.
           ++ by rewrite lookup_delete_ne.
      * split; [split|split].
        -- intros u c'. cbn. rewrite lookup_insert_Some. intros [[_ <-]|[_ H']]; [lia | by eapply Hpos].
        -- cbn. by rewrite map_size_insert_Some.
        -- rewrite map_size_insert_Some by done. lia.
        -- intros u. destruct (bool_decide_reflect (u = v)) as [->|].
           ++ rewrite lookup_insert_eq, E. cbn. lia.
           ++ by rewrite lookup_insert_ne.
    + split; [done|]. split; [lia|]. intros u.
      destruct (bool_decide_reflect (u = v)) as [->|]; [by rewrite E | done].
Qed.

(** The tracker is an exact count.  After any sequence of fewer than 2^64
    openings and closings, in any order, the count kept for each user is the
    number of that user's open connections (a close with none open counts for
    nothing), users without one are not in the table, and the online gauge is
    the number of users in it. *)
Theorem online_tracker_counts es :
  Z.of_nat (length es) + 1 < 2 ^ 64 →
  let t := foldl track tracker_new es in
  (∀ u, default 0 (by_user t !! u) = open_count es u)
  ∧ (∀ u c, by_user t !! u = Some c → 0 < c)
  ∧ online_total t = Z.of_nat (size (by_user t)).
Proof.
  intros Hl. assert (∀ l t, tracker_inv t → Z.of_nat (size (by_user t) + length l) + 1 < 2 ^ 64 →
    tracker_inv (foldl track t l)
    ∧ ∀ u, default 0 (by_user (foldl track t l) !! u) = foldl (count1 u) (default 0 (by_user t !! u)) l)
    as Hgen.
  { clear. induction l as [|e l IH]; intros t Ht Hs; cbn [foldl]; [done|]. cbn [length] in Hs.
    destruct (track_inv t e) as (H1 & H2 & H3); [done | lia|].
    destruct (IH (track t e)) as [H4 H5]; [done | lia|]. split; [done|]. intros u. by rewrite H5, H3. }
  destruct (Hgen es tracker_new) as [[H1 H2] H3].
  - split; [|done]. intros u c. cbn. by rewrite lookup_empty.
  - cbn [by_user tracker_new]. rewrite map_size_empty. lia.
  - split; [|by split]. intros u. rewrite H3. cbn [by_user tracker_new]. by rewrite lookup_empty.
Qed.

Lemma online_tracker_counts_witness :
  let es := [Online (bs "a"); Online (bs "b"); Offline (bs "a"); Offline (bs "a"); Online (bs "b")] in
  let t := foldl track tracker_new es in
  (∀ u, default 0 (by_user t !! u) = open_count es u)
  ∧ (∀ u c, by_user t !! u = Some c → 0 < c) ∧ online_total t = Z.of_nat (size (by_user t)).
Proof. intros es. apply (online_tracker_counts es). vm_compute. reflexivity. Defined.

(** ** Sessions forward what the client sends *)

Lemma pending_clean s : clean s → Sniff.pending s = avail s.
Proof.
  unfold clean, Sniff.pending, avail. induction 1 as [|[b|e] evs He H IH]; cbn; [done | by f_equal | done].
Qed.

Lemma inspect_clean fuel buf s : clean s → clean (inspect_go fuel buf s).2.
Proof.
  revert buf s. induction fuel as [|fuel IH]; intros buf s Hs; cbn [inspect_go]; [done|].
  destruct (try_classify buf) as [[o|]|e|]; try done;
    destruct (read_clean 512 s) as (b & s1 & -> & Hc & _); try done; try lia;
    destruct b; try done; destruct (HTTP_MAX_READ <? _)%nat; try done; by apply IH.
Qed.

Lemma kc_socks cfg : keeps_clean (Socks5.handshake cfg).
Proof. unfold Socks5.handshake, read_greeting, read_request, write_method_choice, write_reply. keeps_clean. Qed.
Lemma kc_trojan hash : keeps_clean (Trojan.handshake hash).
Proof. unfold Trojan.handshake, Trojan.read_request_head, read_addr. keeps_clean. Qed.
Lemma kc_vless uuids : keeps_clean (Vless.handshake uuids).
Proof. unfold Vless.handshake, Vless.read_request_head, write_response. keeps_clean. Qed.

(** The sniffer does not abort on any part of the payload it may hold. *)
Definition sniff_safe (payload : list Z) : bool :=
  forallb (λ n, negb (is_panic (try_classify (take n payload)))) (seq 0 (S (length payload))).

Lemma sniff_safe_prefix p q : sniff_safe (p ++ q) = true → try_classify p ≠ Panic.
Proof.
  intros H E. unfold sniff_safe in H. rewrite forallb_forall in H.
  specialize (H (length p)). rewrite take_app_length, E in H.
  discriminate H. apply in_seq. rewrite length_app. lia.
Qed.

Lemma inspect_go_safe payload fuel : ∀ buf s,
  clean s → buf ++ avail s = payload → sniff_safe payload = true →
  ∃ out s', inspect_go fuel buf s = (Ok out, s').
Proof.
  induction fuel as [|fuel IH]; intros buf s Hc Hp Hs; cbn [inspect_go]; [by do 2 eexists|].
  pose proof (sniff_safe_prefix buf (avail s)) as Hnp. rewrite Hp in Hnp. specialize (Hnp Hs).
  destruct (try_classify buf) as [[o|]|[]|]; [by do 2 eexists| |done].
  destruct (read_clean 512 s) as (b & s1 & -> & Hc1 & Ha & _); [lia | done|].
  destruct b as [|x b]; [by do 2 eexists|].
  destruct (HTTP_MAX_READ <? _)%nat; [by do 2 eexists|].
  apply IH; [done| |done]. by rewrite <- app_assoc, <- Ha.
Qed.

(** A listener and the head with which a client names a target, and the
    listener's answer. *)
Inductive agrees `{Sha2} : InboundProto → ProxyTarget → list Z → list Z → Prop :=
| agrees_trojan pw t :
    target_addr_wf t →
    agrees (ITrojan (password_hash pw)) t (encode_request_head Trojan.CMD_CONNECT t (password_hash pw)) []
| agrees_vless u allowed t :
    target_addr_wf t → length u = 16%nat → u ∈ allowed →
    agrees (IVless allowed) t (encode_request u CMD_TCP t []) [0; 0]
| agrees_socks ms a :
    addr_wf a → 0 ∈ ms → (0 < length ms)%nat →
    agrees (ISocks (mk_socks_in None None)) (to_proxy_target a)
      (greeting ms ++ [VER; command_to_u8 Connect; 0] ++ Socks5.encode a)
      ([VER; 0] ++ [VER; REP_SUCCEEDED; 0] ++ Socks5.encode a).

Section Forwarding.
Context `{RL : RegexLib} `{SH : Sha2}.
Context (dial : Connector → ProxyTarget → res ioerr sock).
Context (copy : sock → sock → res ioerr (Z * Z) * (sock * sock)).
Context (accept_ss : str → str → sock → res ioerr (ProxyTarget * sock) * sock).
Context (accept_vmess : list (list Z) → sock → res ioerr (ProxyTarget * sock) * sock).

(** What tokio documents of [copy_bidirectional]: on streams that end without
    an error and accept writes, each side receives what the other one sends,
    and the two counts are returned. *)
Definition copies : Prop :=
  ∀ a b, clean a → clean b → s_wr a = [] → s_wr b = [] →
  ∃ a' b', copy a b = (Ok (Z.of_nat (length (avail a)), Z.of_nat (length (avail b))), (a', b'))
    ∧ s_out a' = s_out a ++ avail b ∧ s_out b' = s_out b ++ avail a.

(** The handshake of a listener accepts a TCP session. *)
Definition accepts (p : InboundProto) (s : sock) (t : ProxyTarget) (s' : sock) : Prop :=
  match p with
  | ISocks cfg => Socks5.handshake cfg s = (Ok (AccTcp t), s')
  | ITrojan hash => Trojan.handshake hash s = (Ok (TrTcp t), s')
  | IVless uuids => Vless.handshake uuids s = (Ok (VlTcp t), s')
  | _ => False
  end.

Lemma agrees_accepts p t head reply payload s :
  agrees p t head reply → clean s → s_wr s = [] → avail s = head ++ payload →
  ∃ s', accepts p s t s' ∧ clean s' ∧ avail s' = payload ∧ s_out s' = s_out s ++ reply ∧ s_wr s' = [].
Proof.
  intros Hag Hc Hwr Ha. destruct Hag as [pw t Ht | u allowed t Ht Hu Hin | ms a Hwf Hin Hms].
  - destruct (password_hash_hex pw) as [H1 H2].
    assert (Hy : yields (Trojan.handshake (password_hash pw))
      (encode_request_head Trojan.CMD_CONNECT t (password_hash pw) ++ payload) (Ok (TrTcp t)) payload []).
    { unfold Trojan.handshake. eapply yields_silent; [by apply yields_request_head|].
      cbn [Trojan.CMD_CONNECT Z.eqb Pos.eqb]. apply yields_ret. }
    destruct (Hy _ Ha Hwr) as (s' & Hs & Hi & Ho & Hw & _). exists s'.
    split; [done|]. split; [|done].
    pose proof (kc_trojan (password_hash pw) _ Hc) as K. by rewrite Hs in K.
  - assert (Hy : yields (Vless.handshake allowed)
      (encode_request u CMD_TCP t [] ++ payload) (Ok (VlTcp t)) payload [0; 0]).
    { unfold Vless.handshake. eapply yields_silent; [by apply yields_vless_head|].
      cbv beta iota. rewrite bool_decide_true by done. cbn [negb CMD_TCP Z.eqb Pos.eqb].
      apply yields_write_ret. }
    destruct (Hy _ Ha Hwr) as (s' & Hs & Hi & Ho & Hw & _). exists s'.
    split; [done|]. split; [|done].
    pose proof (kc_vless allowed _ Hc) as K. by rewrite Hs in K.
  - assert (Hy : yields (Socks5.handshake (mk_socks_in None None))
      (greeting ms ++ [VER; command_to_u8 Connect; 0] ++ Socks5.encode a ++ payload)
      (Ok (AccTcp (to_proxy_target a))) payload ([VER; 0] ++ [VER; REP_SUCCEEDED; 0] ++ Socks5.encode a)).
    { unfold Socks5.handshake. eapply yields_silent; [by apply yields_greeting|]. cbn [andb negb si_username].
      rewrite bool_decide_true by done. apply yields_ret_bind, yields_write, yields_ret_bind.
      eapply yields_silent; [by apply yields_read_request|].
      rewrite <- encode_into_app. apply yields_write_ret. }
    rewrite <- !app_assoc in Ha.
    destruct (Hy _ Ha Hwr) as (s' & Hs & Hi & Ho & Hw & _). exists s'.
    split; [done|]. split; [|done].
    pose proof (kc_socks (mk_socks_in None None) _ Hc) as K. by rewrite Hs in K.
Qed.

Lemma agrees_runs p t head reply payload s (c : Counters) (sh : PipelineShared) :
  agrees p t head reply → clean s → s_wr s = [] → avail s = head ++ payload →
  ∃ s', run_proto_pipeline dial copy accept_ss accept_vmess sh c p s = run_tcp_route dial copy sh c s' t []
    ∧ clean s' ∧ avail s' = payload ∧ s_out s' = s_out s ++ reply ∧ s_wr s' = [].
Proof.
  intros Hag Hc Hw Ha. destruct (agrees_accepts p t head reply payload s Hag Hc Hw Ha) as (s' & Hs & H).
  exists s'. split; [|done]. destruct p; try done; cbn [accepts run_proto_pipeline] in *; by rewrite Hs.
Qed.

Lemma agrees_run p t head reply payload segs (c : Counters) (sh : PipelineShared) :
  agrees p t head reply → concat segs = head ++ payload →
  ∃ s', run_proto_pipeline dial copy accept_ss accept_vmess sh c p (stream_of segs)
        = run_tcp_route dial copy sh c s' t []
    ∧ clean s' ∧ avail s' = payload ∧ s_out s' = reply ∧ s_wr s' = [].
Proof.
  intros Hag E. apply (agrees_runs p t head reply payload (stream_of segs)); [done|apply clean_stream_of|done|].
  by rewrite avail_stream_of.
Qed.

(** A session whose stream still holds the payload, routed to a server. *)
Lemma routed_forwards payload t c sh conn remote s1 :
  clean s1 → avail s1 = payload → s_wr s1 = [] → sniff_safe payload = true →
  (∀ host, route (sh_router sh) t host (sh_inbound_tag sh) = Proxy conn) →
  dial conn t = Ok remote → clean remote → s_wr remote = [] → copies →
  let r := run_tcp_route dial copy sh c s1 t [] in
  ∃ remote' sniffed, rl_res r = Ok tt ∧ rl_remote r = Some remote'
    ∧ s_out remote' = s_out remote ++ payload
    ∧ s_out (rl_client r) = s_out s1 ++ avail remote
    ∧ (sniffed <= length payload)%nat
    ∧ rl_counters r = add_down (add_up c (Z.of_nat (length payload - sniffed))) (Z.of_nat (length (avail remote))).
Proof.
  intros Hc1 Ha1 Hw1 Hsafe Hroute Hdial Hcr Hwr Hcopy r.
  subst r. unfold run_tcp_route. rewrite inspect_stream_unfold.
  destruct (inspect_go_safe payload (HTTP_MAX_READ + 2) [] s1) as (out & s2 & E2); [done..|].
  pose proof (inspect_clean (HTTP_MAX_READ + 2) [] s1 Hc1) as Hc2. rewrite E2 in Hc2 |- *.
  apply inspect_go_ok in E2 as (Hp & [Ho2 Hw2] & _). cbn [app] in Hp. cbn [snd] in Hc2.
  rewrite !pending_clean, Ha1 in Hp by done. cbn [app].
  unfold resolve_action, execute_tcp. rewrite Hroute, Hdial.
  assert (∃ rem, (match so_consumed out with [] => ret tt | _ => write_all (so_consumed out) end) remote
    = (Ok tt, rem) ∧ clean rem ∧ s_wr rem = [] ∧ s_out rem = s_out remote ++ so_consumed out
      ∧ avail rem = avail remote) as (rem & -> & Hcrem & Hwrem & Horem & Harem).
  { unfold write_all. destruct (so_consumed out) as [|b l]; [exists remote; by rewrite app_nil_r|].
    rewrite Hwr. by eexists. }
  destruct (Hcopy s2 rem) as (a' & b' & -> & Hoa & Hob); [done | done | congruence | done|].
  exists b', (length (so_consumed out)). cbn [rl_res rl_remote rl_client rl_counters].
  rewrite Hoa, Hob, Horem, Ho2, Harem, <- app_assoc, Hp, <- Hp, length_app.
  repeat split; try done; [lia|]. do 3 f_equal. lia.
Qed.

(** C4: end to end, the proxy is transparent.  A client of the trojan, VLESS or
    SOCKS5 listener that names a target and then sends a payload, cut into
    segments in any way, has exactly the payload delivered to the remote
    server of the chosen outbound, the bytes read for sniffing included and
    first; it receives the listener's answer followed by exactly what the
    server sends.  The upload counter misses the bytes that were sniffed. *)
Theorem pipeline_forwards p t head reply payload segs c sh conn remote :
  agrees p t head reply → concat segs = head ++ payload → sniff_safe payload = true →
  (∀ host, route (sh_router sh) t host (sh_inbound_tag sh) = Proxy conn) →
  dial conn t = Ok remote → clean remote → s_wr remote = [] → copies →
  let r := run_proto_pipeline dial copy accept_ss accept_vmess sh c p (stream_of segs) in
  ∃ remote' sniffed, rl_res r = Ok tt ∧ rl_remote r = Some remote'
    ∧ s_out remote' = s_out remote ++ payload
    ∧ s_out (rl_client r) = reply ++ avail remote
    ∧ (sniffed <= length payload)%nat
    ∧ rl_counters r = add_down (add_up c (Z.of_nat (length payload - sniffed))) (Z.of_nat (length (avail remote))).
Proof.
  intros Hag Hs Hsafe Hroute Hdial Hcr Hwr Hcopy r.
  destruct (agrees_run p t head reply payload segs c sh Hag Hs) as (s1 & Hr & Hc1 & Ha1 & Ho1 & Hw1).
  subst r. rewrite Hr, <- Ho1. by apply (routed_forwards payload t c sh conn remote s1).
Qed.
End Forwarding.

(** A router that sends everything to one outbound, and a copy. *)
Definition open_rule : @CompiledRule literal_regex :=
  match @compile literal_regex (mk_ast [] [] [] [] [] [] [] [] []) with
  | Ok r => r
  | _ => @mk_rule literal_regex (@dm_new literal_regex) (mk_ipm [] []) [] [] port_new [] false
  end.
Definition open_router : @Router literal_regex :=
  @mk_router literal_regex [@mk_entry literal_regex open_rule (bs "direct") None]
    {[ bs "direct" := CDirect ]} None (@registry_new literal_regex).
Definition copy_all (a b : sock) : res ioerr (Z * Z) * (sock * sock) :=
  (Ok (Z.of_nat (length (avail a)), Z.of_nat (length (avail b))),
   (mk_sock [] (s_out a ++ avail b) [] true, mk_sock [] (s_out b ++ avail a) [] true)).

Lemma copy_all_copies : copies copy_all.
Proof. intros a b _ _ _ _. by do 2 eexists. Qed.

Lemma pipeline_forwards_witness :
  let t := Domain (bs "a.b") 80 in
  let hash := @password_hash pad_sha2 (bs "pw") in
  let segs := [encode_request_head Trojan.CMD_CONNECT t hash ++ bs "GET"; bs " / HTTP/1.1"; [13; 10]] in
  let payload := bs "GET / HTTP/1.1" ++ [13; 10] in
  let remote := stream_of [[1; 2]; [3]] in
  let r := @run_proto_pipeline literal_regex (λ _ _, Ok remote) copy_all (λ _ _ s, (Panic, s))
    (λ _ s, (Panic, s)) (@mk_shared literal_regex (bs "in") open_router) counters_default
    (ITrojan hash) (stream_of segs) in
  ∃ remote' sniffed, rl_res r = Ok tt ∧ rl_remote r = Some remote'
    ∧ s_out remote' = [] ++ payload ∧ s_out (rl_client r) = [] ++ [1; 2; 3]
    ∧ (sniffed <= length payload)%nat
    ∧ rl_counters r = add_down (add_up counters_default (Z.of_nat (length payload - sniffed))) 3.
Proof.
  intros t hash segs payload remote r.
  apply (@pipeline_forwards literal_regex pad_sha2 (λ _ _, Ok remote) copy_all (λ _ _ s, (Panic, s))
    (λ _ s, (Panic, s)) (ITrojan hash) t (encode_request_head Trojan.CMD_CONNECT t hash) [] payload segs
    counters_default (@mk_shared literal_regex (bs "in") open_router) CDirect remote).
  - apply agrees_trojan. by_decide.
  - vm_compute. reflexivity.
  - vm_compute. reflexivity.
  - intros host. vm_compute. reflexivity.
  - reflexivity.
  - apply clean_stream_of.
  - reflexivity.
  - apply copy_all_copies.
Defined.

(** C22: a refused session reaches nobody.  When routing rejects, the result is
    a success that wrote nothing to the client and contacted no server; when a
    rule hijacks, the client gets exactly the configured response and the
    stream is shut down, and again no server is contacted; the counters are
    untouched. *)
Theorem denied_sessions `{RL : RegexLib} dial copy sh c s t pre out s1 :
  inspect_stream s = (Ok out, s1) → s_wr s = [] →
  let r := run_tcp_route dial copy sh c s t pre in
  match resolve_action sh t (match so_host out with Some h => Some h | None => domain_of t end) with
  | Reject => rl_res r = Ok tt ∧ s_out (rl_client r) = s_out s ∧ rl_remote r = None ∧ rl_counters r = c
  | Hijack b => rl_res r = Ok tt ∧ s_out (rl_client r) = s_out s ++ b ∧ s_shut (rl_client r) = true
                ∧ rl_remote r = None ∧ rl_counters r = c
  | Proxy _ => True
  end.
Proof.
  intros H Hw r. subst r. unfold run_tcp_route. rewrite H.
  rewrite inspect_stream_unfold in H. apply inspect_go_ok in H as (_ & [Ho Hw1] & _).
  destruct (resolve_action _ _ _); [done | by rewrite <- Ho|].
  cbn [execute_tcp]. unfold io_bind, write_all. rewrite Hw1, Hw. cbn. by rewrite Ho.
Qed.

Lemma denied_sessions_witness :
  let sh := @mk_shared literal_regex (bs "in")
    (@mk_router literal_regex [@mk_entry literal_regex open_rule (bs "x") (Some [7; 7])] ∅ None (@registry_new literal_regex)) in
  let r := @run_tcp_route literal_regex (λ _ _, Panic) copy_all sh counters_default (stream_of [[1]; [2]])
    (Domain (bs "a") 1) [] in
  rl_res r = Ok tt ∧ s_out (rl_client r) = [] ++ [7; 7] ∧ s_shut (rl_client r) = true
  ∧ rl_remote r = None ∧ rl_counters r = counters_default.
Proof.
  intros sh r.
  pose proof (@denied_sessions literal_regex (λ _ _, Panic) copy_all sh counters_default (stream_of [[1]; [2]])
    (Domain (bs "a") 1) [] (mk_outcome None (bs "unknown") [1; 2]) (mk_sock [] [] [] false)) as H.
  apply H; [vm_compute; reflexivity | reflexivity].
Defined.

(** ** UDP sessions *)

Lemma next_trojan_frame d a p more rest :
  addr_wf a → Z.of_nat (length p) < 65536 → bytes (d_buf d) → d_eof d = false →
  d_buf d ++ more = frame_encode a p ++ rest →
  next_trojan d =
    if (length (frame_encode a p) <=? length (d_buf d))%nat
    then (Ok (Some (Ok (to_proxy_target a, p))), mk_decoder (drop (length (frame_encode a p)) (d_buf d)) false)
    else (Ok None, d).
Proof. intros. unfold next_trojan. erewrite next_packet_frame by done. by destruct (_ <=? _)%nat. Qed.

Definition frames (pkts : list (Socks5Addr * list Z)) : list Z :=
  concat (map (λ q, frame_encode q.1 q.2) pkts).
Definition packets (pkts : list (Socks5Addr * list Z)) : list UdpPacket :=
  map (λ q, mk_packet None (to_proxy_target q.1) q.2) pkts.
Definition packet_wf (q : Socks5Addr * list Z) : Prop := addr_wf q.1 ∧ Z.of_nat (length q.2) < 65536.

(** Draining a buffer that starts a sequence of frames takes the complete ones. *)
Lemma drain_frames n : ∀ d more pkts,
  Forall packet_wf pkts → bytes (d_buf d) → d_eof d = false →
  d_buf d ++ more = frames pkts → (length (d_buf d) < n)%nat →
  ∃ done left d', pkts = done ++ left ∧ drain_packets next_trojan n d = (packets done, true, d')
    ∧ bytes (d_buf d') ∧ d_eof d' = false ∧ d_buf d' ++ more = frames left
    ∧ next_trojan d' = (Ok None, d').
Proof.
  induction n as [|n IH]; intros d more pkts Hp Hb He E Hn; [lia|]. cbn [drain_packets].
  destruct pkts as [|[a p] pkts].
  { cbn in E. apply app_eq_nil in E as [E ->]. destruct d as [buf eof]. cbn [d_buf d_eof] in E, He. subst.
    by exists [], [], (mk_decoder [] false). }
  apply Forall_cons in Hp as [[Ha Hl] Hp]. cbn [fst snd] in *.
  change (frames ((a, p) :: pkts)) with (frame_encode a p ++ frames pkts) in E.
  rewrite (next_trojan_frame d a p more (frames pkts)) by done.
  destruct (Nat.leb_spec (length (frame_encode a p)) (length (d_buf d))) as [Hle|Hgt].
  - destruct (prefix_split _ _ _ _ E Hle) as [_ E2].
    destruct (IH (mk_decoder (drop (length (frame_encode a p)) (d_buf d)) false) more pkts)
      as (dn & lf & d' & -> & -> & H1 & H2 & H3 & H4); cbn [d_buf d_eof]; try done.
    + by apply bytes_drop.
    + rewrite length_drop, frame_length in *. lia.
    + exists ((a, p) :: dn), lf, d'. done.
  - exists [], ((a, p) :: pkts), d. repeat split; try done.
    rewrite (next_trojan_frame d a p more (frames pkts)) by done.
    by rewrite (proj2 (Nat.leb_gt _ _)).
Qed.

Lemma uplink_frames fuel : ∀ d s pkts,
  Forall packet_wf pkts → bytes (frames pkts) → d_eof d = false → clean s →
  d_buf d ++ avail s = frames pkts → next_trojan d = (Ok None, d) →
  (length (avail s) < fuel)%nat →
  (udp_uplink next_trojan fuel d s).1 = packets pkts.
Proof.
  induction fuel as [|fuel IH]; intros d s pkts Hp Hb He Hc E Hd Hf; [lia|]. cbn [udp_uplink].
  destruct (read_clean (Z.to_nat 65536) s) as (b & s1 & -> & Hc1 & Ha & Hn & _); [lia | done|].
  assert (Hbd : bytes (d_buf d) ∧ bytes (avail s)) by (apply bytes_app; by rewrite E).
  destruct Hbd as [Hbd Hbs].
  destruct b as [|x b].
  - rewrite Hn, app_nil_r in E by done. destruct pkts as [|[a p] pkts]; [done|]. exfalso.
    apply Forall_cons in Hp as [[Hpa Hpl] _]. cbn [fst snd] in *.
    change (frames ((a, p) :: pkts)) with (frame_encode a p ++ frames pkts) in E.
    rewrite (next_trojan_frame d a p [] (frames pkts)) in Hd by (done || by rewrite app_nil_r).
    by rewrite (proj2 (Nat.leb_le _ _)) in Hd by (rewrite E, length_app; lia).
  - destruct (drain_frames (S (length (d_buf (feed d (x :: b))))) (feed d (x :: b)) (avail s1) pkts)
      as (dn & lf & d' & -> & -> & H1 & H2 & H3 & H4); try done.
    + unfold feed. cbn [d_buf]. apply bytes_app. rewrite Ha in Hbs. apply bytes_app in Hbs as [? _]. done.
    + unfold feed. cbn [d_buf]. by rewrite <- app_assoc, <- Ha.
    + cbn [d_buf]. lia.
    + cbn iota. apply Forall_app in Hp as [_ Hp].
      unfold frames in Hb. rewrite map_app, concat_app in Hb. apply bytes_app in Hb as [_ Hb].
      assert (length (avail s1) < fuel)%nat as Hf1 by (rewrite Ha in Hf; cbn in Hf; rewrite ?length_app in Hf; lia).
      specialize (IH d' s1 lf Hp Hb H2 Hc1 H3 H4 Hf1).
      destruct (udp_uplink next_trojan fuel d' s1) as [qs s']. cbn [fst] in *. subst qs.
      unfold packets. by rewrite map_app.
Qed.

(** C29: a trojan UDP session delivers what its client sent: from the frames of
    any list of packets, cut into segments in any way, the listener's task
    sends on exactly those packets, in order; one round per segment read is
    enough. *)
Theorem trojan_udp_inbound pkts segs fuel :
  Forall (λ q, packet_wf q ∧ bytes q.2) pkts → concat segs = frames pkts →
  (length (concat segs) < fuel)%nat →
  (trojan_uplink fuel (stream_of segs)).1 = packets pkts.
Proof.
  intros Hp Hs Hf. apply uplink_frames; try done.
  - eapply Forall_impl; [done|]. by intros q [? _].
  - clear Hs Hf. induction Hp as [|[a p] l ((H1 & H2) & H3) _ IH]; [constructor|].
    apply bytes_app. split; [|done]. cbn [fst snd] in *. unfold frame_encode. byt; try by apply encode_bytes.
    all: unfold CRLF; by_decide.
  - apply clean_stream_of.
  - by rewrite avail_stream_of.
  - by rewrite avail_stream_of.
Qed.

Lemma trojan_udp_inbound_witness :
  (trojan_uplink 40 (stream_of [[1; 8; 8; 8]; [8; 0; 53; 13; 10; 0; 2; 13; 10; 5; 6; 3; 1];
                                 [97; 0; 80; 13; 10; 0; 0; 13; 10]])).1
  = [mk_packet None (Tcp (sa_new (V4 [8; 8; 8; 8]) 53)) [5; 6]; mk_packet None (Domain (bs "a") 80) []].
Proof.
  apply (trojan_udp_inbound [(SV4 [8; 8; 8; 8] 53, [5; 6]); (SDomain (bs "a") 80, [])]);
    [|vm_compute; reflexivity | simpl; lia].
  repeat constructor; cbn; by_decide.
Defined.
