(* ===== verification/Outbound.v ===== *)
(** * Outbound: dialling through the connectors

    [omni-transport/src/dial.rs], the connectors of
    [omni-core/src/runtime/assembly/outbound_artifacts.rs] with their transports,
    their session pools and the HTTP CONNECT client, and the SOCKS5 client of
    [omni-proto/src/proto/socks/mod.rs].  What lies below, name lookup, TCP,
    TLS, WebSocket and HTTP/2 connections and multiplexed sessions, is the class
    [Network]. *)

From S2P Require Import Prelude Text Net Io Resolver Socks5 Matching Geo Crypto Config Node Core Trojan Vless Aead Shadowsocks Vmess Mieru.
From S2P Require Import Mux Ws H2 Pipeline.
From S2P Require Anytls.

(** ** The network *)

Class Network := {
  (** the resolver of the dialer, and tokio's [lookup_host] *)
  lookup : str → Z → res ioerr (list SocketAddr);
  lookup_host : str → Z → res ioerr (list SocketAddr);
  (** a TCP connection, and whether it was made within ten seconds *)
  tcp_connect : SocketAddr → bool * res ioerr sock;
  (** rustls: whether a text is a server name, and a handshake, which may take
      longer than ten seconds *)
  server_name : str → res str unit;
  tls_connect : TlsClientSpec → str → sock → bool * res ioerr sock;
  (** tungstenite: a handshake for a URL and a [Host] header, as a stream *)
  ws_connect : str * str → sock → res ioerr sock;
  (** h2: the handshake, and a request on the connection: the status and the stream *)
  h2_handshake : sock → res str unit;
  h2_send : sock → ClientRequest → res str (Z * sock);
  (** smux and yamux: a session over a connection, and its streams *)
  mux_session : Type;
  mux_client : sock → MuxKind → res ioerr mux_session;
  mux_reuse : nat → mux_session → option sock;
  mux_open : mux_session → res ioerr sock;
  (** how the bytes of a duplex are cut into reads *)
  arrives : list Z → list (list Z);
  arrives_concat : ∀ l, concat (arrives l) = l
}.

Section Dialing.
Context `{NW : Network}.

(** ** [Dialer] *)

Definition dial_timeout : ioerr := mk_ioerr TimedOut (bs "dial: timeout").
Definition connect_timeout (x : bool * res ioerr sock) (e : ioerr) : res ioerr sock := if x.1 then x.2 else Err e.

Definition dial_tcp (target : ProxyTarget) : res ioerr sock :=
  let? addr := dialer_resolve lookup target in
  connect_timeout (tcp_connect addr) dial_timeout.

(** The local address of [bind_udp_for]. *)
Definition bind_udp_for (target : ProxyTarget) : res ioerr str :=
  let? addr := dialer_resolve lookup target in
  Ok (if is_v4 (ip addr) then bs "0.0.0.0:0" else bs "[::]:0").

(** ** The connection to a server *)

Definition resolve_server_addr (server : str) (port : Z) : res ioerr SocketAddr :=
  dialer_resolve lookup (Domain server port).

Definition server_name_for (host : str) (override_name : option str) : str :=
  let name := default host override_name in default name (head (split 58 name)).

(** An IPv6 server is asked for a certificate of its first group. *)
Example server_name_v6 : server_name_for (bs "2001:db8::1") None = bs "2001" ∧ server_name_for (bs "::1") None = [].
Proof. split; reflexivity. Qed.

(** The dial that opens each connector. *)
Definition dial_server_addr (server : str) (port : Z) : res ioerr sock :=
  let? addr := resolve_server_addr server port in
  connect_timeout (tcp_connect addr) dial_timeout.

Definition dial_underlay (server : str) (port : Z) (tls : option TlsClientSpec) : res ioerr sock :=
  let? raw := dial_server_addr server port in
  match tls with
  | None => Ok raw
  | Some spec =>
    let name := server_name_for server (sni_override spec) in
    let? _ := map_err (λ e, invalid_data (bs "tls: bad server name '" ++ name ++ bs "': " ++ e)) (server_name name) in
    connect_timeout (tls_connect spec name raw) (mk_ioerr TimedOut (bs "tls: handshake timeout"))
  end.

(** [client_handshake] over [underlay], then a request. *)
Definition h2_open (underlay : sock) (connect : (ClientRequest → res str (Z * sock)) → res ioerr sock) : res ioerr sock :=
  let? _ := map_err h2_err (h2_handshake underlay) in connect (h2_send underlay).

Context (show_status : Z → str).

Definition wrap_transport (server : str) (port : Z) (transport : option TransportSpec) (underlay : sock) : res ioerr sock :=
  match transport with
  | None => Ok underlay
  | Some t =>
    let is_ k := bool_decide (ts_kind t = k) in
    let target := Domain server port in
    if is_ (bs "ws") || is_ (bs "websocket") then
      ws_connect (outbound_request (mk_ws_out (ts_host t) (ts_path t) false) target) underlay
    else if is_ (bs "grpc") then
      let spec := mk_grpc (default (bs "GunService") (ts_service_name t)) (ts_host t) in
      h2_open underlay (λ send, grpc_connect send show_status spec target)
    else if is_ (bs "xhttp") then
      let spec := mk_xhttp (ts_path t) (ts_host t) None in
      h2_open underlay (λ send, xhttp_connect send show_status spec target)
    else if is_ (bs "h2") then
      h2_open underlay (λ send, open_proxy_stream send show_status (bs "GET") (default [47] (ts_path t))
                                  (default server (ts_host t)) [])
    else Err (mk_ioerr Unsupported (bs "transport '" ++ ts_kind t ++ bs "' not yet implemented"))
  end.

(** The lease of a pooled stream is dropped here. *)
Definition dial_with_transport (server : str) (port : Z) (tls : option TlsClientSpec) (transport : option TransportSpec)
    (mux_pool : option (MuxPool (Sess := mux_session))) : res ioerr sock * option (MuxPool (Sess := mux_session)) :=
  match mux_pool with
  | Some pool =>
    let '(r, pool) := Mux.dial mux_reuse (dial_underlay server port tls) mux_client mux_open pool in
    ((let? x := r in wrap_transport server port transport x.1), Some pool)
  | None => ((let? underlay := dial_underlay server port tls in wrap_transport server port transport underlay), None)
  end.
End Dialing.

(** ** The HTTP CONNECT client *)

Section HttpConnect.
Context (b64 : list Z → str).
Definition CRLF1 : list Z := [13; 10].

Definition connect_request (target : ProxyTarget) (user pass : option str) : list Z :=
  let a := show_target target in
  bs "CONNECT " ++ a ++ bs " HTTP/1.1" ++ CRLF1 ++ bs "Host: " ++ a ++ CRLF1
  ++ match user with
     | Some u => bs "Proxy-Authorization: Basic " ++ b64 (u ++ [58] ++ default [] pass) ++ CRLF1
     | None => []
     end
  ++ CRLF1.

Definition MAX_CONNECT_HEAD : nat := Z.to_nat 32768.

(** The reading loop.  Every turn takes at least one byte, so
    [S (S MAX_CONNECT_HEAD)] turns are enough. *)
Fixpoint read_connect_head (fuel : nat) (buf : list Z) : io (list Z) :=
  match fuel with
  | O => ret buf
  | S fuel =>
    do! tmp := read 512 in
    match tmp with
    | [] => fail (mk_ioerr UnexpectedEof (bs "http proxy: closed during CONNECT"))
    | _ =>
      let buf := buf ++ tmp in
      if contains CRLF2 buf then ret buf
      else if (MAX_CONNECT_HEAD <? length buf)%nat
      then fail (invalid_data (bs "http proxy: oversized response"))
      else read_connect_head fuel buf
    end
  end.

Definition connect_status (buf : list Z) : str :=
  default (bs "500") (first_line (from_utf8_lossy buf) ≫= λ l, split_whitespace l !! 1%nat).

Definition http_connect_handshake (target : ProxyTarget) (user pass : option str) : io unit :=
  do! _ := write_all (connect_request target user pass) in
  do! buf := read_connect_head (S (S MAX_CONNECT_HEAD)) [] in
  let status := connect_status buf in
  if negb (bool_decide (status = bs "200"))
  then fail (mk_ioerr ConnectionRefused (bs "http proxy: CONNECT refused (" ++ status ++ bs ")"))
  else ret tt.
End HttpConnect.

(** ** The SOCKS5 client *)

Section SocksClient.
Context `{NW : Network}.

Definition resolve_sock_addr (host : str) (port : Z) : res ioerr SocketAddr :=
  match parse_ip host with
  | Some a => Ok (sa_new a port)
  | None =>
    let? addrs := lookup_host host port in
    ok_or (other (bs "dns: no address records found")) (head addrs)
  end.

(** Without a bound on the time. *)
Definition dial_server (cfg : SocksOutboundConfig) : res ioerr sock :=
  let? addr := resolve_sock_addr (so_server cfg) (so_server_port cfg) in (tcp_connect addr).2.

Definition socks_connect (cfg : SocksOutboundConfig) (target : ProxyTarget) : res ioerr sock :=
  let? s := dial_server cfg in
  let '(r, s) := Socks5.connect_tcp cfg target s in
  let? _ := r in Ok s.

Definition is_unspecified (a : IpAddr) : bool := match a with V4 o | V6 o => forallb (Z.eqb 0) o end.

Definition udp_relay_port (bind : Socks5Addr) : Z := match bind with SV4 _ p | SV6 _ p | SDomain _ p => p end.

(** [client::connect_udp] up to the task: the control stream and the address of
    the relay. *)
Definition socks_connect_udp (cfg : SocksOutboundConfig) : res ioerr (sock * SocketAddr) :=
  let? ctrl := dial_server cfg in
  let '(r, ctrl) := (do! _ := negotiate cfg in request UdpAssociate (SV4 [0; 0; 0; 0] 0)) ctrl in
  let? bind := r in
  let? bind_ip := match bind with
                  | SV4 o _ => Ok (V4 o)
                  | SV6 o _ => Ok (V6 o)
                  | SDomain _ _ => Err (other (bs "socks5: bad UDP relay bind address"))
                  end in
  let? server_addr := resolve_sock_addr (so_server cfg) (so_server_port cfg) in
  let ip := if is_unspecified bind_ip then ip server_addr else bind_ip in
  Ok (ctrl, sa_new ip (udp_relay_port bind)).

(** What the task of [connect_udp] meets: a datagram of the relay or an error of
    the socket; a packet of the client, with whether the socket sends it, or the
    end of the client. *)
Inductive relay_event := RelayData (d : list Z) | RelayErr | ClientPacket (p : UdpPacket) (sent : bool) | ClientGone.

(** The packets for the client and the datagrams for the relay, up to the end
    of the task; [None] when the client has gone and takes no packet. *)
Fixpoint socks_udp_task (evs : list relay_event) : list UdpPacket * list (list Z) :=
  match evs with
  | [] | RelayErr :: _ | ClientGone :: _ => ([], [])
  | RelayData d :: evs =>
    let '(ps, ds) := socks_udp_task evs in
    if (length d <? 4)%nat then (ps, ds) else
    match parse_udp_packet d with
    | Ok (addr, x) => (mk_packet None (to_proxy_target addr) x :: ps, ds)
    | Err _ => (ps, ds)
    | Panic => ([], [])
    end
  | ClientPacket p sent :: evs =>
    let '(ps, ds) := if sent : bool then socks_udp_task evs else ([], []) in
    (ps, encode_udp_packet (from_proxy_target (pkt_target p)) (data p) :: ds)
  end.
End SocksClient.

(** ** The pooled session of [AnytlsConnector] and [Hysteria2Connector]

    [connect_tcp] and [udp_handle] make two attempts: get the pooled session or
    dial a new one and put it in the pool, then open a stream; after a first
    failure the pool is emptied, unless its lock is taken just then.  Many
    calls share the pool, and their steps interleave. *)

Section SessionPool.
Context {Sess St : Type}.

Inductive call :=
| Start (attempt : nat)
| Dialing (attempt : nat)
| Opening (attempt : nat) (s : Sess)
| Finished (r : res ioerr St).

(** [Got]: the pool is looked at; the other events are the outcome of a dial,
    and of an opening with whether [evict] gets the lock. *)
Inductive call_event := Got | Dialled (r : res ioerr Sess) | Opened (r : res ioerr St) (evicts : bool).

Definition call_step (ev : call_event) (c : call) (pool : option Sess) : option (call * option Sess) :=
  match c, ev with
  | Start attempt, Got =>
    if (attempt <? 2)%nat then
      match pool with
      | Some s => Some (Opening attempt s, pool)
      | None => Some (Dialing attempt, pool)
      end
    else Some (Finished Panic, pool)
  | Dialing attempt, Dialled (Ok s) => Some (Opening attempt s, Some s)
  | Dialing _, Dialled (Err e) => Some (Finished (Err e), pool)
  | Dialing _, Dialled Panic => Some (Finished Panic, pool)
  | Opening _ _, Opened (Ok st) _ => Some (Finished (Ok st), pool)
  | Opening O _, Opened (Err _) evicts => Some (Start 1, if evicts then None else pool)
  | Opening _ _, Opened (Err e) _ => Some (Finished (Err e), pool)
  | Opening _ _, Opened Panic _ => Some (Finished Panic, pool)
  | _, _ => None
  end.

(** The two calls of hysteria2: streams over a connection, and UDP sessions. *)
Definition hysteria2_call_step := call_step.
Definition hysteria2_udp_step := call_step.

(** A call by itself. *)
Fixpoint run_call (evs : list call_event) (c : call) (pool : option Sess) : option (call * option Sess) :=
  match evs with
  | [] => Some (c, pool)
  | ev :: evs => let+ (c, pool) := call_step ev c pool in run_call evs c pool
  end.

Definition connect_pooled (pool : option Sess) (dial : res ioerr Sess) (open : nat → Sess → res ioerr St) (evicts : bool)
    : option (call * option Sess) :=
  let attempt n p :=
    match p with
    | Some s => run_call [Got; Opened (open n s) evicts] (Start n) p
    | None => match dial with
              | Ok s => run_call [Got; Dialled (Ok s); Opened (open n s) evicts] (Start n) p
              | r => run_call [Got; Dialled r] (Start n) p
              end
    end in
  match attempt 0%nat pool with
  | Some (Start 1, p) => attempt 1%nat p
  | x => x
  end.

(** Many calls on one pool. *)
Record pool_world := mk_pool_world { pw_pool : option Sess; pw_calls : list call }.

Definition world_step (i : nat) (ev : call_event) (w : pool_world) : option pool_world :=
  let+ c := pw_calls w !! i in
  let+ (c, pool) := call_step ev c (pw_pool w) in
  Some (mk_pool_world pool (<[i := c]> (pw_calls w))).

Fixpoint world_run (log : list (nat * call_event)) (w : pool_world) : option pool_world :=
  match log with
  | [] => Some w
  | (i, ev) :: log => let+ w := world_step i ev w in world_run log w
  end.
End SessionPool.

(** ** The connectors *)

(** The random draws and the clock of a connection. *)
Record Draws := mk_conn_draws { dw_salt : list Z; dw_vmess : VmDraws; dw_now : Z; dw_nonce : list Z }.

Section Connectors.
Context `{NW : Network} `{AE : Aead} `{SH : Sha2} `{VC : VmessCrypto}.
Context (show_status : Z → str) (b64 : list Z → str) (hmac_sha256 : list Z → list Z → list Z).
(** The streams of the pooled sessions, by connector and target. *)
Context (pooled : Connector → ProxyTarget → res ioerr sock).

(** A duplex as a stream, while its writing task runs: it delivers what the
    reading task decrypts, as it arrives, and takes every write. *)
Definition duplex_stream (x : list Z * res ioerr unit) : sock :=
  mk_sock (map Data (arrives x.1) ++ match x.2 with Err e => [RdErr e] | _ => [] end) [] [] false.

(** Every read of the task but the last takes a byte of the stream. *)
Definition ss_duplex (r : SsReader) (s : sock) : sock := duplex_stream (duplex_read ss_read_data (S (length (avail s))) r s).
Definition vmess_duplex (r : VmReader) (s : sock) : sock := duplex_stream (duplex_read vm_read_data (S (length (avail s))) r s).
Fixpoint mieru_read (fuel : nat) (r : SegmentState) (buf : list Z) (s : sock) : list Z :=
  match fuel with
  | O => []
  | S fuel =>
    match read (Z.to_nat 65536) s with
    | (Ok (b :: l), s) =>
      let buf := buf ++ b :: l in
      let '(out, r, buf) := receive_segments (S (length buf)) r buf in
      concat out ++ mieru_read fuel r buf s
    | _ => []
    end
  end.
Definition mieru_duplex (r : SegmentState) (s : sock) : sock := duplex_stream (mieru_read (S (length (avail s))) r [] s, Ok tt).

Definition on_stream {A} (r : res ioerr sock) (m : io A) (k : A → sock → sock) : res ioerr sock :=
  let? s := r in
  let '(x, s) := m s in
  let? a := x in Ok (k a s).

Definition naive_tls (insecure : bool) (sni : option str) : TlsClientSpec := mk_tls_client insecure [bs "h2"] sni.

(** One [connect_tcp] for each connector. *)
Definition reject_connect : res ioerr sock := Err (mk_ioerr PermissionDenied (bs "rejected")).

Definition trojan_connect server port password tls transport (target : ProxyTarget) (pool : option (MuxPool (Sess := mux_session))) :=
  let '(r, pool) := dial_with_transport show_status server port tls transport pool in
  (on_stream r (Trojan.connect_tcp_raw password target) (λ _ s, s), pool).

Definition ss_connect (d : Draws) server port method password (target : ProxyTarget) : res ioerr sock :=
  on_stream (dial_server_addr server port) (ss_connect_tcp (mk_ss_config method password) (dw_salt d) target)
    (λ x, ss_duplex x.1).

Definition vless_connect server port uuid tls transport (target : ProxyTarget) (pool : option (MuxPool (Sess := mux_session))) :=
  let '(r, pool) := dial_with_transport show_status server port tls transport pool in
  (on_stream r (Vless.connect_tcp uuid target) (λ _ s, s), pool).

(** VMess has no transport, and its pool is not used. *)
Definition vmess_connect (d : Draws) server port uuid security tls (target : ProxyTarget) : res ioerr sock :=
  on_stream (dial_underlay server port tls)
    (Vmess.connect_tcp (mk_vmess_config uuid security) (dw_vmess d) (dw_now d) target) (λ x, vmess_duplex x.1).

Definition naive_dial server port (insecure : bool) (sni : option str) (target : ProxyTarget) : res ioerr sock :=
  let? underlay := (dial_with_transport show_status server port (Some (naive_tls insecure sni)) None None).1 in
  h2_open underlay (λ send, naive_connect send show_status target).

Definition mieru_connect (d : Draws) server port username password (target : ProxyTarget) : res ioerr sock :=
  let minute := dw_now d / 60 in
  let key := derive_key hmac_sha256 username password minute in
  on_stream (dial_server_addr server port) (Mieru.connect_tcp minute key (dw_nonce d) target) (λ x, mieru_duplex x.2).

Definition http_connect_tcp server port user pass (target : ProxyTarget) : res ioerr sock :=
  on_stream (dial_server_addr server port) (http_connect_handshake b64 target user pass) (λ _ s, s).

(** [OutboundConnector::connect_tcp], with the connector's own pool. *)
Definition connect_tcp (d : Draws) (c : Connector) (target : ProxyTarget) (pool : option (MuxPool (Sess := mux_session)))
    : res ioerr sock * option (MuxPool (Sess := mux_session)) :=
  match c with
  | CDirect => (dial_tcp target, pool)
  | CReject => (reject_connect, pool)
  | CTrojan _ server port password tls transport _ => trojan_connect server port password tls transport target pool
  | CSs _ server port method password => (ss_connect d server port method password target, pool)
  | CVless _ server port uuid tls transport _ => vless_connect server port uuid tls transport target pool
  | CVmess _ server port uuid security tls _ => (vmess_connect d server port uuid security tls target, pool)
  | CHysteria2 _ _ _ _ _ _ | CAnytls _ _ _ _ _ _ _ => (pooled c target, pool)
  | CNaive _ server port insecure sni => (naive_dial server port insecure sni target, pool)
  | CMieru _ server port username password => (mieru_connect d server port username password target, pool)
  | CSocks5 _ server port user pass => (socks_connect (mk_socks_out server port user pass) target, pool)
  | CHttp _ server port user pass => (http_connect_tcp server port user pass target, pool)
  end.

(** [OutboundConnector::connect_udp] up to the relay tasks: the stream to the
    server, or none for a socket of one's own. *)
Definition trojan_connect_udp server port password tls : res ioerr sock :=
  on_stream (dial_with_transport show_status server port tls None None).1 (Trojan.udp_start password) (λ _ s, s).
Definition vless_connect_udp server port uuid tls : res ioerr sock :=
  on_stream (dial_with_transport show_status server port tls None None).1 (Vless.connect_udp uuid) (λ _ s, s).

Definition connect_udp (c : Connector) : res ioerr (option sock) :=
  match c with
  | CDirect => Ok None
  | CTrojan _ server port password tls _ _ => let? s := trojan_connect_udp server port password tls in Ok (Some s)
  | CVless _ server port uuid tls _ _ => let? s := vless_connect_udp server port uuid tls in Ok (Some s)
  | _ => Err (mk_ioerr Unsupported (bs "outbound '" ++ c_tag c ++ bs "' does not support UDP"))
  end.

(** The dials of the pooled connectors; [hy_connect] is the QUIC connection with
    its authentication. *)
Definition anytls_get_session server port password version tls : res ioerr Anytls.Client :=
  let? underlay := (dial_with_transport show_status server port tls None None).1 in
  (Anytls.client_connect password version underlay).1.

Definition hysteria2_get_conn {Conn} (hy_connect : str → bool → option str → SocketAddr → res ioerr Conn)
    server port password insecure sni : res ioerr Conn :=
  let? addr := resolve_server_addr server port in
  hy_connect password insecure sni addr.
End Connectors.

(** The two tasks of [DirectOutbound::connect_udp], on a socket bound to
    [0.0.0.0]: a datagram received becomes a packet, a packet a datagram for an
    address. *)
Definition direct_receive (d : list Z) (src : SocketAddr) : UdpPacket := mk_packet (Some src) (Tcp src) d.
Definition direct_send `{Network} (p : UdpPacket) : option (list Z * SocketAddr) :=
  match pkt_target p with
  | Tcp a => inet_send (data p) a
  | Domain h n =>
    match lookup_host h n with
    | Ok (a :: _) => inet_send (data p) a
    | _ => None
    end
  end.

(** ** The proxy's answer, however it arrives *)

Lemma connect_status_line v code reason rest :
  ascii_word v → ascii_word code → Forall (λ b, 0 ≤ b < 128 ∧ b ≠ 10) reason →
  connect_status (v ++ [32] ++ code ++ [32] ++ reason ++ [13; 10] ++ rest) = code.
Proof.
  intros Hv Hc Hr. set (l := v ++ [32] ++ code ++ [32] ++ reason).
  assert (∀ w, ascii_word w → Forall (λ b, 0 ≤ b < 128 ∧ b ≠ 10) w) as Hword.
  { intros w [_ Hw]. eapply Forall_impl; [exact Hw|]. intros b [Hb Hs]. split; [done|]. by intros ->. }
  assert (Forall (λ b, 0 ≤ b < 128 ∧ b ≠ 10) (l ++ [13])) as Hl.
  { unfold l. repeat apply Forall_app_2; try (by apply Hword); try done; repeat constructor; lia. }
  assert (10 ∉ l ++ [13]) as Hno.
  { intros Hin. rewrite Forall_forall in Hl. by destruct (Hl 10 Hin). }
  replace (v ++ [32] ++ code ++ [32] ++ reason ++ [13; 10] ++ rest) with ((l ++ [13]) ++ ([10] ++ rest))
    by (unfold l; by rewrite <- !app_assoc).
  unfold connect_status. rewrite from_utf8_lossy_ascii_app.
  2:{ eapply Forall_impl; [exact Hl|]. by intros b []. }
  rewrite (from_utf8_lossy_ascii_app [10]) by (repeat constructor; lia).
  assert (first_line ((l ++ [13]) ++ [10] ++ from_utf8_lossy rest) = Some l) as ->.
  { unfold first_line. change ([10] ++ from_utf8_lossy rest) with (10 :: from_utf8_lossy rest).
    rewrite split_once_app by done. rewrite (proj2 (ends_with_iff _ _)) by (by exists l).
    rewrite length_app, Nat.add_sub, take_app_length.
    destruct l; [|done]. done. }
  cbn [mbind option_bind]. unfold l. rewrite split_whitespace_second; [done|done|done|].
  eapply Forall_impl; [exact Hr|]. by intros b [].
Qed.

Lemma MAX_CONNECT_HEAD_value : 32767 < Z.of_nat MAX_CONNECT_HEAD < 32769.
Proof. unfold MAX_CONNECT_HEAD. rewrite Z2Nat.id; lia. Qed.

Lemma read_connect_head_spec head payload fuel : ∀ buf later s,
  is_head head → Z.of_nat (length head) ≤ 32768 → head = buf ++ later → later ≠ [] →
  clean s → avail s = later ++ payload → (length later < fuel)%nat →
  ∃ early s', read_connect_head fuel buf s = (Ok (head ++ early), s') ∧ payload = early ++ avail s' ∧ s_out s' = s_out s.
Proof.
  pose proof MAX_CONNECT_HEAD_value. assert (0 < 512)%nat as H512 by lia.
  induction fuel as [|fuel IH]; intros buf later s Hh Hz E Hn Hc Ha Hf; [lia|]. cbn [read_connect_head].
  destruct (read_clean 512 s H512 Hc) as (b & s1 & Hr & Hc1 & Ha1 & Hb & Ho).
  unfold io_bind at 1. rewrite Hr.
  destruct b as [|x b]; [rewrite Hb in Ha by done; symmetry in Ha; by apply app_eq_nil in Ha as [-> _]|].
  rewrite Ha in Ha1. apply cut_cases in Ha1 as [(later' & El & Hn' & Ha')|(early & Eb & Ep)].
  - rewrite (head_prefix head (buf ++ x :: b) later'); [|done|by rewrite <- app_assoc, <- El|done].
    rewrite El, length_app in Hf. cbn [length] in Hf.
    rewrite (proj2 (Nat.ltb_ge _ _)).
    2:{ rewrite E, El, app_assoc, length_app in Hz. lia. }
    destruct (IH (buf ++ x :: b) later' s1) as (early & s' & -> & H1 & H2); try done; [|lia|].
    { by rewrite <- app_assoc, <- El. }
    exists early, s'. by rewrite H2.
  - rewrite Eb, app_assoc, <- E. exists early, s1. split; [|by rewrite <- Ep].
    destruct Hh as [H4 Hfs]. unfold contains. by rewrite (find_sub_ext _ _ early _ Hfs).
Qed.

Lemma contains_prefix p a b : contains p (a ++ b) = false → contains p a = false.
Proof.
  intros H. destruct (contains p a) eqn:E; [|done]. apply contains_iff in E as (x & y & ->).
  rewrite <- !app_assoc in H. by rewrite (proj2 (contains_iff _ _)) in H by eauto.
Qed.

Lemma read_connect_head_closed fuel : ∀ buf s,
  clean s → contains CRLF2 (buf ++ avail s) = false → Z.of_nat (length (buf ++ avail s)) ≤ 32768 →
  (length (avail s) < fuel)%nat →
  ∃ s', read_connect_head fuel buf s = (Err (mk_ioerr UnexpectedEof (bs "http proxy: closed during CONNECT")), s').
Proof.
  pose proof MAX_CONNECT_HEAD_value. assert (0 < 512)%nat as H512 by lia.
  induction fuel as [|fuel IH]; intros buf s Hc Hno Hz Hf; [lia|]. cbn [read_connect_head].
  destruct (read_clean 512 s H512 Hc) as (b & s1 & Hr & Hc1 & Ha1 & Hb & Ho).
  unfold io_bind at 1. rewrite Hr. destruct b as [|x b]; [by eexists|].
  rewrite Ha1, app_assoc in Hno, Hz. rewrite (contains_prefix _ _ _ Hno).
  rewrite (proj2 (Nat.ltb_ge _ _)) by (rewrite length_app in Hz; lia).
  apply IH; [done|done|done|]. rewrite Ha1, length_app in Hf. cbn [length] in Hf. lia.
Qed.

(** C39: the HTTP CONNECT client.  Whatever the segments in which the proxy's
    answer arrives, the client has written exactly its request, and it succeeds
    exactly when the status of the first line is 200; any other status is
    refused with that status, and a proxy that closes before the end of its
    head is an error.  What came in the same reads as the head is lost. *)
Theorem http_connect b64 target user pass segs :
  (∀ v code reason rest payload,
     ascii_word v → ascii_word code → Forall (λ b, 0 ≤ b < 128 ∧ b ≠ 10) reason →
     let head := v ++ [32] ++ code ++ [32] ++ reason ++ [13; 10] ++ rest in
     is_head head → Z.of_nat (length head) ≤ 32768 → concat segs = head ++ payload →
     ∃ lost s', http_connect_handshake b64 target user pass (stream_of segs)
       = (if bool_decide (code = bs "200") then Ok tt
          else Err (mk_ioerr ConnectionRefused (bs "http proxy: CONNECT refused (" ++ code ++ bs ")")), s')
       ∧ s_out s' = connect_request b64 target user pass ∧ payload = lost ++ avail s')
  ∧ (contains CRLF2 (concat segs) = false → Z.of_nat (length (concat segs)) ≤ 32768 →
     (http_connect_handshake b64 target user pass (stream_of segs)).1
     = Err (mk_ioerr UnexpectedEof (bs "http proxy: closed during CONNECT"))).
Proof.
  pose proof MAX_CONNECT_HEAD_value.
  assert (Hw : write_all (connect_request b64 target user pass) (stream_of segs)
    = (Ok tt, mk_sock (s_in (stream_of segs)) (connect_request b64 target user pass) [] false)).
  { by rewrite write_all_sure. }
  unfold http_connect_handshake. remember (S (S MAX_CONNECT_HEAD)) as fuel eqn:Ef. split.
  - intros v code reason rest payload Hv Hc Hr Hh Hz Hs.
    set (head := v ++ [32] ++ code ++ [32] ++ reason ++ [13; 10] ++ rest) in *.
    unfold io_bind at 1. rewrite Hw.
    destruct (read_connect_head_spec head payload fuel [] head (mk_sock (s_in (stream_of segs)) (connect_request b64 target user pass) [] false))
      as (early & s' & Hrd & Hp & Ho);
      [done|done|done| |apply (clean_stream_of segs)| |lia|].
    { destruct Hh as [H4 _]. by destruct head; [cbn in H4; lia|]. }
    { transitivity (avail (stream_of segs)); [done|]. by rewrite avail_stream_of. }
    unfold io_bind. rewrite Hrd. unfold head. rewrite <- !app_assoc, connect_status_line by done.
    exists early, s'. split; [|done]. by destruct (bool_decide (code = bs "200")).
  - intros Hno Hz. unfold io_bind at 1. rewrite Hw.
    pose proof (avail_stream_of segs) as Ha.
    destruct (read_connect_head_closed fuel [] (mk_sock (s_in (stream_of segs)) (connect_request b64 target user pass) [] false))
      as (s' & Hrd); [apply (clean_stream_of segs)| | | |]; unfold avail in *; cbn [s_in app] in *; rewrite ?Ha; [done|done|lia|].
    unfold io_bind. by rewrite Hrd.
Qed.

Lemma http_connect_witness :
  let target := Domain (bs "a.b") 443 in
  let head := bs "HTTP/1.1 200 OK" ++ [13; 10; 13; 10] in
  ∃ lost s', http_connect_handshake id target None None (stream_of [take 9 head; drop 9 head ++ [1]; [2]]) = (Ok tt, s')
    ∧ s_out s' = connect_request id target None None ∧ [1; 2] = lost ++ avail s'.
Proof.
  intros target head.
  apply (proj1 (http_connect id target None None [take 9 head; drop 9 head ++ [1]; [2]])
    (bs "HTTP/1.1") (bs "200") (bs "OK") [13; 10] [1; 2]); [by_decide|by_decide|by_decide|by_decide|by_decide|reflexivity].
Defined.

(** ** Calls on a session pool *)

Section SessionPoolTheory.
Context {Sess St : Type}.
Implicit Types (ev : @call_event Sess St) (c : @call Sess St) (w : @pool_world Sess St).

Definition open_failed ev : bool := match ev with Opened (Err _) _ => true | _ => false end.
Definition failures (evs : list (@call_event Sess St)) : nat := length (filter (λ ev, open_failed ev = true) evs).

(** What a call has seen of its own events. *)
Definition call_inv (evs : list (@call_event Sess St)) c : Prop :=
  match c with
  | Start a => (a <= 1 ∧ failures evs = a ∧ length evs <= 3 * a)%nat
  | Dialing a => (a <= 1 ∧ failures evs = a ∧ length evs <= 3 * a + 1)%nat
  | Opening a _ => (a <= 1 ∧ failures evs = a ∧ length evs <= 3 * a + 2)%nat
  | Finished r =>
    (length evs <= 6)%nat
    ∧ match r with
      | Ok st => ∃ b, Opened (Ok st) b ∈ evs
      | Err e => Dialled (Err e) ∈ evs ∨ failures evs = 2%nat ∧ ∃ b, Opened (Err e) b ∈ evs
      | Panic => Dialled Panic ∈ evs ∨ ∃ b, Opened Panic b ∈ evs
      end
  end.

Lemma failures_snoc evs ev : failures (evs ++ [ev]) = (failures evs + if open_failed ev then 1 else 0)%nat.
Proof.
  unfold failures. rewrite filter_app, length_app, filter_cons. f_equal. destruct (open_failed ev); [|done].
  by rewrite decide_True.
Qed.

Lemma call_inv_step ev c pool c' pool' evs :
  call_step ev c pool = Some (c', pool') → call_inv evs c → call_inv (evs ++ [ev]) c'.
Proof.
  assert (Hin : ev ∈ evs ++ [ev]) by (apply elem_of_app; right; by left).
  intros H Hi. destruct c as [a|a|a s|r]; cbn [call_step] in H; [| | |by destruct ev];
    destruct ev as [|r|r b]; try done; try (by destruct a); cbn [call_inv] in Hi; destruct Hi as (Ha & Hf & Hl).
  - rewrite (proj2 (Nat.ltb_lt a 2)) in H by lia.
    destruct pool; injection H as <- <-; cbn [call_inv]; rewrite failures_snoc, length_app; cbn [open_failed length]; lia.
  - destruct r; injection H as <- <-; cbn [call_inv]; rewrite ?failures_snoc, length_app; cbn [open_failed length];
      [lia | split; [lia|by left] | split; [lia|by left]].
  - destruct a as [|a], r; injection H as <- <-; cbn [call_inv]; rewrite ?failures_snoc, length_app; cbn [open_failed length];
      try lia; (split; [lia|]); try (right; split; [lia|]); eauto.
Qed.

(** Where a session in use comes from. *)
Definition from_dial (p0 : option Sess) (log : list (nat * @call_event Sess St)) (s : Sess) : Prop :=
  p0 = Some s ∨ ∃ i, (i, Dialled (Ok s)) ∈ log.

Lemma call_step_sessions ev c pool c' pool' (P : Sess → Prop) :
  call_step ev c pool = Some (c', pool') →
  (∀ s, pool = Some s → P s) → (∀ a s, c = Opening a s → P s) → (∀ s, ev = Dialled (Ok s) → P s) →
  (∀ s, pool' = Some s → P s) ∧ (∀ a s, c' = Opening a s → P s).
Proof.
  intros H Hp Hc He. destruct c as [a|a|a x|r]; cbn [call_step] in H; [| | |by destruct ev]; destruct ev as [|r|r b]; try done; try (by destruct a).
  - destruct (a <? 2)%nat; [destruct pool|]; injection H as <- <-; naive_solver.
  - destruct r; injection H as <- <-; naive_solver.
  - destruct a, r; injection H as <- <-; try naive_solver. destruct b; naive_solver.
Qed.

Definition own (i : nat) (log : list (nat * @call_event Sess St)) : list (@call_event Sess St) :=
  map snd (filter (λ x, x.1 = i) log).

Lemma own_snoc i j ev log : own i (log ++ [(j, ev)]) = own i log ++ if decide (j = i) then [ev] else [].
Proof.
  unfold own. rewrite filter_app, map_app, filter_cons. cbn [fst]. by destruct (decide (j = i)).
Qed.

Lemma world_run_snoc log j ev w w' :
  world_run (log ++ [(j, ev)]) w = Some w' → ∃ w1, world_run log w = Some w1 ∧ world_step j ev w1 = Some w'.
Proof.
  revert w. induction log as [|[i e] log IH]; intros w; cbn [app world_run].
  - destruct (world_step j ev w) as [w1|] eqn:E; [|done]. intros [= <-]. eauto.
  - destruct (world_step i e w); [apply IH|done].
Qed.

Lemma pool_world_inv p0 n log w :
  world_run log (mk_pool_world p0 (replicate n (Start 0))) = Some w →
  (∀ i c, pw_calls w !! i = Some c → call_inv (own i log) c)
  ∧ (∀ s, pw_pool w = Some s → from_dial p0 log s)
  ∧ (∀ i a s, pw_calls w !! i = Some (Opening a s) → from_dial p0 log s).
Proof.
  revert w. induction log as [|[j ev] log IH] using rev_ind; intros w H.
  { injection H as <-. cbn [pw_calls pw_pool]. split; [|split].
    - intros i c Hc. apply lookup_replicate_1 in Hc as [-> _]. cbn. lia.
    - intros s ->. by left.
    - intros i a s Hc. by apply lookup_replicate_1 in Hc as [? _]. }
  apply world_run_snoc in H as (w1 & H1 & H2). destruct (IH _ H1) as (Hc & Hp & Ho).
  assert (Hmono : ∀ s, from_dial p0 log s → from_dial p0 (log ++ [(j, ev)]) s).
  { intros s [Hs|[i Hs]]; [by left|]. right. exists i. apply elem_of_app. by left. }
  unfold world_step in H2. destruct (pw_calls w1 !! j) as [c|] eqn:Ej; [|done].
  destruct (call_step ev c (pw_pool w1)) as [[c' pool']|] eqn:Es; [|done]. injection H2 as <-. cbn [pw_calls pw_pool].
  apply (call_step_sessions _ _ _ _ _ (from_dial p0 (log ++ [(j, ev)]))) in Es as HP;
    [|by intros s Hs; apply Hmono, Hp | intros a s ->; by eapply Hmono, Ho |
      intros s ->; right; exists j; apply elem_of_app; right; by left].
  destruct HP as [HP1 HP2]. split; [|split]; [|done|].
  - intros i x Hx. rewrite own_snoc. destruct (decide (j = i)) as [->|Hne].
    + rewrite list_lookup_insert_eq in Hx by (by eapply lookup_lt_Some). injection Hx as <-.
      eapply call_inv_step; [done|]. by apply Hc.
    + rewrite list_lookup_insert_ne in Hx by done. rewrite app_nil_r. by apply Hc.
  - intros i a s Hx. destruct (decide (j = i)) as [->|Hne].
    + rewrite list_lookup_insert_eq in Hx by (by eapply lookup_lt_Some). injection Hx as Hx. by eapply HP2.
    + rewrite list_lookup_insert_ne in Hx by done. by eapply Hmono, Ho.
Qed.

(** C21: calls that share a pooled session.  However any number of calls
    interleave on the pool: no call takes more than six steps or reaches the
    [unreachable!] after its loop, and one that is not finished can always go
    on; a call succeeds only with a stream it opened, and fails only when a dial
    of its own failed or two openings of its own; every session in the pool or
    in use was there at first or came from a dial. *)
Theorem session_pool_calls p0 n log w :
  world_run log (mk_pool_world p0 (replicate n (Start 0))) = Some w →
  (∀ s, pw_pool w = Some s → from_dial p0 log s)
  ∧ ∀ i c, pw_calls w !! i = Some c →
    (length (own i log) <= 6)%nat
    ∧ match c with
      | Finished (Ok st) => ∃ b, Opened (Ok st) b ∈ own i log
      | Finished (Err e) => Dialled (Err e) ∈ own i log ∨ failures (own i log) = 2%nat ∧ ∃ b, Opened (Err e) b ∈ own i log
      | Finished Panic => Dialled Panic ∈ own i log ∨ ∃ b, Opened Panic b ∈ own i log
      | Start _ => is_Some (world_step i Got w)
      | Dialing _ => ∀ r, is_Some (world_step i (Dialled r) w)
      | Opening _ s => from_dial p0 log s ∧ ∀ r b, is_Some (world_step i (Opened r b) w)
      end.
Proof.
  intros H. apply pool_world_inv in H as (Hc & Hp & Ho). split; [done|]. intros i c Hi.
  pose proof (Hc i c Hi) as Hinv. unfold world_step. rewrite Hi.
  destruct c as [a|a|a s|r]; cbn [call_inv call_step] in *.
  - split; [lia|]. destruct (a <? 2)%nat; [destruct (pw_pool w)|]; by eexists.
  - split; [lia|]. intros [s|e|]; by eexists.
  - split; [lia|]. split; [by eapply Ho|]. intros r b. destruct a, r; by eexists.
  - done.
Qed.

(** A dead session is replaced when the pool can be emptied, and is tried again
    when its lock is taken. *)
Lemma connect_pooled_dead (dead s : Sess) (open : nat → Sess → res ioerr St) e e' st :
  open 0%nat dead = Err e → open 1%nat dead = Err e' → open 1%nat s = Ok st →
  connect_pooled (Some dead) (Ok s) open true = Some (Finished (Ok st), Some s)
  ∧ connect_pooled (Some dead) (Ok s) open false = Some (Finished (Err e'), Some dead).
Proof. intros H0 H1 H2. unfold connect_pooled. cbn. by rewrite H0, H1, H2. Qed.
End SessionPoolTheory.

Lemma session_pool_calls_witness :
  let log := [(0%nat, Got); (1%nat, Got); (0%nat, Opened (Err early_eof) true); (1%nat, Opened (Err early_eof) true);
              (0%nat, Got); (0%nat, Dialled (Ok 7)); (1%nat, Got); (0%nat, Opened (Ok 5) true)] in
  let w := mk_pool_world (Some 7) [Finished (Ok 5); Opening 1 7] in
  world_run log (mk_pool_world (Some 3) (replicate 2 (Start 0))) = Some w
  ∧ from_dial (Sess := Z) (St := Z) (Some 3) log 7.
Proof.
  intros log w. assert (H : world_run log (mk_pool_world (Some 3) (replicate 2 (Start 0))) = Some w) by reflexivity.
  split; [exact H|]. apply (proj1 (session_pool_calls (Some 3) 2 log w H) 7). reflexivity.
Defined.

(** ** Proxies in a row *)

Section Chain.
Context `{NW : Network} `{AE : Aead} `{SH : Sha2} `{VC : VmessCrypto} `{RL : RegexLib}.
Context (show_status : Z → str) (b64 : list Z → str) (hmac_sha256 : list Z → list Z → list Z).
Context (pooled : Connector → ProxyTarget → res ioerr sock).

(** A connector whose server runs a listener of the same protocol: the server's
    address, the listener, and what it answers first. *)
Inductive hop : Connector → str * Z * option TlsClientSpec → InboundProto → list Z → Prop :=
| hop_trojan tag server port pw tls mux :
    hop (CTrojan tag server port pw tls None mux) (server, port, tls) (ITrojan (password_hash pw)) []
| hop_vless tag server port uuid u allowed tls mux :
    parse_uuid uuid = Some u → u ∈ allowed →
    hop (CVless tag server port uuid tls None mux) (server, port, tls) (IVless allowed) [0; 0].

Lemma hop_connects conn server port tls p2 reply2 d t up answer :
  hop conn (server, port, tls) p2 reply2 → target_addr_wf t →
  dial_underlay server port tls = Ok up → clean up → s_wr up = [] → s_out up = [] → avail up = reply2 ++ answer →
  ∃ remote, (connect_tcp show_status b64 hmac_sha256 pooled d conn t None).1 = Ok remote
    ∧ clean remote ∧ s_wr remote = [] ∧ avail remote = answer ∧ agrees p2 t (s_out remote) reply2.
Proof.
  intros Hh Ht Hdial Hc Hw Ho Ha.
  assert (Hconn : ∀ (m : io unit) out, keeps_clean m → yields m (reply2 ++ answer) (Ok tt) answer out → agrees p2 t out reply2 →
    ∃ remote, on_stream (let? underlay := dial_underlay server port tls in wrap_transport show_status server port None underlay)
      m (λ _ s, s) = Ok remote ∧ clean remote ∧ s_wr remote = [] ∧ avail remote = answer ∧ agrees p2 t (s_out remote) reply2).
  { intros m out Hk Hy Hag. rewrite Hdial. cbn [wrap_transport on_stream].
    destruct (Hy up Ha Hw) as (s' & Hm & Hi & Hout & Hw' & _). exists s'. unfold on_stream. rewrite Hm. split; [done|].
    pose proof (Hk up Hc) as K. rewrite Hm in K. rewrite Hout, Ho. done. }
  inversion Hh; subst; cbn [connect_tcp fst]; unfold trojan_connect, vless_connect; cbn [dial_with_transport fst].
  - eapply Hconn; [apply kc_write_all | apply yields_write_all | by apply agrees_trojan].
  - eapply Hconn; [|by apply Vless.yields_vless_connect|].
    + unfold Vless.connect_tcp, Vless.read_response. keeps_clean.
    + apply agrees_vless; [done | by eapply parse_uuid_length | done].
Qed.

Context (copy : sock → sock → res ioerr (Z * Z) * (sock * sock)).
Context (accept_ss : str → str → sock → res ioerr (ProxyTarget * sock) * sock).
Context (accept_vmess : list (list Z) → sock → res ioerr (ProxyTarget * sock) * sock).
Definition dials (d : Draws) (c : Connector) (t : ProxyTarget) : res ioerr sock :=
  (connect_tcp show_status b64 hmac_sha256 pooled d c t None).1.
Definition run_with dial := run_proto_pipeline dial copy accept_ss accept_vmess.

(** C6: two proxies in a row are transparent.  The first routes a session of a
    trojan, VLESS or SOCKS5 client to a trojan or VLESS outbound; the second
    runs the matching listener and gets, in segments of any sizes, what the
    first writes; it routes the same target to a server of its own.  That
    server gets exactly the client's payload.  What the second proxy writes is
    what the first reads, and the client gets its listener's answer and then
    exactly what the server sends. *)
Theorem chained_proxies p t head reply payload segs c sh conn server port tls p2 reply2 up d
    c2 sh2 dial2 conn2 remote2 remote segs2 :
  agrees p t head reply → concat segs = head ++ payload → sniff_safe payload = true → target_addr_wf t →
  hop conn (server, port, tls) p2 reply2 →
  (∀ host, route (sh_router sh) t host (sh_inbound_tag sh) = Proxy conn) →
  (∀ host, route (sh_router sh2) t host (sh_inbound_tag sh2) = Proxy conn2) →
  dial_underlay server port tls = Ok up → clean up → s_wr up = [] → s_out up = [] →
  dial2 conn2 t = Ok remote2 → clean remote2 → s_wr remote2 = [] → copies copy →
  let r := run_with (dials d) sh c p (stream_of segs) in
  let r2 := run_with dial2 sh2 c2 p2 (stream_of segs2) in
  avail up = reply2 ++ avail remote2 → rl_remote r = Some remote → concat segs2 = s_out remote →
  rl_res r = Ok tt ∧ rl_res r2 = Ok tt
  ∧ (∃ remote2', rl_remote r2 = Some remote2' ∧ s_out remote2' = s_out remote2 ++ payload)
  ∧ s_out (rl_client r2) = avail up ∧ s_out (rl_client r) = reply ++ avail remote2.
Proof.
  intros Hag Hs Hsafe Ht Hh Hr1 Hr2 Hdial Hc Hw Ho Hdial2 Hc2 Hw2 Hcopy r r2 Hup Hrem Hs2.
  destruct (hop_connects conn server port tls p2 reply2 d t up (avail remote2)) as (link & Hl & Hlc & Hlw & Hla & Hlag);
    [done..|].
  destruct (agrees_run (dials d) copy accept_ss accept_vmess p t head reply payload segs c sh Hag Hs)
    as (s1 & Er & Hs1 & Ha1 & Ho1 & Hw1).
  destruct (routed_forwards (dials d) copy payload t c sh conn link s1) as (link' & n & E1 & E2 & E3 & E4 & _); [done..|].
  subst r r2. unfold run_with in *. rewrite Er in Hrem |- *. rewrite E2 in Hrem. injection Hrem as <-.
  destruct (agrees_run dial2 copy accept_ss accept_vmess p2 t (s_out link) reply2 payload segs2 c2 sh2 Hlag)
    as (s2 & Er2 & Hs2c & Ha2 & Ho2 & Hw2'); [congruence|].
  destruct (routed_forwards dial2 copy payload t c2 sh2 conn2 remote2 s2) as (rem2 & n2 & F1 & F2 & F3 & F4 & _); [done..|].
  rewrite Er2, E1, E4, F1, F4, Ho1, Ho2, Hla, Hup. eauto 10.
Qed.
End Chain.

Definition chain_network : Network.
Proof.
  refine {| lookup _ p := Ok [sa_new (V4 [9; 9; 9; 9]) p]; lookup_host _ _ := Err early_eof;
            tcp_connect _ := (true, Ok (stream_of [[0]; [0; 1; 2]; [3]]));
            server_name _ := Ok tt; tls_connect _ _ s := (true, Ok s); ws_connect _ s := Ok s;
            h2_handshake _ := Ok tt; h2_send s _ := Ok (200, s); mux_session := unit;
            mux_client _ _ := Ok tt; mux_reuse _ _ := None; mux_open _ := Err early_eof;
            arrives l := [l] |}.
  intros l. apply app_nil_r.
Defined.

Definition route_all (tag : str) (c : Connector) : @Router literal_regex :=
  @mk_router literal_regex [@Core.mk_entry literal_regex open_rule tag None] {[ tag := c ]} None (@registry_new literal_regex).

Lemma chained_proxies_witness :
  let t := Domain (bs "a.b") 80 in
  let uuid := bs "b831381d-6324-4d53-ad4f-8cda48b30811" in
  let u := default [] (parse_uuid uuid) in
  let conn := CVless (bs "x") (bs "proxy") 443 uuid None None None in
  let shared tag c := @mk_shared literal_regex (bs "in") (route_all tag c) in
  let hash := @password_hash pad_sha2 (bs "pw") in
  let d := mk_conn_draws [] (mk_draws [] [] 0 [] []) 0 [] in
  let run dial := @run_with literal_regex copy_all (λ _ _ s, (Panic, s)) (λ _ s, (Panic, s)) dial in
  let dial1 := @dials chain_network detached_ciphers pad_sha2 mask_crypto show_dec id (λ k _, k) (λ _ _, Panic) d in
  let r := run dial1 (shared (bs "x") conn) counters_default (ITrojan hash)
             (stream_of [encode_request_head Trojan.CMD_CONNECT t hash; bs "GET / HTTP/1.1"; [13; 10]]) in
  let out := match rl_remote r with Some s => s_out s | None => [] end in
  let r2 := run (λ _ _, Ok (stream_of [[1; 2]; [3]])) (shared (bs "direct") CDirect) counters_default (IVless [u])
              (stream_of [take 5 out; drop 5 out]) in
  rl_res r = Ok tt ∧ rl_res r2 = Ok tt
  ∧ (∃ remote2', rl_remote r2 = Some remote2' ∧ s_out remote2' = [] ++ bs "GET / HTTP/1.1" ++ [13; 10])
  ∧ s_out (rl_client r2) = [0; 0; 1; 2; 3] ∧ s_out (rl_client r) = [] ++ [1; 2; 3].
Proof.
  intros t uuid u conn shared hash d run dial1 r out r2.
  pose (remote := default (stream_of []) (rl_remote r)).
  apply (@chained_proxies chain_network detached_ciphers pad_sha2 mask_crypto literal_regex show_dec id (λ k _, k) (λ _ _, Panic)
    copy_all (λ _ _ s, (Panic, s)) (λ _ s, (Panic, s)) (ITrojan hash) t (encode_request_head Trojan.CMD_CONNECT t hash) []
    (bs "GET / HTTP/1.1" ++ [13; 10]) [encode_request_head Trojan.CMD_CONNECT t hash; bs "GET / HTTP/1.1"; [13; 10]]
    counters_default (shared (bs "x") conn) conn (bs "proxy") 443 None (IVless [u]) [0; 0]
    (stream_of [[0]; [0; 1; 2]; [3]]) d counters_default (shared (bs "direct") CDirect)
    (λ _ _, Ok (stream_of [[1; 2]; [3]])) CDirect (stream_of [[1; 2]; [3]]) remote [take 5 out; drop 5 out]).
  - apply agrees_trojan. by_decide.
  - vm_compute. reflexivity.
  - vm_compute. reflexivity.
  - by_decide.
  - apply (hop_vless (bs "x") (bs "proxy") 443 uuid u [u] None None); [vm_compute; reflexivity | apply list_elem_of_here].
  - intros host. vm_compute. reflexivity.
  - intros host. vm_compute. reflexivity.
  - vm_compute. reflexivity.
  - apply clean_stream_of.
  - reflexivity.
  - reflexivity.
  - reflexivity.
  - apply clean_stream_of.
  - reflexivity.
  - apply copy_all_copies.
  - reflexivity.
  - vm_compute. reflexivity.
  - vm_compute. reflexivity.
Defined.
