(* ===== verification/SocksUdp.v ===== *)
(** * The SOCKS5 UDP association over the direct outbound

    [run_socks_udp_pump] of [omni-core/src/pipeline/executor.rs] joined to the
    two tasks of [DirectOutbound::connect_udp]
    ([runtime/assembly/outbound_artifacts.rs]): four tasks and two channels.
    An execution is any interleaving of their steps; the codec of a step is
    [pump_up], [pump_down], [direct_receive] or [direct_send]. *)

From S2P Require Import Prelude Text Net Io Resolver Socks5 Trojan Pipeline Outbound.

(** ** The four tasks *)

(** The capacity of each channel. *)
Definition UDP_CHANNEL : nat := 256.

(** The state: the pump's peer, the two channels each with the packet its
    sender waits with, whether the pump's second task and the function itself
    have ended, and the datagrams taken from and given to the two sockets. *)
Record Association := mk_relay {
  r_pump : Pump;
  r_up : list UdpPacket;
  r_down : list UdpPacket;
  r_ended : bool;
  r_returned : bool;
  r_got : list (list Z * SocketAddr);
  r_heard : list (list Z * SocketAddr);
  r_sent : list (list Z * SocketAddr);
  r_replied : list (list Z * SocketAddr)
}.

Definition relay_new : Association := mk_relay (mk_pump None) [] [] false false [] [] [] [].

(** One iteration of a task; [ControlRead] is the read of the control stream
    that ends the function, whatever it brings. *)
Inductive relay_op :=
  | RecvClient (d : list Z) (from : SocketAddr)
  | SendRemote
  | RecvRemote (d : list Z) (src : SocketAddr)
  | SendClient (sent : bool)
  | ControlRead.

Section Relaying.
Context `{NW : Network}.

(** A task whose channel is full, or empty, waits; so does nothing. *)
Definition relay_step (r : Association) (op : relay_op) : res ioerr Association :=
  let 'mk_relay pump up down ended returned got heard sent replied := r in
  match op with
  | RecvClient d from =>
    if (UDP_CHANNEL <? length up)%nat then Ok r else
    let '(out, pump) := pump_up pump d from in
    let? o := out in
    Ok (mk_relay pump (up ++ option_list o) down ended returned (got ++ [(d, from)]) heard sent replied)
  | SendRemote =>
    match up with
    | [] => Ok r
    | q :: up => Ok (mk_relay pump up down ended returned got heard (sent ++ option_list (direct_send q)) replied)
    end
  | RecvRemote d src =>
    if ended || (UDP_CHANNEL <? length down)%nat then Ok r else
    Ok (mk_relay pump up (down ++ [direct_receive d src]) ended returned got (heard ++ [(d, src)]) sent replied)
  | SendClient ok =>
    match down with
    | q :: down' =>
      if ended then Ok r else
      Ok (mk_relay pump up down' (negb ok) returned got heard sent (replied ++ [pump_down pump q]))
    | [] => Ok r
    end
  | ControlRead => Ok (mk_relay pump up down ended true got heard sent replied)
  end.

Fixpoint relay_run (r : Association) (ops : list relay_op) : res ioerr Association :=
  match ops with
  | [] => Ok r
  | op :: ops => let? r := relay_step r op in relay_run r ops
  end.

(** ** What is promised *)

(** A client's datagram: a request for an address, or anything else. *)
Inductive datagram := Request (a : Socks5Addr) (x : list Z) | Junk (d : list Z).
Definition datagram_bytes (g : datagram) : list Z :=
  match g with Request a x => encode_udp_packet a x | Junk d => d end.
Definition datagram_wf (g : datagram) : Prop :=
  match g with
  | Request a _ => addr_wf a
  | Junk d => bytes d ∧ ∀ a x, addr_wf a → d ≠ encode_udp_packet a x
  end.

(** Where a request's payload goes: to an IPv4 address, or to the first address
    of a name if that is one; anything else loses it. *)
Definition goes_to (g : datagram) : option (list Z * SocketAddr) :=
  match g with
  | Request (SV4 i p) x => Some (x, sa_new (V4 i) p)
  | Request (SV6 _ _) _ => None
  | Request (SDomain h p) x =>
    match lookup_host h p with
    | Ok (mk_sockaddr (V4 i) p scope :: _) => Some (x, mk_sockaddr (V4 i) p scope)
    | _ => None
    end
  | Junk _ => None
  end.

(** The datagrams of the client that a sequence of steps offers. *)
Definition offered (ops : list relay_op) : list (list Z * SocketAddr) :=
  omap (λ op, match op with RecvClient d f => Some (d, f) | _ => None end) ops.

Definition is_control (op : relay_op) : bool := match op with ControlRead => true | _ => false end.

(** The client's datagrams all come from [c]. *)
Definition only_client (c : SocketAddr) (op : relay_op) : Prop :=
  match op with RecvClient _ f => f = c | _ => True end.

(** A socket's address as the client reads it. *)
Definition sender_addr (a : SocketAddr) : Socks5Addr := from_proxy_target (Tcp a).

(** ** One datagram *)

Lemma parse_udp_packet_no_panic d : parse_udp_packet d ≠ Panic.
Proof.
  unfold parse_udp_packet. destruct d as [|b0 [|b1 [|b2 t]]]; try done.
  case_match; [done|]. rewrite (idx_Some _ 0 b0), (idx_Some _ 1 b1), (idx_Some _ 2 b2) by done.
  case_match; [done|]. rewrite slice_from_ok by (cbn; lia).
  destruct (decode _) as [[a n]| |] eqn:E; [|done|by apply decode_no_panic in E].
  cbn [map_err]. case_match eqn:El; [done|]. apply Nat.ltb_ge in El. by rewrite slice_from_ok.
Qed.

(** What becomes of a datagram of the client. *)
Definition uplink (d : list Z) : option UdpPacket :=
  match parse_udp_packet d with
  | Ok (a, x) => Some (mk_packet None (to_proxy_target a) x)
  | _ => None
  end.

Lemma pump_up_spec p d f : pump_up p d f = (Ok (uplink d), mk_pump (Some f)).
Proof.
  unfold pump_up, uplink. pose proof (parse_udp_packet_no_panic d).
  by destruct (parse_udp_packet d) as [[a x]| |].
Qed.

Lemma uplink_goes_to g : datagram_wf g → uplink (datagram_bytes g) ≫= direct_send = goes_to g.
Proof.
  unfold uplink. destruct g as [a x|d]; cbn [datagram_wf datagram_bytes].
  - intros Ha. rewrite (proj1 udp_packet_roundtrip) by done. destruct a as [i p|i p|h p]; [done..|].
    cbn. by destruct (lookup_host h p) as [[|[[i|i] q n] l]| |].
  - intros [Hb Hd]. destruct (parse_udp_packet d) as [[a x]| |] eqn:E; [|done..].
    apply (proj2 udp_packet_roundtrip) in E as [Ha E]; [|done]. by destruct (Hd a x Ha).
Qed.

Lemma pump_down_direct p d src :
  pump_down p (direct_receive d src) = (encode_udp_packet (sender_addr src) d, default src (peer p)).
Proof. done. Qed.

(** ** Any interleaving *)

Definition reply_frame (h : list Z * SocketAddr) : list Z := encode_udp_packet (sender_addr h.2) h.1.

Record RelayInv (r : Association) : Prop := {
  inv_up : r_sent r ++ omap direct_send (r_up r) = omap (λ g, uplink g.1 ≫= direct_send) (r_got r);
  inv_down : r_down r = (λ h, direct_receive h.1 h.2) <$> drop (length (r_replied r)) (r_heard r);
  inv_replied : fst <$> r_replied r = reply_frame <$> take (length (r_replied r)) (r_heard r)
}.

Lemma relay_new_inv : RelayInv relay_new.
Proof. by split. Qed.

Lemma omap_option_list {A B} (f : A → option B) (o : option A) : omap f (option_list o) = option_list (o ≫= f).
Proof. destruct o as [x|]; [|done]. cbn. by destruct (f x). Qed.

Lemma omap_one {A B} (f : A → option B) x : omap f [x] = option_list (f x).
Proof. cbn. by destruct (f x). Qed.

(** A datagram heard goes to the end of the queue, a reply sent leaves its head. *)
Lemma drop_hd {A} (l : list A) n x t : drop n l = x :: t → l !! n = Some x ∧ drop (S n) l = t.
Proof.
  intros E. split.
  - rewrite <- (Nat.add_0_r n), <- lookup_drop, E. done.
  - rewrite <- Nat.add_1_r, <- drop_drop, E. done.
Qed.

Lemma replied_heard r : RelayInv r → (length (r_replied r) <= length (r_heard r))%nat.
Proof.
  intros I. pose proof (f_equal length (inv_replied r I)) as H.
  rewrite !length_fmap, length_take in H. lia.
Qed.

Lemma relay_step_inv r op : RelayInv r → ∃ r', relay_step r op = Ok r' ∧ RelayInv r'.
Proof.
  intros I. pose proof (replied_heard r I) as Hl. revert I Hl.
  destruct r as [p up down e ret got heard sent replied].
  intros [Hu Hd Hr]; cbn [r_pump r_up r_down r_ended r_got r_heard r_sent r_replied] in *; intros Hl.
  destruct op as [d f| |d src|ok|]; cbn [relay_step].
  - case_match; [by eexists|]. rewrite pump_up_spec. eexists. split; [reflexivity|]. split; [|done..].
    cbn [r_sent r_up r_got]. rewrite !omap_app, app_assoc, Hu, omap_option_list, omap_one. done.
  - destruct up as [|q up]; [by eexists|]. eexists. split; [reflexivity|]. split; [|done..].
    cbn [r_sent r_up r_got]. rewrite <- Hu, <- app_assoc. f_equal. cbn. by destruct (direct_send q).
  - case_match; [by eexists|]. eexists. split; [reflexivity|]. split; cbn [r_down r_replied r_heard]; [done| |].
    + by rewrite drop_app_le, fmap_app, Hd by done.
    + by rewrite take_app_le by done.
  - destruct down as [|q down]; [by eexists|]. destruct e; [by eexists|].
    eexists. split; [reflexivity|]. symmetry in Hd. apply fmap_cons_inv in Hd as ([d src] & t & -> & -> & Hd).
    apply drop_hd in Hd as [Hx Ht].
    split; cbn [r_sent r_up r_got r_down r_replied r_heard]; rewrite ?length_app, ?Nat.add_1_r; [done| |].
    + by rewrite Ht.
    + rewrite (take_S_r _ _ _ Hx), !fmap_app, Hr. done.
  - by eexists.
Qed.

Lemma relay_run_inv ops : ∀ r, RelayInv r → ∃ r', relay_run r ops = Ok r' ∧ RelayInv r'.
Proof.
  induction ops as [|op ops IH]; intros r I; cbn [relay_run]; [by eexists|].
  destruct (relay_step_inv r op I) as (r1 & -> & I1). by apply IH.
Qed.

(** ** Draining the queues *)

Lemma drain_up r :
  ∃ r', relay_run r (replicate (length (r_up r)) SendRemote) = Ok r'
        ∧ r_sent r' = r_sent r ++ omap direct_send (r_up r).
Proof.
  destruct r as [p up down e ret got heard sent replied]. cbn [r_up r_sent].
  revert sent. induction up as [|q up IH]; intros sent; cbn [length replicate relay_run relay_step].
  - eexists. split; [reflexivity|]. cbn. by rewrite app_nil_r.
  - destruct (IH (sent ++ option_list (direct_send q))) as (r' & -> & E). exists r'. split; [done|].
    rewrite E, <- app_assoc. f_equal. cbn. by destruct (direct_send q).
Qed.

Lemma drain_down r : r_ended r = false →
  ∃ r', relay_run r (replicate (length (r_down r)) (SendClient true)) = Ok r'
        ∧ r_down r' = [] ∧ r_heard r' = r_heard r.
Proof.
  destruct r as [p up down e ret got heard sent replied]. cbn [r_ended r_down r_heard]. intros ->.
  revert replied. induction down as [|q down IH]; intros replied; cbn [length replicate relay_run relay_step].
  - eexists. split; [reflexivity|]. done.
  - apply IH.
Qed.

(** ** What is taken from the socket, and who is answered *)

Lemma relay_step_got r r' op : relay_step r op = Ok r' → (length (r_up r) <= length (r_got r))%nat →
  (length (r_got r) + length (offered [op]) <= S UDP_CHANNEL)%nat →
  r_got r' = r_got r ++ offered [op] ∧ (length (r_up r') <= length (r_got r'))%nat.
Proof.
  destruct r as [p up down e ret got heard sent replied]. cbn [r_up r_got]. intros H Hl Ho.
  destruct op as [d f| |d src|ok|]; cbn [relay_step] in H.
  1: { cbn [offered omap list_omap length] in Ho. rewrite (proj2 (Nat.ltb_ge _ _)), pump_up_spec in H by lia.
       injection H as <-. split; [done|].
       cbn [r_up r_got]. rewrite !length_app. destruct (uplink d); cbn; lia. }
  all: repeat case_match; simplify_eq; cbn [offered omap list_omap r_got r_up length] in *;
    rewrite app_nil_r; (split; [done|lia]).
Qed.

Lemma relay_run_got ops : ∀ r r', relay_run r ops = Ok r' → (length (r_up r) <= length (r_got r))%nat →
  (length (r_got r) + length (offered ops) <= S UDP_CHANNEL)%nat → r_got r' = r_got r ++ offered ops.
Proof.
  induction ops as [|op ops IH]; intros r r' H Hu Hl; cbn [relay_run] in H.
  { injection H as <-. by rewrite app_nil_r. }
  assert (offered (op :: ops) = offered [op] ++ offered ops) as Ho by (by destruct op).
  rewrite Ho in *. rewrite length_app in Hl.
  destruct (relay_step r op) as [r1| |] eqn:E; [|done..].
  destruct (relay_step_got r r1 op E Hu) as [E1 Hu1]; [lia|].
  rewrite (IH r1 r' H Hu1) by (rewrite E1, length_app; lia). by rewrite E1, app_assoc.
Qed.

Definition answers (c : SocketAddr) (r : Association) : Prop :=
  peer (r_pump r) = Some c ∧ Forall (λ o, o.2 = c) (r_replied r).

Lemma relay_step_answers c r r' op : relay_step r op = Ok r' → only_client c op → RelayInv r → answers c r → answers c r'.
Proof.
  destruct r as [p up down e ret got heard sent replied]. intros H Ho I [Hp Hr]. cbn [r_pump r_replied] in *.
  destruct op as [d f| |d src|ok|]; cbn [relay_step only_client] in *; subst.
  1: { rewrite pump_up_spec in H. case_match; injection H as <-; by split. }
  all: repeat case_match; simplify_eq; split; try done.
  cbn [r_replied]. apply Forall_app. split; [done|]. constructor; [|done]. cbn. by rewrite Hp.
Qed.

Lemma relay_run_answers c ops : ∀ r r',
  relay_run r ops = Ok r' → Forall (only_client c) ops → RelayInv r → answers c r → answers c r'.
Proof.
  induction ops as [|op ops IH]; intros r r' H Ho I Ha; cbn [relay_run] in H; [by injection H as <-|].
  apply Forall_cons in Ho as [Ho1 Ho].
  destruct (relay_step_inv r op I) as (r1 & E & I1). rewrite E in H.
  exact (IH r1 r' H Ho I1 (relay_step_answers c r r1 op E Ho1 I Ha)).
Qed.

Definition from_wf (h : list Z * SocketAddr) : Prop := addr_wf (sender_addr h.2).

Lemma replies_parse hs : Forall from_wf hs →
  parse_udp_packet <$> (reply_frame <$> hs) = (λ h, Ok (sender_addr h.2, h.1)) <$> hs.
Proof.
  intros H. rewrite <- list_fmap_compose. apply Forall_fmap_ext, (Forall_impl _ _ _ H).
  intros h Hh. unfold compose, reply_frame. by rewrite (proj1 udp_packet_roundtrip).
Qed.

Lemma sent_goes_to gs dgs : Forall datagram_wf dgs → fst <$> gs = datagram_bytes <$> dgs →
  omap (λ g : list Z * SocketAddr, uplink g.1 ≫= direct_send) gs = omap goes_to dgs.
Proof.
  revert dgs. induction gs as [|g gs IH]; intros [|x dgs] Hw E; try done.
  rewrite !fmap_cons in E. injection E as E Es. apply Forall_cons in Hw as [Hx Hw]. cbn.
  by rewrite (IH dgs), E, uplink_goes_to.
Qed.

(** C35: however the four tasks of a SOCKS5 UDP association interleave, nothing
    aborts, and: (1) the payloads sent out are those of the client's well-formed
    requests for an IPv4 address, or for a name whose first address is one, in
    order and each to that address, while requests for IPv6 addresses, names that
    do not resolve and junk are dropped (the socket is an IPv4 one); when the
    queue has drained all of them were sent; (2) no datagram is left in the socket while at most 257 were offered;
    (3) what the client is sent parses, in order, to the payloads heard by the
    outbound's socket with their senders' addresses, and to all of them once
    the queue has drained; (4) while only one client uses the port, every reply
    goes to that client. *)
Theorem socks_udp_association ops :
  ∃ r, relay_run relay_new ops = Ok r
  ∧ (∀ dgs, Forall datagram_wf dgs → fst <$> r_got r = datagram_bytes <$> dgs →
       r_sent r `prefix_of` omap goes_to dgs
       ∧ ∃ r', relay_run r (replicate (length (r_up r)) SendRemote) = Ok r' ∧ r_sent r' = omap goes_to dgs)
  ∧ ((length (offered ops) <= S UDP_CHANNEL)%nat → r_got r = offered ops)
  ∧ (Forall from_wf (r_heard r) →
       parse_udp_packet ∘ fst <$> r_replied r `prefix_of` (λ h, Ok (sender_addr h.2, h.1)) <$> r_heard r
       ∧ (r_ended r = false →
          ∃ r', relay_run r (replicate (length (r_down r)) (SendClient true)) = Ok r'
                ∧ parse_udp_packet ∘ fst <$> r_replied r' = (λ h, Ok (sender_addr h.2, h.1)) <$> r_heard r))
  ∧ (∀ c d0 ops', ops = RecvClient d0 c :: ops' → Forall (only_client c) ops' → Forall (λ o, o.2 = c) (r_replied r)).
Proof.
  destruct (relay_run_inv ops relay_new relay_new_inv) as (r & Hrun & I). exists r. split; [done|].
  assert (∀ r, RelayInv r → Forall from_wf (r_heard r) → parse_udp_packet ∘ fst <$> r_replied r =
          take (length (r_replied r)) ((λ h, Ok (sender_addr h.2, h.1)) <$> r_heard r)) as Hparse.
  { clear. intros r I Hw. rewrite list_fmap_compose, (inv_replied r I), replies_parse by (by apply Forall_take).
    by rewrite fmap_take. }
  repeat split.
  - rewrite <- (sent_goes_to (r_got r) dgs) by done. rewrite <- (inv_up r I). by apply prefix_app_r.
  - destruct (drain_up r) as (r' & E & Hs). exists r'. split; [done|].
    rewrite Hs, (inv_up r I). by apply sent_goes_to.
  - intros Hl. rewrite (relay_run_got ops relay_new r Hrun); cbn; [done|lia|lia].
  - rewrite Hparse by done. apply prefix_take.
  - intros He. destruct (drain_down r He) as (r' & E & Hd & Hh). exists r'. split; [done|].
    destruct (relay_run_inv (replicate (length (r_down r)) (SendClient true)) r I) as (r2 & E2 & I2).
    rewrite E in E2. injection E2 as <-. rewrite Hparse, Hh by (rewrite ?Hh; done).
    apply take_ge. rewrite length_fmap, <- Hh. pose proof (f_equal length (inv_down r' I2)) as Hlen.
    rewrite Hd, length_fmap, length_drop in Hlen. cbn in Hlen. lia.
  - intros c d0 ops' -> Ho. cbn [relay_run] in Hrun.
    destruct (relay_step_inv relay_new (RecvClient d0 c) relay_new_inv) as (r1 & E & I1). rewrite E in Hrun.
    eapply (relay_run_answers c ops' r1 r); [done..|].
    cbn [relay_step relay_new] in E. rewrite pump_up_spec in E. by injection E as <-.
Qed.

(** ** What the association does not promise *)

(** Any datagram, one that does not parse included, makes its sender the peer:
    the replies queued for the first client then go to the second. *)
Theorem relay_follows_last_sender r d m q :
  (length (r_up r) <= UDP_CHANNEL)%nat → r_ended r = false → head (r_down r) = Some q →
  ∃ r', relay_run r [RecvClient d m; SendClient true] = Ok r'
        ∧ r_replied r' = r_replied r ++ [(encode_udp_packet (from_proxy_target (pkt_target q)) (data q), m)].
Proof.
  destruct r as [p up down e ret got heard sent replied]. cbn [r_up r_ended r_down r_replied].
  intros Hl -> Hq. destruct down as [|q' down]; [done|]. injection Hq as ->. cbn [relay_run relay_step].
  rewrite (proj2 (Nat.ltb_ge _ _)), pump_up_spec by lia. by eexists.
Qed.

(** The end of the control stream ends the function only: whatever the tasks
    could do before it they do after it. *)
Definition forget_return (r : Association) : Association :=
  mk_relay (r_pump r) (r_up r) (r_down r) (r_ended r) false (r_got r) (r_heard r) (r_sent r) (r_replied r).

Lemma relay_step_forget r op : is_control op = false →
  relay_step (forget_return r) op = (let? r' := relay_step r op in Ok (forget_return r')).
Proof.
  destruct r as [p up down e ret got heard sent replied]. intros Ho.
  destruct op as [d f| |d src|ok|]; [..|done]; cbn [forget_return relay_step r_pump r_up r_down r_ended r_got r_heard r_sent r_replied].
  1: { rewrite pump_up_spec. by case_match. }
  all: by repeat case_match.
Qed.

Theorem relay_outlives_control ops r :
  Forall (λ op, is_control op = false) ops →
  (let? r' := relay_run r (ControlRead :: ops) in Ok (forget_return r'))
  = (let? r' := relay_run r ops in Ok (forget_return r')).
Proof.
  intros Ho. assert (∀ r1, (let? r' := relay_run r1 ops in Ok (forget_return r')) = relay_run (forget_return r1) ops) as H.
  { induction Ho as [|op ops Hop Ho IH]; intros r1; cbn [relay_run]; [done|].
    rewrite (relay_step_forget r1 op Hop). destruct (relay_step r1 op); [apply IH|done..]. }
  cbn [relay_run]. destruct r as [p up down e ret got heard sent replied]. cbn [relay_step].
  by rewrite !H.
Qed.
End Relaying.

Lemma socks_udp_association_witness :
  let c := sa_new (V4 [127; 0; 0; 1]) 5000 in
  let dns := sa_new (V4 [8; 8; 8; 8]) 53 in
  let ask := Request (SV4 [8; 8; 8; 8] 53) [1; 2; 3] in
  let junk := Junk [0; 0; 1; 1; 8] in
  let ask6 := Request (SV6 (replicate 16 1) 53) [4] in
  let ops := [RecvClient (datagram_bytes ask) c; RecvClient (datagram_bytes ask6) c; SendRemote; SendRemote;
              RecvRemote [7; 7] dns; RecvClient (datagram_bytes junk) c; SendClient true; ControlRead] in
  ∃ r, relay_run (NW := chain_network) relay_new ops = Ok r
  ∧ r_sent r `prefix_of` omap (goes_to (NW := chain_network)) [ask; ask6; junk]
  ∧ parse_udp_packet ∘ fst <$> r_replied r `prefix_of` [Ok (SV4 [8; 8; 8; 8] 53, [7; 7])]
  ∧ Forall (λ o, o.2 = c) (r_replied r) ∧ r_got r = offered ops.
Proof.
  intros c dns ask junk ask6 ops.
  destruct (socks_udp_association (NW := chain_network) ops) as (r & Hr & Hup & Hgot & Hdown & Hto).
  exists r. split; [done|]. assert (r_got r = offered ops) as Hg by (apply Hgot; vm_compute; lia).
  assert (r_heard r = [([7; 7], dns)]) as Hh by (vm_compute in Hr; by injection Hr as <-).
  repeat split; [..|done].
  - apply Hup; [|by rewrite Hg]. repeat constructor; try lia.
    intros a x Ha E. destruct a; cbn in E; discriminate E.
  - rewrite Hh in Hdown. apply Hdown. by_decide.
  - apply (Hto c (datagram_bytes ask) (tail ops)); [reflexivity|]. repeat constructor.
Defined.
