(* ===== verification/Listener.v ===== *)
(** * Listener: from an accepted connection to its sessions

    [listener_executor.rs]: the transports of a listener ([accept_tls], the
    PROXY header, HTTP/2, WebSocket, HTTP upgrade, multiplexing), the protocol
    sessions of [handle_stream] on top, [run_proto_pipeline] with the
    shadowsocks and VMess sessions of this library, and the UDP relays; the
    listeners that [CoreRuntime::serve] starts ([runtime/core.rs]).  The
    libraries under the transports are the class [Frontend]. *)

From S2P Require Import Prelude Text Net Io Socks5 Matching Geo Crypto Config Node Core Trojan Vless Sniff ProxyProtocol.
From S2P Require Import Aead Shadowsocks Vmess Mieru Mux Ws H2 Pipeline Outbound.
From S2P Require Anytls.
From Stdlib Require Import Sorted.

(** ** The libraries under a listener *)

Class Frontend := {
  (** rustls: the configuration for a certificate, a key and ALPN names, and
      the handshake *)
  pem_certs : list Z → res str nat;
  pem_key : list Z → res str bool;
  single_cert : list Z → list Z → res str unit;
  tls_accept : TlsServerSetup → sock → res ioerr sock;
  (** httparse, and the base64 text of a digest *)
  http_parse : list Z → http_parsed;
  http_path : list Z → res str (option str);
  base64 : list Z → str;
  (** tungstenite: the byte stream over an upgraded connection *)
  ws_stream : sock → sock;
  (** the h2 server *)
  h2_accept : sock → h2_conn sock;
  (** smux and yamux: the streams a session accepts, and how accepting ends *)
  mux_accept : sock → MuxKind → res ioerr (list sock * res ioerr unit)
}.

Section Listener.
Context `{FE : Frontend} `{NW : Network} `{RL : RegexLib} `{AE : Aead} `{SH : Sha2} `{VC : VmessCrypto}.
Context (show_status : Z → str) (b64 : list Z → str) (hmac_sha256 : list Z → list Z → list Z).

(** ** TLS *)

(** [build_rustls_server_config]: the certificates are counted here. *)
Definition build_server_config (s : TlsServerSetup) : res str unit :=
  let? certs := map_err (λ e, bs "tls: failed to parse certificate PEM: " ++ e) (pem_certs (material_cert s)) in
  if (certs =? 0)%nat then Err (bs "tls: no certificates found in PEM") else
  let? key := map_err (λ e, bs "tls: failed to parse private key PEM: " ++ e) (pem_key (material_key s)) in
  if negb key then Err (bs "tls: no private key found in PEM") else
  map_err (λ e, bs "tls: invalid certificate/key pair: " ++ e) (single_cert (material_cert s) (material_key s)).

Definition accept_tls (raw : sock) (setup : TlsServerSetup) : res ioerr sock :=
  let? _ := map_err other (build_server_config setup) in tls_accept setup raw.

Definition maybe_tls (tls : option TlsServerSetup) (raw : sock) : res ioerr sock :=
  match tls with Some setup => accept_tls raw setup | None => Ok raw end.

(** ** The transports of [handle_stream] *)

(** What a connection carries: naive streams with their authority, streams for
    [run_proto_pipeline] and how accepting them ends, or itself.  [counted]
    tells whether [add_conn] was called, as it is for the other two. *)
Inductive Carried :=
| Connects (ss : res ioerr (list (sock * str)))
| Substreams (counted : bool) (ss : list sock) (r : res ioerr unit)
| Bare (s : sock).

(** The streams that handlers are given. *)
Definition handled {A} (answers : list (Z * option A)) : list A := omap snd answers.

Definition is_naive (p : InboundProto) : bool := match p with INaive => true | _ => false end.
Definition is_anytls (p : InboundProto) : bool := match p with IAnytls _ => true | _ => false end.
Definition is_none (w : WrapTransport) : bool := match w with WNone => true | _ => false end.

(** The outcome of an operation on a stream, with the stream. *)
Definition step {A} (m : io A) (s : sock) : res ioerr sock := match m s with (Ok _, s) => Ok s | (Err e, _) => Err e | (Panic, _) => Panic end.

(** What follows the HTTP/2 transports. *)
Definition wrapped (plan : NodePlan) (s : sock) : res ioerr sock :=
  let? s := maybe_tls (p_tls plan) s in
  match p_wrap plan with
  | WNone => Ok s
  | WWs path host max =>
    let? s := step (Ws.handshake_inbound base64 http_parse (mk_ws_in path host max)) s in Ok (ws_stream s)
  | WHttpUp path host => step (httpup_inbound http_path (mk_httpup path host)) s
  | WGrpc _ | WH2 _ _ => Panic
  end.

Definition transport (plan : NodePlan) (s : sock) : res ioerr Carried :=
  if is_naive (p_proto plan) then
    let? s := maybe_tls (p_tls plan) s in
    Ok (Connects (let? answers := naive_serve (h2_accept s) in Ok (handled answers)))
  else
  let? s := if p_accept_pp plan then step read_header_from s else Ok s in
  match p_wrap plan with
  | WGrpc service =>
    let? s := maybe_tls (p_tls plan) s in
    let? answers := grpc_serve service (h2_accept s) in
    Ok (Substreams false (handled answers) (Ok tt))
  | WH2 path _ =>
    let? s := maybe_tls (p_tls plan) s in
    let? answers := serve_requests path (h2_accept s) in
    Ok (Substreams false (handled answers) (Ok tt))
  | _ =>
    let? s := wrapped plan s in
    if is_anytls (p_proto plan) && negb (is_none (p_wrap plan))
    then Ok (Substreams true [] (Err (other (bs "anytls requires bare TLS transport")))) else
    match p_mux plan with
    | Some kind =>
      Ok (match mux_accept s kind with
          | Ok (subs, r) => Substreams true subs r
          | Err e => Substreams true [] (Err e)
          | Panic => Substreams true [] Panic
          end)
    | None => Ok (Bare s)
    end
  end.

(** ** Sessions *)

Context (d : Draws) (pooled : Connector → ProxyTarget → res ioerr sock).
Context (dial : Connector → ProxyTarget → res ioerr sock).
Context (copy : sock → sock → res ioerr (Z * Z) * (sock * sock)).
(** The order in which the router's connectors are looked through. *)
Context (values : list Connector).

Definition accept_ss (method password : str) (s : sock) : res ioerr (ProxyTarget * sock) * sock :=
  match (do! (r, _) := ss_accept_tcp (mk_ss_config method password) in read_target r) s with
  | (Ok (t, r), s) => (Ok (t, ss_duplex r s), s)
  | (Err e, s) => (Err e, s)
  | (Panic, s) => (Panic, s)
  end.

Definition accept_vmess (uuids : list (list Z)) (s : sock) : res ioerr (ProxyTarget * sock) * sock :=
  match Vmess.handshake uuids (dw_now d) s with
  | (Ok (t, r, _), s) => (Ok (t, vmess_duplex r s), s)
  | (Err e, s) => (Err e, s)
  | (Panic, s) => (Panic, s)
  end.

(** The server's reading task, to the end of its stream. *)
Fixpoint mieru_serve (fuel : nat) (key nonce buf : list Z) (s : sock) : list Z :=
  match fuel with
  | O => []
  | S fuel =>
    match read (Z.to_nat 65536) s with
    | (Ok (b :: l), s) =>
      let buf := buf ++ b :: l in
      match serve_segments (S (length buf)) key nonce buf with
      | (out, Running nonce buf) => concat out ++ mieru_serve fuel key nonce buf s
      | (out, _) => concat out
      end
    | _ => []
    end
  end.

Definition accept_mieru (username password : str) (s : sock) : res ioerr (ProxyTarget * sock) * sock :=
  let minute := dw_now d / 60 in
  let key := derive_key hmac_sha256 username password minute in
  match accept_session minute key (dw_nonce d) s with
  | (Ok a, s) => (Ok (ac_target a, duplex_stream (mieru_serve (S (length (avail s))) key (ac_client_nonce a) [] s, Ok tt)), s)
  | (Err e, s) => (Err e, s)
  | (Panic, s) => (Panic, s)
  end.

(** A session: a routed TCP stream, or a UDP relay with its control stream and
    the stream to the server. *)
Inductive Session :=
| TcpSession (r : Relay)
| UdpSession (r : res ioerr (option sock)) (control : sock).

Definition session_result (x : Session) : res ioerr unit :=
  match x with
  | TcpSession r => rl_res r
  | UdpSession r _ => let? _ := r in Ok tt
  end.

Definition session_counters (c : Counters) (x : Session) : Counters :=
  match x with TcpSession r => rl_counters r | UdpSession _ _ => c end.

(** [handle_trojan_udp] and [handle_vless_udp] up to their tasks. *)
Definition udp_relay (sh : PipelineShared) (control : sock) : Session :=
  UdpSession (let? c := ok_or (mk_ioerr Unsupported (bs "no udp-capable outbound configured"))
                          (first_udp_connector values (sh_router sh)) in
              connect_udp show_status c) control.

(** [handle_socks_udp]; [udp_bind] is the port of the new socket. *)
Context (udp_bind : res ioerr Z).
Definition handle_socks_udp (sh : PipelineShared) (control : sock) : Session :=
  match udp_bind with
  | Ok port =>
    match write_all (socks_udp_reply port) control with
    | (Ok _, control) => udp_relay sh control
    | (Err e, control) => UdpSession (Err e) control
    | (Panic, control) => UdpSession Panic control
    end
  | Err e => UdpSession (Err e) control
  | Panic => UdpSession Panic control
  end.

(** A session that ends before it is routed. *)
Definition ended {A} (c : Counters) (r : res ioerr A) (s : sock) : Session :=
  TcpSession (mk_relay (match r with Err e => Err e | Panic => Panic | Ok _ => Ok tt end) s None c).

Definition duplex_session (sh : PipelineShared) (c : Counters) (x : res ioerr (ProxyTarget * sock) * sock) : Session :=
  match x with
  | (Ok (t, s), _) => TcpSession (run_tcp_route dial copy sh c s t [])
  | (r, s) => ended c r s
  end.

(** The last [match] of [handle_stream], apart from anytls. *)
Definition bare_session (sh : PipelineShared) (c : Counters) (proto : InboundProto) (stream : sock) : Session :=
  match proto with
  | IMieru username password => duplex_session sh c (accept_mieru username password stream)
  | INaive => ended (A := unit) c (Err (other (bs "naive handled by dedicated CONNECT path"))) stream
  | IAnytls _ => ended (A := unit) c (Ok tt) stream
  | ISocks cfg =>
    match Socks5.handshake cfg stream with
    | (Ok (AccTcp t), s) => TcpSession (run_tcp_route dial copy sh c s t [])
    | (Ok AccUdpAssociate, s) => handle_socks_udp sh s
    | (r, s) => ended c r s
    end
  | ITrojan hash =>
    match Trojan.handshake hash stream with
    | (Ok (TrTcp t), s) => TcpSession (run_tcp_route dial copy sh c s t [])
    | (Ok TrUdp, s) => udp_relay sh s
    | (r, s) => ended c r s
    end
  | IVmess uuids => duplex_session sh c (accept_vmess uuids stream)
  | IHysteria2 _ _ =>
    ended (A := unit) c (Err (other (bs "hysteria2 inbound must run on the QUIC listener path"))) stream
  | IShadowsocks method password => duplex_session sh c (accept_ss method password stream)
  | IVless uuids =>
    match Vless.handshake uuids stream with
    | (Ok (VlTcp t), s) => TcpSession (run_tcp_route dial copy sh c s t [])
    | (Ok VlUdp, s) => udp_relay sh s
    | (r, s) => ended c r s
    end
  end.

(** A stream of an anytls session that is over, with its target.  A turn of
    [accept_stream] takes a byte and more than 4096 end it; a read takes a byte
    of the channel. *)
Definition channel_bytes (ms : list Anytls.StreamMsg) : nat :=
  sum_list_with (λ m, match m with Anytls.MData x => S (length x) | _ => 1%nat end) ms.

Definition anytls_stream (ch : Z * list Anytls.StreamMsg) : option (ProxyTarget * sock) :=
  match Anytls.accept_stream (Z.to_nat 4098) [] (Anytls.mk_stream_rx ch.2 true None false) with
  | Anytls.Routed t leftover r =>
    let l := Anytls.read_all (Z.to_nat 16384) (S (length leftover + channel_bytes ch.2)) (Some leftover) r in
    Some (t, mk_sock (map Data (arrives l)) [] [] false)
  | _ => None
  end.

Definition anytls_streams (password : str) (s : sock) : res ioerr unit * list (ProxyTarget * sock) :=
  match Anytls.read_auth password s with
  | (Ok _, s) =>
    let '(r, st) := Anytls.read_loop (S (2 * length (avail s))) true [] Anytls.session_new s in
    (r, omap anytls_stream (Anytls.se_chans st))
  | (Err e, _) => (Err e, [])
  | (Panic, _) => (Panic, [])
  end.

(** ** [handle_stream] *)

Record Handled := mk_handled { hd_res : res ioerr unit; hd_sessions : list Session; hd_counters : Counters }.

(** Sessions that run side by side; the counters are atomic. *)
Fixpoint run_sessions {A} (f : Counters → A → Session) (c : Counters) (l : list A) : list Session * Counters :=
  match l with
  | [] => ([], c)
  | a :: l =>
    let x := f c a in
    let '(xs, c) := run_sessions f (session_counters c x) l in (x :: xs, c)
  end.

Definition handle_stream (plan : NodePlan) (sh : PipelineShared) (c : Counters) (s : sock) : Handled :=
  match transport plan s with
  | Err e => mk_handled (Err e) [] c
  | Panic => mk_handled Panic [] c
  | Ok (Connects r) =>
    let c := add_conn c in
    match r with
    | Ok ss =>
      let '(xs, c) := run_sessions (λ c '(s, authority),
        TcpSession (run_tcp_route dial copy sh c s (parse_naive_authority authority) [])) c ss in
      mk_handled (Ok tt) xs c
    | Err e => mk_handled (Err e) [] c
    | Panic => mk_handled Panic [] c
    end
  | Ok (Substreams counted ss r) =>
    let c := if counted then add_conn c else c in
    let '(xs, c) := run_sessions (λ c s,
      TcpSession (run_proto_pipeline dial copy accept_ss accept_vmess sh c (p_proto plan) s)) c ss in
    mk_handled r xs c
  | Ok (Bare s) =>
    let c := add_conn c in
    match p_proto plan with
    | IAnytls password =>
      let '(r, ss) := anytls_streams password s in
      let '(xs, c) := run_sessions (λ c '(t, s), TcpSession (run_tcp_route dial copy sh c s t [])) c ss in
      mk_handled r xs c
    | proto =>
      let x := bare_session sh c proto s in
      mk_handled (session_result x) [x] (session_counters c x)
    end
  end.
End Listener.

(** ** The listeners that [serve] starts *)

Section Serve.
Context (tcp_bind : SocketAddr → res ioerr unit).

(** The addresses of the plans, in the order in which they are opened. *)
Definition endpoints (plans : list NodePlan) : list (NodePlan * SocketAddr) :=
  plans ≫= λ plan, map (pair plan) (p_listen plan).

Fixpoint bind_all (l : list (NodePlan * SocketAddr)) : res ioerr (list (NodePlan * SocketAddr)) :=
  match l with
  | [] => Ok []
  | (plan, addr) :: l =>
    let? _ := map_err (λ e, mk_ioerr (ekind e)
      (bs "listener '" ++ p_tag plan ++ bs "' bind " ++ show_sockaddr addr ++ bs ": " ++ emsg e)) (tcp_bind addr) in
    let? rest := bind_all l in
    Ok ((plan, addr) :: rest)
  end.
Definition spawn_listeners (plans : list NodePlan) : res ioerr (list (NodePlan * SocketAddr)) := bind_all (endpoints plans).

(** The order of [String] keys, and insertion into the keys of a [BTreeMap]. *)
Fixpoint str_lt (a b : str) : bool :=
  match a, b with
  | [], _ :: _ => true
  | x :: a, y :: b => (x <? y) || (x =? y) && str_lt a b
  | _, [] => false
  end.
Fixpoint insert_key (k : str) (l : list str) : list str :=
  match l with
  | [] => [k]
  | x :: l' => if bool_decide (k = x) then l else if str_lt k x then k :: l else x :: insert_key k l'
  end.
Definition tags (plans : list NodePlan) : list str := foldl (λ l p, insert_key (p_tag p) l) [] plans.

Definition is_hysteria2 (p : InboundProto) : bool := match p with IHysteria2 _ _ => true | _ => false end.

(** A listener with the tag that its sessions are routed under. *)
Record Started := mk_started { st_plan : NodePlan; st_addr : SocketAddr; st_tag : str }.

Definition of_tag (plans : list NodePlan) (t : str) : list NodePlan :=
  filter (λ p, p_tag p = t ∧ is_hysteria2 (p_proto p) = false) plans.

Fixpoint serve_tcp (plans : list NodePlan) (tags : list str) : res str (list Started) :=
  match tags with
  | [] => Ok []
  | tag :: tags =>
    let plans_for_tag := of_tag plans tag in
    let? set := (match plans_for_tag with [] => Ok [] | _ => map_err emsg (spawn_listeners plans_for_tag) end) in
    let? rest := serve_tcp plans tags in
    Ok (map (λ x : NodePlan * SocketAddr, mk_started x.1 x.2 tag) set ++ rest)
  end.

Context (self_signed : str → res str (list Z * list Z)) (hy_bind : SocketAddr → str → list Z * list Z → res ioerr unit).

Definition hysteria2_material (tls : option TlsServerSetup) : res str (list Z * list Z) :=
  match tls with
  | Some t => Ok (material_cert t, material_key t)
  | None => self_signed (bs "hysteria.local")
  end.

Fixpoint serve_hysteria2 (l : list (NodePlan * SocketAddr)) : res str (list Started) :=
  match l with
  | [] => Ok []
  | (plan, addr) :: l =>
    match p_proto plan with
    | IHysteria2 password tls =>
      let? material := hysteria2_material tls in
      let? _ := map_err emsg (hy_bind addr password material) in
      let? rest := serve_hysteria2 l in
      Ok (mk_started plan addr (p_tag plan) :: rest)
    | _ => serve_hysteria2 l
    end
  end.

(** The part of [serve] that starts listeners. *)
Definition serve_listeners (plans : list NodePlan) : res str (list Started) :=
  let? tcp := serve_tcp plans (tags plans) in
  let? hy := serve_hysteria2 (endpoints plans) in
  Ok (tcp ++ hy).

End Serve.

(** The callback of a hysteria2 listener. *)
Definition hysteria2_target (addr : str) : res str ProxyTarget :=
  let? t := parse_hy_addr addr in Ok (default (Domain [] 0) t).

(** ** All listeners are started, each under its tag *)

Lemma str_lt_irrefl a : str_lt a a = false.
Proof. induction a as [|x a IH]; [done|]. cbn [str_lt]. by rewrite IH, andb_false_r, orb_false_r, Z.ltb_irrefl. Qed.

Lemma str_lt_cons x a y b : str_lt (x :: a) (y :: b) = true ↔ x < y ∨ x = y ∧ str_lt a b = true.
Proof. cbn [str_lt]. rewrite orb_true_iff, andb_true_iff, Z.ltb_lt, Z.eqb_eq. done. Qed.

Lemma str_lt_trans a b c : str_lt a b = true → str_lt b c = true → str_lt a c = true.
Proof.
  revert b c. induction a as [|x a IH]; intros [|y b] [|z c]; try done. rewrite !str_lt_cons.
  intros [H|[-> H]] [H'|[-> H']]; [left; lia | by left | by left|]. right. split; [done|]. by eapply IH.
Qed.

Lemma str_lt_total a b : a ≠ b → str_lt a b = false → str_lt b a = true.
Proof.
  revert b. induction a as [|x a IH]; intros [|y b]; try done. intros Hne H. rewrite str_lt_cons.
  assert (¬ (x < y ∨ x = y ∧ str_lt a b = true)) as Hn by (by rewrite <- str_lt_cons, H).
  destruct (decide (x = y)) as [->|]; [|left; lia]. right. split; [done|]. apply IH; [congruence|].
  apply not_true_is_false. tauto.
Qed.

Lemma insert_key_in k l t : t ∈ insert_key k l ↔ t = k ∨ t ∈ l.
Proof.
  induction l as [|x l IH]; cbn [insert_key]; [set_solver|].
  destruct (bool_decide_reflect (k = x)) as [->|]; [set_solver|]. destruct (str_lt k x); set_solver.
Qed.

Definition sorted (l : list str) : Prop := StronglySorted (λ a b, str_lt a b = true) l.

Lemma insert_key_sorted k l : sorted l → sorted (insert_key k l).
Proof.
  induction 1 as [|x l Hl IH Hx]; cbn [insert_key]; [repeat constructor|].
  destruct (bool_decide_reflect (k = x)) as [->|Hne]; [by constructor|].
  destruct (str_lt k x) eqn:E; constructor.
  - by constructor.
  - constructor; [done|]. eapply Forall_impl; [exact Hx|]. intros y. by apply str_lt_trans.
  - exact IH.
  - apply Forall_forall. intros y [->|Hy]%insert_key_in; [by apply str_lt_total|]. rewrite Forall_forall in Hx. by apply Hx.
Qed.

Lemma sorted_nodup l : sorted l → NoDup l.
Proof.
  induction 1 as [|x l Hl IH Hx]; constructor; [|done]. intros Hin. rewrite Forall_forall in Hx.
  specialize (Hx x Hin). by rewrite str_lt_irrefl in Hx.
Qed.

Lemma tags_spec plans : sorted (tags plans) ∧ ∀ t, t ∈ tags plans ↔ ∃ p, p ∈ plans ∧ p_tag p = t.
Proof.
  unfold tags. assert (∀ l0, sorted l0 → sorted (foldl (λ l p, insert_key (p_tag p) l) l0 plans)
    ∧ ∀ t, t ∈ foldl (λ l p, insert_key (p_tag p) l) l0 plans ↔ t ∈ l0 ∨ ∃ p, p ∈ plans ∧ p_tag p = t) as H.
  { induction plans as [|p plans IH]; intros l0 Hl; cbn [foldl].
    { split; [done|]. intros t. split; [by left|]. intros [?|(p & Hp & _)]; [done|]. by apply elem_of_nil in Hp. }
    destruct (IH (insert_key (p_tag p) l0)) as [H1 H2]; [by apply insert_key_sorted|]. split; [done|].
    intros t. rewrite H2, insert_key_in. setoid_rewrite elem_of_cons. naive_solver. }
  destruct (H []) as [H1 H2]; [constructor|]. split; [done|]. intros t. rewrite H2, elem_of_nil. naive_solver.
Qed.

(** The plans of each tag, tag after tag, are the plans. *)
Lemma by_tag_perm (q : NodePlan → bool) plans ts :
  NoDup ts → (∀ p, p ∈ plans → p_tag p ∈ ts) →
  concat (map (λ t, filter (λ p, p_tag p = t ∧ q p = false) plans) ts) ≡ₚ filter (λ p, q p = false) plans.
Proof.
  intros Hts Hin. induction plans as [|p plans IH].
  - clear Hts Hin. by induction ts.
  - assert (∀ p, p ∈ plans → p_tag p ∈ ts) as Hin' by (intros x Hx; apply Hin; by right). specialize (IH Hin').
    specialize (Hin p (list_elem_of_here _ _)). rewrite filter_cons. destruct (decide (q p = false)) as [Hq|Hq].
    + rewrite <- IH. clear IH Hin'. induction ts as [|t ts IHt]; [by apply elem_of_nil in Hin|].
      apply NoDup_cons in Hts as [Ht Hts]. cbn [map concat]. rewrite filter_cons.
      destruct (decide (p_tag p = t ∧ q p = false)) as [[<- _]|Hn].
      * cbn [app]. f_equiv. apply Permutation_app_head.
        assert (∀ ts', p_tag p ∉ ts' → map (λ t, filter (λ p, p_tag p = t ∧ q p = false) (p :: plans)) ts'
          = map (λ t, filter (λ p, p_tag p = t ∧ q p = false) plans) ts') as ->; [|done|done].
        induction ts' as [|t ts' IHts]; intros Hn; [done|]. apply not_elem_of_cons in Hn as [H1 H2].
        cbn [map]. rewrite filter_cons, decide_False by (intros [? _]; congruence). f_equal. by apply IHts.
      * rewrite IHt; [|done|]; [|apply elem_of_cons in Hin as [<-|]; [by destruct Hn|done]].
        by rewrite Permutation_middle.
    + rewrite <- IH. erewrite map_ext; [reflexivity|]. intros t.
      rewrite filter_cons, decide_False by (by intros [_ ?]). done.
Qed.

Section BindTheory.
Context (tcp_bind : SocketAddr → res ioerr unit).

Lemma elem_of_endpoints plans x : x ∈ endpoints plans ↔ x.1 ∈ plans ∧ x.2 ∈ p_listen x.1.
Proof.
  unfold endpoints. rewrite list_elem_of_bind. destruct x as [p a]. cbn [fst snd]. split.
  - intros (q & Hx & Hq). apply list_elem_of_fmap in Hx as (b & [= <- <-] & Hb). done.
  - intros [Hp Ha]. exists p. split; [|done]. apply list_elem_of_fmap. eauto.
Qed.

Lemma endpoints_app ps qs : endpoints (ps ++ qs) = endpoints ps ++ endpoints qs.
Proof. apply bind_app. Qed.

Lemma bind_all_ok l : bind_all tcp_bind l = Ok l ↔ Forall (λ x, is_ok (tcp_bind x.2) = true) l.
Proof.
  induction l as [|[p a] l IH]; [done|]. cbn [bind_all]. rewrite Forall_cons, <- IH. cbn [snd].
  destruct (tcp_bind a) as [[]|e|]; cbn [map_err is_ok]; [|naive_solver..].
  destruct (bind_all tcp_bind l); naive_solver.
Qed.

Lemma bind_all_eq l r : bind_all tcp_bind l = Ok r → r = l.
Proof.
  revert r. induction l as [|[p a] l IH]; intros r; cbn [bind_all]; [congruence|].
  destruct (tcp_bind a); [|done..]. cbn [map_err]. destruct (bind_all tcp_bind l) as [rest| |]; [|done..].
  intros [= <-]. f_equal. by apply IH.
Qed.

End BindTheory.

Section ServeTheory.
Context (tcp_bind : SocketAddr → res ioerr unit).
Context (self_signed : str → res str (list Z * list Z)) (hy_bind : SocketAddr → str → list Z * list Z → res ioerr unit).

Definition started (x : NodePlan * SocketAddr) : Started := mk_started x.1 x.2 (p_tag x.1).

(** Whether the endpoint of a plan can be opened. *)
Definition opens (x : NodePlan * SocketAddr) : bool :=
  match p_proto x.1 with
  | IHysteria2 password tls =>
    match hysteria2_material self_signed tls with Ok m => is_ok (hy_bind x.2 password m) | _ => false end
  | _ => is_ok (tcp_bind x.2)
  end.

Lemma of_tag_opens plans t x : x ∈ endpoints (of_tag plans t) → opens x = is_ok (tcp_bind x.2).
Proof.
  intros [Hx _]%elem_of_endpoints. apply list_elem_of_filter in Hx as [[_ Hh] _]. unfold opens. by destruct (p_proto x.1).
Qed.

Lemma tag_set ps :
  match ps with [] => Ok [] | _ => map_err emsg (spawn_listeners tcp_bind ps) end = map_err emsg (spawn_listeners tcp_bind ps).
Proof. by destruct ps. Qed.

Lemma serve_tcp_ok plans ts :
  (∀ x, x ∈ endpoints plans → is_hysteria2 (p_proto x.1) = false → p_tag x.1 ∈ ts → opens x = true) →
  serve_tcp tcp_bind plans ts = Ok (map started (endpoints (concat (map (of_tag plans) ts)))).
Proof.
  induction ts as [|t ts IH]; intros H; cbn [serve_tcp map concat]; [done|].
  rewrite tag_set. unfold spawn_listeners. rewrite (proj2 (bind_all_ok tcp_bind _)).
  2:{ apply Forall_forall. intros x Hx. rewrite <- (of_tag_opens plans t) by done.
      apply elem_of_endpoints in Hx as [Hp Ha]. apply list_elem_of_filter in Hp as [[Ht Hh] Hp].
      apply H; [by apply elem_of_endpoints | done | rewrite Ht; by left]. }
  cbn [map_err]. rewrite IH by (intros x ???; apply H; [done|done|by right]).
  rewrite endpoints_app, map_app. do 2 f_equal. apply map_ext_in. intros x Hx%list_elem_of_In.
  apply elem_of_endpoints in Hx as [Hp _]. apply list_elem_of_filter in Hp as [[Ht _] _]. unfold started. by rewrite Ht.
Qed.

Lemma serve_tcp_inv plans ts l :
  serve_tcp tcp_bind plans ts = Ok l → ∀ t x, t ∈ ts → x ∈ endpoints (of_tag plans t) → opens x = true.
Proof.
  revert l. induction ts as [|t ts IH]; intros l; cbn [serve_tcp]; [intros _ t' x Ht; by apply elem_of_nil in Ht|].
  rewrite tag_set.
  destruct (spawn_listeners tcp_bind (of_tag plans t)) as [r|e|] eqn:E.
  - intros Hl t' x [->|Ht]%elem_of_cons Hx.
    + rewrite (of_tag_opens plans t) by done. pose proof (bind_all_eq _ _ _ E) as ->.
      apply bind_all_ok in E. rewrite Forall_forall in E. by apply E.
    + cbn [map_err] in Hl. destruct (serve_tcp tcp_bind plans ts) as [l'| |]; [by eapply IH|done..].
  - done.
  - done.
Qed.

Definition hy (x : NodePlan * SocketAddr) : bool := is_hysteria2 (p_proto x.1).

Lemma serve_hysteria2_ok l :
  (∀ x, x ∈ l → hy x = true → opens x = true) →
  serve_hysteria2 self_signed hy_bind l = Ok (map started (filter (λ x, hy x = true) l)).
Proof.
  induction l as [|[p a] l IH]; intros H; cbn [serve_hysteria2]; [done|].
  specialize (IH (λ x Hx, H x (list_elem_of_further _ _ _ Hx))). rewrite filter_cons.
  specialize (H (p, a) (list_elem_of_here _ _)). unfold hy, opens in H |- *. cbn [fst snd] in *.
  destruct (p_proto p) eqn:Ep; cbn [is_hysteria2] in *; try (by rewrite decide_False by done).
  rewrite decide_True by done. specialize (H eq_refl).
  destruct (hysteria2_material self_signed tls) as [m| |]; [|done..].
  destruct (hy_bind a password m); [|done..]. cbn [map_err]. unfold hy in IH. by rewrite IH.
Qed.

Lemma serve_hysteria2_inv l r :
  serve_hysteria2 self_signed hy_bind l = Ok r → ∀ x, x ∈ l → hy x = true → opens x = true.
Proof.
  revert r. induction l as [|[p a] l IH]; intros r Hr x Hx Hh; [by apply elem_of_nil in Hx|].
  cbn [serve_hysteria2] in Hr. apply elem_of_cons in Hx as [->|Hx].
  - unfold hy, opens in *. cbn [fst snd] in *. destruct (p_proto p); try done.
    destruct (hysteria2_material self_signed tls) as [m| |]; [|done..]. by destruct (hy_bind a password m).
  - destruct (p_proto p); try (by eapply IH). destruct (hysteria2_material self_signed tls) as [m| |]; [|done..].
    destruct (hy_bind a password m); [|done..]. cbn [map_err] in Hr.
    destruct (serve_hysteria2 self_signed hy_bind l); [by eapply IH|done..].
Qed.

(** The listeners that [serve] starts: it succeeds exactly when every
    address of every plan can be opened (the hysteria2 ones on their own path,
    with the plan's certificate or a generated one), and then there is exactly
    one listener for each address of each plan, routed under the tag of its
    plan, also when several plans share a tag. *)
Lemma serve_starts_all plans :
  ((∀ x, x ∈ endpoints plans → opens x = true) →
    ∃ l, serve_listeners tcp_bind self_signed hy_bind plans = Ok l ∧ l ≡ₚ map started (endpoints plans))
  ∧ ∀ l, serve_listeners tcp_bind self_signed hy_bind plans = Ok l →
      ∀ x, x ∈ endpoints plans → opens x = true.
Proof.
  destruct (tags_spec plans) as [Hs Hin]. unfold serve_listeners. split.
  - intros H. rewrite serve_tcp_ok by (intros x Hx _ _; by apply H).
    rewrite serve_hysteria2_ok by (intros x Hx _; by apply H). eexists. split; [done|].
    rewrite <- map_app. apply Permutation_map.
    etrans; [|apply (filter_app_complement (λ x, hy x = true))]. rewrite (Permutation_app_comm (filter _ _)).
    apply Permutation_app_tail.
    assert (concat (map (of_tag plans) (tags plans)) ≡ₚ filter (λ p, is_hysteria2 (p_proto p) = false) plans) as Hp.
    { apply (by_tag_perm (λ p, is_hysteria2 (p_proto p))); [by apply sorted_nodup|]. intros p Hp. apply Hin. eauto. }
    unfold endpoints at 1. rewrite Hp. clear. induction plans as [|p plans IH]; [done|]. rewrite filter_cons.
    change (endpoints (p :: plans)) with (map (pair p) (p_listen p) ++ endpoints plans). rewrite filter_app, <- IH.
    assert (filter (λ x, ¬ hy x = true) (map (pair p) (p_listen p)) =
            if is_hysteria2 (p_proto p) then [] else map (pair p) (p_listen p)) as ->.
    { induction (p_listen p) as [|a l IHl]; [by destruct (is_hysteria2 _)|]. cbn [map]. rewrite filter_cons, IHl.
      unfold hy. cbn [fst]. destruct (is_hysteria2 (p_proto p)); [by rewrite decide_False by tauto | by rewrite decide_True by done]. }
    destruct (is_hysteria2 (p_proto p)); [by rewrite decide_False by done | by rewrite decide_True by done].
  - intros l Hl x Hx. destruct (serve_tcp tcp_bind plans (tags plans)) as [l1| |] eqn:E1; [|done..].
    destruct (serve_hysteria2 self_signed hy_bind (endpoints plans)) as [l2| |] eqn:E2; [|done..].
    destruct (hy x) eqn:Eh; [by eapply serve_hysteria2_inv|].
    apply elem_of_endpoints in Hx as [Hp Ha]. eapply serve_tcp_inv; [done| |].
    + apply Hin. eauto.
    + apply elem_of_endpoints. split; [|done]. apply list_elem_of_filter. done.
Qed.
End ServeTheory.

(** ** Who gets a session *)

Section Auth.
Context `{FE : Frontend} `{NW : Network} `{RL : RegexLib} `{AE : Aead} `{SH : Sha2} `{VC : VmessCrypto}.
Context (show_status : Z → str) (hmac_sha256 : list Z → list Z → list Z) (d : Draws) (values : list Connector).
Context (udp_bind : res ioerr Z).
Implicit Types (dial : Connector → ProxyTarget → res ioerr sock) (copy : sock → sock → res ioerr (Z * Z) * (sock * sock)).

(** The streams on which the sessions of a connection run. *)
Definition streams_of (x : Carried) : list sock :=
  match x with
  | Connects (Ok ss) => map fst ss
  | Connects _ => []
  | Substreams _ ss _ => ss
  | Bare s => [s]
  end.

(** What the client of a listener has to send first.  A naive listener and a
    SOCKS5 listener without a user have no credentials: they take everybody.  A
    hysteria2 listener has no session on a TCP connection, whoever asks. *)
Definition presents (p : InboundProto) (i : list Z) : Prop :=
  match p with
  | ITrojan hash => ∃ h rest, i = h ++ CRLF ++ rest ∧ length h = 56%nat
      ∧ eq_ignore_ascii_case (from_utf8_lossy h) hash = true
  | IVless uuids => ∃ uuid rest, i = [0] ++ uuid ++ rest ∧ uuid ∈ uuids ∧ length uuid = 16%nat
  | ISocks cfg =>
    match si_username cfg with
    | Some u => ∃ p ms ub pb x y z rest, si_password cfg = Some p ∧ from_utf8_lossy ub = u ∧ from_utf8_lossy pb = p
        ∧ i = [VER; x] ++ ms ++ [1; y] ++ ub ++ [z] ++ pb ++ rest
    | None => True
    end
  | IAnytls password => ∃ rest, i = sha256 password ++ rest
  | IShadowsocks method password => ss_credentials (mk_ss_config method password) i
  | IVmess uuids => vmess_credentials uuids (dw_now d) i
  | IMieru username password => mieru_credentials (derive_key hmac_sha256 username password (dw_now d / 60)) i
  | IHysteria2 _ _ => False
  | INaive => True
  end.

(** The listeners that have credentials. *)
Definition guarded (p : InboundProto) : bool :=
  match p with
  | INaive => false
  | ISocks cfg => match si_username cfg with Some _ => true | None => false end
  | _ => true
  end.

(** They ask for something. *)
Lemma guarded_asks p : guarded p = true → ¬ presents p [].
Proof.
  intros Hg H. assert (∀ a b : list Z, [] = a ++ b → length a = 0%nat) as Hnil by (by intros [|] b).
  destruct p; cbn [presents guarded] in *; try done.
  - destruct (si_username c); [|done]. by destruct H as (? & ? & ? & ? & ? & ? & ? & ? & _ & _ & _ & ?).
  - destruct H as (h & rest & E & Hl & _). apply Hnil in E. lia.
  - destruct H as (m & salt & ? & ? & ? & ? & ? & ? & ? & _ & E & Hl & _). apply Hnil in E. destruct m; cbn in Hl; lia.
  - by destruct H as (? & ? & ? & _).
  - destruct H as (u & a & ? & ? & ? & ? & ? & ? & _ & E & Hl & _). apply Hnil in E. lia.
  - destruct H as (rest & E). apply Hnil in E. destruct (sha256_ok password). lia.
  - destruct H as (l & ? & ? & ? & ? & E & Hl & _). apply Hnil in E. lia.
Qed.

Definition contacts (x : Session) : Prop :=
  match x with
  | TcpSession r => rl_remote r ≠ None
  | UdpSession r _ => is_ok r = true
  end.

Notation bare dial copy := (bare_session show_status hmac_sha256 d dial copy values udp_bind).
Notation run dial copy := (run_proto_pipeline dial copy accept_ss (accept_vmess d)).
Notation handle dial copy := (handle_stream show_status hmac_sha256 d dial copy values udp_bind).

Lemma trojan_refused hash s : ¬ presents (ITrojan hash) (avail s) →
  match Trojan.handshake hash s with (Ok _, _) => False | _ => True end.
Proof.
  destruct (Trojan.handshake hash s) as [[acc|e|] s'] eqn:E; [|done..]. intros Hn. apply Hn.
  apply Trojan.trojan_presents in E as (h & cmd & rest & -> & Hl & He & _). by exists h, ([cmd] ++ rest).
Qed.

Lemma vless_refused uuids s : ¬ presents (IVless uuids) (avail s) →
  match Vless.handshake uuids s with (Ok _, _) => False | _ => True end.
Proof.
  destruct (Vless.handshake uuids s) as [[acc|e|] s'] eqn:E; [|done..]. intros Hn. apply Hn.
  apply Vless.vless_presents in E as (u & rest & -> & Hin & Hl & _). by exists u, rest.
Qed.

Lemma socks_refused cfg s : ¬ presents (ISocks cfg) (avail s) →
  match Socks5.handshake cfg s with (Ok _, _) => False | _ => True end.
Proof.
  destruct (Socks5.handshake cfg s) as [[acc|e|] s'] eqn:E; [|done..]. intros Hn. apply Hn. cbn [presents].
  destruct (si_username cfg) as [u|] eqn:Eu; [|done].
  apply (Socks5.socks_presents cfg u) in E as (p & ms & ub & pb & x & y & z & rest & H1 & H2 & H3 & _ & _ & _ & _ & ->); [|done].
  by exists p, ms, ub, pb, x, y, z, rest.
Qed.

Lemma anytls_refused password s : ¬ presents (IAnytls password) (avail s) → (anytls_streams password s).2 = [].
Proof.
  unfold anytls_streams. destruct (Anytls.read_auth password s) as [[[]|e|] s'] eqn:E; [|done..]. intros Hn. exfalso. apply Hn.
  unfold Anytls.read_auth in E. io_inv E. destruct (read_exact_inv _ _ _ _ Hm) as (Ha & _).
  io_inv E. io_inv E. clear Hm0 Hm1. cbn [presents].
  case_bool_decide; [|done]. subst. by exists (avail s0).
Qed.
Lemma ss_refused method password s : ¬ presents (IShadowsocks method password) (avail s) →
  match accept_ss method password s with (Ok _, _) => False | _ => True end.
Proof.
  unfold accept_ss.
  destruct ((do! (r, _) := ss_accept_tcp (mk_ss_config method password) in read_target r) s) as [[[t r]|e|] s'] eqn:E; [|done..]. intros Hn. apply Hn. by eapply ss_presents.
Qed.

Lemma vmess_refused uuids s : ¬ presents (IVmess uuids) (avail s) →
  match accept_vmess d uuids s with (Ok _, _) => False | _ => True end.
Proof.
  unfold accept_vmess. destruct (Vmess.handshake uuids (dw_now d) s) as [[[[t r] k]|e|] s'] eqn:E; [|done..].
  intros Hn. apply Hn. by eapply vmess_presents.
Qed.

Lemma mieru_refused username password s : ¬ presents (IMieru username password) (avail s) →
  match accept_mieru hmac_sha256 d username password s with (Ok _, _) => False | _ => True end.
Proof.
  unfold accept_mieru. destruct (accept_session _ _ _ s) as [[a|e|] s'] eqn:E; [|done..]. intros Hn. apply Hn. by eapply mieru_presents.
Qed.

Lemma duplex_refused sh c (x : res ioerr (ProxyTarget * sock) * sock) :
  match x with (Ok _, _) => False | _ => True end →
  ∃ y, ¬ contacts y ∧ ∀ dial copy, duplex_session dial copy sh c x = y.
Proof. unfold duplex_session. destruct x as [[[t s]|e|] s']; [done|..]; (eexists; split; [|done]; intros Hc; by apply Hc). Qed.

Lemma bare_refused sh c p s : ¬ presents p (avail s) →
  ∃ x, ¬ contacts x ∧ ∀ dial copy, bare dial copy sh c p s = x.
Proof.
  intros Hn. destruct p; cbn [bare_session].
  - pose proof (socks_refused _ _ Hn) as H. destruct (Socks5.handshake c0 s) as [[acc|e|] s']; [done|..];
      (eexists; split; [|done]; intros Hc; by apply Hc).
  - pose proof (trojan_refused _ _ Hn) as H. destruct (Trojan.handshake hash s) as [[acc|e|] s']; [done|..];
      (eexists; split; [|done]; intros Hc; by apply Hc).
  - apply duplex_refused. by apply ss_refused.
  - pose proof (vless_refused _ _ Hn) as H. destruct (Vless.handshake uuids s) as [[acc|e|] s']; [done|..];
      (eexists; split; [|done]; intros Hc; by apply Hc).
  - apply duplex_refused. by apply vmess_refused.
  - eexists. split; [|done]. intros Hc; by apply Hc.
  - eexists. split; [|done]. intros Hc; by apply Hc.
  - eexists. split; [|done]. intros Hc; by apply Hc.
  - apply duplex_refused. by apply mieru_refused.
Qed.

Lemma run_refused sh c p s : ¬ presents p (avail s) →
  ∃ r, rl_remote r = None ∧ ∀ dial copy, run dial copy sh c p s = r.
Proof.
  intros Hn. destruct p; cbn [run_proto_pipeline]; try (eexists; split; [|done]; done).
  - pose proof (socks_refused _ _ Hn) as H. destruct (Socks5.handshake c0 s) as [[acc|e|] s']; [done|..]; (eexists; split; [|done]; done).
  - pose proof (trojan_refused _ _ Hn) as H. destruct (Trojan.handshake hash s) as [[acc|e|] s']; [done|..]; (eexists; split; [|done]; done).
  - pose proof (ss_refused _ _ _ Hn) as H. destruct (accept_ss method password s) as [[[t s1]|e|] s']; [done|..]; (eexists; split; [|done]; done).
  - pose proof (vless_refused _ _ Hn) as H. destruct (Vless.handshake uuids s) as [[acc|e|] s']; [done|..]; (eexists; split; [|done]; done).
  - pose proof (vmess_refused _ _ Hn) as H. destruct (accept_vmess d uuids s) as [[[t s1]|e|] s']; [done|..]; (eexists; split; [|done]; done).
Qed.

Lemma runs_refused sh p ss : (∀ s, s ∈ ss → ¬ presents p (avail s)) → ∀ c,
  ∃ xs c', (∀ x, x ∈ xs → ¬ contacts x)
    ∧ ∀ dial copy, run_sessions (λ c s, TcpSession (run dial copy sh c p s)) c ss = (xs, c').
Proof.
  induction ss as [|s ss IH]; intros Hn c.
  - exists [], c. split; [|done]. intros x Hx. by apply elem_of_nil in Hx.
  - destruct (run_refused sh c p s) as (r & Hr & Hrun); [apply Hn; by left|].
    destruct (IH (λ s' H, Hn s' (list_elem_of_further _ _ _ H)) (session_counters c (TcpSession r))) as (xs & c' & Hxs & Hruns).
    exists (TcpSession r :: xs), c'. split.
    + intros x [->|Hx]%elem_of_cons; [by intros H|by apply Hxs].
    + intros dial copy. cbn [run_sessions]. by rewrite Hrun, Hruns.
Qed.

(** Without credentials on any stream of a connection nothing is dialled. *)
Lemma handle_stream_refuses plan sh c s :
  (∀ x, transport plan s = Ok x → ∀ inner, inner ∈ streams_of x → ¬ presents (p_proto plan) (avail inner)) →
  ∃ h, (∀ x, x ∈ hd_sessions h → ¬ contacts x) ∧ ∀ dial copy, handle dial copy plan sh c s = h.
Proof.
  intros Hn. unfold handle_stream. destruct (transport plan s) as [x|e|] eqn:E;
    [|by eexists; split; [|done]; intros x Hx; apply elem_of_nil in Hx..].
  specialize (Hn x eq_refl). destruct x as [[ss|e|]|counted ss r|s1]; cbn [streams_of] in Hn;
    [|by eexists; split; [|done]; intros x Hx; apply elem_of_nil in Hx..| |].
  - assert (Hp : p_proto plan = INaive).
    { unfold transport in E. destruct (p_proto plan); try done; cbn [is_naive] in E; exfalso;
        repeat (case_match; try done). }
    rewrite Hp in Hn. destruct ss as [|[s' a] ss]; [exists (mk_handled (Ok tt) [] (add_conn c)); split; [|done]; intros x Hx; by apply elem_of_nil in Hx|].
    exfalso. apply (Hn s'); [by left|done].
  - destruct (runs_refused sh (p_proto plan) ss Hn (if counted then add_conn c else c)) as (xs & c' & Hxs & Hruns).
    exists (mk_handled r xs c'). split; [done|]. intros dial copy. by rewrite Hruns.
  - specialize (Hn s1 (list_elem_of_here _ _)). destruct (is_anytls (p_proto plan)) eqn:Ea.
    + destruct (p_proto plan); try done. apply anytls_refused in Hn. destruct (anytls_streams password s1) as [r ss].
      cbn [snd] in Hn. subst ss. exists (mk_handled r [] (add_conn c)). split; [|done]. intros x Hx. by apply elem_of_nil in Hx.
    + destruct (bare_refused sh (add_conn c) _ _ Hn) as (x & Hx & Hb). exists (mk_handled (session_result x) [x] (session_counters (add_conn c) x)).
      split; [intros y Hy; apply list_elem_of_singleton in Hy as ->; done|].
      intros dial copy. destruct (p_proto plan); try done; by rewrite Hb.
Qed.

(** C5: nobody is proxied without credentials, whatever the transport.  If no
    stream that a connection carries, over TLS, WebSocket, HTTP upgrade, gRPC,
    HTTP/2, or as a substream of a multiplexed session, or the connection
    itself, presents what its listener asks for, then no session reaches a
    server, neither for TCP nor for UDP, and the outcome does not depend on
    what dialling would give: it is not tried.  A listener asks for the trojan
    hash, a VLESS identifier, the SOCKS5 user and password or the AnyTLS token;
    for a chunk that opens under the shadowsocks password, metadata that opens
    under the mieru user's key, or a fresh VMess header that opens under a
    user's key, which C8 shows to be the same for all users.  A naive listener
    and a SOCKS5 listener without a user ask for nothing; a hysteria2 listener
    serves nobody here. *)
Theorem listener_auth plan sh c s :
  (∀ x, transport plan s = Ok x → ∀ inner, inner ∈ streams_of x → ¬ presents (p_proto plan) (avail inner)) →
  ∃ h, (∀ x, x ∈ hd_sessions h → ¬ contacts x) ∧ ∀ dial copy, handle dial copy plan sh c s = h.
Proof. apply handle_stream_refuses. Qed.

(** ** What gets through *)

(** What a client of a listener sends for a target and a payload, and what the
    listener answers, if it answers on the stream that is then relayed. *)
Inductive speaks : InboundProto → ProxyTarget → list Z → list Z → option (list Z) → Prop :=
| speaks_plain p t head payload reply :
    agrees p t head reply → speaks p t payload (head ++ payload) (Some reply)
| speaks_vmess cfg uc dr security sec t u users ts ps body :
    draws_wf dr → target_addr_wf t → security_byte security = Ok sec →
    0 ≤ ts < 2 ^ 63 → 0 ≤ dw_now d < 2 ^ 63 → Z.abs (dw_now d - ts) ≤ 120 →
    carried (chunk_new (client_keys dr) (chunk_sec_out sec) true true) ps body →
    speaks (IVmess (u :: users)) t (concat ps) (request_bytes cfg uc dr ts sec t ++ body) None.

Lemma carried_length c ps body : carried c ps body → (length ps <= length body)%nat.
Proof.
  induction 1 as [c tail|c p ps pad rest Hp Hpad Hc IH]; cbn [length]; [lia|]. rewrite length_app.
  enough (0 < length (piece_out c pad p).1)%nat by lia. unfold piece_out.
  destruct (take_padding _ _) as [n c1]. destruct (size_bytes c1 _) as [size c2] eqn:E. destruct (next_nonce c2) as [nonce c3].
  cbn [fst]. rewrite length_app. enough (length size = 2%nat) by lia.
  unfold size_bytes in E. destruct (cs_masking c1); [|injection E as <- _; by apply length_be_bytes].
  unfold parser_encode in E. destruct (parser_next _) as [x q]. injection E as <- _. apply length_be_bytes.
Qed.

Lemma duplex_stream_clean l : clean (duplex_stream (l, Ok tt)) ∧ avail (duplex_stream (l, Ok tt)) = l.
Proof.
  unfold duplex_stream. cbn [fst snd]. rewrite app_nil_r.
  split; [apply (clean_stream_of (arrives l)) | etrans; [apply (avail_stream_of (arrives l))|apply arrives_concat]].
Qed.

Lemma speaks_bare dial copy sh c p t payload i reply s :
  speaks p t payload i reply → clean s → s_wr s = [] → avail s = i →
  ∃ s', bare dial copy sh c p s = TcpSession (run_tcp_route dial copy sh c s' t [])
    ∧ clean s' ∧ avail s' = payload ∧ s_wr s' = []
    ∧ s_out s' = match reply with Some b => s_out s ++ b | None => [] end.
Proof.
  intros Hsp Hc Hw Ha. destruct Hsp as [p t head payload reply Hag | cfg uc dr security sec t u users ts ps body Hd Ht Hs Hts Hnow Hn Hcar].
  - destruct (agrees_accepts p t head reply payload s Hag Hc Hw Ha) as (s' & Hs & H1 & H2 & H3 & H4).
    exists s'. split; [|done]. destruct p; try done; cbn [accepts bare_session] in *; by rewrite Hs.
  - pose proof (yields_handshake cfg uc dr security sec t u users ts (dw_now d) body Hd Ht Hs Hts Hnow Hn) as Hy.
    destruct (Hy s Ha Hw) as (s1 & E & Ha1 & _ & Hw1 & _).
    pose proof (kc_handshake (u :: users) (dw_now d) s Hc) as Hc1. rewrite E in Hc1. cbn [snd] in Hc1.
    cbn [bare_session]. unfold accept_vmess. rewrite E. cbn [duplex_session].
    unfold vmess_duplex. rewrite (duplex_carried _ ps body Hcar); cbn [vr_chunk vr_pending vr_ppos vr_eof vm_reader_new length]; try done.
    + destruct (duplex_stream_clean (concat ps)) as [H1 H2]. by eexists.
    + apply carried_length in Hcar. rewrite Ha1. lia.
Qed.
Lemma transport_bare plan s s1 :
  is_naive (p_proto plan) = false → is_anytls (p_proto plan) = false → p_wrap plan = WNone → p_accept_pp plan = false →
  p_mux plan = None → maybe_tls (p_tls plan) s = Ok s1 → transport plan s = Ok (Bare s1).
Proof. intros Hn Ha Hw Hp Hm Ht. unfold transport, wrapped. by rewrite Hn, Hp, Hw, Ht, Ha, Hm. Qed.

Lemma handle_bare dial copy plan sh c s s1 :
  transport plan s = Ok (Bare s1) → is_anytls (p_proto plan) = false →
  handle dial copy plan sh c s
  = let x := bare dial copy sh (add_conn c) (p_proto plan) s1 in
    mk_handled (session_result x) [x] (session_counters (add_conn c) x).
Proof. intros Ht Ha. unfold handle_stream. rewrite Ht. by destruct (p_proto plan). Qed.

(** A client that speaks the protocol is forwarded. *)
Lemma handle_stream_forwards dial copy plan sh c s s1 t payload i reply conn remote :
  p_wrap plan = WNone → p_accept_pp plan = false → p_mux plan = None → maybe_tls (p_tls plan) s = Ok s1 →
  clean s1 → s_wr s1 = [] → avail s1 = i → speaks (p_proto plan) t payload i reply → sniff_safe payload = true →
  (∀ host, route (sh_router sh) t host (sh_inbound_tag sh) = Proxy conn) →
  dial conn t = Ok remote → clean remote → s_wr remote = [] → copies copy →
  let h := handle dial copy plan sh c s in
  hd_res h = Ok tt
  ∧ ∃ r remote', hd_sessions h = [TcpSession r] ∧ rl_remote r = Some remote'
    ∧ s_out remote' = s_out remote ++ payload
    ∧ s_out (rl_client r) = match reply with Some b => s_out s1 ++ b | None => [] end ++ avail remote
    ∧ connections_total (hd_counters h) = wadd 64 (connections_total c) 1.
Proof.
  intros Hw Hpp Hm Htls Hc1 Hw1 Ha1 Hsp Hsafe Hroute Hdial Hcr Hwr Hcopy h. subst h.
  assert (is_naive (p_proto plan) = false ∧ is_anytls (p_proto plan) = false) as [Hn Han].
  { destruct Hsp as [p t head payload reply Hag|]; [by destruct Hag|done]. }
  rewrite (handle_bare dial copy plan sh c s s1) by (done || by apply transport_bare). cbv zeta.
  destruct (speaks_bare dial copy sh (add_conn c) (p_proto plan) t payload i reply s1 Hsp Hc1 Hw1 Ha1) as (s' & Hb & H1 & H2 & H3 & H4).
  destruct (routed_forwards dial copy payload t (add_conn c) sh conn remote s') as (remote' & n & R1 & R2 & R3 & R4 & _ & R6); [done..|].
  rewrite Hb. cbn [hd_res hd_sessions hd_counters session_result session_counters]. split; [done|].
  eexists _, remote'. rewrite R4, H4, R6. done.
Qed.

(** *** The streams of an AnyTLS session *)

Lemma channel_bytes_data ps e :
  (length (concat ps) <= channel_bytes (map Anytls.MData ps ++ e))%nat.
Proof.
  induction ps as [|x ps IH]; [cbn; lia|]. cbn [map app concat]. rewrite length_app.
  change (channel_bytes (Anytls.MData x :: ?l)) with (S (length x) + channel_bytes l)%nat. lia.
Qed.

(** A channel of a session is routed to its target with its data. *)
Lemma anytls_stream_peer k p :
  Anytls.peer_ok p →
  ∃ s, anytls_stream (k, Anytls.p_msgs p) = Some (Anytls.p_target p, s)
    ∧ clean s ∧ avail s = concat (Anytls.p_pieces p) ∧ s_wr s = [] ∧ s_out s = [].
Proof.
  intros Hp. unfold anytls_stream. cbn [snd].
  replace (Z.to_nat 4098) with (S (S (Z.to_nat 4096))) by lia.
  destruct (Anytls.accept_peer p (Z.to_nat 4096) Hp) as (r & -> & Hr). eexists. split; [done|].
  rewrite Hr; [|lia|].
  - split; [apply (clean_stream_of (arrives _))|]. split; [|done]. etrans; [apply (avail_stream_of (arrives _))|apply arrives_concat].
  - destruct Hp as (Ha & _ & _). unfold Anytls.p_msgs. rewrite Ha.
    pose proof (channel_bytes_data (Anytls.p_pieces p) (if Anytls.p_ended p then [Anytls.MEof] else [])) as Hb.
    change (channel_bytes ([Anytls.MData ?a] ++ ?l)) with (S (length a) + channel_bytes l)%nat. cbn [length]. lia.
Qed.

(** A client of the listener whose steps all went through, and the bytes that it
    has written when its queue is empty. *)
Definition anytls_client (password ver : str) (ops : list Anytls.client_op) (bytes : list Z) : Prop :=
  ∃ c0 s0 c, Anytls.client_connect password ver (stream_of []) = (Ok c0, s0)
  ∧ Z.of_nat (length (Anytls.settings ver)) < 65536 ∧ Forall Anytls.op_wf ops ∧ Z.of_nat (length ops) + 2 < 2 ^ 32
  ∧ Anytls.client_run ops c0 = Some c ∧ Anytls.cl_opening c = None
  ∧ Anytls.w_taken (Anytls.cl_writer c) = length (Anytls.w_sent (Anytls.cl_writer c))
  ∧ bytes = s_out (Anytls.w_sock (Anytls.cl_writer c)).

(** The streams that the client has opened, with what it has written to each. *)
Definition opened (ops : list Anytls.client_op) : list (ProxyTarget * list Z) := (Anytls.spec_run ops ([], None)).1.

Lemma anytls_streams_client password ver ops s :
  anytls_client password ver ops (avail s) → clean s → s_wr s = [] →
  ∃ ss, anytls_streams password s = (Ok tt, ss)
    ∧ Forall2 (λ x y, y.1 = x.1 ∧ clean y.2 ∧ avail y.2 = x.2 ∧ s_wr y.2 = [] ∧ s_out y.2 = []) (opened ops) ss.
Proof.
  intros (c0 & s0 & c & H1 & H2 & H3 & H4 & H5 & H6 & H7 & H8) Hc Hw.
  destruct (Anytls.session_peers password ver ops c0 s0 c s H1 H2 H3 H4 H5 H6 H7 H8 Hc Hw) as (s1 & st & L & E1 & _ & E2 & Hch & Hp & Ho).
  unfold anytls_streams. rewrite E1, E2 by lia. eexists. split; [done|]. unfold opened. rewrite Hch, <- Ho. clear -Hp.
  generalize Anytls.sid_of. intros f. revert f. induction Hp as [|p L Hp _ IH]; intros f; [constructor|].
  rewrite imap_cons. cbn [map omap list_omap]. destruct (anytls_stream_peer (f 0%nat) p Hp) as (s & -> & Hs).
  constructor; [by split|]. apply (IH (f ∘ S)).
Qed.

(** What a session delivers of a stream. *)
Definition delivered (remote : ProxyTarget → sock) (x : ProxyTarget * list Z) (y : Session) : Prop :=
  ∃ r remote', y = TcpSession r ∧ rl_res r = Ok tt ∧ rl_remote r = Some remote'
    ∧ s_out remote' = s_out (remote x.1) ++ x.2 ∧ s_out (rl_client r) = avail (remote x.1).

(** Where the streams go: to a server for each target. *)
Definition served_by dial sh (conn : ProxyTarget → Connector) (remote : ProxyTarget → sock) (x : ProxyTarget * list Z) : Prop :=
  sniff_safe x.2 = true ∧ (∀ host, route (sh_router sh) x.1 host (sh_inbound_tag sh) = Proxy (conn x.1))
  ∧ dial (conn x.1) x.1 = Ok (remote x.1) ∧ clean (remote x.1) ∧ s_wr (remote x.1) = [].

Lemma run_sessions_forward dial copy sh conn remote xs ss :
  copies copy → Forall (served_by dial sh conn remote) xs →
  Forall2 (λ x y, y.1 = x.1 ∧ clean y.2 ∧ avail y.2 = x.2 ∧ s_wr y.2 = [] ∧ s_out y.2 = []) xs ss → ∀ c,
  Forall2 (delivered remote) xs
    (run_sessions (λ c '(t, s), TcpSession (run_tcp_route dial copy sh c s t [])) c ss).1.
Proof.
  intros Hcopy Hx HF. induction HF as [|[t p] [t' s'] xs ss (Et & H1 & H2 & H3 & H4) _ IH]; intros c; [constructor|].
  cbn [fst snd] in Et, H1, H2, H3, H4. subst t'.
  apply Forall_cons in Hx as [(Hs & Hr & Hd & Hc & Hw) Hx]. cbn [fst snd] in Hs, Hr, Hd, Hc, Hw. cbn [run_sessions].
  destruct (routed_forwards dial copy p t c sh (conn t) (remote t) s') as (remote' & n & R1 & R2 & R3 & R4 & _); try done.
  specialize (IH Hx (session_counters c (TcpSession (run_tcp_route dial copy sh c s' t [])))).
  destruct (run_sessions _ _ ss) as [ys c']. cbn [fst] in IH |- *. constructor; [|done].
  eexists _, remote'. cbn [fst snd]. rewrite R4, H4. done.
Qed.

Lemma handle_anytls_forwards dial copy plan sh c s s1 password ver ops conn remote :
  p_wrap plan = WNone → p_accept_pp plan = false → p_mux plan = None → maybe_tls (p_tls plan) s = Ok s1 →
  p_proto plan = IAnytls password → clean s1 → s_wr s1 = [] → anytls_client password ver ops (avail s1) →
  Forall (served_by dial sh conn remote) (opened ops) → copies copy →
  let h := handle dial copy plan sh c s in
  hd_res h = Ok tt ∧ Forall2 (delivered remote) (opened ops) (hd_sessions h).
Proof.
  intros Hw Hpp Hm Htls Hp Hc1 Hw1 Hcl Hx Hcopy.
  assert (transport plan s = Ok (Bare s1)) as Ht.
  { unfold transport, wrapped. rewrite Hp. cbn [is_naive is_anytls]. by rewrite Hpp, Hw, Htls, Hm. }
  unfold handle_stream. rewrite Ht, Hp. destruct (anytls_streams_client password ver ops s1 Hcl Hc1 Hw1) as (ss & -> & HF).
  pose proof (run_sessions_forward dial copy sh conn remote _ _ Hcopy Hx HF (add_conn c)) as H.
  by destruct (run_sessions _ _ ss) as [ys c'].
Qed.

(** A listener forwards.  On a bare or TLS connection, a client that speaks
    the listener's protocol, trojan, VLESS or SOCKS5 in the clear or VMess with
    its encrypted body, in segments of any sizes, has exactly its payload
    delivered to the server of the chosen outbound; what the server sends is
    what the listener hands back, after its own answer or through the encrypted
    side; the connection is counted once. *)
Theorem listener_forwards dial copy plan sh c s s1 t payload i reply conn remote :
  p_wrap plan = WNone → p_accept_pp plan = false → p_mux plan = None → maybe_tls (p_tls plan) s = Ok s1 →
  clean s1 → s_wr s1 = [] → avail s1 = i → speaks (p_proto plan) t payload i reply → sniff_safe payload = true →
  (∀ host, route (sh_router sh) t host (sh_inbound_tag sh) = Proxy conn) →
  dial conn t = Ok remote → clean remote → s_wr remote = [] → copies copy →
  let h := handle dial copy plan sh c s in
  hd_res h = Ok tt
  ∧ ∃ r remote', hd_sessions h = [TcpSession r] ∧ rl_remote r = Some remote'
    ∧ s_out remote' = s_out remote ++ payload
    ∧ s_out (rl_client r) = match reply with Some b => s_out s1 ++ b | None => [] end ++ avail remote
    ∧ connections_total (hd_counters h) = wadd 64 (connections_total c) 1.
Proof. apply handle_stream_forwards. Qed.
End Auth.

(** Libraries that add nothing. *)
Definition plain_frontend : Frontend :=
  {| pem_certs _ := Ok 1%nat; pem_key _ := Ok true; single_cert _ _ := Ok tt; tls_accept _ s := Ok s;
     http_parse _ := HComplete None []; http_path _ := Ok None; base64 l := l; ws_stream s := s;
     h2_accept _ := Ok []; mux_accept s _ := Ok ([s], Ok tt) |}.

Definition trojan_plan (hash : str) (tls : option TlsServerSetup) (mux : option MuxKind) : NodePlan :=
  mk_plan (bs "in") (ITrojan hash) [] tls WNone false false false mux.

Definition example_draws : Draws := mk_conn_draws [] (mk_draws [] [] 0 [] []) 0 [].
Definition example_shared : @PipelineShared literal_regex := @mk_shared literal_regex (bs "in") (route_all (bs "direct") CDirect).

(** A shadowsocks listener that multiplexes, and a client with another password. *)
Definition ss_plan (method password : str) (mux : option MuxKind) : NodePlan :=
  mk_plan (bs "in") (IShadowsocks method password) [] None WNone false false false mux.
Definition stranger : list Z :=
  s_out (@client_run detached_ciphers (mk_ss_config (bs "aes-128-gcm") (bs "other")) (replicate 16 7) (Domain (bs "a.b") 80) [[1; 2]]).

Lemma listener_auth_witness :
  ∃ h, (∀ x, x ∈ hd_sessions h → ¬ contacts x) ∧ ∀ dial copy,
    @handle_stream plain_frontend chain_network literal_regex detached_ciphers pad_sha2 mask_crypto show_dec (λ k _, k)
      example_draws dial copy [] (Err early_eof) (ss_plan (bs "aes-128-gcm") (bs "pw") (Some Smux)) example_shared counters_default
      (stream_of [stranger]) = h.
Proof.
  apply (@listener_auth plain_frontend chain_network literal_regex detached_ciphers pad_sha2 mask_crypto show_dec (λ k _, k)
    example_draws [] (Err early_eof) (ss_plan (bs "aes-128-gcm") (bs "pw") (Some Smux)) example_shared counters_default (stream_of [stranger])).
  intros x Hx inner Hin. vm_compute in Hx. injection Hx as <-. apply list_elem_of_singleton in Hin as ->.
  intros (m & salt & len & tag & body & btag & rest & n & p & Hm & E & Hs & Hl & Ht & _ & Ho & _).
  vm_compute in Hm. injection Hm as <-. change (length salt = 16%nat) in Hs.
  match type of E with ?i = _ => set (all := i) in E end.
  assert (salt = take 16 all) as -> by (by rewrite E, take_app_length').
  assert (len = take 2 (drop 16 all)) as -> by (by rewrite E, drop_app_length', take_app_length').
  assert (tag = take 16 (drop 2 (drop 16 all))) as -> by (by rewrite E, !drop_app_length', take_app_length').
  vm_compute in Ho. discriminate Ho.
Defined.

Lemma listener_forwards_witness :
  let t := Domain (bs "a.b") 80 in
  let hash := @password_hash pad_sha2 (bs "pw") in
  let head := encode_request_head Trojan.CMD_CONNECT t hash in
  let remote := stream_of [[1; 2]; [3]] in
  let payload := bs "GET / HTTP/1.1" ++ [13; 10] in
  let h := @handle_stream plain_frontend chain_network literal_regex detached_ciphers pad_sha2 mask_crypto show_dec (λ k _, k)
      example_draws (λ _ _, Ok remote) copy_all [] (Err early_eof) (trojan_plan hash (Some (mk_tls_setup [] [] [])) None) example_shared
      counters_default (stream_of [head ++ bs "GET"; bs " / HTTP/1.1"; [13; 10]]) in
  hd_res h = Ok tt
  ∧ ∃ r remote', hd_sessions h = [TcpSession r] ∧ rl_remote r = Some remote' ∧ s_out remote' = [] ++ payload
    ∧ s_out (rl_client r) = ([] ++ []) ++ [1; 2; 3] ∧ connections_total (hd_counters h) = 1.
Proof.
  intros t hash head remote payload h.
  apply (@listener_forwards plain_frontend chain_network literal_regex detached_ciphers pad_sha2 mask_crypto show_dec (λ k _, k)
    example_draws [] (Err early_eof) (λ _ _, Ok remote) copy_all (trojan_plan hash (Some (mk_tls_setup [] [] [])) None) example_shared
    counters_default (stream_of [head ++ bs "GET"; bs " / HTTP/1.1"; [13; 10]]) (stream_of [head ++ bs "GET"; bs " / HTTP/1.1"; [13; 10]])
    t payload (head ++ payload) (Some []) CDirect remote).
  - reflexivity.
  - reflexivity.
  - reflexivity.
  - reflexivity.
  - apply clean_stream_of.
  - reflexivity.
  - vm_compute. reflexivity.
  - apply speaks_plain, agrees_trojan. by_decide.
  - vm_compute. reflexivity.
  - intros host. vm_compute. reflexivity.
  - reflexivity.
  - apply clean_stream_of.
  - reflexivity.
  - apply copy_all_copies.
Defined.

(** Connections of the gRPC and HTTP/2 transports are not counted. *)
Lemma h2_uncounted `{FE : Frontend} `{NW : Network} plan s x :
  match p_wrap plan with WGrpc _ | WH2 _ _ => True | _ => False end → is_naive (p_proto plan) = false →
  transport plan s = Ok x → ∃ ss, x = Substreams false ss (Ok tt).
Proof.
  intros Hw Hn. unfold transport. rewrite Hn. destruct (if p_accept_pp plan then _ else _) as [s0| |]; [|done..].
  destruct (p_wrap plan); try done; (destruct (maybe_tls (p_tls plan) s0) as [s1| |]; [|done..]);
    [destruct (grpc_serve service (h2_accept s1)) as [a| |] | destruct (serve_requests path (h2_accept s1)) as [a| |]];
    try done; intros [= <-]; by eexists.
Qed.
