(* ===== verification/Quic.v ===== *)
(** * Quic: the connections of a hysteria2 listener

    The task of a QUIC connection in [hysteria2/inbound.rs] with the callback
    that [CoreRuntime::serve] gives it ([omni-core/src/runtime/core.rs]):
    authentication, then one session per stream, routed to its target, and the
    datagrams.  QUIC and HTTP/3 are libraries: a connection is the requests,
    the streams and the datagrams it carries. *)

From S2P Require Import Prelude Text Net Io Matching Core Sniff Hysteria2 Pipeline Listener.

Section Quic.
Context `{RL : RegexLib}.
Context (dial : Connector → ProxyTarget → res ioerr sock).
Context (copy : sock → sock → res ioerr (Z * Z) * (sock * sock)).

(** How the task of a stream ends: before a target is known, by a panic in the
    callback, or with a routed session. *)
Inductive QuicStream := QDropped (s : sock) | QPanicked | QSession (r : Relay).

(** A read takes a byte or ends the loop of [accept_stream]. *)
Definition quic_stream (sh : PipelineShared) (c : Counters) (s : sock) : QuicStream :=
  match accept_stream (S (length (avail s))) [] s with
  | (Some addr, s) =>
    match hysteria2_target addr with
    | Ok t => QSession (run_tcp_route dial copy sh c s t [])
    | _ => QPanicked
    end
  | (None, s) => QDropped s
  end.

Definition quic_counters (c : Counters) (x : QuicStream) : Counters :=
  match x with QSession r => rl_counters r | _ => c end.

Fixpoint quic_streams (sh : PipelineShared) (c : Counters) (l : list sock) : list QuicStream * Counters :=
  match l with
  | [] => ([], c)
  | s :: l =>
    let x := quic_stream sh c s in
    let '(xs, c) := quic_streams sh (quic_counters c x) l in (x :: xs, c)
  end.

(** A connection: nothing is served before a request is accepted; then streams
    and datagrams are.  The datagrams do not pass the router. *)
Record Served := mk_served { sv_streams : list QuicStream; sv_sent : list (nat * SocketAddr * list Z); sv_counters : Counters }.
Definition quic_connection (bind : nat → bool) (resolve : str → option SocketAddr) (sh : PipelineShared) (c : Counters)
    (reqs : list H3Request) (streams : list sock) (dgrams : list (list Z)) : Served :=
  match authenticate reqs with
  | None => mk_served [] [] c
  | Some _ =>
    let '(xs, c) := quic_streams sh c streams in
    mk_served xs (udp_run bind resolve udp_init dgrams).2 c
  end.

(** ** The stream that is handed on *)

Lemma accept_stream_clean fuel head s :
  clean s → clean (accept_stream fuel head s).2 ∧ (s_wr s = [] → s_wr (accept_stream fuel head s).2 = []).
Proof.
  assert (Hw : ∀ b s, clean s → clean (write_all b s).2 ∧ (s_wr s = [] → s_wr (write_all b s).2 = [])).
  { intros b s0 H0. split; [by apply kc_write_all|]. intros Hs. by rewrite write_all_sure. }
  revert head s; induction fuel as [|fuel IH]; intros head s Hc; [done|]. cbn [accept_stream].
  pose proof (read_wr (HEAD_SIZE - length head) s) as Hrw.
  assert (Hrc : clean (read (HEAD_SIZE - length head) s).2) by by apply kc_read.
  destruct (read _ s) as [r s1]. cbn [snd] in Hrw, Hrc. rewrite <- Hrw.
  destruct r as [[|x b]|e|]; [done| |done..]. cbv zeta.
  destruct (decode_tcp_request _) as [[addr rest]|e|]; [| |done].
  - assert (Hd : ∀ d : io unit, (∀ t, clean t → clean (d t).2 ∧ (s_wr t = [] → s_wr (d t).2 = [])) →
      clean (match d s1 with (Ok _, s) => (Some addr, s) | (_, s) => (None, s) end).2
      ∧ (s_wr s1 = [] → s_wr (match d s1 with (Ok _, s) => (Some addr, s) | (_, s) => (None, s) end).2 = [])).
    { intros d H. specialize (H s1 Hrc). by destruct (d s1) as [[]]. }
    apply Hd. intros t Ht. unfold io_bind.
    assert (H1 : clean ((match rest with [] => ret tt | _ => write_all rest end) t).2
      ∧ (s_wr t = [] → s_wr ((match rest with [] => ret tt | _ => write_all rest end) t).2 = []))
      by (destruct rest; [done | by apply Hw]).
    destruct ((match rest with [] => ret tt | _ => write_all rest end) t) as [[u|e|] t1]; [|done..].
    cbn [snd] in H1. destruct (Hw (encode_tcp_response true []) t1 (proj1 H1)) as [H2 H3]. split; [done|].
    intros H. by apply H3, H1.
  - case_bool_decide; [|by apply Hw]. destruct (_ <=? _)%nat; [by apply Hw | by apply IH].
Qed.

(** ** From the client's request to the server of its target *)

Lemma utf8_ascii_target h p :
  Forall (λ b, 0 ≤ b < 128) h → is_u16 p → Forall (λ b, 0 ≤ b < 128) (show_target (Domain h p)).
Proof.
  intros Hh Hp. cbn [show_target]. rewrite !Forall_app. split; [done|]. split; [by repeat constructor|].
  eapply Forall_impl; [apply show_dec_digits; apply Hp|]. intros b [Hb|Hb]; [|lia].
  unfold is_digit in Hb. norm. lia.
Qed.

(** C7: a hysteria2 connection forwards its streams.  When a request is accepted,
    a client that opens a stream to a domain whose text the protocol carries,
    in segments of any sizes, gets a session with the server of the chosen
    outbound.  The payload reaches that server but for the part ([early]) that
    arrived with the request, which goes back to the client in front of the
    answer; what the server sends follows the answer.  There is no such part
    when the request has its segments for itself, as from the client of this
    program, which writes exactly this request and waits for the answer.  The
    connection is not counted. *)
Theorem quic_forwards bind resolve sh c reqs left h p segs payload conn remote :
  let t := Domain h p in
  let a := show_target t in
  authenticate reqs = Some left →
  Forall (λ b, 0 ≤ b < 128) h → 91 ∉ h → 93 ∉ h → parse_ip h = None → is_u16 p →
  Z.of_nat (length a) < 64 ∨ 256 ≤ Z.of_nat (length a) ≤ 2048 →
  concat segs = encode_tcp_request a ++ payload →
  (∀ early late, payload = early ++ late → sniff_safe late = true) →
  (∀ host, route (sh_router sh) t host (sh_inbound_tag sh) = Proxy conn) →
  dial conn t = Ok remote → clean remote → s_wr remote = [] → copies copy →
  let v := quic_connection bind resolve sh c reqs [stream_of segs] [] in
  ∃ r remote' early late, sv_streams v = [QSession r] ∧ rl_res r = Ok tt ∧ rl_remote r = Some remote'
    ∧ payload = early ++ late
    ∧ s_out remote' = s_out remote ++ late
    ∧ s_out (rl_client r) = early ++ encode_tcp_response true [] ++ avail remote
    ∧ connections_total (sv_counters v) = connections_total c
    ∧ (∀ segs1 segs2, segs = segs1 ++ segs2 → concat segs1 = encode_tcp_request a → early = [])
    ∧ (58 ∉ h → ∃ cl, open_tcp h p (stream_of [encode_tcp_response true []]) = (Ok tt, cl)
         ∧ s_out cl = encode_tcp_request a).
Proof.
  intros t a Hauth Hh H91 H93 Hip Hp Hl Hs Hsafe Hroute Hdial Hcr Hwr Hcopy v.
  assert (Hasc : Forall (λ b, 0 ≤ b < 128) a) by by apply utf8_ascii_target.
  assert (H1 : (1 <= length a)%nat) by (unfold a, t; cbn [show_target]; len).
  pose proof (length_request a H1 ltac:(lia) ltac:(unfold fits; lia)) as Hreq.
  destruct (accept_stream_spec a payload (S (length (avail (stream_of segs)))) [] (encode_tcp_request a) (stream_of segs))
    as (early & s' & Ha & Hpay & Hout); try done.
  { by apply utf8_valid_ascii. }
  { lia. }
  { unfold fits; lia. }
  { apply clean_stream_of. }
  { by rewrite encode_request_shape. }
  { by rewrite avail_stream_of. }
  { rewrite avail_stream_of, Hs. len. }
  destruct (accept_stream_clean (S (length (avail (stream_of segs)))) [] (stream_of segs) (clean_stream_of segs)) as [Hc' Hw'].
  rewrite Ha in Hc', Hw'. cbn [snd] in Hc', Hw'.
  destruct (routed_forwards dial copy (avail s') t c sh conn remote s') as (remote' & n & R1 & R2 & R3 & R4 & _ & R6);
    try done; [by apply Hw' | by eapply Hsafe|].
  destruct (authority_roundtrip h p H91 H93 Hip Hp) as [Hhy _].
  assert (Hq : quic_stream sh c (stream_of segs) = QSession (run_tcp_route dial copy sh c s' t [])).
  { unfold quic_stream. rewrite Ha. unfold hysteria2_target, a, t. by rewrite Hhy. }
  unfold v, quic_connection. rewrite Hauth. cbn [quic_streams]. rewrite Hq.
  exists (run_tcp_route dial copy sh c s' t []), remote', early, (avail s').
  cbn [sv_streams sv_counters quic_counters]. rewrite R4, R6, Hout. cbn [stream_of s_out].
  rewrite app_nil_l, <- app_assoc. repeat (split; [done|]). split.
  - intros segs1 segs2 E1 E2. unfold stream_of in Ha, Hout. rewrite E1 in Ha.
    destruct (accept_stream_alone a segs2 false segs1 (S (length (avail (stream_of segs)))) [] (encode_tcp_request a) [])
      as (segs' & _ & Ha2); try done.
    { by apply utf8_valid_ascii. }
    { lia. }
    { unfold fits; lia. }
    { by rewrite encode_request_shape. }
    { rewrite avail_stream_of, Hs. len. }
    unfold stream_of in Ha2. rewrite E1 in Ha2. rewrite Ha in Ha2. injection Ha2 as ->. cbn [s_out app] in Hout.
    rewrite <- (app_nil_l (encode_tcp_response true [])) in Hout at 1. by apply app_inv_tail in Hout.
  - intros H58. destruct (open_tcp_drops h p [] []) as (cl & H2 & _ & H3); [cbn; lia|].
    rewrite app_nil_r in H2. exists cl. split; [done|]. rewrite H3. f_equal. unfold addr_str, a, t.
    rewrite bool_decide_eq_false_2 by done. done.
Qed.
End Quic.

Lemma quic_forwards_witness :
  let t := Domain (bs "a.b") 80 in
  let remote := stream_of [[1; 2]; [3]] in
  let req := encode_tcp_request (show_target t) in
  let v := @quic_connection literal_regex (λ _ _, Ok remote) copy_all (λ _, true) (λ _, None) example_shared counters_default
      [auth_request (bs "guess")] [stream_of [take 5 req; drop 5 req; bs "GET / HTTP/1.1"; [13; 10]]] [] in
  ∃ r remote' early late, sv_streams v = [QSession r] ∧ rl_res r = Ok tt ∧ rl_remote r = Some remote'
    ∧ bs "GET / HTTP/1.1" ++ [13; 10] = early ++ late
    ∧ s_out remote' = [] ++ late
    ∧ s_out (rl_client r) = early ++ encode_tcp_response true [] ++ [1; 2; 3]
    ∧ connections_total (sv_counters v) = 0
    ∧ (∀ segs1 segs2, [take 5 req; drop 5 req; bs "GET / HTTP/1.1"; [13; 10]] = segs1 ++ segs2 →
         concat segs1 = req → early = [])
    ∧ (58 ∉ bs "a.b" → ∃ cl, open_tcp (bs "a.b") 80 (stream_of [encode_tcp_response true []]) = (Ok tt, cl)
         ∧ s_out cl = req).
Proof.
  intros t remote req v.
  apply (@quic_forwards literal_regex (λ _ _, Ok remote) copy_all (λ _, true) (λ _, None) example_shared counters_default
    [auth_request (bs "guess")] [] (bs "a.b") 80 [take 5 req; drop 5 req; bs "GET / HTTP/1.1"; [13; 10]]
    (bs "GET / HTTP/1.1" ++ [13; 10]) CDirect remote).
  - vm_compute. reflexivity.
  - repeat constructor; vm_compute; (discriminate || reflexivity).
  - by_decide.
  - by_decide.
  - vm_compute. reflexivity.
  - by_decide.
  - left. vm_compute. reflexivity.
  - vm_compute. reflexivity.
  - intros early late E. apply (f_equal (drop (length early))) in E. rewrite drop_app_length in E.
    rewrite <- E. generalize (length early). intros n.
    do 17 (destruct n as [|n]; [vm_compute; reflexivity|]). vm_compute. reflexivity.
  - intros host. vm_compute. reflexivity.
  - reflexivity.
  - apply clean_stream_of.
  - reflexivity.
  - apply copy_all_copies.
Defined.
