(* ===== verification/Supervisor.v ===== *)
(** * Supervisor: the running listeners

    The accept loops of [spawn_listeners] ([listener_executor.rs]), of
    [Hysteria2Listener::run] ([hysteria2/inbound.rs]) and of [serve_metrics]
    ([observability/metrics.rs]), side by side as [CoreRuntime::serve] leaves
    them ([runtime/core.rs]): tasks that nobody joins, until the signal.  An
    execution is a list of what the accepts return, in any order. *)

From S2P Require Import Prelude Text Net Io Socks5 Matching Core Aead Vmess Hysteria2 Node Pipeline Outbound Listener Quic.

Section Supervisor.
Context `{FE : Frontend} `{NW : Network} `{RL : RegexLib} `{AE : Aead} `{SH : Sha2} `{VC : VmessCrypto}.
Context (show_status : Z → str) (hmac_sha256 : str → str → str) (router : Router) (online : OnlineTracker).

(** ** Connections *)

(** What a connection draws and meets: random bytes, dials, the copying of
    streams, the connectors for UDP and the port of a new socket. *)
Record Env := mk_env {
  env_draws : Draws;
  env_dial : Connector → ProxyTarget → res ioerr sock;
  env_copy : sock → sock → res ioerr (Z * Z) * (sock * sock);
  env_udp : list Connector;
  env_port : res ioerr Z
}.

(** A QUIC connection once its handshake is done, with the sockets and names
    its datagrams meet. *)
Record QuicConn := mk_quic {
  q_requests : list H3Request;
  q_streams : list sock;
  q_datagrams : list (list Z);
  q_bind : nat → bool;
  q_resolve : str → option SocketAddr
}.

(** The task of a connection. *)
Definition stream_task (st : Started) (c : Counters) (x : Env * sock) : Handled :=
  let e := x.1 in
  handle_stream show_status hmac_sha256 (env_draws e) (env_dial e) (env_copy e) (env_udp e) (env_port e)
    (st_plan st) (mk_shared (st_tag st) router) c x.2.
Definition quic_task (st : Started) (c : Counters) (x : Env * QuicConn) : Served :=
  let '(e, q) := x in
  quic_connection (env_dial e) (env_copy e) (q_bind q) (q_resolve q) (mk_shared (st_tag st) router) c
    (q_requests q) (q_streams q) (q_datagrams q).

Inductive Outcome := OStream (h : Handled) | OQuic (v : Served) | OMetrics (s : sock).
Definition outcome_counters (c : Counters) (o : Outcome) : Counters :=
  match o with OStream h => hd_counters h | OQuic v => sv_counters v | OMetrics _ => c end.

(** ** The loops *)

(** What an accept returns: to listener [i] (its place in the list of [serve]),
    or to the metrics socket.  A QUIC endpoint hands out connections whose
    handshake is yet to succeed, or is closed. *)
Inductive event :=
  | TcpAccept (i : nat) (r : ioerr + Env * sock)
  | QuicAccept (i : nat) (r : option (ioerr + Env * QuicConn))
  | MetricsAccept (r : ioerr + sock).

(** The listeners with the result of their task, none while it runs; the
    counters; the connections that were served and by which listener. *)
Record Server := mk_server {
  srv_tasks : list (Started * option (res ioerr unit));
  srv_counters : Counters;
  srv_log : list (option nat * Outcome)
}.
Definition server_new (l : list Started) : Server := mk_server (map (λ st, (st, None)) l) counters_default [].

Definition is_quic (st : Started) : bool := is_hysteria2 (p_proto (st_plan st)).

(** The listener [i] if it runs and is of that kind. *)
Definition running (s : Server) (quic : bool) (i : nat) : option Started :=
  match srv_tasks s !! i with
  | Some (st, None) => if bool_decide (is_quic st = quic) then Some st else None
  | _ => None
  end.
Definition spawn (s : Server) (i : option nat) (o : Outcome) : Server :=
  mk_server (srv_tasks s) (outcome_counters (srv_counters s) o) (srv_log s ++ [(i, o)]).
Definition finish (s : Server) (i : nat) (st : Started) (r : res ioerr unit) : Server :=
  mk_server (<[i := (st, Some r)]> (srv_tasks s)) (srv_counters s) (srv_log s).

Definition tcp_accept (s : Server) (i : nat) (r : ioerr + Env * sock) : Server :=
  match running s false i with
  | Some st =>
    match r with
    | inr x => spawn s (Some i) (OStream (stream_task st (srv_counters s) x))
    | inl e => finish s i st (Err e)
    end
  | None => s
  end.
Definition quic_accept (s : Server) (i : nat) (r : option (ioerr + Env * QuicConn)) : Server :=
  match running s true i with
  | Some st =>
    match r with
    | Some (inr x) => spawn s (Some i) (OQuic (quic_task st (srv_counters s) x))
    | Some (inl e) => finish s i st (Err (other (bs "hysteria2: " ++ emsg e)))
    | None => finish s i st (Ok tt)
    end
  | None => s
  end.
Definition metrics_accept (s : Server) (r : ioerr + sock) : Server :=
  match r with
  | inr x => spawn s None (OMetrics (metrics_task (srv_counters s) online x))
  | inl _ => s
  end.

Definition server_step (s : Server) (ev : event) : Server :=
  match ev with
  | TcpAccept i r => tcp_accept s i r
  | QuicAccept i r => quic_accept s i r
  | MetricsAccept r => metrics_accept s r
  end.

Definition server_run : Server → list event → Server := foldl server_step.

(** ** What is promised *)

(** What an event is for the loop of listener [i]: nothing, the end of its task
    with a result, or a connection. *)
Definition tcp_at (i : nat) (ev : event) : option (res ioerr unit + Env * sock) :=
  match ev with
  | TcpAccept j r => if bool_decide (j = i) then Some (match r with inr x => inr x | inl e => inl (Err e) end) else None
  | _ => None
  end.
Definition quic_at (i : nat) (ev : event) : option (res ioerr unit + Env * QuicConn) :=
  match ev with
  | QuicAccept j r =>
    if bool_decide (j = i) then
      Some (match r with
            | Some (inr x) => inr x
            | Some (inl e) => inl (Err (other (bs "hysteria2: " ++ emsg e)))
            | None => inl (Ok tt)
            end)
    else None
  | _ => None
  end.

(** The connections before the end of the task, and the end. *)
Fixpoint conns {X} (at_ : event → option (res ioerr unit + X)) (es : list event) : list X :=
  match es with
  | [] => []
  | ev :: es => match at_ ev with None => conns at_ es | Some (inr x) => x :: conns at_ es | Some (inl _) => [] end
  end.
Fixpoint ends {X} (at_ : event → option (res ioerr unit + X)) (es : list event) : option (res ioerr unit) :=
  match es with
  | [] => None
  | ev :: es => match at_ ev with Some (inl r) => Some r | _ => ends at_ es end
  end.
Definition metrics_conns (es : list event) : list sock :=
  omap (λ ev, match ev with MetricsAccept (inr x) => Some x | _ => None end) es.

(** What a log holds of a listener. *)
Definition log_of (i : option nat) (l : list (option nat * Outcome)) : list Outcome :=
  omap (λ x, if bool_decide (x.1 = i) then Some x.2 else None) l.

Lemma log_of_app i l l' : log_of i (l ++ l') = log_of i l ++ log_of i l'.
Proof. apply omap_app. Qed.
Lemma log_of_one i j o : log_of i [(j, o)] = if bool_decide (j = i) then [o] else [].
Proof. unfold log_of. cbn. by case_bool_decide. Qed.

(** ** One loop among the others *)

(** The log holds what it held of [i] and, for each connection, the outcome of
    its task on the counters at that time. *)
Definition logged {X} (i : option nat) (task : Counters → X → Outcome) (s s' : Server) (xs : list X) : Prop :=
  ∃ outs, log_of i (srv_log s') = log_of i (srv_log s) ++ outs ∧ Forall2 (λ x o, ∃ c, o = task c x) xs outs.

Lemma logged_none {X} i (task : Counters → X → Outcome) s s' :
  log_of i (srv_log s') = log_of i (srv_log s) → logged i task s s' [].
Proof. intros E. exists []. by rewrite app_nil_r. Qed.

Lemma logged_trans {X} i (task : Counters → X → Outcome) s1 s2 s3 xs ys :
  logged i task s1 s2 xs → logged i task s2 s3 ys → logged i task s1 s3 (xs ++ ys).
Proof.
  intros (o1 & E1 & F1) (o2 & E2 & F2). exists (o1 ++ o2). rewrite E2, E1, app_assoc. split; [done|]. by apply Forall2_app.
Qed.

Lemma logged_spawn {X} i (task : Counters → X → Outcome) s c x : logged i task s (spawn s i (task c x)) [x].
Proof.
  exists [task c x]. cbn [spawn srv_log]. rewrite log_of_app, log_of_one, bool_decide_eq_true_2 by done.
  split; [done|]. repeat constructor. by exists c.
Qed.

Lemma log_spawn_ne i j s o : j ≠ i → log_of i (srv_log (spawn s j o)) = log_of i (srv_log s).
Proof.
  intros Hne. cbn [spawn srv_log]. rewrite log_of_app, log_of_one, bool_decide_eq_false_2 by done. apply app_nil_r.
Qed.

(** A step leaves alone the listeners that it does not concern, because it is
    for another or because they have ended or are of the other kind. *)
Lemma running_Some s q i st : running s q i = Some st → srv_tasks s !! i = Some (st, None) ∧ is_quic st = q.
Proof.
  unfold running. destruct (srv_tasks s !! i) as [[st' [r|]]|]; try done. case_bool_decide; [|done]. by intros [= ->].
Qed.

Definition concerns (s : Server) (i : nat) (ev : event) : Prop :=
  match ev with
  | TcpAccept j _ => j = i ∧ is_Some (running s false i)
  | QuicAccept j _ => j = i ∧ is_Some (running s true i)
  | MetricsAccept _ => False
  end.

Lemma server_step_other s i ev : ¬ concerns s i ev →
  srv_tasks (server_step s ev) !! i = srv_tasks s !! i
  ∧ log_of (Some i) (srv_log (server_step s ev)) = log_of (Some i) (srv_log s).
Proof.
  assert (∀ q j, ¬ (j = i ∧ is_Some (running s q i)) → is_Some (running s q j) → j ≠ i) as Hne.
  { intros q j Hn Hs ->. by apply Hn. }
  intros Hn. destruct ev as [j r|j r|r]; cbn [concerns server_step] in *;
    unfold tcp_accept, quic_accept, metrics_accept.
  - destruct (running s false j) as [st|] eqn:Hr; [|done]. specialize (Hne _ j Hn ltac:(by rewrite Hr)).
    destruct r as [e|x]; [|by rewrite log_spawn_ne by congruence].
    cbn [finish srv_tasks srv_log]. by rewrite list_lookup_insert_ne.
  - destruct (running s true j) as [st|] eqn:Hr; [|done]. specialize (Hne _ j Hn ltac:(by rewrite Hr)).
    destruct r as [[e|x]|]; [|by rewrite log_spawn_ne by congruence|];
      cbn [finish srv_tasks srv_log]; by rewrite list_lookup_insert_ne.
  - destruct r as [e|x]; [done|]. by rewrite log_spawn_ne.
Qed.

(** The task of an ended listener stays ended. *)
Lemma server_run_ended es : ∀ s i st r, srv_tasks s !! i = Some (st, Some r) →
  srv_tasks (server_run s es) !! i = Some (st, Some r)
  ∧ log_of (Some i) (srv_log (server_run s es)) = log_of (Some i) (srv_log s).
Proof.
  induction es as [|ev es IH]; intros s i st r Hi; [done|]. cbn [server_run foldl].
  destruct (server_step_other s i ev) as [H1 H2].
  { unfold concerns, running. rewrite Hi. destruct ev; intros H; [by destruct H as [_ [? ?]]..|done]. }
  rewrite <- H2. apply IH. by rewrite H1.
Qed.

Section Loop.
Context {X : Type} (quic : bool) (i : nat) (st : Started).
Context (at_ : event → option (res ioerr unit + X)) (task : Counters → X → Outcome).

(** The loop of the listener, as a step sees it. *)
Definition loop_spec : Prop := ∀ s ev, running s quic i = Some st →
  match at_ ev with
  | Some (inr x) => server_step s ev = spawn s (Some i) (task (srv_counters s) x)
  | Some (inl r) => server_step s ev = finish s i st r
  | None => ¬ concerns s i ev
  end.

Lemma server_run_loop es : ∀ s, loop_spec → srv_tasks s !! i = Some (st, None) → is_quic st = quic →
  srv_tasks (server_run s es) !! i = Some (st, ends at_ es)
  ∧ logged (Some i) task s (server_run s es) (conns at_ es).
Proof.
  induction es as [|ev es IH]; intros s Hl Hi Hq; cbn [server_run foldl ends conns].
  { split; [done|]. by apply logged_none. }
  assert (running s quic i = Some st) as Hr.
  { unfold running. by rewrite Hi, bool_decide_eq_true_2. }
  specialize (Hl s ev Hr) as Hs. destruct (at_ ev) as [[r|x]|].
  - assert (srv_tasks (server_step s ev) !! i = Some (st, Some r)) as Hi'.
    { rewrite Hs. cbn [finish srv_tasks]. apply list_lookup_insert_eq. by eapply lookup_lt_Some. }
    destruct (server_run_ended es _ _ _ _ Hi') as [H1 H2]. split; [done|]. apply logged_none.
    fold server_run. rewrite H2, Hs. done.
  - destruct (IH (server_step s ev)) as [H1 H2]; [done|by rewrite Hs|done|]. split; [done|].
    apply (logged_trans _ _ _ (server_step s ev) _ [x]); [|done]. rewrite Hs. apply logged_spawn.
  - destruct (server_step_other s i ev Hs) as [E1 E2]. destruct (IH (server_step s ev)) as [H1 H2]; [done|by rewrite E1|done|].
    split; [done|]. apply (logged_trans _ _ _ (server_step s ev) _ []); [|done]. by apply logged_none.
Qed.
End Loop.

Lemma tcp_loop i st : loop_spec false i st (tcp_at i) (λ c x, OStream (stream_task st c x)).
Proof.
  intros s ev Hr. destruct ev as [j r|j r|r]; cbn [tcp_at server_step concerns]; unfold tcp_accept; [| |tauto].
  - case_bool_decide as Hj; [subst j|tauto]. by destruct r; rewrite Hr.
  - intros [-> [st' H]]. apply running_Some in H as [H1 H2], Hr as [H3 H4]. congruence.
Qed.

Lemma quic_loop i st : loop_spec true i st (quic_at i) (λ c x, OQuic (quic_task st c x)).
Proof.
  intros s ev Hr. destruct ev as [j r|j r|r]; cbn [quic_at server_step concerns]; unfold quic_accept; [| |tauto].
  - intros [-> [st' H]]. apply running_Some in H as [H1 H2], Hr as [H3 H4]. congruence.
  - case_bool_decide as Hj; [subst j|tauto]. by destruct r as [[]|]; rewrite Hr.
Qed.

Lemma server_new_running l i st : l !! i = Some st → srv_tasks (server_new l) !! i = Some (st, None).
Proof.
  intros Hi. unfold server_new. cbn [srv_tasks]. change (map ?f l) with (f <$> l). by rewrite list_lookup_fmap, Hi.
Qed.

(** As long as no accept of a TCP listener has failed, the next connection is
    given to its task. *)
Lemma server_accepts l i st es x :
  l !! i = Some st → is_quic st = false → ends (tcp_at i) es = None →
  let s := server_run (server_new l) es in
  server_run (server_new l) (es ++ [TcpAccept i (inr x)])
  = spawn s (Some i) (OStream (stream_task st (srv_counters s) x)).
Proof.
  intros Hi Hq He s.
  destruct (server_run_loop _ _ _ _ _ es _ (tcp_loop i st) (server_new_running l i st Hi) Hq) as [Ht _].
  assert (running s false i = Some st) as Hr.
  { unfold running, s. by rewrite Ht, He, bool_decide_eq_true_2. }
  unfold server_run at 1. rewrite foldl_app. change (tcp_accept s i (inr x) = spawn s (Some i) (OStream (stream_task st (srv_counters s) x))).
  unfold tcp_accept. by rewrite Hr.
Qed.

Lemma server_accepts_quic l i st es x :
  l !! i = Some st → is_quic st = true → ends (quic_at i) es = None →
  let s := server_run (server_new l) es in
  server_run (server_new l) (es ++ [QuicAccept i (Some (inr x))])
  = spawn s (Some i) (OQuic (quic_task st (srv_counters s) x)).
Proof.
  intros Hi Hq He s.
  destruct (server_run_loop _ _ _ _ _ es _ (quic_loop i st) (server_new_running l i st Hi) Hq) as [Ht _].
  assert (running s true i = Some st) as Hr.
  { unfold running, s. by rewrite Ht, He, bool_decide_eq_true_2. }
  unfold server_run at 1. rewrite foldl_app.
  change (quic_accept s i (Some (inr x)) = spawn s (Some i) (OQuic (quic_task st (srv_counters s) x))).
  unfold quic_accept. by rewrite Hr.
Qed.

Lemma metrics_loop es : ∀ s,
  logged None (λ c x, OMetrics (metrics_task c online x)) s (server_run s es) (metrics_conns es).
Proof.
  induction es as [|ev es IH]; intros s; [by apply logged_none|]. cbn [server_run foldl].
  assert (metrics_conns (ev :: es) = metrics_conns [ev] ++ metrics_conns es) as -> by apply (omap_app _ [ev]).
  apply (logged_trans _ _ _ (server_step s ev)); [|apply IH].
  destruct ev as [j r|j r|[e|x]]; cbn [metrics_conns omap list_omap server_step];
    unfold tcp_accept, quic_accept, metrics_accept.
  - apply logged_none. destruct (running s false j); [|done]. destruct r; [done|]. by rewrite log_spawn_ne.
  - apply logged_none. destruct (running s true j); [|done]. destruct r as [[]|]; [done| |done]. by rewrite log_spawn_ne.
  - by apply logged_none.
  - apply (logged_spawn None (λ c x, OMetrics (metrics_task c online x))).
Qed.

(** C19: the listeners of a running server are independent.  Whatever the other
    listeners meet and in whatever order, a TCP listener serves exactly the
    connections it accepts, in order, each by its own plan and tag, until its
    first accept that fails; that ends its task for good with the error.  A
    hysteria2 listener does the same, but its first connection whose QUIC
    handshake fails ends it as well, so that any client can.  The metrics socket
    serves every connection. *)
Theorem listeners_independent l i st es :
  l !! i = Some st →
  let s := server_run (server_new l) es in
  (is_quic st = false →
     srv_tasks s !! i = Some (st, ends (tcp_at i) es)
     ∧ Forall2 (λ x o, ∃ c, o = OStream (stream_task st c x)) (conns (tcp_at i) es) (log_of (Some i) (srv_log s)))
  ∧ (is_quic st = true →
     srv_tasks s !! i = Some (st, ends (quic_at i) es)
     ∧ Forall2 (λ x o, ∃ c, o = OQuic (quic_task st c x)) (conns (quic_at i) es) (log_of (Some i) (srv_log s)))
  ∧ Forall2 (λ x o, ∃ c, o = OMetrics (metrics_task c online x)) (metrics_conns es) (log_of None (srv_log s)).
Proof.
  intros Hi s. pose proof (server_new_running l i st Hi) as Hn.
  split; [|split].
  - intros Hq. destruct (server_run_loop _ _ _ _ _ es _ (tcp_loop i st) Hn Hq) as [H (outs & E & F)].
    unfold s. rewrite E. by split.
  - intros Hq. destruct (server_run_loop _ _ _ _ _ es _ (quic_loop i st) Hn Hq) as [H (outs & E & F)].
    unfold s. rewrite E. by split.
  - destruct (metrics_loop es (server_new l)) as (outs & E & F). unfold s. by rewrite E.
Qed.
End Supervisor.

(** A trojan and a hysteria2 listener: a QUIC handshake that fails, then a
    client for each. *)
Definition example_listeners : list Started :=
  let tcp := mk_plan (bs "in") (ITrojan (@password_hash pad_sha2 (bs "pw"))) [] None WNone false false false None in
  let hy := mk_plan (bs "hy") (IHysteria2 (bs "pw") None) [] None WNone false false false None in
  let addr := sa_new (V4 [127; 0; 0; 1]) 443 in
  [mk_started tcp addr (bs "in"); mk_started hy addr (bs "hy")].

Lemma listeners_independent_witness :
  let env := mk_env example_draws (λ _ _, Ok (stream_of [])) copy_all [] (Err early_eof) in
  let client := (env, stream_of [[1; 2]]) in
  let quic := (env, mk_quic [auth_request (bs "x")] [] [] (λ _, true) (λ _, None)) in
  let es := [TcpAccept 0 (inr client); QuicAccept 1 (Some (inl early_eof)); QuicAccept 1 (Some (inr quic));
             MetricsAccept (inr (stream_of [])); TcpAccept 0 (inr client)] in
  let router := route_all (bs "direct") CDirect in
  let s := @server_run plain_frontend chain_network literal_regex detached_ciphers pad_sha2 mask_crypto show_dec
             (λ k _, k) router tracker_new (server_new example_listeners) es in
  snd <$> srv_tasks s = [None; Some (Err (other (bs "hysteria2: " ++ emsg early_eof)))]
  ∧ length (log_of (Some 0%nat) (srv_log s)) = 2%nat ∧ log_of (Some 1%nat) (srv_log s) = []
  ∧ length (log_of None (srv_log s)) = 1%nat.
Proof.
  intros env client quic es router s.
  assert (example_listeners !! 0%nat = Some (default (mk_started (trojan_plan [] None None) (sa_new (V4 []) 0) []) (head example_listeners)))
    as H0 by reflexivity.
  assert (example_listeners !! 1%nat = Some (List.last example_listeners (mk_started (trojan_plan [] None None) (sa_new (V4 []) 0) [])))
    as H1 by reflexivity.
  destruct (@listeners_independent plain_frontend chain_network literal_regex detached_ciphers pad_sha2 mask_crypto show_dec
    (λ k _, k) router tracker_new example_listeners 0 _ es H0) as (Ht & _ & Hm).
  destruct (@listeners_independent plain_frontend chain_network literal_regex detached_ciphers pad_sha2 mask_crypto show_dec
    (λ k _, k) router tracker_new example_listeners 1 _ es H1) as (_ & Hq & _).
  specialize (Ht eq_refl) as [Ht1 Ht2]. specialize (Hq eq_refl) as [Hq1 Hq2]. fold s in Ht1, Ht2, Hm, Hq1, Hq2.
  apply Forall2_length in Ht2, Hm. apply Forall2_nil_inv_l in Hq2. split; [|by repeat split].
  assert (length (srv_tasks s) = 2%nat) as Hl by (vm_compute; reflexivity).
  destruct (srv_tasks s) as [|x [|y [|? ?]]]; try done.
  injection Ht1 as ->. injection Hq1 as ->. reflexivity.
Defined.
