(* ===== verification/UdpOverStream.v ===== *)
(** * UdpOverStream: datagrams framed in a stream

    [omni-proto/src/common/codec/udp_over_stream.rs], which no other file
    calls. *)

From S2P Require Import Prelude Text Net Io.

Definition encode_frame (target_host : str) (port : Z) (data : list Z) : list Z :=
  let out := be_bytes 2 (u16! (Z.of_nat (length data + 2 + length target_host + 2))) in
  let out := out ++ match parse_ip target_host with
                    | Some (V4 o) => 1 :: o
                    | Some (V6 o) => 4 :: o
                    | None => 3 :: u8! (Z.of_nat (length target_host)) :: target_host
                    end in
  out ++ be_bytes 2 (u16! port) ++ data.

Definition read_frame : io (list Z) :=
  do! lenb := read_exact 2 in
  do! a := lift (idx lenb 0) in
  do! b := lift (idx lenb 1) in
  read_exact (Z.to_nat (u16_be a b)).

(** The body of a frame: the address and the data. *)
Definition frame_body (target_host : str) (port : Z) (data : list Z) : list Z :=
  match parse_ip target_host with
  | Some (V4 o) => 1 :: o
  | Some (V6 o) => 4 :: o
  | None => 3 :: u8! (Z.of_nat (length target_host)) :: target_host
  end ++ be_bytes 2 (u16! port) ++ data.

(** The length a frame declares, and the one it has. *)
Definition declared (target_host : str) (data : list Z) : nat := length data + 2 + length target_host + 2.

Lemma encode_frame_body h p d :
  encode_frame h p d = be_bytes 2 (u16! (Z.of_nat (declared h d))) ++ frame_body h p d.
Proof. unfold encode_frame, frame_body, declared. by rewrite <- !app_assoc. Qed.

Lemma declared_body h p d :
  length (frame_body h p d) =
    match parse_ip h with
    | Some (V4 o) | Some (V6 o) => 1 + length o + 2 + length d
    | None => declared h d
    end%nat.
Proof.
  unfold frame_body, declared. destruct (parse_ip h) as [[o|o]|]; len.
Qed.

Lemma yields_read_frame n i b :
  is_u16 (Z.of_nat n) → length b = n →
  yields read_frame (be_bytes 2 (Z.of_nat n) ++ b ++ i) (Ok b) i [].
Proof.
  intros Hn Hb. unfold read_frame. apply yields_read; [done|]. rewrite be_bytes_2.
  apply yields_lift_ok, yields_lift_ok. rewrite u16_be_bytes, Nat2Z.id by done.
  by apply yields_read_exact.
Qed.

(** Frames to a domain are read one by one, with nothing lost between them,
    however the stream is cut. *)
Theorem domain_frame_roundtrip h p d i :
  parse_ip h = None → is_u16 (Z.of_nat (declared h d)) →
  yields read_frame (encode_frame h p d ++ i) (Ok (frame_body h p d)) i [].
Proof.
  intros Hh Hn. rewrite encode_frame_body, wrap_small, <- app_assoc by done.
  apply yields_read_frame; [done|]. by rewrite declared_body, Hh.
Qed.

Lemma domain_frame_roundtrip_witness :
  ∃ s, read_frame (stream_of [encode_frame (bs "a.example") 53 [1; 2]; [9]])
    = (Ok ([3; 9] ++ bs "a.example" ++ [0; 53; 1; 2]), s) ∧ avail s = [9].
Proof.
  destruct (yields_run read_frame [encode_frame (bs "a.example") 53 [1; 2]; [9]] _ [9] []
    (domain_frame_roundtrip (bs "a.example") 53 [1; 2] [9] eq_refl ltac:(by_decide))) as (s & H1 & H2 & _).
  by exists s.
Defined.

(** Frames to an address declare the length of its text: the reader takes bytes
    of the next frame with them. *)
Theorem ip_frame_length o p d i j :
  ip_wf (V4 o) → is_u16 (Z.of_nat (declared (show_v4 o) d)) → length j = (length (show_v4 o) - 3)%nat →
  (4 ≤ length (show_v4 o))%nat →
  yields read_frame (encode_frame (show_v4 o) p d ++ j ++ i) (Ok (frame_body (show_v4 o) p d ++ j)) i [].
Proof.
  intros Ho Hn Hj H4. rewrite encode_frame_body, wrap_small, <- app_assoc by done.
  rewrite (app_assoc (frame_body _ _ _) j i). apply yields_read_frame; [done|].
  destruct Ho as [Hl Hb]. rewrite length_app, declared_body, (parse_show_v4 o) by done. cbn in Hl.
  unfold declared. lia.
Qed.

Lemma ip_frame_length_witness :
  ∃ s, read_frame (stream_of [encode_frame (bs "1.2.3.4") 53 [7]; [8; 8; 8; 8; 9]])
    = (Ok [1; 1; 2; 3; 4; 0; 53; 7; 8; 8; 8; 8], s) ∧ avail s = [9].
Proof.
  destruct (yields_run read_frame [encode_frame (bs "1.2.3.4") 53 [7]; [8; 8; 8; 8; 9]] _ [9] []
    (ip_frame_length [1; 2; 3; 4] 53 [7] [9] [8; 8; 8; 8] ltac:(by_decide) ltac:(by_decide) eq_refl
      ltac:(by_decide))) as (s & H1 & H2 & _).
  by exists s.
Defined.
