(* ===== verification/Services.v ===== *)
(** * Services: the user store, certificates by ACME, and the clock

    [omni-core/src/store/persist_store.rs], the computations of
    [omni-core/src/security/acme.rs] and [omni-core/src/ntp.rs], with the parts
    of [std::path::Path] the sources use.  JSON encoding ([serde_json]), the
    file system, [rcgen], [instant_acme], sockets and the clock are
    arguments.  No other component depends on these. *)

From S2P Require Import Prelude Text Net Io Node Resolver.
From Stdlib Require Import SpecFloat.

(** ** Paths ([std::path], Unix) *)

(** Where the components begin: after the root, or after a leading [.]. *)
Definition body_start (p : str) : nat :=
  match p with
  | 47 :: _ => 1
  | [46] => 1
  | 46 :: 47 :: _ => 1
  | _ => 0
  end.

Inductive Last := LNormal (name rest : str) | LParent (rest : str) | LCur | LRoot | LNone.

(** The last component and the path before it; empty components and [.] in the
    body are skipped. *)
Fixpoint last_component (fuel : nat) (p : str) : Last :=
  let start := body_start p in
  if (length p <=? start)%nat then
    match p with 47 :: _ => LRoot | 46 :: _ => LCur | _ => LNone end
  else
    match fuel with
    | O => LNone
    | S fuel =>
      let body := drop start p in
      let '(cut, name) := match rsplit_once 47 body with
                          | Some (h, c) => (length h, c)
                          | None => (O, body)
                          end in
      let rest := take (start + cut) p in
      if bool_decide (name = []) || bool_decide (name = [46]) then last_component fuel rest
      else if bool_decide (name = [46; 46]) then LParent rest else LNormal name rest
    end.

(** The path without trailing separators and [.] components. *)
Fixpoint trim_right (fuel : nat) (p : str) : str :=
  let start := body_start p in
  match fuel with
  | O => p
  | S fuel =>
    if (length p <=? start)%nat then p
    else
      let body := drop start p in
      let '(cut, name) := match rsplit_once 47 body with
                          | Some (h, c) => (length h, c)
                          | None => (O, body)
                          end in
      if bool_decide (name = []) || bool_decide (name = [46]) then trim_right fuel (take (start + cut) p) else p
  end.

(** [Path::parent]. *)
Definition parent (p : str) : option str :=
  match last_component (S (length p)) p with
  | LNormal _ rest | LParent rest => Some (trim_right (S (length rest)) rest)
  | LCur => Some []
  | LRoot | LNone => None
  end.

(** [Path::extension]. *)
Definition extension (p : str) : option str :=
  match last_component (S (length p)) p with
  | LNormal name _ =>
    match rsplit_once 46 name with
    | Some ([], _) | None => None
    | Some (_, ext) => Some ext
    end
  | _ => None
  end.

Example parents :
  parent (bs "a/b.json") = Some (bs "a") ∧ parent (bs "users.json") = Some []
  ∧ parent (bs "/x") = Some (bs "/") ∧ parent (bs "/") = None ∧ parent [] = None
  ∧ parent (bs "/var/lib//omni/./users.json") = Some (bs "/var/lib//omni")
  ∧ parent (bs "./u") = Some (bs ".") ∧ parent (bs "a/..") = Some (bs "a").
Proof. repeat split; vm_compute; reflexivity. Qed.
Example extensions :
  extension (bs "/etc/omni.toml") = Some (bs "toml") ∧ extension (bs "a.b/.toml") = None
  ∧ extension (bs "omni.toml/") = Some (bs "toml") ∧ extension (bs "x.") = Some []
  ∧ extension (bs "toml") = None.
Proof. repeat split; vm_compute; reflexivity. Qed.

(** ** The user store *)

Record StoredUser := mk_user { su_email : str; su_uuid : str }.
#[export] Instance StoredUser_eq_dec : EqDecision StoredUser.
Proof. solve_decision. Defined.
(** [PersistedUsers]: a map from keys to users. *)
Definition PersistedUsers := gmap str StoredUser.

Inductive PersistError := PIo (e : ioerr) | PSerde (e : str).
Definition show_PersistError (e : PersistError) : str :=
  match e with PIo e => emsg e | PSerde e => e end.

(** [serde_json] on this type, and the files of the system. *)
Class StoreEnv := {
  from_slice : list Z → res str PersistedUsers;
  to_vec_pretty : PersistedUsers → res str (list Z);
  Files : Type;
  read_file : Files → str → res ioerr (list Z);
  create_dir_all : Files → str → Files;
  write_file : Files → str → list Z → res ioerr unit * Files
}.

Record UserStore := mk_store { us_path : str; us_data : PersistedUsers }.

Section Store.
Context `{SE : StoreEnv}.

Definition store_open (fs : Files) (user_persist_path : option str) : UserStore :=
  let path := default (bs "users.json") user_persist_path in
  mk_store path
    match read_file fs path with
    | Ok bytes => default ∅ (res_ok (from_slice bytes))
    | _ => ∅
    end.

Definition store_snapshot (s : UserStore) : PersistedUsers := us_data s.
Definition upsert (s : UserStore) (user : StoredUser) : UserStore :=
  mk_store (us_path s) (<[su_email user := user]> (us_data s)).
Definition store_clear (s : UserStore) : nat * UserStore :=
  (size (us_data s), mk_store (us_path s) ∅).

Definition flush (s : UserStore) (fs : Files) : res PersistError unit * Files :=
  let fs := match parent (us_path s) with
            | Some d => if bool_decide (d = []) then fs else create_dir_all fs d
            | None => fs
            end in
  match to_vec_pretty (us_data s) with
  | Ok bytes => let '(r, fs) := write_file fs (us_path s) bytes in (map_err PIo r, fs)
  | Err e => (Err (PSerde e), fs)
  | Panic => (Panic, fs)
  end.

(** ** What the store promises: a map that survives a restart

    The contract of the environment: what was encoded is decoded, and a write
    that succeeds is read back. *)
Class StoreLaws := {
  slice_vec u b : to_vec_pretty u = Ok b → from_slice b = Ok u;
  read_write fs fs' p b : write_file fs p b = (Ok tt, fs') → read_file fs' p = Ok b
}.
Context `{SL : !StoreLaws}.

(** Every key of the store is the e-mail of its user. *)
Definition keyed (s : UserStore) : Prop := map_Forall (λ k u, k = su_email u) (us_data s).

Lemma upsert_keyed s u : keyed s → keyed (upsert s u).
Proof. intros H. apply map_Forall_insert_2; [done | exact H]. Qed.
Lemma clear_keyed s : keyed (store_clear s).2.
Proof. apply map_Forall_empty. Qed.

(** The operations between two flushes. *)
Definition upserts (s : UserStore) (us : list StoredUser) : UserStore := foldl upsert s us.

(** The user of an e-mail is the last one stored under it. *)
Lemma upserts_lookup us s e :
  us_data (upserts s us) !! e =
    match List.find (λ u, bool_decide (su_email u = e)) (rev us) with
    | Some u => Some u
    | None => us_data s !! e
    end.
Proof.
  unfold upserts. induction us as [|u us IH] using rev_ind; [done|].
  rewrite foldl_app, rev_app_distr. cbn [foldl rev app List.find upsert us_data].
  case_bool_decide as E; [subst e; apply lookup_insert_eq|].
  rewrite <- IH. by apply lookup_insert_ne.
Qed.

Lemma upserts_path us s : us_path (upserts s us) = us_path s.
Proof. unfold upserts. induction us as [|u us IH] using rev_ind; [done|]. by rewrite foldl_app. Qed.

(** The store survives a restart: after the users [us] are stored and a flush
    succeeds, a store opened on the same path finds under every e-mail the last
    user stored under it, those of the earlier file included. *)
Theorem store_durable fs fs' path us e :
  let s := store_open fs path in
  flush (upserts s us) fs = (Ok tt, fs') →
  us_data (store_open fs' path) !! e =
    match List.find (λ u, bool_decide (su_email u = e)) (rev us) with
    | Some u => Some u
    | None => us_data s !! e
    end.
Proof using SL.
  intros s. unfold flush. rewrite upserts_path.
  destruct (to_vec_pretty _) as [b| |] eqn:Eb; [|done..].
  destruct (write_file _ _ b) as [r fs1] eqn:Ew. intros [= Hr ->].
  destruct r as [[]| |]; [|done..]. apply read_write in Ew. apply slice_vec in Eb.
  unfold store_open at 1. change (default (bs "users.json") path) with (us_path s).
  rewrite Ew, Eb. cbn [res_ok default us_data]. apply upserts_lookup.
Qed.

(** A file that does not decode is opened as an empty store, without an error;
    the next flush replaces it. *)
Theorem store_corrupt fs path bytes e :
  read_file fs (default (bs "users.json") path) = Ok bytes → from_slice bytes = Err e →
  us_data (store_open fs path) = ∅.
Proof. intros Hr Hf. unfold store_open. cbn [us_data]. by rewrite Hr, Hf. Qed.

End Store.

(** A concrete environment: users as lengths and bytes, files as a map. *)
Definition enc_str (s : str) : list Z := Z.of_nat (length s) :: s.
Definition enc_users (u : PersistedUsers) : list Z :=
  map_to_list u ≫= λ '(k, u), enc_str k ++ enc_str (su_email u) ++ enc_str (su_uuid u).
Definition dec_str (b : list Z) : option (str * list Z) :=
  match b with
  | n :: b => if (0 <=? n) && (Z.to_nat n <=? length b)%nat
              then Some (take (Z.to_nat n) b, drop (Z.to_nat n) b) else None
  | [] => None
  end.
Fixpoint dec_users (fuel : nat) (b : list Z) : option (list (str * StoredUser)) :=
  match b with
  | [] => Some []
  | _ =>
    match fuel with
    | O => None
    | S fuel =>
      let+ (k, b) := dec_str b in
      let+ (e, b) := dec_str b in
      let+ (u, b) := dec_str b in
      let+ rest := dec_users fuel b in
      Some ((k, mk_user e u) :: rest)
    end
  end.

Lemma dec_enc_str s r : dec_str (enc_str s ++ r) = Some (s, r).
Proof.
  unfold dec_str, enc_str. cbn [app]. rewrite Nat2Z.id, (proj2 (Z.leb_le _ _)) by lia.
  rewrite (proj2 (Nat.leb_le _ _)) by (rewrite length_app; lia). cbn [andb].
  by rewrite take_app_length, drop_app_length.
Qed.

Lemma dec_enc_users l fuel :
  (length l ≤ fuel)%nat →
  dec_users fuel (l ≫= λ '(k, u), enc_str k ++ enc_str (su_email u) ++ enc_str (su_uuid u)) = Some l.
Proof.
  revert fuel; induction l as [|[k [e u]] l IH]; intros fuel Hf; [by destruct fuel|].
  destruct fuel as [|fuel]; cbn [length] in Hf; [lia|]. rewrite bind_cons, <- !app_assoc.
  cbn [su_email su_uuid]. unfold enc_str at 1. cbn [app dec_users].
  change (Z.of_nat (length k) :: k ++ ?r) with (enc_str k ++ r). rewrite !dec_enc_str.
  by rewrite IH by lia.
Qed.

#[export] Instance map_store : StoreEnv := {|
  from_slice b := match dec_users (length b) b with Some l => Ok (list_to_map l) | None => Err (bs "bad") end;
  to_vec_pretty u := Ok (enc_users u);
  Files := gmap str (list Z);
  read_file fs p := ok_or (mk_ioerr NotFound (bs "no such file")) (fs !! p);
  create_dir_all fs _ := fs;
  write_file fs p b := (Ok tt, <[p := b]> fs)
|}.

Lemma length_enc_users l :
  (length l ≤ length (l ≫= λ '(k, u), enc_str k ++ enc_str (su_email u) ++ enc_str (su_uuid u)))%nat.
Proof.
  induction l as [|[k u] l IH]; [done|]. rewrite bind_cons, length_app.
  unfold enc_str at 1. cbn [length app]. lia.
Qed.

#[export] Instance map_store_laws : @StoreLaws map_store.
Proof.
  split.
  - intros u b [= <-]. cbn [from_slice map_store]. unfold enc_users.
    rewrite dec_enc_users by apply length_enc_users. f_equal. apply list_to_map_to_list.
  - intros fs fs' p b [= <-]. cbn [read_file map_store]. unfold Files, map_store. by rewrite lookup_insert_eq.
Qed.

Lemma store_durable_witness :
  ∃ fs', flush (upserts (store_open (∅ : @Files map_store) None)
           [mk_user (bs "a@b") (bs "1"); mk_user (bs "c@d") (bs "2"); mk_user (bs "a@b") (bs "3")]) ∅ = (Ok tt, fs')
    ∧ us_data (store_open fs' None) !! bs "a@b" = Some (mk_user (bs "a@b") (bs "3")).
Proof.
  eexists. split; [reflexivity|].
  etransitivity; [apply (store_durable (∅ : @Files map_store) _ None
    [mk_user (bs "a@b") (bs "1"); mk_user (bs "c@d") (bs "2"); mk_user (bs "a@b") (bs "3")] (bs "a@b"));
    reflexivity | vm_compute; reflexivity].
Defined.

Lemma store_corrupt_witness :
  us_data (store_open (<[bs "users.json" := [5]]> ∅ : @Files map_store) None) = ∅.
Proof.
  apply (store_corrupt (<[bs "users.json" := [5]]> ∅ : @Files map_store) None [5] (bs "bad")); vm_compute; reflexivity.
Defined.

(** ** ACME ([security/acme.rs]) *)

Section Acme.
Context `{SH : Sha2}.

Definition key_authorization (token thumbprint_b64 : str) : str := token ++ bs "." ++ thumbprint_b64.
Definition tls_alpn_01_cert_value (key_auth : str) : list Z := sha256 key_auth.

(** The parameters given to [rcgen]: names, and extensions as object
    identifier, criticality (not set, so false) and content. *)
Record CertParams := mk_cert_params {
  cp_names : list str;
  cp_common_name : str;
  cp_extensions : list (list Z * bool * list Z)
}.
Definition validation_params (domain : str) (key_auth_sha256 : list Z) : CertParams :=
  mk_cert_params [domain] domain [([27; 33; 87; 74; 71; 68], false, [4; 32] ++ key_auth_sha256)].

(** [rcgen]: whether the names are acceptable, key generation, signing. *)
Definition generate_validation_cert {K} (names_ok : list str → res str unit) (generate : res str K)
    (self_signed : CertParams → K → res str (list Z * list Z)) (domain : str) (key_auth_sha256 : list Z)
    : res ioerr (list Z * list Z) :=
  let? _ := map_err (λ e, other (bs "acme: invalid domain: " ++ e)) (names_ok [domain]) in
  let? key := map_err (λ e, other (bs "acme: keygen: " ++ e)) generate in
  map_err (λ e, other (bs "acme: sign: " ++ e)) (self_signed (validation_params domain key_auth_sha256) key).

(** [create_account]: [builder] is the set-up of the client, [create] asks the
    directory with the contact. *)
Definition create_account {B A} (builder : res str B) (create : B → str → str → res str A)
    (directory_url contact_email : str) : res ioerr A :=
  let? b := map_err other builder in
  map_err (λ e, other (bs "acme: account create failed: " ++ e))
    (create b (bs "mailto:" ++ contact_email) directory_url).

(** The loop over the authorizations of an order: each is an error or the token
    of its tls-alpn-01 challenge, if it has one. *)
Fixpoint find_token (authorizations : list (res str (option str))) : res ioerr str :=
  match authorizations with
  | [] => Err (other (bs "acme: no tls-alpn-01 challenge offered"))
  | Err e :: _ => Err (other (bs "acme: authorization fetch failed: " ++ e))
  | Panic :: _ => Panic
  | Ok (Some token) :: _ => Ok token
  | Ok None :: l => find_token l
  end.
Definition new_order_tls_alpn {O} (new_order : res str (O * list (res str (option str)))) : res ioerr (O * str) :=
  let? (order, authorizations) := map_err (λ e, other (bs "acme: order create failed: " ++ e)) new_order in
  let? token := find_token authorizations in
  Ok (order, token).

(** The identifier of the acmeIdentifier extension in RFC 8737. *)
Definition id_pe_acmeIdentifier : list Z := [1; 3; 6; 1; 5; 5; 7; 1; 31].

(** The validation certificate carries the digest of the key authorization as a
    DER octet string, under an identifier that is not the one ACME servers
    look for, and not marked critical. *)
Lemma validation_extension domain token thumb :
  cp_extensions (validation_params domain (tls_alpn_01_cert_value (key_authorization token thumb)))
  = [([27; 33; 87; 74; 71; 68], false, 4 :: Z.of_nat 32 :: sha256 (token ++ [46] ++ thumb))]
  ∧ length (sha256 (token ++ [46] ++ thumb)) = 32%nat
  ∧ [27; 33; 87; 74; 71; 68] ≠ id_pe_acmeIdentifier.
Proof. split; [done|]. split; [apply sha256_ok | done]. Qed.

Lemma find_token_spec l t :
  find_token l = Ok t ↔ ∃ pre post, l = pre ++ Ok (Some t) :: post ∧ Forall (λ a, a = Ok None) pre.
Proof.
  split.
  - induction l as [|[[x|]|e|] l IH]; cbn [find_token]; [done| | |done..].
    + intros [= ->]. by exists [], l.
    + intros (pre & post & -> & Hp)%IH. exists (Ok None :: pre), post. split; [done | by constructor].
  - intros (pre & post & -> & Hp). induction Hp as [|a pre -> Hp IH]; [done | exact IH].
Qed.
End Acme.

(** ** The clock ([ntp.rs])

    [f64] is IEEE binary64: 53 bits of precision, exponents below 1024. *)

Definition f64 := spec_float.
Definition of_int (z : Z) : f64 := binary_normalize 53 1024 z 0 false.
Definition fadd : f64 → f64 → f64 := SFadd 53 1024.
Definition fsub : f64 → f64 → f64 := SFsub 53 1024.
Definition fmul : f64 → f64 → f64 := SFmul 53 1024.
Definition fdiv : f64 → f64 → f64 := SFdiv 53 1024.
(** [f64::max(x, 0.0)]. *)
Definition fmax0 (x : f64) : f64 :=
  match x with S754_nan => S754_zero false | _ => if SFltb (S754_zero false) x then x else S754_zero false end.
Definition pow2_32 : f64 := of_int (2 ^ 32).

Record NtpResult := mk_ntp { offset_ms : f64; rtt_ms : f64 }.

Definition NTP_UNIX_OFFSET : Z := 2208988800.

(** A time since the epoch: seconds and nanoseconds.  The shift drops the bits
    of the seconds above the thirty-second. *)
Record Since := mk_since { secs : Z; nanos : Z }.
Definition now_ntp (d : Since) : Z :=
  Z.lor (wrap 64 (Z.shiftl (secs d + NTP_UNIX_OFFSET) 32)) (Z.shiftl (nanos d) 32 / 1000000000).
Definition as_secs_f64 (d : Since) : f64 := fadd (of_int (secs d)) (fdiv (of_int (nanos d)) (of_int 1000000000)).

Definition ntp_to_unix_secs (raw : list Z) : f64 :=
  if (length raw <? 8)%nat then S754_zero false
  else
    let secs := of_int (be_value (take 4 raw)) in
    let frac := fdiv (of_int (be_value (take 4 (drop 4 raw)))) pow2_32 in
    fadd (fsub secs (of_int NTP_UNIX_OFFSET)) frac.
Definition t1_unix_f (ntp : Z) : f64 :=
  fadd (fsub (of_int (Z.shiftr ntp 32)) (of_int NTP_UNIX_OFFSET))
       (fdiv (of_int (Z.land ntp 4294967295)) pow2_32).

Definition ntp_server_addr (server : str) : str :=
  let host := trim_start_matches (bs "ntp://") server in
  if bool_decide (is_Some (parse_sockaddr host)) then host
  else if contains [58] host && negb (contains [93] host) then host
  else host ++ bs ":123".

Definition ntp_packet (t1 : Z) : list Z := 35 :: replicate 39 0 ++ be_bytes 8 t1.

(** [query]: [resolve] looks the address up, [exchange] binds, connects, sends
    the packet and receives at most 48 bytes; [t1] and [t4] are the times before
    and after. *)
Definition ntp_query (resolve : str → res ioerr (list SocketAddr))
    (exchange : str → SocketAddr → list Z → res ioerr (list Z)) (t1 t4 : Since) (server : str) : res ioerr NtpResult :=
  let? addrs := resolve (ntp_server_addr server) in
  let? resolved := ok_or (mk_ioerr NotFound (bs "ntp: resolve failed")) (head addrs) in
  let bind_local := if is_v4 (ip resolved) then bs "0.0.0.0:0" else bs "[::]:0" in
  let sent := now_ntp t1 in
  let? buf := exchange bind_local resolved (ntp_packet sent) in
  if (length buf <? 48)%nat then Err (mk_ioerr InvalidData (bs "ntp: short response"))
  else
    let t4_unix := as_secs_f64 t4 in
    let t2 := ntp_to_unix_secs (take 8 (drop 32 buf)) in
    let t3 := ntp_to_unix_secs (take 8 (drop 40 buf)) in
    let offset := fdiv (fadd (fsub t2 t4_unix) (fsub t3 t4_unix)) (of_int 2) in
    let rtt := fsub (fsub t4_unix (t1_unix_f sent)) (fsub t3 t2) in
    Ok (mk_ntp (fmul offset (of_int 1000)) (fmul (fmax0 rtt) (of_int 1000))).

(** The timestamp is the seconds of the NTP era and the fraction of a second in
    units of 2^-32; the era is lost from the year 2036 on. *)
Lemma now_ntp_fields d :
  0 ≤ secs d → 0 ≤ nanos d < 1000000000 →
  Z.shiftr (now_ntp d) 32 = (secs d + NTP_UNIX_OFFSET) mod 2 ^ 32
  ∧ Z.land (now_ntp d) 4294967295 = nanos d * 2 ^ 32 / 1000000000
  ∧ length (ntp_packet (now_ntp d)) = 48%nat.
Proof.
  intros Hs Hn. unfold now_ntp. rewrite !Z.shiftl_mul_pow2 by lia.
  set (f := nanos d * 2 ^ 32 / 1000000000).
  assert (Hf : 0 ≤ f < 2 ^ 32).
  { unfold f. split; [apply Z.div_pos; lia | apply Z.div_lt_upper_bound; lia]. }
  assert (Hw : wrap 64 ((secs d + NTP_UNIX_OFFSET) * 2 ^ 32) = (secs d + NTP_UNIX_OFFSET) mod 2 ^ 32 * 2 ^ 32).
  { unfold wrap. change (2 ^ 64) with (2 ^ 32 * 2 ^ 32). by rewrite Z.mul_mod_distr_r by lia. }
  rewrite Hw. set (q := (secs d + NTP_UNIX_OFFSET) mod 2 ^ 32).
  assert (Hl : Z.lor (q * 2 ^ 32) f = q * 2 ^ 32 + f).
  { rewrite <- Z.shiftl_mul_pow2 by lia. rewrite <- Z.add_lor_land.
    assert (Z.land (Z.shiftl q 32) f = 0) as ->; [|lia].
    apply Z.bits_inj'. intros i Hi. rewrite Z.land_spec, Z.bits_0.
    destruct (Z.lt_ge_cases i 32); [by rewrite Z.shiftl_spec_low by lia|].
    rewrite (Z.bits_above_log2 f i), andb_false_r; [done|lia|].
    destruct (Z.eq_dec f 0) as [->|]; [cbn; lia|]. apply Z.log2_lt_pow2; [lia|].
    apply Z.lt_le_trans with (2 ^ 32); [lia | apply Z.pow_le_mono_r; lia]. }
  rewrite Hl, Z.shiftr_div_pow2 by lia. change 4294967295 with (Z.ones 32). rewrite Z.land_ones by lia.
  rewrite Z.div_add_l, (Z.div_small f), Z.add_0_r by lia. split; [done|]. split.
  - rewrite Z.add_comm, Z.mod_add by lia. by apply Z.mod_small.
  - done.
Qed.

(** A server and a client that agree to the second have offset zero. *)
Example ntp_agrees :
  ntp_query (λ _, Ok [sa_new (V4 [1; 2; 3; 4]) 123])
    (λ _ _ p, Ok (take 32 p ++ drop 40 p ++ drop 40 p)) (mk_since 1700000000 0) (mk_since 1700000000 0) (bs "ntp://pool")
  = Ok (mk_ntp (S754_zero false) (S754_zero false)).
Proof. vm_compute. reflexivity. Qed.
Example ntp_addresses :
  ntp_server_addr (bs "ntp://time.example") = bs "time.example:123"
  ∧ ntp_server_addr (bs "time.example:1123") = bs "time.example:1123"
  ∧ ntp_server_addr (bs "[::1]") = bs "[::1]:123" ∧ ntp_server_addr (bs "::1") = bs "::1".
Proof. repeat split; vm_compute; reflexivity. Qed.
