(* ===== verification/Log.v ===== *)
(** * Log: the text of log lines

    [omni-log/src/lib.rs] and [omni-log/src/subscriber/fmt_layer.rs].  An event
    of the [tracing] crate is its level, its target and its fields in order;
    a value that is neither text nor a truth value arrives as its [Debug]
    text.  The time is an argument; the filter and the JSON layer are
    [tracing-subscriber]. *)

From S2P Require Import Prelude Text.

Inductive Format := Omni | JsonFormat.
(** [Format::parse] never fails. *)
Definition format_parse (s : str) : option Format :=
  if bool_decide (s = bs "json") || bool_decide (s = bs "JSON") then Some JsonFormat else Some Omni.

(** [init]: the cell of the process, and whether the subscriber was set up. *)
Definition log_init (done : bool) : bool * bool := if done then (false, true) else (true, true).

Inductive Level := ERROR | WARN | INFO | DEBUG | TRACE.
Inductive FieldValue := VDebug (text : str) | VStr (s : str) | VBool (b : bool).
Record LogEvent := mk_event { ev_level : Level; ev_target : str; ev_fields : list (str * FieldValue) }.

Record OmniVisitor := mk_visitor { v_message : option str; v_fields : list (str * str); v_fatal : bool }.

Definition bool_str (b : bool) : str := if b then bs "true" else bs "false".

Definition record_debug (v : OmniVisitor) (name text : str) : OmniVisitor :=
  if bool_decide (name = bs "message") then mk_visitor (Some text) (v_fields v) (v_fatal v)
  else if bool_decide (name = bs "fatal") then mk_visitor (v_message v) (v_fields v) (bool_decide (text = bs "true"))
  else mk_visitor (v_message v) (v_fields v ++ [(name, text)]) (v_fatal v).
(** [quote] is the identity. *)
Definition record_str := record_debug.
Definition record_bool (v : OmniVisitor) (name : str) (b : bool) : OmniVisitor :=
  if bool_decide (name = bs "fatal") then mk_visitor (v_message v) (v_fields v) b
  else mk_visitor (v_message v) (v_fields v ++ [(name, bool_str b)]) (v_fatal v).

Definition record_field (v : OmniVisitor) (f : str * FieldValue) : OmniVisitor :=
  match f.2 with
  | VDebug text => record_debug v f.1 text
  | VStr s => record_str v f.1 s
  | VBool b => record_bool v f.1 b
  end.
Definition visit (e : LogEvent) : OmniVisitor := foldl record_field (mk_visitor None [] false) (ev_fields e).

Definition level_str (l : Level) : str :=
  match l with
  | ERROR => bs "ERROR" | WARN => bs "WARN" | INFO => bs "INFO" | DEBUG => bs "DEBUG" | TRACE => bs "TRACE"
  end.

Definition format_event (time : str) (e : LogEvent) : str :=
  let v := visit e in
  let level := if v_fatal v then bs "FATAL" else level_str (ev_level e) in
  time ++ [32] ++ level ++ [32] ++ ev_target e ++ bs ": "
  ++ default [] (v_message v)
  ++ concat (map (λ '(k, x), [32] ++ k ++ [61] ++ x) (v_fields v))
  ++ [10].

(** ** One line per event, with every field *)

(** What a field shows as. *)
Definition value_str (x : FieldValue) : str :=
  match x with VDebug t => t | VStr s => s | VBool b => bool_str b end.
Definition special (n : str) : bool := bool_decide (n = bs "message") || bool_decide (n = bs "fatal").

Lemma visit_fields fs v :
  Forall (λ f, f.1 ≠ bs "message" ∨ ∃ t, f.2 = VDebug t ∨ f.2 = VStr t) fs →
  v_fields (foldl record_field v fs)
  = v_fields v ++ map (λ f, (f.1, value_str f.2)) (filter (λ f, special f.1 = false) fs).
Proof.
  intros H. revert v; induction H as [|[n x] fs Hx H IH]; intros v; [by rewrite app_nil_r|].
  cbn [foldl]. rewrite IH, filter_cons. unfold record_field, record_str, record_debug, record_bool, special. cbn [fst snd] in *.
  destruct x as [t|t|b]; repeat case_bool_decide; cbn [orb]; subst; try done;
    try (rewrite decide_False by done; done); try (rewrite decide_True by done; cbn [v_fields map fst snd value_str];
      by rewrite <- app_assoc).
  exfalso. destruct Hx as [?|(? & [?|?])]; done.
Qed.

Lemma not_in_concat c (l : list str) : Forall (λ s, c ∉ s) l → c ∉ concat l.
Proof. induction 1 as [|s l Hs Hl IH]; cbn; [by apply not_elem_of_nil|]. by rewrite not_elem_of_app. Qed.

(** The text of an event shows its fields other than the message and the flag,
    in order; if no part has a line break, the event is one line. *)
Theorem event_one_line time e :
  Forall (λ f, f.1 ≠ bs "message" ∨ ∃ t, f.2 = VDebug t ∨ f.2 = VStr t) (ev_fields e) →
  10 ∉ time → 10 ∉ ev_target e → Forall (λ f, 10 ∉ f.1 ∧ 10 ∉ value_str f.2) (ev_fields e) →
  ∃ head, format_event time e = head
      ++ concat (map (λ f, [32] ++ f.1 ++ [61] ++ value_str f.2) (filter (λ f, special f.1 = false) (ev_fields e))) ++ [10]
    ∧ 10 ∉ head ++ concat (map (λ f, [32] ++ f.1 ++ [61] ++ value_str f.2) (filter (λ f, special f.1 = false) (ev_fields e))).
Proof.
  intros Hm Ht Hg Hf. unfold format_event, visit.
  set (v := foldl record_field _ _).
  assert (Hv : v_fields v = map (λ f, (f.1, value_str f.2)) (filter (λ f, special f.1 = false) (ev_fields e)))
    by (unfold v; by rewrite visit_fields).
  assert (Hmsg : 10 ∉ default [] (v_message v)).
  { unfold v. assert (Hs : ∀ fs w, 10 ∉ default [] (v_message w) → Forall (λ f, 10 ∉ f.1 ∧ 10 ∉ value_str f.2) fs →
      10 ∉ default [] (v_message (foldl record_field w fs))); [|apply Hs; [by apply not_elem_of_nil | done]].
    clear. induction fs as [|[n x] fs IH]; intros w Hw HF; [done|]. cbn [foldl].
    apply Forall_cons in HF as [[_ Hx] HF]. apply IH; [|done]. cbn [fst snd] in Hx.
    unfold record_field, record_str, record_debug, record_bool. cbn [fst snd].
    destruct x; repeat case_bool_decide; cbn; done. }
  exists (time ++ [32] ++ (if v_fatal v then bs "FATAL" else level_str (ev_level e)) ++ [32] ++ ev_target e ++ bs ": "
    ++ default [] (v_message v)).
  rewrite Hv, map_map. split; [by rewrite <- !app_assoc|].
  rewrite !not_elem_of_app. repeat split; try done; try (by_decide).
  - destruct (v_fatal v); [by_decide|]. destruct (ev_level e); by_decide.
  - apply not_in_concat, Forall_map. apply Forall_forall. intros f Hin. apply list_elem_of_filter in Hin as [_ Hin].
    rewrite Forall_forall in Hf. destruct (Hf f Hin) as [H1 H2]. cbn [app].
    rewrite not_elem_of_cons, not_elem_of_app, not_elem_of_cons. done.
Qed.

Lemma event_one_line_witness :
  let e := mk_event ERROR (bs "omni.start") [(bs "message", VDebug (bs "core initialization failed")); (bs "fatal", VBool true);
             (bs "error", VStr (bs "bad"))] in
  format_event (bs "T") e = bs "T FATAL omni.start: core initialization failed error=bad" ++ [10]
  ∧ ∃ head, 10 ∉ head ++ concat (map (λ f, [32] ++ f.1 ++ [61] ++ value_str f.2)
      (filter (λ f, special f.1 = false) (ev_fields e))).
Proof.
  intros e. split; [vm_compute; reflexivity|].
  destruct (event_one_line (bs "T") e) as (head & _ & H); [| | | |by exists head].
  - apply Forall_cons; split; [right; eexists; by left|]. apply Forall_cons; split; [by left|].
    apply Forall_cons; split; [by left|]. constructor.
  - by_decide.
  - by_decide.
  - by_decide.
Defined.

(** The first set-up of the process is the only one. *)
Lemma log_init_once : log_init false = (true, true) ∧ log_init (log_init false).2 = (false, true).
Proof. done. Qed.
