(* ===== verification/Cli.v ===== *)
(** * Cli: configuration files, the command line and the life of a process

    [omni-config/src/lib.rs], [omni-config/src/model.rs],
    [omni-core/src/dataplane/mod.rs], [CoreRuntime::serve] and
    [apps/omni-cli/src].  Reading the arguments ([clap]) and the JSON and TOML
    decoders of the configuration are libraries: the parsed arguments and the
    decoders are arguments; log lines are in Log.  What a process does is its exit
    code with the lines it prints. *)

From S2P Require Import Prelude Text Net Io Matching Geo Config Resolver Crypto Node Core Listener Services.

(** ** Backends *)

Inductive Backend := Iouring | Epoll | Tokio.
#[export] Instance Backend_eq_dec : EqDecision Backend.
Proof. solve_decision. Defined.
Definition backend_str (b : Backend) : str :=
  match b with Iouring => bs "iouring" | Epoll => bs "epoll" | Tokio => bs "tokio" end.

(** [linux] is [cfg!(target_os = "linux")]. *)
Definition select_backend (linux : bool) (env_override : option str) : Backend :=
  let dflt := if linux then Iouring else Tokio in
  match env_override with
  | None => dflt
  | Some s =>
    if bool_decide (s = bs "iouring") && linux then Iouring
    else if bool_decide (s = bs "epoll") && linux then Epoll
    else if bool_decide (s = bs "tokio") then Tokio
    else dflt
  end.

(** The name of a backend selects it where it exists. *)
Lemma select_backend_name linux b :
  select_backend linux (Some (backend_str b)) = if linux then b else Tokio.
Proof. by destruct linux, b. Qed.

(** [CoreRuntime::backend_name]: the selection plays no part. *)
Definition backend_name : str := bs "tokio".

(** ** The resolved configuration ([model.rs]), which no other function reads *)

Record NetworkCaps := mk_caps { caps_tcp : bool; caps_udp : bool }.
Definition caps (c : NetworkCaps) : str :=
  match caps_tcp c, caps_udp c with
  | true, true => bs "tcp+udp"
  | true, false => bs "tcp"
  | false, true => bs "udp"
  | false, false => bs "none"
  end.
Record ResolvedNode := mk_resolved_node {
  rn_tag : str;
  rn_protocol : str;
  rn_listen : SocketAddr;
  rn_caps : NetworkCaps
}.
Record ResolvedOutbound := mk_resolved_outbound { ro_tag : str; ro_type : str }.
Record RuntimeConfig := mk_runtime_config {
  rc_backend : Backend;
  rc_metrics_port : option Z;
  rc_user_persist_path : str;
  rc_nodes : list ResolvedNode;
  rc_outbounds : list ResolvedOutbound
}.
Definition default_user_persist_path : str := bs "users.json".
Definition resolve_config `{Json} (wire : RuntimeConfigWire) (backend : Backend) : RuntimeConfig :=
  mk_runtime_config backend (w_metrics_port wire)
    (default default_user_persist_path (w_user_persist_path wire)) []
    (map (λ o, mk_resolved_outbound (ob_tag o) (ob_type o)) (w_outbounds wire)).

(** ** Configuration files ([omni-config]) *)

Inductive ConfigError := CRead (path : str) (source : ioerr) | CParse (path msg : str).
Definition show_ConfigError (e : ConfigError) : str :=
  match e with
  | CRead path source => bs "failed to read config from " ++ path ++ bs ": " ++ emsg source
  | CParse path msg => bs "failed to parse config " ++ path ++ bs ": " ++ msg
  end.

Record EffectiveArgs := mk_effective { ea_config : option str }.
Inductive Command :=
| Server (config : option str) (check_config : bool)
| Version.
Record CliArgs := mk_cli { cli_config : option str; cli_check_config : bool; cli_command : option Command }.

(** [Cli::effective]. *)
Definition effective (c : CliArgs) : option str * bool :=
  match cli_command c with
  | Some (Server config check_config) =>
    (match config with Some p => Some p | None => cli_config c end, check_config || cli_check_config c)
  | _ => (cli_config c, cli_check_config c)
  end.

(** Exit code, and what goes to the standard output and error. *)
Record Exit := mk_exit { ex_code : Z; ex_out : str; ex_err : str }.

Section Cli.
Context `{JS : Json} `{SH : Sha2} `{RL : RegexLib}.
(** What [initialize] uses, the decoders of the configuration, its file. *)
Context (files : fs) (generate : str → res str ServerCertMaterial) (b64 : str → res str (list Z)).
Context (from_toml from_json : str → res str RuntimeConfigWire) (read_to_string : str → res ioerr str).
(** What [serve] uses: sockets, certificates, and the signal it waits for. *)
Context (tcp_bind : SocketAddr → res ioerr unit) (self_signed : str → res str (list Z * list Z)).
Context (hy_bind : SocketAddr → str → list Z * list Z → res ioerr unit) (ctrl_c : res str unit).

Definition load_str (path content : str) : res ConfigError RuntimeConfigWire :=
  let parsed := if bool_decide (default [] (extension path) = bs "toml") then from_toml content
                else from_json content in
  map_err (CParse path) parsed.

Definition read_config (path : str) : res ConfigError RuntimeConfigWire :=
  let? content := map_err (CRead path) (read_to_string path) in
  load_str path content.

(** ** The runtime ([CoreRuntime::serve]) *)

(** The listeners and the port of the metrics socket, which runs apart. *)
Definition start (rt : CoreRuntime) : res CoreError (list Started * option Z) :=
  let? listeners := match rt_plans rt with
                    | [] => Ok []
                    | plans => map_err EAssembly (serve_listeners tcp_bind self_signed hy_bind plans)
                    end in
  Ok (listeners, rt_metrics_port rt).
Definition serve (rt : CoreRuntime) : res CoreError unit :=
  let? _ := start rt in
  map_err (λ e, EAssembly (bs "signal handler: " ++ e)) ctrl_c.

(** ** Commands *)

Definition assemble (args : EffectiveArgs) : res str CoreRuntime :=
  let? wire := match ea_config args with
               | Some path => map_err show_ConfigError (read_config path)
               | None => Ok runtime_wire_default
               end in
  map_err show_CoreError (initialize files generate b64 wire).

Definition fatal (err : str) : Exit := mk_exit 1 [] (bs "runtime assembly failed: " ++ err ++ [10]).

Definition run_server (args : EffectiveArgs) : res Empty_set Exit :=
  match assemble args with
  | Ok rt =>
    if bool_decide (rt_plans rt = []) then Ok (mk_exit 0 [] [])
    else match serve rt with
         | Ok _ => Ok (mk_exit 0 [] [])
         | Err e => Ok (fatal (show_CoreError e))
         | Panic => Panic
         end
  | Err e => Ok (fatal e)
  | Panic => Panic
  end.

Definition check_config_run (args : EffectiveArgs) : res Empty_set Exit :=
  match assemble args with
  | Ok _ => Ok (mk_exit 0 (bs "config check passed" ++ [10]) [])
  | Err e => Ok (fatal e)
  | Panic => Panic
  end.

Definition dispatch (version : str) (args : CliArgs) : res Empty_set Exit :=
  match cli_command args with
  | Some Version => Ok (mk_exit 0 (bs "omni-cli " ++ version ++ [10]) [])
  | _ =>
    let '(config, check_config) := effective args in
    let eff := mk_effective config in
    if check_config then check_config_run eff else run_server eff
  end.

(** ** Exit codes *)

Lemma start_ok rt :
  ((∀ x, x ∈ endpoints (rt_plans rt) → opens tcp_bind self_signed hy_bind x = true) →
    ∃ l, start rt = Ok (l, rt_metrics_port rt) ∧ l ≡ₚ map started (endpoints (rt_plans rt)))
  ∧ ∀ r, start rt = Ok r →
      ∀ x, x ∈ endpoints (rt_plans rt) → opens tcp_bind self_signed hy_bind x = true.
Proof.
  unfold start. destruct (rt_plans rt) as [|p ps].
  { split; [by exists [] | intros r _ x Hx; by apply elem_of_nil in Hx]. }
  destruct (serve_starts_all tcp_bind self_signed hy_bind (p :: ps)) as [H1 H2]. split.
  - intros (l & -> & Hl)%H1. by exists l.
  - intros r. destruct (serve_listeners _ _ _ _) as [l| |]; [|done..]. intros _. by apply (H2 l).
Qed.

(** C38: the exit code of a process.  A run that neither panics nor asks for the
    version exits with 0 or 1.  Checking the configuration gives 0 exactly when
    it is read and assembled, whatever the network; running gives 0 exactly
    when, besides, there is no plan, or every address of every plan can be
    opened, so that there is one listener per address, and the signal to stop
    arrives.  A configuration that is refused gives 1 in both, with the same
    message. *)
Theorem exit_codes version args o :
  cli_command args ≠ Some Version →
  dispatch version args = Ok o →
  let asm := assemble (mk_effective (effective args).1) in
  (ex_code o = 0 ∨ ex_code o = 1)
  ∧ (∀ e, asm = Err e → o = fatal e)
  ∧ ∀ rt, asm = Ok rt →
      if (effective args).2 then ex_code o = 0
      else ex_code o = 0 ↔
        rt_plans rt = []
        ∨ ctrl_c = Ok tt
          ∧ (∀ x, x ∈ endpoints (rt_plans rt) → opens tcp_bind self_signed hy_bind x = true)
          ∧ ∃ l, start rt = Ok (l, rt_metrics_port rt) ∧ l ≡ₚ map started (endpoints (rt_plans rt)).
Proof.
  intros Hv Hd asm. unfold dispatch in Hd.
  assert (He : (if (effective args).2 then check_config_run (mk_effective (effective args).1)
                else run_server (mk_effective (effective args).1)) = Ok o).
  { destruct (effective args) as [c k]. by destruct (cli_command args) as [[]|]. }
  clear Hd. unfold check_config_run, run_server in He. fold asm in He.
  destruct asm as [rt|e|], (effective args).2; simplify_eq; (split; [|split]); try by auto; try by intros ? [= ->].
  - case_bool_decide; [simplify_eq; by left|].
    destruct (serve rt) as [|e|]; simplify_eq; [by left | by right].
  - intros rt' [= <-]. case_bool_decide as Hp; [simplify_eq; cbn; by split; [left|]|].
    destruct (start_ok rt) as [H1 H2]. unfold serve in He. split.
    + intros H0. right. destruct (start rt) as [r| |] eqn:Es; simplify_eq; try done.
      specialize (H2 _ eq_refl). destruct ctrl_c as [[]| |]; cbn [map_err] in He; simplify_eq; try done. auto.
    + intros [|(Hc & _ & l & Hl & _)]; [done|]. rewrite Hl, Hc in He. cbn [map_err] in He. by simplify_eq.
Qed.
End Cli.

(** A process on the configuration of Core's example: it has no inbound, so a
    run ends at once, also when a metrics port is configured. *)
Definition example_process (args : CliArgs) : res Empty_set Exit :=
  @dispatch tree_json pad_sha2 literal_regex (λ _, Err []) (λ _, Err []) (λ _, Err [])
    (λ _, Err (bs "no toml")) (λ _, Ok route_wire) (λ _, Ok []) (λ _, Ok tt) (λ _, Err []) (λ _ _ _, Ok tt)
    (Ok tt) (bs "0.1.5") args.

Lemma exit_codes_witness :
  ∃ o, example_process (mk_cli (Some (bs "c.json")) false (Some (Server None false))) = Ok o ∧ (ex_code o = 0 ∨ ex_code o = 1).
Proof.
  eexists. split; [vm_compute; reflexivity|].
  apply (@exit_codes tree_json pad_sha2 literal_regex (λ _, Err []) (λ _, Err []) (λ _, Err [])
    (λ _, Err (bs "no toml")) (λ _, Ok route_wire) (λ _, Ok []) (λ _, Ok tt) (λ _, Err []) (λ _ _ _, Ok tt)
    (Ok tt) (bs "0.1.5") (mk_cli (Some (bs "c.json")) false (Some (Server None false))));
    [discriminate | vm_compute; reflexivity].
Defined.

(** A file that TOML does not accept is reported with its path, in either command. *)
Example exit_refused check :
  example_process (mk_cli (Some (bs "omni.toml")) check None)
  = Ok (mk_exit 1 [] (bs "runtime assembly failed: failed to parse config omni.toml: no toml" ++ [10])).
Proof. by destruct check; vm_compute. Qed.
