(* ===== verification/Deployment.v ===== *)
(** * Deployment: from a configuration to the bytes

    The composition of the parts: a configuration that [CoreRuntime::initialize]
    accepts (Core), the listeners that [CoreRuntime::serve] starts from it (Cli,
    Listener), the accept loops (Supervisor) and the sessions of their
    connections.  The specification speaks of the configuration only: what a
    client of an inbound sends is read off the inbound's entry, and where its
    traffic goes off the outbounds' entries. *)

From S2P Require Import Prelude Text Net Io Socks5 Matching Geo Crypto Config Node Core Trojan Vless Sniff.
From S2P Require Import Aead Vmess Hysteria2 Pipeline Outbound Listener Quic Supervisor Cli.
From S2P Require Anytls.

(** ** Where a connection goes, by the configuration *)

Section Routing.
Context `{JS : Json} `{SH : Sha2} `{RL : RegexLib}.
Context (files : fs) (generate : str → res str ServerCertMaterial) (b64 : str → res str (list Z)).

Definition host_of (target : ProxyTarget) (sniffed : option str) : option str :=
  match sniffed with
  | Some h => Some h
  | None => match target with Domain h _ => Some h | Tcp _ => None end
  end.
Definition ip_of (target : ProxyTarget) : option IpAddr :=
  match target with Tcp a => Some (ip a) | Domain _ _ => None end.

(** An outbound states criteria and the connection satisfies all of them. *)
Definition selected (geo : GeoRegistry) target sniffed tag (ob : OutboundSpecWire) : Prop :=
  has_criteria (rule_from_entry ob) = true
  ∧ rule_sat (rule_from_entry ob) (registry_lookup geo) (host_of target sniffed) (ip_of target) (target_port target) (Some tag).
Definition catch_all (ob : OutboundSpecWire) : Prop := has_criteria (rule_from_entry ob) = false.

(** The first of a list with a property. *)
Definition first_with {A} (P : A → Prop) (l : list A) (x : A) : Prop :=
  ∃ pre post, l = pre ++ x :: post ∧ P x ∧ Forall (λ y, ¬ P y) pre.

(** The outbound of a connection: the first that is selected, or when none is,
    the first without criteria. *)
Definition chosen geo target sniffed tag (obs : list OutboundSpecWire) (ob : OutboundSpecWire) : Prop :=
  first_with (selected geo target sniffed tag) obs ob
  ∨ Forall (λ ob, ¬ selected geo target sniffed tag ob) obs ∧ first_with catch_all obs ob.

(** An outbound with a server: its tag is its own, and it answers nothing itself. *)
Definition proxying (ob : OutboundSpecWire) : Prop :=
  is_direct ob = false ∧ is_reject ob = false ∧ ob_tag ob ≠ bs "direct" ∧ ob_tag ob ≠ bs "reject" ∧ hijack_of ob = None.

Lemma entry_selected r target sniffed tag ob e :
  entry_of ob e → selects r target sniffed tag e = true ↔ selected (r_geo r) target sniffed tag ob.
Proof.
  intros (Hc & _ & _). unfold selects, selected. rewrite andb_true_iff, (compile_criteria _ _ Hc).
  rewrite (compile_matches _ _ _ _ _ _ _ Hc). unfold host_of, ip_of. split; [intros [? [?|?]] | intros []]; [congruence|done|auto].
Qed.

Lemma entry_catch_all ob e : entry_of ob e → negb (r_has_criteria (e_rule e)) = true ↔ catch_all ob.
Proof. intros (Hc & _ & _). rewrite (compile_criteria _ _ Hc). unfold catch_all. by destruct (has_criteria _). Qed.

Lemma find_app_none {B} (f : B → bool) l l' : List.find f l = None → List.find f (l ++ l') = List.find f l'.
Proof. induction l as [|b l IH]; [done|]. cbn. destruct (f b); [done|apply IH]. Qed.

(** Searching the entries is searching the outbounds. *)
Section Find.
Context {A B} (R : A → B → Prop) (P : A → Prop) (f : B → bool).
Context (Hf : ∀ a b, R a b → f b = true ↔ P a).

Lemma find_none_related l l' : Forall2 R l l' → Forall (λ a, ¬ P a) l → List.find f l' = None.
Proof using Hf.
  induction 1 as [|a b l l' Hr _ IH]; intros H; [done|]. apply Forall_cons in H as [Ha H]. cbn.
  rewrite <- (Hf a b Hr) in Ha. destruct (f b); [done|]. by apply IH.
Qed.

Lemma find_first_related l l' a : Forall2 R l l' → first_with P l a → ∃ b, List.find f l' = Some b ∧ R a b.
Proof using Hf.
  intros HF (pre & post & -> & Ha & Hpre). apply Forall2_app_inv_l in HF as (l1 & l2 & H1 & H2 & ->).
  apply Forall2_cons_inv_l in H2 as (b & l3 & Hb & _ & ->). exists b. split; [|done].
  rewrite find_app_none by exact (find_none_related pre l1 H1 Hpre). cbn. by rewrite (proj2 (Hf a b Hb) Ha).
Qed.
End Find.

(** The router does what the configuration says. *)
Lemma configured_route wire rt target sniffed tag ob :
  initialize files generate b64 wire = Ok rt → proxying ob →
  chosen (r_geo (rt_router rt)) target sniffed tag (w_outbounds wire) ob →
  ∃ c, build_connector ob = Ok (Some c) ∧ route (rt_router rt) target sniffed tag = Proxy c.
Proof.
  intros Hi (Hd & Hr & Ht1 & Ht2 & Hh) Hc. destruct (initialize_router _ _ _ _ _ Hi) as (HF & _ & _ & _ & Hcon).
  assert (Hin : ob ∈ w_outbounds wire).
  { destruct Hc as [(pre & post & -> & _)|[_ (pre & post & -> & _)]]; set_solver. }
  specialize (Hcon ob Hin Ht1 Ht2). rewrite Hd, Hr in Hcon. destruct Hcon as (c & Hb & Hl). exists c. split; [done|].
  assert (Ha : ∀ e, entry_of ob e → entry_action (rt_router rt) e = Proxy c).
  { intros e (_ & He & Hn). unfold entry_action. by rewrite Hn, He, Hl. }
  unfold route. fold (host_of target sniffed) (ip_of target).
  pose proof (λ o e H, entry_selected (rt_router rt) target sniffed tag o e H) as Hsel.
  unfold selects in Hsel. fold (host_of target sniffed) (ip_of target) in Hsel.
  destruct Hc as [Hc|[Hn Hc]].
  - by destruct (find_first_related _ _ _ Hsel _ _ ob HF Hc) as (e & -> & He%Ha).
  - rewrite (find_none_related _ _ _ Hsel _ _ HF Hn).
    by destruct (find_first_related _ _ _ entry_catch_all _ _ ob HF Hc) as (e & -> & He%Ha).
Qed.
End Routing.

(** Evaluates the comparisons of the type of an inbound that is known. *)
Ltac decide_type H :=
  rewrite H;
  repeat match goal with
  | |- context [bool_decide (bs ?a = bs ?b)] =>
    let v := eval vm_compute in (bool_decide (bs a = bs b)) in change (bool_decide (bs a = bs b)) with v
  end; cbn [orb].

(** ** Who a client of an inbound is, by the configuration *)

Section Clients.
Context `{JS : Json} `{SH : Sha2} `{AE : Aead} `{VC : VmessCrypto} `{NW : Network}.
Implicit Types node : NodeConfigWire.

(** What a client writes for a target and a payload that goes in the pieces it
    likes, and what the listener answers on the same stream, if it does. *)
Inductive client_of (d : Draws) node : ProxyTarget → list Z → list Z → option (list Z) → Prop :=
| client_socks ms a payload :
    n_type node = bs "socks" ∨ n_type node = bs "socks5" →
    addr_wf a → 0 ∈ ms → (0 < length ms)%nat →
    client_of d node (to_proxy_target a) payload
      ((greeting ms ++ [VER; command_to_u8 Connect; 0] ++ Socks5.encode a) ++ payload)
      (Some ([VER; 0] ++ [VER; REP_SUCCEEDED; 0] ++ Socks5.encode a))
| client_trojan password t payload :
    n_type node = bs "trojan" → str_field (n_fields node) (bs "password") = Some password →
    target_addr_wf t →
    client_of d node t payload (encode_request_head Trojan.CMD_CONNECT t (password_hash password) ++ payload) (Some [])
| client_vless text u t payload :
    n_type node = bs "vless" →
    str_field (n_fields node) (bs "uuid") = Some text ∨ text ∈ users_of (n_fields node) →
    parse_uuid text = Some u → target_addr_wf t →
    client_of d node t payload (Vless.encode_request u CMD_TCP t [] ++ payload) (Some [0; 0])
| client_vmess cfg uc dr security sec t ts ps body :
    n_type node = bs "vmess" → draws_wf dr → target_addr_wf t → security_byte security = Ok sec →
    0 ≤ ts < 2 ^ 63 → 0 ≤ dw_now d < 2 ^ 63 → Z.abs (dw_now d - ts) ≤ 120 →
    carried (chunk_new (client_keys dr) (chunk_sec_out sec) true true) ps body →
    client_of d node t (concat ps) (request_bytes cfg uc dr ts sec t ++ body) None.

Lemma push_uuids_in err us acc acc' :
  try_fold (push_uuid err) acc us = Ok acc' →
  (∀ u, u ∈ acc → u ∈ acc') ∧ ∀ text u, text ∈ us → parse_uuid text = Some u → u ∈ acc'.
Proof.
  revert acc; induction us as [|x us IH]; intros acc H; cbn [try_fold] in H.
  - injection H as ->. split; [done|]. intros text u Hin. by apply elem_of_nil in Hin.
  - unfold push_uuid at 1 in H. destruct (parse_uuid x) as [b|] eqn:E; cbn [ok_or] in H; [|done].
    destruct (IH _ H) as [H1 H2]. split.
    + intros u Hu. apply H1, elem_of_app. by left.
    + intros text u [->|Hin]%elem_of_cons Hp; [|by eapply H2].
      rewrite E in Hp. injection Hp as ->. apply H1, elem_of_app. right. by apply list_elem_of_singleton.
Qed.

Lemma client_speaks files generate d node p t payload i reply :
  build_proto files generate node = Ok p → client_of d node t payload i reply → speaks d p t payload i reply.
Proof.
  intros Hb Hc. revert Hb. unfold build_proto, need_field. cbv zeta.
  destruct Hc as [ms a payload Hty Ha Hms Hl | password t payload Hty Hpw Ht | text u t payload Hty Hin Hu Ht |
                  cfg uc dr security sec t ts ps body Hty Hdr Ht Hsec Hts Hnow Hn Hcar].
  - destruct Hty as [Hty|Hty]; decide_type Hty; intros [= <-]; apply speaks_plain; by apply agrees_socks.
  - decide_type Hty. rewrite Hpw. cbn [ok_or]. intros [= <-]. apply speaks_plain. by apply agrees_trojan.
  - decide_type Hty. destruct (try_fold _ [] _) as [us| |] eqn:E; [|done..].
    case_bool_decide; [done|]. intros [= <-]. apply speaks_plain. apply agrees_vless; [done|by eapply parse_uuid_length|].
    eapply (proj2 (push_uuids_in _ _ _ _ E)); [|exact Hu]. apply elem_of_app.
    destruct Hin as [-> |Hin]; [left; by apply list_elem_of_singleton | by right].
  - decide_type Hty. destruct (try_fold _ [] _) as [us| |]; [|done..].
    destruct (match str_field _ _ with Some _ => _ | None => _ end) as [us'| |]; [|done..].
    case_bool_decide; [done|]. intros [= <-]. destruct us' as [|u us']; [done|]. by eapply speaks_vmess.
Qed.
End Clients.

(** ** The listeners of a configuration *)

Section Listeners.
Context `{JS : Json} `{SH : Sha2} `{RL : RegexLib}.
Context (files : fs) (generate : str → res str ServerCertMaterial) (b64 : str → res str (list Z)).
Context (tcp_bind : SocketAddr → res ioerr unit) (self_signed : str → res str (list Z * list Z)).
Context (hy_bind : SocketAddr → str → list Z * list Z → res ioerr unit).

(** The tag of the inbound at place [k]. *)
Definition node_tag (k : nat) (node : NodeConfigWire) : str :=
  if bool_decide (n_tag node = []) then bs "in-" ++ show_dec (Z.of_nat k) else n_tag node.

Lemma build_plan_inv k node plan :
  build_plan files generate k node = Ok plan →
  p_tag plan = node_tag k node ∧ expand_listen_addrs node = Ok (p_listen plan)
  ∧ build_proto files generate node = Ok (p_proto plan) ∧ p_wrap plan = build_wrap node
  ∧ p_accept_pp plan = n_accept_proxy_protocol node || n_enable_proxy_protocol node
  ∧ plan_mux node = Ok (p_mux plan) ∧ tls_setup files generate node (λ ts, opt_list (tls_alpn ts)) = Ok (p_tls plan).
Proof.
  unfold build_plan. destruct (expand_listen_addrs node); [|done..]. destruct (build_proto _ _ node); [|done..].
  destruct (tls_setup _ _ node _); [|done..]. destruct (plan_mux node); [|done..]. by intros [= <-].
Qed.

Lemma plan_of_node wire ps k node :
  build_node_plans files generate wire = Ok ps → w_nodes wire !! k = Some node →
  ∃ plan, plan ∈ ps ∧ build_plan files generate k node = Ok plan.
Proof.
  intros H%build_plans_lookup Hk.
  assert (zip (seq 0 (length (w_nodes wire))) (w_nodes wire) !! k = Some (k, node)) as Hz.
  { apply lookup_zip_Some. split; [|done]. apply lookup_seq. split; [done|]. by eapply lookup_lt_Some. }
  destruct (Forall2_lookup_l _ _ _ _ _ H Hz) as (plan & Hp & Hb). exists plan. split; [|done]. by eapply list_elem_of_lookup_2.
Qed.

(** Each address of each inbound has a listener under the inbound's tag. *)
Lemma listener_of_node wire rt l port k node addrs addr :
  initialize files generate b64 wire = Ok rt → start tcp_bind self_signed hy_bind rt = Ok (l, port) →
  w_nodes wire !! k = Some node → expand_listen_addrs node = Ok addrs → addr ∈ addrs →
  ∃ i plan, l !! i = Some (mk_started plan addr (node_tag k node)) ∧ build_plan files generate k node = Ok plan.
Proof.
  intros Hi Hs Hk Ha Hin. destruct (initialize_inv _ _ _ _ _ Hi) as (_ & _ & Hp & _).
  destruct (plan_of_node _ _ _ _ Hp Hk) as (plan & Hplan & Hb).
  destruct (build_plan_inv _ _ _ Hb) as (Ht & Hl & _). rewrite Ha in Hl. injection Hl as ->.
  destruct (start_ok tcp_bind self_signed hy_bind rt) as [H1 H2].
  destruct (H1 (H2 _ Hs)) as (l' & Hs' & Hperm). rewrite Hs in Hs'. injection Hs' as <- _.
  assert (started (plan, addr) ∈ l) as Hst.
  { rewrite Hperm. apply list_elem_of_fmap. exists (plan, addr). split; [done|]. by apply elem_of_endpoints. }
  apply list_elem_of_lookup in Hst as [i Hst]. exists i, plan. unfold started in Hst. cbn [fst snd] in Hst. by rewrite Ht in Hst.
Qed.
End Listeners.

(** ** From the configuration to the bytes *)

(** TCP or TLS, nothing in between. *)
Definition plain_inbound `{JS : Json} (node : NodeConfigWire) : Prop :=
  build_wrap node = WNone ∧ n_accept_proxy_protocol node || n_enable_proxy_protocol node = false
  ∧ n_mux_enabled node = false.

Section Deployment.
Context `{JS : Json} `{FE : Frontend} `{NW : Network} `{RL : RegexLib} `{AE : Aead} `{SH : Sha2} `{VC : VmessCrypto}.
Context (files : fs) (generate : str → res str ServerCertMaterial) (b64 : str → res str (list Z)).
Context (tcp_bind : SocketAddr → res ioerr unit) (self_signed : str → res str (list Z * list Z)).
Context (hy_bind : SocketAddr → str → list Z * list Z → res ioerr unit).
Context (show_status : Z → str) (hmac_sha256 : str → str → str).

Notation serving rt l es :=
  (server_run show_status hmac_sha256 (rt_router rt) tracker_new (server_new l) es).

(** C1: a configuration means what it says.  When the process accepts it and has
    started, every address of every TCP inbound has a listener, and whatever
    connections all the listeners have met before, a client that the inbound's
    entry names, that is with the trojan password or a VLESS identifier of the
    entry, a SOCKS5 client, or a VMess client within its time window, has exactly
    its payload delivered to the server that the connector of the chosen
    outbound's entry reaches, and gets exactly what that server sends after the
    listener's own answer.  The chosen outbound is the first whose criteria the
    connection satisfies, or else the first without criteria. *)
Theorem deployed_forwards wire rt l port k node addrs addr ob :
  initialize files generate b64 wire = Ok rt → start tcp_bind self_signed hy_bind rt = Ok (l, port) →
  w_nodes wire !! k = Some node → plain_inbound node → expand_listen_addrs node = Ok addrs → addr ∈ addrs →
  proxying ob →
  ∃ i st, l !! i = Some st ∧ st_addr st = addr ∧ ∀ es env s s1 t payload reply,
    ends (tcp_at i) es = None →
    (∀ tls, tls_setup files generate node (λ ts, opt_list (tls_alpn ts)) = Ok tls → maybe_tls tls s = Ok s1) →
    clean s1 → s_wr s1 = [] → client_of (env_draws env) node t payload (avail s1) reply → sniff_safe payload = true →
    (∀ sniffed, chosen (r_geo (rt_router rt)) t sniffed (node_tag k node) (w_outbounds wire) ob) →
    copies (env_copy env) →
    ∃ conn, build_connector ob = Ok (Some conn) ∧ ∀ remote,
      env_dial env conn t = Ok remote → clean remote → s_wr remote = [] →
      ∃ h r remote',
        srv_log (serving rt l (es ++ [TcpAccept i (inr (env, s))])) = srv_log (serving rt l es) ++ [(Some i, OStream h)]
        ∧ hd_res h = Ok tt ∧ hd_sessions h = [TcpSession r] ∧ rl_remote r = Some remote'
        ∧ s_out remote' = s_out remote ++ payload
        ∧ s_out (rl_client r) = match reply with Some b => s_out s1 ++ b | None => [] end ++ avail remote.
Proof.
  intros Hi Hs Hk (Hw & Hpp & Hm) Ha Hin Hob.
  destruct (listener_of_node _ _ _ _ _ _ _ _ _ _ _ _ _ _ Hi Hs Hk Ha Hin) as (i & plan & Hl & Hb).
  destruct (build_plan_inv _ _ _ _ _ Hb) as (_ & _ & Hproto & Hwrap & Hacc & Hmux & Htls).
  exists i, (mk_started plan addr (node_tag k node)). split; [done|]. split; [done|].
  intros es env s s1 t payload reply He Hmt Hc Hwr Hcl Hsafe Hch Hcopy.
  destruct (configured_route _ _ _ _ _ t None _ _ Hi Hob (Hch None)) as (conn & Hconn & _).
  exists conn. split; [done|]. intros remote Hdial Hcr Hwrr.
  assert (∀ host, route (rt_router rt) t host (node_tag k node) = Proxy conn) as Hroute.
  { intros host. destruct (configured_route _ _ _ _ _ t host _ _ Hi Hob (Hch host)) as (c & Hc' & ->). congruence. }
  pose proof (client_speaks _ _ _ _ _ _ _ _ _ Hproto Hcl) as Hsp.
  unfold plan_mux in Hmux. rewrite Hm in Hmux. injection Hmux as Hmux.
  assert (is_hysteria2 (p_proto plan) = false) as Hq.
  { clear -Hsp. revert Hsp. generalize (p_proto plan). intros p Hsp. by destruct Hsp as [????? []|]. }
  rewrite (server_accepts _ _ _ _ _ _ _ _ _ Hl) by done.
  cbn [spawn srv_log]. set (c := srv_counters _).
  destruct (handle_stream_forwards show_status hmac_sha256 (env_draws env) (env_udp env) (env_port env)
    (env_dial env) (env_copy env) plan (mk_shared (node_tag k node) (rt_router rt)) c s s1 t payload (avail s1) reply conn remote)
    as (H1 & r & remote' & H2 & H3 & H4 & H5 & _); try done.
  - by rewrite Hwrap.
  - by rewrite Hacc.
  - by apply Hmt.
  - by eexists _, r, remote'.
Qed.

(** C3: a configuration with an AnyTLS inbound means what it says, too: the streams
    of a client with the password of the entry, opened, written and shut down in
    any order and interleaving, are sessions in the order of their opening; each
    has exactly what was written to it delivered to the server of its target,
    through the connector of the outbound that the configuration chooses for the
    target, and what that server sends is written back to the stream. *)
Theorem deployed_multiplexes wire rt l port k node addrs addr password :
  initialize files generate b64 wire = Ok rt → start tcp_bind self_signed hy_bind rt = Ok (l, port) →
  w_nodes wire !! k = Some node → plain_inbound node → expand_listen_addrs node = Ok addrs → addr ∈ addrs →
  n_type node = bs "anytls" → str_field (n_fields node) (bs "password") = Some password →
  ∃ i st, l !! i = Some st ∧ st_addr st = addr ∧ ∀ es env s s1 ver ops ob conn remote,
    ends (tcp_at i) es = None →
    (∀ tls, tls_setup files generate node (λ ts, opt_list (tls_alpn ts)) = Ok tls → maybe_tls tls s = Ok s1) →
    clean s1 → s_wr s1 = [] → anytls_client password ver ops (avail s1) → copies (env_copy env) →
    Forall (λ x, sniff_safe x.2 = true ∧ proxying (ob x.1) ∧ build_connector (ob x.1) = Ok (Some (conn x.1))
      ∧ (∀ sniffed, chosen (r_geo (rt_router rt)) x.1 sniffed (node_tag k node) (w_outbounds wire) (ob x.1))
      ∧ env_dial env (conn x.1) x.1 = Ok (remote x.1) ∧ clean (remote x.1) ∧ s_wr (remote x.1) = []) (opened ops) →
    ∃ h,
      srv_log (serving rt l (es ++ [TcpAccept i (inr (env, s))])) = srv_log (serving rt l es) ++ [(Some i, OStream h)]
      ∧ hd_res h = Ok tt ∧ Forall2 (delivered remote) (opened ops) (hd_sessions h).
Proof.
  intros Hi Hs Hk (Hw & Hpp & Hm) Ha Hin Hty Hpw.
  destruct (listener_of_node _ _ _ _ _ _ _ _ _ _ _ _ _ _ Hi Hs Hk Ha Hin) as (i & plan & Hl & Hb).
  destruct (build_plan_inv _ _ _ _ _ Hb) as (_ & _ & Hproto & Hwrap & Hacc & Hmux & Htls).
  exists i, (mk_started plan addr (node_tag k node)). split; [done|]. split; [done|].
  intros es env s s1 ver ops ob conn remote He Hmt Hc Hwr Hcl Hcopy Hx.
  assert (p_proto plan = IAnytls password) as Hp.
  { revert Hproto. unfold build_proto, need_field. cbv zeta. decide_type Hty. rewrite Hpw. cbn [ok_or]. by intros [= <-]. }
  unfold plan_mux in Hmux. rewrite Hm in Hmux. injection Hmux as Hmux.
  rewrite (server_accepts _ _ _ _ _ _ _ _ _ Hl); [|by unfold is_quic; cbn [st_plan]; rewrite Hp|done].
  eexists. cbn [spawn srv_log]. split; [done|]. unfold stream_task. cbn [fst snd st_plan st_tag].
  apply (handle_anytls_forwards show_status hmac_sha256 (env_draws env) (env_udp env) (env_port env)
    (env_dial env) (env_copy env) plan (mk_shared (node_tag k node) (rt_router rt)) _ s s1 password ver ops conn remote); try done.
  - by rewrite Hwrap.
  - by rewrite Hacc.
  - by apply Hmt.
  - eapply Forall_impl; [exact Hx|]. intros [t p] (H1 & H2 & H3 & H4 & H5 & H6 & H7). cbn [fst snd] in *.
    split; [done|]. split; [|done]. intros host. cbn [sh_router sh_inbound_tag fst].
    destruct (configured_route _ _ _ _ _ t host _ _ Hi H2 (H4 host)) as (c & Hc' & ->). congruence.
Qed.

End Deployment.

(** A trojan inbound on three ports, with one trojan outbound for everything. *)
Definition deployed_node : @NodeConfigWire tree_json :=
  plain_node (bs "trojan") 443 [(bs "password", JStr (bs "pw"))].
Definition deployed_outbound : @OutboundSpecWire tree_json :=
  @mk_outbound_wire tree_json (bs "proxy") (bs "trojan") (Some (mk_target_wire (Some (bs "srv")) (Some 443)))
    (list_to_map [(bs "password", JStr (bs "up"))]).
Definition deployed_wire : @RuntimeConfigWire tree_json :=
  @mk_runtime_wire tree_json [deployed_outbound] [deployed_node] ∅ None None None.
Definition deployed_runtime : res CoreError (@CoreRuntime literal_regex) :=
  @initialize tree_json pad_sha2 literal_regex (λ _, Err []) (λ _, Err []) (λ _, Err []) deployed_wire.
Definition deployed_listeners (rt : @CoreRuntime literal_regex) : res CoreError (list Started * option Z) :=
  @start literal_regex (λ _, Ok tt) (λ _, Err []) (λ _ _ _, Ok tt) rt.
Definition deployed_run (rt : @CoreRuntime literal_regex) (l : list Started) (es : list event) : Supervisor.Server :=
  @server_run plain_frontend chain_network literal_regex detached_ciphers pad_sha2 mask_crypto show_dec (λ k _, k)
    (rt_router rt) tracker_new (server_new l) es.
Definition deployed_env (remote : sock) : Env := mk_env example_draws (λ _ _, Ok remote) copy_all [] (Err early_eof).

Lemma deployed_forwards_witness :
  let addr := sa_new (V6 (replicate 15 0 ++ [1])) 9000 in
  let t := Domain (bs "a.b") 80 in
  let head := encode_request_head Trojan.CMD_CONNECT t (@password_hash pad_sha2 (bs "pw")) in
  let payload := bs "GET / HTTP/1.1" ++ [13; 10] in
  let remote := stream_of [[1; 2]; [3]] in
  let env := deployed_env remote in
  let es := [TcpAccept 0 (inr (env, stream_of [[5; 1]])); TcpAccept 1 (inr (env, stream_of []));
             MetricsAccept (inl early_eof)] in
  ∃ rt l port i st, deployed_runtime = Ok rt ∧ deployed_listeners rt = Ok (l, port) ∧ l !! i = Some st ∧ st_addr st = addr
  ∧ ∃ h r remote',
      srv_log (deployed_run rt l (es ++ [TcpAccept i (inr (env, stream_of [head ++ bs "GET"; bs " / HTTP/1.1"; [13; 10]]))]))
      = srv_log (deployed_run rt l es) ++ [(Some i, OStream h)]
      ∧ hd_res h = Ok tt ∧ hd_sessions h = [TcpSession r] ∧ rl_remote r = Some remote'
      ∧ s_out remote' = [] ++ payload ∧ s_out (rl_client r) = ([] ++ []) ++ [1; 2; 3].
Proof.
  intros addr t head payload remote env es.
  destruct deployed_runtime as [rt| |] eqn:Ert; [|vm_compute in Ert; discriminate Ert..].
  destruct (deployed_listeners rt) as [[l port]| |] eqn:El;
    [|vm_compute in Ert; injection Ert as <-; vm_compute in El; discriminate El..].
  destruct (@deployed_forwards tree_json plain_frontend chain_network literal_regex detached_ciphers pad_sha2 mask_crypto
    (λ _, Err []) (λ _, Err []) (λ _, Err []) (λ _, Ok tt) (λ _, Err []) (λ _ _ _, Ok tt) show_dec (λ k _, k)
    deployed_wire rt l port 0 deployed_node (map (sa_new (V6 (replicate 15 0 ++ [1]))) [443; 9000; 9001]) addr deployed_outbound
    Ert El) as (i & st & Hl & Hst & H).
  - reflexivity.
  - by split.
  - vm_compute. reflexivity.
  - right. left.
  - split; [vm_compute; reflexivity|]. split; [vm_compute; reflexivity|]. split; [by_decide|]. split; [by_decide|].
    vm_compute. reflexivity.
  - exists rt, l, port, i, st. split; [done|]. split; [done|]. split; [done|]. split; [done|].
    assert (ends (tcp_at i) es = None) as He.
    { unfold es. cbn [ends tcp_at]. by repeat case_bool_decide. }
    destruct (H es env (stream_of [head ++ bs "GET"; bs " / HTTP/1.1"; [13; 10]])
      (stream_of [head ++ bs "GET"; bs " / HTTP/1.1"; [13; 10]]) t payload (Some [])) as (conn & _ & Hf).
    + exact He.
    + intros tls Htls. vm_compute in Htls. injection Htls as <-. reflexivity.
    + apply clean_stream_of.
    + reflexivity.
    + refine (client_trojan _ _ (bs "pw") t payload _ _ _); [reflexivity | vm_compute; reflexivity | by_decide].
    + vm_compute. reflexivity.
    + intros sniffed. right. split.
      * constructor; [|constructor]. intros [Hn _]. vm_compute in Hn. discriminate Hn.
      * exists [], []. split; [reflexivity|]. split; [vm_compute; reflexivity|constructor].
    + apply copy_all_copies.
    + apply (Hf remote); [reflexivity | apply clean_stream_of | reflexivity].
Defined.


(** An AnyTLS inbound, and the client of the file Anytls with two interleaved
    streams. *)
Definition multiplexed_node : @NodeConfigWire tree_json :=
  plain_node (bs "anytls") 443 [(bs "password", JStr (bs "pw"))].
Definition multiplexed_wire : @RuntimeConfigWire tree_json :=
  @mk_runtime_wire tree_json [deployed_outbound] [multiplexed_node] ∅ None None None.

Lemma deployed_multiplexes_witness :
  let addr := sa_new (V6 (replicate 15 0 ++ [1])) 443 in
  let reply := stream_of [[1; 2]; [3]] in
  let env := deployed_env reply in
  ∃ rt l port i,
    @initialize tree_json pad_sha2 literal_regex (λ _, Err []) (λ _, Err []) (λ _, Err []) multiplexed_wire = Ok rt
  ∧ deployed_listeners rt = Ok (l, port) ∧ ∃ h,
      srv_log (deployed_run rt l [TcpAccept i (inr (env, stream_of [take 40 Anytls.ex_bytes; drop 40 Anytls.ex_bytes]))])
      = [(Some i, OStream h)]
      ∧ Forall2 (delivered (λ _, reply))
          [(Domain (bs "a.b") 443, [1; 2; 3]); (Tcp (sa_new (V4 [10; 0; 0; 1]) 53), [9; 8; 7])] (hd_sessions h).
Proof.
  intros addr reply env.
  destruct (@initialize tree_json pad_sha2 literal_regex (λ _, Err []) (λ _, Err []) (λ _, Err []) multiplexed_wire)
    as [rt| |] eqn:Ert; [|vm_compute in Ert; discriminate Ert..].
  destruct (deployed_listeners rt) as [[l port]| |] eqn:El;
    [|vm_compute in Ert; injection Ert as <-; vm_compute in El; discriminate El..].
  destruct (@deployed_multiplexes tree_json plain_frontend chain_network literal_regex detached_ciphers pad_sha2 mask_crypto
    (λ _, Err []) (λ _, Err []) (λ _, Err []) (λ _, Ok tt) (λ _, Err []) (λ _ _ _, Ok tt) show_dec (λ k _, k)
    multiplexed_wire rt l port 0 multiplexed_node (map (sa_new (V6 (replicate 15 0 ++ [1]))) [443; 9000; 9001]) addr (bs "pw")
    Ert El) as (i & st & Hl & Hst & H).
  - reflexivity.
  - by split.
  - vm_compute. reflexivity.
  - left.
  - reflexivity.
  - vm_compute. reflexivity.
  - exists rt, l, port, i. split; [done|]. split; [done|].
    assert (opened Anytls.ex_ops
            = [(Domain (bs "a.b") 443, [1; 2; 3]); (Tcp (sa_new (V4 [10; 0; 0; 1]) 53), [9; 8; 7])]) as Ho
      by (vm_compute; reflexivity).
    destruct (H [] env (stream_of [take 40 Anytls.ex_bytes; drop 40 Anytls.ex_bytes])
      (stream_of [take 40 Anytls.ex_bytes; drop 40 Anytls.ex_bytes]) (bs "1") Anytls.ex_ops (λ _, deployed_outbound)
      (λ _, CTrojan (bs "proxy") (bs "srv") 443 (bs "up") None None None) (λ _, reply)) as (h & Hlog & _ & HF).
    + reflexivity.
    + intros tls Htls. vm_compute in Htls. injection Htls as <-. reflexivity.
    + apply clean_stream_of.
    + reflexivity.
    + exists Anytls.ex_start, (mk_sock [] (@Anytls.auth_token pad_sha2 (bs "pw") ++ be_bytes 2 0) [] false), Anytls.ex_end.
      split; [vm_compute; reflexivity|]. split; [vm_compute; reflexivity|].
      split; [apply (@bool_decide_eq_true_1 _ (@Forall_dec _ Anytls.op_wf Anytls.op_wf_dec _)); vm_compute; reflexivity|].
      split; [vm_compute; reflexivity|]. split; [vm_compute; reflexivity|]. split; [vm_compute; reflexivity|]. split; [vm_compute; reflexivity|].
      vm_compute. reflexivity.
    + apply copy_all_copies.
    + apply Forall_forall. intros x Hx.
      assert (∀ sniffed t, chosen (r_geo (rt_router rt)) t sniffed (bs "in-0") [deployed_outbound] deployed_outbound) as Hch.
      { intros sniffed t. right. split.
        - constructor; [|constructor]. intros [Hn _]. vm_compute in Hn. discriminate Hn.
        - exists [], []. split; [reflexivity|]. split; [vm_compute; reflexivity|constructor]. }
      split; [rewrite Ho in Hx; apply elem_of_cons in Hx as [->|Hx]; [|apply list_elem_of_singleton in Hx as ->]; vm_compute; reflexivity|].
      split; [split; [vm_compute; reflexivity|]; split; [vm_compute; reflexivity|]; split; [by_decide|];
              split; [by_decide|]; vm_compute; reflexivity|].
      split; [vm_compute; reflexivity|]. split; [intros sniffed; apply Hch|]. split; [reflexivity|].
      split; [apply clean_stream_of | reflexivity].
    + rewrite Ho in HF. exists h. split; [exact Hlog | exact HF].
Defined.
